(* ===== verification/_CoqProject ===== *)
-Q . S2P
Prelude.v
Json.v
Paths.v
Patch.v
Diff.v
Lazy.v
Entries.v
Status.v
Events.v
Projection.v
Refresh.v
Converge.v
System.v
Cache.v
Sync.v
CompactCodec.v
Client.v
Replica.v
Recovery.v
Relay.v
Reactor.v
GitStamp.v
Accounting.v
PatchView.v
Tree.v
Lanes.v
Verbs.v
Scope.v
Connection.v
Attachment.v
Replies.v
Actor.v
Streams.v
Registry.v
Activations.v
Shutdown.v
Worker.v
Protocol.v
Link.v
LinkStreams.v
Server.v
Served.v
Remote.v
