(* ===== verification/Prelude.v ===== *)
(** * The pi-bridge session protocol

    A development about [src/packages/bridge]: the protocol that shows a pi
    session, an append-only log of entries with lifecycle events on top, as one
    JSON document to any number of remote clients.  The host derives the document
    from the log and broadcasts changes as patches; a client mirrors it, pulls
    the large fields on demand, and caches entries to resume from a cursor; the
    user interface derives its views from the mirrored document.  The sessions live
    in workers, in the daemon's process or behind a socket.

    ** The parts, and where the program has them

    Values and documents ([core/document.ts], [core/types.ts]):
    - [Prelude]: strings, arrays, stable sorting, maps filled by a loop.
    - [Json]: dynamic values, property reads, JSON round trip, doubles.
    - [Paths]: path parsing, the lazy-path tables, the loops over ancestors.
    - [Patch]: the patch operations and the structural-sharing walk.
    - [Diff]: [computeObjectDiff], the patch between two argument objects.
    - [Lazy]: stripping, the wire snapshot, the filter per socket.
    The document of a session:
    - [Entries]: [projectEntry], a stored entry as a document entry.
    - [Status]: [deriveStatus], [deriveStats], [initFromEntries].
    - [Events]: [applyEvent], what a lifecycle event does to the document.
    - [Projection] ([core/projection.ts], and [readEntries] of
      [coding-agent/src/core/session-manager.ts]): the stateful projection.
    - [Refresh], [Converge], [System]: the projection as a transition system over
      a growing or rewritten log.
    Resuming and transport:
    - [Cache] ([core/cache.ts]), [Sync] ([core/sync.ts]): cursor, seeded document,
      full and delta syncs.
    - [CompactCodec] ([core/compact-codec.ts]): the encoder and decoder pair.
    - [Client] ([core/client.ts]), [Replica]: mirror, correlation and pulls; the
      mirror as a replica of what the host sends.
    - [Verbs] ([core/client.ts], [host/connection-verbs.ts], the dispatch of
      [host/connection.ts]): the requests and what the host does with each.
    - [Connection] ([host/connection.ts], [attach] of [host/daemon.ts]): the
      attachment and its generation, the line of the transitions, the delivery of
      frames, the disposal; one event per end of an await, in any order.
      [Attachment]: what a client sees of it, through the codec and [Client];
      [Replies]: what it answers.
    Derived logic:
    - [Recovery], [Relay] ([core/recovery.ts]): the recoverable boundary of a
      broken turn, and the record of an interrupted tool batch.
    - [Reactor] ([core/reactor.ts]): one mailbox over a pure step function.
    - [GitStamp] ([core/git-stamp.ts]): validation of stamp payloads.
    - [Accounting], [PatchView], [Tree], [Lanes] ([viewmodel/accounting.ts],
      [viewmodel/apply-patch.ts], [viewmodel/tree.ts]): the cost ledger, the patch
      envelope parser, the history tree and its lanes.

    The sessions of a worker ([host]):
    - [Scope] ([lifecycle-scope.ts]): one queue of operations with a close.
    - [Actor] ([session-actor.ts]): admission, the idle decision, the terminal
      boundary of one session's runtime.
    - [Streams] ([installObservation] and [endObservations] of [worker-local.ts]):
      the observations of one activation over [Actor], which deliver what
      [Connection] lets a worker deliver ([Connection.streamStep]).
    - [Registry] ([activation-registry.ts], and [createSession], [closeSession],
      [archiveSession] and [admissionFor] of [worker-local.ts]): which sessions are
      created, live and collected, as an interleaving of asynchronous functions
      with one program point per [await].  It asks of an actor what the class
      [Registry.ActorSpec] states; [Worker] makes [Actor] an instance.
    - [Activations], [Shutdown]: the invariant of the registry, what a step does to
      its records and creations, the drain; [Worker]: the theorems on the two
      composed, with runs as witnesses.

    A worker in another process ([host]):
    - [Protocol] ([worker-protocol.ts]): frames, and the requests as the methods of
      [worker-client.ts] write them and the dispatch of [worker-server.ts] reads
      them.
    - [Link] ([worker-client.ts], and the reaction of [daemon.ts] to a worker that
      is unavailable): the daemon's end, from the handshake to the loss of the link;
      [LinkStreams]: what its calls and sinks see.
    - [Server] ([serveWorkerConnection] of [worker-server.ts]): the worker's end;
      [Served]: its replies, releases and shutdown.
    - [Remote]: the two ends and the ordered socket between them.

    Each file imports the ones it calls.  An operation of the source is one
    definition of the same name, and the steps inside a long one are definitions
    of their own, composed in the order of the source.

    ** What the theorems show

    - The projection: in every reachable state no operation throws or hangs
      ([System.projection_total]); a refresh makes the document agree with the log
      ([refresh_converges]) and broadcasts exactly its own change
      ([Refresh.refresh_patch]); settling gives the bootstrap document
      ([settle_bootstraps]); events touch their own entry only
      ([Events.applyEvent_frame]) and never a sealed one ([event_keeps_sealed]).
    - Transport: a delta sync gives what a full sync gives
      ([Sync.delta_sync_equals_full]); the codec loses nothing
      ([CompactCodec.compact_stream]); the mirror of a client is the document the
      host sent, stale attachments refused ([Replica.mirror_refines_replica]); the
      socket filter leaks no lazy field ([Lazy.filterPatchForSocket_safe]).
    - Requests: each is settled once ([Client.rpc_settled_once]), reaches the
      operation it stands for ([Verbs.request_reaches_host]) and is answered by
      one frame with its id, under any interleaving ([requests_answered_once]); none
      hangs ([requests_settle]), and an open that succeeds says what is attached
      ([open_reply_holds]).
    - Attachments: the mirror of a client is made of the frames of one observation
      ([client_shows_one_observation]), that of the connection's attachment unless a
      newer open is in flight or has failed ([client_follows_attachment]); a creation
      names its own sync; a disposed connection holds no observation.  A worker's
      streams keep the order this rests on ([worker_keeps_stream_order]) and carry
      withheld content only where it was pulled ([stream_sends_only_pulled]).
    - Sessions: whatever interleaves, a session has one runtime
      ([Worker.one_runtime]) and a target names one activation; the shutdown leaves
      nothing behind, a close that was answered has closed, no session is forgotten
      ([Worker]); a close runs every admitted mutation, admits nothing more,
      disposes once and can always finish ([Actor]).
    - A worker behind a socket hands a connection the frames a worker in the same
      process would, up to the end of the link ([remote_worker_keeps_stream_order]):
      a request arrives as it was made ([worker_request_reaches_service]), is
      answered once ([server_answers_once]), and its call settles
      ([link_requests_settle]); what was acquired for a connection that ended is
      released ([server_releases_acquired]); a shutdown is answered last
      ([shutdown_answers_last]); a link that the daemon dialed ends its streams
      ([ended_link_ends_streams]), others do not ([lost_link_strands_sinks]).
    - Patches, paths and diffs compose, read back and apply ([Patch], [Paths],
      [Diff], [Events]).
    - Recovery: the boundary is the declarative one, and the relay fits unless
      escapes fill it, in which case it may not be built at all ([Recovery],
      [Relay]).  The reactor is a fold of its step function and drains exactly.
    - Views: the history tree holds every user message once, folding loses none,
      and the lanes never overlap ([Tree], [Lanes]); envelopes and stamps are read
      back; the ledger adds up.
    - Faults of the source, proved on concrete inputs: [isLazyFieldPath_diverges],
      [computeObjectDiff_slash_key], [orphan_update_survives_settle],
      [shapeEqual_array_object], [relay_diverges], [request_unanswered],
      [archive_races_open], [failed_open_strands_client], [attach_after_close],
      [heartbeat_outlives_connection], [ended_observation_installed],
      [created_observation_ends_twice]; [lost_link_strands_sinks] is one for every
      run.

    ** Conventions

    - A value is [Json.json]; the order of an object's properties is not modelled.
      A number is an integer or a binary64 float with the operations of the
      standard library's [SpecFloat]; [-0] is [0].  Strings are sequences of 8-bit
      code units.
    - State is passed explicitly.  A throw, a loop that does not end within its
      fuel and a read of [undefined] that the source does not expect are [None].
      Reference identity is kept where a claim depends on it: whether a patch made
      a fresh root, and which entry of a path an assistant message is.
    - A JavaScript [Map] is an association list where its order matters and a
      finite map where it does not.
    - What runs between two turns of the event loop is one function; the ends of
      promises are events of the environment.  An object or promise compared by
      identity is the position at which it was made.  In [Registry] every order of
      resumption is allowed, which includes the order of the event loop.
    - On a worker link a field that the protocol types as a string and that holds
      another value reads as the text [undefined].  A sink and a listener of events
      do not call back into the link; the listener of [unavailable] does.  A socket
      keeps the order of texts; it may lose the last ones.
    - Fuel.  The walks up [parentId] need one unit more than there are entries
      ([Status.walkFuel]); the parsers one per line; the primary chain of a lane
      one per row; the path loops one per character.  Each is proved to be enough
      on the inputs named there; [relay_diverges] and [isLazyFieldPath_diverges]
      show the two loops for which none is.
    - Parameters stand for what the model leaves open: the key order and float
      text of [JSON.stringify] in [Relay], [localeCompare] and the ellipsis in
      [Tree] and [Lanes], the daemon and session behind the verb handlers in
      [Verbs].

    ** Not modelled

    - That the mirror of a client without subscriptions stays the wire snapshot of
      the host's document is not proved; the filter's side of it is
      ([filterPatchForSocket_safe]).
    - The rest of [host]: the processes, the listeners that accept sockets, files and
      git commands; of the worker, listings and settings.
    - [viewmodel/index.ts] and [web]: rendering.
    - The other packages: the agent, model providers, terminal interface and tools,
      which the protocol observes or which do not take part in it. *)

From Stdlib Require Export Ascii String.
From Stdlib Require Import DecimalString DecimalNat DecimalFacts.
From stdpp Require Export base decidable option list sorting gmap strings.

Declare Scope js_scope.
Delimit Scope js_scope with js.
Create HintDb bridge.
Create Rewrite HintDb bridge_rw.
#[global] Arguments String.append !_ _ / : simpl nomatch.

(** ** Tactics *)

(** Split a boolean conjunction and turn boolean tests into propositions. *)
Ltac split_bools :=
  repeat match goal with
  | H : _ && _ = true |- _ => apply andb_prop in H; destruct H
  | H : Is_true (_ && _) |- _ => apply andb_prop_elim in H; destruct H
  | H : bool_decide _ = true |- _ => apply bool_decide_eq_true in H
  | H : bool_decide _ = false |- _ => apply bool_decide_eq_false in H
  | H : negb _ = true |- _ => apply negb_true_iff in H
  | H : negb _ = false |- _ => apply negb_false_iff in H
  | H : Is_true ?b |- _ => apply Is_true_true in H
  end.

(** Case analysis on every [match] of the goal, keeping the equations. *)
Ltac case_all := repeat (case_match; simplify_eq/=).

(** ** Strings as sequences of code units *)

(** [s.length] *)
Definition slength (s : string) : nat := String.length s.

(** [s.slice(n)] for a non-negative [n]. *)
Fixpoint sdrop (n : nat) (s : string) : string :=
  match n, s with
  | S n', String _ s' => sdrop n' s'
  | _, _ => s
  end.

(** [s.slice(0, n)] for a non-negative [n]. *)
Fixpoint stake (n : nat) (s : string) : string :=
  match n, s with
  | S n', String a s' => String a (stake n' s')
  | _, _ => EmptyString
  end.

(** [s.startsWith(p)] *)
Fixpoint startsWith (p s : string) : bool :=
  match p, s with
  | EmptyString, _ => true
  | String a p', String b s' => bool_decide (a = b) && startsWith p' s'
  | _, _ => false
  end.

(** No code unit of [s] is [c]. *)
Fixpoint char_free (c : ascii) (s : string) : bool :=
  match s with
  | EmptyString => true
  | String a s' => bool_decide (a ≠ c) && char_free c s'
  end.

(** [s.split(c)] for a one-character separator. *)
Fixpoint split_on (c : ascii) (s : string) : list string :=
  match s with
  | EmptyString => [EmptyString]
  | String a s' =>
    if decide (a = c) then EmptyString :: split_on c s'
    else match split_on c s' with
         | [] => [String a EmptyString]
         | seg :: rest => String a seg :: rest
         end
  end.

(** [l.join(c)] *)
Fixpoint join_with (c : string) (l : list string) : string :=
  match l with
  | [] => EmptyString
  | [s] => s
  | s :: l' => s +:+ c +:+ join_with c l'
  end.

(** [String(n)] for a natural number. *)
Definition string_of_nat (n : nat) : string := NilZero.string_of_uint (Nat.to_uint n).

(** [Number(s)] of a string of decimal digits; the empty string is [0], and
    [None] stands for [NaN]. *)
Definition number_of_string (s : string) : option nat :=
  Nat.of_uint <$> NilEmpty.uint_of_string s.

(** The array index a property key names, when the key is the canonical
    decimal form of one. *)
Definition array_index (s : string) : option nat :=
  n ← number_of_string s; guard (string_of_nat n = s);; Some n.

(** [/^\d+$/.test(s)] *)
Definition is_digits (s : string) : bool :=
  match s with
  | EmptyString => false
  | _ => match NilEmpty.uint_of_string s with Some _ => true | None => false end
  end.

(** [\s], on the code units below 256. *)
Definition isSpace (a : ascii) : bool :=
  let n := nat_of_ascii a in ((9 <=? n) && (n <=? 13)) || (n =? 32) || (n =? 160).

(** [s.trimStart()], [s.trimEnd()] and [s.trim()] *)
Fixpoint trimStart (s : string) : string :=
  match s with String a s' => if isSpace a then trimStart s' else s | EmptyString => "" end.
Fixpoint trimEnd (s : string) : string :=
  match s with
  | EmptyString => ""
  | String a s' => match trimEnd s' with
                   | EmptyString => if isSpace a then "" else String a ""
                   | t => String a t
                   end
  end.
Definition trim (s : string) : string := trimEnd (trimStart s).

(** ** Arrays *)

(** [a[i] = v] on a copy of an array: past the end the array grows, and the
    slots in between are holes that read as [d]. *)
Fixpoint array_set {A} (d : A) (l : list A) (i : nat) (v : A) : list A :=
  match i, l with
  | 0, [] => [v]
  | 0, _ :: l' => v :: l'
  | S i', [] => d :: array_set d [] i' v
  | S i', x :: l' => x :: array_set d l' i' v
  end.

(** [a.splice(i, 1)] *)
Fixpoint array_remove {A} (l : list A) (i : nat) : list A :=
  match i, l with
  | _, [] => []
  | 0, _ :: l' => l'
  | S i', x :: l' => x :: array_remove l' i'
  end.

(** The last element of a list that satisfies [f]. *)
Definition find_last {A} (f : A → bool) (l : list A) : option A :=
  foldl (λ acc x, if f x then Some x else acc) None l.

(** [a.sort(cmp)], a stable sort; [before x y] is [cmp(x, y) < 0]. *)
Fixpoint insert_by {A} (before : A → A → bool) (r : A) (l : list A) : list A :=
  match l with
  | [] => [r]
  | x :: l' => if before x r then x :: insert_by before r l' else r :: l
  end.
Definition sort_by {A} (before : A → A → bool) (l : list A) : list A := foldr (insert_by before) [] l.

(** ** Lemmas on strings *)

Lemma sapp_nil_r s : s +:+ "" = s.
Proof. induction s; simpl; congruence. Qed.

Lemma sapp_assoc a b c : a +:+ (b +:+ c) = (a +:+ b) +:+ c.
Proof. induction a; simpl; congruence. Qed.

Lemma slength_app a b : slength (a +:+ b) = slength a + slength b.
Proof. unfold slength. induction a; simpl; lia. Qed.

Lemma sdrop_app a b : sdrop (slength a) (a +:+ b) = b.
Proof. unfold slength. induction a; simpl; auto. Qed.

Lemma startsWith_spec p s : startsWith p s = true ↔ ∃ t, s = p +:+ t.
Proof.
  revert s. induction p as [|a p IH]; intros s; simpl.
  - split; [by exists s|done].
  - destruct s as [|b s]; [split; [done|by intros [? ?]]|].
    rewrite andb_true_iff, bool_decide_eq_true, IH.
    split; [intros [-> [t ->]]; by exists t|intros [t ?]; simplify_eq; eauto].
Qed.

Lemma startsWith_drop p s : startsWith p s = true → p +:+ sdrop (slength p) s = s.
Proof. intros [t ->]%startsWith_spec. by rewrite sdrop_app. Qed.

Lemma startsWith_app p t : startsWith p (p +:+ t) = true.
Proof. apply startsWith_spec. by exists t. Qed.

Lemma stake_length n s : slength (stake n s) = Nat.min n (slength s).
Proof.
  revert s. induction n; intros [|a s]; simpl; auto.
Qed.

Lemma char_free_app c a b : char_free c (a +:+ b) = char_free c a && char_free c b.
Proof. induction a; simpl; [done|]. rewrite IHa. by destruct (bool_decide _). Qed.

Lemma split_on_nonnil c s : split_on c s ≠ [].
Proof. destruct s; simpl; [done|]. case_decide; [done|]. by case_match. Qed.

Lemma split_on_free c s : char_free c s = true → split_on c s = [s].
Proof.
  induction s as [|a s IH]; simpl; intros H; [done|].
  split_bools. rewrite decide_False by done. by rewrite IH.
Qed.

Lemma split_on_sep c s : split_on c (String c s) = "" :: split_on c s.
Proof. simpl. by rewrite decide_True. Qed.

Lemma split_on_app c a b :
  char_free c a = true → split_on c (a +:+ String c b) = a :: split_on c b.
Proof.
  induction a as [|x a IH]; simpl; intros H.
  - by rewrite decide_True.
  - split_bools. rewrite decide_False by done. by rewrite IH.
Qed.

Lemma split_on_parts_free c s : Forall (λ seg, char_free c seg = true) (split_on c s).
Proof.
  induction s as [|a s IH]; simpl; [by repeat constructor|].
  case_decide; [by constructor|].
  destruct (split_on c s); constructor; simpl; rewrite ?bool_decide_eq_true_2 by done; try done.
  - by inversion_clear IH.
  - by inversion_clear IH.
Qed.

Lemma split_join c l :
  l ≠ [] → Forall (λ seg, char_free c seg = true) l →
  split_on c (join_with (String c EmptyString) l) = l.
Proof.
  intros Hl Hf. induction Hf as [|s l Hs Hf IH]; [done|].
  destruct l as [|t l]; [by apply split_on_free|].
  change (split_on c (s +:+ String c (join_with (String c EmptyString) (t :: l)))
          = s :: t :: l).
  rewrite split_on_app by done. by rewrite IH.
Qed.

Lemma join_split c s : join_with (String c EmptyString) (split_on c s) = s.
Proof.
  induction s as [|a s IH]; simpl; [done|].
  pose proof (split_on_nonnil c s). case_decide; subst.
  - destruct (split_on c s); [done|]. simpl in *. by f_equal.
  - destruct (split_on c s) as [|x [|y l]]; [done|..]; simpl in *; by f_equal.
Qed.

(** ** Lemmas on decimal numerals *)

Lemma to_uint_nonnil n : Nat.to_uint n ≠ Decimal.Nil.
Proof.
  intros H. pose proof (Unsigned.of_to n) as Hn. rewrite H in Hn.
  simpl in Hn. by subst.
Qed.

Lemma number_of_string_of_nat n : number_of_string (string_of_nat n) = Some n.
Proof.
  unfold number_of_string, string_of_nat.
  pose proof (to_uint_nonnil n) as Hn.
  assert (NilZero.string_of_uint (Nat.to_uint n) = NilEmpty.string_of_uint (Nat.to_uint n)) as ->.
  { by destruct (Nat.to_uint n). }
  rewrite NilEmpty.usu. simpl. by rewrite Unsigned.of_to.
Qed.

Lemma array_index_of_nat n : array_index (string_of_nat n) = Some n.
Proof.
  unfold array_index. rewrite number_of_string_of_nat. simpl.
  by rewrite option_guard_True.
Qed.

Lemma string_of_nat_inj n m : string_of_nat n = string_of_nat m → n = m.
Proof.
  intros H. pose proof (number_of_string_of_nat n) as Hn.
  rewrite H, number_of_string_of_nat in Hn. congruence.
Qed.
#[export] Hint Rewrite number_of_string_of_nat array_index_of_nat : bridge_rw.

(** ** Lemmas on arrays *)

Lemma array_set_app {A} (d : A) l r v x : array_set d (l ++ x :: r) (length l) v = l ++ v :: r.
Proof. induction l; simpl; congruence. Qed.

Lemma array_set_snoc {A} (d : A) l v : array_set d l (length l) v = l ++ [v].
Proof. induction l; simpl; congruence. Qed.

Lemma array_set_insert {A} (d : A) l i v : i < length l → array_set d l i v = <[i:=v]> l.
Proof. revert i. induction l; intros [|i] H; simpl in *; try lia; auto. f_equal. apply IHl. lia. Qed.

Lemma array_set_lookup_eq {A} (d : A) l i v : array_set d l i v !! i = Some v.
Proof. revert l. induction i; intros [|x l]; simpl; auto. Qed.

Lemma array_remove_app {A} (l r : list A) x : array_remove (l ++ x :: r) (length l) = l ++ r.
Proof. induction l; simpl; [by destruct r|]. by rewrite IHl. Qed.

Lemma array_remove_snoc {A} (l : list A) x : array_remove (l ++ [x]) (length l) = l.
Proof. rewrite array_remove_app. apply app_nil_r. Qed.
#[export] Hint Rewrite @array_set_app @array_set_snoc @array_remove_app @array_remove_snoc : bridge_rw.

Lemma find_last_app {A} (f : A → bool) l x :
  find_last f (l ++ [x]) = if f x then Some x else find_last f l.
Proof. unfold find_last. by rewrite foldl_app. Qed.

Lemma find_last_Some {A} (f : A → bool) l x :
  find_last f l = Some x → x ∈ l ∧ f x = true.
Proof.
  revert x. induction l as [|y l IH] using rev_ind; intros x; [done|].
  rewrite find_last_app. rewrite elem_of_app, list_elem_of_singleton.
  destruct (f y) eqn:Hy; [by intros [= ->]; auto|]. intros [? ?]%IH. auto.
Qed.

Lemma insert_by_perm {A} before (r : A) l : insert_by before r l ≡ₚ r :: l.
Proof.
  induction l as [|x l IH]; simpl; [done|]. destruct (before x r); [|done]. rewrite IH. apply Permutation_swap.
Qed.

Lemma sort_by_perm {A} before (l : list A) : sort_by before l ≡ₚ l.
Proof. induction l as [|r l IH]; simpl; [done|]. by rewrite insert_by_perm, IH. Qed.

Lemma insert_by_elem {A} before (r x : A) (l : list A) : x ∈ insert_by before r l ↔ x = r ∨ x ∈ l.
Proof. rewrite insert_by_perm. apply elem_of_cons. Qed.

(** A sorted list is sorted by any order the comparator decides. *)
Lemma sort_by_sorted {A} (before : A → A → bool) (R : A → A → Prop) (l : list A) :
  (∀ x y, x ∈ l → y ∈ l → if before x y then R x y else R y x) → Sorted R (sort_by before l).
Proof.
  intros H.
  assert (∀ (r : A) (l' : list A), r ∈ l → (∀ x, x ∈ l' → x ∈ l) → Sorted R l' → Sorted R (insert_by before r l')) as Hins.
  { intros r l' Hr. induction l' as [|x l' IH]; intros Hl' Hs; simpl; [by repeat constructor|].
    apply Sorted_inv in Hs as [Hs Hh].
    pose proof (H x r (Hl' x ltac:(left)) Hr) as Hxr. destruct (before x r).
    - constructor; [apply IH; [intros; apply Hl'; by right|done]|].
      destruct l' as [|y l']; simpl; [by constructor|]. inversion Hh; subst. destruct (before y r); by constructor.
    - repeat constructor; try done. }
  assert (∀ l' : list A, (∀ x, x ∈ l' → x ∈ l) → Sorted R (sort_by before l')) as Hall; [|by apply Hall].
  induction l' as [|r l' IH]; intros Hl'; [constructor|]. simpl. apply Hins.
  - apply Hl'. by left.
  - intros x. fold (sort_by before l'). rewrite sort_by_perm. intros Hx. apply Hl'. by right.
  - apply IH. intros x Hx. apply Hl'. by right.
Qed.

(** In a sorted list the last element that satisfies [f] is a greatest one. *)
Lemma find_last_greatest {A} (R : A → A → Prop) f (l : list A) x y :
  StronglySorted R l → find_last f l = Some x → y ∈ l → f y = true → R y x ∨ y = x.
Proof.
  induction l as [|z l IH] using rev_ind; intros Hs Hx Hy Hf; [by apply not_elem_of_nil in Hy|].
  rewrite find_last_app in Hx. apply elem_of_app in Hy as [Hy | ->%list_elem_of_singleton].
  - destruct (f z) eqn:Hz.
    + simplify_eq. left. apply (StronglySorted_app_1_elem_of R l [x]); [done|done|by left].
    + apply IH; try done. by apply StronglySorted_app_1_l in Hs.
  - rewrite Hf in Hx. simplify_eq. by right.
Qed.

Lemma find_last_None {A} (f : A → bool) (l : list A) : find_last f l = None → Forall (λ x, f x = false) l.
Proof.
  induction l as [|x l IH] using rev_ind; intros H; [constructor|]. rewrite find_last_app in H.
  destruct (f x) eqn:E; [done|]. apply Forall_app. split; [by apply IH|by constructor].
Qed.

(** ** Maps filled by a loop *)

Section fill.
  Context {A V : Type} (key : A → string) (val : A → V).

Lemma foldl_insert_notin (l : list A) (m : gmap string V) id :
  id ∉ map key l → foldl (λ m c, <[key c := val c]> m) m l !! id = m !! id.
Proof.
  revert m. induction l as [|c l IH]; intros m Hid; [done|]. simpl.
  rewrite IH by set_solver. rewrite lookup_insert_ne; [done|set_solver].
Qed.

Lemma foldl_insert_in (l : list A) (m : gmap string V) c :
  NoDup (map key l) → c ∈ l → foldl (λ m c, <[key c := val c]> m) m l !! key c = Some (val c).
Proof.
  revert m. induction l as [|x l IH]; intros m Hnd Hin; [set_solver|]. apply NoDup_cons in Hnd as [Hx Hnd]. simpl.
  apply elem_of_cons in Hin as [->|Hin]; [|by apply IH].
  rewrite foldl_insert_notin by done. apply lookup_insert_eq.
Qed.

Lemma foldl_insert_inv (l : list A) id v :
  foldl (λ m c, <[key c := val c]> m) (∅ : gmap string V) l !! id = Some v → ∃ c, c ∈ l ∧ key c = id ∧ val c = v.
Proof.
  induction l as [|x l IH] using rev_ind; [done|]. rewrite foldl_app. simpl.
  destruct (decide (key x = id)) as [<- | Hx].
  - rewrite lookup_insert_eq. intros [= <-]. exists x. rewrite elem_of_app. split; [right; by left|done].
  - rewrite lookup_insert_ne by done. intros (c & ? & ?)%IH. exists c. rewrite elem_of_app. split; [by left|done].
Qed.
End fill.

(** ** The values of a map, each changed in a list *)

Lemma foldl_alter_lookup {K A} (f : A → A) (xs : list (K * nat)) (l : list A) n :
  (∀ x, f (f x) = f x) →
  foldl (λ l e, alter f e.2 l) l xs !! n = (if decide (n ∈ xs.*2) then f <$> l !! n else l !! n).
Proof.
  intros Hf. revert l. induction xs as [|[k i] xs IH]; intros l; [done|]. cbn [foldl snd]. rewrite IH. cbn [fmap list_fmap snd].
  destruct (decide (n = i)) as [-> | Hne].
  - rewrite list_lookup_alter_eq. rewrite (decide_True (P := i ∈ i :: _)) by left.
    destruct (l !! i); simpl; rewrite ?Hf; by destruct (decide _).
  - rewrite list_lookup_alter_ne by done. destruct (decide (n ∈ xs.*2)) as [Hin | Hnin].
    + by rewrite decide_True by by right.
    + by rewrite decide_False by by intros [? | ?]%elem_of_cons.
Qed.

Lemma map_values_spec (m : gmap string nat) n : n ∈ (map_to_list m).*2 ↔ ∃ k, m !! k = Some n.
Proof.
  rewrite list_elem_of_fmap. split.
  - intros ([k n'] & -> & E%elem_of_map_to_list). by exists k.
  - intros (k & E). exists (k, n). split; [done|by apply elem_of_map_to_list].
Qed.

Lemma alter_snoc {A} (f : A → A) (l : list A) x : alter f (length l) (l ++ [x]) = l ++ [f x].
Proof. induction l as [|y l IH]; simpl; [done|]. f_equal. apply IH. Qed.

Lemma alter_lookup_Some {A} (f : A → A) (n k : nat) (l : list A) x :
  alter f n l !! k = Some x → (k = n ∧ ∃ y, l !! n = Some y ∧ x = f y) ∨ (k ≠ n ∧ l !! k = Some x).
Proof.
  destruct (decide (k = n)) as [-> | Hk].
  - rewrite list_lookup_alter_eq. intros (y & E & ->)%fmap_Some. left. by split; [|exists y].
  - rewrite list_lookup_alter_ne by done. by right.
Qed.
