(* ===== verification/Json.v ===== *)
(** * JavaScript values

    The values the session protocol moves: what [JSON.parse] produces, plus
    [undefined], which lives in objects before they are serialised.  An object
    is a finite map, so the order of its properties is not modelled.  A number
    is an integer-valued double ([NInt]) or another finite double ([NFloat], in
    the standard library's binary64 format); [-0] is identified with [0]. *)

From S2P Require Export Prelude.
From Stdlib Require Export ZArith.
From Stdlib Require Import SpecFloat.

(** ** Numbers *)

Inductive num :=
| NInt (z : Z)
| NFloat (f : spec_float).

#[global] Instance spec_float_eq_dec : EqDecision spec_float.
Proof. solve_decision. Defined.
#[global] Instance num_eq_dec : EqDecision num.
Proof. solve_decision. Defined.

Definition num_to_float (n : num) : spec_float :=
  match n with
  | NInt z => binary_normalize 53 1024 z 0 false
  | NFloat f => f
  end.

(** The canonical form of a double: [NInt] exactly for integer values. *)
Definition num_of_float (f : spec_float) : num :=
  match f with
  | S754_zero _ => NInt 0
  | S754_finite s m e =>
    let v := if s then Z.neg m else Z.pos m in
    if (0 <=? e)%Z then NInt (v * 2 ^ e)
    else if (v mod 2 ^ (- e) =? 0)%Z then NInt (v / 2 ^ (- e)) else NFloat f
  | _ => NFloat f
  end.

(** [a + b], [a * b], [a / b] and [a < b] on doubles. *)
Definition num_add (a b : num) : num :=
  num_of_float (SFadd 53 1024 (num_to_float a) (num_to_float b)).
Definition num_mul (a b : num) : num :=
  num_of_float (SFmul 53 1024 (num_to_float a) (num_to_float b)).
Definition num_div (a b : num) : num :=
  num_of_float (SFdiv 53 1024 (num_to_float a) (num_to_float b)).
Definition num_ltb (a b : num) : bool :=
  match a, b with
  | NInt x, NInt y => (x <? y)%Z
  | _, _ => SFltb (num_to_float a) (num_to_float b)
  end.

(** ** Values *)

Inductive json :=
| JUndef
| JNull
| JBool (b : bool)
| JNum (n : num)
| JStr (s : string)
| JArr (l : list json)
| JObj (m : gmap string json).

Abbreviation JInt z := (JNum (NInt z)).
Abbreviation record := (gmap string json).

(** [{k1: v1, k2: v2, ...}]: a later property replaces an earlier one. *)
Definition assign (m : record) (kvs : list (string * json)) : record :=
  foldl (λ m kv, <[kv.1 := kv.2]> m) m kvs.
Definition object (kvs : list (string * json)) : json := JObj (assign ∅ kvs).

(** [if (c) o[k] = v], on a record. *)
Definition setIf (c : bool) (k : string) (v : json) (m : record) : record :=
  if c then <[k := v]> m else m.

(** The own properties of a value: what [{...v}] copies. *)
Definition own (v : json) : record :=
  match v with
  | JObj m => m
  | JArr l => list_to_map (imap (λ i x, (string_of_nat i, x)) l)
  | JStr s => list_to_map (imap (λ i a, (string_of_nat i, JStr (String a EmptyString))) (list_ascii_of_string s))
  | _ => ∅
  end.

(** [{...v, k1: v1, ...}] *)
Definition spread (v : json) (kvs : list (string * json)) : json := JObj (assign (own v) kvs).

(** [v[k]], for [v] neither [null] nor [undefined]. *)
Definition get (v : json) (k : string) : json :=
  match v with
  | JObj m => default JUndef (m !! k)
  | JArr l =>
    match array_index k with
    | Some i => default JUndef (l !! i)
    | None => if decide (k = "length") then JInt (Z.of_nat (length l)) else JUndef
    end
  | JStr s =>
    match array_index k with
    | Some i => match String.get i s with Some a => JStr (String a EmptyString) | None => JUndef end
    | None => if decide (k = "length") then JInt (Z.of_nat (slength s)) else JUndef
    end
  | _ => JUndef
  end.
Notation "v .[ k ]" := (get v k) (at level 1, left associativity, format "v .[ k ]") : js_scope.
Open Scope js_scope.

(** [k in v], for an object or an array. *)
Definition has (v : json) (k : string) : bool :=
  match v with
  | JObj m => bool_decide (is_Some (m !! k))
  | JArr l => match array_index k with Some i => bool_decide (i < length l) | None => bool_decide (k = "length") end
  | _ => false
  end.

(** [v === null || v === undefined] *)
Definition nullish (v : json) : bool :=
  match v with JUndef | JNull => true | _ => false end.

(** [v ?? w] *)
Definition coalesce (v w : json) : json := if nullish v then w else v.
Infix "??" := coalesce (at level 62, left associativity) : js_scope.

(** [Boolean(v)] *)
Definition truthy (v : json) : bool :=
  match v with
  | JUndef | JNull => false
  | JBool b => b
  | JNum n => negb (bool_decide (n = NInt 0))
  | JStr s => negb (bool_decide (s = EmptyString))
  | JArr _ | JObj _ => true
  end.

(** [typeof v === "object" && v !== null]; [Array.isArray(v)]. *)
Definition is_object (v : json) : bool :=
  match v with JArr _ | JObj _ => true | _ => false end.
Definition is_array (v : json) : bool :=
  match v with JArr _ => true | _ => false end.
Definition is_string (v : json) : bool :=
  match v with JStr _ => true | _ => false end.
Definition is_number (v : json) : bool :=
  match v with JNum _ => true | _ => false end.

(** [v === s] for a string literal [s]. *)
Definition eq_str (v : json) (s : string) : bool :=
  match v with JStr t => bool_decide (t = s) | _ => false end.

(** [v === w] when one side is a primitive. *)
Definition prim_eq (v w : json) : bool :=
  match v, w with
  | JUndef, JUndef | JNull, JNull => true
  | JBool a, JBool b => Bool.eqb a b
  | JNum a, JNum b => bool_decide (a = b)
  | JStr a, JStr b => bool_decide (a = b)
  | _, _ => false
  end.

(** A value read as an optional string: the [string | null] fields. *)
Definition opt_str (v : json) : option string :=
  match v with JStr s => Some s | _ => None end.
Definition of_opt_str (o : option string) : json :=
  match o with Some s => JStr s | None => JNull end.

(** A value read as an array, [[]] when it is not one: [(v ?? []) as unknown[]]. *)
Definition elements_of (v : json) : list json :=
  match v with JArr l => l | _ => [] end.

(** A value read as a number, [0] when it is not one. *)
Definition num_of (v : json) : num :=
  match v with JNum n => n | _ => NInt 0 end.

(** [Number.isFinite(n)] *)
Definition num_finite (n : num) : bool :=
  match n with NFloat (S754_nan | S754_infinity _) => false | _ => true end.

(** [JSON.parse(JSON.stringify(v))] on a value that is not [undefined]: an
    [undefined] property disappears, an [undefined] element and a number that is
    not finite become [null]. *)
Fixpoint jsonRoundTrip (v : json) : json :=
  match v with
  | JUndef => JNull
  | JNum n => if num_finite n then JNum n else JNull
  | JArr l => JArr (map jsonRoundTrip l)
  | JObj m => JObj (omap (λ w, match w with JUndef => None | _ => Some (jsonRoundTrip w) end) m)
  | _ => v
  end.

(** The values that survive a round trip unchanged. *)
Fixpoint wire_safe (v : json) : bool :=
  match v with
  | JUndef => false
  | JNum n => num_finite n
  | JArr l => forallb wire_safe l
  | JObj m => map_fold (λ _ b acc, b && acc) true (wire_safe <$> m)
  | _ => true
  end.

(** ** Induction over nested values *)

Fixpoint json_size (v : json) : nat :=
  match v with
  | JArr l => S (list_sum (map json_size l))
  | JObj m => S (map_fold (λ _ n acc, n + acc) 0 (json_size <$> m))
  | _ => 1
  end.

Lemma map_fold_sum_le (m : gmap string nat) k n :
  m !! k = Some n → n ≤ map_fold (λ _ n acc, n + acc) 0 m.
Proof. intros Hk. rewrite (map_fold_delete_L _ _ k n); [lia|intros; lia|done]. Qed.

Lemma list_sum_elem_le l n : n ∈ l → n ≤ list_sum l.
Proof. induction 1; simpl; lia. Qed.

Lemma json_ind_nested (P : json → Prop) :
  P JUndef → P JNull → (∀ b, P (JBool b)) → (∀ n, P (JNum n)) → (∀ s, P (JStr s)) →
  (∀ l, Forall P l → P (JArr l)) →
  (∀ m, map_Forall (λ _, P) m → P (JObj m)) →
  ∀ v, P v.
Proof.
  intros HU HN HB HZ HS HA HO v.
  induction v as [v IH] using (induction_ltof1 _ json_size). unfold ltof in IH.
  destruct v as [| | | | |l|m]; auto.
  - apply HA, Forall_forall. intros x Hx. apply IH. simpl.
    enough (json_size x ≤ list_sum (map json_size l)) by lia.
    apply list_sum_elem_le, list_elem_of_In, in_map, list_elem_of_In, Hx.
  - apply HO. intros k x Hk. apply IH. simpl.
    assert ((json_size <$> m) !! k = Some (json_size x)) as H%map_fold_sum_le
      by (by rewrite lookup_fmap, Hk). lia.
Qed.

(** Decidable equality of values. *)
Fixpoint json_eqb (v w : json) {struct v} : bool :=
  match v, w with
  | JUndef, JUndef | JNull, JNull => true
  | JBool a, JBool b => Bool.eqb a b
  | JNum a, JNum b => bool_decide (a = b)
  | JStr a, JStr b => bool_decide (a = b)
  | JArr l, JArr l' =>
    (fix go fs ys := match fs, ys with
     | [], [] => true
     | f :: fs', y :: ys' => f y && go fs' ys'
     | _, _ => false
     end) (map json_eqb l) l'
  | JObj m, JObj m' =>
    bool_decide (dom m = dom m') &&
    map_fold (λ k (f : json → bool) acc, match m' !! k with Some y => f y | None => false end && acc)
      true (json_eqb <$> m)
  | _, _ => false
  end.

Lemma map_fold_andb {A} (f : string → A → bool) (m : gmap string A) :
  map_fold (λ k x acc, f k x && acc) true m = true ↔ map_Forall (λ k x, f k x = true) m.
Proof.
  induction m as [|k x m Hk Hf IH] using map_first_key_ind.
  - rewrite map_fold_empty. split; [intros _; apply map_Forall_empty|done].
  - rewrite map_fold_insert_first_key by done.
    rewrite map_Forall_insert by done. rewrite andb_true_iff, IH. done.
Qed.

Lemma json_eqb_eq v w : json_eqb v w = true ↔ v = w.
Proof.
  revert w. induction v as [| |b|n|s|l IH|m IH] using json_ind_nested; intros w;
    destruct w as [| |b'|n'|s'|l'|m']; simpl; try done;
    rewrite ?bool_decide_eq_true, ?eqb_true_iff; try (split; congruence).
  - trans (l = l'); [|split; congruence].
    revert l'. induction IH as [|x l Hx Hl IH]; intros [|y l']; simpl; try done.
    rewrite andb_true_iff, Hx, IH. split; [intros []|intros [=]]; subst; auto.
  - rewrite andb_true_iff, bool_decide_eq_true.
    rewrite (map_fold_andb (λ k (f : json → bool), match m' !! k with Some y => f y | None => false end)).
    split; [intros [Hd Hm]|intros [= ->]].
    + f_equal. apply map_eq. intros k.
      destruct (m !! k) as [x|] eqn:Ex; symmetry.
      * specialize (Hm k (json_eqb x)). rewrite lookup_fmap, Ex in Hm.
        specialize (Hm eq_refl). simpl in Hm. destruct (m' !! k) as [y|]; [|done].
        f_equal. symmetry. by apply (IH k x Ex).
      * apply not_elem_of_dom. rewrite <- Hd. by apply not_elem_of_dom.
    + split; [done|]. intros k f Hf. rewrite lookup_fmap in Hf.
      destruct (m' !! k) as [x|] eqn:Ex; simplify_eq/=. by apply (IH k x Ex).
Qed.

#[global] Instance json_eq_dec : EqDecision json.
Proof.
  refine (λ v w, cast_if (decide (json_eqb v w = true))); by rewrite <- json_eqb_eq.
Defined.

(** ** Lemmas on properties *)

Lemma assign_lookup m kvs k :
  assign m kvs !! k = match find_last (λ kv, bool_decide (kv.1 = k)) kvs with
                      | Some kv => Some kv.2
                      | None => m !! k
                      end.
Proof.
  induction kvs as [|kv kvs IH] using rev_ind; [done|].
  unfold assign in *. rewrite foldl_app, find_last_app. simpl.
  case_bool_decide as Hk.
  - by rewrite Hk, lookup_insert_eq.
  - by rewrite lookup_insert_ne.
Qed.

(** The value a literal gives to a property; it computes on literal keys. *)
Definition assoc_last (k : string) (kvs : list (string * json)) : option json :=
  foldl (λ acc kv, if String.eqb kv.1 k then Some kv.2 else acc) None kvs.

Lemma object_lookup kvs k : own (object kvs) !! k = assoc_last k kvs.
Proof.
  unfold object, assoc_last. cbn [own]. induction kvs as [|kv kvs IH] using rev_ind; [done|].
  unfold assign in *. rewrite !foldl_app. simpl.
  destruct (String.eqb_spec kv.1 k) as [->|Hk].
  - by rewrite lookup_insert_eq.
  - by rewrite lookup_insert_ne.
Qed.

Lemma object_get kvs k : get (object kvs) k = default JUndef (assoc_last k kvs).
Proof. unfold object. cbn [get]. by rewrite <- object_lookup. Qed.

Lemma object_own kvs : JObj (own (object kvs)) = object kvs.
Proof. done. Qed.

Lemma setIf_lookup c k v m k' :
  setIf c k v m !! k' = if c && bool_decide (k = k') then Some v else m !! k'.
Proof.
  unfold setIf. destruct c; simpl; [|done]. case_bool_decide; subst.
  - by rewrite lookup_insert_eq.
  - by rewrite lookup_insert_ne.
Qed.

Lemma get_setIf_ne c k v m k' : k ≠ k' → get (JObj (setIf c k v m)) k' = get (JObj m) k'.
Proof. intros H. simpl. rewrite setIf_lookup, bool_decide_eq_false_2 by done. by rewrite andb_false_r. Qed.

Lemma has_setIf_ne c k v m k' : k ≠ k' → has (JObj (setIf c k v m)) k' = has (JObj m) k'.
Proof.
  intros Hk. simpl. apply bool_decide_ext.
  by rewrite setIf_lookup, bool_decide_eq_false_2, andb_false_r by done.
Qed.

Lemma get_object m k : get (JObj m) k = default JUndef (m !! k).
Proof. done. Qed.

Lemma get_insert_eq m k v : get (JObj (<[k := v]> m)) k = v.
Proof. simpl. by rewrite lookup_insert_eq. Qed.

Lemma get_insert_ne m k k' v : k ≠ k' → get (JObj (<[k := v]> m)) k' = get (JObj m) k'.
Proof. intros. simpl. by rewrite lookup_insert_ne. Qed.

Lemma prim_eq_eq v w : prim_eq v w = true → v = w.
Proof.
  destruct v, w; simpl; intros H; try done; split_bools; try congruence.
  by apply eqb_prop in H as ->.
Qed.

Lemma eq_str_true v s : eq_str v s = true ↔ v = JStr s.
Proof. destruct v; simpl; rewrite ?bool_decide_eq_true; split; congruence. Qed.

Lemma coalesce_nullish v w : nullish v = true → (v ?? w) = w.
Proof. unfold coalesce. by intros ->. Qed.

(** ** Lemmas on serialisation *)

Definition serialised (v : json) : option json :=
  match v with JUndef => None | _ => Some (jsonRoundTrip v) end.

Lemma jsonRoundTrip_object m : jsonRoundTrip (JObj m) = JObj (omap serialised m).
Proof. done. Qed.

Lemma jsonRoundTrip_defined v : jsonRoundTrip v ≠ JUndef.
Proof. destruct v; simpl; try done. by case_match. Qed.

Lemma serialised_defined v : v ≠ JUndef → serialised v = Some (jsonRoundTrip v).
Proof. by destruct v. Qed.

Lemma jsonRoundTrip_idemp v : jsonRoundTrip (jsonRoundTrip v) = jsonRoundTrip v.
Proof.
  induction v as [| |b|n|s|l IH|m IH] using json_ind_nested; simpl; try reflexivity.
  - destruct (num_finite n) eqn:E; simpl; by rewrite ?E.
  - f_equal. rewrite map_map. apply map_ext_Forall. done.
  - f_equal. apply map_eq. intros k. rewrite !lookup_omap.
    destruct (m !! k) as [v|] eqn:Ek; simpl; [|done].
    specialize (IH k v Ek). simpl in IH. fold (serialised v).
    destruct (decide (v = JUndef)) as [->|Hv]; [done|].
    rewrite (serialised_defined v Hv). simpl. fold (serialised (jsonRoundTrip v)).
    by rewrite (serialised_defined _ (jsonRoundTrip_defined v)), IH.
Qed.

Lemma wire_safe_object m : wire_safe (JObj m) = true ↔ map_Forall (λ _ v, wire_safe v = true) m.
Proof.
  simpl. rewrite (map_fold_andb (λ _ b, b)). split; intros H k v Hk.
  - apply (H k (wire_safe v)). by rewrite lookup_fmap, Hk.
  - rewrite lookup_fmap in Hk. destruct (m !! k) eqn:E; simplify_eq/=. by apply (H k).
Qed.

Lemma jsonRoundTrip_wire_safe v : wire_safe v = true → jsonRoundTrip v = v.
Proof.
  induction v as [| |b|n|s|l IH|m IH] using json_ind_nested; intros Hv; try done.
  - simpl in *. by rewrite Hv.
  - simpl. f_equal. simpl in Hv. induction IH; simpl in *; [done|]. split_bools.
    f_equal; auto.
  - apply wire_safe_object in Hv. rewrite jsonRoundTrip_object. f_equal.
    apply map_eq. intros k. rewrite lookup_omap. destruct (m !! k) as [v|] eqn:Ek; simpl; [|done].
    specialize (Hv k v Ek). specialize (IH k v Ek Hv). unfold serialised.
    by destruct v; rewrite ?IH.
Qed.

(** Read the properties of object literals. *)
Ltac read_object :=
  rewrite ?object_own, ?object_get;
  cbn [assoc_last foldl app String.eqb Ascii.eqb Bool.eqb fst snd default from_option id].

(** A property after the round trip of its object. *)
Definition wireValue (v : json) : json := default JUndef (serialised v).

Lemma serialised_get m k : omap serialised m !! k = serialised (get (JObj m) k).
Proof. rewrite lookup_omap. cbn [get]. by destruct (m !! k). Qed.

Lemma get_roundTrip m k :
  get (jsonRoundTrip (JObj m)) k = default JUndef (serialised (get (JObj m) k)).
Proof. rewrite jsonRoundTrip_object. cbn [get]. rewrite serialised_get. done. Qed.

Lemma get_wire kvs k : get (jsonRoundTrip (object kvs)) k = wireValue (default JUndef (assoc_last k kvs)).
Proof. unfold object. rewrite get_roundTrip. change (JObj (assign ∅ kvs)) with (object kvs). by rewrite object_get. Qed.
