(* ===== verification/Paths.v ===== *)
(** * Patch paths

    [document.ts] and [types.ts]: the JSON-pointer paths of the patch format,
    their parsing, and the regular expressions that classify them.  A regular
    expression over a path is modelled on the list of its ["/"]-separated
    segments.  The two ancestor walks ([isSubscribedPath], [isLazyFieldPath])
    are loops of the source that need not end, so they take fuel and return
    [None] when it runs out. *)

From S2P Require Export Json.

(** ** Parsing *)

(** [s.replace(/~d/g, r)] *)
Fixpoint replaceTilde (d r : ascii) (s : string) : string :=
  match s with
  | EmptyString => EmptyString
  | String a s' =>
    if decide (a = "~"%char) then
      match s' with
      | String c s'' => if decide (c = d) then String r (replaceTilde d r s'') else String a (replaceTilde d r s')
      | EmptyString => String a EmptyString
      end
    else String a (replaceTilde d r s')
  end.

Definition unescapeSegment (s : string) : string :=
  replaceTilde "0"%char "~"%char (replaceTilde "1"%char "/"%char s).

Definition parsePath (path : string) : list string :=
  if decide (path = "" ∨ path = "/") then []
  else
    let segments := match path with
                    | String a rest => if decide (a = "/"%char) then rest else path
                    | EmptyString => path
                    end in
    map unescapeSegment (split_on "/"%char segments).

(** The path with the given keys, as template literals build it:
    [`/${k1}/${k2}`], with no escaping. *)
Fixpoint path_of (keys : list string) : string :=
  match keys with
  | [] => ""
  | k :: keys' => "/" +:+ k +:+ path_of keys'
  end.

(** [path.replace(/\/[^/]+$/, "")]: the path without its last segment, or the
    path itself when that segment is empty or there is no ["/"]. *)
Definition dropLastSegment (path : string) : string :=
  let segs := split_on "/"%char path in
  match last segs with
  | Some seg =>
    if decide (seg = "" ∨ length segs = 1) then path
    else join_with "/" (removelast segs)
  | None => path
  end.

(** [path.includes("/")] *)
Definition includesSlash (path : string) : bool := negb (char_free "/"%char path).

(** The loop [while (parent.includes("/")) { parent = ...; if (test(parent))
    return true; } return false]. *)
Fixpoint someAncestor (fuel : nat) (test : string → bool) (parent : string) : option bool :=
  match fuel with
  | 0 => None
  | S fuel' =>
    if includesSlash parent then
      let parent := dropLastSegment parent in
      if test parent then Some true else someAncestor fuel' test parent
    else Some false
  end.

(** Exact or ancestor subscription match. *)
Definition isSubscribedPath (fuel : nat) (path : string) (subscriptions : gset string) : option bool :=
  if bool_decide (path ∈ subscriptions) then Some true
  else someAncestor fuel (λ p, bool_decide (p ∈ subscriptions)) path.

(** ** Path patterns

    A pattern is the list of tests its segments pass, in order. *)

Definition lit (s : string) (seg : string) : bool := bool_decide (seg = s).
(** [[^/]+] *)
Definition nonempty (seg : string) : bool := negb (bool_decide (seg = "")).

Fixpoint matches (pattern : list (string → bool)) (segs : list string) : bool :=
  match pattern, segs with
  | [], [] => true
  | p :: pattern', seg :: segs' => p seg && matches pattern' segs'
  | _, _ => false
  end.

(** [/^\/seg1\/seg2...$/.test(path)] *)
Definition pathTest (pattern : list (string → bool)) (path : string) : bool :=
  matches (lit "" :: pattern) (split_on "/"%char path).

(** [/^\/entries\/[^/]+$/] *)
Definition ENTRY_ROOT_RE : list (string → bool) := [lit "entries"; nonempty].
(** [/^\/entries\/[^/]+\/content\/\d+$/] *)
Definition CONTENT_BLOCK_RE : list (string → bool) :=
  [lit "entries"; nonempty; lit "content"; is_digits].

Definition isEntryRootPath (path : string) : bool := pathTest ENTRY_ROOT_RE path.

Definition LAZY_FIELD_PATTERNS : list (list (string → bool)) :=
  [[lit "entries"; nonempty; lit "content"; is_digits; lit "thinking"];
   [lit "entries"; nonempty; lit "content"; is_digits; lit "arguments"];
   [lit "entries"; nonempty; lit "content"];
   [lit "entries"; nonempty; lit "details"];
   [lit "entries"; nonempty; lit "sections"]].

Definition LAZY_OBJECT_PATTERNS : list (list (string → bool)) :=
  [[lit "entries"; nonempty; lit "content"; is_digits; lit "arguments"];
   [lit "entries"; nonempty; lit "details"];
   [lit "entries"; nonempty; lit "sections"]].

(** [patterns.some((p) => p.test(path))] *)
Definition someTest (patterns : list (list (string → bool))) (path : string) : bool :=
  existsb (λ p, pathTest p path) patterns.

Definition isLazyFieldPath (fuel : nat) (path : string) : option bool :=
  if someTest LAZY_FIELD_PATTERNS path then Some true
  else someAncestor fuel (someTest LAZY_OBJECT_PATTERNS) path.

(** ** What the patterns mean on keys *)

(** A key a path can name: no ["/"], and no escape sequence. *)
Definition plain_key (k : string) : bool :=
  char_free "/"%char k && char_free "~"%char k.

(** A key that makes one non-empty segment. *)
Definition segment_key (k : string) : bool :=
  char_free "/"%char k && negb (bool_decide (k = "")).

Definition lazy_object_keys (keys : list string) : bool :=
  existsb (λ p, matches p keys) LAZY_OBJECT_PATTERNS.
Definition lazy_field_keys (keys : list string) : bool :=
  existsb (λ p, matches p keys) LAZY_FIELD_PATTERNS.

(** Every strict prefix of [keys], longest first. *)
Fixpoint strict_prefixes (keys : list string) : list (list string) :=
  match keys with
  | [] => []
  | k :: keys' => map (cons k) (strict_prefixes keys') ++ [[]]
  end.

(** A field is lazy when a pattern names it, or when it lies under an
    object-valued lazy field. *)
Definition lazy_keys (keys : list string) : bool :=
  lazy_field_keys keys || existsb lazy_object_keys (strict_prefixes keys).

(** ** Lemmas *)

Lemma replaceTilde_free d r s : char_free "~"%char s = true → replaceTilde d r s = s.
Proof.
  induction s as [|a s IH]; simpl; [done|]. intros H. split_bools.
  rewrite decide_False by done. by rewrite IH.
Qed.

Lemma unescape_plain k : plain_key k = true → unescapeSegment k = k.
Proof.
  unfold plain_key, unescapeSegment. intros H. split_bools.
  rewrite (replaceTilde_free _ _ k) by done. by apply replaceTilde_free.
Qed.

Lemma plain_slash_free k : plain_key k = true → char_free "/"%char k = true.
Proof. unfold plain_key. intros H. by split_bools. Qed.

Lemma segment_slash_free k : segment_key k = true → char_free "/"%char k = true.
Proof. unfold segment_key. intros H. by split_bools. Qed.
#[export] Hint Resolve plain_slash_free segment_slash_free unescape_plain : bridge.

Lemma path_of_app ks ks' : path_of (ks ++ ks') = path_of ks +:+ path_of ks'.
Proof. induction ks as [|k ks IH]; simpl; [done|]. by rewrite IH, sapp_assoc. Qed.

Lemma path_of_snoc ks k : path_of (ks ++ [k]) = path_of ks +:+ "/" +:+ k.
Proof. rewrite path_of_app. simpl. by rewrite sapp_nil_r. Qed.

Lemma path_of_join k ks : path_of (k :: ks) = "/" +:+ join_with "/" (k :: ks).
Proof.
  revert k. induction ks as [|k' ks IH]; intros k; [simpl; by rewrite sapp_nil_r|].
  change (path_of (k :: k' :: ks)) with ("/" +:+ k +:+ path_of (k' :: ks)).
  by rewrite IH.
Qed.

Lemma split_path_of ks :
  ks ≠ [] → Forall (λ k, char_free "/"%char k = true) ks →
  split_on "/"%char (path_of ks) = "" :: ks.
Proof.
  intros Hne Hf. destruct ks as [|k ks]; [done|]. rewrite path_of_join.
  change ("/" +:+ join_with "/" (k :: ks)) with (String "/"%char (join_with "/" (k :: ks))).
  rewrite split_on_sep. by rewrite (split_join "/"%char).
Qed.

(** Template-built paths parse back to their keys. *)
Lemma parsePath_path_of ks :
  ks ≠ [""] → Forall (λ k, plain_key k = true) ks → parsePath (path_of ks) = ks.
Proof.
  intros Hne Hf. unfold parsePath. destruct ks as [|k ks]; [done|].
  rewrite decide_False.
  2:{ rewrite path_of_join. intros [H|H]; [done|]. simplify_eq/=.
      destruct ks; simplify_eq/=; by destruct k. }
  rewrite path_of_join.
  change ("/" +:+ join_with "/" (k :: ks)) with (String "/"%char (join_with "/" (k :: ks))).
  cbv beta iota zeta. rewrite decide_True by done.
  rewrite (split_join "/"%char); [|done|eapply Forall_impl; eauto with bridge].
  clear Hne. induction Hf; simpl; f_equal; eauto with bridge.
Qed.

Lemma includesSlash_path_of ks : includesSlash (path_of ks) = negb (bool_decide (ks = [])).
Proof. destruct ks; [done|]. unfold includesSlash. by rewrite path_of_join. Qed.

Lemma dropLastSegment_snoc ks k :
  Forall (λ k, char_free "/"%char k = true) ks → segment_key k = true →
  dropLastSegment (path_of (ks ++ [k])) = path_of ks.
Proof.
  intros Hks Hk. unfold dropLastSegment.
  rewrite split_path_of.
  2:{ by destruct ks. }
  2:{ apply Forall_app; split; [done|]. constructor; eauto with bridge. }
  rewrite app_comm_cons, last_snoc, removelast_last.
  rewrite decide_False.
  2:{ unfold segment_key in Hk. split_bools. intros [?|Hlen]; [done|].
      simpl in Hlen. rewrite length_app in Hlen. simpl in Hlen. lia. }
  destruct ks as [|k' ks]; [done|]. by rewrite path_of_join.
Qed.

Lemma slength_path_of ks : length ks ≤ slength (path_of ks).
Proof.
  induction ks as [|k ks IH]; simpl; [lia|].
  change (S (length ks) ≤ S (slength (k +:+ path_of ks))). rewrite slength_app. lia.
Qed.

Lemma strict_prefixes_snoc ks k : strict_prefixes (ks ++ [k]) = ks :: strict_prefixes ks.
Proof.
  induction ks as [|k' ks IH]; simpl; [done|]. by rewrite IH.
Qed.

(** With enough fuel the walk tests every strict prefix of the path's keys. *)
Lemma someAncestor_path_of fuel test ks :
  Forall (λ k, segment_key k = true) ks → length ks < fuel →
  someAncestor fuel test (path_of ks) =
    Some (existsb (λ p, test (path_of p)) (strict_prefixes ks)).
Proof.
  revert fuel. induction ks as [|k ks IH] using rev_ind; intros fuel Hks Hfuel;
    (destruct fuel as [|fuel]; [simpl in Hfuel; lia|]); [done|].
  rewrite length_app in Hfuel. simpl in Hfuel.
  apply Forall_app in Hks as [Hks Hk]. inversion_clear Hk.
  cbn [someAncestor]. rewrite includesSlash_path_of, bool_decide_eq_false_2 by (by destruct ks).
  cbn [negb]. rewrite dropLastSegment_snoc by (done || (eapply Forall_impl; eauto with bridge)).
  rewrite strict_prefixes_snoc. cbn [existsb].
  destruct (test (path_of ks)); [done|]. simpl. rewrite IH by (done || lia). done.
Qed.

(** A path that ends in ["/"] makes the walk stand still. *)
Lemma dropLastSegment_trailing s : dropLastSegment (s +:+ "/") = s +:+ "/".
Proof.
  unfold dropLastSegment.
  assert (last (split_on "/"%char (s +:+ "/")) = Some "") as ->; [|by rewrite decide_True by auto].
  induction s as [|a s IH]; simpl; [done|]. case_decide.
  - destruct (split_on "/"%char (s +:+ "/")) eqn:E; [done|]. by rewrite last_cons_cons || done.
  - destruct (split_on "/"%char (s +:+ "/")) as [|x [|y l]] eqn:E; [done| |done].
    exfalso. simpl in IH. simplify_eq.
    assert (length (split_on "/"%char (s +:+ "/")) ≥ 2) as Hl; [|rewrite E in Hl; simpl in Hl; lia].
    clear. induction s as [|b s IHs]; simpl; [lia|].
    case_decide; simpl; [lia|]. destruct (split_on _ _); simpl in *; lia.
Qed.

Lemma someAncestor_trailing fuel test s :
  test (s +:+ "/") = false → someAncestor fuel test (s +:+ "/") = None.
Proof.
  intros Ht. induction fuel as [|fuel IH]; simpl; [done|].
  rewrite dropLastSegment_trailing, Ht.
  assert (includesSlash (s +:+ "/") = true) as ->; [|done].
  unfold includesSlash. rewrite char_free_app. by rewrite andb_false_r.
Qed.


Lemma pathTest_path_of p ks :
  Forall (λ k, char_free "/"%char k = true) ks → pathTest p (path_of ks) = matches p ks.
Proof.
  intros Hks. unfold pathTest. destruct (decide (ks = [])) as [->|]; [done|].
  by rewrite split_path_of.
Qed.

Lemma someTest_path_of ps ks :
  Forall (λ k, char_free "/"%char k = true) ks →
  someTest ps (path_of ks) = existsb (λ p, matches p ks) ps.
Proof.
  intros Hks. unfold someTest. induction ps; simpl; [done|].
  by rewrite pathTest_path_of, IHps.
Qed.

Lemma strict_prefixes_Forall (P : string → Prop) ks :
  Forall P ks → Forall (Forall P) (strict_prefixes ks).
Proof.
  induction 1 as [|k ks Hk Hks IH]; simpl; [constructor|].
  apply Forall_app; split; [|by repeat constructor].
  apply Forall_map. eapply Forall_impl; [exact IH|]. simpl. intros. by constructor.
Qed.

Lemma existsb_ext_Forall {A} (f g : A → bool) l :
  Forall (λ x, f x = g x) l → existsb f l = existsb g l.
Proof. induction 1; simpl; congruence. Qed.

Lemma segment_keys_slash_free ks :
  Forall (λ k, segment_key k = true) ks → Forall (λ k, char_free "/"%char k = true) ks.
Proof. intros H. eapply Forall_impl; [exact H|]. eauto with bridge. Qed.
#[export] Hint Resolve segment_keys_slash_free : bridge.

Lemma matches_last_empty p segs :
  Forall (λ f, f "" = false) p → p ≠ [] → matches p (segs ++ [""]) = false.
Proof.
  revert segs. induction p as [|f p IH]; [done|].
  intros segs Hp _. inversion Hp; subst. destruct segs as [|x segs]; simpl.
  - by replace (f "") with false.
  - destruct p as [|f' p]; [|rewrite IH by done; by rewrite andb_false_r].
    by destruct (f x), segs.
Qed.

Lemma split_on_trailing c s : split_on c (s +:+ String c "") = split_on c s ++ [""].
Proof.
  induction s as [|a s IH]; simpl; [by rewrite decide_True|].
  rewrite IH. case_decide; [done|]. pose proof (split_on_nonnil c s). by destruct (split_on c s).
Qed.

Lemma pathTest_trailing p s :
  Forall (λ f, f "" = false) p → p ≠ [] → pathTest p (s +:+ "/") = false.
Proof.
  intros Hp Hne. unfold pathTest. rewrite split_on_trailing.
  pose proof (split_on_nonnil "/"%char s). destruct (split_on "/"%char s) as [|x l]; [done|].
  simpl. rewrite matches_last_empty by done. apply andb_false_r.
Qed.

Lemma someTest_trailing ps s :
  Forall (λ p, Forall (λ f, f "" = false) p ∧ p ≠ []) ps → someTest ps (s +:+ "/") = false.
Proof.
  unfold someTest. induction 1 as [|p ps [Hp Hne] _ IH]; simpl; [done|].
  by rewrite pathTest_trailing, IH.
Qed.

Lemma isLazyFieldPath_keys fuel ks :
  Forall (λ k, segment_key k = true) ks → length ks < fuel →
  isLazyFieldPath fuel (path_of ks) = Some (lazy_keys ks).
Proof.
  intros Hks Hfuel. unfold isLazyFieldPath, lazy_keys, lazy_field_keys.
  rewrite someTest_path_of by eauto with bridge. destruct (existsb _ _); [done|]. simpl.
  rewrite someAncestor_path_of by done. f_equal.
  apply existsb_ext_Forall. eapply Forall_impl; [by apply strict_prefixes_Forall|].
  intros p Hp. by apply someTest_path_of; eauto with bridge.
Qed.

(** ** Properties *)

(** On a path whose segments are all non-empty the lazy-path test returns:
    with more fuel than segments it answers exactly whether a lazy pattern
    names the path or one of its ancestors is a lazy object field. *)
Theorem isLazyFieldPath_spec fuel ks :
  Forall (λ k, segment_key k = true) ks → length ks < fuel →
  isLazyFieldPath fuel (path_of ks) = Some (lazy_keys ks).
Proof. apply isLazyFieldPath_keys. Qed.

Lemma isLazyFieldPath_spec_witness :
  isLazyFieldPath 7 "/entries/e1/content/0/arguments/path" = Some true.
Proof.
  exact (isLazyFieldPath_spec 7 ["entries"; "e1"; "content"; "0"; "arguments"; "path"]
           ltac:(repeat constructor) ltac:(simpl; lia)).
Defined.

(** On a path that ends in ["/"] (a tool argument whose key is the empty
    string gives one) the loop of the lazy-path test never ends: its step is
    the identity, and no amount of fuel gives a result. *)
Theorem isLazyFieldPath_diverges fuel s : isLazyFieldPath fuel (s +:+ "/") = None.
Proof.
  unfold isLazyFieldPath. rewrite someTest_trailing by (repeat constructor; done).
  apply someAncestor_trailing, someTest_trailing. repeat constructor; done.
Qed.
