(* ===== verification/Patch.v ===== *)
(** * Patches

    [document.ts]: the patch operations, reading and writing at a path, and
    [applyPatch].  Values are immutable here, so the copies of the source are
    the values themselves; what is kept of reference identity is whether an
    operation returns its input root unchanged ([===]), the condition on which
    [applyPatch] throws. *)

From S2P Require Export Paths.

Inductive PatchOp :=
| AddOp (path : string) (value : json)
| RemoveOp (path : string)
| ReplaceOp (path : string) (value : json)
| MoveOp (from path : string)
| AppendOp (path : string) (value : string) (lazy : bool).

(** ** Reading *)

Fixpoint getKeys (cur : json) (keys : list string) : json :=
  match keys with
  | [] => cur
  | key :: keys' => if nullish cur then JUndef else getKeys (get cur key) keys'
  end.

Definition getAtPath (obj : json) (path : string) : json := getKeys obj (parsePath path).

(** ** Writing *)

(** What a missing parent becomes: an array when the next key is a number. *)
Definition autoCreate (keys : list string) : json :=
  match keys with
  | k :: _ => if is_digits k then JArr [] else JObj ∅
  | [] => JObj ∅
  end.

(** [clone[idx] = v] for [idx = Number(head)]; a key that is not a number names
    a property that is not an element. *)
Definition arrayAssign (l : list json) (head : string) (v : json) : list json :=
  match number_of_string head with
  | Some idx => array_set JUndef l idx v
  | None => l
  end.

(** [clone[idx]] for [idx = Number(head)]. *)
Definition arrayAt (l : list json) (head : string) : json :=
  match number_of_string head with
  | Some idx => default JUndef (l !! idx)
  | None => JUndef
  end.

Fixpoint cloneSet (obj : json) (keys : list string) (value : json) : json :=
  match keys with
  | [] => value
  | head :: tail =>
    match obj with
    | JArr l => JArr (arrayAssign l head (cloneSet (arrayAt l head) tail value))
    | JObj rec =>
      JObj (<[head := cloneSet (get obj head ?? autoCreate tail) tail value]> rec)
    | _ => JObj {[head := cloneSet (autoCreate tail) tail value]}
    end
  end.

Definition setAtPath (root : json) (path : string) (value : json) : json :=
  cloneSet root (parsePath path) value.

(** [clone.splice(Number(last), 1)]: [NaN] counts as [0]. *)
Definition arraySplice (l : list json) (last : string) : list json :=
  array_remove l (default 0 (number_of_string last)).

Fixpoint cloneRemove (obj : json) (keys : list string) : json :=
  match keys with
  | [] => obj
  | [last] =>
    match obj with
    | JArr l => JArr (arraySplice l last)
    | JObj rec => JObj (delete last rec)
    | _ => obj
    end
  | head :: tail =>
    match obj with
    | JArr l => JArr (arrayAssign l head (cloneRemove (arrayAt l head) tail))
    | JObj rec =>
      if has obj head then JObj (<[head := cloneRemove (get obj head) tail]> rec) else obj
    | _ => obj
    end
  end.

(** Whether [cloneRemove] returns a new object rather than [obj] itself. *)
Definition removeIsFresh (obj : json) (keys : list string) : bool :=
  match keys, obj with
  | [], _ => false
  | [_], (JArr _ | JObj _) => true
  | _, JArr _ => true
  | head :: _, JObj _ => has obj head
  | _, _ => false
  end.

Definition removeAtPath (root : json) (path : string) : json := cloneRemove root (parsePath path).

Definition moveAtPath (root : json) (from to : string) : json :=
  let value := getAtPath root from in
  let afterRemove := removeAtPath root from in
  setAtPath afterRemove to value.

Definition appendAtPath (root : json) (path value : string) : json :=
  match getAtPath root path with
  | JStr existing => setAtPath root path (JStr (existing +:+ value))
  | _ => setAtPath root path (JStr value)
  end.

Definition applyOp (root : json) (op : PatchOp) : json :=
  match op with
  | AddOp path value | ReplaceOp path value => setAtPath root path value
  | RemoveOp path => removeAtPath root path
  | MoveOp from path => moveAtPath root from path
  | AppendOp path value _ => appendAtPath root path value
  end.

(** [applyOp(root, op) !== root] *)
Definition opIsFresh (root : json) (op : PatchOp) : bool :=
  match op with
  | RemoveOp path => removeIsFresh root (parsePath path)
  | MoveOp from path =>
    negb (bool_decide (parsePath from = [] ∧ parsePath path = []))
  | _ => true
  end.

Fixpoint applyOps (root : json) (ops : list PatchOp) : json * bool :=
  match ops with
  | [] => (root, false)
  | op :: ops' =>
    let '(root', fresh) := applyOps (applyOp root op) ops' in
    (root', opIsFresh root op || fresh)
  end.

(** [None]: the invariant check of [applyPatch] throws. *)
Definition applyPatch (root : json) (ops : list PatchOp) : option json :=
  let '(root', fresh) := applyOps root ops in
  if negb (bool_decide (ops = [])) && negb fresh then None else Some root'.

(** The operation's path. *)
Definition opPath (op : PatchOp) : string :=
  match op with
  | AddOp path _ | RemoveOp path | ReplaceOp path _ | MoveOp _ path | AppendOp path _ _ => path
  end.

(** ** Operations on parsed paths *)

Inductive KeyOp :=
| KSet (keys : list string) (value : json)
| KRemove (keys : list string)
| KMove (from keys : list string)
| KAppend (keys : list string) (value : string).

Definition keyOp (op : PatchOp) : KeyOp :=
  match op with
  | AddOp path v | ReplaceOp path v => KSet (parsePath path) v
  | RemoveOp path => KRemove (parsePath path)
  | MoveOp from path => KMove (parsePath from) (parsePath path)
  | AppendOp path v _ => KAppend (parsePath path) v
  end.

Definition applyKeyOp (root : json) (op : KeyOp) : json :=
  match op with
  | KSet keys v => cloneSet root keys v
  | KRemove keys => cloneRemove root keys
  | KMove from keys => cloneSet (cloneRemove root from) keys (getKeys root from)
  | KAppend keys s =>
    match getKeys root keys with
    | JStr existing => cloneSet root keys (JStr (existing +:+ s))
    | _ => cloneSet root keys (JStr s)
    end
  end.

Definition applyKeyOps (root : json) (ops : list KeyOp) : json := foldl applyKeyOp root ops.

(** The operation, moved below a prefix. *)
Definition under (ks : list string) (op : KeyOp) : KeyOp :=
  match op with
  | KSet keys v => KSet (ks ++ keys) v
  | KRemove keys => KRemove (ks ++ keys)
  | KMove from keys => KMove (ks ++ from) (ks ++ keys)
  | KAppend keys s => KAppend (ks ++ keys) s
  end.

(** A removal needs a key to remove. *)
Definition op_targets (op : KeyOp) : bool :=
  match op with
  | KSet _ _ | KAppend _ _ => true
  | KRemove keys => negb (bool_decide (keys = []))
  | KMove _ _ => false
  end.

(** [keys] leads through existing containers to a value that is not nullish. *)
Fixpoint resolves (r : json) (keys : list string) : Prop :=
  match keys with
  | [] => True
  | k :: keys' =>
    match r with
    | JObj m => ∃ c, m !! k = Some c ∧ nullish c = false ∧ resolves c keys'
    | JArr l => ∃ i c, array_index k = Some i ∧ l !! i = Some c ∧ nullish c = false ∧ resolves c keys'
    | _ => False
    end
  end.

(** Every array the write passes is indexed by a canonical numeral. *)
Fixpoint settable (obj : json) (keys : list string) : Prop :=
  match keys with
  | [] => True
  | head :: tail =>
    match obj with
    | JArr l => is_Some (array_index head) ∧ settable (arrayAt l head) tail
    | JObj _ => settable (get obj head ?? autoCreate tail) tail
    | _ => settable (autoCreate tail) tail
    end
  end.

(** ** Lemmas *)

Lemma array_index_number k i : array_index k = Some i → number_of_string k = Some i.
Proof.
  unfold array_index. intros (n & Hn & H)%bind_Some. by case_guard; simplify_eq/=.
Qed.

Lemma arrayAt_index l k i : array_index k = Some i → arrayAt l k = default JUndef (l !! i).
Proof. intros H%array_index_number. unfold arrayAt. by rewrite H. Qed.

Lemma arrayAssign_index l k i v : array_index k = Some i → arrayAssign l k v = array_set JUndef l i v.
Proof. intros H%array_index_number. unfold arrayAssign. by rewrite H. Qed.

Lemma get_array_index l k i : array_index k = Some i → get (JArr l) k = default JUndef (l !! i).
Proof. simpl. by intros ->. Qed.

Lemma arrayAssign_existing l k i c v :
  array_index k = Some i → l !! i = Some c → arrayAssign l k v = <[i := v]> l.
Proof.
  intros Hk Hi. rewrite (arrayAssign_index _ _ _ _ Hk), array_set_insert; [done|].
  by eapply lookup_lt_Some.
Qed.

Lemma getKeys_undef ks : getKeys JUndef ks = JUndef.
Proof. by destruct ks. Qed.

Lemma getKeys_app r ks ks' : getKeys r (ks ++ ks') = getKeys (getKeys r ks) ks'.
Proof.
  revert r. induction ks as [|k ks IH]; intros r; simpl; [done|].
  destruct (nullish r); [by rewrite getKeys_undef|]. apply IH.
Qed.

Lemma resolves_app r ks ks' : resolves r ks → resolves (getKeys r ks) ks' → resolves r (ks ++ ks').
Proof.
  revert r. induction ks as [|k ks IH]; intros r; [done|].
  destruct r as [| | | | |l|m]; try done; simpl.
  - intros (i & c & Hi & Hc & Hn & Hr). rewrite Hi, Hc. intros H. exists i, c. auto.
  - intros (c & Hc & Hn & Hr). rewrite Hc. intros H. exists c. auto.
Qed.

(** A resolved path is a lens: writes below it are writes to what it leads to. *)
Lemma cloneSet_app r ks ks' v :
  resolves r ks → cloneSet r (ks ++ ks') v = cloneSet r ks (cloneSet (getKeys r ks) ks' v).
Proof.
  revert r. induction ks as [|k ks IH]; intros r; [done|].
  destruct r as [| | | | |l|m]; try done; simpl.
  - intros (i & c & Hi & Hc & Hn & Hr). rewrite Hi.
    rewrite (arrayAt_index _ _ _ Hi), Hc. simpl. by rewrite IH.
  - intros (c & Hc & Hn & Hr). rewrite Hc. simpl. unfold coalesce. rewrite Hn. by rewrite IH.
Qed.

Lemma cloneRemove_cons obj head tail :
  tail ≠ [] →
  cloneRemove obj (head :: tail) =
    match obj with
    | JArr l => JArr (arrayAssign l head (cloneRemove (arrayAt l head) tail))
    | JObj rec =>
      if has obj head then JObj (<[head := cloneRemove (get obj head) tail]> rec) else obj
    | _ => obj
    end.
Proof. by destruct tail. Qed.

Lemma cloneRemove_app r ks ks' :
  resolves r ks → ks' ≠ [] →
  cloneRemove r (ks ++ ks') = cloneSet r ks (cloneRemove (getKeys r ks) ks').
Proof.
  intros Hr Hne. revert r Hr. induction ks as [|k ks IH]; intros r; [done|].
  assert (ks ++ ks' ≠ []) as Hne' by (by destruct ks).
  rewrite <- app_comm_cons, cloneRemove_cons by done.
  destruct r as [| | | | |l|m]; try done; simpl.
  - intros (i & c & Hi & Hc & Hn & Hr). rewrite Hi.
    rewrite (arrayAt_index _ _ _ Hi), Hc. simpl. by rewrite IH.
  - intros (c & Hc & Hn & Hr). rewrite Hc. simpl.
    unfold coalesce. rewrite Hn. by rewrite IH.
Qed.

Lemma cloneSet_container r ks v :
  ks ≠ [] → nullish (cloneSet r ks v) = false.
Proof. destruct ks; [done|]. by destruct r. Qed.

Lemma getKeys_cloneSet r ks v : resolves r ks → getKeys (cloneSet r ks v) ks = v.
Proof.
  revert r. induction ks as [|k ks IH]; intros r; [done|].
  destruct r as [| | | | |l|m]; try done; simpl.
  - intros (i & c & Hi & Hc & Hn & Hr). rewrite Hi.
    rewrite (arrayAssign_index _ _ _ _ Hi), array_set_lookup_eq. simpl.
    rewrite (arrayAt_index _ _ _ Hi), Hc. auto.
  - intros (c & Hc & Hn & Hr). rewrite lookup_insert_eq, Hc. simpl. unfold coalesce. rewrite Hn. auto.
Qed.

Lemma cloneSet_getKeys r ks : resolves r ks → cloneSet r ks (getKeys r ks) = r.
Proof.
  revert r. induction ks as [|k ks IH]; intros r; [done|].
  destruct r as [| | | | |l|m]; try done; simpl.
  - intros (i & c & Hi & Hc & Hn & Hr). rewrite Hi. simpl.
    rewrite (arrayAssign_existing _ _ _ _ _ Hi Hc), (arrayAt_index _ _ _ Hi), Hc. simpl.
    by rewrite IH, list_insert_id.
  - intros (c & Hc & Hn & Hr). rewrite Hc. simpl. unfold coalesce. rewrite Hn, IH by done.
    by rewrite insert_id.
Qed.

Lemma cloneSet_cloneSet r ks v w :
  resolves r ks → cloneSet (cloneSet r ks v) ks w = cloneSet r ks w.
Proof.
  revert r. induction ks as [|k ks IH]; intros r; [done|].
  destruct r as [| | | | |l|m]; try done; simpl.
  - intros (i & c & Hi & Hc & Hn & Hr). f_equal.
    rewrite (arrayAssign_existing l _ _ _ _ Hi Hc), (arrayAt_index l _ _ Hi), Hc. simpl.
    assert (Hlt : i < length l) by (by eapply lookup_lt_Some).
    rewrite (arrayAt_index _ _ _ Hi), list_lookup_insert_eq by done. simpl.
    rewrite (arrayAssign_existing _ _ _ (cloneSet c ks v) _ Hi) by (by rewrite list_lookup_insert_eq).
    rewrite list_insert_insert_eq, IH by done.
    by rewrite (arrayAssign_existing l _ _ _ _ Hi Hc).
  - intros (c & Hc & Hn & Hr). rewrite lookup_insert_eq, Hc. simpl.
    rewrite insert_insert_eq. do 2 f_equal. unfold coalesce at 2 3. rewrite Hn.
    destruct ks as [|k' ks']; [done|]. unfold coalesce.
    rewrite cloneSet_container by done. by apply IH.
Qed.

Lemma resolves_cloneSet r ks v :
  resolves r ks → nullish v = false → resolves (cloneSet r ks v) ks.
Proof.
  intros Hr Hv. revert r Hr. induction ks as [|k ks IH]; intros r; [done|].
  assert (Hcon : ∀ c, resolves c ks → nullish c = false → nullish (cloneSet c ks v) = false).
  { intros c _ Hc. destruct ks; [done|]. by apply cloneSet_container. }
  destruct r as [| | | | |l|m]; try done; simpl.
  - intros (i & c & Hi & Hc & Hn & Hr). exists i, (cloneSet c ks v).
    rewrite (arrayAssign_index _ _ _ _ Hi), array_set_lookup_eq, (arrayAt_index _ _ _ Hi), Hc. auto.
  - intros (c & Hc & Hn & Hr). exists (cloneSet c ks v). rewrite lookup_insert_eq, Hc. simpl.
    unfold coalesce. rewrite Hn. auto.
Qed.

Lemma applyKeyOp_under r ks op :
  resolves r ks → op_targets op = true →
  applyKeyOp r (under ks op) = cloneSet r ks (applyKeyOp (getKeys r ks) op).
Proof.
  intros Hr Hop. destruct op as [keys v|keys|from keys|keys s]; simpl in *.
  - by apply cloneSet_app.
  - apply cloneRemove_app; [done|]. by split_bools.
  - done.
  - rewrite getKeys_app. by destruct (getKeys (getKeys r ks) keys); apply cloneSet_app.
Qed.

Lemma applyKeyOp_container r op :
  op_targets op = true → nullish r = false →
  (∀ v, op ≠ KSet [] v) → nullish (applyKeyOp r op) = false.
Proof.
  intros Hop Hr Hset. destruct op as [keys v|keys|from keys|keys s]; simpl in *; try done.
  - apply cloneSet_container. intros ->. by apply (Hset v).
  - destruct keys as [|k [|k' keys]]; [done| |]; destruct r; try done; simpl; by repeat case_match.
  - destruct keys; [destruct (getKeys r []); done|].
    case_match; by apply cloneSet_container.
Qed.

(** A patch below a resolved path acts on what the path leads to. *)
Lemma applyKeyOps_under r ks ops :
  resolves r ks → nullish (getKeys r ks) = false →
  Forall (λ op, op_targets op = true ∧ ∀ v, op ≠ KSet [] v) ops →
  applyKeyOps r (map (under ks) ops) = cloneSet r ks (applyKeyOps (getKeys r ks) ops).
Proof.
  intros Hr Hn Hops. unfold applyKeyOps. revert r Hr Hn.
  induction Hops as [|op ops [Hop Hset] _ IH]; intros r Hr Hn; simpl.
  - by rewrite cloneSet_getKeys.
  - pose proof (applyKeyOp_container _ _ Hop Hn Hset) as Hn'.
    rewrite applyKeyOp_under by done.
    rewrite IH; rewrite ?getKeys_cloneSet by done; [|by apply resolves_cloneSet|done].
    by rewrite cloneSet_cloneSet.
Qed.

Lemma applyOp_keyOp r op : applyOp r op = applyKeyOp r (keyOp op).
Proof. by destruct op. Qed.

Lemma applyOps_keyOps r ops : (applyOps r ops).1 = applyKeyOps r (map keyOp ops).
Proof.
  revert r. induction ops as [|op ops IH]; intros r; simpl; [done|].
  specialize (IH (applyOp r op)). destruct (applyOps (applyOp r op) ops); simpl in *.
  by rewrite IH, applyOp_keyOp.
Qed.

Lemma applyOps_fresh r ops :
  Forall (λ op, ∀ r, opIsFresh r op = true) ops → ops ≠ [] → (applyOps r ops).2 = true.
Proof.
  intros [|op ops' Hop _]; [done|]. intros _. simpl.
  destruct (applyOps _ _). simpl. by rewrite Hop.
Qed.

(** An operation that returns its input changes nothing. *)
Lemma opIsFresh_false r op : opIsFresh r op = false → applyOp r op = r.
Proof.
  destruct op as [p v|p|p v|f p|p v z]; simpl; try done.
  - unfold removeAtPath. destruct (parsePath p) as [|k [|k' ks]]; [done|..];
      destruct r as [| | | | |l|m]; simpl; try done.
    intros H. by rewrite H.
  - intros H. split_bools. destruct H as [Hf Hp].
    unfold moveAtPath, removeAtPath, setAtPath, getAtPath. by rewrite Hf, Hp.
Qed.

Lemma applyOps_not_fresh r ops : (applyOps r ops).2 = false → (applyOps r ops).1 = r.
Proof.
  revert r. induction ops as [|op ops IH]; intros r; simpl; [done|].
  destruct (applyOps (applyOp r op) ops) as [r' f] eqn:E. simpl.
  intros [Hop ->]%orb_false_iff. specialize (IH (applyOp r op)). rewrite E in IH. simpl in IH.
  rewrite IH by done. by apply opIsFresh_false.
Qed.

(** A patch returns a document as soon as one of its operations writes. *)
Lemma applyPatch_value r ops r' : applyPatch r ops = Some r' → r' = applyKeyOps r (map keyOp ops).
Proof.
  unfold applyPatch. rewrite <- applyOps_keyOps. destruct (applyOps r ops); simpl.
  case_match; by intros [= ->].
Qed.

Definition writes (op : PatchOp) : bool :=
  match op with AddOp _ _ | ReplaceOp _ _ | AppendOp _ _ _ => true | _ => false end.

Lemma applyOps_writes r ops : existsb writes ops = true → (applyOps r ops).2 = true.
Proof.
  revert r. induction ops as [|op ops IH]; intros r; simpl; [done|].
  specialize (IH (applyOp r op)). destruct (applyOps _ ops). simpl in *.
  intros [H|H]%orb_true_iff.
  - by destruct op.
  - by rewrite IH, orb_true_r.
Qed.

Lemma applyPatch_writes r ops :
  existsb writes ops = true → applyPatch r ops = Some (applyKeyOps r (map keyOp ops)).
Proof.
  intros Hw. unfold applyPatch. rewrite <- applyOps_keyOps.
  pose proof (applyOps_writes r ops Hw). destruct (applyOps r ops); simpl in *. subst.
  by rewrite andb_false_r.
Qed.

Lemma applyKeyOps_app r ops ops' : applyKeyOps r (ops ++ ops') = applyKeyOps (applyKeyOps r ops) ops'.
Proof. apply foldl_app. Qed.

(** Two writes to different properties of one object do not interfere. *)
Lemma cloneSet_frame m a ks v b :
  a ≠ b → get (cloneSet (JObj m) (a :: ks) v) b = get (JObj m) b.
Proof. intros H. simpl. by rewrite lookup_insert_ne. Qed.

Lemma getKeys_settable obj ks v : settable obj ks → getKeys (cloneSet obj ks v) ks = v.
Proof.
  revert obj. induction ks as [|k ks IH]; intros obj; [done|].
  assert (∀ c, settable c ks → getKeys (get (JObj {[k := cloneSet c ks v]}) k) ks = v) as Hnew.
  { intros c Hc. simpl. rewrite lookup_singleton_eq. by apply IH. }
  destruct obj as [| | | | |l|m]; simpl; try by apply Hnew.
  - intros [[i Hi] Hs]. rewrite Hi, (arrayAssign_index _ _ _ _ Hi), array_set_lookup_eq. by apply IH.
  - intros Hs. rewrite lookup_insert_eq. by apply IH.
Qed.

(** ** Properties *)

(** Writing at a path and reading it back gives the written value, missing
    parents created on the way, whenever the arrays on the way are indexed by
    canonical numerals. *)
Theorem setAtPath_getAtPath root path v :
  settable root (parsePath path) → getAtPath (setAtPath root path v) path = v.
Proof. apply getKeys_settable. Qed.

Lemma setAtPath_getAtPath_witness :
  let root := object [("entries", object [("e1", object [("content", JArr [JNull])])])] in
  getAtPath (setAtPath root "/entries/e1/content/3/text" (JStr "x")) "/entries/e1/content/3/text" = JStr "x".
Proof.
  intros root. apply (setAtPath_getAtPath root "/entries/e1/content/3/text" (JStr "x")).
  vm_compute. split; [eauto|done].
Defined.

(** A patch is applied as one transaction of its operations in order: if
    two patches both succeed one after the other, their concatenation succeeds
    with the same document. *)
Theorem applyPatch_concat root ops ops' r r' :
  applyPatch root ops = Some r → applyPatch r ops' = Some r' → applyPatch root (ops ++ ops') = Some r'.
Proof.
  assert (Happ : ∀ l r0, applyOps r0 (l ++ ops') =
    let '(r1, f) := applyOps r0 l in let '(r2, f') := applyOps r1 ops' in (r2, f || f')).
  { induction l as [|op l IH]; intros r0; simpl; [by destruct (applyOps r0 ops')|].
    rewrite IH. destruct (applyOps (applyOp r0 op) l) as [r1 f1].
    destruct (applyOps r1 ops') as [r2 f2]. by rewrite orb_assoc. }
  destruct (decide (ops = [])) as [->|Hne]; [intros H; by injection H as <-|].
  unfold applyPatch. rewrite Happ.
  destruct (applyOps root ops) as [r1 f1].
  rewrite (bool_decide_eq_false_2 (ops = [])) by done.
  rewrite (bool_decide_eq_false_2 (ops ++ ops' = [])) by (by destruct ops).
  destruct f1; simpl; [|done]. intros [= ->].
  destruct (applyOps r ops') as [r2 f2]. by case_match; intros [= ->].
Qed.

Lemma applyPatch_concat_witness :
  applyPatch (object [("a", JInt 1)]) ([ReplaceOp "/a" (JStr "x")] ++ [AppendOp "/a" "y" false])
    = Some (object [("a", JStr "xy")]).
Proof.
  apply (applyPatch_concat _ _ _ (object [("a", JStr "x")])); vm_compute; reflexivity.
Defined.
