(* ===== verification/Diff.v ===== *)
(** * Object diffs

    [document.ts]: [computeObjectDiff], [diffValue] and [diffArray], which turn
    two successive partial argument objects of a streamed tool call into patch
    operations.  Two objects that are the same reference give no operation in
    the source; structurally equal ones give none either ([diffValue_refl]), so
    the reference test is not modelled. *)

From S2P Require Export Patch.
From Stdlib Require Import DecimalString.

(** [`${basePath}/${key}`] *)
Definition childPath (basePath key : string) : string := basePath +:+ "/" +:+ key.

(** The body of [computeObjectDiff], over the diffs of the old values. *)
Definition objectDiff (diffs : gmap string (json → string → list PatchOp))
    (newObj : record) (basePath : string) : list PatchOp :=
  concat (map (λ key,
    let keyPath := childPath basePath key in
    match diffs !! key, newObj !! key with
    | _, None => [RemoveOp keyPath]
    | None, Some newVal => [AddOp keyPath newVal]
    | Some diffOld, Some newVal => diffOld newVal keyPath
    end) (elements (dom diffs ∪ dom newObj))).

(** The body of [diffArray], over the diffs of the old elements. *)
Definition arrayDiff (diffs : list (json → string → list PatchOp))
    (newArr : list json) (basePath : string) : list PatchOp :=
  let at_ i := childPath basePath (string_of_nat i) in
  concat (imap (λ i dn, dn.1 dn.2 (at_ i)) (zip diffs newArr))
  ++ map (λ i, RemoveOp (at_ i)) (rev (seq (length newArr) (length diffs - length newArr)))
  ++ imap (λ i v, AddOp (at_ (length diffs + i)) v) (drop (length diffs) newArr).

Fixpoint diffValue (oldVal newVal : json) (path : string) {struct oldVal} : list PatchOp :=
  match oldVal, newVal with
  | JObj o, JObj n => objectDiff (diffValue <$> o) n path
  | JArr o, JArr n => arrayDiff (map diffValue o) n path
  | JStr a, JStr b =>
    if decide (a = b) then []
    else if startsWith a b && (slength a <? slength b)
    then [AppendOp path (sdrop (slength a) b) false]
    else [ReplaceOp path newVal]
  | _, _ => if prim_eq oldVal newVal then [] else [ReplaceOp path newVal]
  end.

Definition computeObjectDiff (oldObj newObj : record) (basePath : string) : list PatchOp :=
  objectDiff (diffValue <$> oldObj) newObj basePath.

Definition diffArray (oldArr newArr : list json) (basePath : string) : list PatchOp :=
  arrayDiff (map diffValue oldArr) newArr basePath.

(** Every property name inside the value satisfies [P]. *)
Fixpoint keys_json (P : string → bool) (v : json) : bool :=
  match v with
  | JArr l => forallb (keys_json P) l
  | JObj m => map_fold (λ k b acc, (P k && b) && acc) true (keys_json P <$> m)
  | _ => true
  end.

(** Every property name inside the value can be named by a path. *)
Definition plain_json : json → bool := keys_json plain_key.

(** [k] is a property, or an element, of [c], and its value is [v]. *)
Definition holds (c : json) (k : string) (v : json) : Prop :=
  match c with
  | JObj m => m !! k = Some v
  | JArr l => ∃ i, array_index k = Some i ∧ l !! i = Some v
  | _ => False
  end.

(** ** Lemmas *)

Lemma keys_json_object P m :
  keys_json P (JObj m) = true ↔ map_Forall (λ k v, P k = true ∧ keys_json P v = true) m.
Proof.
  simpl. rewrite (map_fold_andb (λ k b, P k && b)). split; intros H k v Hk.
  - specialize (H k (keys_json P v)). rewrite lookup_fmap, Hk in H.
    specialize (H eq_refl). by apply andb_true_iff in H.
  - rewrite lookup_fmap in Hk. destruct (m !! k) as [w|] eqn:E; simplify_eq/=.
    by apply andb_true_iff, (H k w).
Qed.

Lemma keys_json_array P l : keys_json P (JArr l) = true ↔ Forall (λ v, keys_json P v = true) l.
Proof.
  simpl. induction l as [|v l IH]; simpl; [by split|].
  rewrite andb_true_iff, IH, Forall_cons. done.
Qed.

Lemma plain_json_object m :
  plain_json (JObj m) = true ↔ map_Forall (λ k v, plain_key k = true ∧ plain_json v = true) m.
Proof. apply keys_json_object. Qed.

Lemma plain_json_array l : plain_json (JArr l) = true ↔ Forall (λ v, plain_json v = true) l.
Proof. apply keys_json_array. Qed.

Lemma plain_uint d : plain_key (NilEmpty.string_of_uint d) = true.
Proof. induction d; simpl; done. Qed.

Lemma plain_string_of_nat n : plain_key (string_of_nat n) = true.
Proof.
  unfold string_of_nat. pose proof (plain_uint (Nat.to_uint n)) as H.
  by destruct (Nat.to_uint n).
Qed.
#[export] Hint Resolve plain_string_of_nat : bridge.

Lemma childPath_path_of ks k : childPath (path_of ks) k = path_of (ks ++ [k]).
Proof. by rewrite path_of_snoc. Qed.

Lemma resolves_holds r ks k v :
  resolves r ks → holds (getKeys r ks) k v → nullish v = false → resolves r (ks ++ [k]).
Proof.
  intros Hr Hh Hv. apply resolves_app; [done|].
  destruct (getKeys r ks) as [| | | | |l|m]; try done; simpl.
  - destruct Hh as (i & Hi & Hl). eauto 8.
  - eauto.
Qed.

Lemma getKeys_holds r ks k v : holds (getKeys r ks) k v → getKeys r (ks ++ [k]) = v.
Proof.
  rewrite getKeys_app. destruct (getKeys r ks) as [| | | | |l|m]; try done; simpl.
  - intros (i & Hi & Hl). by rewrite Hi, Hl.
  - by intros ->.
Qed.

Lemma cloneSet_holds r ks k v :
  resolves r ks → holds (getKeys r ks) k v → cloneSet r (ks ++ [k]) v = r.
Proof.
  intros Hr Hh. rewrite cloneSet_app by done.
  replace (cloneSet (getKeys r ks) [k] v) with (getKeys r ks); [by apply cloneSet_getKeys|].
  destruct (getKeys r ks) as [| | | | |l|m]; try done; simpl.
  - destruct Hh as (i & Hi & Hl). by rewrite (arrayAssign_existing _ _ _ _ _ Hi Hl), list_insert_id.
  - by rewrite insert_id.
Qed.

(** The effect of one operation list: the value at [ks ++ [k]] becomes [v]. *)
Definition writes_at (ops : list PatchOp) (ks : list string) (k : string) (old new : json) : Prop :=
  ∀ r, resolves r ks → holds (getKeys r ks) k old →
    applyKeyOps r (map keyOp ops) = cloneSet r (ks ++ [k]) new.

Lemma parsePath_child ks k :
  ks ≠ [] → Forall (λ k, plain_key k = true) ks → plain_key k = true →
  parsePath (path_of (ks ++ [k])) = ks ++ [k].
Proof.
  intros Hne Hks Hk. apply parsePath_path_of.
  - by destruct ks as [|? [|? ?]].
  - apply Forall_app; auto.
Qed.

Section object_case.
  Context (o n : record) (ks : list string) (Hne : ks ≠ [])
    (Hks : Forall (λ k, plain_key k = true) ks)
    (Hko : map_Forall (λ k _, plain_key k = true) o)
    (Hkn : map_Forall (λ k _, plain_key k = true) n)
    (IH : ∀ k v w, o !! k = Some v → n !! k = Some w →
      writes_at (diffValue v w (path_of (ks ++ [k]))) ks k v w).

(** The object once the keys [done_] have been brought up to date. *)
Definition mixed (done_ : gset string) : record :=
  filter (λ kv, kv.1 ∉ done_) o ∪ filter (λ kv, kv.1 ∈ done_) n.

Lemma mixed_lookup d k : mixed d !! k = if decide (k ∈ d) then n !! k else o !! k.
Proof.
  unfold mixed. rewrite lookup_union, !map_lookup_filter.
  case_decide as Hd.
  - destruct (o !! k); simpl; [rewrite option_guard_False by auto|]; simpl;
      destruct (n !! k); simpl; by rewrite ?option_guard_True.
  - destruct (o !! k); simpl; [rewrite option_guard_True by auto|]; simpl;
      destruct (n !! k); simpl; by rewrite ?option_guard_False.
Qed.

Lemma key_step r d k :
  resolves r ks → getKeys r ks = JObj (mixed d) → k ∉ d → k ∈ dom o ∪ dom n →
  let ops := match (diffValue <$> o) !! k, n !! k with
             | _, None => [RemoveOp (childPath (path_of ks) k)]
             | None, Some newVal => [AddOp (childPath (path_of ks) k) newVal]
             | Some diffOld, Some newVal => diffOld newVal (childPath (path_of ks) k)
             end in
  applyKeyOps r (map keyOp ops) = cloneSet r ks (JObj (mixed ({[k]} ∪ d))).
Proof.
  intros Hr Hg Hd Hk ops. subst ops. rewrite childPath_path_of.
  assert (plain_key k = true) as Hp.
  { apply elem_of_union in Hk as [[v Hv]%elem_of_dom|[v Hv]%elem_of_dom]; eauto. }
  assert (∀ c, nullish (JObj c) = false) as Hnn by done.
  rewrite lookup_fmap.
  assert (Hmix : match n !! k with
                 | Some w => <[k := w]> (mixed d) | None => delete k (mixed d) end
                 = mixed ({[k]} ∪ d)).
  { apply map_eq. intros k'. rewrite mixed_lookup.
    destruct (decide (k' = k)) as [->|Hkk].
    - rewrite decide_True by set_solver. destruct (n !! k); [by rewrite lookup_insert_eq|by rewrite lookup_delete_eq].
    - rewrite (decide_ext (k' ∈ {[k]} ∪ d) (k' ∈ d)) by set_solver. rewrite <- mixed_lookup.
      destruct (n !! k); [by rewrite lookup_insert_ne|by rewrite lookup_delete_ne]. }
  rewrite <- Hmix. destruct (n !! k) as [w|] eqn:En.
  - destruct (o !! k) as [v|] eqn:Eo; simpl.
    + rewrite (IH k v w); try done.
      * rewrite cloneSet_app by done. by rewrite Hg.
      * rewrite Hg. simpl. by rewrite mixed_lookup, decide_False.
    + rewrite parsePath_child by done. rewrite cloneSet_app by done. by rewrite Hg.
  - assert (is_Some (o !! k)) as [v Hv].
    { apply elem_of_union in Hk as [?%elem_of_dom|[? ?]%elem_of_dom]; [done|congruence]. }
    rewrite Hv. simpl. rewrite parsePath_child by done.
    rewrite cloneRemove_app by done. by rewrite Hg.
Qed.

Lemma object_steps r l d :
  resolves r ks → getKeys r ks = JObj (mixed d) → NoDup l →
  (∀ k, k ∈ l → k ∉ d) → (∀ k, k ∈ l → k ∈ dom o ∪ dom n) →
  applyKeyOps r (map keyOp (concat (map (λ key,
    let keyPath := childPath (path_of ks) key in
    match (diffValue <$> o) !! key, n !! key with
    | _, None => [RemoveOp keyPath]
    | None, Some newVal => [AddOp keyPath newVal]
    | Some diffOld, Some newVal => diffOld newVal keyPath
    end) l))) = cloneSet r ks (JObj (mixed (list_to_set l ∪ d))).
Proof.
  intros Hr Hg Hnd Hl Hin. revert r d Hr Hg Hl. induction Hnd as [|k l Hk Hnd IHl]; intros r d Hr Hg Hl.
  - simpl. rewrite union_empty_l_L, <- Hg. by rewrite cloneSet_getKeys.
  - cbn [map concat]. rewrite map_app, applyKeyOps_app.
    rewrite (key_step r d k) by (done || set_solver).
    rewrite (IHl ltac:(set_solver) _ ({[k]} ∪ d)).
    + rewrite cloneSet_cloneSet by done. do 3 f_equal. simpl. set_solver.
    + by apply resolves_cloneSet.
    + by apply getKeys_cloneSet.
    + intros k' Hk'. set_solver.
Qed.

Lemma objectDiff_correct r :
  resolves r ks → getKeys r ks = JObj o →
  applyKeyOps r (map keyOp (objectDiff (diffValue <$> o) n (path_of ks))) = cloneSet r ks (JObj n).
Proof.
  intros Hr Hg. unfold objectDiff.
  rewrite (object_steps r _ ∅).
  - do 2 f_equal. apply map_eq. intros k. rewrite mixed_lookup.
    case_decide as Hk; [done|].
    rewrite union_empty_r_L, list_to_set_elements_L, dom_fmap_L in Hk.
    apply not_elem_of_union in Hk as [Ho Hn].
    apply not_elem_of_dom in Ho, Hn. congruence.
  - done.
  - rewrite Hg. f_equal. apply map_eq. intros k. by rewrite mixed_lookup, decide_False by set_solver.
  - apply NoDup_elements.
  - set_solver.
  - intros k. by rewrite elem_of_elements, dom_fmap_L.
Qed.
End object_case.

Section array_case.
  Context (ks : list string) (Hne : ks ≠ []) (Hks : Forall (λ k, plain_key k = true) ks).

Lemma parsePath_index i : parsePath (path_of (ks ++ [string_of_nat i])) = ks ++ [string_of_nat i].
Proof. apply parsePath_child; [done|done|apply plain_string_of_nat]. Qed.

Lemma removals_correct r (kept extra : list json) :
  resolves r ks → getKeys r ks = JArr (kept ++ extra) →
  applyKeyOps r (map keyOp (map (λ i, RemoveOp (childPath (path_of ks) (string_of_nat i)))
    (rev (seq (length kept) (length extra))))) = cloneSet r ks (JArr kept).
Proof.
  intros Hr Hg. revert r Hr Hg. induction extra as [|x extra IH] using rev_ind; intros r Hr Hg.
  - simpl. rewrite app_nil_r in Hg. rewrite <- Hg. by rewrite cloneSet_getKeys.
  - rewrite length_app, Nat.add_1_r, seq_S, rev_app_distr. simpl.
    rewrite childPath_path_of, parsePath_index, cloneRemove_app by done.
    rewrite Hg. simpl. unfold arraySplice. rewrite number_of_string_of_nat. simpl.
    rewrite <- length_app, app_assoc, array_remove_snoc.
    change (foldl applyKeyOp ?a ?b) with (applyKeyOps a b). rewrite IH.
    + by apply cloneSet_cloneSet.
    + by apply resolves_cloneSet.
    + by apply getKeys_cloneSet.
Qed.

Lemma additions_correct r (kept suf : list json) :
  resolves r ks → getKeys r ks = JArr kept →
  applyKeyOps r (map keyOp (imap (λ i v,
    AddOp (childPath (path_of ks) (string_of_nat (length kept + i))) v) suf)) =
  cloneSet r ks (JArr (kept ++ suf)).
Proof.
  revert r kept. induction suf as [|x suf IH]; intros r kept Hr Hg.
  - simpl. rewrite app_nil_r, <- Hg. by rewrite cloneSet_getKeys.
  - simpl. rewrite Nat.add_0_r, childPath_path_of, parsePath_index, cloneSet_app by done.
    rewrite Hg. simpl.
    rewrite (arrayAssign_index _ _ _ _ (array_index_of_nat _)), array_set_snoc.
    change (foldl applyKeyOp ?a ?b) with (applyKeyOps a b).
    rewrite (imap_ext _ (λ i v, AddOp (childPath (path_of ks) (string_of_nat (length (kept ++ [x]) + i))) v)).
    2:{ intros i v _. simpl. do 2 f_equal. rewrite length_app. simpl. f_equal. lia. }
    rewrite IH; [|by apply resolves_cloneSet|by apply getKeys_cloneSet].
    rewrite cloneSet_cloneSet by done. by rewrite <- app_assoc.
Qed.

Lemma shared_correct r (pre lo ne : list json) :
  Forall (λ v, ∀ i w, w ∈ ne → writes_at (diffValue v w (path_of (ks ++ [string_of_nat i]))) ks (string_of_nat i) v w) lo →
  resolves r ks → getKeys r ks = JArr (pre ++ lo) →
  applyKeyOps r (map keyOp (concat (imap (λ i dn, dn.1 dn.2
     (childPath (path_of ks) (string_of_nat (length pre + i)))) (zip (map diffValue lo) ne)))) =
  cloneSet r ks (JArr (pre ++ take (length lo) ne ++ drop (length ne) lo)).
Proof.
  intros Hlo. revert r pre ne Hlo. induction lo as [|v lo IH]; intros r pre ne Hlo Hr Hg.
  - simpl. rewrite drop_nil, <- Hg. by rewrite cloneSet_getKeys.
  - destruct ne as [|w ne].
    + simpl. rewrite <- Hg. by rewrite cloneSet_getKeys.
    + apply Forall_cons in Hlo as [Hv Hlo]. simpl.
      rewrite map_app, applyKeyOps_app, Nat.add_0_r, childPath_path_of.
      assert (Hstep : cloneSet r (ks ++ [string_of_nat (length pre)]) w
                      = cloneSet r ks (JArr ((pre ++ [w]) ++ lo))).
      { rewrite cloneSet_app, Hg by done. simpl.
        rewrite (arrayAssign_index _ _ _ _ (array_index_of_nat _)), array_set_app.
        by rewrite <- app_assoc. }
      rewrite Hv; [|set_solver|done|].
      2:{ rewrite Hg. exists (length pre). rewrite array_index_of_nat. split; [done|].
          by rewrite list_lookup_middle. }
      rewrite Hstep.
      rewrite (imap_ext _ (λ i dn, dn.1 dn.2 (childPath (path_of ks) (string_of_nat (length (pre ++ [w]) + i))))).
      2:{ intros i dn _. simpl. do 2 f_equal. rewrite length_app. simpl. f_equal. lia. }
      rewrite IH; [|eapply Forall_impl; [exact Hlo|set_solver]|by apply resolves_cloneSet|by apply getKeys_cloneSet].
      rewrite cloneSet_cloneSet by done. by rewrite <- app_assoc.
Qed.

Lemma arrayDiff_correct r (lo ne : list json) :
  Forall (λ v, ∀ i w, w ∈ ne → writes_at (diffValue v w (path_of (ks ++ [string_of_nat i]))) ks (string_of_nat i) v w) lo →
  resolves r ks → getKeys r ks = JArr lo →
  applyKeyOps r (map keyOp (arrayDiff (map diffValue lo) ne (path_of ks))) = cloneSet r ks (JArr ne).
Proof.
  intros Hlo Hr Hg. unfold arrayDiff. cbv zeta. rewrite length_map.
  rewrite !map_app, !applyKeyOps_app.
  pose proof (shared_correct r [] lo ne Hlo Hr Hg) as Hshared.
  cbn [length Nat.add app] in Hshared. rewrite Hshared. clear Hshared.
  set (r1 := cloneSet r ks (JArr (take (length lo) ne ++ drop (length ne) lo))).
  assert (Hr1 : resolves r1 ks) by (by apply resolves_cloneSet).
  assert (Hg1 : getKeys r1 ks = JArr (take (length lo) ne ++ drop (length ne) lo)) by (by apply getKeys_cloneSet).
  destruct (le_lt_dec (length lo) (length ne)) as [Hle|Hlt].
  - replace (length lo - length ne) with 0 by lia. simpl.
    rewrite (drop_ge lo) in Hg1 by lia. rewrite app_nil_r in Hg1.
    replace (imap _ _) with (imap (λ i v, AddOp (childPath (path_of ks)
      (string_of_nat (length (take (length lo) ne) + i))) v) (drop (length lo) ne)).
    2:{ apply imap_ext. intros. rewrite length_take. do 4 f_equal. lia. }
    rewrite additions_correct by done. unfold r1. rewrite cloneSet_cloneSet by done.
    by rewrite take_drop.
  - rewrite (take_ge ne) in Hg1 by lia. rewrite (drop_ge ne) by lia. simpl.
    rewrite <- length_drop. rewrite removals_correct by done.
    unfold r1. by apply cloneSet_cloneSet.
Qed.
End array_case.

Lemma diffValue_correct v : ∀ w ks k,
  plain_json v = true → plain_json w = true → ks ≠ [] →
  Forall (λ k, plain_key k = true) ks → plain_key k = true →
  writes_at (diffValue v w (path_of (ks ++ [k]))) ks k v w.
Proof.
  assert (Hrep : ∀ w ks k, ks ≠ [] → Forall (λ k, plain_key k = true) ks → plain_key k = true →
    ∀ v, writes_at [ReplaceOp (path_of (ks ++ [k])) w] ks k v w).
  { intros w ks k Hne Hks Hk v' r Hr Hh. simpl. by rewrite parsePath_child. }
  assert (Hsame : ∀ v ks k, writes_at [] ks k v v).
  { intros v' ks k r Hr Hh. by rewrite cloneSet_holds. }
  induction v as [| |b|n|s|l IH|m IH] using json_ind_nested; intros w ks k Hv Hw Hne Hks Hk.
  1-4: match goal with |- writes_at (diffValue ?v ?w ?p) _ _ _ _ =>
         change (diffValue v w p) with (if prim_eq v w then [] else [ReplaceOp p w]);
         destruct (prim_eq v w) eqn:E; [apply prim_eq_eq in E; subst|] end; auto.
  - destruct w as [| |b'|n'|s'|l'|m']; simpl; auto.
    case_decide as Hs; [subst; auto|]. destruct (_ && _) eqn:E; [|auto]. split_bools.
    intros r Hr Hh. simpl. rewrite parsePath_child by done.
    rewrite (getKeys_holds _ _ _ _ Hh). by rewrite startsWith_drop.
  - destruct w as [| |b'|n'|s'|l'|m']; simpl; auto.
    intros r Hr Hh.
    assert (resolves r (ks ++ [k])) by (by eapply resolves_holds).
    assert (Forall (λ k, plain_key k = true) (ks ++ [k])) by (apply Forall_app; auto).
    assert (ks ++ [k] ≠ []) by (by destruct ks).
    rewrite arrayDiff_correct; [done|done|done| |done|by apply getKeys_holds].
    apply plain_json_array in Hv, Hw. apply Forall_forall. intros x Hx i y Hy.
    rewrite Forall_forall in IH, Hv, Hw. apply IH; auto. apply plain_string_of_nat.
  - destruct w as [| |b'|n'|s'|l'|m']; simpl; auto.
    intros r Hr Hh. apply plain_json_object in Hv, Hw.
    assert (Forall (λ k, plain_key k = true) (ks ++ [k])) by (apply Forall_app; auto).
    apply objectDiff_correct; [by destruct ks|done| | | |by eapply resolves_holds|by apply getKeys_holds].
    + intros k' x Hx. by apply (Hv k' x).
    + intros k' x Hx. by apply (Hw k' x).
    + intros k' x y Hx Hy. apply (IH k' x Hx); try done.
      * by apply (Hv k' x).
      * by apply (Hw k' y).
      * by destruct ks.
      * by apply (Hv k' x).
Qed.

Lemma concat_nil {A} (l : list (list A)) : (∀ x, x ∈ l → x = []) → concat l = [].
Proof. induction l as [|x l IH]; simpl; intros H; [done|]. rewrite (H x), IH; set_solver. Qed.

(** Structurally equal values give no operation. *)
Lemma diffValue_refl v p : diffValue v v p = [].
Proof.
  revert p. induction v as [| |b|n|s|l IH|m IH] using json_ind_nested; intros p; simpl; try done.
  - by destruct b.
  - by rewrite bool_decide_eq_true_2.
  - by rewrite decide_True.
  - unfold arrayDiff. rewrite length_map, Nat.sub_diag, drop_ge by lia. simpl.
    rewrite app_nil_r. apply concat_nil.
    intros ops (i & [d w] & -> & Hi)%elem_of_lookup_imap_1. simpl.
    apply lookup_zip_Some in Hi as [(v & -> & Hv)%list_lookup_fmap_Some Hw].
    rewrite Hv in Hw. simplify_eq. rewrite Forall_lookup in IH. eauto.
  - unfold objectDiff. apply concat_nil.
    intros ops (k & -> & Hk)%list_elem_of_fmap. rewrite elem_of_elements, dom_fmap_L, union_idemp_L in Hk.
    apply elem_of_dom in Hk as [v Hv]. rewrite lookup_fmap, Hv. simpl. by apply (IH k).
Qed.

Lemma objectDiff_applies o n r ks :
  plain_json (JObj o) = true → plain_json (JObj n) = true →
  ks ≠ [] → Forall (λ k, plain_key k = true) ks → resolves r ks → getKeys r ks = JObj o →
  applyKeyOps r (map keyOp (computeObjectDiff o n (path_of ks))) = cloneSet r ks (JObj n).
Proof.
  intros Ho Hn Hne Hks Hr Hg. apply plain_json_object in Ho, Hn.
  apply objectDiff_correct; try done.
  - intros k v Hk. by apply (Ho k v).
  - intros k v Hk. by apply (Hn k v).
  - intros k v w Hv Hw. destruct (Ho k v Hv), (Hn k w Hw). by apply diffValue_correct.
Qed.

Lemma objectDiff_patch root o n ks :
  plain_json (JObj o) = true → plain_json (JObj n) = true →
  ks ≠ [] → ks ≠ [""] → Forall (λ k, plain_key k = true) ks →
  resolves root ks → getAtPath root (path_of ks) = JObj o →
  applyPatch root (computeObjectDiff o n (path_of ks)) = Some (setAtPath root (path_of ks) (JObj n)).
Proof.
  intros Ho Hn Hne Hne' Hks Hr Hg. unfold getAtPath, setAtPath in *.
  rewrite parsePath_path_of in * by done.
  pose proof (objectDiff_applies o n root ks Ho Hn Hne Hks Hr Hg) as Happ.
  unfold applyPatch. rewrite <- applyOps_keyOps in Happ.
  pose proof (applyOps_not_fresh root (computeObjectDiff o n (path_of ks))) as Hfresh.
  destruct (applyOps root _) as [r' f]. simpl in *. subst r'.
  destruct f; [by rewrite andb_false_r|]. specialize (Hfresh eq_refl).
  assert (o = n) as <-.
  { apply (f_equal (λ r, getKeys r ks)) in Hfresh. rewrite getKeys_cloneSet, Hg in Hfresh by done. congruence. }
  assert (computeObjectDiff o o (path_of ks) = []) as -> by apply (diffValue_refl (JObj o)).
  done.
Qed.

(** ** Properties *)

(** Streaming a tool call's arguments as diffs loses nothing: when the old
    arguments sit at the base path of a document, the patch computed from the
    old and the new arguments always applies, and turns the document into the
    one with the new arguments at that path.  The keys must be nameable by a
    path (no ["/"] and no ["~"]), which the diff does not check. *)
Theorem computeObjectDiff_applies root o n ks :
  plain_json (JObj o) = true → plain_json (JObj n) = true →
  ks ≠ [] → ks ≠ [""] → Forall (λ k, plain_key k = true) ks →
  resolves root ks → getAtPath root (path_of ks) = JObj o →
  applyPatch root (computeObjectDiff o n (path_of ks)) = Some (setAtPath root (path_of ks) (JObj n)).
Proof. apply objectDiff_patch. Qed.

Lemma computeObjectDiff_applies_witness :
  let old := assign ∅ [("edits", JArr [object [("newText", JStr "ab")]; JNull]); ("gone", JInt 1)] in
  let new := assign ∅ [("edits", JArr [object [("newText", JStr "abc")]]); ("path", JStr "f")] in
  let root := object [("args", JObj old)] in
  applyPatch root (computeObjectDiff old new "/args") = Some (object [("args", JObj new)]).
Proof.
  intros old new root.
  trans (Some (setAtPath root "/args" (JObj new))); [|vm_compute; reflexivity].
  apply (computeObjectDiff_applies root old new ["args"]).
  - vm_compute; reflexivity.
  - vm_compute; reflexivity.
  - done.
  - done.
  - by repeat constructor.
  - exists (JObj old). done.
  - vm_compute; reflexivity.
Defined.

(** A key that contains ["/"] is not escaped by the diff, so the patch
    writes somewhere else: the streamed argument [{"a/b": 1}] reaches the
    document as [{"a": {"b": 1}}]. *)
Theorem computeObjectDiff_slash_key :
  let root := object [("args", JObj ∅)] in
  let new := assign ∅ [("a/b", JInt 1)] in
  applyPatch root (computeObjectDiff ∅ new "/args")
    = Some (object [("args", object [("a", object [("b", JInt 1)])])]) ∧
  setAtPath root "/args" (JObj new) ≠ object [("args", object [("a", object [("b", JInt 1)])])].
Proof. split; [vm_compute; reflexivity|]. apply (bool_decide_unpack _). vm_compute. exact I. Qed.
