(* ===== verification/Lazy.v ===== *)
(** * Lazy fields on the wire

    [document.ts]: the projection of a document for the wire, with its lazy
    fields (thinking text, tool-call arguments, tool results, system-prompt
    sections) replaced by [null], and the filter a connection runs on every
    patch.  The filter asks [isSubscribedPath] and [isLazyFieldPath], whose
    loops take fuel, so it returns [None] when one of them does not end. *)

From S2P Require Export Diff.

(** ** Stripping *)

Definition stripBlock (block : json) : json :=
  let b := own block in
  let b := setIf (eq_str (get (JObj b) "type") "thinking" && has (JObj b) "thinking") "thinking" JNull b in
  let b := setIf (eq_str (get (JObj b) "type") "toolCall" && has (JObj b) "arguments") "arguments" JNull b in
  JObj b.

Definition stripLazyFields (entry : json) : json :=
  let clone := own entry in
  let clone :=
    setIf (eq_str (get (JObj clone) "kind") "message" && negb (nullish (get (JObj clone) "sections")))
      "sections" JNull clone in
  let clone :=
    if has (JObj clone) "content" then
      let content := get (JObj clone) "content" in
      if eq_str (get (JObj clone) "kind") "tool_result" then setIf true "content" JNull clone
      else setIf (is_array content) "content" (JArr (map stripBlock (elements_of content))) clone
    else clone in
  let clone :=
    setIf (has (JObj clone) "details" && eq_str (get (JObj clone) "kind") "tool_result")
      "details" JNull clone in
  JObj clone.

Definition snapshotForWire (doc : json) : json :=
  object [("status", get doc "status");
          ("entries", JObj (stripLazyFields <$> own (get doc "entries")))].

(** ** Sanitising the values of operations *)

Section sanitize.
  (** [isSubscribedPath(_, subscriptions)] *)
  Context (subscribed : string → option bool).

(** [c && !isSubscribedPath(path, subscriptions)] *)
Definition unsubscribed (c : bool) (path : string) : option bool :=
  if c then negb <$> subscribed path else Some false.

Definition sanitizeBlockValue (path : string) (block : json) : option json :=
  strip ← unsubscribed (eq_str (get block "type") "thinking" && negb (nullish (get block "thinking")))
            (path +:+ "/thinking");
  if (strip : bool) then Some (spread block [("thinking", JNull)])
  else
    strip ← unsubscribed (eq_str (get block "type") "toolCall" && negb (nullish (get block "arguments")))
              (path +:+ "/arguments");
    if (strip : bool) then Some (spread block [("arguments", JNull)]) else Some block.

Fixpoint sanitizeContent (path : string) (i : nat) (content : list json) : option (list json) :=
  match content with
  | [] => Some []
  | block :: content' =>
    b ← sanitizeBlockValue (path +:+ "/content/" +:+ string_of_nat i) block;
    bs ← sanitizeContent path (S i) content';
    Some (b :: bs)
  end.

Definition sanitizeEntryValue (path : string) (entry : json) : option json :=
  if eq_str (get entry "kind") "tool_result" then
    stripContent ← unsubscribed (negb (nullish (get entry "content"))) (path +:+ "/content");
    stripDetails ← unsubscribed (negb (nullish (get entry "details"))) (path +:+ "/details");
    if negb stripContent && negb stripDetails then Some entry
    else
      let clone := own entry in
      let clone := setIf stripContent "content" JNull clone in
      let clone := setIf stripDetails "details" JNull clone in
      Some (JObj clone)
  else
    strip ← unsubscribed (eq_str (get entry "kind") "message" && negb (nullish (get entry "sections")))
              (path +:+ "/sections");
    let result := if (strip : bool) then spread entry [("sections", JNull)] else entry in
    match get result "content" with
    | JArr content =>
      sanitizedContent ← sanitizeContent path 0 content;
      if decide (sanitizedContent = content) then Some result
      else Some (spread result [("content", JArr sanitizedContent)])
    | _ => Some result
    end.

Definition sanitizeOpValue (path : string) (value : json) : option json :=
  if pathTest ENTRY_ROOT_RE path then sanitizeEntryValue path value
  else if pathTest CONTENT_BLOCK_RE path then sanitizeBlockValue path value
  else Some value.
End sanitize.

(** ** The filter *)

(** The path the filter tests: the source of a move. *)
Definition filterPath (op : PatchOp) : string :=
  match op with MoveOp from _ => from | _ => opPath op end.

Definition isLazyAppend (op : PatchOp) : bool :=
  match op with AppendOp _ _ true => true | _ => false end.

(** One operation through the filter: dropped ([Some None]) or sent. *)
Definition filterOp (fuel : nat) (subscriptions : gset string) (op : PatchOp) : option (option PatchOp) :=
  let path := filterPath op in
  let subscribed p := isSubscribedPath fuel p subscriptions in
  let pass := b ← subscribed path; Some (if (b : bool) then Some op else None) in
  if isLazyAppend op then pass
  else
    lazy ← isLazyFieldPath fuel path;
    if (lazy : bool) then pass
    else
      match op with
      | AddOp p v =>
        if is_object v then v' ← sanitizeOpValue subscribed p v; Some (Some (AddOp p v')) else Some (Some op)
      | ReplaceOp p v =>
        if is_object v then v' ← sanitizeOpValue subscribed p v; Some (Some (ReplaceOp p v')) else Some (Some op)
      | _ => Some (Some op)
      end.

Fixpoint filterPatchForSocket (fuel : nat) (ops : list PatchOp) (subscriptions : gset string)
    : option (list PatchOp) :=
  match ops with
  | [] => Some []
  | op :: ops' =>
    r ← filterOp fuel subscriptions op;
    result ← filterPatchForSocket fuel ops' subscriptions;
    Some (match r with Some op' => op' :: result | None => result end)
  end.

(** ** Lazy projections *)

(** [keys] is subscribed when one of its prefixes is. *)
Definition covered (subscriptions : gset string) (keys : list string) : bool :=
  bool_decide (path_of keys ∈ subscriptions) ||
  existsb (λ p, bool_decide (path_of p ∈ subscriptions)) (strict_prefixes keys).

(** The shape of an entry as [projectEntry] makes it: an object whose content
    blocks are objects, with no [undefined] among the lazy fields. *)
Definition block_shaped (b : json) : bool :=
  match b with
  | JObj m => negb (bool_decide (m !! "thinking" = Some JUndef)) &&
              negb (bool_decide (m !! "arguments" = Some JUndef))
  | _ => false
  end.

Definition entry_shaped (e : json) : bool :=
  match e with
  | JObj m =>
    negb (bool_decide (m !! "content" = Some JUndef)) &&
    negb (bool_decide (m !! "details" = Some JUndef)) &&
    match m !! "content" with Some (JArr l) => forallb block_shaped l | _ => true end
  | _ => false
  end.

(** The field is the lazy field of the block, and the block has it. *)
Definition pullable (b : json) (f : string) : bool :=
  match b with
  | JObj m =>
    bool_decide (is_Some (m !! f)) &&
    (bool_decide (f = "thinking") && eq_str (get b "type") "thinking" ||
     bool_decide (f = "arguments") && eq_str (get b "type") "toolCall")
  | _ => false
  end.

(** ** Lemmas *)

Lemma isSubscribedPath_spec fuel ks S :
  Forall (λ k, segment_key k = true) ks → length ks < fuel →
  isSubscribedPath fuel (path_of ks) S = Some (covered S ks).
Proof.
  intros Hks Hfuel. unfold isSubscribedPath, covered. case_bool_decide; [done|]. simpl.
  by rewrite someAncestor_path_of.
Qed.

(** What stripping does to each property of a block, and of an entry. *)
Definition stripped_block_prop (m : record) (k : string) : option json :=
  if bool_decide (k = "thinking") && eq_str (get (JObj m) "type") "thinking" ||
     bool_decide (k = "arguments") && eq_str (get (JObj m) "type") "toolCall"
  then (λ _, JNull) <$> m !! k else m !! k.

Definition stripped_prop (m : record) (k : string) : option json :=
  let kind := get (JObj m) "kind" in
  if bool_decide (k = "sections") && eq_str kind "message" && negb (nullish (get (JObj m) "sections"))
  then Some JNull
  else if bool_decide (k = "content") then
    (λ c, if eq_str kind "tool_result" then JNull
          else match c with JArr l => JArr (map stripBlock l) | _ => c end) <$> m !! k
  else if bool_decide (k = "details") && eq_str kind "tool_result" then (λ _, JNull) <$> m !! k
  else m !! k.

Lemma stripBlock_lookup b k : own (stripBlock b) !! k = stripped_block_prop (own b) k.
Proof.
  unfold stripBlock, stripped_block_prop. cbn [own]. generalize (own b). clear b. intros m.
  rewrite setIf_lookup. rewrite get_setIf_ne by done.
  rewrite has_setIf_ne by done. rewrite setIf_lookup.
  destruct (decide (k = "arguments")) as [->|Ha].
  - rewrite (bool_decide_eq_true_2 ("arguments" = "arguments")) by done.
    rewrite (bool_decide_eq_false_2 ("thinking" = "arguments")) by done.
    rewrite (bool_decide_eq_false_2 ("arguments" = "thinking")) by done.
    rewrite !andb_true_r, andb_false_r, andb_false_l. cbn [orb andb has].
    destruct (eq_str _ _); [|done]. by destruct (m !! "arguments").
  - rewrite (bool_decide_eq_false_2 (k = "arguments")) by done.
    rewrite (bool_decide_eq_false_2 ("arguments" = k)) by done.
    rewrite andb_false_r, andb_false_l, orb_false_r. 
    destruct (decide (k = "thinking")) as [->|Ht].
    + rewrite !(bool_decide_eq_true_2 ("thinking" = "thinking")) by done.
      rewrite andb_true_r, andb_true_l. cbn [has].
      destruct (eq_str _ _); [|done]. by destruct (m !! "thinking").
    + rewrite (bool_decide_eq_false_2 (k = "thinking")) by done.
      rewrite (bool_decide_eq_false_2 ("thinking" = k)) by done.
      by rewrite andb_false_r, andb_false_l.
Qed.

Lemma strip_lookup e k : own (stripLazyFields e) !! k = stripped_prop (own e) k.
Proof.
  unfold stripLazyFields, stripped_prop. cbn [own]. generalize (own e). clear e. intros m. cbv zeta.
  set (m1 := setIf (eq_str (get (JObj m) "kind") "message" && negb (nullish (get (JObj m) "sections")))
               "sections" JNull m).
  assert (Hkind : get (JObj m1) "kind" = get (JObj m) "kind") by (by apply get_setIf_ne).
  assert (Hcont : get (JObj m1) "content" = get (JObj m) "content") by (by apply get_setIf_ne).
  assert (Hhc : has (JObj m1) "content" = has (JObj m) "content") by (by apply has_setIf_ne).
  assert (Hhd : has (JObj m1) "details" = has (JObj m) "details") by (by apply has_setIf_ne).
  rewrite Hkind, Hcont, Hhc.
  set (m2 := if has (JObj m) "content" then _ else m1).
  assert (Hk2 : get (JObj m2) "kind" = get (JObj m) "kind" ∧ has (JObj m2) "details" = has (JObj m) "details").
  { rewrite <- Hkind, <- Hhd. unfold m2. destruct (has (JObj m) "content"); [|by split].
    case_match; rewrite get_setIf_ne, has_setIf_ne by done; by split. }
  destruct Hk2 as [-> ->]. rewrite setIf_lookup.
  assert (Hm1 : ∀ k, k ≠ "sections" → m1 !! k = m !! k).
  { intros k' Hk'. unfold m1. by rewrite setIf_lookup, bool_decide_eq_false_2, andb_false_r. }
  assert (Hm2 : ∀ k, k ≠ "content" → m2 !! k = m1 !! k).
  { intros k' Hk'. unfold m2. destruct (has (JObj m) "content"); [|done].
    case_match; by rewrite setIf_lookup, bool_decide_eq_false_2, andb_false_r. }
  destruct (decide (k = "details")) as [->|Hd].
  { rewrite !(bool_decide_eq_true_2 ("details" = "details")) by done.
    rewrite (bool_decide_eq_false_2 ("details" = "sections")), (bool_decide_eq_false_2 ("details" = "content")) by done.
    rewrite Hm2, Hm1, andb_true_r by done. cbn [andb has].
    destruct (eq_str (get (JObj m) "kind") "tool_result"); rewrite ?andb_false_r.
    2: done.
    by destruct (m !! "details"). }
  rewrite (bool_decide_eq_false_2 ("details" = k)), (bool_decide_eq_false_2 (k = "details")) by done.
  rewrite andb_false_r. cbn [andb].
  destruct (decide (k = "content")) as [->|Hc].
  { rewrite (bool_decide_eq_false_2 ("content" = "sections")), (bool_decide_eq_true_2 ("content" = "content")) by done.
    cbn [andb]. unfold m2. cbn [has get]. destruct (m !! "content") as [c|] eqn:Ec.
    - rewrite bool_decide_eq_true_2 by eauto. cbn [default fmap option_fmap option_map].
      destruct (eq_str (default JUndef (m !! "kind")) "tool_result"); rewrite setIf_lookup, bool_decide_eq_true_2, ?andb_true_r by done; [done|].
      destruct c; simpl; try done; by rewrite Hm1.
    - rewrite bool_decide_eq_false_2 by (intros [? ?]; done). by rewrite Hm1. }
  rewrite Hm2 by done. rewrite (bool_decide_eq_false_2 (k = "content")) by done.
  unfold m1. rewrite setIf_lookup.
  destruct (decide (k = "sections")) as [->|Hs].
  - rewrite !(bool_decide_eq_true_2 ("sections" = "sections")) by done. by rewrite andb_true_r.
  - rewrite (bool_decide_eq_false_2 (k = "sections")), (bool_decide_eq_false_2 ("sections" = k)) by done.
    by rewrite andb_false_r.
Qed.

Lemma own_ext v m m' : v = JObj m → (∀ k, m !! k = m' !! k) → v = JObj m'.
Proof. intros ->. intros H. f_equal. by apply map_eq. Qed.

Lemma stripBlock_own b : stripBlock b = JObj (own (stripBlock b)).
Proof. done. Qed.
Lemma strip_own e : stripLazyFields e = JObj (own (stripLazyFields e)).
Proof. done. Qed.

Lemma stripBlock_ext a b :
  (∀ k, stripped_block_prop (own a) k = stripped_block_prop (own b) k) → stripBlock a = stripBlock b.
Proof.
  intros H. rewrite stripBlock_own. symmetry. rewrite stripBlock_own. f_equal.
  apply map_eq. intros k. by rewrite !stripBlock_lookup.
Qed.

Lemma strip_ext a b :
  (∀ k, stripped_prop (own a) k = stripped_prop (own b) k) → stripLazyFields a = stripLazyFields b.
Proof.
  intros H. rewrite strip_own. symmetry. rewrite strip_own. f_equal.
  apply map_eq. intros k. by rewrite !strip_lookup.
Qed.

Lemma stripBlock_idemp b : stripBlock (stripBlock b) = stripBlock b.
Proof.
  apply stripBlock_ext. intros k.
  assert (get (JObj (own (stripBlock b))) "type" = get (JObj (own b)) "type") as Ht.
  { cbn [get]. by rewrite stripBlock_lookup. }
  unfold stripped_block_prop at 1. rewrite Ht, !stripBlock_lookup.
  unfold stripped_block_prop. destruct (_ || _); [|done]. by destruct (own b !! k).
Qed.

Lemma stripBlock_pull b f v : pullable b f = true → stripBlock (cloneSet b [f] v) = stripBlock b.
Proof.
  destruct b as [| | | | | |m]; try done. cbn [pullable]. intros [Hm Hf]%andb_prop.
  apply bool_decide_eq_true in Hm.
  assert (Hft : f ≠ "type").
  { intros ->. rewrite !bool_decide_eq_false_2 in Hf by done. done. }
  apply stripBlock_ext. intros k. unfold stripped_block_prop. cbn [own cloneSet].
  rewrite get_insert_ne by done.
  destruct (decide (k = f)) as [->|Hk]; [|by rewrite lookup_insert_ne].
  rewrite Hf, lookup_insert_eq. by destruct Hm as [w ->].
Qed.

Lemma strip_kind e : get (stripLazyFields e) "kind" = get (JObj (own e)) "kind".
Proof. rewrite strip_own. cbn [get]. by rewrite strip_lookup. Qed.

Lemma strip_idemp e : stripLazyFields (stripLazyFields e) = stripLazyFields e.
Proof.
  apply strip_ext. intros k.
  unfold stripped_prop at 1.
  assert (get (JObj (own (stripLazyFields e))) "kind" = get (JObj (own e)) "kind") as -> by apply strip_kind.
  cbn [get]. rewrite !strip_lookup. unfold stripped_prop. cbn [get].
  destruct (decide (k = "sections")) as [->|Hs].
  - rewrite !(bool_decide_eq_true_2 ("sections" = "sections")) by done. cbn [andb].
    destruct (eq_str _ "message"); cbn [andb]; [|done].
    destruct (own e !! "sections") as [s|] eqn:E; cbn [default from_option id]; [|done].
    destruct (nullish s) eqn:En; simpl; by rewrite ?En.
  - rewrite !(bool_decide_eq_false_2 (k = "sections")) by done. cbn [andb].
    destruct (decide (k = "content")) as [->|Hc].
    + rewrite !(bool_decide_eq_true_2 ("content" = "content")) by done.
      destruct (own e !! "content") as [c|]; [|done]. cbn [fmap option_fmap option_map].
      destruct (eq_str _ _); [done|]. destruct c as [| | | | |l|]; try done. do 2 f_equal.
      rewrite map_map. apply map_ext. apply stripBlock_idemp.
    + rewrite (bool_decide_eq_false_2 (k = "content")) by done.
      destruct (_ && _); [|done]. by destruct (own e !! k).
Qed.

Lemma segment_string_of_nat n : segment_key (string_of_nat n) = true.
Proof.
  unfold segment_key. rewrite (plain_slash_free _ (plain_string_of_nat n)). simpl.
  unfold string_of_nat. by destruct (Nat.to_uint n).
Qed.
#[export] Hint Resolve segment_string_of_nat : bridge.

Lemma covered_empty ks : covered ∅ ks = false.
Proof.
  unfold covered. rewrite bool_decide_eq_false_2 by set_solver. simpl.
  induction (strict_prefixes ks); simpl; [done|]. by rewrite bool_decide_eq_false_2 by set_solver.
Qed.

Lemma unsubscribed_empty fuel c ks :
  Forall (λ k, segment_key k = true) ks → length ks < fuel →
  unsubscribed (λ p, isSubscribedPath fuel p ∅) c (path_of ks) = Some c.
Proof.
  intros. unfold unsubscribed. destruct c; [|done].
  by rewrite isSubscribedPath_spec, covered_empty by done.
Qed.

(** Replacing a field that is not nullish by [null] is nulling it if present. *)
Lemma null_field m m' f :
  m !! f ≠ Some JUndef →
  (∀ k, m' !! k = if bool_decide (k = f) then (λ _, JNull) <$> m !! k else m !! k) →
  (if negb (nullish (get (JObj m) f)) then spread (JObj m) [(f, JNull)] else JObj m) = JObj m'.
Proof.
  intros Hu Hm'. cbn [get]. destruct (negb _) eqn:En; [unfold spread|]; f_equal;
    apply map_eq; intros k; rewrite Hm'; simpl; case_bool_decide as Hk; subst.
  - rewrite lookup_insert_eq. destruct (m !! f); [done|]. simpl in En. done.
  - by rewrite lookup_insert_ne.
  - destruct (m !! f) as [v|]; [|done]. by destruct v.
  - done.
Qed.

Section no_subscription.
  Context (fuel : nat) (id : string) (Hid : segment_key id = true) (Hfuel : 6 ≤ fuel).
  Abbreviation sub := (λ p, isSubscribedPath fuel p ∅).

Lemma unsubscribed_field c ks f :
  Forall (λ k, segment_key k = true) ks → segment_key f = true → length ks < 5 →
  unsubscribed sub c (path_of ks +:+ "/" +:+ f) = Some c.
Proof.
  intros Hks Hf Hl. rewrite <- path_of_snoc. apply unsubscribed_empty.
  - apply Forall_app; auto.
  - rewrite length_app. simpl. lia.
Qed.

Lemma sanitizeBlockValue_strip i b :
  block_shaped b = true →
  sanitizeBlockValue sub (path_of ["entries"; id; "content"; string_of_nat i]) b = Some (stripBlock b).
Proof.
  intros Hb. destruct b as [| | | | | |m]; try done. simpl in Hb. split_bools.
  unfold sanitizeBlockValue.
  change "/thinking" with ("/" +:+ "thinking"). change "/arguments" with ("/" +:+ "arguments").
  rewrite !unsubscribed_field by first [simpl; lia|done|repeat constructor; eauto with bridge].
  rewrite stripBlock_own. cbn [mbind option_bind].
  assert (Hlk := stripBlock_lookup (JObj m)). unfold stripped_block_prop in Hlk. cbn [own] in *.
  assert (Hty : eq_str (get (JObj m) "type") "thinking" = true → eq_str (get (JObj m) "type") "toolCall" = false).
  { intros Ht%eq_str_true. by rewrite Ht. }
  destruct (eq_str (get (JObj m) "type") "thinking") eqn:E1; [rewrite (Hty eq_refl) in *|]; clear Hty; cbn [andb].
  - rewrite <- (null_field m (own (stripBlock (JObj m))) "thinking"); [by destruct (negb _)|done|].
    intros k. rewrite Hlk. by rewrite andb_true_r, andb_false_r, orb_false_r.
  - destruct (eq_str (get (JObj m) "type") "toolCall") eqn:E2; cbn [andb].
    + rewrite <- (null_field m (own (stripBlock (JObj m))) "arguments"); [by destruct (negb _)|done|].
      intros k. rewrite Hlk. by rewrite andb_true_r, andb_false_r.
    + do 2 f_equal. apply map_eq. intros k. rewrite Hlk. by rewrite !andb_false_r.
Qed.

Lemma sanitizeContent_strip l i :
  forallb block_shaped l = true →
  sanitizeContent sub (path_of ["entries"; id]) i l = Some (map stripBlock l).
Proof.
  revert i. induction l as [|b l IH]; intros i Hl; [done|].
  cbn [forallb] in Hl. split_bools. cbn [sanitizeContent map].
  assert (path_of ["entries"; id] +:+ "/content/" +:+ string_of_nat i
          = path_of ["entries"; id; "content"; string_of_nat i]) as ->.
  { change (["entries"; id; "content"; string_of_nat i]) with (["entries"; id; "content"] ++ [string_of_nat i]).
    rewrite path_of_snoc. change ["entries"; id; "content"] with (["entries"; id] ++ ["content"]).
    rewrite path_of_snoc. by rewrite <- !sapp_assoc. }
  rewrite sanitizeBlockValue_strip by done. cbn [mbind option_bind].
  by rewrite IH.
Qed.

Lemma sanitizeEntryValue_strip e :
  entry_shaped e = true →
  sanitizeEntryValue sub (path_of ["entries"; id]) e = Some (stripLazyFields e).
Proof.
  intros He. destruct e as [| | | | | |m]; try done. simpl in He. split_bools.
  unfold sanitizeEntryValue.
  change "/content" with ("/" +:+ "content"). change "/details" with ("/" +:+ "details").
  change "/sections" with ("/" +:+ "sections").
  rewrite !unsubscribed_field by first [simpl; lia|done|repeat constructor; eauto with bridge].
  cbn [mbind option_bind]. rewrite strip_own.
  assert (Hlk := strip_lookup (JObj m)). unfold stripped_prop in Hlk. cbn [own] in *.
  destruct (eq_str (get (JObj m) "kind") "tool_result") eqn:Ek.
  - assert (eq_str (get (JObj m) "kind") "message" = false) as Em by (by apply eq_str_true in Ek as ->).
    rewrite Em in Hlk.
    trans (Some (JObj (setIf (negb (nullish (get (JObj m) "details"))) "details" JNull
             (setIf (negb (nullish (get (JObj m) "content"))) "content" JNull m)))).
    { by destruct (nullish (get (JObj m) "content")), (nullish (get (JObj m) "details")). }
    do 2 f_equal. apply map_eq. intros k. rewrite Hlk, !setIf_lookup.
    rewrite andb_false_r. cbn [andb].
    rewrite (bool_decide_ext ("details" = k) (k = "details")), (bool_decide_ext ("content" = k) (k = "content")) by done.
    destruct (decide (k = "content")) as [->|Hc]; [|destruct (decide (k = "details")) as [->|Hd]].
    + cbn [get]. simpl. rewrite andb_false_r, andb_true_r.
      destruct (m !! "content") as [v|]; [|done]. by destruct v.
    + simpl. rewrite andb_true_r, andb_false_r. destruct (m !! "details") as [v|]; [|done]. by destruct v.
    + rewrite (bool_decide_eq_false_2 (k = "content")), (bool_decide_eq_false_2 (k = "details")) by done.
      by rewrite !andb_false_r.
  - set (c := eq_str (get (JObj m) "kind") "message" && negb (nullish (get (JObj m) "sections"))) in *.
    assert ((if c then spread (JObj m) [("sections", JNull)] else JObj m) = JObj (setIf c "sections" JNull m)) as ->
      by (by destruct c).
    rewrite get_setIf_ne by done.
    trans (Some (JObj (setIf (is_array (get (JObj m) "content")) "content"
             (JArr (map stripBlock (elements_of (get (JObj m) "content")))) (setIf c "sections" JNull m)))).
    { destruct (get (JObj m) "content") as [| | | | |l|] eqn:El; try done.
      cbn [get] in El. destruct (m !! "content") as [v|] eqn:Ev; simplify_eq/=.
      rewrite sanitizeContent_strip by done. cbn [mbind option_bind is_array elements_of setIf].
      case_decide as Hs; [|done]. rewrite Hs. do 2 f_equal.
      symmetry. apply insert_id. by rewrite setIf_lookup, bool_decide_eq_false_2, andb_false_r. }
    do 2 f_equal. apply map_eq. intros k. rewrite Hlk, !setIf_lookup.
    rewrite (bool_decide_ext ("sections" = k) (k = "sections")), (bool_decide_ext ("content" = k) (k = "content")) by done.
    destruct (decide (k = "content")) as [->|Hc]; [|destruct (decide (k = "sections")) as [->|Hs]].
    + simpl. rewrite andb_true_r, andb_false_r. destruct (m !! "content") as [v|]; [|done]. by destruct v.
    + unfold c. simpl. rewrite andb_true_r, andb_false_r. by destruct (_ && _).
    + rewrite (bool_decide_eq_false_2 (k = "content")), (bool_decide_eq_false_2 (k = "sections")) by done.
      by rewrite !andb_false_r.
Qed.
End no_subscription.

(** An operation the filter sends, and what it is allowed to hold. *)
Lemma filterOp_sent fuel op S op' :
  filterOp fuel S op = Some (Some op') →
  filterPath op' = filterPath op ∧ isLazyAppend op' = isLazyAppend op ∧
  (isLazyAppend op' = true ∨ isLazyFieldPath fuel (filterPath op') = Some true →
   isSubscribedPath fuel (filterPath op') S = Some true).
Proof.
  intros Hr.
  assert (Hpass : (b ← isSubscribedPath fuel (filterPath op) S; Some (if (b : bool) then Some op else None)) = Some (Some op') →
    op' = op ∧ isSubscribedPath fuel (filterPath op) S = Some true).
  { intros ([] & Hb & ?)%bind_Some; by simplify_eq. }
  unfold filterOp in Hr. destruct (isLazyAppend op) eqn:Ela.
  { by apply Hpass in Hr as [-> ?]. }
  apply bind_Some in Hr as ([] & Hlazy & Hr).
  { by apply Hpass in Hr as [-> ?]. }
  assert (filterPath op' = filterPath op ∧ isLazyAppend op' = false) as [Hp Hl].
  { destruct op as [p v|p|p v|f p|p v z]; simplify_eq/=; try done; case_match; simplify_eq; try done;
      apply bind_Some in Hr as (v' & _ & ?); by simplify_eq. }
  split_and!; [done..|]. rewrite Hp, Hl, Hlazy. by intros [?|?].
Qed.

(** ** Properties *)

(** The filter sends nothing a client did not ask for: every operation it
    lets through is one it was given, with the same path, and when that path is
    lazy (or the operation is a lazy append) the client is subscribed to it or
    to an ancestor. *)
Theorem filterPatchForSocket_safe fuel ops S ops' :
  filterPatchForSocket fuel ops S = Some ops' →
  Forall (λ op', (∃ op, op ∈ ops ∧ filterPath op' = filterPath op ∧ isLazyAppend op' = isLazyAppend op) ∧
                 (isLazyAppend op' = true ∨ isLazyFieldPath fuel (filterPath op') = Some true →
                  isSubscribedPath fuel (filterPath op') S = Some true)) ops'.
Proof.
  revert ops'. induction ops as [|op ops IH]; intros ops'; simpl; [by intros [= <-]|].
  intros (r & Hr & (res & Hres & Hops')%bind_Some)%bind_Some.
  assert (Forall (λ op', (∃ op0, op0 ∈ op :: ops ∧ filterPath op' = filterPath op0 ∧ isLazyAppend op' = isLazyAppend op0) ∧
                 (isLazyAppend op' = true ∨ isLazyFieldPath fuel (filterPath op') = Some true →
                  isSubscribedPath fuel (filterPath op') S = Some true)) res) as IH'.
  { eapply Forall_impl; [exact (IH _ Hres)|]. intros op' [(op0 & ? & ?) ?]. split; [exists op0; set_solver|done]. }
  destruct r as [op'|]; simplify_eq; [|done]. apply Forall_cons. split; [|done].
  destruct (filterOp_sent _ _ _ _ Hr) as (? & ? & ?). split; [exists op; by split; [left|]|done].
Qed.

Lemma filterPatchForSocket_safe_witness :
  let ops := [AppendOp "/entries/e/content/0/text" "x" true; ReplaceOp "/status/name" (JStr "n")] in
  Forall (λ op', (∃ op, op ∈ ops ∧ filterPath op' = filterPath op ∧ isLazyAppend op' = isLazyAppend op) ∧
                 (isLazyAppend op' = true ∨ isLazyFieldPath 9 (filterPath op') = Some true →
                  isSubscribedPath 9 (filterPath op') ∅ = Some true)) [ReplaceOp "/status/name" (JStr "n")].
Proof.
  intros ops. apply (filterPatchForSocket_safe 9 ops ∅). vm_compute. reflexivity.
Defined.

(** A new entry reaches an unsubscribed client exactly as the initial
    snapshot would show it: the filter returns, and it replaces the value of the
    operation by its lazy-stripped projection. *)
Theorem filterPatch_entry_add fuel id e :
  segment_key id = true → 6 ≤ fuel → entry_shaped e = true →
  filterPatchForSocket fuel [AddOp (path_of ["entries"; id]) e] ∅
    = Some [AddOp (path_of ["entries"; id]) (stripLazyFields e)].
Proof.
  intros Hid Hfuel He. cbn [filterPatchForSocket]. unfold filterOp. cbn [isLazyAppend filterPath opPath].
  assert (Forall (λ k, segment_key k = true) ["entries"; id]) as Hks by (by repeat constructor).
  rewrite (isLazyFieldPath_keys fuel ["entries"; id]) by (done || simpl; lia).
  replace (lazy_keys ["entries"; id]) with false.
  2:{ unfold lazy_keys, lazy_field_keys, lazy_object_keys. simpl. by rewrite !andb_false_r. }
  cbn [mbind option_bind]. replace (is_object e) with true by (by destruct e).
  unfold sanitizeOpValue. rewrite pathTest_path_of by eauto with bridge.
  replace (matches ENTRY_ROOT_RE ["entries"; id]) with true.
  2:{ unfold segment_key in Hid. split_bools. simpl. unfold nonempty. by rewrite bool_decide_eq_false_2. }
  by rewrite sanitizeEntryValue_strip.
Qed.

Lemma filterPatch_entry_add_witness :
  let e := object [("kind", JStr "message"); ("role", JStr "assistant");
                   ("content", JArr [object [("type", JStr "thinking"); ("thinking", JStr "secret")]])] in
  filterPatchForSocket 6 [AddOp "/entries/a1" e] ∅ = Some [AddOp "/entries/a1" (stripLazyFields e)].
Proof. intros e. apply (filterPatch_entry_add 6 "a1" e); [vm_compute; reflexivity|lia|vm_compute; reflexivity]. Defined.

(** Pulling a lazy field does not change what a snapshot or a cache record
    holds: whatever value is written to the thinking text or the arguments of a
    content block, the stripped projection of the entry is the same. *)
Theorem strip_ignores_pulled_block m i l b f v :
  m !! "content" = Some (JArr l) → l !! i = Some b → pullable b f = true →
  stripLazyFields (cloneSet (JObj m) ["content"; string_of_nat i; f] v) = stripLazyFields (JObj m).
Proof.
  intros Hm Hl Hb.
  assert (Hset : cloneSet (JObj m) ["content"; string_of_nat i; f] v
                 = JObj (<["content" := JArr (<[i := cloneSet b [f] v]> l)]> m)).
  { simpl. rewrite Hm. simpl. rewrite (arrayAssign_existing _ _ _ _ _ (array_index_of_nat i) Hl).
    by rewrite (arrayAt_index _ _ _ (array_index_of_nat i)), Hl. }
  rewrite Hset. apply strip_ext. intros k. unfold stripped_prop. cbn [own]. rewrite !get_insert_ne by done.
  destruct (decide (k = "content")) as [->|Hk].
  - rewrite lookup_insert_eq, Hm. simpl. destruct (eq_str _ _); [done|]. do 2 f_equal.
    change (stripBlock <$> <[i := cloneSet b [f] v]> l = stripBlock <$> l).
    rewrite list_fmap_insert, stripBlock_pull by done.
    apply list_insert_id. by rewrite list_lookup_fmap, Hl.
  - by rewrite lookup_insert_ne.
Qed.

Lemma strip_ignores_pulled_block_witness :
  let b := object [("type", JStr "thinking"); ("thinking", JNull)] in
  let m := assign ∅ [("kind", JStr "message"); ("content", JArr [b])] in
  stripLazyFields (cloneSet (JObj m) ["content"; "0"; "thinking"] (JStr "hmm")) = stripLazyFields (JObj m).
Proof.
  intros b m. apply (strip_ignores_pulled_block m 0 [b] b "thinking" (JStr "hmm")); vm_compute; reflexivity.
Defined.
