(* ===== verification/Entries.v ===== *)
(** * Entry projection

    [document.ts]: the projection of pi's persisted session entries to bridge
    entries.  A session entry and its message are dynamic objects on both sides
    ([SessionEntry] is another package's type, read field by field), so both are
    values here.  Identifiers and type tags are strings. *)

From S2P Require Export Lazy.

(** [jsonValue]: a value that cannot be serialised is [null]. *)
Definition jsonValue (v : json) : json := jsonRoundTrip v.

(** A string tag in a template literal, [d] when absent. *)
Definition tagOr (v : json) (d : string) : string :=
  match v with JStr s => s | _ => d end.

(** [typeof v === "number" ? v : null] *)
Definition numberOrNull (v : json) : json := if is_number v then v else JNull.

Definition isEntrySealed (entry : json) : bool :=
  negb (bool_decide (get entry "isSealed" = JBool false)).

(** ** Content blocks *)

Definition toContent (b : json) : json :=
  let type := get b "type" in
  if eq_str type "text" then
    object [("type", JStr "text"); ("text", get b "text"); ("textSignature", get b "textSignature")]
  else if eq_str type "thinking" then
    object [("type", JStr "thinking");
            ("thinking", get b "thinking" ?? JStr "");
            ("thinkingSignature", get b "thinkingSignature");
            ("redacted", get b "redacted")]
  else if eq_str type "image" then
    object [("type", JStr "image"); ("data", get b "data"); ("mimeType", get b "mimeType")]
  else if eq_str type "toolCall" then
    object [("type", JStr "toolCall"); ("id", get b "id"); ("name", get b "name");
            ("arguments", get b "arguments"); ("thoughtSignature", get b "thoughtSignature")]
  else
    object [("type", JStr "text");
            ("text", JStr ("[unsupported " +:+ tagOr type "content" +:+ " block]"))].

(** [typeof raw === "string" ? [{type: "text", text: raw}] : raw.map(toContent)] *)
Definition contentBlocks (raw : json) : list json :=
  match raw with
  | JStr s => [object [("type", JStr "text"); ("text", JStr s)]]
  | _ => map toContent (elements_of (raw ?? JArr []))
  end.

(** Names of the prompt sections a diff sets and removes. *)
Definition splitSectionNames (sections : json) : list string * list string :=
  match sections with
  | JObj m =>
    let '(removed, set) := (filter (λ kv, kv.2 = JNull) (map_to_list m), filter (λ kv, kv.2 ≠ JNull) (map_to_list m)) in
    (set.*1, removed.*1)
  | _ => ([], [])
  end.

(** ** Entries, by type *)

(** [{id, parentId, timestamp}] of the session entry, after the bridge kind. *)
Definition entryBase (entry : json) (kind : string) : list (string * json) :=
  [("kind", JStr kind); ("id", get entry "id"); ("parentId", get entry "parentId");
   ("timestamp", get entry "timestamp")].

Definition toMessageEntry (entry : json) : json :=
  let msg := get entry "message" in
  let role := get msg "role" in
  let base := entryBase entry "message"
    ++ [("role", role); ("content", JArr (contentBlocks (get msg "content")))] in
  if eq_str role "assistant" then
    object (base ++
      [("api", get msg "api"); ("provider", get msg "provider"); ("model", get msg "model");
       ("responseModel", get msg "responseModel" ?? JNull);
       ("responseId", get msg "responseId" ?? JNull);
       ("usage", get msg "usage"); ("stopReason", get msg "stopReason");
       ("errorMessage", get msg "errorMessage" ?? JNull);
       ("durationMs", numberOrNull (get msg "durationMs"))])
  else if eq_str role "system" then
    let sections := get msg "sections" ?? JNull in
    let '(set, removed) := splitSectionNames sections in
    object (base ++
      [("sectionNames", JArr (map JStr set)); ("removedSectionNames", JArr (map JStr removed));
       ("sections", sections)])
  else object base.

Definition toToolResultEntry (m entry : json) : json :=
  object (entryBase entry "tool_result" ++
    [("toolCallId", get m "toolCallId"); ("toolName", get m "toolName");
     ("content", JArr (map toContent (elements_of (get m "content" ?? JArr []))));
     ("details", jsonValue (get m "details") ?? JObj ∅);
     ("isError", get m "isError" ?? JBool false);
     ("durationMs", numberOrNull (get m "durationMs"))]).

Definition toBashExecutionEntry (m entry : json) : json :=
  object (entryBase entry "bash_execution" ++
    [("command", get m "command" ?? JStr ""); ("output", get m "output" ?? JStr "");
     ("exitCode", numberOrNull (get m "exitCode"));
     ("cancelled", get m "cancelled" ?? JBool false);
     ("truncated", get m "truncated" ?? JBool false);
     ("fullOutputPath", get m "fullOutputPath" ?? JNull);
     ("excludeFromContext", get m "excludeFromContext" ?? JBool false)]).

Definition toCompactionEntry (entry : json) : json :=
  object (entryBase entry "compaction" ++
    [("summary", get entry "summary"); ("firstKeptEntryId", get entry "firstKeptEntryId");
     ("tokensBefore", get entry "tokensBefore"); ("details", jsonValue (get entry "details"));
     ("fromHook", get entry "fromHook" ?? JBool false)]).

Definition toBranchSummaryEntry (entry : json) : json :=
  object (entryBase entry "branch_summary" ++
    [("fromId", get entry "fromId"); ("summary", get entry "summary");
     ("details", jsonValue (get entry "details")); ("fromHook", get entry "fromHook" ?? JBool false)]).

Definition toModelChangeEntry (entry : json) : json :=
  object (entryBase entry "model_change" ++
    [("provider", get entry "provider"); ("modelId", get entry "modelId")]).

Definition toThinkingLevelChangeEntry (entry : json) : json :=
  object (entryBase entry "thinking_level_change" ++ [("thinkingLevel", get entry "thinkingLevel")]).

Definition toLabelEntry (entry : json) : json :=
  object (entryBase entry "label" ++ [("targetId", get entry "targetId"); ("label", get entry "label")]).

Definition toSessionInfoEntry (entry : json) : json :=
  object (entryBase entry "session_info" ++ [("name", get entry "name")]).

Definition toCustomEntry (entry : json) : json :=
  object (entryBase entry "custom" ++
    [("customType", get entry "customType"); ("data", jsonValue (get entry "data"))]).

Definition toCustomMessageEntry (entry : json) : json :=
  object (entryBase entry "custom_message" ++
    [("customType", get entry "customType");
     ("content", JArr (match get entry "content" with
                       | JStr s => [object [("type", JStr "text"); ("text", JStr s)]]
                       | c => map toContent (elements_of c)
                       end));
     ("details", jsonValue (get entry "details")); ("display", get entry "display")]).

Definition toInternalEntry (entry : json) : json :=
  object (entryBase entry "internal" ++ [("sourceType", get entry "type")]).

Definition toUnknownEntry (entry : json) : json :=
  object (entryBase entry "unknown" ++ [("sourceType", get entry "type"); ("data", entry)]).

Definition toEntry (entry : json) : json :=
  let type := get entry "type" in
  if eq_str type "message" then
    let msg := get entry "message" in
    if eq_str (get msg "role") "toolResult" then toToolResultEntry msg entry
    else if eq_str (get msg "role") "bashExecution" then toBashExecutionEntry msg entry
    else toMessageEntry entry
  else if eq_str type "compaction" then toCompactionEntry entry
  else if eq_str type "branch_summary" then toBranchSummaryEntry entry
  else if eq_str type "model_change" then toModelChangeEntry entry
  else if eq_str type "thinking_level_change" then toThinkingLevelChangeEntry entry
  else if eq_str type "label" then toLabelEntry entry
  else if eq_str type "session_info" then toSessionInfoEntry entry
  else if eq_str type "custom" then toCustomEntry entry
  else if eq_str type "custom_message" then toCustomMessageEntry entry
  else if eq_str type "context_edit" || eq_str type "usage" then toInternalEntry entry
  else toUnknownEntry entry.

(** A persisted entry as an authoritative one: sealed, with its file position. *)
Definition projectEntry (entry : json) (ord : nat) : json :=
  spread (toEntry entry) [("isSealed", JBool true); ("ord", JInt (Z.of_nat ord))].

(** [null] in a lazy field has one meaning, "not pulled": a projected entry has
    none. *)
Definition block_present (b : json) : Prop :=
  eq_str (get b "type") "thinking" = true → nullish (get b "thinking") = false.

(** ** Lemmas *)

Ltac unfold_entry :=
  unfold toToolResultEntry, toBashExecutionEntry, toCompactionEntry, toBranchSummaryEntry,
    toModelChangeEntry, toThinkingLevelChangeEntry, toLabelEntry, toSessionInfoEntry, toCustomEntry,
    toCustomMessageEntry, toInternalEntry, toUnknownEntry, entryBase.

(** Case analysis on the type of a session entry, down to its literal. *)
Ltac project_cases :=
  unfold projectEntry, toEntry, toMessageEntry; cbv zeta;
  repeat (case_match; try done).

Lemma block_present_toContent b : block_present (toContent b).
Proof.
  unfold block_present, toContent. cbv zeta.
  repeat case_match; read_object; try done.
  intros _. unfold coalesce. by destruct (nullish (get b "thinking")) eqn:E.
Qed.

Lemma block_present_contentBlocks raw : Forall block_present (contentBlocks raw).
Proof.
  unfold contentBlocks.
  assert (∀ l, Forall block_present (map toContent l)) as Hmap.
  { intros l. apply Forall_map, Forall_forall. intros b _. apply block_present_toContent. }
  destruct raw; try apply Hmap. constructor; [|constructor].
  unfold block_present. by read_object.
Qed.

Lemma projectEntry_ord entry n : get (projectEntry entry n) "ord" = JInt (Z.of_nat n).
Proof.
  unfold projectEntry, spread, assign. simpl foldl.
  by rewrite get_insert_eq.
Qed.

Lemma projectEntry_sealed entry n : get (projectEntry entry n) "isSealed" = JBool true.
Proof.
  unfold projectEntry, spread, assign. simpl foldl.
  by rewrite get_insert_ne, get_insert_eq.
Qed.

Lemma projectEntry_isEntrySealed entry n : isEntrySealed (projectEntry entry n) = true.
Proof. unfold isEntrySealed. by rewrite projectEntry_sealed. Qed.

Lemma projectEntry_own entry n : projectEntry entry n = JObj (own (projectEntry entry n)).
Proof. done. Qed.

Lemma projectEntry_prop entry n k :
  k ≠ "isSealed" → k ≠ "ord" → get (projectEntry entry n) k = get (JObj (own (toEntry entry))) k.
Proof. intros. unfold projectEntry, spread, assign. simpl foldl. by rewrite !get_insert_ne. Qed.

Lemma toEntry_id entry : get (JObj (own (toEntry entry))) "id" = get entry "id".
Proof. project_cases; unfold_entry; read_object; reflexivity. Qed.

Lemma toEntry_parent entry : get (JObj (own (toEntry entry))) "parentId" = get entry "parentId".
Proof. project_cases; unfold_entry; read_object; reflexivity. Qed.

Lemma toEntry_timestamp entry : get (JObj (own (toEntry entry))) "timestamp" = get entry "timestamp".
Proof. project_cases; unfold_entry; read_object; reflexivity. Qed.
#[export] Hint Rewrite projectEntry_ord projectEntry_sealed : bridge_rw.

(** ** Properties *)

(** C38.  A projected entry keeps the identity of the stored one (its id, its
    parent and its timestamp), is sealed, and carries the file position it was
    projected at, whatever the type of the stored entry. *)
Theorem projectEntry_identity entry n :
  let e := projectEntry entry n in
  get e "id" = get entry "id" ∧ get e "parentId" = get entry "parentId" ∧
  get e "timestamp" = get entry "timestamp" ∧
  isEntrySealed e = true ∧ get e "ord" = JInt (Z.of_nat n).
Proof.
  intros e. unfold e. rewrite !projectEntry_prop by done.
  rewrite toEntry_id, toEntry_parent, toEntry_timestamp, projectEntry_ord, projectEntry_isEntrySealed.
  done.
Qed.

(** In a projected entry [null] never stands for a missing lazy field: the
    thinking text of every content block is present, and the content and the
    details of a tool result are. *)
Theorem projectEntry_lazy_present entry n :
  let e := projectEntry entry n in
  Forall block_present (elements_of (get e "content")) ∧
  (eq_str (get e "kind") "tool_result" = true →
   is_array (get e "content") = true ∧ nullish (get e "details") = false).
Proof.
  intros e. unfold e. rewrite !projectEntry_prop by done.
  assert (∀ l, Forall block_present (map toContent l)) as Hmap.
  { intros l. apply Forall_map, Forall_forall. intros b _. apply block_present_toContent. }
  assert (∀ v, nullish (jsonValue v ?? JObj ∅) = false) as Hdet.
  { intros v. unfold coalesce. by destruct (nullish (jsonValue v)) eqn:E. }
  project_cases; unfold_entry; read_object; try done; cbn [elements_of is_array]; split; try (by intros ?).
  all: try apply Hmap; try apply block_present_contentBlocks; auto.
  case_match; try apply Hmap. constructor; [|constructor]. unfold block_present. by read_object.
Qed.
