(* ===== verification/Status.v ===== *)
(** * Status derivation

    [document.ts]: the branch walk, the statistics of the selected branch, and
    the status fields derived from the entry map.  The walk up [parentId] is a
    [while] loop that a cyclic map would never leave, so it takes fuel; one unit
    more than there are entries is enough on every acyclic map
    ([walkBranch_total]). *)

From S2P Require Export Entries.

(** ** The branch of a leaf *)

(** [while (cursor && entries[cursor]) { push(entries[cursor]); cursor =
    entries[cursor].parentId }]: the entries from the cursor up to the root.
    [stop] is the test that ends the walk at an id. *)
Fixpoint walkBranch (stop : string → bool) (fuel : nat) (entries : record) (cursor : option string)
    : option (list json) :=
  match fuel with
  | 0 => None
  | S fuel' =>
    match cursor with
    | None => Some []
    | Some id =>
      if stop id then Some []
      else match entries !! id with
           | None => Some []
           | Some e => path ← walkBranch stop fuel' entries (opt_str (get e "parentId")); Some (e :: path)
           end
    end
  end.

Definition walkFuel (entries : record) : nat := S (size entries).

(** An empty id is falsy. *)
Definition falsyId (id : string) : bool := bool_decide (id = "").

(** ** Statistics *)

Definition isKind (kind : string) (e : json) : bool := eq_str (get e "kind") kind.

(** The entries before, at and after the last one that satisfies [f]. *)
Fixpoint splitLast (f : json → bool) (path : list json) : option (list json * json * list json) :=
  match path with
  | [] => None
  | e :: path' =>
    match splitLast f path' with
    | Some (before, x, after) => Some (e :: before, x, after)
    | None => if f e then Some ([], e, path') else None
    end
  end.

(** The ids from the first kept entry on. *)
Fixpoint keptIds (firstKept : json) (found : bool) (before : list json) : list json :=
  match before with
  | [] => []
  | e :: before' =>
    let found := found || prim_eq (get e "id") firstKept in
    if found then get e "id" :: keptIds firstKept found before' else keptIds firstKept found before'
  end.

(** [contextEntryIds]: the ids that still contribute to the context. *)
Definition contextEntryIds (path : list json) : list json :=
  match splitLast (isKind "compaction") path with
  | Some (before, compaction, after) =>
    get compaction "id" :: keptIds (get compaction "firstKeptEntryId") false before
      ++ map (λ e, get e "id") after
  | None => map (λ e, get e "id") path
  end.

(** One round of the accumulation loop: last usage, output, cost, messages. *)
Definition Totals : Type := json * num * num * Z.

Definition addUsage (ids : list json) (acc : Totals) (e : json) : Totals :=
  let '(lastUsage, output, costTotal, msgs) := acc in
  if bool_decide (get e "id" ∈ ids) && isKind "message" e && truthy (get e "usage") then
    let usage := get e "usage" in
    (usage, num_add output (num_of (get usage "output")),
     num_add costTotal (num_of (get (get usage "cost") "total")), (msgs + 1)%Z)
  else acc.

(** The statistics of a branch, given root to leaf. *)
Definition statsOfPath (path : list json) : json :=
  let ids := contextEntryIds path in
  let '(lastUsage, output, costTotal, msgs) := foldl (addUsage ids) (JUndef, NInt 0, NInt 0, 0%Z) path in
  let field k := if truthy lastUsage then get lastUsage k else JInt 0 in
  let tokens := assign ∅ [("input", field "input"); ("output", JNum output); ("total", field "totalTokens")] in
  let tokens := setIf (negb (prim_eq (field "cacheRead") (JInt 0))) "cacheRead" (field "cacheRead") tokens in
  let tokens := setIf (negb (prim_eq (field "cacheWrite") (JInt 0))) "cacheWrite" (field "cacheWrite") tokens in
  object [("tokens", JObj tokens); ("cost", object [("total", JNum costTotal)]); ("messages", JInt msgs)].

Definition deriveStats (fuel : nat) (entries : record) (leafId : option string) : option json :=
  path ← walkBranch falsyId fuel entries leafId;
  Some (statsOfPath (rev path)).

Definition deriveStatsForEntries := deriveStats.

(** ** The latest entry by file position *)

Definition ordOf (e : json) : num := num_of (get e "ord").

Definition latestStep (matches_ : json → bool) (latest : option json) (entry : json) : option json :=
  if negb (isEntrySealed entry) || bool_decide (get entry "ord" = JUndef) then latest
  else if negb (matches_ entry) then latest
  else match latest with
       | None => Some entry
       | Some l => if num_ltb (ordOf l) (ordOf entry) then Some entry else latest
       end.

Definition latestIn (matches_ : json → bool) (values : list json) : option json :=
  foldl (latestStep matches_) None values.

(** [Object.values(entries)], in some order. *)
Definition valuesOf (entries : record) : list json := (map_to_list entries).*2.

Definition latestByOrd (entries : record) (matches_ : json → bool) : option json :=
  latestIn matches_ (valuesOf entries).

Definition deriveLeafId (entries : record) : json :=
  match latestByOrd entries (λ _, true) with Some e => get e "id" ?? JNull | None => JNull end.

Definition deriveModel (entries : record) : json :=
  match latestByOrd entries (isKind "model_change") with
  | Some e => object [("provider", get e "provider"); ("modelId", get e "modelId")]
  | None => object [("provider", JStr ""); ("modelId", JStr "")]
  end.

Definition deriveThinkingLevel (entries : record) : json :=
  match latestByOrd entries (isKind "thinking_level_change") with
  | Some e => get e "thinkingLevel"
  | None => JStr "off"
  end.

Definition deriveName (entries : record) : json :=
  match latestByOrd entries (λ e, isKind "session_info" e && negb (bool_decide (get e "name" = JUndef))) with
  | Some e => get e "name" ?? JStr ""
  | None => JStr ""
  end.

Definition deriveSessionName (entries : record) : json := deriveName entries.

(** ** Documents *)

(** [overrides] is an object, or [undefined]. *)
Definition deriveStatus (fuel : nat) (entries : record) (overrides : json) : option json :=
  let leafId := get overrides "leafId" ?? deriveLeafId entries in
  stats ← deriveStats fuel entries (opt_str leafId);
  Some (object
    [("leafId", leafId);
     ("name", get overrides "name" ?? deriveName entries);
     ("model", get overrides "model" ?? deriveModel entries);
     ("thinkingLevel", get overrides "thinkingLevel" ?? deriveThinkingLevel entries);
     ("isStreaming", get overrides "isStreaming" ?? JBool false);
     ("isCompacting", get overrides "isCompacting" ?? JBool false);
     ("stats", stats);
     ("contextUsage", get overrides "contextUsage" ?? JNull);
     ("pendingSteer", JArr []);
     ("inFlightTools", JObj ∅);
     ("recoverableTurn", JNull)]).

(** The id of a session entry, a string. *)
Definition entryId (entry : json) : string := tagOr (get entry "id") "".

(** [entryMap[entry.id] = projectEntry(entry, i)], over the entry list. *)
Fixpoint installEntries (from : nat) (piEntries : list json) (entries : record) : record :=
  match piEntries with
  | [] => entries
  | entry :: rest => installEntries (S from) rest (<[entryId entry := projectEntry entry from]> entries)
  end.

Definition makeDocument (status : json) (entries : record) : json :=
  object [("status", status); ("entries", JObj entries)].

Definition initFromEntries (piEntries : list json) : option json :=
  let entryMap := installEntries 0 piEntries ∅ in
  status ← deriveStatus (walkFuel entryMap) entryMap JUndef;
  Some (makeDocument status entryMap).

Definition docEntries (doc : json) : record := own (get doc "entries").
Definition docLeaf (doc : json) : option string := opt_str (get (get doc "status") "leafId").

(** ** Well-formed entry maps *)

(** Parent links that stay in the map lead strictly down some ranking. *)
Definition acyclic (entries : record) : Prop :=
  ∃ rank : string → nat, ∀ id e p,
    entries !! id = Some e → opt_str (get e "parentId") = Some p → is_Some (entries !! p) → rank p < rank id.

(** Every sealed entry has an integer position. *)
Definition positioned (values : list json) : Prop :=
  Forall (λ e, isEntrySealed e = true → get e "ord" = JUndef ∨ ∃ z, get e "ord" = JInt z) values.

(** Candidates of [latestByOrd], and their positions. *)
Definition candidate (matches_ : json → bool) (e : json) : bool :=
  isEntrySealed e && negb (bool_decide (get e "ord" = JUndef)) && matches_ e.

Definition ordZ (e : json) : Z := match get e "ord" with JInt z => z | _ => 0%Z end.

(** pi's entry list: the ids are non-empty strings, pairwise distinct, and an
    entry is stored after its parent. *)
Definition has_id (entry : json) : Prop := get entry "id" = JStr (entryId entry) ∧ entryId entry ≠ "".
Definition parents_precede (piEntries : list json) : Prop :=
  ∀ i j e e', piEntries !! i = Some e → piEntries !! j = Some e' →
    opt_str (get e "parentId") = Some (entryId e') → j < i.
Definition well_stored (piEntries : list json) : Prop :=
  Forall has_id piEntries ∧ NoDup (map entryId piEntries) ∧ parents_precede piEntries.

(** ** Lemmas *)

Section walk.
  Context (entries : record) (rank : string → nat)
    (Hrank : ∀ id e p, entries !! id = Some e → opt_str (get e "parentId") = Some p →
       is_Some (entries !! p) → rank p < rank id).

(** The entries that can still be visited from [id]. *)
Definition below (id : string) : gset string := filter (λ k, rank k ≤ rank id) (dom entries).

Lemma below_parent id e p :
  entries !! id = Some e → opt_str (get e "parentId") = Some p → is_Some (entries !! p) →
  size (below p) < size (below id).
Proof.
  intros Hid Hp Hin. pose proof (Hrank _ _ _ Hid Hp Hin). apply subset_size. split.
  - intros k. unfold below. rewrite !elem_of_filter. intros []. split; [lia|done].
  - intros Hsub. specialize (Hsub id). unfold below in Hsub. rewrite !elem_of_filter in Hsub.
    destruct Hsub; [|lia]. split; [lia|]. by apply elem_of_dom_2 in Hid.
Qed.

(** Induction along a walk, with the fuel it needs. *)
Lemma chain_ind (P : nat → option string → Prop) :
  (∀ n, P (S n) None) → (∀ n id, entries !! id = None → P (S n) (Some id)) →
  (∀ n id e, entries !! id = Some e → P n (opt_str (get e "parentId")) → P (S n) (Some id)) →
  ∀ fuel cursor,
    (∀ id, cursor = Some id → is_Some (entries !! id) → size (below id) < fuel) → 0 < fuel → P fuel cursor.
Proof.
  intros HN HD HS fuel. induction fuel as [|fuel IH]; intros cursor Hc Hf; [lia|].
  destruct cursor as [id|]; [|apply HN]. destruct (entries !! id) as [e|] eqn:Hid; [|by apply HD].
  specialize (Hc id eq_refl (mk_is_Some _ _ Hid)). apply (HS _ _ e Hid), IH.
  - intros p Hp Hin. pose proof (below_parent _ _ _ Hid Hp Hin). lia.
  - assert (id ∈ below id) as Hin.
    { apply elem_of_filter. split; [lia|]. by apply elem_of_dom_2 in Hid. }
    destruct fuel; [|lia]. assert (below id ≡ ∅) as He by (apply size_empty_inv; lia). set_solver.
Qed.
End walk.

Lemma acyclic_chain_ind entries (P : nat → option string → Prop) :
  acyclic entries →
  (∀ n, P (S n) None) → (∀ n id, entries !! id = None → P (S n) (Some id)) →
  (∀ n id e, entries !! id = Some e → P n (opt_str (get e "parentId")) → P (S n) (Some id)) →
  ∀ fuel cursor, walkFuel entries ≤ fuel → P fuel cursor.
Proof.
  intros [rank Hrank] HN HD HS fuel cursor Hf.
  apply (chain_ind entries rank Hrank P HN HD HS); unfold walkFuel, below in *; [|lia].
  intros id _ _. rewrite <- size_dom in Hf.
  assert (size (filter (λ k, rank k ≤ rank id) (dom entries)) ≤ size (dom entries)); [|lia].
  apply subseteq_size. set_solver.
Qed.

Lemma walkBranch_enough stop entries cursor fuel :
  acyclic entries → walkFuel entries ≤ fuel →
  ∃ path, walkBranch stop fuel entries cursor = Some path ∧
          walkBranch stop (walkFuel entries) entries cursor = Some path.
Proof.
  intros Ha Hfuel.
  assert (∃ path, ∀ extra, walkBranch stop (walkFuel entries + extra) entries cursor = Some path) as [path Hpath].
  { apply (acyclic_chain_ind entries (λ n c, ∃ path, ∀ extra, walkBranch stop (n + extra) entries c = Some path) Ha);
      [by exists []| | |done].
    - intros n id Hid. exists []. intros extra. simpl. rewrite Hid. by case_match.
    - intros n id e Hid [path Hpath]. simpl. rewrite Hid. destruct (stop id); [by exists []|].
      exists (e :: path). intros extra. by rewrite Hpath. }
  exists path. split.
  - replace fuel with (walkFuel entries + (fuel - walkFuel entries)) by lia. apply Hpath.
  - specialize (Hpath 0). by rewrite Nat.add_0_r in Hpath.
Qed.

Lemma latestIn_snoc m l e : latestIn m (l ++ [e]) = latestStep m (latestIn m l) e.
Proof. unfold latestIn. by rewrite foldl_app. Qed.

Lemma latestStep_candidate m o e :
  latestStep m o e = if candidate m e then
    match o with None => Some e | Some l => if num_ltb (ordOf l) (ordOf e) then Some e else o end else o.
Proof.
  unfold latestStep, candidate. destruct (isEntrySealed e), (bool_decide _); simpl; try done.
  by destruct (m e).
Qed.

Lemma candidate_ord m l e :
  positioned l → e ∈ l → candidate m e = true → get e "ord" = JInt (ordZ e) ∧ ordOf e = NInt (ordZ e).
Proof.
  intros Hp He Hc. unfold positioned in Hp. rewrite Forall_forall in Hp. unfold candidate in Hc. split_bools.
  unfold ordZ, ordOf. destruct (Hp e He) as [?|[z ->]]; done.
Qed.

(** The latest entry is a candidate of maximal position. *)
Lemma latestIn_spec m l :
  positioned l →
  match latestIn m l with
  | Some e => e ∈ l ∧ candidate m e = true ∧ ∀ e', e' ∈ l → candidate m e' = true → (ordZ e' ≤ ordZ e)%Z
  | None => ∀ e, e ∈ l → candidate m e = false
  end.
Proof.
  induction l as [|e l IH] using rev_ind; intros Hp; [set_solver|].
  assert (positioned l) as Hpl by (by apply Forall_app in Hp as [? _]).
  specialize (IH Hpl). rewrite latestIn_snoc, latestStep_candidate.
  destruct (candidate m e) eqn:Ec.
  - assert (Hoe := candidate_ord m _ e Hp ltac:(set_solver) Ec).
    destruct (latestIn m l) as [l0|].
    + destruct IH as (Hin & Hc & Hmax).
      assert (Hol := candidate_ord m _ l0 Hp ltac:(set_solver) Hc).
      destruct Hoe as [_ ->], Hol as [_ ->]. simpl.
      destruct (Z.ltb_spec (ordZ l0) (ordZ e)).
      * split; [set_solver|]. split; [done|].
        intros e' [He'| ->%list_elem_of_singleton]%elem_of_app Hc'; [|lia].
        specialize (Hmax e' He' Hc'). lia.
      * split; [set_solver|]. split; [done|].
        intros e' [He'| ->%list_elem_of_singleton]%elem_of_app Hc'; [auto|lia].
    + split; [set_solver|]. split; [done|].
      intros e' [He'| ->%list_elem_of_singleton]%elem_of_app Hc'; [|lia].
      by rewrite IH in Hc'.
  - destruct (latestIn m l) as [l0|].
    + destruct IH as (Hin & Hc & Hmax). split; [set_solver|]. split; [done|].
      intros e' [He'| ->%list_elem_of_singleton]%elem_of_app Hc'; [auto|congruence].
    + intros e' [He'| ->%list_elem_of_singleton]%elem_of_app; auto.
Qed.

(** The choice does not depend on the enumeration order. *)
Lemma latestIn_perm m l l' :
  l ≡ₚ l' → positioned l →
  (∀ e e', e ∈ l → e' ∈ l → candidate m e = true → candidate m e' = true → ordZ e = ordZ e' → e = e') →
  latestIn m l = latestIn m l'.
Proof.
  intros Hl Hp Hinj. assert (positioned l') as Hp' by (by unfold positioned in *; rewrite <- Hl).
  pose proof (latestIn_spec m l Hp) as H1. pose proof (latestIn_spec m l' Hp') as H2.
  destruct (latestIn m l) as [e|], (latestIn m l') as [e'|]; [| | |done].
  - destruct H1 as (Hin & Hc & Hmax), H2 as (Hin' & Hc' & Hmax'). f_equal.
    rewrite <- Hl in Hin'. apply Hinj; try done.
    apply Z.le_antisymm; [apply Hmax'; [by rewrite <- Hl|done]|by apply Hmax].
  - destruct H1 as (Hin & Hc & _). rewrite Hl in Hin. by rewrite H2 in Hc.
  - destruct H2 as (Hin & Hc & _). rewrite <- Hl in Hin. by rewrite H1 in Hc.
Qed.

Lemma installEntries_lookup from l entries id :
  NoDup (map entryId l) →
  (∀ i e, l !! i = Some e → entryId e = id →
    installEntries from l entries !! id = Some (projectEntry e (from + i))) ∧
  (id ∉ map entryId l → installEntries from l entries !! id = entries !! id).
Proof.
  revert from entries. induction l as [|x l IH]; intros from entries Hnd; simpl; [split; [done|auto]|].
  apply NoDup_cons in Hnd as [Hx Hnd].
  destruct (IH (S from) (<[entryId x := projectEntry x from]> entries) Hnd) as [IH1 IH2]. split.
  - intros [|i] e Hi He; simpl in Hi; simplify_eq.
    + rewrite Nat.add_0_r, IH2 by done. by rewrite lookup_insert_eq.
    + replace (from + S i) with (S from + i) by lia. by apply IH1.
  - intros [Hne Hin]%not_elem_of_cons. rewrite IH2 by done. by rewrite lookup_insert_ne.
Qed.

Lemma installEntries_in from l entries id e :
  NoDup (map entryId l) → installEntries from l entries !! id = Some e →
  (∃ i p, l !! i = Some p ∧ entryId p = id ∧ e = projectEntry p (from + i)) ∨
  ((id ∉ map entryId l) ∧ entries !! id = Some e).
Proof.
  intros Hnd H. destruct (installEntries_lookup from l entries id Hnd) as [H1 H2].
  destruct (decide (id ∈ map entryId l)) as [Hin|Hin].
  - left. change (id ∈ entryId <$> l) in Hin. apply list_elem_of_fmap in Hin as (p & -> & [i Hp]%list_elem_of_lookup).
    exists i, p. rewrite (H1 i p Hp eq_refl) in H. by simplify_eq.
  - right. split; [done|]. by rewrite <- H2.
Qed.

Lemma projectEntry_id p n : has_id p → get (projectEntry p n) "id" = JStr (entryId p).
Proof. intros [H _]. by rewrite projectEntry_prop, toEntry_id. Qed.

Lemma projectEntry_parent p n : get (projectEntry p n) "parentId" = get p "parentId".
Proof. by rewrite projectEntry_prop, toEntry_parent. Qed.

Lemma installEntries_acyclic l :
  well_stored l → acyclic (installEntries 0 l ∅).
Proof.
  intros (Hid & Hnd & Hpar).
  exists (λ k, match list_find (λ e, entryId e = k) l with Some (i, _) => i | None => 0 end).
  assert (Hfind : ∀ i p, l !! i = Some p → list_find (λ e, entryId e = entryId p) l = Some (i, p)).
  { intros i p Hi. apply list_find_Some. split; [done|]. split; [done|].
    intros j q Hj Hlt Heq. apply (NoDup_lookup _ i j (entryId p)) in Hnd; [lia|..].
    - change (map entryId l) with (entryId <$> l). by rewrite list_lookup_fmap, Hi.
    - change (map entryId l) with (entryId <$> l). rewrite list_lookup_fmap, Hj. simpl. congruence. }
  intros id e p He Hp [e' He'].
  apply installEntries_in in He as [(i & x & Hi & <- & ->)|[? ?]]; [|done|done].
  apply installEntries_in in He' as [(j & y & Hj & <- & ->)|[? ?]]; [|done|done].
  rewrite (Hfind _ _ Hi), (Hfind _ _ Hj). rewrite projectEntry_parent in Hp. by eapply Hpar.
Qed.

Lemma installEntries_positioned l : NoDup (map entryId l) → positioned (valuesOf (installEntries 0 l ∅)).
Proof.
  intros Hnd. apply Forall_forall. intros e He _.
  apply list_elem_of_fmap in He as ([id e0] & -> & He%elem_of_map_to_list).
  apply installEntries_in in He as [(i & x & Hi & <- & ->)|[? ?]]; [|done|done].
  right. eexists. simpl. apply projectEntry_ord.
Qed.

Lemma projectEntry_ordZ p n : ordZ (projectEntry p n) = Z.of_nat n.
Proof. unfold ordZ. by rewrite projectEntry_ord. Qed.

Lemma projectEntry_candidate p n : candidate (λ _, true) (projectEntry p n) = true.
Proof. unfold candidate. by rewrite projectEntry_isEntrySealed, projectEntry_ord. Qed.

(** After a bootstrap the leaf is the last stored entry. *)
Lemma installEntries_leaf l p :
  well_stored (l ++ [p]) → deriveLeafId (installEntries 0 (l ++ [p]) ∅) = JStr (entryId p).
Proof.
  intros (Hid & Hnd & Hpar). unfold deriveLeafId, latestByOrd.
  pose proof (latestIn_spec (λ _, true) _ (installEntries_positioned _ Hnd)) as Hspec.
  assert (Hlast : (l ++ [p]) !! length l = Some p) by (by rewrite list_lookup_middle).
  assert (Hin : projectEntry p (length l) ∈ valuesOf (installEntries 0 (l ++ [p]) ∅)).
  { apply list_elem_of_fmap. exists (entryId p, projectEntry p (length l)). split; [done|].
    apply elem_of_map_to_list. by apply (installEntries_lookup 0 _ ∅ (entryId p) Hnd). }
  destruct (latestIn _ _) as [e|].
  - destruct Hspec as (He & _ & Hmax). specialize (Hmax _ Hin (projectEntry_candidate _ _)).
    apply list_elem_of_fmap in He as ([id e0] & -> & He%elem_of_map_to_list). simpl in *.
    apply installEntries_in in He as [(i & x & Hi & <- & ->)|[? ?]]; [|done|done].
    rewrite !projectEntry_ordZ in Hmax. simpl in Hmax.
    pose proof (lookup_lt_Some _ _ _ Hi) as Hlt. rewrite length_app in Hlt. simpl in Hlt.
    assert (i = length l) as -> by lia. rewrite Hlast in Hi. simplify_eq.
    rewrite projectEntry_id; [done|]. by apply Forall_app in Hid as [_ Hp]; apply Forall_cons in Hp as [Hp _].
  - specialize (Hspec _ Hin). by rewrite projectEntry_candidate in Hspec.
Qed.

Lemma makeDocument_entries status entries : docEntries (makeDocument status entries) = entries.
Proof. unfold docEntries, makeDocument. by read_object. Qed.

Lemma makeDocument_status status entries : get (makeDocument status entries) "status" = status.
Proof. unfold makeDocument. by read_object. Qed.

(** The bootstrapped document. *)
Lemma initFromEntries_doc l p :
  well_stored (l ++ [p]) →
  ∃ doc, initFromEntries (l ++ [p]) = Some doc ∧ docLeaf doc = Some (entryId p) ∧
    docEntries doc = installEntries 0 (l ++ [p]) ∅.
Proof.
  intros Hw. pose proof (installEntries_acyclic _ Hw) as Ha. pose proof (installEntries_leaf _ _ Hw) as Hleaf.
  unfold initFromEntries, deriveStatus.
  destruct (walkBranch_enough falsyId (installEntries 0 (l ++ [p]) ∅)
    (opt_str (get JUndef "leafId" ?? deriveLeafId (installEntries 0 (l ++ [p]) ∅))) _ Ha (le_n _))
    as (path & Hpath & _).
  unfold deriveStats. rewrite Hpath. cbn [mbind option_bind]. eexists; split; [done|].
  unfold docLeaf. rewrite makeDocument_entries, makeDocument_status. split; [|done].
  unfold get at 1. rewrite Hleaf. read_object. done.
Qed.

(** ** Statistics *)

Lemma splitLast_app f before x after :
  f x = true → Forall (λ e, f e = false) after →
  splitLast f (before ++ x :: after) = Some (before, x, after).
Proof.
  intros Hx Ha. induction before as [|e before IH]; simpl; [|by rewrite IH].
  assert (splitLast f after = None) as ->; [|by rewrite Hx].
  clear Hx. induction Ha as [|e l He Hl IH]; simpl; [done|]. by rewrite IH, He.
Qed.

Lemma keptIds_app k a l :
  Forall (λ e, prim_eq (get e "id") k = false) a → keptIds k false (a ++ l) = keptIds k false l.
Proof. induction 1 as [|e a He Ha IH]; simpl; [done|]. by rewrite He. Qed.

Lemma keptIds_true k l : keptIds k true l = map (λ e, get e "id") l.
Proof. induction l as [|e l IH]; simpl; [done|]. by rewrite IH. Qed.

Lemma keptIds_sub k found l : keptIds k found l ⊆ map (λ e, get e "id") l.
Proof.
  revert found. induction l as [|e l IH]; intros found; simpl; [done|].
  specialize (IH (found || prim_eq (get e "id") k)). destruct (found || _); set_solver.
Qed.

Lemma addUsage_skip ids acc a :
  Forall (λ e, get e "id" ∉ ids) a → foldl (addUsage ids) acc a = acc.
Proof.
  intros Ha. revert acc. induction Ha as [|e a He Ha IH]; intros acc; simpl; [done|].
  assert (addUsage ids acc e = acc) as ->; [|apply IH].
  unfold addUsage. destruct acc as [[[? ?] ?] ?]. by rewrite bool_decide_eq_false_2.
Qed.

(** ** Properties *)

(** The latest entry is chosen by file position and by nothing else: it is
    a sealed entry accepted by the predicate whose position no other such entry
    exceeds, there is one as soon as any entry qualifies, and with distinct
    positions any other enumeration of the entry map gives the same entry. *)
Theorem latestByOrd_by_position m entries values :
  positioned (valuesOf entries) → (values ≡ₚ valuesOf entries) →
  (∀ e e', e ∈ values → e' ∈ values → candidate m e = true → candidate m e' = true →
     ordZ e = ordZ e' → e = e') →
  latestIn m values = latestByOrd entries m ∧
  match latestByOrd entries m with
  | Some e => e ∈ values ∧ candidate m e = true ∧ ∀ e', e' ∈ values → candidate m e' = true → (ordZ e' ≤ ordZ e)%Z
  | None => ∀ e, e ∈ values → candidate m e = false
  end.
Proof.
  intros Hp Hv Hinj. assert (positioned values) as Hp' by (by unfold positioned in *; rewrite Hv).
  assert (latestIn m values = latestByOrd entries m) as Heq by (by apply latestIn_perm).
  split; [done|]. rewrite <- Heq. by apply latestIn_spec.
Qed.

Lemma latestByOrd_by_position_witness :
  let e1 := object [("id", JStr "7"); ("ord", JInt 1)] in
  let e2 := object [("id", JStr "a"); ("ord", JInt 0)] in
  latestIn (λ _, true) [e2; e1] = latestByOrd (assign ∅ [("a", e2); ("7", e1)]) (λ _, true) ∧
  match latestByOrd (assign ∅ [("a", e2); ("7", e1)]) (λ _, true) with
  | Some e => e ∈ [e2; e1] ∧ candidate (λ _, true) e = true ∧
      ∀ e', e' ∈ [e2; e1] → candidate (λ _, true) e' = true → (ordZ e' ≤ ordZ e)%Z
  | None => ∀ e, e ∈ [e2; e1] → candidate (λ _, true) e = false
  end.
Proof.
  intros e1 e2.
  assert (Hv : valuesOf (assign ∅ [("a", e2); ("7", e1)]) ≡ₚ [e1; e2]).
  { unfold valuesOf, assign. simpl foldl. cbn [fst snd].
    rewrite !map_to_list_insert, map_to_list_empty; [done|done|]. by rewrite lookup_insert_ne. }
  apply (latestByOrd_by_position (λ _, true) (assign ∅ [("a", e2); ("7", e1)]) [e2; e1]).
  - unfold positioned. rewrite Hv.
    apply Forall_cons; split; [intros _; right; eexists; reflexivity|].
    apply Forall_cons; split; [intros _; right; eexists; reflexivity|]. by apply Forall_nil.
  - rewrite Hv. apply Permutation_swap.
  - intros e e' He He' _ _. rewrite !elem_of_cons, !elem_of_nil in He, He'.
    destruct He as [->|[->|[]]], He' as [->|[->|[]]]; try done;
      intros H; vm_compute in H; discriminate.
Defined.

(** On an acyclic entry map the statistics are always computed: one unit of
    fuel more than there are entries lets the walk up the branch end, and more
    fuel does not change the result. *)
Theorem deriveStats_total entries leafId fuel :
  acyclic entries → walkFuel entries ≤ fuel →
  ∃ stats, deriveStats (walkFuel entries) entries leafId = Some stats ∧
           deriveStats fuel entries leafId = Some stats.
Proof.
  intros Ha Hf. destruct (walkBranch_enough falsyId entries leafId fuel Ha Hf) as (path & Hp & Hp').
  exists (statsOfPath (rev path)). unfold deriveStats. by rewrite Hp, Hp'.
Qed.

Lemma deriveStats_total_witness :
  let entries := assign ∅ [("a", object [("id", JStr "a"); ("parentId", JNull)]);
                           ("b", object [("id", JStr "b"); ("parentId", JStr "a")])] in
  ∃ stats, deriveStats (walkFuel entries) entries (Some "b") = Some stats ∧
           deriveStats 20 entries (Some "b") = Some stats.
Proof.
  intros entries. apply (deriveStats_total entries (Some "b") 20).
  - exists (λ k, if decide (k = "b") then 1 else 0). intros id e p.
    unfold entries, assign. simpl foldl. rewrite !lookup_insert. cbn [fst snd].
    repeat case_decide; intros; simplify_eq; vm_compute in H0; simplify_eq;
      rewrite ?decide_True, ?decide_False by done; lia.
  - vm_compute. lia.
Defined.

(** What a compaction replaced no longer counts: the statistics of a branch
    with a last compaction [c] that keeps from entry [k] on are those of the
    branch that starts at [k]. *)
Theorem statsOfPath_compaction a k b c d :
  isKind "compaction" c = true → Forall (λ e, isKind "compaction" e = false) d →
  Forall has_id (a ++ (k :: b) ++ c :: d) → NoDup (map entryId (a ++ (k :: b) ++ c :: d)) →
  get c "firstKeptEntryId" = get k "id" →
  statsOfPath (a ++ (k :: b) ++ c :: d) = statsOfPath ((k :: b) ++ c :: d).
Proof.
  intros Hc Hd Hid Hnd Hk.
  assert (Hids : contextEntryIds (a ++ (k :: b) ++ c :: d) = contextEntryIds ((k :: b) ++ c :: d)).
  { unfold contextEntryIds. rewrite app_assoc, !splitLast_app by done. rewrite Hk.
    rewrite keptIds_app; [done|].
    apply Forall_app in Hid as [Hida [Hidk _]%Forall_cons]. rewrite Forall_forall in Hida |- *.
    intros e He. destruct (Hida e He) as [-> _], Hidk as [-> _]. simpl. apply bool_decide_eq_false_2.
    intros Heq. rewrite map_app in Hnd. apply NoDup_app in Hnd as (_ & Hdis & _).
    apply (Hdis (entryId e)); [by apply (list_elem_of_fmap_2 entryId)|].
    rewrite map_app, Heq. set_solver. }
  unfold statsOfPath. rewrite Hids, foldl_app. rewrite (addUsage_skip _ _ a); [done|].
  apply Forall_forall. intros e He Hin.
  assert (get e "id" ∈ map (λ e, get e "id") ((k :: b) ++ c :: d)) as Hin'.
  { revert Hin. unfold contextEntryIds. rewrite splitLast_app by done.
    pose proof (keptIds_sub (get c "firstKeptEntryId") false (k :: b)).
    rewrite map_app, map_cons. set_solver. }
  apply list_elem_of_fmap in Hin' as (e' & Heq & He').
  pose proof Hid as Hid'. apply Forall_app in Hid' as [Hida Hidr].
  rewrite Forall_forall in Hida, Hidr. destruct (Hida e He) as [Hi _], (Hidr e' He') as [Hi' _].
  rewrite Hi, Hi' in Heq. simplify_eq.
  rewrite map_app in Hnd. apply NoDup_app in Hnd as (_ & Hdis & _).
  apply (Hdis (entryId e)); [by apply (list_elem_of_fmap_2 entryId)|]. 
  rewrite Heq. by apply (list_elem_of_fmap_2 entryId).
Qed.

Lemma statsOfPath_compaction_witness :
  let message id parent := object [("id", JStr id); ("parentId", JStr parent); ("kind", JStr "message")] in
  let compaction := object [("id", JStr "c"); ("kind", JStr "compaction"); ("firstKeptEntryId", JStr "k")] in
  statsOfPath ([message "a" ""] ++ (message "k" "a" :: []) ++ compaction :: [message "d" "c"]) =
  statsOfPath ((message "k" "a" :: []) ++ compaction :: [message "d" "c"]).
Proof.
  intros message compaction. apply statsOfPath_compaction.
  - reflexivity.
  - repeat constructor.
  - repeat constructor; discriminate.
  - apply (bool_decide_unpack _). vm_compute. exact I.
  - reflexivity.
Defined.

(** Bootstrapping from a well-stored entry list (distinct ids, parents
    before children) ends with a document: entry [i] of the list is installed
    under its id at position [i], nothing else is installed, and the leaf is the
    last entry of the list. *)
Theorem initFromEntries_spec l p :
  well_stored (l ++ [p]) →
  ∃ doc, initFromEntries (l ++ [p]) = Some doc ∧
    docLeaf doc = Some (entryId p) ∧
    (∀ i e, (l ++ [p]) !! i = Some e → docEntries doc !! entryId e = Some (projectEntry e i)) ∧
    dom (docEntries doc) = list_to_set (map entryId (l ++ [p])).
Proof.
  intros Hw. destruct (initFromEntries_doc l p Hw) as (doc & Hdoc & Hleaf & He). destruct Hw as (Hid & Hnd & Hpar).
  exists doc. split; [done|]. split; [done|]. rewrite He. split.
  - intros i e Hi. destruct (installEntries_lookup 0 (l ++ [p]) ∅ (entryId e) Hnd) as [H1 _].
    by apply (H1 i e Hi).
  - apply set_eq. intros id. rewrite elem_of_dom, elem_of_list_to_set.
    destruct (installEntries_lookup 0 (l ++ [p]) ∅ id Hnd) as [H1 H2]. split.
    + intros [e He']. apply installEntries_in in He' as [(i & x & Hi & <- & ->)|[? ?]]; [|done|done].
      apply (list_elem_of_fmap_2 entryId). by eapply list_elem_of_lookup_2.
    + intros Hin. apply list_elem_of_fmap in Hin as (x & -> & [i Hi]%list_elem_of_lookup).
      by rewrite (H1 i x Hi eq_refl).
Qed.

Lemma initFromEntries_spec_witness :
  let a := object [("type", JStr "session_info"); ("id", JStr "a"); ("parentId", JNull)] in
  let b := object [("type", JStr "label"); ("id", JStr "b"); ("parentId", JStr "a")] in
  ∃ doc, initFromEntries ([a] ++ [b]) = Some doc ∧
    docLeaf doc = Some (entryId b) ∧
    (∀ i e, ([a] ++ [b]) !! i = Some e → docEntries doc !! entryId e = Some (projectEntry e i)) ∧
    dom (docEntries doc) = list_to_set (map entryId ([a] ++ [b])).
Proof.
  intros a b. apply (initFromEntries_spec [a] b). split; [|split].
  - repeat constructor; discriminate.
  - apply (bool_decide_unpack _). vm_compute. exact I.
  - intros i j e e' Hi Hj Hp.
    destruct i as [|[|[|i]]]; simpl in Hi; simplify_eq;
    destruct j as [|[|[|j]]]; simpl in Hj; simplify_eq; try lia; vm_compute in Hp; discriminate.
Defined.
