(* ===== verification/Events.v ===== *)
(** * Live events

    [document.ts]: [applyEvent], which turns one session lifecycle event into
    the patch of the live form it moves, with its skeletons and the bounded
    encoding of a streamed tool body; and [resolveFieldPath].  Event payloads
    that pi types only loosely (messages, partial results, tool calls) are
    JavaScript values. *)

From S2P Require Export Status.

(** ** Events *)

Inductive AssistantMessageEvent :=
| text_start (contentIndex : nat)
| text_delta (contentIndex : nat) (delta : string)
| text_end (contentIndex : nat) (content : string)
| thinking_start (contentIndex : nat)
| thinking_delta (contentIndex : nat) (delta : string)
| thinking_end (contentIndex : nat) (content : string)
| toolcall_start (contentIndex : nat) (partial : json)
| toolcall_delta (contentIndex : nat) (partial : json)
| toolcall_end (contentIndex : nat) (toolCall : json)
| ame_start
| ame_done
| ame_error.

(** The events that name an entry carry its reserved id, when they have one. *)
Inductive SessionLifecycleEvent :=
| agent_start
| agent_settled
| message_start (entryId : option string) (message : json)
| message_update (entryId : option string) (assistantMessageEvent : AssistantMessageEvent)
| message_end (entryId : option string) (message : json)
| tool_execution_start (entryId parentToolCallId : option string) (toolCallId toolName : string)
| tool_execution_update (entryId parentToolCallId : option string) (partialResult : json)
| tool_execution_end (entryId parentToolCallId : option string) (result : json) (isError : bool) (durationMs : json)
| compaction_start
| compaction_end
| thinking_level_changed (level : string)
| entry_appended (entryId : option string)
| session_info_changed (name : option string)
| queue_update (steering : list string)
| turn_start | turn_end | agent_end | auto_retry_start | auto_retry_end.

Definition eventEntryId (event : SessionLifecycleEvent) : option string :=
  match event with
  | message_start id _ | message_update id _ | message_end id _ | tool_execution_start id _ _ _
  | tool_execution_update id _ _ | tool_execution_end id _ _ _ _ | entry_appended id => id
  | _ => None
  end.

(** ** Skeletons *)

Definition assistantMessageSkeleton (id : string) (parentId : json) (msg : json) : json :=
  object
    [("kind", JStr "message"); ("id", JStr id); ("parentId", parentId); ("timestamp", JStr "");
     ("isSealed", JBool false); ("role", JStr "assistant"); ("content", JArr []);
     ("api", get msg "api"); ("provider", get msg "provider"); ("model", get msg "model");
     ("responseModel", get msg "responseModel" ?? JNull); ("responseId", JNull); ("usage", JNull);
     ("stopReason", JNull); ("errorMessage", JNull); ("durationMs", JNull)].

Definition userMessageSkeleton (id : string) (parentId : json) (msg : json) : json :=
  object
    [("kind", JStr "message"); ("id", JStr id); ("parentId", parentId); ("timestamp", JStr "");
     ("isSealed", JBool false); ("role", JStr "user");
     ("content",
       match get msg "content" with
       | JStr s => JArr [object [("type", JStr "text"); ("text", JStr s)]]
       | content => JArr (map toContent (elements_of content))
       end)].

Definition toolResultSkeleton (id : string) (parentId : json) (toolCallId toolName : string) : json :=
  object
    [("kind", JStr "tool_result"); ("id", JStr id); ("parentId", parentId); ("timestamp", JStr "");
     ("isSealed", JBool false); ("toolCallId", JStr toolCallId); ("toolName", JStr toolName);
     ("content", JNull); ("details", JNull); ("isError", JBool false); ("durationMs", JNull)].

Definition toolCallBlockToJson (tc : json) : json :=
  object
    [("type", JStr "toolCall"); ("id", get tc "id"); ("name", get tc "name");
     ("arguments", get tc "arguments"); ("thoughtSignature", get tc "thoughtSignature" ?? JNull)].

(** ** Streamed tool bodies *)

(** The text of a body that is one text block. *)
Definition singleText (content : json) : option string :=
  match content with
  | JArr [block] => if eq_str (get block "type") "text" then opt_str (get block "text") else None
  | _ => None
  end.

(** [None]: the wholesale replace is used.  The text of a live text block is a
    string. *)
Definition streamedToolContentOp (doc : json) (id : string) (content : json) : option PatchOp :=
  entry ← docEntries doc !! id;
  if negb (eq_str (get entry "kind") "tool_result") then None
  else
    existing ← singleText (get entry "content");
    next ← singleText content;
    if (if decide (existing = "") then negb (bool_decide (next = "")) else negb (startsWith existing next))
    then None
    else Some (AppendOp (path_of ["entries"; id; "content"; "0"; "text"]) (sdrop (slength existing) next) true).

(** ** [applyEvent] *)

Definition pushIf (c : bool) (op : PatchOp) : list PatchOp := if c then [op] else [].

(** The [message_update] branch, for a present [entryId]. *)
Definition assistantMessageOps (doc : json) (entryId : string) (ame : AssistantMessageEvent) : list PatchOp :=
  let block_path i := path_of ["entries"; entryId; "content"; string_of_nat i] in
  let field_path i f := path_of ["entries"; entryId; "content"; string_of_nat i; f] in
  match ame with
  | text_start i => [AddOp (block_path i) (object [("type", JStr "text"); ("text", JStr "")])]
  | text_delta i delta => [AppendOp (field_path i "text") delta false]
  | text_end i content => [ReplaceOp (field_path i "text") (JStr content)]
  | thinking_start i => [AddOp (block_path i) (object [("type", JStr "thinking"); ("thinking", JNull)])]
  | thinking_delta i delta => [AppendOp (field_path i "thinking") delta false]
  | thinking_end i content => [ReplaceOp (field_path i "thinking") (JStr content)]
  | toolcall_start i partial =>
    let block := get (get partial "content") (string_of_nat i) in
    let isCall := eq_str (get block "type") "toolCall" in
    [AddOp (block_path i) (object
      [("type", JStr "toolCall");
       ("id", if isCall then get block "id" else JStr "");
       ("name", if isCall then get block "name" else JStr "");
       ("arguments", if isCall then get block "arguments" else JNull)])]
  | toolcall_delta i partial =>
    let block := get (get partial "content") (string_of_nat i) in
    if eq_str (get block "type") "toolCall" then
      let argsPath := field_path i "arguments" in
      computeObjectDiff (own (getAtPath doc argsPath ?? JObj ∅)) (own (get block "arguments")) argsPath
    else []
  | toolcall_end i toolCall => [ReplaceOp (block_path i) (toolCallBlockToJson toolCall)]
  | ame_start | ame_done | ame_error => []
  end.

(** The assistant branch of [message_end]. *)
Definition assistantEndOps (entryId : string) (am : json) : list PatchOp :=
  let field f := path_of ["entries"; entryId; f] in
  let copy f := ReplaceOp (field f) (get am f) in
  [copy "api"; copy "provider"; copy "model"]
  ++ pushIf (truthy (get am "responseModel")) (copy "responseModel")
  ++ pushIf (truthy (get am "responseId")) (copy "responseId")
  ++ [copy "stopReason"]
  ++ pushIf (truthy (get am "errorMessage")) (copy "errorMessage")
  ++ pushIf (truthy (get am "usage")) (copy "usage")
  ++ pushIf (is_number (get am "durationMs")) (copy "durationMs")
  ++ [ReplaceOp "/status/leafId" (JStr entryId)].

Definition defined (v : json) : bool := negb (bool_decide (v = JUndef)).

Definition toolUpdateOps (doc : json) (id : string) (partialResult : json) : list PatchOp :=
  let content := get partialResult "content" in
  let details := get partialResult "details" in
  (if defined content then
     match streamedToolContentOp doc id content with
     | Some streamed => [streamed]
     | None => [ReplaceOp (path_of ["entries"; id; "content"]) (jsonValue content)]
     end
   else [])
  ++ pushIf (defined details) (ReplaceOp (path_of ["entries"; id; "details"]) (jsonValue details)).

Definition toolEndOps (id : string) (result : json) (isError : bool) (durationMs : json) : list PatchOp :=
  let content := get result "content" in
  let details := get result "details" in
  pushIf (defined content)
    (ReplaceOp (path_of ["entries"; id; "content"])
      (match content with JArr l => JArr (map toContent l) | _ => jsonValue content end))
  ++ pushIf (defined details) (ReplaceOp (path_of ["entries"; id; "details"]) (jsonValue details))
  ++ [ReplaceOp (path_of ["entries"; id; "isError"]) (JBool isError)]
  ++ pushIf (is_number durationMs) (ReplaceOp (path_of ["entries"; id; "durationMs"]) durationMs).

Definition eventOps (doc : json) (event : SessionLifecycleEvent) : list PatchOp :=
  let leafId := get (get doc "status") "leafId" in
  match event with
  | agent_start => [ReplaceOp "/status/isStreaming" (JBool true)]
  | agent_settled => [ReplaceOp "/status/isStreaming" (JBool false)]
  | message_start (Some id) msg =>
    if eq_str (get msg "role") "user" then
      [AddOp (path_of ["entries"; id]) (userMessageSkeleton id leafId msg)]
    else if eq_str (get msg "role") "assistant" then
      [AddOp (path_of ["entries"; id]) (assistantMessageSkeleton id leafId msg);
       ReplaceOp "/status/leafId" (JStr id)]
    else []
  | message_update (Some id) ame => assistantMessageOps doc id ame
  | message_end (Some id) msg =>
    if eq_str (get msg "role") "assistant" then assistantEndOps id msg
    else pushIf (bool_decide (is_Some (docEntries doc !! id))) (ReplaceOp "/status/leafId" (JStr id))
  | tool_execution_start (Some id) None toolCallId toolName =>
    [AddOp (path_of ["entries"; id]) (toolResultSkeleton id leafId toolCallId toolName)]
  | tool_execution_update (Some id) None partialResult => toolUpdateOps doc id partialResult
  | tool_execution_end (Some id) None result isError durationMs => toolEndOps id result isError durationMs
  | compaction_start => [ReplaceOp "/status/isCompacting" (JBool true)]
  | compaction_end => [ReplaceOp "/status/isCompacting" (JBool false)]
  | thinking_level_changed level => [ReplaceOp "/status/thinkingLevel" (JStr level)]
  | session_info_changed (Some name) => [ReplaceOp "/status/name" (JStr name)]
  | queue_update steering => [ReplaceOp "/status/pendingSteer" (JArr (map JStr steering))]
  | _ => []
  end.

Definition applyEvent (doc : json) (event : SessionLifecycleEvent) : option (list PatchOp) :=
  match eventOps doc event with [] => None | ops => Some ops end.

(** ** [resolveFieldPath] *)

Fixpoint resolveKeys (cur : json) (keys : list string) : json :=
  match keys with
  | [] => cur
  | key :: keys' =>
    match cur with
    | JArr l =>
      match number_of_string key with
      | Some idx => match l !! idx with Some x => resolveKeys x keys' | None => JUndef end
      | None => JUndef
      end
    | JObj _ => resolveKeys (get cur key) keys'
    | _ => JUndef
    end
  end.

Definition resolveFieldPath (entry : json) (fieldPath : string) : json :=
  let parts := split_on "/"%char fieldPath in
  if length parts <? 4 then JUndef else resolveKeys entry (drop 3 parts).

(** ** Where an operation writes *)

(** A path at or below [base]. *)
Definition extends (base p : string) : Prop := p = base ∨ ∃ s, p = base +:+ String "/"%char s.

(** Not a move, and at or below [base]. *)
Definition within (base : string) (op : PatchOp) : Prop :=
  extends base (opPath op) ∧ match op with MoveOp _ _ => False | _ => True end.

(** A document: an object with an [entries] object. *)
Definition has_entries (doc : json) : Prop :=
  ∃ m E, doc = JObj m ∧ m !! "entries" = Some (JObj E).

(** ** Lemmas *)

Lemma extends_trans a b c : extends a b → extends b c → extends a c.
Proof.
  intros [->|[s ->]] [->|[t ->]]; unfold extends; eauto.
  right. exists (s +:+ String "/" t). by rewrite <- sapp_assoc.
Qed.

Lemma extends_child p k : extends p (childPath p k).
Proof. right. by exists k. Qed.

Lemma within_child p k op : within (childPath p k) op → within p op.
Proof. intros [H ?]. split; [|done]. eapply extends_trans; [apply extends_child|done]. Qed.
#[export] Hint Resolve extends_child within_child : bridge.

Lemma within_child_add p k v : within p (AddOp (childPath p k) v).
Proof. split; eauto with bridge. Qed.
Lemma within_child_remove p k : within p (RemoveOp (childPath p k)).
Proof. split; eauto with bridge. Qed.
#[export] Hint Resolve within_child_add within_child_remove : bridge.

Lemma Forall_concat_map {A} (P : A → Prop) (l : list (list A)) : Forall (Forall P) l → Forall P (concat l).
Proof. induction 1; simpl; [constructor|]. by apply Forall_app. Qed.

Lemma objectDiff_within o n p :
  (∀ k v w q, o !! k = Some v → Forall (within q) (diffValue v w q)) →
  Forall (within p) (computeObjectDiff o n p).
Proof.
  intros IH. apply Forall_concat_map, Forall_forall.
  intros ops (k & -> & _)%list_elem_of_fmap. rewrite lookup_fmap.
  destruct (o !! k) as [v|] eqn:Hv, (n !! k) as [w|]; simpl.
  2-4: apply Forall_cons; split; [eauto with bridge|constructor].
  eapply Forall_impl; [by apply (IH k)|]. eauto with bridge.
Qed.

Lemma arrayDiff_within o n p :
  Forall (λ v, ∀ w q, Forall (within q) (diffValue v w q)) o → Forall (within p) (diffArray o n p).
Proof.
  intros IH. unfold diffArray, arrayDiff. apply Forall_app. split; [|apply Forall_app; split].
  - apply Forall_concat_map, Forall_forall.
    intros ops (i & [d w] & -> & Hi)%elem_of_lookup_imap_1. simpl.
    apply lookup_zip_Some in Hi as [(v & -> & Hv)%list_lookup_fmap_Some _].
    rewrite Forall_lookup in IH. eapply Forall_impl; [by eapply IH|]. eauto with bridge.
  - apply Forall_forall. intros op (i & -> & _)%list_elem_of_fmap. eauto with bridge.
  - apply Forall_forall. intros op (i & v & -> & _)%elem_of_lookup_imap_1. eauto with bridge.
Qed.

Lemma within_replace p v : Forall (within p) [ReplaceOp p v].
Proof. apply Forall_singleton. split; [by left|done]. Qed.
#[export] Hint Resolve within_replace : bridge.

Lemma diffValue_within v w p : Forall (within p) (diffValue v w p).
Proof.
  revert w p. induction v as [| |b|n|s|l IH|m IH] using json_ind_nested; intros w p.
  1-4: match goal with |- Forall _ (diffValue ?v ?w ?p) =>
         change (diffValue v w p) with (if prim_eq v w then [] else [ReplaceOp p w]);
         destruct (prim_eq v w); [constructor|apply within_replace] end.
  - destruct w; simpl; try apply within_replace.
    case_decide; [constructor|]. destruct (_ && _); [|apply within_replace].
    apply Forall_singleton. split; [by left|done].
  - destruct w; simpl; try apply within_replace. by apply arrayDiff_within.
  - destruct w; simpl; try apply within_replace. apply objectDiff_within. eauto.
Qed.

Lemma split_on_path_app ks s :
  Forall (λ k, char_free "/"%char k = true) ks →
  split_on "/"%char (path_of ks +:+ String "/" s) = "" :: ks ++ split_on "/"%char s.
Proof.
  induction 1 as [|k ks Hk _ IH]; [apply split_on_sep|].
  change (path_of (k :: ks)) with (String "/" (k +:+ path_of ks)).
  change (String "/" (k +:+ path_of ks) +:+ String "/" s)
    with (String "/" ((k +:+ path_of ks) +:+ String "/" s)).
  rewrite split_on_sep, <- sapp_assoc.
  assert (∃ t, path_of ks +:+ String "/" s = String "/" t) as [t Ht] by (destruct ks; eexists; reflexivity).
  rewrite Ht, split_on_app by done. rewrite Ht, split_on_sep in IH. injection IH as IH. by rewrite IH.
Qed.

Lemma parsePath_extends ks p :
  ks ≠ [] → ks ≠ [""] → Forall (λ k, plain_key k = true) ks → extends (path_of ks) p →
  ∃ rest, parsePath p = ks ++ rest.
Proof.
  intros Hne Hne' Hks [->|[s ->]].
  - exists []. rewrite app_nil_r. by apply parsePath_path_of.
  - exists (map unescapeSegment (split_on "/"%char s)).
    assert (Hfree : Forall (λ k, char_free "/"%char k = true) ks)
      by (eapply Forall_impl; [exact Hks|eauto with bridge]).
    pose proof (split_on_path_app ks s Hfree) as Hsplit.
    destruct ks as [|k ks]; [done|]. unfold parsePath. rewrite decide_False.
    2:{ intros [?|?]; [done|]. simplify_eq/=. by destruct k, ks. }
    simpl path_of. cbn [append]. rewrite decide_True by done.
    change (path_of (k :: ks) +:+ String "/" s) with (String "/" ((k +:+ path_of ks) +:+ String "/" s)) in Hsplit.
    rewrite split_on_sep in Hsplit. injection Hsplit as Hsplit.
    rewrite Hsplit. change (k :: ks ++ ?x) with ((k :: ks) ++ x). rewrite map_app. f_equal. clear -Hks. induction Hks; simpl; f_equal; eauto with bridge.
Qed.

(** *** Frames *)

Lemma within_keys ks op :
  ks ≠ [] → ks ≠ [""] → Forall (λ k, plain_key k = true) ks → within (path_of ks) op →
  ∃ rest, (∃ v, keyOp op = KSet (ks ++ rest) v) ∨ keyOp op = KRemove (ks ++ rest) ∨
          (∃ s, keyOp op = KAppend (ks ++ rest) s).
Proof.
  intros Hne Hne' Hks [He Hm]. destruct (parsePath_extends ks _ Hne Hne' Hks He) as [rest Hp].
  exists rest. destruct op; simpl in *; rewrite ?Hp; try done.
  - left. by eexists.
  - right. by left.
  - left. by eexists.
  - right. right. by eexists.
Qed.

(** An operation below a property of an object changes that property only, and
    keeps a container under it when it goes deeper. *)
Lemma applyKeyOp_frame m k rest op :
  (∃ v, op = KSet (k :: rest) v) ∨ op = KRemove (k :: rest) ∨ (∃ s, op = KAppend (k :: rest) s) →
  ∃ m', applyKeyOp (JObj m) op = JObj m' ∧ ∀ j, j ≠ k → m' !! j = m !! j.
Proof.
  intros [[v ->]|[->|[s ->]]].
  - eexists. split; [done|]. intros j Hj. by rewrite lookup_insert_ne.
  - destruct rest as [|k' rest]; simpl.
    + eexists. split; [done|]. intros j Hj. by rewrite lookup_delete_ne.
    + case_bool_decide; eexists; (split; [done|]); intros j Hj; [by rewrite lookup_insert_ne|done].
  - assert (∃ s', applyKeyOp (JObj m) (KAppend (k :: rest) s) = cloneSet (JObj m) (k :: rest) (JStr s')) as [s' ->]
      by (cbn [applyKeyOp]; case_match; by eexists).
    eexists. split; [done|]. intros j Hj. by rewrite lookup_insert_ne.
Qed.

(** What an event may touch: the entry it names, and the status. *)
Definition event_local (id : option string) (op : PatchOp) : Prop :=
  match id with Some id => within (path_of ["entries"; id]) op | None => False end
  ∨ (within (path_of ["status"]) op ∧ writes op = true).

Lemma event_local_step doc id op :
  has_entries doc → from_option plain_key true id = true → event_local id op →
  has_entries (applyKeyOp doc (keyOp op)) ∧ opIsFresh doc op = true ∧
  ∀ j, id ≠ Some j → docEntries (applyKeyOp doc (keyOp op)) !! j = docEntries doc !! j.
Proof.
  intros (m & E & -> & Hm) Hid [Hw|[Hw Hwr]].
  - destruct id as [id|]; [|done].
    destruct (within_keys ["entries"; id] op) as [rest Hop]; [done|done| |done|].
    { by repeat (apply Forall_cons; split; [done|]). }
    assert (Hr : resolves (JObj m) ["entries"]) by (simpl; eauto).
    assert (∃ op', keyOp op = under ["entries"] op' ∧ op_targets op' = true ∧
      ((∃ v, op' = KSet (id :: rest) v) ∨ op' = KRemove (id :: rest) ∨ (∃ s, op' = KAppend (id :: rest) s)))
      as (op' & Hk & Ht & Hcase).
    { destruct Hop as [[v Hop]|[Hop|[s Hop]]]; rewrite Hop;
        [exists (KSet (id :: rest) v)|exists (KRemove (id :: rest))|exists (KAppend (id :: rest) s)]; eauto 6. }
    rewrite Hk, (applyKeyOp_under _ _ _ Hr Ht).
    assert (getKeys (JObj m) ["entries"] = JObj E) as -> by (simpl; by rewrite Hm).
    destruct (applyKeyOp_frame E id rest op' Hcase) as (E' & -> & Hframe).
    split; [|split].
    + eexists _, E'. split; [done|]. simpl. by rewrite lookup_insert_eq.
    + destruct Hw as [_ Hw]. destruct op; try done. simpl in Hop |- *.
      assert (parsePath path = ["entries"; id] ++ rest) as -> by (destruct Hop as [[? ?]|[Hop|[? ?]]]; [done|by injection Hop|done]).
      simpl. by rewrite Hm.
    + intros j Hj. unfold docEntries. simpl. rewrite lookup_insert_eq, Hm. simpl.
      apply Hframe. congruence.
  - destruct (within_keys ["status"] op) as [rest Hop]; [done|done|by apply Forall_singleton|done|].
    destruct (applyKeyOp_frame m "status" rest _ Hop) as (m' & -> & Hframe).
    assert (m' !! "entries" = m !! "entries") as Heq by by apply Hframe.
    split; [|split].
    + exists m', E. split; [done|]. by rewrite Heq.
    + by destruct op.
    + intros j _. unfold docEntries. simpl. by rewrite Heq.
Qed.

Lemma event_local_ops doc id ops :
  has_entries doc → from_option plain_key true id = true → Forall (event_local id) ops → ops ≠ [] →
  ∃ doc', applyPatch doc ops = Some doc' ∧ has_entries doc' ∧
    ∀ j, id ≠ Some j → docEntries doc' !! j = docEntries doc !! j.
Proof.
  intros Hd Hid Hops Hne.
  assert (has_entries (applyKeyOps doc (map keyOp ops)) ∧
    ∀ j, id ≠ Some j → docEntries (applyKeyOps doc (map keyOp ops)) !! j = docEntries doc !! j) as [He Hf].
  { clear Hne. revert doc Hd. induction Hops as [|op ops Hop _ IH]; intros doc Hd; [done|].
    destruct (event_local_step doc id op Hd Hid Hop) as (Hd' & _ & Hf'). simpl.
    destruct (IH _ Hd') as [He Hf]. split; [done|]. intros j Hj. by rewrite Hf, Hf'. }
  eexists. split; [|split; [exact He|exact Hf]].
  unfold applyPatch. pose proof (applyOps_keyOps doc ops) as Heq.
  destruct ops as [|op ops]; [done|].
  apply Forall_cons in Hops as [Hop _]. destruct (event_local_step doc id op Hd Hid Hop) as (_ & Hfr & _).
  simpl in *. destruct (applyOps (applyOp doc op) ops). simpl in *. subst. by rewrite Hfr.
Qed.

Lemma extends_path_of base rest : extends (path_of base) (path_of (base ++ rest)).
Proof.
  rewrite path_of_app. destruct rest as [|k rest]; [left; by rewrite sapp_nil_r|].
  right. by exists (k +:+ path_of rest).
Qed.

(** [within] for template-built paths. *)
Lemma within_path_of base rest op :
  opPath op = path_of (base ++ rest) → match op with MoveOp _ _ => False | _ => True end →
  within (path_of base) op.
Proof. intros Hp Hm. split; [|done]. rewrite Hp. apply extends_path_of. Qed.

Lemma within_status op :
  startsWith "/status/" (opPath op) = true → match op with MoveOp _ _ => False | _ => True end →
  within (path_of ["status"]) op.
Proof. intros [s Hs]%startsWith_spec Hm. split; [|done]. right. by exists s. Qed.

Lemma Forall_pushIf (P : PatchOp → Prop) c op : P op → Forall P (pushIf c op).
Proof. intros H. unfold pushIf. case_match; by repeat constructor. Qed.

(** The form a start event creates. *)
Definition eventCreates (doc : json) (event : SessionLifecycleEvent) : option (string * json) :=
  let leafId := get (get doc "status") "leafId" in
  match event with
  | message_start (Some id) msg =>
    if eq_str (get msg "role") "user" then Some (id, userMessageSkeleton id leafId msg)
    else if eq_str (get msg "role") "assistant" then Some (id, assistantMessageSkeleton id leafId msg)
    else None
  | tool_execution_start (Some id) None toolCallId toolName =>
    Some (id, toolResultSkeleton id leafId toolCallId toolName)
  | _ => None
  end.

(** The fields an update never writes. *)
Definition fixedFields : list string := ["id"; "parentId"; "isSealed"; "ord"; "kind"].

(** Every operation of an event creates its form, updates a field of the entry
    it names, or sets a status field. *)
Inductive event_effect (doc : json) (event : SessionLifecycleEvent) : PatchOp → Prop :=
| effect_create id e :
    eventCreates doc event = Some (id, e) → event_effect doc event (AddOp (path_of ["entries"; id]) e)
| effect_field id f op :
    eventEntryId event = Some id → eventCreates doc event = None → f ∉ fixedFields → plain_key f = true →
    within (path_of ["entries"; id; f]) op → event_effect doc event op
| effect_status f v :
    plain_key f = true → event_effect doc event (ReplaceOp (path_of ["status"; f]) v).

Lemma effect_local doc event op : event_effect doc event op → event_local (eventEntryId event) op.
Proof.
  intros [id e Hc|id f op' Hid _ _ _ [He Hm]|f v Hf].
  - assert (eventEntryId event = Some id) as ->.
    { destruct event; simpl in *; repeat (case_match; simplify_eq/=); done. }
    left. by apply (within_path_of _ []).
  - left. rewrite Hid. split; [|done]. eapply extends_trans; [|exact He]. apply (extends_path_of [_; _] [_]).
  - right. split; [|done]. by apply (within_path_of ["status"] [f]).
Qed.

(** Proves that an operation of a literal list is one of the effects. *)
Ltac status_effect fields :=
  match fields with
  | ?f :: ?rest => first [apply (effect_status _ _ f); reflexivity | status_effect rest]
  end.
Ltac one_effect :=
  match goal with
  | |- event_effect _ _ (AddOp (path_of ["entries"; _]) _) =>
    apply effect_create; simpl; repeat (case_match; simplify_eq/=); done
  | |- event_effect _ _ (_ (path_of ("entries" :: ?id :: ?f :: ?rest)) _) =>
    apply (effect_field _ _ id f);
      [reflexivity|reflexivity|apply (bool_decide_unpack _); vm_compute; exact I|reflexivity|];
    apply (within_path_of ["entries"; id; f] rest); [reflexivity|exact I]
  | |- event_effect _ _ (_ (path_of ("entries" :: ?id :: ?f :: ?rest)) _ _) =>
    apply (effect_field _ _ id f);
      [reflexivity|reflexivity|apply (bool_decide_unpack _); vm_compute; exact I|reflexivity|];
    apply (within_path_of ["entries"; id; f] rest); [reflexivity|exact I]
  | |- event_effect _ _ (ReplaceOp _ _) =>
    status_effect ["leafId"; "isStreaming"; "isCompacting"; "thinkingLevel"; "name"; "pendingSteer"]
  end.
Ltac all_effects :=
  repeat first [ apply Forall_nil_2
               | apply Forall_cons; split; [one_effect|]
               | apply Forall_app; split
               | apply Forall_pushIf; one_effect ].

Lemma eventOps_effect doc event : Forall (event_effect doc event) (eventOps doc event).
Proof.
  destruct event as [| |[id|] msg|[id|] ame|[id|] msg|[id|] [p|] tc tn|[id|] [p|] pr|[id|] [p|] r ie dm
    | | |lv|id|[name|]|st| | | | |]; cbn [eventOps]; try (by constructor); try all_effects.
  - case_match eqn:E1; [all_effects|]. case_match; [all_effects|constructor].
  - destruct ame; cbn [assistantMessageOps]; cbv zeta; try all_effects.
    case_match; [|constructor].
    eapply Forall_impl; [apply diffValue_within with (v := JObj _) (w := JObj _)|].
    intros op [He Hm]. apply (effect_field _ _ id "content"); try done; [set_solver|].
    split; [|done]. eapply extends_trans; [|exact He].
    apply (extends_path_of ["entries"; id; "content"] [_; "arguments"]).
  - case_match; unfold assistantEndOps; cbv zeta; all_effects.
  - case_match; [|constructor]. destruct (streamedToolContentOp _ _ _) as [op|] eqn:Hs; [|all_effects].
    unfold streamedToolContentOp in Hs. apply bind_Some in Hs as (e & _ & Hs).
    case_match; [done|]. apply bind_Some in Hs as (s & _ & Hs). apply bind_Some in Hs as (s' & _ & Hs).
    destruct (if decide _ then _ else _); simplify_eq. all_effects.
Qed.

Lemma eventOps_local doc event : Forall (event_local (eventEntryId event)) (eventOps doc event).
Proof. eapply Forall_impl; [apply eventOps_effect|]. apply effect_local. Qed.


(** The document after a run of events, each patch applied as it is produced. *)
Fixpoint playEvents (doc : json) (events : list SessionLifecycleEvent) : option json :=
  match events with
  | [] => Some doc
  | event :: rest =>
    match applyEvent doc event with
    | None => playEvents doc rest
    | Some ops => doc' ← applyPatch doc ops; playEvents doc' rest
    end
  end.

Lemma block_keys_plain id i rest :
  plain_key id = true → Forall (λ k, plain_key k = true) rest →
  parsePath (path_of ("entries" :: id :: "content" :: string_of_nat i :: rest))
    = ["entries"; id; "content"] ++ string_of_nat i :: rest.
Proof.
  intros Hid Hrest. apply parsePath_path_of; [done|].
  repeat (apply Forall_cons; split; [by auto with bridge|]). done.
Qed.

(** Setting element [length l] of an array appends it; setting an element that
    is there replaces it. *)
Lemma arrayAssign_last l v : arrayAssign l (string_of_nat (length l)) v = l ++ [v].
Proof. by rewrite (arrayAssign_index _ _ _ _ (array_index_of_nat _)), array_set_snoc. Qed.

Lemma arrayAssign_snoc l x v : arrayAssign (l ++ [x]) (string_of_nat (length l)) v = l ++ [v].
Proof. by rewrite (arrayAssign_index _ _ _ _ (array_index_of_nat _)), array_set_app. Qed.

Lemma arrayAt_last l : arrayAt l (string_of_nat (length l)) = JUndef.
Proof. by rewrite (arrayAt_index _ _ _ (array_index_of_nat _)), lookup_ge_None_2. Qed.

Lemma arrayAt_snoc l x : arrayAt (l ++ [x]) (string_of_nat (length l)) = x.
Proof. by rewrite (arrayAt_index _ _ _ (array_index_of_nat _)), list_lookup_middle. Qed.

Lemma get_snoc l x : get (JArr (l ++ [x])) (string_of_nat (length l)) = x.
Proof. by rewrite (get_array_index _ _ _ (array_index_of_nat _)), list_lookup_middle. Qed.

(** The document with [c] as the content of entry [id]. *)
Definition withContent (doc : json) (id : string) (c : json) : json :=
  cloneSet doc ["entries"; id; "content"] c.

Section content.
  Context (doc : json) (id : string) (Hid : plain_key id = true)
    (Hr : resolves doc ["entries"; id; "content"]).

Lemma content_own : withContent doc id (getKeys doc ["entries"; id; "content"]) = doc.
Proof. by apply cloneSet_getKeys. Qed.

Lemma content_get c : getKeys (withContent doc id c) ["entries"; id; "content"] = c.
Proof. by apply getKeys_cloneSet. Qed.

(** One operation below the content. *)
Lemma content_op c op op' :
  nullish c = false → keyOp op = under ["entries"; id; "content"] op' → op_targets op' = true →
  writes op = true → applyPatch (withContent doc id c) [op] = Some (withContent doc id (applyKeyOp c op')).
Proof.
  intros Hc Hop Ht Hw. rewrite applyPatch_writes by (simpl; by rewrite Hw). simpl. rewrite Hop.
  rewrite applyKeyOp_under; [|by apply resolves_cloneSet|done].
  unfold withContent. by rewrite getKeys_cloneSet, cloneSet_cloneSet.
Qed.

(** The text block at the end of the content grows by the deltas. *)
Lemma play_deltas l m s ds :
  m !! "text" = Some (JStr s) →
  playEvents (withContent doc id (JArr (l ++ [JObj m])))
    (map (λ d, message_update (Some id) (text_delta (length l) d)) ds)
  = Some (withContent doc id (JArr (l ++ [JObj (<["text" := JStr (s +:+ String.concat "" ds)]> m)]))).
Proof.
  revert m s. induction ds as [|d ds IH]; intros m s Hm; simpl map; cbn [playEvents].
  - simpl. by rewrite sapp_nil_r, insert_id.
  - unfold applyEvent. cbn [eventOps assistantMessageOps].
    rewrite (content_op _ _ (KAppend [string_of_nat (length l); "text"] d)); [|done| |done|done].
    2:{ unfold keyOp. by rewrite block_keys_plain by auto with bridge. }
    cbn [applyKeyOp getKeys nullish]. rewrite get_snoc. cbn [nullish get]. rewrite Hm.
    cbn [default from_option mbind option_bind cloneSet]. rewrite arrayAt_snoc, arrayAssign_snoc.
    change (Datatypes.id (JStr s)) with (JStr s). cbv beta iota. rewrite arrayAssign_snoc.
    rewrite (IH _ (s +:+ d)) by apply lookup_insert_eq.
    rewrite insert_insert_eq, <- sapp_assoc. do 4 f_equal. destruct ds; simpl; [|done].
    by rewrite sapp_nil_r.
Qed.
End content.

Lemma singleText_block b s : singleText (JArr [b]) = Some s → get b "text" = JStr s.
Proof. unfold singleText. case_match; [|done]. by destruct (get b "text"); intros [= ->]. Qed.

Lemma resolveKeys_getKeys v keys : resolves v keys → resolveKeys v keys = getKeys v keys.
Proof.
  revert v. induction keys as [|k keys IH]; intros v; [done|].
  destruct v as [| | | | |l|m]; try done; simpl.
  - intros (i & c & Hi & Hc & _ & Hr). by rewrite (array_index_number _ _ Hi), Hi, Hc, IH.
  - intros (c & Hc & _ & Hr). by rewrite Hc, IH.
Qed.

(** ** Properties *)

(** C6.  An event writes its own entry and the status, nothing else: its patch
    always applies to a document, the result is a document, and every entry the
    event does not name is what it was. *)
Theorem applyEvent_frame doc event ops :
  has_entries doc → from_option plain_key true (eventEntryId event) = true →
  applyEvent doc event = Some ops →
  ∃ doc', applyPatch doc ops = Some doc' ∧ has_entries doc' ∧
    ∀ id, eventEntryId event ≠ Some id → docEntries doc' !! id = docEntries doc !! id.
Proof.
  intros Hd Hid Hops. apply (event_local_ops doc (eventEntryId event)); [done|done| |].
  - unfold applyEvent in Hops. pose proof (eventOps_local doc event). by case_match; simplify_eq.
  - unfold applyEvent in Hops. by case_match; simplify_eq.
Qed.

Lemma applyEvent_frame_witness :
  let doc := makeDocument (object [("leafId", JStr "a")]) {["a" := object [("id", JStr "a")]]} in
  let event := tool_execution_start (Some "t") None "call" "bash" in
  ∃ doc', applyPatch doc (eventOps doc event) = Some doc' ∧ has_entries doc' ∧
    ∀ id, eventEntryId event ≠ Some id → docEntries doc' !! id = docEntries doc !! id.
Proof.
  intros doc event. apply (applyEvent_frame doc event (eventOps doc event)); [|done|done].
  eexists _, _. split; [reflexivity|]. reflexivity.
Defined.

(** A streamed text block ends up as the concatenation of its deltas: after
    [text_start] at the end of the content and any number of [text_delta]s, the
    document is the old one with one text block added that holds the whole text,
    and a [text_end] that carries the same text changes nothing. *)
Theorem text_stream doc id l ds :
  plain_key id = true → resolves doc ["entries"; id; "content"] →
  getAtPath doc (path_of ["entries"; id; "content"]) = JArr l →
  let update ame := message_update (Some id) ame in
  let text := String.concat "" ds in
  let doc' := setAtPath doc (path_of ["entries"; id; "content"])
                (JArr (l ++ [object [("type", JStr "text"); ("text", JStr text)]])) in
  playEvents doc (update (text_start (length l)) :: map (λ d, update (text_delta (length l) d)) ds) = Some doc' ∧
  playEvents doc' [update (text_end (length l) text)] = Some doc'.
Proof.
  intros Hid Hr Hl update text doc'. subst doc'.
  assert (Hparse : parsePath (path_of ["entries"; id; "content"]) = ["entries"; id; "content"]).
  { apply parsePath_path_of; [done|]. repeat (apply Forall_cons; split; [by auto with bridge|]). done. }
  unfold getAtPath, setAtPath in *. rewrite Hparse in *.
  change (cloneSet doc ["entries"; id; "content"]) with (withContent doc id). split.
  - rewrite <- (content_own doc id Hr) at 1. rewrite Hl. cbn [playEvents].
    unfold update, applyEvent. cbn [eventOps assistantMessageOps].
    rewrite (content_op doc id Hr _ _ (KSet [string_of_nat (length l)]
      (object [("type", JStr "text"); ("text", JStr "")]))); [|done| |done|done].
    2:{ unfold keyOp. by rewrite block_keys_plain by auto with bridge. }
    cbn [applyKeyOp mbind option_bind cloneSet]. rewrite arrayAssign_last.
    unfold object. rewrite (play_deltas doc id Hid Hr l _ "" ds) by reflexivity.
    unfold assign. simpl. by rewrite insert_insert_eq.
  - cbn [playEvents]. unfold update, applyEvent. cbn [eventOps assistantMessageOps].
    rewrite (content_op doc id Hr _ _ (KSet [string_of_nat (length l); "text"] (JStr text))); [|done| |done|done].
    2:{ unfold keyOp. by rewrite block_keys_plain by auto with bridge. }
    cbn [applyKeyOp mbind option_bind cloneSet]. rewrite arrayAt_snoc, arrayAssign_snoc.
    unfold object, assign. simpl. by rewrite insert_insert_eq.
Qed.

Lemma text_stream_witness :
  let doc := makeDocument (object []) {["m" := object [("content", JArr [JNull])]]} in
  let update ame := message_update (Some "m") ame in
  let text := String.concat "" ["He"; "llo"] in
  let doc' := setAtPath doc (path_of ["entries"; "m"; "content"])
                (JArr ([JNull] ++ [object [("type", JStr "text"); ("text", JStr text)]])) in
  playEvents doc (update (text_start (length [JNull]))
    :: map (λ d, update (text_delta (length [JNull]) d)) ["He"; "llo"]) = Some doc' ∧
  playEvents doc' [update (text_end (length [JNull]) text)] = Some doc'.
Proof.
  intros doc. apply (text_stream doc "m" [JNull] ["He"; "llo"]); [done| |vm_compute; reflexivity].
  eexists. split; [reflexivity|]. split; [done|]. eexists. split; [reflexivity|]. split; [done|].
  eexists. split; [reflexivity|]. done.
Defined.

(** Streamed tool-call arguments arrive whole: after a [toolcall_delta] the
    document holds, at the arguments of the block, exactly the partial object
    the event carries (whose keys must be nameable by a path). *)
Theorem toolcall_delta_arguments doc id i partial o n :
  plain_key id = true → plain_json (JObj o) = true → plain_json (JObj n) = true →
  let argsPath := path_of ["entries"; id; "content"; string_of_nat i; "arguments"] in
  resolves doc ["entries"; id; "content"; string_of_nat i; "arguments"] →
  getAtPath doc argsPath = JObj o →
  let block := get (get partial "content") (string_of_nat i) in
  get block "type" = JStr "toolCall" → get block "arguments" = JObj n →
  playEvents doc [message_update (Some id) (toolcall_delta i partial)] = Some (setAtPath doc argsPath (JObj n)).
Proof.
  intros Hid Ho Hn argsPath Hr Hg block Hty Hargs. subst argsPath block.
  unfold playEvents, applyEvent. cbn [eventOps assistantMessageOps].
  assert (Hks : Forall (λ k, plain_key k = true) ["entries"; id; "content"; string_of_nat i; "arguments"])
    by (repeat (apply Forall_cons; split; [by auto with bridge|]); done).
  rewrite Hty, Hg, Hargs. cbn [eq_str coalesce nullish own]. rewrite bool_decide_eq_true_2 by done.
  assert (Hpatch := objectDiff_patch doc o n ["entries"; id; "content"; string_of_nat i; "arguments"]
    Ho Hn (not_eq_sym (@nil_cons _ _ _)) ltac:(discriminate) Hks Hr Hg).
  destruct (computeObjectDiff o n _) as [|op ops]; [done|]. by rewrite Hpatch.
Qed.

Lemma toolcall_delta_arguments_witness :
  let block args := object [("type", JStr "toolCall"); ("id", JStr "c"); ("arguments", args)] in
  let old := {["command" := JStr "ls"]} in
  let new := assign ∅ [("command", JStr "ls -l"); ("timeout", JInt 3)] in
  let doc := makeDocument (object []) {["m" := object [("content", JArr [block (JObj old)])]]} in
  let partial := object [("content", JArr [block (JObj new)])] in
  playEvents doc [message_update (Some "m") (toolcall_delta 0 partial)]
    = Some (setAtPath doc "/entries/m/content/0/arguments" (JObj new)).
Proof.
  intros block old new doc partial.
  apply (toolcall_delta_arguments doc "m" 0 partial old new); try (vm_compute; reflexivity).
  vm_compute. repeat eexists.
Defined.

(** The bounded encoding of a streamed tool body is equivalent to the
    wholesale replace: when it applies, and the new block differs from the live
    one in its text alone, appending the suffix gives the document that
    replacing the content gives. *)
Theorem streamedToolContentOp_replaces doc id b next op :
  has_entries doc → plain_key id = true → resolves doc ["entries"; id; "content"] →
  getAtPath doc (path_of ["entries"; id; "content"]) = JArr [JObj b] →
  let content := JArr [JObj (<["text" := JStr next]> b)] in
  streamedToolContentOp doc id content = Some op →
  applyPatch doc [op] = Some (setAtPath doc (path_of ["entries"; id; "content"]) content).
Proof.
  intros Hd Hid Hr Hl content Hop. subst content.
  assert (Hparse : parsePath (path_of ["entries"; id; "content"]) = ["entries"; id; "content"]).
  { apply parsePath_path_of; [done|]. repeat (apply Forall_cons; split; [by auto with bridge|]). done. }
  unfold getAtPath, setAtPath in *. rewrite Hparse in *.
  assert (Hc : ∀ e, docEntries doc !! id = Some e → get e "content" = JArr [JObj b]).
  { intros e He. rewrite <- Hl. destruct Hd as (m & E & -> & Hm). unfold docEntries in He. simpl in *.
    rewrite Hm in *. simpl in *. rewrite He in *. destruct Hr as (c & Hc & _ & Hr). by destruct e. }
  unfold streamedToolContentOp in Hop. apply bind_Some in Hop as (e & He & Hop).
  case_match; [done|]. rewrite (Hc e He) in Hop. apply bind_Some in Hop as (s & Hs & Hop).
  apply bind_Some in Hop as (s' & Hs' & Hop). apply singleText_block in Hs, Hs'.
  simpl in Hs, Hs'. rewrite lookup_insert_eq in Hs'. injection Hs' as <-.
  assert (startsWith s next = true ∧ op = AppendOp (path_of ["entries"; id; "content"; "0"; "text"])
    (sdrop (slength s) next) true) as [Hstart ->].
  { case_decide; [subst|]; simpl in Hop; case_match; simplify_eq/=; split_bools; done. }
  rewrite <- (content_own doc id Hr) at 1. rewrite Hl.
  rewrite (content_op doc id Hr _ _ (KAppend ["0"; "text"] (sdrop (slength s) next))); [|done| |done|done].
  2:{ unfold keyOp. change "0" with (string_of_nat 0). by rewrite block_keys_plain by auto with bridge. }
  simpl. rewrite Hs. by rewrite startsWith_drop.
Qed.

Lemma streamedToolContentOp_replaces_witness :
  let block s := {["type" := JStr "text"; "text" := JStr s]} in
  let entry := object [("kind", JStr "tool_result"); ("content", JArr [JObj (block "ab")])] in
  let doc := makeDocument (object []) {["t" := entry]} in
  let content := JArr [JObj (<["text" := JStr "abcd"]> (block "ab"))] in
  applyPatch doc [AppendOp "/entries/t/content/0/text" "cd" true]
    = Some (setAtPath doc "/entries/t/content" content).
Proof.
  intros block entry doc.
  apply (streamedToolContentOp_replaces doc "t" (block "ab") "abcd"
    (AppendOp "/entries/t/content/0/text" "cd" true)); try (vm_compute; reflexivity).
  { eexists _, _. split; reflexivity. }
  vm_compute. repeat eexists.
Defined.

(** A pull reads what a mirror shows: for a path into an entry that leads
    through existing values, [resolveFieldPath] on the entry gives the value at
    that path of the document. *)
Theorem resolveFieldPath_getAtPath doc id entry k keys :
  has_entries doc →   docEntries doc !! id = Some entry → Forall (λ k, plain_key k = true) (id :: k :: keys) →
  resolves entry (k :: keys) →
  resolveFieldPath entry (path_of ("entries" :: id :: k :: keys))
    = getAtPath doc (path_of ("entries" :: id :: k :: keys)).
Proof.
  intros Hd He Hks Hr. unfold getAtPath. rewrite parsePath_path_of; [|done|by apply Forall_cons].
  unfold resolveFieldPath. rewrite split_path_of; [|done|].
  2:{ apply Forall_cons. split; [done|]. eapply Forall_impl; [exact Hks|eauto with bridge]. }
  cbn [length Nat.ltb Nat.leb drop].
  assert (getKeys doc ["entries"; id] = entry) as Hge.
  { destruct Hd as (m & E & -> & Hm). unfold docEntries in He. simpl in *.
    rewrite Hm in *. simpl in *. by rewrite He. }
  change ("entries" :: id :: k :: keys) with (["entries"; id] ++ k :: keys). rewrite getKeys_app, Hge.
  by apply resolveKeys_getKeys.
Qed.

Lemma resolveFieldPath_getAtPath_witness :
  let entry := object [("content", JArr [object [("text", JStr "hi")]])] in
  let doc := makeDocument (object []) {["e" := entry]} in
  resolveFieldPath entry (path_of ["entries"; "e"; "content"; "0"; "text"])
    = getAtPath doc (path_of ["entries"; "e"; "content"; "0"; "text"]).
Proof.
  intros entry doc. apply (resolveFieldPath_getAtPath doc "e" entry "content" ["0"; "text"]).
  - eexists _, _. split; reflexivity.
  - reflexivity.
  - by repeat (apply Forall_cons; split; [done|]).
  - vm_compute. repeat eexists.
Defined.
