(* ===== verification/Projection.v ===== *)
(** * Entry projection

    [projection.ts], the one place where live forms and persisted entries become
    a document, together with the read boundary it consumes
    ([SessionManager.readEntries]).  The projection's closure variables are a
    record; [holder.document] is one of its fields.  [None] stands for a call
    that does not return: a walk up [parentId] that never ends, or a patch that
    throws.  The walks get fuel from the number of entries: one unit more, and
    two where the last id may have no entry, which is enough on every acyclic
    map ([effectiveLeaf_total]). *)

From S2P Require Export Events.

(** ** The read boundary *)

(** [SessionManager]: the ordered entry list without its header, the selected
    leaf, and the version of the list. *)
Record SessionLog := mkLog { log : list json; logLeaf : option string; entriesVersion : nat }.

Record EntrySnapshot := mkSnapshot
  { entries : list json; next : nat; leafId : option string; snapshotVersion : nat }.

Definition readEntries (l : SessionLog) (from : nat) : EntrySnapshot :=
  let total := length (log l) in
  let start := Nat.min from total in
  mkSnapshot (drop start (log l)) total (logLeaf l) (entriesVersion l).

(** ** State *)

Record Projection := mkProjection
  { document : json;
    live : list string;  (* in creation order *)
    piLeaf : option string;
    position : nat;
    version : option nat;
    selectedPath : option (option string * gset string) }.

Definition createEntryProjection (doc : json) : Projection := mkProjection doc [] None 0 None None.

Definition withDocument (doc : json) (st : Projection) : Projection :=
  mkProjection doc (live st) (piLeaf st) (position st) (version st) (selectedPath st).
Definition withLive (l : list string) (st : Projection) : Projection :=
  mkProjection (document st) l (piLeaf st) (position st) (version st) (selectedPath st).
Definition withSelected (c : option (option string * gset string)) (st : Projection) : Projection :=
  mkProjection (document st) (live st) (piLeaf st) (position st) (version st) c.

(** [live.delete(id)], [live.add(id)]. *)
Definition liveDelete (id : string) (l : list string) : list string := filter (λ x, x ≠ id) l.
Definition liveAdd (id : string) (l : list string) : list string :=
  if decide (id ∈ l) then l else l ++ [id].

Definition emit (st : Projection) (ops : list PatchOp) : option (Projection * option (list PatchOp)) :=
  match ops with
  | [] => Some (st, None)
  | _ => doc ← applyPatch (document st) ops; Some (withDocument doc st, Some ops)
  end.

(** ** The effective leaf *)

(** The ids from a leaf up to the first id that has no entry, that id included. *)
Fixpoint ancestorIds (fuel : nat) (lookup : record) (cursor : option string) : option (gset string) :=
  match fuel with
  | 0 => None
  | S fuel' =>
    match cursor with
    | None => Some ∅
    | Some id =>
      match lookup !! id with
      | None => Some {[id]}
      | Some entry =>
        ids ← ancestorIds fuel' lookup (opt_str (get entry "parentId"));
        Some ({[id]} ∪ ids)
      end
    end
  end.

Definition selectedPathOf (lookup : record) (st : Projection) : option (gset string * Projection) :=
  let miss :=
    ids ← ancestorIds (walkFuel lookup) lookup (piLeaf st);
    Some (ids, withSelected (Some (piLeaf st, ids)) st) in
  match selectedPath st with
  | Some (leaf, ids) => if decide (leaf = piLeaf st) then Some (ids, st) else miss
  | None => miss
  end.

(** [while (cursor !== null && live.has(cursor)) cursor = lookup(cursor)?.parentId ?? null] *)
Fixpoint firstSealed (fuel : nat) (lookup : record) (live_ : list string) (cursor : option string)
    : option (option string) :=
  match fuel with
  | 0 => None
  | S fuel' =>
    match cursor with
    | None => Some None
    | Some id =>
      if decide (id ∈ live_) then
        firstSealed fuel' lookup live_
          (match lookup !! id with Some e => opt_str (get e "parentId") | None => None end)
      else Some (Some id)
    end
  end.

(** The first of the candidates whose first sealed ancestor is selected. *)
Fixpoint attachedLive (lookup : record) (live_ : list string) (selected : gset string) (ids : list string)
    : option (option string) :=
  match ids with
  | [] => Some None
  | id :: ids' =>
    cursor ← firstSealed (S (walkFuel lookup)) lookup live_ (Some id);
    match cursor with
    | Some c => if decide (c ∈ selected) then Some (Some id) else attachedLive lookup live_ selected ids'
    | None => attachedLive lookup live_ selected ids'
    end
  end.

Definition effectiveLeaf (lookup : record) (st : Projection) : option (option string * Projection) :=
  match live st with
  | [] => Some (piLeaf st, st)
  | _ =>
    '(selected, st') ← selectedPathOf lookup st;
    found ← attachedLive lookup (live st) selected (rev (live st));
    Some (match found with Some id => Some id | None => piLeaf st end, st')
  end.

Definition leafField (status : json) : json := get status "leafId" ?? JNull.

Definition leafOp (st : Projection) (leaf : option string) : list PatchOp :=
  if prim_eq (leafField (get (document st) "status")) (of_opt_str leaf) then []
  else [ReplaceOp "/status/leafId" (of_opt_str leaf)].

(** ** [refresh] *)

(** The install loop: live forms, entry map and operations after it. *)
Fixpoint installLoop (base : nat) (snapshot : list json) (live_ : list string) (after : record)
    : list string * record * list PatchOp :=
  match snapshot with
  | [] => (live_, after, [])
  | e :: rest =>
    let entry := projectEntry e base in
    let id := entryId entry in
    let '(live', after', ops) := installLoop (S base) rest (liveDelete id live_) (<[id := entry]> after) in
    (live', after', AddOp (path_of ["entries"; id]) entry :: ops)
  end.

(** The rewrite loop over [Object.keys(after)]. *)
Definition removeStale (authoritative : list string) (live_ : list string) (after : record)
    : record * list PatchOp :=
  let stale := filter (λ id, (id ∉ authoritative) ∧ (id ∉ live_)) (elements (dom after)) in
  (foldl (λ m id, delete id m) after stale, map (λ id, RemoveOp (path_of ["entries"; id])) stale).

Definition sameJson (v w : json) : bool := bool_decide (serialised v = serialised w).

(** The status fields a refresh re-derives: the new status and the operations. *)
Definition refreshStats (after : record) (leaf : option string) (status : json) : option (json * list PatchOp) :=
  stats ← deriveStatsForEntries (walkFuel after) after leaf;
  Some (if sameJson stats (get status "stats") then (status, [])
        else (spread status [("stats", stats)], [ReplaceOp "/status/stats" stats])).

Definition refreshName (snapshot : list json) (after : record) (status : json) : json * list PatchOp :=
  if existsb (λ e, eq_str (get e "type") "session_info") snapshot then
    let name := deriveSessionName after in
    if prim_eq name (get status "name") then (status, [])
    else (spread status [("name", name)], [ReplaceOp "/status/name" name])
  else (status, []).

Definition refreshLeaf (leaf : option string) (status : json) : json * list PatchOp :=
  if prim_eq (leafField status) (of_opt_str leaf) then (status, [])
  else (spread status [("leafId", of_opt_str leaf)], [ReplaceOp "/status/leafId" (of_opt_str leaf)]).

Definition isRewrite (st : Projection) (snapshot : EntrySnapshot) : bool :=
  match version st with Some v => negb (snapshotVersion snapshot =? v) | None => false end.

Definition refresh (st : Projection) (snapshot : EntrySnapshot)
    : option (Projection * option (list PatchOp)) :=
  let doc := document st in
  let rewrite := isRewrite st snapshot in
  let base := if rewrite then 0 else position st in
  let '(live', installed, ops) := installLoop base (entries snapshot) (live st) (docEntries doc) in
  let '(after, removals) :=
    if rewrite then removeStale (map entryId (entries snapshot)) live' installed else (installed, []) in
  let ops := ops ++ removals in
  let st' := mkProjection doc live' (leafId snapshot) (next snapshot) (Some (snapshotVersion snapshot))
               (if rewrite then None else selectedPath st) in
  '(leaf, st') ← effectiveLeaf after st';
  let status := get doc "status" in
  '(status, ops) ←
    (if negb (bool_decide (ops = [])) || negb (prim_eq (leafField status) (of_opt_str leaf)) then
       '(status', statsOps) ← refreshStats after leaf status; Some (status', ops ++ statsOps)
     else Some (status, ops));
  let '(status, nameOps) := refreshName (entries snapshot) after status in
  let '(status, leafOps) := refreshLeaf leaf status in
  let ops := ops ++ nameOps ++ leafOps in
  match ops with
  | [] => Some (st', None)
  | _ => Some (withDocument (makeDocument status after) st', Some ops)
  end.

Definition refreshFrom (st : Projection) (read : nat → EntrySnapshot)
    : option (Projection * option (list PatchOp)) :=
  let snapshot := read (position st) in
  refresh st (if isRewrite st snapshot then read 0 else snapshot).

(** ** [applyEvent] *)

Definition isContentEvent (event : SessionLifecycleEvent) : bool :=
  match event with
  | message_start _ _ | message_update _ _ | message_end _ _
  | tool_execution_start _ _ _ _ | tool_execution_update _ _ _ | tool_execution_end _ _ _ _ _ => true
  | _ => false
  end.

Definition targetsSealed (st : Projection) (event : SessionLifecycleEvent) : bool :=
  match eventEntryId event with
  | None => false
  | Some id => match docEntries (document st) !! id with Some e => isEntrySealed e | None => false end
  end.

Definition isAddAt (id : string) (op : PatchOp) : bool :=
  match op with AddOp path _ => bool_decide (path = path_of ["entries"; id]) | _ => false end.

Definition projectEvent (st : Projection) (event : SessionLifecycleEvent)
    : option (Projection * option (list PatchOp)) :=
  if isContentEvent event && targetsSealed st event then Some (st, None)
  else
    match applyEvent (document st) event with
    | None => Some (st, None)
    | Some patch =>
      let st := match eventEntryId event with
                | Some id => if existsb (isAddAt id) patch then withLive (liveAdd id (live st)) st else st
                | None => st
                end in
      '(leaf, st) ← effectiveLeaf (docEntries (document st)) st;
      emit st (patch ++ leafOp st leaf)
    end.

(** ** [settle] *)

Definition settle (st : Projection) : option (Projection * option (list PatchOp)) :=
  let doc := document st in
  let before := docEntries doc in
  let present := filter (λ id, is_Some (before !! id)) (live st) in
  let after := foldl (λ m id, delete id m) before present in
  let ops := map (λ id, RemoveOp (path_of ["entries"; id])) present in
  let st' := withLive [] st in
  match ops with
  | [] => Some (st', None)
  | _ =>
    '(leaf, st') ← effectiveLeaf after st';
    stats ← deriveStatsForEntries (walkFuel after) after leaf;
    emit st' (ops ++ [ReplaceOp "/status/stats" stats] ++ leafOp st' leaf)
  end.

(** ** Status writes *)

Fixpoint getStatusKeys (cursor : json) (keys : list string) : json :=
  match keys with
  | [] => cursor
  | key :: keys' => if is_object cursor then getStatusKeys (get cursor key) keys' else JUndef
  end.

Definition getStatusAt (doc : json) (path : string) : json :=
  getStatusKeys doc (filter (λ part, part ≠ "") (split_on "/"%char path)).

Definition statusOp (doc : json) (path : string) (value : json) : option PatchOp :=
  if sameJson (getStatusAt doc path) value then None else Some (ReplaceOp path (value ?? JNull)).
