(* ===== verification/Refresh.v ===== *)
(** * Patches of the projection

    What [refresh], [settle] and [applyEvent] of the projection emit: the patch
    always applies, and applied to the old document it gives exactly the new
    one, although [refresh] builds the new document directly. *)

From S2P Require Export Projection.

(** A key that makes one segment of a path and is read back as it is. *)
Definition wire_key (k : string) : bool := plain_key k && segment_key k.

(** ** Operations on a document *)

Section document.
  Context (status : json) (E : record).

Lemma document_set id v :
  applyKeyOp (makeDocument status E) (KSet ["entries"; id] v) = makeDocument status (<[id := v]> E).
Proof.
  unfold makeDocument, object, assign. simpl. rewrite lookup_insert_eq. simpl.
  by rewrite insert_insert_eq.
Qed.

Lemma document_remove id :
  applyKeyOp (makeDocument status E) (KRemove ["entries"; id]) = makeDocument status (delete id E).
Proof.
  unfold makeDocument, object, assign. cbn [applyKeyOp cloneRemove foldl fst snd].
  unfold has. rewrite lookup_insert_eq, bool_decide_eq_true_2 by eauto.
  simpl. rewrite lookup_insert_eq. simpl. by rewrite insert_insert_eq.
Qed.
End document.

Lemma document_status s E f v :
  applyKeyOp (makeDocument (JObj s) E) (KSet ["status"; f] v) = makeDocument (JObj (<[f := v]> s)) E.
Proof.
  unfold makeDocument, object, assign. simpl. rewrite lookup_insert_ne, lookup_insert_eq by done. simpl.
  by rewrite (insert_insert_ne _ "status" "entries"), insert_insert_eq, insert_insert_ne by done.
Qed.

Lemma parsePath_pair a b : plain_key a = true → plain_key b = true → a ≠ "" → parsePath (path_of [a; b]) = [a; b].
Proof. intros. apply parsePath_path_of; [done|]. by repeat (apply Forall_cons; split; [done|]). Qed.

Lemma parsePath_entry id : plain_key id = true → parsePath (path_of ["entries"; id]) = ["entries"; id].
Proof. intros. by apply parsePath_pair. Qed.

Lemma document_add status E id v ops :
  plain_key id = true →
  applyKeyOps (makeDocument status E) (map keyOp (AddOp (path_of ["entries"; id]) v :: ops))
    = applyKeyOps (makeDocument status (<[id := v]> E)) (map keyOp ops).
Proof.
  intros Hid. cbn [map keyOp]. rewrite parsePath_entry by done. unfold applyKeyOps. cbn [foldl].
  by rewrite document_set.
Qed.

Lemma document_removal status E id ops :
  plain_key id = true →
  applyKeyOps (makeDocument status E) (map keyOp (RemoveOp (path_of ["entries"; id]) :: ops))
    = applyKeyOps (makeDocument status (delete id E)) (map keyOp ops).
Proof.
  intros Hid. cbn [map keyOp]. rewrite parsePath_entry by done. unfold applyKeyOps. cbn [foldl].
  by rewrite document_remove.
Qed.

(** Operations whose first effect is certain. *)
Lemma applyPatch_entry_ops status E ops doc' :
  Forall (λ op, (∃ id v, plain_key id = true ∧ op = AddOp (path_of ["entries"; id]) v) ∨
                (∃ id, plain_key id = true ∧ op = RemoveOp (path_of ["entries"; id])) ∨
                (∃ f v, wire_key f = true ∧ op = ReplaceOp (path_of ["status"; f]) v)) ops →
  applyKeyOps (makeDocument status E) (map keyOp ops) = doc' →
  applyPatch (makeDocument status E) ops = Some doc'.
Proof.
  intros Hops <-. unfold applyPatch. rewrite <- applyOps_keyOps.
  destruct ops as [|op ops]; [done|]. apply Forall_cons in Hops as [Hop _].
  assert (opIsFresh (makeDocument status E) op = true) as Hf.
  { destruct Hop as [(id & v & Hid & ->)|[(id & Hid & ->)|(f & v & Hf & ->)]]; try done.
    unfold opIsFresh. rewrite parsePath_entry by done. simpl. by rewrite lookup_insert_eq. }
  simpl. destruct (applyOps _ ops). by rewrite Hf.
Qed.

(** ** The loops of [refresh] *)

Definition storable (e : json) : Prop := has_id e ∧ plain_key (entryId e) = true.

Lemma projectEntry_entryId e n : has_id e → entryId (projectEntry e n) = entryId e.
Proof. intros He. unfold entryId at 1. by rewrite projectEntry_id. Qed.

Lemma installLoop_spec base l live_ E status :
  Forall storable l →
  let '(live', E', ops) := installLoop base l live_ E in
  live' = foldl (λ acc e, liveDelete (entryId e) acc) live_ l ∧
  E' = installEntries base l E ∧
  ops = imap (λ i e, AddOp (path_of ["entries"; entryId e]) (projectEntry e (base + i))) l ∧
  applyKeyOps (makeDocument status E) (map keyOp ops) = makeDocument status E'.
Proof.
  intros Hl. revert base live_ E. induction Hl as [|e l [He Hp] _ IH]; intros base live_ E; [done|].
  cbn [installLoop]. rewrite !projectEntry_entryId by done.
  specialize (IH (S base) (liveDelete (entryId e) live_) (<[entryId e:=projectEntry e base]> E)).
  destruct (installLoop (S base) l _ _) as [[live' E'] ops]. destruct IH as (-> & -> & -> & Happ).
  split; [done|]. split; [done|]. split.
  - simpl. rewrite Nat.add_0_r. f_equal. apply imap_ext. intros i x _. simpl. do 2 f_equal. lia.
  - by rewrite document_add.
Qed.

Lemma foldl_remove_ops status ids E :
  Forall (λ id, plain_key id = true) ids →
  applyKeyOps (makeDocument status E) (map keyOp (map (λ id, RemoveOp (path_of ["entries"; id])) ids))
    = makeDocument status (foldl (λ m id, delete id m) E ids).
Proof.
  intros Hids. revert E. induction Hids as [|id ids Hid _ IH]; intros E; [done|].
  rewrite (map_cons _ id ids), document_removal by done. apply IH.
Qed.

Lemma foldl_delete_lookup ids (E : record) j :
  foldl (λ m id, delete id m) E ids !! j = if decide (j ∈ ids) then None else E !! j.
Proof.
  revert E. induction ids as [|id ids IH]; intros E; [done|]. simpl. rewrite IH.
  destruct (decide (j ∈ ids)), (decide (j ∈ id :: ids)); try set_solver; [|].
  - destruct (decide (j = id)) as [->|]; [by rewrite lookup_delete_eq|set_solver].
  - rewrite lookup_delete_ne; [done|set_solver].
Qed.

(** ** The status fields *)

Section status.
  Context (s : record) (E : record).

Lemma refreshStats_spec after leaf r ops :
  refreshStats after leaf (JObj s) = Some (r, ops) →
  ∃ s', r = JObj s' ∧ (s' = s ∨ ∃ v, s' = <["stats" := v]> s) ∧
    applyKeyOps (makeDocument (JObj s) E) (map keyOp ops) = makeDocument r E.
Proof.
  unfold refreshStats. intros (stats & _ & H)%bind_Some. case_match; simplify_eq.
  - eauto.
  - eexists. split; [done|]. split; [right; by eexists|]. apply document_status.
Qed.

Lemma refreshName_spec snapshot after :
  let '(r, ops) := refreshName snapshot after (JObj s) in
  ∃ s', r = JObj s' ∧ (s' = s ∨ ∃ v, s' = <["name" := v]> s) ∧
    applyKeyOps (makeDocument (JObj s) E) (map keyOp ops) = makeDocument r E.
Proof.
  unfold refreshName. destruct (existsb _ snapshot); cbv zeta; [|by eauto].
  destruct (prim_eq (deriveSessionName after) _); [by eauto|].
  eexists. split; [done|]. split; [right; by eexists|]. apply document_status.
Qed.

Lemma refreshLeaf_spec leaf :
  let '(r, ops) := refreshLeaf leaf (JObj s) in
  ∃ s', r = JObj s' ∧ leafField r = of_opt_str leaf ∧ 
    applyKeyOps (makeDocument (JObj s) E) (map keyOp ops) = makeDocument r E.
Proof.
  unfold refreshLeaf. destruct (prim_eq (leafField (JObj s)) _) eqn:Hp.
  - exists s. split; [done|]. split; [by apply prim_eq_eq|done].
  - eexists. split; [done|]. split; [|apply document_status].
    unfold leafField, spread, assign. simpl. rewrite lookup_insert_eq. by destruct leaf.
Qed.
End status.

(** ** [refresh] *)

Lemma effectiveLeaf_frame lookup st leaf st' :
  effectiveLeaf lookup st = Some (leaf, st') → ∃ c, st' = withSelected c st.
Proof.
  unfold effectiveLeaf. destruct (live st).
  - intros H. injection H as _ <-. exists (selectedPath st). by destruct st.
  - intros ([ids st1] & H1 & (found & _ & [= _ <-])%bind_Some)%bind_Some.
    assert (∀ ids0, Some (ids0, withSelected (Some (piLeaf st, ids0)) st) = Some (ids, st1) →
      ∃ c, st1 = withSelected c st) as Hmiss by (intros ids0 [= _ <-]; eauto).
    unfold selectedPathOf in H1.
    destruct (selectedPath st) as [[lf ids']|] eqn:Hs; [case_decide|].
    + injection H1 as _ <-. exists (selectedPath st). by destruct st.
    + apply bind_Some in H1 as (ids0 & _ & H1). by eapply Hmiss.
    + apply bind_Some in H1 as (ids0 & _ & H1). by eapply Hmiss.
Qed.

(** The entry map after a refresh. *)
Definition refreshedEntries (rewrite : bool) (base : nat) (l : list json) (live_ : list string) (E : record) : record :=
  let installed := installEntries base l E in
  if rewrite then (removeStale (map entryId l) live_ installed).1 else installed.

Lemma removeStale_spec auth live_ (E : record) status :
  map_Forall (λ k _, plain_key k = true) E →
  let '(E', ops) := removeStale auth live_ E in
  (∀ j, E' !! j = if decide (j ∈ auth ∨ j ∈ live_) then E !! j else None) ∧
  Forall (λ op, ∃ id, plain_key id = true ∧ op = RemoveOp (path_of ["entries"; id])) ops ∧
  (ops = [] → E' = E) ∧
  applyKeyOps (makeDocument status E) (map keyOp ops) = makeDocument status E'.
Proof.
  intros Hp. unfold removeStale. set (stale := filter _ _).
  assert (Hstale : Forall (λ id, plain_key id = true) stale).
  { apply Forall_forall. intros id [_ [v Hv]%elem_of_elements%elem_of_dom]%list_elem_of_filter. by apply (Hp id v). }
  split; [|split; [|split]].
  - intros j. rewrite foldl_delete_lookup. unfold stale.
    destruct (decide (j ∈ filter _ _)) as [Hj|Hj]; rewrite list_elem_of_filter, elem_of_elements, elem_of_dom in Hj.
    + rewrite decide_False; [done|]. naive_solver.
    + case_decide as Hin; [done|]. destruct (E !! j) eqn:Ej; [|done]. naive_solver.
  - apply Forall_forall. intros op (id & -> & Hid)%list_elem_of_fmap.
    rewrite Forall_forall in Hstale. eauto.
  - by destruct stale.
  - by apply foldl_remove_ops.
Qed.

(** An operation the projection emits. *)
Definition plain_op (op : PatchOp) : Prop :=
  (∃ id v, plain_key id = true ∧ op = AddOp (path_of ["entries"; id]) v) ∨
  (∃ id, plain_key id = true ∧ op = RemoveOp (path_of ["entries"; id])) ∨
  (∃ f v, wire_key f = true ∧ op = ReplaceOp (path_of ["status"; f]) v).

Lemma refreshed_ops (rw : bool) base l live_ E status live' installed ops :
  map_Forall (λ k _, plain_key k = true) E → Forall storable l →
  installLoop base l live_ E = (live', installed, ops) →
  let '(after, removals) := if rw then removeStale (map entryId l) live' installed else (installed, []) in
  live' = foldl (λ acc e, liveDelete (entryId e) acc) live_ l ∧
  after = refreshedEntries rw base l live' E ∧
  Forall plain_op (ops ++ removals) ∧ (ops ++ removals = [] → after = E) ∧
  applyKeyOps (makeDocument status E) (map keyOp (ops ++ removals)) = makeDocument status after.
Proof.
  intros Hp Hl Hloop. pose proof (installLoop_spec base l live_ E status Hl) as Hspec.
  rewrite Hloop in Hspec. destruct Hspec as (-> & -> & -> & Happ).
  assert (Hadd : Forall plain_op (imap (λ i e, AddOp (path_of ["entries"; entryId e]) (projectEntry e (base + i))) l)).
  { apply Forall_forall. intros op (i & e & -> & He)%elem_of_lookup_imap_1. left.
    rewrite Forall_lookup in Hl. destruct (Hl i e He). eauto. }
  assert (Hne : imap (λ i e, AddOp (path_of ["entries"; entryId e]) (projectEntry e (base + i))) l = [] →
                installEntries base l E = E) by (by destruct l).
  unfold refreshedEntries. destruct rw; [|rewrite app_nil_r; auto].
  assert (Hp' : map_Forall (λ k _, plain_key k = true) (installEntries base l E)).
  { clear -Hp Hl. revert base E Hp. induction Hl as [|e l [_ He] _ IH]; intros base E Hp; [done|].
    simpl. apply IH. by apply map_Forall_insert_2. }
  pose proof (removeStale_spec (map entryId l) (foldl (λ acc e, liveDelete (entryId e) acc) live_ l) _ status Hp') as Hrm.
  destruct (removeStale _ _ _) as [after removals] eqn:Hst. destruct Hrm as (_ & Hrops & Hrnil & Hrapp).
  split; [done|]. split; [done|]. split; [|split].
  - apply Forall_app. split; [done|]. eapply Forall_impl; [exact Hrops|].
    intros op (id & ? & ->). right. left. eauto.
  - intros [H1 H2]%app_eq_nil. by rewrite Hrnil, Hne.
  - by rewrite map_app, applyKeyOps_app, Happ.
Qed.

Lemma status_ops_plain (ops : list PatchOp) (P : PatchOp → Prop) : ops = [] → Forall P ops.
Proof. by intros ->. Qed.

Lemma refreshStats_plain after leaf status r ops :
  refreshStats after leaf status = Some (r, ops) → Forall plain_op ops ∧ (ops = [] → r = status).
Proof.
  unfold refreshStats. intros (stats & _ & H)%bind_Some. case_match; simplify_eq; [done|].
  split; [|done]. apply Forall_singleton. right. right. by exists "stats", stats.
Qed.

Lemma refreshName_plain snapshot after status :
  Forall plain_op (refreshName snapshot after status).2 ∧
  ((refreshName snapshot after status).2 = [] → (refreshName snapshot after status).1 = status).
Proof.
  unfold refreshName. destruct (existsb _ snapshot); cbv zeta; [|done]. case_match; [done|].
  split; [|done]. apply Forall_singleton. right. right. by eexists "name", _.
Qed.

Lemma refreshLeaf_plain leaf status :
  Forall plain_op (refreshLeaf leaf status).2 ∧
  ((refreshLeaf leaf status).2 = [] → (refreshLeaf leaf status).1 = status).
Proof.
  unfold refreshLeaf. case_match; [done|].
  split; [|done]. apply Forall_singleton. right. right. by eexists "leafId", _.
Qed.

Lemma makeDocument_own status E : docEntries (makeDocument status E) = E ∧ get (makeDocument status E) "status" = status.
Proof. split; [apply makeDocument_entries|apply makeDocument_status]. Qed.

(** The status half of a refresh. *)
Lemma refreshStatus_spec snapshot after leaf s (changed : bool) status ops :
  (if changed then refreshStats after leaf (JObj s) else Some (JObj s, [])) = Some (status, ops) →
  let '(status2, nameOps) := refreshName snapshot after status in
  let '(status3, leafOps) := refreshLeaf leaf status2 in
  ∃ s', status3 = JObj s' ∧ leafField status3 = of_opt_str leaf ∧
    Forall plain_op (ops ++ nameOps ++ leafOps) ∧ (ops ++ nameOps ++ leafOps = [] → s' = s) ∧
    applyKeyOps (makeDocument (JObj s) after) (map keyOp (ops ++ nameOps ++ leafOps)) = makeDocument status3 after.
Proof.
  intros Hst.
  assert (∃ s1, status = JObj s1 ∧ applyKeyOps (makeDocument (JObj s) after) (map keyOp ops) = makeDocument status after ∧
          Forall plain_op ops ∧ (ops = [] → status = JObj s)) as (s1 & -> & Happ1 & Hp1 & Hn1).
  { destruct changed; [|simplify_eq; eauto 6].
    destruct (refreshStats_spec s after after leaf _ _ Hst) as (s1 & -> & _ & Happ).
    destruct (refreshStats_plain _ _ _ _ _ Hst). eauto 6. }
  pose proof (refreshName_spec s1 after snapshot after) as H2. pose proof (refreshName_plain snapshot after (JObj s1)) as [Hp2 Hn2].
  destruct (refreshName snapshot after (JObj s1)) as [status2 nameOps]. destruct H2 as (s2 & -> & _ & Happ2).
  pose proof (refreshLeaf_spec s2 after leaf) as H3. pose proof (refreshLeaf_plain leaf (JObj s2)) as [Hp3 Hn3].
  destruct (refreshLeaf leaf (JObj s2)) as [status3 leafOps]. destruct H3 as (s3 & -> & Hleaf & Happ3).
  exists s3. split; [done|]. split; [done|]. simpl in *. split; [|split].
  - by rewrite !Forall_app.
  - intros [->[-> ->]%app_eq_nil]%app_eq_nil.
    specialize (Hn1 eq_refl). specialize (Hn2 eq_refl). specialize (Hn3 eq_refl). congruence.
  - by rewrite !map_app, !applyKeyOps_app, Happ1, Happ2.
Qed.

Lemma refresh_spec st snapshot st' patch s E :
  document st = makeDocument (JObj s) E → map_Forall (λ k _, plain_key k = true) E →
  Forall storable (entries snapshot) → refresh st snapshot = Some (st', patch) →
  let rw := isRewrite st snapshot in
  let live' := foldl (λ acc e, liveDelete (entryId e) acc) (live st) (entries snapshot) in
  let after := refreshedEntries rw (if rw then 0 else position st) (entries snapshot) live' E in
  let st1 := mkProjection (document st) live' (leafId snapshot) (next snapshot) (Some (snapshotVersion snapshot))
               (if rw then None else selectedPath st) in
  ∃ s' leaf c,
    effectiveLeaf after st1 = Some (leaf, withSelected c st1) ∧
    st' = withDocument (makeDocument (JObj s') after) (withSelected c st1) ∧
    leafField (JObj s') = of_opt_str leaf ∧
    match patch with
    | None => s' = s ∧ after = E
    | Some ops => ops ≠ [] ∧ Forall plain_op ops ∧ applyPatch (document st) ops = Some (document st')
    end.
Proof.
  intros Hdoc Hplain Hl Hr rw live' after st1. unfold refresh in Hr.
  assert (docEntries (document st) = E ∧ get (document st) "status" = JObj s) as [HE Hs]
    by (rewrite Hdoc; apply makeDocument_own).
  rewrite HE, Hs in Hr. fold rw in Hr.
  destruct (installLoop _ _ _ _) as [[live0 installed] ops] eqn:Hloop.
  pose proof (refreshed_ops rw _ _ _ _ (JObj s) _ _ _ Hplain Hl Hloop) as Hops.
  destruct (if rw then removeStale _ _ _ else _) as [after0 removals]. destruct Hops as (-> & -> & Hpl & Hnil & Happ).
  apply bind_Some in Hr as ([leaf stc] & Hleaf & Hr).
  apply bind_Some in Hr as ([status ops1] & Hst & Hr).
  fold live' after st1 in Hleaf, Hr, Hst, Happ, Hnil.
  destruct (effectiveLeaf_frame _ _ _ _ Hleaf) as [c ->].
  match type of Hst with (if ?b then _ else _) = _ => set (changed := b) in Hst end.
  assert (∃ sops, ops1 = (ops ++ removals) ++ sops ∧
    (if changed then refreshStats after leaf (JObj s) else Some (JObj s, [])) = Some (status, sops)) as (sops & -> & Hst').
  { destruct changed; [|exists []; rewrite app_nil_r; by simplify_eq].
    apply bind_Some in Hst as ([status' sops] & Hst & [= <- <-]). by exists sops. }
  pose proof (refreshStatus_spec (entries snapshot) after leaf s _ _ _ Hst') as Hstatus.
  destruct (refreshName _ after status) as [status2 nops]. destruct (refreshLeaf leaf status2) as [status3 lops].
  destruct Hstatus as (s' & -> & Hlf & Hpl' & Hnil' & Happ'). exists s', leaf, c. split; [done|].
  rewrite <- !app_assoc, (app_assoc ops) in Hr.
  assert (Forall plain_op ((ops ++ removals) ++ sops ++ nops ++ lops)) as Hall_plain by by apply Forall_app.
  assert (applyPatch (document st) ((ops ++ removals) ++ sops ++ nops ++ lops) = Some (makeDocument (JObj s') after)) as Hpatch.
  { rewrite Hdoc. apply applyPatch_entry_ops; [by apply Forall_app|].
    by rewrite map_app, applyKeyOps_app, Happ. }
  destruct ((ops ++ removals) ++ sops ++ nops ++ lops) as [|op rest] eqn:Hall.
  - apply app_eq_nil in Hall as [H1 H2]. simplify_eq. specialize (Hnil H1). specialize (Hnil' H2). subst s'.
    split; [|done]. rewrite Hnil, <- Hdoc. by destruct st.
  - by simplify_eq.
Qed.

(** A document of this bridge: an object status, and entries whose ids a path
    can name. *)
Definition is_document (doc : json) : Prop :=
  ∃ s E, doc = makeDocument (JObj s) E ∧ map_Forall (λ k _, plain_key k = true) E.

(** ** Properties *)

(** C4.  The patch a refresh broadcasts is the change it makes: [refresh] builds
    the new document directly, copying the entry map once, and its patch, applied
    operation by operation to the old document, always applies and gives exactly
    that document; when there is no patch the document did not change. *)
Theorem refresh_patch st snapshot st' patch :
  is_document (document st) → Forall storable (entries snapshot) →
  refresh st snapshot = Some (st', patch) →
  match patch with
  | None => document st' = document st
  | Some ops => applyPatch (document st) ops = Some (document st')
  end.
Proof.
  intros (s & E & Hdoc & Hp) Hl Hr.
  destruct (refresh_spec _ _ _ _ _ _ Hdoc Hp Hl Hr) as (s' & leaf & c & _ & -> & _ & Hpatch).
  destruct patch as [ops|]; [apply Hpatch|]. destruct Hpatch as [-> ->]. by rewrite Hdoc.
Qed.

Lemma refresh_patch_witness :
  let e id parent := object [("type", JStr "session_info"); ("id", JStr id); ("parentId", parent); ("name", JStr "n")] in
  let doc := makeDocument (object [("leafId", JStr "x"); ("name", JStr "")]) {["x" := object [("id", JStr "x")]]} in
  let st := mkProjection doc [] (Some "x") 1 (Some 4) None in
  let snapshot := mkSnapshot [e "a" JNull; e "b" (JStr "a")] 2 (Some "b") 5 in
  ∃ st' ops, refresh st snapshot = Some (st', Some ops) ∧ applyPatch (document st) ops = Some (document st').
Proof.
  intros e doc st snapshot.
  destruct (refresh st snapshot) as [[st' [ops|]]|] eqn:Hr; [|exfalso; vm_compute in Hr; discriminate..].
  exists st', ops. split; [done|]. apply (refresh_patch st snapshot st' (Some ops)); [|..|exact Hr].
  - eexists _, _. split; [reflexivity|]. apply map_Forall_singleton. reflexivity.
  - repeat (apply Forall_cons; split; [split; [split; [reflexivity|discriminate]|reflexivity]|]). by apply Forall_nil.
Defined.
