(* ===== verification/Converge.v ===== *)
(** * Convergence of the projection

    The projection next to the session log it mirrors: a step relation over
    appends, branch switches, wholesale replacements, live events, refreshes and
    settles, and the invariant every reachable state has.  A live event is
    admitted with the guarantee [SessionManager.reserveEntryId] documents: the
    id of a new live form is handed out once, so nothing mentions it yet, and an
    update names an entry that is there. *)

From S2P Require Export Refresh.

(** ** The log *)

(** Every parent is stored before its child. *)
Definition closed_log (l : list json) : Prop :=
  ∀ i e q, l !! i = Some e → opt_str (get e "parentId") = Some q →
    ∃ j e', j < i ∧ l !! j = Some e' ∧ entryId e' = q.

Definition stored_log (l : list json) : Prop :=
  Forall storable l ∧ NoDup (map entryId l) ∧ closed_log l.

Definition selects (l : list json) (leaf : option string) : Prop :=
  match leaf with Some id => id ∈ map entryId l | None => True end.

(** The entries a log projects to. *)
Definition sealedEntries (l : list json) : record := installEntries 0 l ∅.

(** ** Steps *)

(** Nothing in the document mentions the id. *)
Definition unused (doc : json) (id : string) : Prop :=
  docEntries doc !! id = None ∧ get (get doc "status") "leafId" ≠ JStr id ∧
  ∀ j e, docEntries doc !! j = Some e → opt_str (get e "parentId") ≠ Some id.

Definition admitted (doc : json) (event : SessionLifecycleEvent) : Prop :=
  from_option plain_key true (eventEntryId event) = true ∧
  match eventCreates doc event with
  | Some (id, _) => unused doc id
  | None => ∀ id, eventEntryId event = Some id → is_Some (docEntries doc !! id)
  end.

Inductive sys_step : SessionLog * Projection → SessionLog * Projection → Prop :=
| step_append l leaf v st e :
    stored_log (l ++ [e]) → sys_step (mkLog l leaf v, st) (mkLog (l ++ [e]) (Some (entryId e)) v, st)
| step_branch l leaf leaf' v st :
    selects l leaf' → sys_step (mkLog l leaf v, st) (mkLog l leaf' v, st)
| step_replace l l' leaf leaf' v st :
    stored_log l' → selects l' leaf' → sys_step (mkLog l leaf v, st) (mkLog l' leaf' (S v), st)
| step_event L st event st' patch :
    admitted (document st) event → projectEvent st event = Some (st', patch) → sys_step (L, st) (L, st')
| step_refresh L st st' patch :
    refreshFrom st (readEntries L) = Some (st', patch) → sys_step (L, st) (L, st')
| step_settle L st st' patch :
    settle st = Some (st', patch) → sys_step (L, st) (L, st').

Inductive reachable : SessionLog → Projection → Prop :=
| reach_init l leaf v s :
    stored_log l → selects l leaf →
    reachable (mkLog l leaf v) (createEntryProjection (makeDocument (JObj s) ∅))
| reach_step L st L' st' : reachable L st → sys_step (L, st) (L', st') → reachable L' st'.

(** ** The invariant *)

Definition parentOf (E : record) (id : string) : option string :=
  match E !! id with Some e => opt_str (get e "parentId") | None => None end.

(** A live form's parent is not itself and not a younger live form. *)
Fixpoint parents_earlier (E : record) (live_ : list string) : Prop :=
  match live_ with
  | [] => True
  | x :: rest => (∀ y, parentOf E x = Some y → y ∉ x :: rest) ∧ parents_earlier E rest
  end.

(** The entries are the installed prefix [l] of a log, sealed and in place, and
    the live forms. *)
Record entries_inv (l : list json) (live_ : list string) (E : record) : Prop :=
  { inv_stored : stored_log l;
    inv_sealed : sealedEntries l ⊆ E;
    inv_disjoint : ∀ id, id ∈ live_ → id ∉ map entryId l;
    inv_live : ∀ id, id ∈ live_ → plain_key id = true ∧
                 ∃ m, E !! id = Some (JObj m) ∧ isEntrySealed (JObj m) = false;
    inv_covered : ∀ id, is_Some (E !! id) → id ∈ live_ ∨ id ∈ map entryId l;
    inv_nodup : NoDup live_;
    inv_order : parents_earlier E live_ }.

(** A cached selected path is the path of its leaf. *)
Definition cache_inv (l : list json) (c : option (option string * gset string)) : Prop :=
  match c with
  | None => True
  | Some (leaf, ids) =>
    selects l leaf ∧ ancestorIds (walkFuel (sealedEntries l)) (sealedEntries l) leaf = Some ids
  end.

Definition projection_inv (l : list json) (st : Projection) : Prop :=
  (∃ s E, document st = makeDocument (JObj s) E ∧ entries_inv l (live st) E) ∧
  cache_inv l (selectedPath st) ∧ selects l (piLeaf st) ∧ position st = length l.

Definition sys_inv (L : SessionLog) (st : Projection) : Prop :=
  stored_log (log L) ∧ selects (log L) (logLeaf L) ∧
  ∃ l, projection_inv l st ∧
    match version st with
    | None => l = []
    | Some v => v ≤ entriesVersion L ∧ (v = entriesVersion L → ∃ suffix, log L = l ++ suffix)
    end.

(** ** Lemmas on the log *)

Lemma sealed_lookup l i p :
  stored_log l → l !! i = Some p → sealedEntries l !! entryId p = Some (projectEntry p i).
Proof.
  intros (_ & Hnd & _) Hi. destruct (installEntries_lookup 0 l ∅ (entryId p) Hnd) as [H _]. by apply (H i p Hi).
Qed.

Lemma sealed_inv l id e :
  stored_log l → sealedEntries l !! id = Some e →
  ∃ i p, l !! i = Some p ∧ entryId p = id ∧ e = projectEntry p i.
Proof.
  intros (_ & Hnd & _) He. by apply installEntries_in in He as [?|[? ?]].
Qed.

Lemma sealed_dom l id : stored_log l → is_Some (sealedEntries l !! id) ↔ id ∈ map entryId l.
Proof.
  intros Hl. split.
  - intros [e (i & p & Hi & <- & _)%sealed_inv]; [|done].
    apply (list_elem_of_fmap_2 entryId). by eapply list_elem_of_lookup_2.
  - intros (p & -> & [i Hi]%list_elem_of_lookup)%list_elem_of_fmap. erewrite sealed_lookup; eauto.
Qed.

(** The installed entries are closed under parents. *)
Lemma sealed_closed l id e q :
  stored_log l → sealedEntries l !! id = Some e → opt_str (get e "parentId") = Some q →
  is_Some (sealedEntries l !! q).
Proof.
  intros Hl (i & p & Hi & <- & ->)%sealed_inv Hq; [|done]. rewrite projectEntry_parent in Hq.
  destruct Hl as (Hs & Hnd & Hc). destruct (Hc i p q Hi Hq) as (j & p' & _ & Hj & <-).
  eexists. by apply sealed_lookup.
Qed.

Lemma stored_log_app_inv l l' : stored_log (l ++ l') → stored_log l.
Proof.
  intros (Hs & Hnd & Hc). split; [|split].
  - by apply Forall_app in Hs as [? _].
  - rewrite map_app in Hnd. by apply NoDup_app in Hnd as [? _].
  - intros i e q Hi Hq. pose proof (lookup_lt_Some _ _ _ Hi).
    destruct (Hc i e q) as (j & e' & Hj & He' & <-); [by rewrite lookup_app_l|done|].
    rewrite lookup_app_l in He' by lia. eauto.
Qed.

Lemma installEntries_app base l l' E :
  installEntries base (l ++ l') E = installEntries (base + length l) l' (installEntries base l E).
Proof.
  revert base E. induction l as [|e l IH]; intros base E; simpl; [by rewrite Nat.add_0_r|].
  rewrite IH. by rewrite Nat.add_succ_r.
Qed.

Lemma sealed_prefix l l' : stored_log (l ++ l') → sealedEntries l ⊆ sealedEntries (l ++ l').
Proof.
  intros Hl. apply map_subseteq_spec. intros id e He.
  apply sealed_inv in He as (i & p & Hi & <- & ->); [|by eapply stored_log_app_inv].
  apply sealed_lookup; [done|]. by apply lookup_app_l_Some.
Qed.

(** ** Lemmas on entry maps *)

Lemma parents_earlier_acyclic E live_ :
  parents_earlier E live_ →
  ∃ rank : string → nat, (∀ id, rank id ≤ length live_) ∧
    ∀ x y, x ∈ live_ → y ∈ live_ → parentOf E x = Some y → rank y < rank x.
Proof.
  induction live_ as [|h rest IH]; intros Hp.
  - exists (λ _, 0). set_solver.
  - destruct Hp as [Hh Hp]. destruct (IH Hp) as (rank & Hb & Hr).
    exists (λ id, if decide (id = h) then 0 else S (rank id)). split.
    + intros id. case_decide; simpl; [lia|]. specialize (Hb id). lia.
    + intros x y Hx Hy Hxy. destruct (decide (x = h)) as [->|]; [by destruct (Hh y Hxy)|].
      case_decide; [lia|].
      assert (rank y < rank x); [|lia]. apply Hr; set_solver.
Qed.

Lemma entries_inv_sealed_at l live_ E i p :
  entries_inv l live_ E → l !! i = Some p → E !! entryId p = Some (projectEntry p i).
Proof.
  intros [Hl Hs _ _ _ _ _] Hi. eapply map_subseteq_spec; [exact Hs|]. by apply sealed_lookup.
Qed.

Lemma entries_inv_case l live_ E id e :
  entries_inv l live_ E → E !! id = Some e →
  (id ∈ live_ ∧ ∃ m, e = JObj m ∧ isEntrySealed e = false) ∨
  (∃ i p, l !! i = Some p ∧ entryId p = id ∧ e = projectEntry p i).
Proof.
  intros Hinv He. destruct Hinv as [Hl Hs Hd Hlive Hc Hn Ho] eqn:Heq. clear Heq.
  destruct (Hc id (mk_is_Some _ _ He)) as [Hin|Hin].
  - left. split; [done|]. destruct (Hlive id Hin) as (_ & m & Hm & Hu). rewrite He in Hm. simplify_eq. eauto.
  - right. apply (sealed_dom _ _ Hl) in Hin as [e' He']. pose proof He' as He''.
    apply sealed_inv in He' as (i & p & Hi & <- & ->); [|done]. exists i, p.
    pose proof (proj1 (map_subseteq_spec _ _) Hs _ _ He''). split; [done|]. split; congruence.
Qed.

Lemma entries_inv_object l live_ E id e : entries_inv l live_ E → E !! id = Some e → ∃ m, e = JObj m.
Proof.
  intros Hinv He. destruct (entries_inv_case _ _ _ _ _ Hinv He) as [(_ & m & -> & _)|(i & p & _ & _ & ->)]; eauto.
Qed.

(** A parent of an installed entry is an earlier installed entry. *)
Lemma entries_inv_acyclic l live_ E : entries_inv l live_ E → acyclic E.
Proof.
  intros Hinv. pose proof Hinv as [Hl Hs Hd Hlive Hc Hn Ho].
  destruct (parents_earlier_acyclic _ _ Ho) as (rank & Hb & Hr).
  set (index id := match list_find (λ e, entryId e = id) l with Some (i, _) => i | None => 0 end).
  assert (Hindex : ∀ i p, l !! i = Some p → index (entryId p) = i).
  { intros i p Hi. unfold index. destruct Hl as (_ & Hnd & _).
    assert (list_find (λ e, entryId e = entryId p) l = Some (i, p)) as ->; [|done].
    apply list_find_Some. split; [done|]. split; [done|]. intros j q Hj Hlt Heq.
    apply (NoDup_lookup _ i j (entryId p)) in Hnd; [lia|..];
      change (map entryId l) with (entryId <$> l); rewrite list_lookup_fmap; [by rewrite Hi|].
    rewrite Hj. simpl. congruence. }
  exists (λ id, if decide (id ∈ live_) then length l + rank id else index id).
  intros id e p He Hp [e' He'].
  destruct (entries_inv_case _ _ _ _ _ Hinv He) as [(Hin & _)|(i & q & Hi & <- & ->)].
  - rewrite (decide_True _ _ Hin). case_decide as Hin'.
    + assert (rank p < rank id); [|lia]. apply Hr; [done|done|]. unfold parentOf. by rewrite He.
    + destruct (entries_inv_case _ _ _ _ _ Hinv He') as [[? _]|(j & q & Hj & <- & _)]; [done|].
      rewrite (Hindex _ _ Hj). apply lookup_lt_Some in Hj. lia.
  - rewrite projectEntry_parent in Hp. destruct Hl as (_ & _ & Hcl).
    destruct (Hcl i q p Hi Hp) as (j & q' & Hlt & Hj & <-).
    assert (∀ k x, l !! k = Some x → entryId x ∉ live_) as Hnl.
    { intros k x Hk Hin. apply (Hd _ Hin). apply (list_elem_of_fmap_2 entryId). by eapply list_elem_of_lookup_2. }
    rewrite !decide_False by eauto. by rewrite (Hindex _ _ Hi), (Hindex _ _ Hj).
Qed.

(** ** Walks *)

Lemma ancestorIds_mono n m E c ids : ancestorIds n E c = Some ids → n ≤ m → ancestorIds m E c = Some ids.
Proof.
  revert m c ids. induction n as [|n IH]; intros m c ids; [done|]. destruct m as [|m]; [lia|]. intros H Hle.
  simpl in *. destruct c as [id|]; [|done]. destruct (E !! id); [|done].
  apply bind_Some in H as (ids' & H & <-). by rewrite (IH m _ _ H) by lia.
Qed.

Lemma ancestorIds_total E c : acyclic E → ∃ ids, ancestorIds (walkFuel E) E c = Some ids.
Proof.
  intros Ha. apply (acyclic_chain_ind E (λ n c, ∃ ids, ancestorIds n E c = Some ids) Ha); [..|done].
  - intros n. by exists ∅.
  - intros n id Hid. simpl. rewrite Hid. by eexists.
  - intros n id e Hid [ids Hids]. simpl. rewrite Hid, Hids. by eexists.
Qed.

Lemma ancestorIds_sub n S E c :
  S ⊆ E → (∀ id e q, S !! id = Some e → opt_str (get e "parentId") = Some q → is_Some (S !! q)) →
  (∀ id, c = Some id → is_Some (S !! id)) → ancestorIds n S c = ancestorIds n E c.
Proof.
  intros Hsub Hcl. revert c. induction n as [|n IH]; intros c Hc; [done|]. simpl.
  destruct c as [id|]; [|done]. destruct (Hc id eq_refl) as [e He].
  rewrite He, (proj1 (map_subseteq_spec _ _) Hsub _ _ He). rewrite IH; [done|].
  intros q Hq. by eapply Hcl.
Qed.

Lemma walkFuel_sub (S E : record) : S ⊆ E → walkFuel S ≤ walkFuel E.
Proof. intros H. unfold walkFuel. apply le_n_S. by apply map_subseteq_size. Qed.

Lemma sealed_inv_self l : stored_log l → entries_inv l [] (sealedEntries l).
Proof.
  intros Hl. split; try done; [set_solver|set_solver| |constructor].
  intros id Hid. right. by apply sealed_dom.
Qed.

(** The selected path of an installed leaf is the same in every map that
    extends the installed entries. *)
Lemma ancestorIds_sealed l E leaf :
  stored_log l → sealedEntries l ⊆ E → selects l leaf →
  ∃ ids, ancestorIds (walkFuel E) E leaf = Some ids ∧
         ancestorIds (walkFuel (sealedEntries l)) (sealedEntries l) leaf = Some ids.
Proof.
  intros Hl Hsub Hsel.
  destruct (ancestorIds_total (sealedEntries l) leaf) as [ids Hids].
  { eapply entries_inv_acyclic, sealed_inv_self, Hl. }
  exists ids. split; [|done].
  rewrite <- (ancestorIds_sub _ (sealedEntries l)).
  - eapply ancestorIds_mono; [exact Hids|]. by apply walkFuel_sub.
  - done.
  - intros id e q. by apply sealed_closed.
  - intros id ->. by apply sealed_dom.
Qed.

Lemma cache_inv_prefix l l' c : stored_log (l ++ l') → cache_inv l c → cache_inv (l ++ l') c.
Proof.
  intros Hl. destruct c as [[leaf ids]|]; [|done]. intros [Hsel Hids]. split.
  - destruct leaf; [|done]. simpl in *. rewrite map_app. set_solver.
  - assert (stored_log l) as Hl0 by by eapply stored_log_app_inv.
    destruct (ancestorIds_sealed l (sealedEntries (l ++ l')) leaf Hl0 (sealed_prefix _ _ Hl) Hsel) as (ids' & H1 & H2).
    congruence.
Qed.

Lemma firstSealed_total E live_ c : acyclic E → ∃ r, firstSealed (S (walkFuel E)) E live_ c = Some r.
Proof.
  intros Ha. apply (acyclic_chain_ind E (λ n c, ∃ r, firstSealed (S n) E live_ c = Some r) Ha); [..|done].
  - intros n. by exists None.
  - intros n id Hid. cbn [firstSealed]. rewrite Hid. case_decide; eauto.
  - intros n id e Hid [r Hr]. cbn [firstSealed] in *. rewrite Hid. case_decide; eauto.
Qed.

Lemma attachedLive_total E live_ selected ids :
  acyclic E → ∃ r, attachedLive E live_ selected ids = Some r ∧ (∀ id, r = Some id → id ∈ ids).
Proof.
  intros Ha. induction ids as [|id ids (r & IH & Hin)]; [by exists None|]. cbn [attachedLive].
  destruct (firstSealed_total E live_ (Some id) Ha) as [c ->]. cbn [mbind option_bind].
  rewrite IH. assert (∀ id', r = Some id' → id' ∈ id :: ids) by set_solver.
  destruct c as [c|]; [|eauto]. case_decide; [|eauto]. eexists. split; [done|]. set_solver.
Qed.

(** The effective leaf exists, is a live form or pi's leaf, and the cache it
    leaves is right. *)
Lemma effectiveLeaf_total l E st :
  stored_log l → sealedEntries l ⊆ E → acyclic E → cache_inv l (selectedPath st) → selects l (piLeaf st) →
  ∃ leaf c, effectiveLeaf E st = Some (leaf, withSelected c st) ∧ cache_inv l c ∧
    (leaf = piLeaf st ∨ ∃ id, leaf = Some id ∧ id ∈ live st) ∧
    ∃ c', effectiveLeaf E (withSelected None st) = Some (leaf, withSelected c' (withSelected None st)).
Proof.
  intros Hl Hsub Ha Hc Hsel. destruct (ancestorIds_sealed l E (piLeaf st) Hl Hsub Hsel) as (ids & Hids & Hids').
  assert (∃ c, selectedPathOf E st = Some (ids, withSelected c st) ∧ cache_inv l c) as (c & Hpath & Hc').
  { unfold selectedPathOf. rewrite Hids. cbn [mbind option_bind].
    assert (cache_inv l (Some (piLeaf st, ids))) by done.
    destruct (selectedPath st) as [[lf ids0]|] eqn:Hs; [|by eexists]. case_decide; [|by eexists]. subst lf.
    destruct Hc as [_ Hc]. exists (selectedPath st). rewrite Hs. split; [|done].
    assert (ids0 = ids) as -> by congruence. rewrite <- Hs. by destruct st. }
  assert (selectedPathOf E (withSelected None st) = Some (ids, withSelected (Some (piLeaf st, ids)) (withSelected None st)))
    as Hfresh by (unfold selectedPathOf; cbn [withSelected selectedPath piLeaf]; by rewrite Hids).
  unfold effectiveLeaf. rewrite Hpath, Hfresh. cbn [withSelected live piLeaf]. destruct (live st) as [|x rest] eqn:Hlive.
  - exists (piLeaf st), (selectedPath st). split; [by destruct st|]. split; [done|]. split; [by left|].
    exists None. done.
  - destruct (attachedLive_total E (x :: rest) ids (rev (x :: rest)) Ha) as (r & Hr & Hin).
    cbn [mbind option_bind]. rewrite Hr. cbn [mbind option_bind].
    eexists _, c. split; [done|]. split; [done|]. split; [|by eexists].
    destruct r as [id|]; [|by left]. right. exists id. split; [done|].
    specialize (Hin id eq_refl). rewrite rev_alt in Hin.
    by apply (elem_of_reverse id (x :: rest)).
Qed.

(** ** Live forms under events *)

(** Sealed entries are the same, and the live forms keep their fixed fields. *)
Definition same_forms (live_ : list string) (E E' : record) : Prop :=
  (∀ id, id ∉ live_ → E' !! id = E !! id) ∧
  ∀ id m, id ∈ live_ → E !! id = Some (JObj m) →
    ∃ m', E' !! id = Some (JObj m') ∧ ∀ f, f ∈ fixedFields → m' !! f = m !! f.

#[export] Instance same_forms_refl live_ : Reflexive (same_forms live_).
Proof. intros E. split; [done|]. eauto. Qed.

#[export] Instance same_forms_trans live_ : Transitive (same_forms live_).
Proof.
  intros E1 E2 E3 [Ho1 Hl1] [Ho2 Hl2]. split.
  - intros id Hid. by rewrite Ho2, Ho1.
  - intros id m Hid Hm. destruct (Hl1 id m Hid Hm) as (m2 & Hm2 & Hf2).
    destruct (Hl2 id m2 Hid Hm2) as (m3 & Hm3 & Hf3). exists m3. split; [done|].
    intros f Hf. by rewrite Hf3, Hf2.
Qed.

Lemma fixed_get m m' f : (∀ f, f ∈ fixedFields → m' !! f = m !! f) → f ∈ fixedFields → get (JObj m') f = get (JObj m) f.
Proof. intros H Hf. simpl. by rewrite H. Qed.

Lemma parents_earlier_ext E E' live_ :
  (∀ x, x ∈ live_ → parentOf E' x = parentOf E x) → parents_earlier E live_ → parents_earlier E' live_.
Proof.
  induction live_ as [|x rest IH]; intros H; [done|]. intros [Hx Hr]. split.
  - intros y Hy. apply Hx. by rewrite <- H by set_solver.
  - apply IH; [set_solver|done].
Qed.

Lemma same_forms_inv l live_ E E' : entries_inv l live_ E → same_forms live_ E E' → entries_inv l live_ E'.
Proof.
  intros Hinv [Ho Hf]. pose proof Hinv as [Hl Hs Hd Hlive Hc Hn Hord]. split; try done.
  - apply map_subseteq_spec. intros id e He. rewrite Ho.
    + by apply (proj1 (map_subseteq_spec _ _) Hs).
    + intros Hin. apply (Hd _ Hin). by apply sealed_dom.
  - intros id Hid. destruct (Hlive id Hid) as (Hp & m & Hm & Hu). split; [done|].
    destruct (Hf id m Hid Hm) as (m' & Hm' & Hfix). exists m'. split; [done|].
    unfold isEntrySealed in *. by rewrite (fixed_get m) by (done || set_solver).
  - intros id [e He]. destruct (decide (id ∈ live_)); [by left|]. rewrite Ho in He by done. eauto.
  - eapply parents_earlier_ext; [|done]. intros x Hx. destruct (Hlive x Hx) as (_ & m & Hm & _).
    destruct (Hf x m Hx Hm) as (m' & Hm' & Hfix). unfold parentOf. rewrite Hm, Hm'.
    by rewrite (fixed_get m) by (done || set_solver).
Qed.

(** One operation that updates a live form, or sets a status field. *)
Lemma effect_step doc event op live_ s E :
  eventCreates doc event = None → event_effect doc event op →
  from_option plain_key true (eventEntryId event) = true →
  (∀ id, eventEntryId event = Some id → id ∈ live_ ∧ ∃ m, E !! id = Some (JObj m)) →
  ∃ s' E', applyKeyOp (makeDocument (JObj s) E) (keyOp op) = makeDocument (JObj s') E' ∧ same_forms live_ E E'.
Proof.
  intros Hnone Hop Hpl Hid. destruct Hop as [id e Hcr|id f op He _ Hf Hpf Hw|f v Hpf].
  - by rewrite Hnone in Hcr.
  - rewrite He in Hpl. simpl in Hpl. destruct (Hid id He) as (Hlive & m & Hm).
    destruct (within_keys ["entries"; id; f] op) as [rest Hop]; [done|done| |done|].
    { by repeat (apply Forall_cons; split; [done|]). }
    assert (Hr : resolves (makeDocument (JObj s) E) ["entries"; id]).
    { eexists. split; [reflexivity|]. split; [done|]. exists (JObj m). done. }
    assert (∃ op', keyOp op = under ["entries"; id] op' ∧ op_targets op' = true ∧
      ((∃ v, op' = KSet (f :: rest) v) ∨ op' = KRemove (f :: rest) ∨ (∃ t, op' = KAppend (f :: rest) t)))
      as (op' & -> & Ht & Hcase).
    { destruct Hop as [[v Hop]|[Hop|[t Hop]]]; rewrite Hop;
        [exists (KSet (f :: rest) v)|exists (KRemove (f :: rest))|exists (KAppend (f :: rest) t)]; eauto 6. }
    rewrite (applyKeyOp_under _ _ _ Hr Ht).
    assert (getKeys (makeDocument (JObj s) E) ["entries"; id] = JObj m) as ->.
    { cbn [getKeys nullish makeDocument object]. fold (docEntries (makeDocument (JObj s) E)).
      unfold makeDocument. read_object. cbn [nullish get]. by rewrite Hm. }
    destruct (applyKeyOp_frame m f rest op' Hcase) as (m' & -> & Hframe).
    exists s, (<[id := JObj m']> E). split; [apply document_set|]. split.
    + intros j Hj. rewrite lookup_insert_ne; [done|]. by intros ->.
    + intros j mj Hj Hmj. destruct (decide (j = id)) as [->|Hne]; [|by rewrite lookup_insert_ne; eauto].
      rewrite lookup_insert_eq. rewrite Hm in Hmj. simplify_eq. eexists. split; [done|].
      intros g Hg. apply Hframe. by intros ->.
  - exists (<[f := v]> s), E. split; [|done]. cbn [keyOp].
    rewrite parsePath_pair by done. apply document_status.
Qed.

Lemma effects_play doc event ops live_ s E :
  eventCreates doc event = None → Forall (event_effect doc event) ops →
  from_option plain_key true (eventEntryId event) = true →
  (∀ id, eventEntryId event = Some id → id ∈ live_ ∧ ∃ m, E !! id = Some (JObj m)) →
  ∃ s' E', applyKeyOps (makeDocument (JObj s) E) (map keyOp ops) = makeDocument (JObj s') E' ∧ same_forms live_ E E'.
Proof.
  intros Hnone Hops Hpl. revert s E. induction Hops as [|op ops Hop _ IH]; intros s E Hid.
  - exists s, E. done.
  - destruct (effect_step doc event op live_ s E Hnone Hop Hpl Hid) as (s1 & E1 & Happ & Hs1).
    destruct (IH s1 E1) as (s2 & E2 & Happ2 & Hs2).
    { intros id He. destruct (Hid id He) as (Hin & m & Hm). split; [done|].
      destruct (proj2 Hs1 id m Hin Hm) as (m' & Hm' & _). eauto. }
    exists s2, E2. split; [|by etrans].
    rewrite map_cons. change (applyKeyOps ?r (?o :: ?os)) with (applyKeyOps (applyKeyOp r o) os). by rewrite Happ.
Qed.

(** The operations of a start event: the form, then at most the leaf. *)
Lemma creates_ops doc event id e :
  eventCreates doc event = Some (id, e) →
  eventEntryId event = Some id ∧ isContentEvent event = true ∧
  (eventOps doc event = [AddOp (path_of ["entries"; id]) e] ∨
   eventOps doc event = [AddOp (path_of ["entries"; id]) e; ReplaceOp "/status/leafId" (JStr id)]) ∧
  ∃ m, e = JObj m ∧ isEntrySealed e = false ∧ get e "parentId" = get (get doc "status") "leafId".
Proof.
  intros H. destruct event; try done; cbn [eventCreates eventOps] in *;
    repeat (case_match; simplify_eq); (split; [done|]; split; [done|]; split; [by auto|]);
    eexists; (split; [reflexivity|]); unfold isEntrySealed, userMessageSkeleton, assistantMessageSkeleton, toolResultSkeleton;
    read_object; done.
Qed.

Lemma event_not_content doc event id :
  eventEntryId event = Some id → isContentEvent event = false → eventOps doc event = [].
Proof. by destruct event. Qed.

Lemma isAddAt_update doc event id op :
  eventCreates doc event = None → event_effect doc event op → eventEntryId event = Some id → isAddAt id op = false.
Proof.
  intros Hnone Hop Hid. destruct Hop as [id' e Hcr|id' f op He _ _ _ [Hext _]|f v _].
  - by rewrite Hnone in Hcr.
  - destruct op; try done. cbn [opPath isAddAt] in *. apply bool_decide_eq_false. intros ->.
    rewrite He in Hid. injection Hid as ->.
    assert (slength (path_of ["entries"; id]) < slength (path_of ["entries"; id; f])).
    { change ["entries"; id; f] with (["entries"; id] ++ [f]). rewrite path_of_app, slength_app.
      change (path_of [f]) with (String "/" (f +:+ "")). unfold slength at 3. simpl String.length. lia. }
    destruct Hext as [Hext|[t Hext]]; rewrite Hext in H; [lia|]. rewrite slength_app in H. lia.
  - done.
Qed.

Lemma parents_earlier_snoc E live_ id :
  parents_earlier E live_ → (∀ x, x ∈ live_ → parentOf E x ≠ Some id) → parentOf E id ≠ Some id →
  parents_earlier E (live_ ++ [id]).
Proof.
  intros Hp Hx Hid. induction live_ as [|x rest IH]; simpl.
  - split; [|done]. intros y Hy. set_solver.
  - destruct Hp as [Hh Hp]. split; [|apply IH; [done|set_solver]].
    intros y Hy Hin. specialize (Hh y Hy). assert (y ≠ id) by (intros ->; by apply (Hx x); [left|]).
    set_solver.
Qed.

Lemma create_inv l live_ s E id m :
  entries_inv l live_ E → unused (makeDocument (JObj s) E) id → plain_key id = true →
  isEntrySealed (JObj m) = false → get (JObj m) "parentId" = get (JObj s) "leafId" →
  liveAdd id live_ = live_ ++ [id] ∧ entries_inv l (live_ ++ [id]) (<[id := JObj m]> E).
Proof.
  intros Hinv (Hno & Hleaf & Hpar) Hp Hu Hm. destruct (makeDocument_own (JObj s) E) as [HE Hst].
  rewrite HE in Hno, Hpar. rewrite Hst in Hleaf. pose proof Hinv as [Hl Hs Hd Hlive Hc Hn Hord].
  assert (Hnl : id ∉ live_) by (intros Hin; destruct (Hlive id Hin) as (_ & ? & ? & _); congruence).
  assert (Hnl' : id ∉ map entryId l).
  { intros Hin. apply (sealed_dom _ _ Hl) in Hin as [e He].
    pose proof (proj1 (map_subseteq_spec _ _) Hs _ _ He). congruence. }
  split; [unfold liveAdd; by rewrite decide_False|]. split; try done.
  - apply map_subseteq_spec. intros j e He. rewrite lookup_insert_ne.
    + by apply (proj1 (map_subseteq_spec _ _) Hs).
    + intros <-. apply Hnl'. by apply sealed_dom.
  - set_solver.
  - intros j [Hj| ->%list_elem_of_singleton]%elem_of_app.
    + destruct (Hlive j Hj) as (? & m' & ? & ?). split; [done|]. exists m'.
      rewrite lookup_insert_ne; [done|]. by intros ->.
    + split; [done|]. exists m. by rewrite lookup_insert_eq.
  - intros j Hj. destruct (decide (j = id)) as [->|]; [left; set_solver|].
    rewrite lookup_insert_ne in Hj by done. destruct (Hc j Hj); [left; set_solver|by right].
  - apply NoDup_app. split; [done|]. split; [set_solver|apply NoDup_singleton].
  - apply parents_earlier_snoc.
    + eapply parents_earlier_ext; [|done]. intros x Hx. unfold parentOf.
      rewrite lookup_insert_ne; [done|]. by intros ->.
    + intros x Hx. unfold parentOf. rewrite lookup_insert_ne by (by intros ->).
      destruct (E !! x) eqn:He; [|done]. by apply Hpar in He.
    + unfold parentOf. rewrite lookup_insert_eq, Hm. destruct (get (JObj s) "leafId"); simpl; congruence.
Qed.

(** ** [applyEvent] keeps the invariant *)

Lemma leafOp_local st leaf event :
  Forall (event_local (eventEntryId event)) (leafOp st leaf) ∧
  ∀ s E, ∃ s', applyKeyOps (makeDocument (JObj s) E) (map keyOp (leafOp st leaf)) = makeDocument (JObj s') E.
Proof.
  unfold leafOp. case_match; [split; [done|eauto]|]. split.
  - apply Forall_singleton. right. split; [|done]. by apply within_status.
  - intros s E. eexists. apply document_status.
Qed.

(** The document after an admitted event that is not dropped. *)
Lemma event_entries l st s E event :
  document st = makeDocument (JObj s) E → entries_inv l (live st) E → admitted (document st) event →
  isContentEvent event && targetsSealed st event = false →
  let patch := eventOps (document st) event in
  let live' := match eventEntryId event with
               | Some id => if existsb (isAddAt id) patch then liveAdd id (live st) else live st
               | None => live st
               end in
  ∃ s' E', applyKeyOps (document st) (map keyOp patch) = makeDocument (JObj s') E' ∧ entries_inv l live' E'.
Proof.
  intros Hdoc Hinv [Hpl Hadm] Hts patch live'. rewrite Hdoc. subst patch live'.
  destruct (makeDocument_own (JObj s) E) as [HE Hst].
  destruct (eventCreates (document st) event) as [[id e]|] eqn:Hcr.
  - destruct (creates_ops _ _ _ _ Hcr) as (Hid & _ & Hops & m & -> & Hu & Hpar).
    rewrite Hid in *. simpl in Hpl.
    rewrite Hdoc, Hst in Hpar. rewrite Hdoc in Hadm.
    destruct (create_inv l (live st) s E id m Hinv Hadm Hpl Hu Hpar) as [Hadd Hinv'].
    assert (existsb (isAddAt id) (eventOps (document st) event) = true) as ->.
    { destruct Hops as [-> | ->]; simpl; by rewrite bool_decide_eq_true_2. }
    rewrite Hadd. destruct Hops as [-> | ->]; rewrite document_add by done.
    + exists s, (<[id:=JObj m]> E). done.
    + eexists _, (<[id:=JObj m]> E). split; [apply document_status|done].
  - pose proof (eventOps_effect (document st) event) as Heff.
    assert (Hlive : eventOps (document st) event ≠ [] → ∀ id, eventEntryId event = Some id →
      id ∈ live st ∧ ∃ m, E !! id = Some (JObj m)).
    { intros Hne id Hid. destruct (Hadm id Hid) as [e He]. rewrite Hdoc, HE in He.
      destruct (isContentEvent event) eqn:Hce; [|by rewrite (event_not_content _ _ _ Hid Hce) in Hne].
      destruct (entries_inv_case _ _ _ _ _ Hinv He) as [(Hin & m & -> & _)|(i & p & _ & _ & ->)]; [eauto|].
      unfold targetsSealed in Hts. by rewrite Hid, Hdoc, HE, He, projectEntry_isEntrySealed in Hts. }
    assert ((match eventEntryId event with
             | Some id => if existsb (isAddAt id) (eventOps (document st) event) then liveAdd id (live st) else live st
             | None => live st end) = live st) as ->.
    { destruct (eventEntryId event) as [id|] eqn:Hid; [|done].
      assert (existsb (isAddAt id) (eventOps (document st) event) = false) as ->; [|done].
      apply not_true_is_false. intros (op & Hin%list_elem_of_In & Hadd)%existsb_exists.
      rewrite Forall_forall in Heff. rewrite (isAddAt_update _ _ _ _ Hcr (Heff op Hin) Hid) in Hadd. done. }
    destruct (eventOps (document st) event) as [|op ops] eqn:Hops; [by exists s, E|].
    destruct (effects_play _ _ _ (live st) s E Hcr Heff Hpl (Hlive ltac:(done))) as (s' & E' & Happ & Hsame).
    exists s', E'. split; [done|]. by eapply same_forms_inv.
Qed.

Lemma projectEvent_inv l st event :
  projection_inv l st → admitted (document st) event →
  ∃ st' patch, projectEvent st event = Some (st', patch) ∧ projection_inv l st' ∧ version st' = version st.
Proof.
  intros ((s & E & Hdoc & Hinv) & Hcache & Hsel & Hpos) Hadm.
  destruct (makeDocument_own (JObj s) E) as [HE Hst].
  assert (Hself : projection_inv l st) by (split; [by eauto|done]).
  unfold projectEvent. destruct (isContentEvent event && targetsSealed st event) eqn:Hts; [by eauto 6|].
  destruct (event_entries l st s E event Hdoc Hinv Hadm Hts) as (s' & E' & Happ & Hinv').
  unfold applyEvent. destruct (decide (eventOps (document st) event = [])) as [Hnil|Hne];
    [rewrite Hnil; by eauto 6|].
  assert (match eventOps (document st) event with [] => None | o :: os => Some (o :: os) end
          = Some (eventOps (document st) event)) as -> by (by destruct (eventOps (document st) event)).
  match goal with |- context [effectiveLeaf _ ?x] => set (st1 := x) end.
  assert (Hst1 : document st1 = document st ∧ selectedPath st1 = selectedPath st ∧ piLeaf st1 = piLeaf st ∧
    position st1 = position st ∧ version st1 = version st ∧
    live st1 = match eventEntryId event with
               | Some id => if existsb (isAddAt id) (eventOps (document st) event) then liveAdd id (live st) else live st
               | None => live st end).
  { unfold st1. destruct (eventEntryId event); [|done]. by destruct (existsb _ _). }
  destruct Hst1 as (Hd1 & Hs1 & Hp1 & Hpos1 & Hv1 & Hl1).
  destruct (effectiveLeaf_total l E st1) as (leaf & c & Hleaf & Hc & _ & _);
    rewrite ?Hs1, ?Hp1; [by destruct Hinv|by destruct Hinv|by eapply entries_inv_acyclic|done|done|].
  rewrite Hd1, Hdoc, HE, <- Hdoc. rewrite Hleaf. cbn [mbind option_bind].
  destruct (leafOp_local (withSelected c st1) leaf event) as [Hloc Hplay].
  destruct (event_local_ops (document st) (eventEntryId event)
    (eventOps (document st) event ++ leafOp (withSelected c st1) leaf)) as (doc' & Hpatch & _ & _).
  - rewrite Hdoc. eexists _, E. split; [reflexivity|]. done.
  - apply Hadm.
  - apply Forall_app. split; [apply eventOps_local|done].
  - by intros [? _]%app_eq_nil.
  - pose proof (applyPatch_value _ _ _ Hpatch) as Hval. rewrite map_app, applyKeyOps_app, Happ in Hval.
    destruct (Hplay s' E') as [s'' Hplay']. rewrite Hplay' in Hval.
    unfold emit. cbn [withSelected document] in *. rewrite Hd1, Hpatch.
    destruct (eventOps (document st) event ++ _) as [|op' ops'] eqn:Hops';
      [by apply app_eq_nil in Hops' as [? _]|]. cbn [mbind option_bind].
    eexists _, _. split; [reflexivity|]. split; [|by rewrite <- Hv1].
    split; [|split; [|split]]; cbn [withDocument withSelected document live selectedPath piLeaf position].
    + exists s'', E'. split; [done|]. by rewrite Hl1.
    + done.
    + by rewrite Hp1.
    + by rewrite Hpos1.
Qed.

(** ** [refresh] keeps the invariant *)

Definition liveWithout (l : list json) (live_ : list string) : list string :=
  foldl (λ acc e, liveDelete (entryId e) acc) live_ l.

Lemma liveWithout_filter l live_ : liveWithout l live_ = filter (λ id, id ∉ map entryId l) live_.
Proof.
  revert live_. induction l as [|e l IH]; intros live_; unfold liveWithout; simpl.
  - induction live_ as [|x rest IH]; [done|]. rewrite filter_cons_True by set_solver. by f_equal.
  - change (foldl _ ?x l) with (liveWithout l x). rewrite IH. clear IH. unfold liveDelete.
    induction live_ as [|x rest IH]; [done|]. rewrite !filter_cons.
    destruct (decide (x ≠ entryId e)), (decide (x ∉ entryId e :: map entryId l)); try set_solver;
      rewrite ?filter_cons; [rewrite decide_True by set_solver; by f_equal|].
    rewrite decide_False by set_solver. done.
Qed.

Lemma elem_of_liveWithout l live_ id : id ∈ liveWithout l live_ ↔ (id ∈ live_ ∧ (id ∉ map entryId l)).
Proof. rewrite liveWithout_filter, list_elem_of_filter. naive_solver. Qed.

Lemma parents_earlier_filter E (P : string → Prop) `{!∀ x, Decision (P x)} live_ :
  parents_earlier E live_ → parents_earlier E (filter P live_).
Proof.
  induction live_ as [|x rest IH]; [done|]. intros [Hx Hr]. rewrite filter_cons. case_decide; [|by apply IH].
  split; [|by apply IH]. intros y Hy Hin. apply (Hx y Hy). rewrite elem_of_cons, list_elem_of_filter in *. naive_solver.
Qed.

(** Reading a map over which a list was installed. *)
Lemma install_lookup base l E id :
  NoDup (map entryId l) →
  installEntries base l E !! id =
    match list_find (λ e, entryId e = id) l with
    | Some (i, e) => Some (projectEntry e (base + i))
    | None => E !! id
    end.
Proof.
  intros Hnd. destruct (installEntries_lookup base l E id Hnd) as [H1 H2].
  destruct (list_find _ l) as [[i e]|] eqn:Hf.
  - apply list_find_Some in Hf as (Hi & He & _). by apply H1.
  - apply H2. intros (e & -> & [i He]%list_elem_of_lookup)%list_elem_of_fmap.
    apply list_find_None in Hf. rewrite Forall_lookup in Hf. by apply (Hf i e).
Qed.

Lemma install_ids base l E id :
  NoDup (map entryId l) → id ∉ map entryId l → installEntries base l E !! id = E !! id.
Proof. intros Hnd Hid. by destruct (installEntries_lookup base l E id Hnd) as [_ ->]. Qed.

(** What the two kinds of refresh have in common: the new map holds the log and
    agrees with the old one on the live forms that are left. *)
Lemma refreshed_inv l l' live_ E E' :
  entries_inv l live_ E → stored_log l' → sealedEntries l' ⊆ E' →
  let live' := filter (λ id, id ∉ map entryId l') live_ in
  (∀ id, id ∈ live' → E' !! id = E !! id) →
  (∀ id, is_Some (E' !! id) → id ∈ live' ∨ id ∈ map entryId l') →
  entries_inv l' live' E'.
Proof.
  intros [Hl Hs Hd Hlive Hc Hn Hord] Hl' Hsub live' Hsame Hcov. split; try done.
  - intros id Hid. by apply list_elem_of_filter in Hid as [? _].
  - intros id Hid. rewrite (Hsame id Hid). apply list_elem_of_filter in Hid as [_ Hid]. by apply Hlive.
  - by apply NoDup_filter.
  - apply parents_earlier_ext with (E := E); [|by apply parents_earlier_filter].
    intros x Hx. unfold parentOf. by rewrite (Hsame x Hx).
Qed.

Lemma append_inv l suffix live_ E :
  entries_inv l live_ E → stored_log (l ++ suffix) →
  entries_inv (l ++ suffix) (liveWithout suffix live_) (installEntries (length l) suffix E).
Proof.
  intros Hinv Hl. pose proof Hinv as [Hl0 Hs Hd Hlive Hc Hn Hord].
  assert (Hnd : NoDup (map entryId suffix)).
  { destruct Hl as (_ & Hnd & _). rewrite map_app in Hnd. by apply NoDup_app in Hnd as (_ & _ & ?). }
  assert (Hfilter : liveWithout suffix live_ = filter (λ id, id ∉ map entryId (l ++ suffix)) live_).
  { rewrite liveWithout_filter. clear -Hd. induction live_ as [|x rest IH]; [done|].
    rewrite !filter_cons, IH by set_solver. specialize (Hd x ltac:(set_solver)).
    rewrite map_app. repeat case_decide; set_solver. }
  rewrite Hfilter. eapply refreshed_inv; [done|done|..].
  - unfold sealedEntries. rewrite installEntries_app. simpl. apply map_subseteq_spec. intros id e He.
    rewrite install_lookup in He |- * by done. case_match; [by case_match|].
    by apply (proj1 (map_subseteq_spec _ _) Hs).
  - intros id Hid. apply install_ids; [done|]. apply list_elem_of_filter in Hid as [Hid _].
    rewrite map_app in Hid. set_solver.
  - intros id [e He]. destruct (decide (id ∈ map entryId (l ++ suffix))) as [|Hno]; [by right|left].
    rewrite install_ids in He; [|done|rewrite map_app in Hno; set_solver].
    apply list_elem_of_filter. split; [done|]. destruct (Hc id (mk_is_Some _ _ He)) as [|Hin]; [done|].
    rewrite map_app in Hno. set_solver.
Qed.

Lemma rewrite_inv l l' live_ E :
  entries_inv l live_ E → map_Forall (λ k _, plain_key k = true) E → stored_log l' →
  entries_inv l' (liveWithout l' live_) (refreshedEntries true 0 l' (liveWithout l' live_) E).
Proof.
  intros Hinv Hp Hl. pose proof Hinv as [Hl0 Hs Hd Hlive Hc Hn Hord]. pose proof Hl as (Hst & Hnd & _).
  assert (Hp' : map_Forall (λ k _, plain_key k = true) (installEntries 0 l' E)).
  { intros id e He. apply installEntries_in in He as [(i & p & Hi & <- & _)|[_ He]]; [|by eapply Hp|done].
    rewrite Forall_lookup in Hst. by destruct (Hst i p Hi). }
  unfold refreshedEntries.
  pose proof (removeStale_spec (map entryId l') (liveWithout l' live_) _ JNull Hp') as Hrm.
  destruct (removeStale _ _ _) as [E' ops]. destruct Hrm as (Hlook & _). cbn [fst].
  rewrite liveWithout_filter in *. eapply refreshed_inv; [done|done|..].
  - apply map_subseteq_spec. intros id e He. rewrite Hlook, decide_True.
    + unfold sealedEntries in He. rewrite install_lookup in He |- * by done. by case_match; [case_match|].
    + left. by apply sealed_dom.
  - intros id Hid. rewrite Hlook, decide_True by auto. apply install_ids; [done|].
    by apply list_elem_of_filter in Hid as [? _].
  - intros id [e He]. rewrite Hlook in He. case_decide; [naive_solver|done].
Qed.

Lemma deriveStats_acyclic E leaf : acyclic E → ∃ stats, deriveStatsForEntries (walkFuel E) E leaf = Some stats.
Proof.
  intros Ha. destruct (walkBranch_enough falsyId E leaf (walkFuel E) Ha ltac:(lia)) as (path & Hp & _).
  exists (statsOfPath (rev path)). unfold deriveStatsForEntries, deriveStats. by rewrite Hp.
Qed.

Lemma entries_inv_plain l live_ E : entries_inv l live_ E → map_Forall (λ k _, plain_key k = true) E.
Proof.
  intros [Hl Hs Hd Hlive Hc Hn Hord] id e He. destruct (Hc id (mk_is_Some _ _ He)) as [Hin|Hin].
  - by apply Hlive.
  - destruct Hl as (Hst & _). rewrite Forall_forall in Hst.
    apply list_elem_of_fmap in Hin as (p & -> & Hp). by apply Hst.
Qed.

(** A refresh returns whenever its entry map is acyclic. *)
Lemma refresh_total st snapshot s E :
  document st = makeDocument (JObj s) E → map_Forall (λ k _, plain_key k = true) E →
  Forall storable (entries snapshot) →
  let rw := isRewrite st snapshot in
  let live' := liveWithout (entries snapshot) (live st) in
  let after := refreshedEntries rw (if rw then 0 else position st) (entries snapshot) live' E in
  let st1 := mkProjection (document st) live' (leafId snapshot) (next snapshot) (Some (snapshotVersion snapshot))
               (if rw then None else selectedPath st) in
  acyclic after → is_Some (effectiveLeaf after st1) → is_Some (refresh st snapshot).
Proof.
  intros Hdoc Hplain Hl rw live' after st1 Ha [[leaf stc] Hleaf]. unfold refresh.
  assert (docEntries (document st) = E ∧ get (document st) "status" = JObj s) as [HE Hs]
    by (rewrite Hdoc; apply makeDocument_own).
  rewrite HE, Hs. fold rw.
  destruct (installLoop _ _ _ _) as [[live0 installed] ops] eqn:Hloop.
  pose proof (refreshed_ops rw _ _ _ _ (JObj s) _ _ _ Hplain Hl Hloop) as Hops.
  destruct (if rw then removeStale _ _ _ else _) as [after0 removals]. destruct Hops as (-> & -> & _).
  fold (liveWithout (entries snapshot) (live st)). fold live'. fold after. fold st1.
  rewrite Hleaf. cbn [mbind option_bind].
  assert (is_Some (refreshStats after leaf (JObj s))) as [[status' sops] Hstats].
  { unfold refreshStats. destruct (deriveStats_acyclic after leaf Ha) as [stats ->]. by eexists. }
  rewrite Hstats. cbn [mbind option_bind].
  destruct (negb _ || negb _); cbn [mbind option_bind];
    destruct (refreshName _ after _) as [status2 nops]; destruct (refreshLeaf leaf status2) as [status3 lops];
    match goal with |- is_Some (match ?l with [] => _ | _ => _ end) => destruct l end; by eexists.
Qed.

(** The common end of both kinds of refresh. *)
Lemma refresh_inv l' st snapshot s E :
  document st = makeDocument (JObj s) E → map_Forall (λ k _, plain_key k = true) E →
  Forall storable (entries snapshot) →
  let rw := isRewrite st snapshot in
  let live' := liveWithout (entries snapshot) (live st) in
  entries_inv l' live' (refreshedEntries rw (if rw then 0 else position st) (entries snapshot) live' E) →
  cache_inv l' (if rw then None else selectedPath st) → selects l' (leafId snapshot) → next snapshot = length l' →
  ∃ st' patch leaf, refresh st snapshot = Some (st', patch) ∧ projection_inv l' st' ∧
    version st' = Some (snapshotVersion snapshot) ∧ live st' = live' ∧ piLeaf st' = leafId snapshot ∧
    docLeaf (document st') = leaf ∧ (leaf = leafId snapshot ∨ ∃ id, leaf = Some id ∧ id ∈ live st').
Proof.
  intros Hdoc Hplain Hl rw live' Hinv Hcache Hsel Hnext.
  set (after := refreshedEntries rw (if rw then 0 else position st) (entries snapshot) live' E) in *.
  set (st1 := mkProjection (document st) live' (leafId snapshot) (next snapshot) (Some (snapshotVersion snapshot))
               (if rw then None else selectedPath st)).
  destruct (effectiveLeaf_total l' after st1) as (leaf & c & Hleaf & Hc & Hcase & _);
    [by destruct Hinv|by destruct Hinv|by eapply entries_inv_acyclic|done|done|].
  destruct (refresh_total st snapshot s E Hdoc Hplain Hl) as [[st' patch] Hr];
    [by eapply entries_inv_acyclic|exists (leaf, withSelected c st1); exact Hleaf|].
  destruct (refresh_spec _ _ _ _ _ _ Hdoc Hplain Hl Hr) as (s' & leaf' & c' & Hleaf' & -> & Hlf & _).
  fold (liveWithout (entries snapshot) (live st)) in Hleaf', Hlf |- *. fold rw live' after st1 in Hleaf' |- *.
  rewrite Hleaf in Hleaf'. assert (leaf' = leaf ∧ c' = c) as [-> ->] by (by injection Hleaf').
  eexists _, patch, leaf. split; [exact Hr|]. split; [|split; [done|split; [done|split; [done|split]]]].
  - split; [|split; [|split]]; cbn; [by eexists _, _|done|done|done].
  - unfold docLeaf, leafField in *. cbn [withDocument document].
    rewrite makeDocument_status. revert Hlf. generalize (get (JObj s') "leafId").
    intros v. unfold coalesce. destruct v, leaf; simpl; congruence.
  - done.
Qed.

(** ** The system invariant *)

Lemma sys_refresh L st :
  sys_inv L st →
  ∃ st' patch leaf, refreshFrom st (readEntries L) = Some (st', patch) ∧ projection_inv (log L) st' ∧
    version st' = Some (entriesVersion L) ∧ docLeaf (document st') = leaf ∧
    (leaf = logLeaf L ∨ ∃ id, leaf = Some id ∧ id ∈ live st') ∧ (∀ id, id ∈ live st' → id ∈ live st).
Proof.
  intros (Hlog & Hsel & l & ((s & E & Hdoc & Hinv) & Hcache & Hselp & Hpos) & Hver).
  assert (Hplain := entries_inv_plain _ _ _ Hinv). pose proof Hlog as (Hst & _).
  unfold refreshFrom. destruct (isRewrite st (readEntries L (position st))) eqn:Hrw.
  - assert (isRewrite st (readEntries L 0) = true) as Hrw0 by done.
    assert (Hread : entries (readEntries L 0) = log L) by (simpl; by rewrite drop_0).
    destruct (refresh_inv (log L) st (readEntries L 0) s E Hdoc Hplain) as
      (st' & patch & leaf & Hr & Hi & Hv & Hl & _ & Hdl & Hcase); rewrite ?Hrw0, ?Hread; try done.
    { by eapply rewrite_inv. }
    exists st', patch, leaf. split; [done|]. split; [done|]. split; [done|]. split; [done|]. split; [done|].
    intros id. rewrite Hl, elem_of_liveWithout. naive_solver.
  - assert (∃ suffix, log L = l ++ suffix) as [suffix Hsuf].
    { unfold isRewrite in Hrw. destruct (version st) as [v|].
      - apply negb_false_iff, Nat.eqb_eq in Hrw. by apply Hver.
      - subst l. by exists (log L). }
    assert (Hread : entries (readEntries L (position st)) = suffix).
    { simpl. rewrite Hpos, Hsuf, length_app, Nat.min_l by lia. by rewrite drop_app_length. }
    destruct (refresh_inv (log L) st (readEntries L (position st)) s E Hdoc Hplain) as
      (st' & patch & leaf & Hr & Hi & Hv & Hl & _ & Hdl & Hcase); rewrite ?Hrw, ?Hread; try done.
    { rewrite Hsuf in Hst. by apply Forall_app in Hst as [_ ?]. }
    { rewrite Hpos, Hsuf. apply append_inv; [done|by rewrite <- Hsuf]. }
    { rewrite Hsuf. apply cache_inv_prefix; [by rewrite <- Hsuf|done]. }
    exists st', patch, leaf. split; [done|]. split; [done|]. split; [done|]. split; [done|]. split; [done|].
    intros id. rewrite Hl, elem_of_liveWithout. naive_solver.
Qed.

(** What is left when the live forms are deleted. *)
Lemma settled_entries l live_ E :
  entries_inv l live_ E →
  foldl (λ m id, delete id m) E (filter (λ id, is_Some (E !! id)) live_) = sealedEntries l.
Proof.
  intros Hinv. pose proof Hinv as [Hl Hs Hd Hlive Hc Hn Hord].
  apply map_eq. intros id. rewrite foldl_delete_lookup.
  destruct (decide (id ∈ filter _ _)) as [Hin|Hin]; rewrite list_elem_of_filter in Hin.
  - destruct (sealedEntries l !! id) eqn:He; [|done]. destruct Hin as [_ Hin]. destruct (Hd id Hin).
    by apply sealed_dom.
  - destruct (E !! id) as [e|] eqn:He.
    + destruct (entries_inv_case _ _ _ _ _ Hinv He) as [(Hin' & _)|(i & p & Hi & <- & ->)]; [naive_solver|].
      symmetry. by apply sealed_lookup.
    + destruct (sealedEntries l !! id) as [e|] eqn:He'; [|done].
      pose proof (proj1 (map_subseteq_spec _ _) Hs _ _ He'). congruence.
Qed.

Lemma leafOp_plain st leaf : Forall plain_op (leafOp st leaf).
Proof.
  unfold leafOp. case_match; [done|]. apply Forall_singleton. right. right. by eexists "leafId", _.
Qed.

(** The leaf operation sets the leaf, also after the statistics. *)
Lemma leafOp_after_stats st leaf s E E' stats :
  document st = makeDocument (JObj s) E →
  ∃ s', applyKeyOps (makeDocument (JObj (<["stats" := stats]> s)) E') (map keyOp (leafOp st leaf))
          = makeDocument (JObj s') E' ∧ leafField (JObj s') = of_opt_str leaf.
Proof.
  intros Hdoc. unfold leafOp. rewrite Hdoc, makeDocument_status. case_match eqn:Hp.
  - eexists. split; [done|]. apply prim_eq_eq in Hp. rewrite <- Hp. unfold leafField.
    by rewrite get_insert_ne.
  - eexists. split; [apply document_status|]. unfold leafField. rewrite get_insert_eq. by destruct leaf.
Qed.

Lemma leafField_docLeaf s E leaf : leafField (JObj s) = of_opt_str leaf → docLeaf (makeDocument (JObj s) E) = leaf.
Proof.
  unfold docLeaf, leafField. rewrite makeDocument_status. generalize (get (JObj s) "leafId").
  intros v. unfold coalesce. destruct v, leaf; simpl; congruence.
Qed.

(** The patch of a settle. *)
Lemma settle_patch st s E present stats :
  document st = makeDocument (JObj s) E → Forall (λ id, plain_key id = true) present →
  let after := foldl (λ m id, delete id m) E present in
  ∃ s', applyPatch (document st)
      (map (λ id, RemoveOp (path_of ["entries"; id])) present ++ [ReplaceOp "/status/stats" stats]
        ++ leafOp (withLive [] st) (piLeaf st)) = Some (makeDocument (JObj s') after) ∧
    leafField (JObj s') = of_opt_str (piLeaf st).
Proof.
  intros Hdoc Hpl after.
  destruct (leafOp_after_stats (withLive [] st) (piLeaf st) s E after stats Hdoc) as (s' & Hs' & Hlf).
  exists s'. split; [|done]. rewrite Hdoc. apply applyPatch_entry_ops.
  - apply Forall_app. split; [|apply Forall_cons; split; [|apply leafOp_plain]].
    + apply Forall_forall. intros op (id & -> & Hid)%list_elem_of_fmap. right. left.
      rewrite Forall_forall in Hpl. eauto.
    + right. right. by exists "stats", stats.
  - rewrite !map_app, !applyKeyOps_app, foldl_remove_ops by done. fold after.
    change (applyKeyOps (makeDocument (JObj s) after) (map keyOp [ReplaceOp "/status/stats" stats]))
      with (applyKeyOp (makeDocument (JObj s) after) (KSet ["status"; "stats"] stats)).
    by rewrite document_status.
Qed.

(** A settle drops exactly the live forms. *)
Lemma settle_inv l st :
  projection_inv l st →
  ∃ st' patch, settle st = Some (st', patch) ∧ projection_inv l st' ∧ version st' = version st ∧
    live st' = [] ∧ docEntries (document st') = sealedEntries l ∧
    (docLeaf (document st') = piLeaf st ∨ live st = [] ∧ document st' = document st).
Proof.
  intros ((s & E & Hdoc & Hinv) & Hcache & Hsel & Hpos). pose proof Hinv as [Hl Hs Hd Hlive Hc Hn Hord].
  destruct (makeDocument_own (JObj s) E) as [HE Hst].
  unfold settle. rewrite Hdoc, HE. pose proof (settled_entries l (live st) E Hinv) as Hafter.
  set (present := filter (λ id, is_Some (E !! id)) (live st)) in *.
  set (after := foldl (λ m id, delete id m) E present) in *.
  assert (Hself : entries_inv l [] after) by (rewrite Hafter; by apply sealed_inv_self).
  destruct present as [|x rest] eqn:Hpres; cbn [map].
  - assert (live st = []) as Hnil.
    { destruct (live st) as [|y ys]; [done|]. unfold present in Hpres. rewrite filter_cons_True in Hpres; [done|].
      destruct (Hlive y) as (_ & m & Hm & _); [left|]. eauto. }
    eexists _, None. split; [reflexivity|]. cbn. rewrite Hdoc, HE. split; [|split; [done|auto]].
    split; [by exists s, E|done].
  - cbv iota.
    destruct (deriveStats_acyclic after (piLeaf st)) as [stats Hstats]; [by eapply entries_inv_acyclic|].
    unfold effectiveLeaf. cbn [withLive live piLeaf mbind option_bind]. rewrite Hstats. cbn [mbind option_bind].
    assert (Hpl : Forall (λ id, plain_key id = true) (x :: rest)).
    { rewrite <- Hpres. apply Forall_forall. intros id [_ Hin]%list_elem_of_filter. by apply Hlive. }
    destruct (settle_patch st s E (x :: rest) stats Hdoc Hpl) as (s' & Hpatch & Hlf). fold after in Hpatch.
    unfold emit. cbn [withLive document]. rewrite map_cons in Hpatch. cbn [app] in Hpatch |- *. rewrite Hpatch. cbn [mbind option_bind].
    eexists _, _. split; [reflexivity|]. cbn. rewrite makeDocument_entries, (leafField_docLeaf _ _ _ Hlf).
    split; [|auto]. split; [by exists s', after|done].
Qed.
