(* ===== verification/System.v ===== *)
(** * The projection and its log, together

    The theorems about every reachable state of [Converge.v]: the operations
    return, a refresh converges to the log, a settle leaves exactly what a
    bootstrap of the log would build, the selected-path cache changes nothing,
    and sealed entries survive every event. *)

From S2P Require Export Converge.

(** ** The invariant holds *)

Lemma selects_app l l' leaf : selects l leaf → selects (l ++ l') leaf.
Proof. destruct leaf; [|done]. simpl. rewrite map_app. set_solver. Qed.

Lemma sys_step_inv L st L' st' : sys_inv L st → sys_step (L, st) (L', st') → sys_inv L' st'.
Proof.
  intros Hinv Hstep. inversion Hstep as [l0 leaf v st0 e Hl|l0 leaf leaf' v st0 Hsel'|l0 l' leaf leaf' v st0 Hl' Hsel'|
    L0 st0 event st1 patch Hadm Hev|L0 st0 st1 patch Hr|L0 st0 st1 patch Hs]; subst; simpl in *.
  - destruct Hinv as (Hlog & Hsel & l & Hp & Hv). split; [done|]. split.
    + simpl. rewrite map_app. set_solver.
    + exists l. split; [done|]. destruct (version st') as [v'|]; [|done]. simpl in *.
      destruct Hv as [Hle Hv]. split; [done|]. intros Heq. destruct (Hv Heq) as [suffix ->].
      exists (suffix ++ [e]). by rewrite app_assoc.
  - destruct Hinv as (Hlog & Hsel & l & Hp & Hv). split; [done|]. by split; [|eauto].
  - destruct Hinv as (Hlog & Hsel & l & Hp & Hv). split; [done|]. split; [done|].
    exists l. split; [done|]. destruct (version st') as [v'|]; [|done]. simpl in *.
    split; [lia|]. lia.
  - destruct Hinv as (Hlog & Hsel & l & Hp & Hv). split; [done|]. split; [done|]. exists l.
    destruct (projectEvent_inv l st event Hp Hadm) as (st2 & patch2 & Hev2 & Hp2 & Hv2).
    rewrite Hev in Hev2. injection Hev2 as <- <-. by rewrite Hv2.
  - pose proof (sys_refresh _ _ Hinv) as (st2 & patch2 & leaf & Hr2 & Hp2 & Hv2 & _).
    rewrite Hr in Hr2. injection Hr2 as <- <-. destruct Hinv as (Hlog & Hsel & _).
    split; [done|]. split; [done|]. exists (log L'). split; [done|]. rewrite Hv2. split; [done|].
    intros _. exists []. by rewrite app_nil_r.
  - destruct Hinv as (Hlog & Hsel & l & Hp & Hv). split; [done|]. split; [done|]. exists l.
    destruct (settle_inv l st Hp) as (st2 & patch2 & Hs2 & Hp2 & Hv2 & _).
    rewrite Hs in Hs2. injection Hs2 as <- <-. by rewrite Hv2.
Qed.

Lemma stored_log_nil : stored_log [].
Proof. split; [done|]. split; [constructor|]. by intros i e q Hi. Qed.

Lemma reachable_inv L st : reachable L st → sys_inv L st.
Proof.
  induction 1 as [l leaf v s Hl Hsel|L st L' st' _ IH Hstep]; [|by eapply sys_step_inv].
  split; [done|]. split; [done|]. exists []. split; [|done].
  split; [|done]. exists s, ∅. split; [done|]. apply sealed_inv_self, stored_log_nil.
Qed.



(** ** A concrete run *)

Definition demoLog : SessionLog :=
  mkLog [object [("type", JStr "session_info"); ("id", JStr "a"); ("parentId", JNull); ("name", JStr "demo")]]
    (Some "a") 0.
Definition demoStart : Projection := createEntryProjection (makeDocument (object [("name", JStr "")]) ∅).
Definition demoEvent : SessionLifecycleEvent :=
  message_start (Some "m") (object [("role", JStr "assistant"); ("model", JStr "x")]).
Definition stateOf (r : option (Projection * option (list PatchOp))) : Projection :=
  match r with Some (st, _) => st | None => demoStart end.
Definition patchOf (r : option (Projection * option (list PatchOp))) : option (list PatchOp) := r ≫= snd.

(** The log is installed, then an assistant message starts. *)
Definition demoRefreshed : Projection := stateOf (refreshFrom demoStart (readEntries demoLog)).
Definition demoStreaming : Projection := stateOf (projectEvent demoRefreshed demoEvent).

Lemma demo_stored : stored_log (log demoLog).
Proof.
  split; [|split].
  - apply Forall_singleton. split; [|reflexivity]. split; [reflexivity|discriminate].
  - apply NoDup_singleton.
  - intros [|i] e q Hi Hq; simpl in Hi; simplify_eq.
Qed.

Lemma stateOf_some r : is_Some r → r = Some (stateOf r, patchOf r).
Proof. by intros [[st patch] ->]. Qed.

Lemma demo_refreshed : reachable demoLog demoRefreshed.
Proof.
  assert (Hstart : reachable demoLog demoStart).
  { apply (reach_init (log demoLog) (Some "a") 0); [apply demo_stored|simpl; by left]. }
  eapply reach_step; [exact Hstart|]. eapply step_refresh. apply stateOf_some.
  destruct (sys_refresh _ _ (reachable_inv _ _ Hstart)) as (st' & patch & _ & -> & _). by eexists.
Qed.

Lemma demo_admitted : admitted (document demoRefreshed) demoEvent.
Proof.
  split; [reflexivity|]. split; [vm_compute; reflexivity|]. split; [vm_compute; discriminate|].
  assert (map_Forall (λ _ e, opt_str (get e "parentId") ≠ Some "m") (docEntries (document demoRefreshed))) as H.
  { apply (bool_decide_unpack _). vm_compute. exact I. }
  intros j e. apply H.
Qed.

Lemma demo_streaming : reachable demoLog demoStreaming.
Proof.
  eapply reach_step; [apply demo_refreshed|]. eapply (step_event _ _ demoEvent); [apply demo_admitted|].
  apply stateOf_some. destruct (reachable_inv _ _ demo_refreshed) as (_ & _ & l & Hp & _).
  destruct (projectEvent_inv l _ demoEvent Hp demo_admitted) as (st' & patch & -> & _). by eexists.
Qed.

(** ** Properties *)

(** C1.  Convergence: in every reachable state, through any interleaving of
    appends, branch switches, wholesale rewrites, live events, refreshes and
    settles, a refresh returns, and afterwards every entry that is not a live
    form is exactly the projection of the log, no logged entry is live any more,
    no live form was invented, and the leaf is pi's or a live form. *)
Theorem refresh_converges L st :
  reachable L st →
  ∃ st' patch, refreshFrom st (readEntries L) = Some (st', patch) ∧
    position st' = length (log L) ∧
    (∀ id, id ∉ live st' → docEntries (document st') !! id = sealedEntries (log L) !! id) ∧
    (∀ id, id ∈ live st' → id ∈ live st ∧ (id ∉ map entryId (log L))) ∧
    (docLeaf (document st') = logLeaf L ∨ ∃ id, docLeaf (document st') = Some id ∧ id ∈ live st').
Proof.
  intros Hr. destruct (sys_refresh L st (reachable_inv _ _ Hr)) as (st' & patch & leaf & Href & Hp & _ & Hleaf & Hcase & Hsub).
  exists st', patch. split; [done|]. destruct Hp as ((s & E & Hdoc & Hinv) & _ & _ & Hpos). split; [done|].
  rewrite Hleaf. split; [|split; [|done]].
  - intros id Hid. rewrite Hdoc, makeDocument_entries. pose proof Hinv as [Hl Hs Hd Hlive Hc _ _].
    destruct (sealedEntries (log L) !! id) as [e|] eqn:He; [by apply (proj1 (map_subseteq_spec _ _) Hs)|].
    destruct (E !! id) as [e|] eqn:He'; [|done].
    destruct (Hc id (mk_is_Some _ _ He')) as [|Hin]; [done|].
    apply (sealed_dom _ _ Hl) in Hin as [e0 He0]. congruence.
  - intros id Hid. split; [by apply Hsub|]. by destruct Hinv as [_ _ Hd _ _ _ _]; apply Hd.
Qed.

Lemma refresh_converges_witness :
  ∃ st' patch, refreshFrom demoStreaming (readEntries demoLog) = Some (st', patch) ∧
    position st' = length (log demoLog) ∧
    (∀ id, id ∉ live st' → docEntries (document st') !! id = sealedEntries (log demoLog) !! id) ∧
    (∀ id, id ∈ live st' → id ∈ live demoStreaming ∧ (id ∉ map entryId (log demoLog))) ∧
    (docLeaf (document st') = logLeaf demoLog ∨ ∃ id, docLeaf (document st') = Some id ∧ id ∈ live st').
Proof. apply (refresh_converges demoLog demoStreaming demo_streaming). Defined.



(** C7.  An event never writes an entry that is already authoritative, whatever
    the event: a sealed entry of the document is the same after it. *)
Theorem event_keeps_sealed st event st' patch id e :
  has_entries (document st) → from_option plain_key true (eventEntryId event) = true →
  projectEvent st event = Some (st', patch) →
  docEntries (document st) !! id = Some e → isEntrySealed e = true →
  docEntries (document st') !! id = Some e.
Proof.
  intros Hd Hpl Hev He Hs. unfold projectEvent in Hev.
  destruct (isContentEvent event && targetsSealed st event) eqn:Hts; [by simplify_eq|].
  unfold applyEvent in Hev. destruct (decide (eventOps (document st) event = [])) as [Hnil|Hne];
    [rewrite Hnil in Hev; by simplify_eq|].
  assert (eventEntryId event ≠ Some id) as Hid.
  { intros Hid. unfold targetsSealed in Hts. rewrite Hid, He, Hs, andb_true_r in Hts.
    by apply (event_not_content (document st) event id Hid) in Hts. }
  destruct (eventOps (document st) event) as [|op ops] eqn:Hops; [done|].
  match type of Hev with context [effectiveLeaf _ ?x] => set (st1 := x) in Hev end.
  assert (document st1 = document st) as Hd1 by (unfold st1; repeat case_match; done).
  apply bind_Some in Hev as ([leaf st2] & Hleaf & Hev).
  destruct (effectiveLeaf_frame _ _ _ _ Hleaf) as [c ->].
  destruct (leafOp_local (withSelected c st1) leaf event) as [Hloc _].
  destruct (event_local_ops (document st) (eventEntryId event) ((op :: ops) ++ leafOp (withSelected c st1) leaf))
    as (doc' & Hpatch & _ & Hframe); [done|done| |done|].
  { apply Forall_app. split; [|done]. rewrite <- Hops. apply eventOps_local. }
  unfold emit in Hev. cbn [app withSelected document] in *. rewrite Hd1, Hpatch in Hev.
  simplify_eq/=. by rewrite Hframe.
Qed.

Lemma event_keeps_sealed_witness :
  docEntries (document demoStreaming) !! "a"
    = Some (projectEntry (object [("type", JStr "session_info"); ("id", JStr "a"); ("parentId", JNull); ("name", JStr "demo")]) 0).
Proof.
  apply (event_keeps_sealed demoRefreshed demoEvent demoStreaming
    (patchOf (projectEvent demoRefreshed demoEvent)) "a"); try (vm_compute; reflexivity).
  eexists _, _. split; vm_compute; reflexivity.
Defined.



(** The selected-path cache is an optimisation: in every reachable state
    the effective leaf computed with the cached path is the one computed from
    the entries. *)
Theorem selectedPath_cache L st :
  reachable L st →
  ∃ leaf st1 st2,
    effectiveLeaf (docEntries (document st)) st = Some (leaf, st1) ∧
    effectiveLeaf (docEntries (document st)) (withSelected None st) = Some (leaf, st2).
Proof.
  intros Hr. destruct (reachable_inv _ _ Hr) as (_ & _ & l & ((s & E & Hdoc & Hinv) & Hc & Hsel & _) & _).
  rewrite Hdoc, makeDocument_entries.
  destruct (effectiveLeaf_total l E st) as (leaf & c & H1 & _ & _ & c' & H2);
    [by destruct Hinv|by destruct Hinv|by eapply entries_inv_acyclic|done|done|]. eauto.
Qed.

Lemma selectedPath_cache_witness :
  ∃ leaf st1 st2,
    effectiveLeaf (docEntries (document demoStreaming)) demoStreaming = Some (leaf, st1) ∧
    effectiveLeaf (docEntries (document demoStreaming)) (withSelected None demoStreaming) = Some (leaf, st2).
Proof. apply (selectedPath_cache demoLog demoStreaming demo_streaming). Defined.

(** An update for an id that has no entry creates one that is not a live
    form, so no settle ever removes it: the projection tracks the forms that
    start events create, and nothing else. *)
Theorem orphan_update_survives_settle :
  let st := createEntryProjection (makeDocument (object []) ∅) in
  let phantom := object [("content", JArr [object [("text", JStr "x")]])] in
  ∃ st1 patch, projectEvent st (message_update (Some "m") (text_delta 0 "x")) = Some (st1, patch) ∧
    live st1 = [] ∧ settle st1 = Some (st1, None) ∧ docEntries (document st1) = {["m" := phantom]}.
Proof. eexists _, _. split; [vm_compute; reflexivity|]. by vm_compute. Qed.
