(* ===== verification/Cache.v ===== *)
(** * The client's entry cache

    [cache.ts]: the records a client keeps of a session's committed entries, the
    cursor derived from them, the writes a document transition implies, and the
    document a cold start is seeded with.  A JavaScript [Map] is an association
    list in insertion order.  [base === entry] compares references; two
    references to one entry are structurally equal, a case the comparison of
    the cached forms already skips, so it is not modelled. *)

From S2P Require Export Events.

(** ** Records and stores *)

Record CacheEntryRecord := mkRecord
  { recordSession : string; recordOrd : num; recordEntryId : string; recordEntry : json }.

#[global] Instance CacheEntryRecord_eq_dec : EqDecision CacheEntryRecord.
Proof. solve_decision. Defined.

Record PrefixCursor := mkCursor { cursorSession : string; lastKnownId : string; entryCount : num }.

(** [Map.set]: a present key keeps its place. *)
Fixpoint mapSet {K V} `{EqDecision K} (m : list (K * V)) (k : K) (v : V) : list (K * V) :=
  match m with
  | [] => [(k, v)]
  | (k', v') :: m' => if decide (k' = k) then (k, v) :: m' else (k', v') :: mapSet m' k v
  end.

Fixpoint mapGet {K V} `{EqDecision K} (m : list (K * V)) (k : K) : option V :=
  match m with
  | [] => None
  | (k', v') :: m' => if decide (k' = k) then Some v' else mapGet m' k
  end.

(** [records.sort((a, b) => a.ord - b.ord)], a stable sort. *)
Definition sortByOrd : list CacheEntryRecord → list CacheEntryRecord :=
  sort_by (λ a b, num_ltb (recordOrd a) (recordOrd b)).

(** One session of the in-memory store. *)
Record CachedSession := mkCached { cachedRecords : list (num * CacheEntryRecord); cachedHint : option json }.
Definition InMemoryEntryCacheStore : Type := gmap string CachedSession.

Definition setRecords (m : list (num * CacheEntryRecord)) (records : list CacheEntryRecord)
    : list (num * CacheEntryRecord) :=
  foldl (λ m r, mapSet m (recordOrd r) r) m records.

Definition loadSession (store : InMemoryEntryCacheStore) (sessionId : string)
    : list CacheEntryRecord * option json :=
  match store !! sessionId with
  | None => ([], None)
  | Some session => (sortByOrd (map snd (cachedRecords session)), cachedHint session)
  end.

Definition writeEntries (store : InMemoryEntryCacheStore) (sessionId : string)
    (records : list CacheEntryRecord) (hint : option json) : InMemoryEntryCacheStore :=
  if bool_decide (records = []) && bool_decide (hint = None) then store
  else
    let session := default (mkCached [] None) (store !! sessionId) in
    <[sessionId := mkCached (setRecords (cachedRecords session) records)
        (match hint with Some h => Some h | None => cachedHint session end)]> store.

Definition replaceSession (store : InMemoryEntryCacheStore) (sessionId : string)
    (records : list CacheEntryRecord) (hint : option json) : InMemoryEntryCacheStore :=
  <[sessionId := mkCached (setRecords [] records) hint]> store.

(** ** The cursor *)

(** The first loop: the position map, or an early [return null]. *)
Fixpoint ordToIdLoop (sessionId : option string) (ordToId : gmap Z string) (records : list CacheEntryRecord)
    : option (option string * gmap Z string) :=
  match records with
  | [] => Some (sessionId, ordToId)
  | record :: rest =>
    if match sessionId with Some s => negb (bool_decide (recordSession record = s)) | None => false end then None
    else
      match recordOrd record with
      | NInt ord =>
        if (ord <? 0)%Z then None
        else if bool_decide (is_Some (ordToId !! ord)) then None
        else ordToIdLoop (Some (default (recordSession record) sessionId))
               (<[ord := recordEntryId record]> ordToId) rest
      | NFloat _ => None
      end
  end.

Definition computeCursor (records : list CacheEntryRecord) : option PrefixCursor :=
  match records with
  | [] => None
  | _ =>
    '(sessionId, ordToId) ← ordToIdLoop None ∅ records;
    let n := length records in
    if forallb (λ i, bool_decide (is_Some (ordToId !! Z.of_nat i))) (seq 0 n) then
      Some (mkCursor (default "" sessionId) (default "" (ordToId !! (Z.of_nat n - 1)%Z)) (NInt (Z.of_nat n)))
    else None
  end.

(** ** Writes *)

Definition entryForCache (entry : json) : json := spread (stripLazyFields entry) [("isSealed", JBool true)].

Definition cacheable (entry : json) : bool := isEntrySealed entry && negb (bool_decide (get entry "ord" = JUndef)).

Definition recordOf (sessionId id : string) (entry : json) : CacheEntryRecord :=
  mkRecord sessionId (num_of (get entry "ord")) id (entryForCache entry).

(** Nothing but lazy fields changed since [base]. *)
Definition sameCached (base : option json) (entry : json) : bool :=
  match base with
  | Some b => prim_eq (get b "ord") (get entry "ord") &&
              bool_decide (serialised (entryForCache b) = serialised (entryForCache entry))
  | None => false
  end.

Definition planCacheWrites (sessionId : string) (before after : json) : list CacheEntryRecord :=
  sortByOrd (omap (λ kv,
    if cacheable kv.2 && negb (sameCached (docEntries before !! kv.1) kv.2)
    then Some (recordOf sessionId kv.1 kv.2) else None) (map_to_list (docEntries after))).

Definition cacheRecordsOfDocument (sessionId : string) (doc : json) : list CacheEntryRecord :=
  sortByOrd (omap (λ kv, if cacheable kv.2 then Some (recordOf sessionId kv.1 kv.2) else None)
    (map_to_list (docEntries doc))).

Definition statusHintOfDocument (doc : json) : json :=
  let status := get doc "status" in
  object [("name", get status "name"); ("model", get status "model");
          ("thinkingLevel", get status "thinkingLevel"); ("contextUsage", get status "contextUsage")].

(** ** Seeding *)

Definition seedEntries (records : list CacheEntryRecord) : record :=
  foldl (λ m r, <[recordEntryId r := recordEntry r]> m) ∅ records.

(** [for (const [key, value] of Object.entries(hint)) if (value !== undefined) status[key] = value] *)
Definition overlay (status hint : record) : record := filter (λ kv, kv.2 ≠ JUndef) hint ∪ status.

Definition seedDocument (records : list CacheEntryRecord) (statusHint : option json) : option json :=
  let entries := seedEntries (sortByOrd records) in
  status ← deriveStatus (walkFuel entries) entries JUndef;
  Some (makeDocument
    (match statusHint with Some hint => JObj (overlay (own status) (own hint)) | None => status end) entries).

(** ** Lemmas on cursors *)

Lemma ordToIdLoop_sound sid m rs sid' m' :
  ordToIdLoop sid m rs = Some (sid', m') →
  ∃ zs, map recordOrd rs = map NInt zs ∧ NoDup zs ∧ Forall (λ z, (0 ≤ z)%Z ∧ m !! z = None) zs ∧
    (∀ r, r ∈ rs → sid' = Some (recordSession r)) ∧ (∀ s, sid = Some s → sid' = Some s) ∧
    ∀ z id, m' !! z = Some id ↔ (m !! z = Some id ∨ ∃ r, r ∈ rs ∧ recordOrd r = NInt z ∧ recordEntryId r = id).
Proof.
  revert sid m. induction rs as [|r rs IH]; intros sid m H; simpl in H.
  - simplify_eq. exists []. split; [done|]. split; [constructor|]. split; [done|].
    split; [set_solver|]. split; [done|]. set_solver.
  - destruct (match sid with Some s => negb (bool_decide (recordSession r = s)) | None => false end) eqn:Hs; [done|].
    destruct (recordOrd r) as [z|] eqn:Hz; [|done]. destruct (z <? 0)%Z eqn:Hneg; [done|].
    case_bool_decide as Hm; [done|]. apply eq_None_not_Some in Hm.
    apply IH in H as (zs & Hzs & Hnd & Hall & Hsess & Hsid & Hlook). apply Z.ltb_ge in Hneg.
    exists (z :: zs). rewrite Forall_forall in Hall. split; [simpl; by rewrite Hz, Hzs|].
    split; [|split; [|split; [|split]]].
    + constructor; [|done]. intros Hin. destruct (Hall z Hin) as [_ Hz']. by rewrite lookup_insert_eq in Hz'.
    + apply Forall_cons. split; [done|]. apply Forall_forall. intros z' Hin. destruct (Hall z' Hin) as [? Hz'].
      split; [done|]. by apply lookup_insert_None in Hz' as [? _].
    + intros r' [->|Hin]%elem_of_cons; [|by apply Hsess].
      rewrite (Hsid _ eq_refl). destruct sid; [|done]. apply negb_false_iff, bool_decide_eq_true in Hs.
      simpl. congruence.
    + intros s ->. by rewrite (Hsid _ eq_refl).
    + intros z' id. rewrite Hlook, lookup_insert_Some. split.
      * intros [[[-> <-]|[Hne Hm']]|(r' & Hin & ? & ?)]; [right; exists r; set_solver|by left|right; exists r'; set_solver].
      * intros [Hm'|(r' & [->|Hin]%elem_of_cons & Hr' & <-)].
        -- left. right. split; [|done]. congruence.
        -- left. left. rewrite Hz in Hr'. by simplify_eq.
        -- right. eauto.
Qed.

Lemma ordToIdLoop_complete s sid m rs zs :
  map recordOrd rs = map NInt zs → NoDup zs → Forall (λ z, (0 ≤ z)%Z ∧ m !! z = None) zs →
  (∀ r, r ∈ rs → recordSession r = s) → (sid = None ∨ sid = Some s) →
  is_Some (ordToIdLoop sid m rs).
Proof.
  revert sid m zs. induction rs as [|r rs IH]; intros sid m zs Hzs Hnd Hall Hs Hsid; [by eexists|].
  destruct zs as [|z zs]; [done|]. injection Hzs as Hz Hzs. apply NoDup_cons in Hnd as [Hz' Hnd].
  apply Forall_cons in Hall as [[Hpos Hmz] Hall]. simpl. rewrite Hz.
  assert (recordSession r = s) as Hr by (apply Hs; left).
  assert (match sid with Some s0 => negb (bool_decide (recordSession r = s0)) | None => false end = false) as ->.
  { destruct Hsid as [->| ->]; [done|]. by rewrite bool_decide_eq_true_2. }
  assert ((z <? 0)%Z = false) as -> by by apply Z.ltb_ge.
  rewrite bool_decide_eq_false_2 by (by rewrite Hmz; intros [? ?]).
  apply (IH _ _ zs); [done|done| |set_solver|].
  - rewrite Forall_forall in Hall |- *. intros z' Hin. destruct (Hall z' Hin). split; [done|].
    rewrite lookup_insert_ne; [done|]. by intros ->.
  - right. destruct Hsid as [->| ->]; simpl; congruence.
Qed.

Definition positions (n : nat) : list num := map (λ i, NInt (Z.of_nat i)) (seq 0 n).

Lemma positions_inj zs n : map NInt zs ≡ₚ positions n → zs ≡ₚ map Z.of_nat (seq 0 n).
Proof.
  intros H. apply (Permutation_map (λ x, match x with NInt z => z | _ => 0%Z end)) in H.
  unfold positions in H. rewrite !map_map in H. by rewrite map_id in H.
Qed.

Lemma positions_lookup zs n :
  NoDup zs → length zs = n → (∀ i, i < n → Z.of_nat i ∈ zs) → map NInt zs ≡ₚ positions n.
Proof.
  intros Hnd Hlen Hin. unfold positions. rewrite <- (map_map Z.of_nat NInt). apply Permutation_map. symmetry.
  apply submseteq_length_Permutation; [|rewrite length_map, length_seq; lia].
  apply NoDup_submseteq.
  - apply NoDup_fmap_2; [apply _|apply NoDup_seq].
  - intros z (i & -> & Hi%elem_of_seq)%list_elem_of_fmap. apply Hin. lia.
Qed.

Lemma computeCursor_sound rs c :
  computeCursor rs = Some c →
  rs ≠ [] ∧ (∀ r, r ∈ rs → recordSession r = cursorSession c) ∧
  map recordOrd rs ≡ₚ positions (length rs) ∧ entryCount c = NInt (Z.of_nat (length rs)) ∧
  ∃ r, r ∈ rs ∧ recordOrd r = NInt (Z.of_nat (length rs) - 1) ∧ recordEntryId r = lastKnownId c.
Proof.
  unfold computeCursor. destruct rs as [|r0 rest]; [done|]. set (rs := r0 :: rest).
  intros ([sid m] & Hloop & H)%bind_Some. destruct (forallb _ _) eqn:Hall; [|done]. injection H as <-.
  cbn [cursorSession lastKnownId entryCount].
  apply ordToIdLoop_sound in Hloop as (zs & Hzs & Hnd & _ & Hs & _ & Hlook).
  assert (Hlen : length zs = length rs) by (rewrite <- (length_map NInt), <- Hzs, length_map; done).
  rewrite forallb_forall in Hall.
  assert (Hat : ∀ i, i < length rs → ∃ r, r ∈ rs ∧ recordOrd r = NInt (Z.of_nat i) ∧ m !! Z.of_nat i = Some (recordEntryId r)).
  { intros i Hi. specialize (Hall i). rewrite bool_decide_eq_true in Hall.
    destruct Hall as [id Hid]; [apply in_seq; lia|]. pose proof Hid as Hid'.
    apply Hlook in Hid' as [?|(r & ? & ? & <-)]; [done|]. eauto. }
  split; [done|]. split; [|split; [|split; [done|]]].
  - intros r Hr. by rewrite (Hs r Hr).
  - rewrite Hzs. apply positions_lookup; [done|done|]. intros i Hi. destruct (Hat i Hi) as (r & Hr & Ho & _).
    apply (list_elem_of_fmap_2 recordOrd) in Hr. change (recordOrd <$> rs) with (map recordOrd rs) in Hr.
    rewrite Hzs, Ho in Hr. apply list_elem_of_fmap in Hr as (z & [= <-] & Hz). done.
  - destruct (Hat (length rs - 1)) as (r & Hr & Ho & Hm); [simpl; lia|]. exists r. split; [done|].
    change (S (length rest)) with (length rs).
    replace (Z.of_nat (length rs) - 1)%Z with (Z.of_nat (length rs - 1)) by (simpl; lia).
    split; [done|]. by rewrite Hm.
Qed.

Lemma computeCursor_complete rs s :
  rs ≠ [] → (∀ r, r ∈ rs → recordSession r = s) → map recordOrd rs ≡ₚ positions (length rs) →
  is_Some (computeCursor rs).
Proof.
  intros Hne Hs Hp.
  assert (∃ zs, map recordOrd rs = map NInt zs) as [zs Hzs].
  { assert (Forall (λ x, ∃ z, x = NInt z) (map recordOrd rs)) as Hall.
    { rewrite Hp. apply Forall_forall. intros x (i & -> & _)%list_elem_of_fmap. eauto. }
    revert Hall. generalize (map recordOrd rs). clear. intros l Hall.
    induction Hall as [|x l [z Hz] Hall' IH]; [by exists []|]. destruct IH as [zs Hzs]. exists (z :: zs). by rewrite Hz, Hzs. }
  rewrite Hzs in Hp. apply positions_inj in Hp.
  assert (Hnd : NoDup zs) by (rewrite Hp; apply NoDup_fmap_2; [apply _|apply NoDup_seq]).
  assert (Hpos : Forall (λ z, (0 ≤ z)%Z ∧ (∅ : gmap Z string) !! z = None) zs).
  { apply Forall_forall. intros z Hz. rewrite Hp in Hz. apply list_elem_of_fmap in Hz as (i & -> & _). split; [lia|done]. }
  destruct (ordToIdLoop_complete s None ∅ rs zs Hzs Hnd Hpos Hs (or_introl eq_refl)) as [[sid m] Hloop].
  unfold computeCursor. destruct rs as [|r0 rest]; [done|]. set (rs := r0 :: rest) in *. rewrite Hloop.
  cbn [mbind option_bind]. apply ordToIdLoop_sound in Hloop as (_ & _ & _ & _ & _ & _ & Hlook).
  assert (forallb (λ i, bool_decide (is_Some (m !! Z.of_nat i))) (seq 0 (length rs)) = true) as ->; [|by eexists].
  apply forallb_forall. intros i Hi%in_seq. apply bool_decide_eq_true.
  assert (Z.of_nat i ∈ zs) as Hin.
  { rewrite Hp. apply list_elem_of_fmap_2. apply elem_of_seq. lia. }
  apply (list_elem_of_fmap_2 NInt) in Hin. change (NInt <$> zs) with (map NInt zs) in Hin. rewrite <- Hzs in Hin.
  apply list_elem_of_fmap in Hin as (r & Hr & Hrin). exists (recordEntryId r). apply Hlook. right. eauto.
Qed.

(** Two records at one position are the same record. *)
Lemma positions_unique rs r r' :
  map recordOrd rs ≡ₚ positions (length rs) → r ∈ rs → r' ∈ rs → recordOrd r = recordOrd r' → r = r'.
Proof.
  intros Hp Hr Hr' Heq.
  assert (Hnd : NoDup (map recordOrd rs)).
  { rewrite Hp. unfold positions. apply NoDup_fmap_2; [|apply NoDup_seq]. by intros i j [= ?%Nat2Z.inj]. }
  apply list_elem_of_lookup in Hr as [i Hi], Hr' as [j Hj].
  assert (i = j) as ->; [|congruence]. apply (NoDup_lookup _ i j (recordOrd r) Hnd);
    change (map recordOrd rs) with (recordOrd <$> rs); rewrite list_lookup_fmap; [by rewrite Hi|by rewrite Hj, Heq].
Qed.

(** ** Properties of the cursor *)

(** The cursor is derived from a contiguous prefix: there is one exactly
    when the records are those of a single session and their positions are
    [0 .. n-1], each once, in any order; it then names that session, the number
    of records, and the entry at the last position. *)
Theorem computeCursor_iff rs c :
  computeCursor rs = Some c ↔
  rs ≠ [] ∧ (∀ r, r ∈ rs → recordSession r = cursorSession c) ∧
  map recordOrd rs ≡ₚ positions (length rs) ∧
  entryCount c = NInt (Z.of_nat (length rs)) ∧
  ∃ r, r ∈ rs ∧ recordOrd r = NInt (Z.of_nat (length rs) - 1) ∧ recordEntryId r = lastKnownId c.
Proof.
  split; [apply computeCursor_sound|]. intros (Hne & Hs & Hp & Hn & r & Hr & Ho & Hid).
  destruct (computeCursor_complete rs (cursorSession c) Hne Hs Hp) as [c' Hc']. rewrite Hc'. f_equal.
  apply computeCursor_sound in Hc' as (_ & Hs' & _ & Hn' & r' & Hr' & Ho' & Hid').
  assert (r = r') as <- by (apply (positions_unique rs); congruence).
  specialize (Hs r Hr). specialize (Hs' r Hr). destruct c, c'; simpl in *; congruence.
Qed.
