(* ===== verification/Sync.v ===== *)
(** * Initial sync

    [sync.ts]: the frame a client gets when it attaches, a delta patch over the
    committed prefix its cursor names, or a full snapshot. *)

From S2P Require Export Cache Converge.

Inductive InitialSyncFrame :=
| ReplaceFrame (session : json) (document : json)
| PatchFrame (session : json) (ops : list PatchOp).

Definition validateCursor (piEntries : list json) (cursor : PrefixCursor) (sessionId : json) : bool :=
  if negb (prim_eq (JStr (cursorSession cursor)) sessionId) then false
  else
    match entryCount cursor with
    | NInt n =>
      if (n <=? 0)%Z then false
      else if (Z.of_nat (length piEntries) <? n)%Z then false
      else match piEntries !! Z.to_nat (n - 1) with
           | Some e => prim_eq (get e "id") (JStr (lastKnownId cursor))
           | None => false
           end
    | NFloat _ => false
    end.

(** Committed entries in file order: id and lazy-stripped value; the position is
    the index in the list. *)
Fixpoint collectCommitted (i : nat) (doc : json) (piEntries : list json) : list (string * nat * json) :=
  match piEntries with
  | [] => []
  | piEntry :: rest =>
    let id := entryId piEntry in
    let base := match docEntries doc !! id with
                | Some existing => if isEntrySealed existing then existing else projectEntry piEntry i
                | None => projectEntry piEntry i
                end in
    (id, i, stripLazyFields base) :: collectCommitted (S i) doc rest
  end.

Definition collectProvisional (doc : json) : list (string * json) :=
  omap (λ kv, if isEntrySealed kv.2 then None else Some (kv.1, stripLazyFields kv.2))
    (map_to_list (docEntries doc)).

(** [entries[id] ??= value] *)
Definition assignIfNullish (m : record) (id : string) (value : json) : record :=
  if nullish (get (JObj m) id) then <[id := value]> m else m.

Definition fullEntries (doc : json) (piEntries : list json) : record :=
  let committed := foldl (λ m c, <[c.1.1 := c.2]> m) ∅ (collectCommitted 0 doc piEntries) in
  foldl (λ m kv, assignIfNullish m kv.1 kv.2) committed (collectProvisional doc).

Definition deltaOps (doc : json) (piEntries : list json) (count : num) : list PatchOp :=
  let committed := collectCommitted 0 doc piEntries in
  map (λ c, AddOp (path_of ["entries"; c.1.1]) c.2)
    (filter (λ c, negb (num_ltb (NInt (Z.of_nat c.1.2)) count) = true) committed)
  ++ map (λ kv, AddOp (path_of ["entries"; kv.1]) kv.2)
    (filter (λ kv, kv.1 ∉ map (λ c, c.1.1) committed) (collectProvisional doc))
  ++ [ReplaceOp "/status" (get doc "status")].

Definition buildInitialSync (doc : json) (piEntries : list json) (session : json) (cursor : option PrefixCursor)
    : InitialSyncFrame :=
  match cursor with
  | Some c =>
    if validateCursor piEntries c (get session "sessionId") then PatchFrame session (deltaOps doc piEntries (entryCount c))
    else ReplaceFrame session (makeDocument (get doc "status") (fullEntries doc piEntries))
  | None => ReplaceFrame session (makeDocument (get doc "status") (fullEntries doc piEntries))
  end.

(** ** What a cached prefix is *)

(** The records of the first [n] log entries. *)
Definition prefixRecords (sessionId : string) (piEntries : list json) (n : nat) : list CacheEntryRecord :=
  imap (λ i p, mkRecord sessionId (NInt (Z.of_nat i)) (entryId p) (entryForCache (projectEntry p i)))
    (take n piEntries).

(** Every sealed entry of the document is a log entry at its place. *)
Definition sealed_in_place (doc : json) (piEntries : list json) : Prop :=
  ∀ id e, docEntries doc !! id = Some e → isEntrySealed e = true →
    ∃ i p, piEntries !! i = Some p ∧ entryId p = id ∧ e = projectEntry p i.

(** ** Lemmas *)

Section inserts.
  Context {A : Type} (key : A → string) (val : A → json).

(** The operations that install a list, and their effect. *)
Lemma applyKeyOps_adds status l E :
  Forall (λ c, plain_key (key c) = true) l →
  applyKeyOps (makeDocument status E) (map keyOp (map (λ c, AddOp (path_of ["entries"; key c]) (val c)) l))
    = makeDocument status (foldl (λ m c, <[key c := val c]> m) E l).
Proof.
  intros Hl. revert E. induction Hl as [|c l Hc _ IH]; intros E; [done|].
  rewrite (map_cons _ c l), document_add by done. apply IH.
Qed.
End inserts.

Lemma collectCommitted_eq i doc piEntries :
  (∀ j p, piEntries !! j = Some p → ∀ e, docEntries doc !! entryId p = Some e → isEntrySealed e = true →
     e = projectEntry p (i + j)) →
  collectCommitted i doc piEntries
    = imap (λ j p, (entryId p, i + j, stripLazyFields (projectEntry p (i + j)))) piEntries.
Proof.
  revert i. induction piEntries as [|p rest IH]; intros i H; [done|]. simpl. rewrite Nat.add_0_r. f_equal.
  - do 2 f_equal. destruct (docEntries doc !! entryId p) as [e|] eqn:He; [|done].
    destruct (isEntrySealed e) eqn:Hs; [|done]. rewrite (H 0 p eq_refl e He Hs). f_equal. lia.
  - rewrite IH.
    + apply imap_ext. intros j x _. simpl. do 2 f_equal; [f_equal; lia|]. do 2 f_equal. lia.
    + intros j q Hj e He Hs. rewrite (H (S j) q Hj e He Hs). f_equal. lia.
Qed.

Lemma sealed_in_place_committed doc piEntries :
  stored_log piEntries → sealed_in_place doc piEntries →
  collectCommitted 0 doc piEntries = imap (λ j p, (entryId p, j, stripLazyFields (projectEntry p j))) piEntries.
Proof.
  intros (_ & Hnd & _) Hs. rewrite collectCommitted_eq; [done|].
  intros j p Hj e He Hsealed. destruct (Hs _ e He Hsealed) as (i & q & Hi & Heq & ->). simpl.
  assert (i = j) as ->; [|congruence]. apply (NoDup_lookup _ i j (entryId p) Hnd);
    change (map entryId piEntries) with (entryId <$> piEntries); rewrite list_lookup_fmap;
    [by rewrite Hi; simpl; rewrite Heq|by rewrite Hj].
Qed.

Lemma committed_keys piEntries (f : nat → json → json) :
  map (λ c, c.1.1) (imap (λ j p, (entryId p, j, f j p)) piEntries) = map entryId piEntries.
Proof.
  change (map (λ c, c.1.1)) with (fmap (M:=list) (λ c : string * nat * json, c.1.1)).
  rewrite fmap_imap. change (map entryId) with (fmap (M:=list) entryId). 
  rewrite <- imap_const. by apply imap_ext.
Qed.

(** The live forms of the document, by id. *)
Lemma collectProvisional_elem doc id v :
  (id, v) ∈ collectProvisional doc ↔
  ∃ e, docEntries doc !! id = Some e ∧ isEntrySealed e = false ∧ v = stripLazyFields e.
Proof.
  unfold collectProvisional. rewrite list_elem_of_omap. split.
  - intros ([k e] & Hin & H). simpl in H. apply elem_of_map_to_list in Hin.
    destruct (isEntrySealed e) eqn:Hs; simplify_eq. eauto.
  - intros (e & He & Hs & ->). exists (id, e). split; [by apply elem_of_map_to_list|]. simpl. by rewrite Hs.
Qed.

Lemma collectProvisional_nodup doc : NoDup (map fst (collectProvisional doc)).
Proof.
  unfold collectProvisional. pose proof (NoDup_fst_map_to_list (docEntries doc)) as Hnd.
  induction (map_to_list (docEntries doc)) as [|[k e] l IH]; [constructor|].
  apply NoDup_cons in Hnd as [Hk Hnd]. simpl. destruct (isEntrySealed e); [by apply IH|].
  simpl. constructor; [|by apply IH].
  intros ([k' v] & -> & Hin)%list_elem_of_fmap. apply Hk. apply list_elem_of_omap in Hin as ([k2 e2] & Hin & H2).
  simpl in H2. destruct (isEntrySealed e2); simplify_eq. by apply (list_elem_of_fmap_2 fst) in Hin.
Qed.

Lemma strip_object m : ∃ m', stripLazyFields (JObj m) = JObj m'.
Proof. unfold stripLazyFields. repeat case_match; eauto. Qed.

Lemma strip_other e k :
  k ≠ "sections" → k ≠ "content" → k ≠ "details" → own (stripLazyFields e) !! k = own e !! k.
Proof.
  intros Hs Hc Hd. rewrite strip_lookup. unfold stripped_prop.
  rewrite (bool_decide_eq_false_2 (k = "sections")), (bool_decide_eq_false_2 (k = "content")),
    (bool_decide_eq_false_2 (k = "details")) by done. done.
Qed.

Lemma strip_parent m : get (stripLazyFields (JObj m)) "parentId" = get (JObj m) "parentId".
Proof. rewrite strip_own. cbn [get]. by rewrite strip_other. Qed.

Lemma entryForCache_sealed m :
  get (JObj m) "isSealed" = JBool true → entryForCache (JObj m) = stripLazyFields (JObj m).
Proof.
  intros H. unfold entryForCache, spread. rewrite (strip_own (JObj m)) at 2. f_equal. unfold assign. simpl foldl.
  apply insert_id. rewrite strip_other by done. cbn [get own] in *.
  destruct (m !! "isSealed") as [v|]; simpl in H; [by subst|done].
Qed.

Lemma entryForCache_project p i : entryForCache (projectEntry p i) = stripLazyFields (projectEntry p i).
Proof. pose proof (projectEntry_sealed p i) as H. rewrite projectEntry_own in H |- *. by apply entryForCache_sealed. Qed.

(** *** Reading the two frames *)

Definition present (m : record) : Prop := map_Forall (λ _ v, nullish v = false) m.

Lemma assignIfNullish_lookup m k v id :
  present m → assignIfNullish m k v !! id = if decide (id = k) then Some (default v (m !! k)) else m !! id.
Proof.
  intros Hm. unfold assignIfNullish. cbn [get]. destruct (m !! k) as [w|] eqn:Hk; simpl.
  - rewrite (Hm k w Hk). case_decide; [by subst|done].
  - case_decide as Hid; [subst; by rewrite lookup_insert_eq|by rewrite lookup_insert_ne].
Qed.

Lemma assignIfNullish_present m k v : present m → nullish v = false → present (assignIfNullish m k v).
Proof. intros Hm Hv. unfold assignIfNullish. case_match; [by apply map_Forall_insert_2|done]. Qed.

Lemma foldl_assign_in l (m : record) id v :
  present m → Forall (λ kv, nullish kv.2 = false) l → NoDup (map fst l) → m !! id = None → (id, v) ∈ l →
  foldl (λ m kv, assignIfNullish m kv.1 kv.2) m l !! id = Some v.
Proof.
  intros Hm Hl. revert m Hm. induction Hl as [|[k w] l Hw Hl IH]; intros m Hm Hnd Hid Hin; [set_solver|].
  apply NoDup_cons in Hnd as [Hk Hnd]. simpl in *.
  apply elem_of_cons in Hin as [[= -> ->]|Hin].
  - assert (∀ m', present m' → m' !! k = Some w → k ∉ map fst l →
      foldl (λ m kv, assignIfNullish m kv.1 kv.2) m' l !! k = Some w) as Hkeep.
    { clear -Hl. induction Hl as [|[k' w'] l Hw' Hl IH]; intros m' Hm' Hk' Hnot; [done|]. simpl in *.
      apply IH; [by apply assignIfNullish_present| |set_solver].
      rewrite assignIfNullish_lookup by done. case_decide; [set_solver|done]. }
    apply Hkeep; [by apply assignIfNullish_present| |done].
    rewrite assignIfNullish_lookup, decide_True by done. by rewrite Hid.
  - assert (id ≠ k) by (intros ->; apply Hk; by apply (list_elem_of_fmap_2 fst) in Hin).
    apply IH; [by apply assignIfNullish_present|done| |done].
    rewrite assignIfNullish_lookup by done. by rewrite decide_False.
Qed.

Lemma foldl_assign_old l (m : record) id :
  present m → Forall (λ kv, nullish kv.2 = false) l → (is_Some (m !! id) ∨ id ∉ map fst l) →
  foldl (λ m kv, assignIfNullish m kv.1 kv.2) m l !! id = m !! id.
Proof.
  intros Hm Hl. revert m Hm. induction Hl as [|[k w] l Hw Hl IH]; intros m Hm Hid; [done|]. simpl in *.
  assert (Hone : assignIfNullish m k w !! id = m !! id).
  { rewrite assignIfNullish_lookup by done. case_decide as Hk; [|done]. subst.
    destruct Hid as [[v ->]|Hid]; [done|set_solver]. }
  rewrite IH; [done|by apply assignIfNullish_present|]. rewrite Hone. destruct Hid; [by left|right; set_solver].
Qed.

Section frames.
  Context (s E : record) (piEntries : list json) (n : nat).
Let doc := makeDocument (JObj s) E.
  Context (Hplain : map_Forall (λ k _, plain_key k = true) E)
    (Hobj : map_Forall (λ _ e, ∃ m, e = JObj m) E)
    (Hlog : stored_log piEntries) (Hplace : sealed_in_place doc piEntries).

(** The projected log entry at a position, as it travels. *)
Definition committedAt (j : nat) (p : json) : json := stripLazyFields (projectEntry p j).

Lemma committedAt_object j p : ∃ m, committedAt j p = JObj m.
Proof. unfold committedAt. rewrite projectEntry_own. apply strip_object. Qed.

Lemma committedAt_nullish j p : nullish (committedAt j p) = false.
Proof. by destruct (committedAt_object j p) as [m ->]. Qed.

Let committed := imap (λ j p, (entryId p, j, committedAt j p)) piEntries.

Lemma committed_nodup : NoDup (map (λ c : string * nat * json, c.1.1) committed).
Proof. unfold committed. rewrite committed_keys. by destruct Hlog as (_ & ? & _). Qed.

Lemma committed_elem j p : piEntries !! j = Some p → (entryId p, j, committedAt j p) ∈ committed.
Proof. intros Hj. apply elem_of_lookup_imap. eauto. Qed.

Lemma doc_entries : docEntries doc = E.
Proof. apply makeDocument_entries. Qed.

Lemma provisional_nullish : Forall (λ kv : string * json, nullish kv.2 = false) (collectProvisional doc).
Proof.
  apply Forall_forall. intros [id v] (e & He & _ & ->)%collectProvisional_elem.
  rewrite doc_entries in He. destruct (Hobj id e He) as [m ->]. by destruct (strip_object m) as [m' ->].
Qed.

Lemma not_logged_unsealed id e : id ∉ map entryId piEntries → E !! id = Some e → isEntrySealed e = false.
Proof.
  intros Hid He. apply not_true_is_false. intros Hs.
  destruct (Hplace id e) as (i & p & Hi & <- & _); [by rewrite doc_entries|done|].
  apply Hid, (list_elem_of_fmap_2 entryId). by eapply list_elem_of_lookup_2.
Qed.

Lemma committed_present : present (foldl (λ (m : record) (c : string * nat * json), <[c.1.1 := c.2]> m) ∅ committed).
Proof.
  intros k v Hv. destruct (decide (k ∈ map (λ c : string * nat * json, c.1.1) committed)) as [Hk|Hk].
  - apply list_elem_of_fmap in Hk as (c & -> & Hc).
    rewrite (foldl_insert_in (λ c : string * nat * json, c.1.1) (λ c, c.2) _ _ _ committed_nodup Hc) in Hv.
    injection Hv as <-. apply elem_of_lookup_imap in Hc as (i & q & -> & _). apply committedAt_nullish.
  - by rewrite (foldl_insert_notin (λ c : string * nat * json, c.1.1) (λ c, c.2)) in Hv.
Qed.

(** The full snapshot: the projected log, and the live forms. *)
Lemma fullEntries_logged j p :
  piEntries !! j = Some p → fullEntries doc piEntries !! entryId p = Some (committedAt j p).
Proof.
  intros Hj. unfold fullEntries. rewrite sealed_in_place_committed by done. fold committed.
  assert (Hin := foldl_insert_in (λ c : string * nat * json, c.1.1) (λ c, c.2) committed ∅ _ committed_nodup (committed_elem j p Hj)).
  cbn [fst snd] in Hin.
  rewrite foldl_assign_old; [exact Hin|apply committed_present|apply provisional_nullish|left; eauto].
Qed.

Lemma fullEntries_live id :
  id ∉ map entryId piEntries → fullEntries doc piEntries !! id = stripLazyFields <$> E !! id.
Proof.
  intros Hid. unfold fullEntries. rewrite sealed_in_place_committed by done. fold committed.
  set (m0 := foldl (λ (m : record) (c : string * nat * json), <[c.1.1 := c.2]> m) ∅ committed). pose proof committed_present as Hm0. fold m0 in Hm0.
  assert (Hno : m0 !! id = None).
  { unfold m0. rewrite (foldl_insert_notin (λ c : string * nat * json, c.1.1) (λ c, c.2)); [done|]. unfold committed. by rewrite committed_keys. }
  destruct (E !! id) as [e|] eqn:He; simpl.
  - apply foldl_assign_in; [done|apply provisional_nullish|apply collectProvisional_nodup|done|].
    apply collectProvisional_elem. exists e. rewrite doc_entries. split; [done|]. split; [by eapply not_logged_unsealed|done].
  - rewrite foldl_assign_old; [done|done|apply provisional_nullish|right].
    intros ([k v] & -> & (e & Hk & _)%collectProvisional_elem)%list_elem_of_fmap. rewrite doc_entries in Hk. simpl in He. congruence.
Qed.

(** The mirror a client has before the delta. *)
Context (M : record) (Hn : n ≤ length piEntries)
  (Hold : ∀ j p, j < n → piEntries !! j = Some p → M !! entryId p = Some (committedAt j p))
  (Hno : ∀ id, id ∉ map entryId piEntries → M !! id = None).

Let suffix := filter (λ c : string * nat * json, negb (num_ltb (NInt (Z.of_nat c.1.2)) (NInt (Z.of_nat n))) = true) committed.
Let inFlight := filter (λ kv : string * json, kv.1 ∉ map (λ c : string * nat * json, c.1.1) committed) (collectProvisional doc).

Definition afterDelta : record :=
  foldl (λ m kv, <[kv.1 := kv.2]> m) (foldl (λ m c, <[c.1.1 := c.2]> m) M suffix) inFlight.

Lemma suffix_elem c : c ∈ suffix ↔ ∃ j p, piEntries !! j = Some p ∧ n ≤ j ∧ c = (entryId p, j, committedAt j p).
Proof.
  unfold suffix. rewrite list_elem_of_filter, negb_true_iff. split.
  - intros [Hlt (j & p & -> & Hj)%elem_of_lookup_imap_1]. simpl in Hlt. apply Z.ltb_ge in Hlt.
    exists j, p. split; [done|]. split; [lia|done].
  - intros (j & p & Hj & Hle & ->). split; [simpl; apply Z.ltb_ge; lia|by apply committed_elem].
Qed.

Lemma suffix_nodup : NoDup (map (λ c : string * nat * json, c.1.1) suffix).
Proof.
  unfold suffix. eapply sublist_NoDup; [apply committed_nodup|]. apply fmap_sublist, sublist_filter.
Qed.

Lemma inFlight_nodup : NoDup (map fst inFlight).
Proof.
  unfold inFlight. eapply sublist_NoDup; [apply collectProvisional_nodup|]. apply fmap_sublist, sublist_filter.
Qed.

Lemma inFlight_not_logged id : id ∈ map entryId piEntries → id ∉ map fst inFlight.
Proof.
  intros Hid Hin. apply list_elem_of_fmap in Hin as (kv & -> & [Hk _]%list_elem_of_filter). apply Hk.
  unfold committed. by rewrite committed_keys.
Qed.

(** The delta gives the same entries as the snapshot. *)
Lemma afterDelta_full : afterDelta = fullEntries doc piEntries.
Proof.
  apply map_eq. intros id. unfold afterDelta. destruct (decide (id ∈ map entryId piEntries)) as [Hid|Hid].
  - rewrite (foldl_insert_notin fst snd) by by apply inFlight_not_logged.
    apply list_elem_of_fmap in Hid as (p & -> & [j Hj]%list_elem_of_lookup).
    rewrite (fullEntries_logged j p Hj). destruct (decide (n ≤ j)) as [Hle|Hlt].
    + apply (foldl_insert_in (λ c : string * nat * json, c.1.1) (λ c, c.2) suffix M (entryId p, j, committedAt j p) suffix_nodup).
      apply suffix_elem. eauto.
    + rewrite (foldl_insert_notin (λ c : string * nat * json, c.1.1) (λ c, c.2)); [apply Hold; [lia|done]|].
      intros (c & Heq & (i & q & Hi & Hle & ->)%suffix_elem)%list_elem_of_fmap. simpl in Heq.
      destruct Hlog as (_ & Hnd & _). assert (i = j) as ->; [|lia].
      apply (NoDup_lookup _ i j (entryId p) Hnd); change (map entryId piEntries) with (entryId <$> piEntries);
        rewrite list_lookup_fmap; [by rewrite Hi, Heq|by rewrite Hj].
  - rewrite fullEntries_live by done.
    assert (Hsuf : foldl (λ m c, <[c.1.1 := c.2]> m) M suffix !! id = None).
    { rewrite (foldl_insert_notin (λ c : string * nat * json, c.1.1) (λ c, c.2)); [by apply Hno|].
      intros (c & -> & (i & q & Hi & _ & ->)%suffix_elem)%list_elem_of_fmap. apply Hid.
      apply (list_elem_of_fmap_2 entryId). by eapply list_elem_of_lookup_2. }
    destruct (E !! id) as [e|] eqn:He; simpl.
    + apply (foldl_insert_in fst snd inFlight _ (id, stripLazyFields e) inFlight_nodup).
      apply list_elem_of_filter. split; [unfold committed; by rewrite committed_keys|].
      apply collectProvisional_elem. exists e. rewrite doc_entries. split; [done|]. split; [by eapply not_logged_unsealed|done].
    + rewrite (foldl_insert_notin fst snd); [done|].
      intros ([k v] & -> & [_ (e & Hk & _)%collectProvisional_elem]%list_elem_of_filter)%list_elem_of_fmap.
      rewrite doc_entries in Hk. simpl in He. congruence.
Qed.

Lemma document_new_status st st' E0 : applyKeyOp (makeDocument st E0) (KSet ["status"] st') = makeDocument st' E0.
Proof.
  unfold makeDocument, object, assign. simpl.
  by rewrite (insert_insert_ne _ "status" "entries"), insert_insert_eq, insert_insert_ne by done.
Qed.

Lemma deltaOps_apply st :
  applyPatch (makeDocument st M) (deltaOps doc piEntries (NInt (Z.of_nat n)))
    = Some (makeDocument (JObj s) (fullEntries doc piEntries)).
Proof.
  unfold deltaOps. rewrite sealed_in_place_committed by done. cbv zeta. fold committed. fold suffix. fold inFlight.
  assert (Hp1 : Forall (λ c : string * nat * json, plain_key c.1.1 = true) suffix).
  { apply Forall_forall. intros c (j & p & Hj & _ & ->)%suffix_elem. destruct Hlog as (Hst & _).
    rewrite Forall_lookup in Hst. by destruct (Hst j p Hj). }
  assert (Hp2 : Forall (λ kv : string * json, plain_key kv.1 = true) inFlight).
  { apply Forall_forall. intros [id v] [_ (e & He & _)%collectProvisional_elem]%list_elem_of_filter.
    rewrite doc_entries in He. by apply (Hplain id e). }
  rewrite applyPatch_writes.
  2:{ rewrite !existsb_app. simpl. by rewrite !orb_true_r. }
  rewrite !map_app, !applyKeyOps_app, applyKeyOps_adds by done. rewrite (applyKeyOps_adds fst snd) by done.
  assert (get doc "status" = JObj s) as -> by apply makeDocument_status. cbn [map keyOp]. change (parsePath "/status") with ["status"].
  unfold applyKeyOps. cbn [foldl]. rewrite document_new_status. by rewrite <- afterDelta_full.
Qed.
End frames.

(** *** Seeding a mirror from a cached prefix *)

Lemma prefixRecords_elem sid piEntries n r :
  r ∈ prefixRecords sid piEntries n ↔
  ∃ j p, j < n ∧ piEntries !! j = Some p ∧ r = mkRecord sid (NInt (Z.of_nat j)) (entryId p) (committedAt j p).
Proof.
  unfold prefixRecords. split.
  - intros (j & p & -> & Hj)%elem_of_lookup_imap_1. apply lookup_take_Some in Hj as [Hj Hlt].
    exists j, p. rewrite entryForCache_project. auto.
  - intros (j & p & Hlt & Hj & ->). apply elem_of_lookup_imap. exists j, p. split; [|by apply lookup_take_Some].
    by rewrite entryForCache_project.
Qed.

Lemma prefixRecords_ids sid piEntries n : map recordEntryId (prefixRecords sid piEntries n) = map entryId (take n piEntries).
Proof.
  unfold prefixRecords. change (map recordEntryId) with (fmap (M:=list) recordEntryId). rewrite fmap_imap.
  change (map entryId) with (fmap (M:=list) entryId). rewrite <- imap_const. by apply imap_ext.
Qed.

Lemma prefixRecords_ords sid piEntries n :
  n ≤ length piEntries → map recordOrd (prefixRecords sid piEntries n) = positions n.
Proof.
  intros Hn. unfold prefixRecords. change (map recordOrd) with (fmap (M:=list) recordOrd). rewrite fmap_imap.
  unfold positions. apply list_eq. intros i. rewrite list_lookup_imap, list_lookup_fmap.
  destruct (decide (i < n)) as [Hi|Hi].
  - rewrite lookup_seq_lt by done. destruct (lookup_lt_is_Some_2 piEntries i) as [p Hp]; [lia|].
    rewrite lookup_take_lt by done. by rewrite Hp.
  - rewrite lookup_seq_ge by lia. rewrite lookup_take_ge by lia. done.
Qed.

Lemma acyclic_mono (S E : record) :
  acyclic S → (∀ id e, E !! id = Some e → ∃ e', S !! id = Some e' ∧ get e' "parentId" = get e "parentId") → acyclic E.
Proof.
  intros [rank Hr] H. exists rank. intros id e p He Hp [e2 He2].
  destruct (H id e He) as (e' & He' & Heq). destruct (H p e2 He2) as (e2' & He2' & _).
  apply (Hr id e'); [done|by rewrite Heq|eauto].
Qed.

Section seed.
  Context (sid : string) (piEntries : list json) (n : nat) (records : list CacheEntryRecord)
    (Hlog : stored_log piEntries) (Hn : 0 < n ≤ length piEntries)
    (Hrec : records ≡ₚ prefixRecords sid piEntries n).

Lemma seed_nodup : NoDup (map recordEntryId records).
Proof.
  assert (map recordEntryId records ≡ₚ map entryId (take n piEntries)) as ->.
  { rewrite <- (prefixRecords_ids sid). by apply Permutation_map. }
  destruct Hlog as (_ & Hnd & _). eapply sublist_NoDup; [exact Hnd|]. apply fmap_sublist, sublist_take.
Qed.

Let M := seedEntries (sortByOrd records).

Lemma seed_sorted_nodup : NoDup (map recordEntryId (sortByOrd records)).
Proof.
  assert (map recordEntryId (sortByOrd records) ≡ₚ map recordEntryId records) as -> by (apply Permutation_map, sort_by_perm).
  apply seed_nodup.
Qed.

Lemma seed_in j p : j < n → piEntries !! j = Some p → M !! entryId p = Some (committedAt j p).
Proof.
  intros Hlt Hj. apply (foldl_insert_in recordEntryId recordEntry (sortByOrd records) ∅
    (mkRecord sid (NInt (Z.of_nat j)) (entryId p) (committedAt j p)) seed_sorted_nodup).
  unfold sortByOrd; rewrite sort_by_perm, Hrec. apply prefixRecords_elem. eauto.
Qed.

Lemma seed_out id : id ∉ map entryId (take n piEntries) → M !! id = None.
Proof.
  intros Hid. unfold M, seedEntries. rewrite (foldl_insert_notin recordEntryId recordEntry); [done|].
  intros Hin. apply Hid. rewrite <- (prefixRecords_ids sid).
  apply list_elem_of_fmap in Hin as (r & -> & Hr). unfold sortByOrd in Hr; rewrite sort_by_perm, Hrec in Hr.
  by apply (list_elem_of_fmap_2 recordEntryId).
Qed.

Lemma seed_inv id e : M !! id = Some e → ∃ j p, j < n ∧ piEntries !! j = Some p ∧ entryId p = id ∧ e = committedAt j p.
Proof.
  intros He. destruct (decide (id ∈ map entryId (take n piEntries))) as [Hid|Hid].
  - apply list_elem_of_fmap in Hid as (p & -> & [j Hj]%list_elem_of_lookup).
    apply lookup_take_Some in Hj as [Hj Hlt]. rewrite (seed_in j p Hlt Hj) in He. simplify_eq. eauto 6.
  - by rewrite seed_out in He.
Qed.

Lemma seed_total hint : ∃ st, seedDocument records hint = Some (makeDocument st M).
Proof.
  assert (Ha : acyclic M).
  { eapply acyclic_mono; [eapply entries_inv_acyclic, (sealed_inv_self _ Hlog)|].
    intros id e (j & p & _ & Hj & <- & ->)%seed_inv. exists (projectEntry p j).
    split; [by apply sealed_lookup|]. unfold committedAt. rewrite projectEntry_own. symmetry. apply strip_parent. }
  unfold seedDocument, deriveStatus. fold M.
  destruct (deriveStats_acyclic M (opt_str (get JUndef "leafId" ?? deriveLeafId M)) Ha) as [stats Hstats].
  unfold deriveStatsForEntries in Hstats. rewrite Hstats. cbn [mbind option_bind]. by eexists.
Qed.

Lemma seed_cursor : ∃ c, computeCursor records = Some c ∧ entryCount c = NInt (Z.of_nat n) ∧
  ∀ session, get session "sessionId" = JStr sid → validateCursor piEntries c (get session "sessionId") = true.
Proof.
  assert (Hlen : length records = n).
  { rewrite Hrec, <- (length_map recordOrd), prefixRecords_ords by lia. unfold positions. by rewrite length_map, length_seq. }
  assert (Hsess : ∀ r, r ∈ records → recordSession r = sid).
  { intros r Hr. rewrite Hrec in Hr. by apply prefixRecords_elem in Hr as (j & p & _ & _ & ->). }
  assert (Hords : map recordOrd records ≡ₚ positions (length records)).
  { rewrite Hlen, <- (prefixRecords_ords sid piEntries) by lia. by apply Permutation_map. }
  destruct (computeCursor_complete records sid) as [c Hc]; [destruct records; [simpl in *; lia|done]|done|done|].
  exists c. split; [done|]. apply computeCursor_sound in Hc as (_ & Hs & _ & Hcount & r & Hr & Ho & Hid).
  rewrite Hlen in *. split; [done|]. intros session ->.
  assert (Hsid : cursorSession c = sid) by (rewrite <- (Hs r Hr); by apply Hsess).
  rewrite Hrec in Hr. apply prefixRecords_elem in Hr as (j & p & Hlt & Hj & ->). simpl in *.
  assert (j = n - 1) as -> by (injection Ho; lia).
  unfold validateCursor. rewrite Hsid, Hcount. simpl prim_eq. rewrite bool_decide_eq_true_2 by done. cbn [negb].
  assert ((Z.of_nat n <=? 0)%Z = false) as -> by (apply Z.leb_gt; lia).
  assert ((Z.of_nat (length piEntries) <? Z.of_nat n)%Z = false) as -> by (apply Z.ltb_ge; lia).
  replace (Z.to_nat (Z.of_nat n - 1)) with (n - 1) by lia. rewrite Hj.
  destruct Hlog as (Hst & _). rewrite Forall_lookup in Hst. destruct (Hst _ _ Hj) as [[-> _] _]. simpl.
  by apply bool_decide_eq_true.
Qed.
End seed.

(** ** Properties *)

(** C2.  A delta sync is a full sync: when a client holds, in any order, the
    cached records of the first [n] log entries, the cursor it derives is
    accepted, and the delta patch applied to the mirror it seeds from those
    records, with any status hint, gives exactly the document the full snapshot
    would have carried. *)
Theorem delta_sync_equals_full s E piEntries session sid n records hint :
  map_Forall (λ k e, plain_key k = true ∧ ∃ m, e = JObj m) E →
  stored_log piEntries → sealed_in_place (makeDocument (JObj s) E) piEntries →
  get session "sessionId" = JStr sid → 0 < n ≤ length piEntries →
  (records ≡ₚ prefixRecords sid piEntries n) →
  ∃ cursor mirror ops full,
    computeCursor records = Some cursor ∧ seedDocument records hint = Some mirror ∧
    buildInitialSync (makeDocument (JObj s) E) piEntries session (Some cursor) = PatchFrame session ops ∧
    buildInitialSync (makeDocument (JObj s) E) piEntries session None = ReplaceFrame session full ∧
    applyPatch mirror ops = Some full.
Proof.
  intros HE Hlog Hplace Hsession Hn Hrec.
  destruct (seed_cursor sid piEntries n records Hlog Hn Hrec) as (c & Hc & Hcount & Hvalid).
  destruct (seed_total sid piEntries n records Hlog Hrec hint) as [st Hseed].
  eexists c, _, _, _. split; [done|]. split; [exact Hseed|]. unfold buildInitialSync.
  rewrite (Hvalid session Hsession). split; [reflexivity|]. split; [reflexivity|].
  rewrite Hcount, makeDocument_status. apply (deltaOps_apply s E piEntries n); try done.
  - intros k e Hk. by apply (HE k e).
  - intros k e Hk. by apply (HE k e).
  - by destruct Hn.
  - intros j p Hlt Hj. by apply (seed_in sid piEntries n records Hlog Hrec).
  - intros id Hid. apply (seed_out sid piEntries n records Hrec). intros Hin. apply Hid.
    eapply sublist_subseteq; [|exact Hin]. apply fmap_sublist, sublist_take.
Qed.

Lemma delta_sync_equals_full_witness :
  let entry id parent := object [("type", JStr "session_info"); ("id", JStr id); ("parentId", parent)] in
  let pi := [entry "a" JNull; entry "b" (JStr "a")] in
  let form := object [("id", JStr "m"); ("isSealed", JBool false); ("kind", JStr "tool_result"); ("content", JStr "x")] in
  let session := object [("sessionId", JStr "s")] in
  let doc := makeDocument (object [("leafId", JStr "m")]) {["m" := form]} in
  ∃ cursor mirror ops full,
    computeCursor (prefixRecords "s" pi 1) = Some cursor ∧
    seedDocument (prefixRecords "s" pi 1) (Some (object [("name", JStr "n")])) = Some mirror ∧
    buildInitialSync doc pi session (Some cursor) = PatchFrame session ops ∧
    buildInitialSync doc pi session None = ReplaceFrame session full ∧
    applyPatch mirror ops = Some full.
Proof.
  intros entry pi form session doc. apply (delta_sync_equals_full (assign ∅ [("leafId", JStr "m")]) {["m" := form]} pi session "s" 1).
  - apply map_Forall_singleton. split; [reflexivity|]. eexists. reflexivity.
  - split; [|split].
    + repeat (apply Forall_cons; split; [split; [split; [reflexivity|discriminate]|reflexivity]|]). by apply Forall_nil.
    + apply (bool_decide_unpack _). vm_compute. exact I.
    + intros [|[|[|i]]] e q Hi Hq; simpl in Hi; simplify_eq/=. exists 0, (entry "a" JNull).
      rewrite lookup_insert_eq in Hq. injection Hq as <-. split; [lia|]. split; reflexivity.
  - intros id e He Hs. rewrite makeDocument_entries in He. apply lookup_singleton_Some in He as [<- <-].
    vm_compute in Hs. discriminate.
  - reflexivity.
  - simpl. lia.
  - reflexivity.
Defined.
