(* ===== verification/CompactCodec.v ===== *)
(** * Transport compaction

    [compact-codec.ts]: the encoder sends a frame that differs from the held
    template in exactly the appended value as that value alone; the decoder
    rebuilds the frame from its own template.  A message is what [JSON.parse]
    makes of it: the round trip of a frame, or a bare string.  A frame is an
    object, given by its record.  [a === b] on objects compares references; it
    only shortens the comparison of equal structures, so it is not modelled. *)

From S2P Require Export Json.

(** A frame the codec may compact: a patch whose one op is a string append. *)
Definition compactableFrame (frame : json) : bool :=
  if negb (eq_str (get frame "kind") "patch") then false
  else
    match get frame "ops" with
    | JArr [op] =>
      is_object op && eq_str (get op "op") "append" && is_string (get op "path") && is_string (get op "value")
    | _ => false
    end.

Definition firstOp (frame : json) : json := get (get frame "ops") "0".

(** [{ ...frame, ops: [rest] }], [rest] the operation without its value. *)
Definition shapeOf (frame : json) : json :=
  spread frame [("ops", JArr [JObj (delete "value" (own (firstOp frame)))])].

Definition isDefined (v : json) : bool := negb (bool_decide (v = JUndef)).

(** The comparison of two objects, given the comparisons of the values of the
    first one, each with whether the value is defined. *)
Definition shapeRecords (a : gmap string (bool * (json → bool))) (b : json) : bool :=
  is_object b &&
  let aKeys := filter (λ kv, kv.2.1 = true) a in
  let bKeys := filter (λ kv, isDefined kv.2 = true) (own b) in
  bool_decide (size aKeys = size bKeys) &&
  forallb (λ kv, has b kv.1 && kv.2.2 (get b kv.1)) (map_to_list aKeys).

Fixpoint shapeEqual (a b : json) {struct a} : bool :=
  match a with
  | JObj m => shapeRecords ((λ v, (isDefined v, shapeEqual v)) <$> m) b
  | JArr l =>
    shapeRecords (list_to_map (imap (λ i f, (string_of_nat i, f)) (map (λ v, (isDefined v, shapeEqual v)) l))) b
  | _ => prim_eq a b
  end.

(** What one message carries. *)
Inductive WireText :=
| WFull (parsed : json)
| WBare (value : string).

(** [JSON.stringify] of a frame, as its receiver parses it. *)
Definition fullText (frame : json) : WireText := WFull (jsonRoundTrip frame).

Definition encode (template : option json) (frame : json) : option json * WireText :=
  if compactableFrame frame &&
     match template with Some t => shapeEqual (shapeOf frame) (shapeOf t) | None => false end
  then (template, match get (firstOp frame) "value" with JStr s => WBare s | v => WFull v end)
  else (if compactableFrame frame then Some frame else template, fullText frame).

Definition observe (template : option json) (parsed : json) : option json :=
  if compactableFrame parsed then Some parsed else template.

Definition decode (template : option json) (value : string) : option json :=
  match template with
  | None => None
  | Some t => Some (spread t [("ops", JArr [spread (firstOp t) [("value", JStr value)]])])
  end.

(** The transport handler's use of the codec: the frame a message stands for. *)
Definition receive (template : option json) (text : WireText) : option json * option json :=
  match text with
  | WFull parsed => (observe template parsed, Some parsed)
  | WBare value => (template, decode template value)
  end.

Fixpoint encodeAll (template : option json) (frames : list json) : list WireText :=
  match frames with
  | [] => []
  | f :: rest => let '(template', text) := encode template f in text :: encodeAll template' rest
  end.

Fixpoint receiveAll (template : option json) (texts : list WireText) : list (option json) :=
  match texts with
  | [] => []
  | t :: rest => let '(template', frame) := receive template t in frame :: receiveAll template' rest
  end.

(** A value without arrays. *)
Fixpoint array_free (v : json) : bool :=
  match v with
  | JArr _ => false
  | JObj m => map_fold (λ _ b acc, b && acc) true (array_free <$> m)
  | _ => true
  end.

(** The frames of the protocol: an object whose only array is [ops], and whose
    operation, when it is compactable, has no array in it. *)
Definition protocol_frame (frame : json) : Prop :=
  ∃ m, frame = JObj m ∧
    (compactableFrame frame = true →
      map_Forall (λ k v, k = "ops" ∨ array_free v = true) m ∧
      ∃ o, get frame "ops" = JArr [JObj o] ∧ map_Forall (λ _ v, array_free v = true) o).

(** ** Lemmas *)

Lemma array_free_object m : array_free (JObj m) = true ↔ map_Forall (λ _ v, array_free v = true) m.
Proof.
  simpl. rewrite (map_fold_andb (λ _ b, b)). split; intros H k v Hk.
  - specialize (H k (array_free v)). rewrite lookup_fmap, Hk in H. by apply H.
  - rewrite lookup_fmap in Hk. destruct (m !! k) as [w|] eqn:E; simplify_eq/=. by apply (H k).
Qed.

Lemma shapeEqual_undef v : shapeEqual v JUndef = true → v = JUndef.
Proof. by destruct v. Qed.

(** Two records with one shape: the same defined keys, and equal shapes there. *)
Lemma shapeEqual_records m n k :
  shapeEqual (JObj m) (JObj n) = true →
  (get (JObj m) k = JUndef ↔ get (JObj n) k = JUndef) ∧
  (get (JObj m) k ≠ JUndef → shapeEqual (get (JObj m) k) (get (JObj n) k) = true).
Proof.
  cbn [shapeEqual]. unfold shapeRecords. cbn [is_object andb own].
  set (fa := filter _ _). set (fb := filter _ n). rewrite andb_true_iff, bool_decide_eq_true.
  intros [Hsize Hall]. rewrite forallb_forall in Hall.
  assert (Ha : ∀ j, is_Some (fa !! j) ↔ get (JObj m) j ≠ JUndef).
  { intros j. unfold fa. cbn [get]. split.
    - intros [[d f] [Hf Hd]%map_lookup_filter_Some]. rewrite lookup_fmap in Hf.
      destruct (m !! j) as [v|]; [|done]. injection Hf as <- <-. simpl in *. unfold isDefined in Hd. by apply negb_true_iff, bool_decide_eq_false in Hd.
    - destruct (m !! j) as [v|] eqn:Hj; [|done]. simpl. intros Hv. exists (isDefined v, shapeEqual v).
      apply map_lookup_filter_Some. rewrite lookup_fmap, Hj. split; [done|]. simpl.
      unfold isDefined. by rewrite bool_decide_eq_false_2. }
  assert (Hb : ∀ j, is_Some (fb !! j) ↔ get (JObj n) j ≠ JUndef).
  { intros j. unfold fb. cbn [get]. split.
    - intros [v [Hf Hd]%map_lookup_filter_Some]. rewrite Hf. simpl.
      unfold isDefined in Hd. by apply negb_true_iff, bool_decide_eq_false in Hd.
    - destruct (n !! j) as [v|] eqn:Hj; [|done]. simpl. intros Hv. exists v.
      apply map_lookup_filter_Some. split; [done|]. unfold isDefined. simpl. by rewrite bool_decide_eq_false_2. }
  assert (Heq : ∀ j, get (JObj m) j ≠ JUndef → shapeEqual (get (JObj m) j) (get (JObj n) j) = true).
  { intros j Hj. pose proof Hj as [[d f] Hf]%Ha.
    assert (In (j, (d, f)) (map_to_list fa)) as Hin by (by apply list_elem_of_In, elem_of_map_to_list).
    apply Hall in Hin. simpl in Hin. apply andb_true_iff in Hin as [_ Hin].
    unfold fa in Hf. apply map_lookup_filter_Some in Hf as [Hf _]. rewrite lookup_fmap in Hf.
    cbn [get] in *. destruct (m !! j); [|done]. by injection Hf as <- <-. }
  assert (Hdom : dom fa = dom fb).
  { apply set_subseteq_size_eq.
    - intros j Hj. apply elem_of_dom, Ha in Hj. apply elem_of_dom, Hb. intros Hu.
      specialize (Heq j Hj). rewrite Hu in Heq. by apply shapeEqual_undef in Heq.
    - rewrite !size_dom. lia. }
  split; [|apply Heq].
  assert (get (JObj m) k ≠ JUndef ↔ get (JObj n) k ≠ JUndef) as Hiff.
  { rewrite <- Ha, <- Hb, <- !elem_of_dom, Hdom. done. }
  split; intros Hu; destruct (decide (get (JObj m) k = JUndef)), (decide (get (JObj n) k = JUndef)); tauto.
Qed.

(** One shape, one serialisation. *)
Lemma shapeEqual_roundTrip a b :
  array_free a = true → array_free b = true → shapeEqual a b = true → serialised a = serialised b.
Proof.
  revert b. induction a as [| |x|n|s|l IH|m IH] using json_ind_nested; intros b Ha Hb H.
  1-5: cbn [shapeEqual] in H; by apply prim_eq_eq in H as <-.
  - done.
  - destruct b as [| | | | | |n]; try done; cbn [serialised].
    rewrite !jsonRoundTrip_object. do 2 f_equal. apply map_eq. intros k.
    rewrite !serialised_get. destruct (shapeEqual_records m n k H) as [Hu Heq].
    apply array_free_object in Ha, Hb.
    destruct (decide (get (JObj m) k = JUndef)) as [Hm|Hm]; [by rewrite Hm, (proj1 Hu Hm)|].
    specialize (Heq Hm). assert (get (JObj n) k ≠ JUndef) as Hn by tauto. cbn [get] in *.
    destruct (m !! k) as [v|] eqn:Hmk; [|done]. destruct (n !! k) as [w|] eqn:Hnk; [|done]. simpl in *.
    by apply (IH k v Hmk); [apply (Ha k)|apply (Hb k)|].
Qed.

(** Round trips keep what [compactableFrame] reads. *)
Lemma eq_str_roundTrip v s : eq_str (default JUndef (serialised v)) s = eq_str v s.
Proof. destruct v; simpl; try done. by destruct (num_finite n). Qed.

Lemma is_string_roundTrip v : is_string (default JUndef (serialised v)) = is_string v.
Proof. destruct v; simpl; try done. by destruct (num_finite n). Qed.

Lemma compactable_roundTrip m : compactableFrame (jsonRoundTrip (JObj m)) = compactableFrame (JObj m).
Proof.
  unfold compactableFrame. rewrite !get_roundTrip, eq_str_roundTrip.
  destruct (negb _); [done|]. generalize (get (JObj m) "ops"). intros ops.
  destruct ops as [| | |n| |l|]; simpl; try done; [by destruct (num_finite n)|].
  destruct l as [|op [|? ?]]; try done. simpl map.
  destruct op as [| | |n| |l|o]; try done; [by simpl; destruct (num_finite n)|].
  cbn [is_object andb]. change (jsonRoundTrip (JObj o)) with (JObj (omap serialised o)).
  rewrite <- jsonRoundTrip_object, !get_roundTrip, eq_str_roundTrip, !is_string_roundTrip. done.
Qed.

(** The appended value of a compactable frame. *)
Lemma compactable_value m o :
  compactableFrame (JObj m) = true → get (JObj m) "ops" = JArr [JObj o] → ∃ s, o !! "value" = Some (JStr s).
Proof.
  unfold compactableFrame. intros H Ho. destruct (negb _); [done|]. rewrite Ho in H.
  apply andb_true_iff in H as [_ H]. cbn [get] in H. destruct (o !! "value") as [v|]; [|done].
  simpl in H. destruct v; try done. by eexists.
Qed.

Lemma shapeEqual_singleton x y : isDefined x = true → shapeEqual (JArr [x]) (JArr [y]) = true → shapeEqual x y = true.
Proof.
  intros Hx. cbn [shapeEqual map imap list_to_map fst snd]. unfold shapeRecords.
  set (f := (isDefined x, shapeEqual x)).
  change (list_to_map [(string_of_nat 0, f)] : gmap string (bool * (json → bool))) with ({[string_of_nat 0 := f]} : gmap string (bool * (json → bool))).
  rewrite map_filter_singleton_True by done. rewrite map_to_list_singleton.
  cbn [is_object andb forallb fst snd]. intros [_ [H _]%andb_true_iff]%andb_true_iff.
  by apply andb_true_iff in H as [_ H].
Qed.

Lemma insert_get m k v j : get (JObj (<[k := v]> m)) j = if decide (j = k) then v else get (JObj m) j.
Proof. cbn [get]. case_decide; subst; [by rewrite lookup_insert_eq|by rewrite lookup_insert_ne]. Qed.

Lemma get_array_free m k : map_Forall (λ k v, k = "ops" ∨ array_free v = true) m → k ≠ "ops" → array_free (get (JObj m) k) = true.
Proof. intros Hm Hk. cbn [get]. destruct (m !! k) as [v|] eqn:Hv; [|done]. by destruct (Hm k v Hv). Qed.

Lemma shapeOf_object m o : get (JObj m) "ops" = JArr [JObj o] →
  shapeOf (JObj m) = JObj (<["ops" := JArr [JObj (delete "value" o)]]> m).
Proof. intros Ho. unfold shapeOf, firstOp, spread, assign. rewrite Ho. done. Qed.

(** Two frames of one shape, decoded from the older one. *)
Lemma decode_same_shape m t s :
  protocol_frame (JObj m) → protocol_frame (JObj t) →
  compactableFrame (JObj m) = true → compactableFrame (JObj t) = true →
  shapeEqual (shapeOf (JObj m)) (shapeOf (JObj t)) = true → get (firstOp (JObj m)) "value" = JStr s →
  decode (Some (jsonRoundTrip (JObj t))) s = Some (jsonRoundTrip (JObj m)).
Proof.
  intros (m' & [= <-] & Hm) (t' & [= <-] & Ht) Hcm Hct Hshape Hval.
  destruct (Hm Hcm) as (Hfm & o & Ho & Hfo), (Ht Hct) as (Hft & o' & Ho' & Hfo'). clear Hm Ht.
  rewrite (shapeOf_object m o Ho), (shapeOf_object t o' Ho') in Hshape.
  pose proof (λ k, proj2 (shapeEqual_records _ _ k Hshape)) as Heq.
  pose proof (λ k, proj1 (shapeEqual_records _ _ k Hshape)) as Hu.
  assert (Hop : shapeEqual (JObj (delete "value" o)) (JObj (delete "value" o')) = true).
  { specialize (Heq "ops"). rewrite !insert_get, !decide_True in Heq by done. by apply shapeEqual_singleton, Heq. }
  assert (Hopk : ∀ k, k ≠ "value" → serialised (get (JObj o) k) = serialised (get (JObj o') k)).
  { intros k Hk. apply shapeEqual_roundTrip in Hop.
    - cbn [serialised] in Hop. rewrite !jsonRoundTrip_object in Hop. injection Hop as Hop.
      apply (f_equal (lookup k)) in Hop. rewrite !serialised_get in Hop. cbn [get] in *.
      by rewrite !lookup_delete_ne in Hop by done.
    - apply array_free_object. by apply map_Forall_delete.
    - apply array_free_object. by apply map_Forall_delete. }
  assert (Hk : ∀ k, k ≠ "ops" → serialised (get (JObj m) k) = serialised (get (JObj t) k)).
  { intros k Hne. specialize (Heq k). specialize (Hu k). rewrite !insert_get, !decide_False in Heq, Hu by done.
    destruct (decide (get (JObj m) k = JUndef)) as [E|E]; [by rewrite E, (proj1 Hu E)|].
    apply shapeEqual_roundTrip; [by apply get_array_free|by apply get_array_free|auto]. }
  assert (Hv : serialised (get (JObj o) "value") = Some (JStr s)).
  { unfold firstOp in Hval. rewrite Ho in Hval. change (get (JArr [JObj o]) "0") with (JObj o) in Hval. by rewrite Hval. }
  cbn [decode]. f_equal. unfold spread, assign, firstOp. cbn [foldl fst snd].
  rewrite (get_roundTrip t "ops"), Ho'. cbn [serialised default from_option].
  change (get (id (jsonRoundTrip (JArr [JObj o']))) "0") with (JObj (omap serialised o')).
  rewrite !jsonRoundTrip_object. cbn [own]. f_equal. apply map_eq. intros k.
  destruct (decide (k = "ops")) as [->|Hne].
  - rewrite lookup_insert_eq, serialised_get, Ho. cbn [serialised jsonRoundTrip map]. do 3 f_equal.
    change (JObj (<["value":=JStr s]> (omap serialised o')) = jsonRoundTrip (JObj o)).
    rewrite jsonRoundTrip_object. f_equal. apply map_eq. intros j. rewrite serialised_get.
    destruct (decide (j = "value")) as [->|Hj]; [by rewrite lookup_insert_eq|].
    by rewrite lookup_insert_ne, serialised_get, Hopk.
  - by rewrite lookup_insert_ne, !serialised_get, Hk.
Qed.

(** ** The link interface *)

(** What a connection promises its client: every frame it sends arrives as its
    JSON round trip, whatever travelled before it. *)
Class FrameLink (S R T : Type) := {
  link_send : S → json → S * T;
  link_receive : R → T → R * option json;
  link_frame : json → Prop;
  link_inv : S → R → Prop;
  link_deliver : ∀ s r f, link_inv s r → link_frame f →
    link_inv (link_send s f).1 (link_receive r (link_send s f).2).1 ∧
    (link_receive r (link_send s f).2).2 = Some (jsonRoundTrip f)
}.

Section link.
  Context {S R T : Type} `{FrameLink S R T}.

Fixpoint sendAll (s : S) (frames : list json) : list T :=
  match frames with
  | [] => []
  | f :: rest => (link_send s f).2 :: sendAll (link_send s f).1 rest
  end.

Fixpoint deliverAll (r : R) (texts : list T) : list (option json) :=
  match texts with
  | [] => []
  | t :: rest => (link_receive r t).2 :: deliverAll (link_receive r t).1 rest
  end.

Lemma link_stream s r frames :
  link_inv s r → Forall link_frame frames →
  deliverAll r (sendAll s frames) = map (λ f, Some (jsonRoundTrip f)) frames.
Proof.
  intros Hinv Hf. revert s r Hinv. induction Hf as [|f rest Hf _ IH]; intros s r Hinv; [done|]. simpl.
  destruct (link_deliver s r f Hinv Hf) as [Hinv' ->]. f_equal. by apply IH.
Qed.
End link.

(** The two templates: the decoder's is the round trip of the encoder's. *)
Definition templates_agree (sent received : option json) : Prop :=
  received = jsonRoundTrip <$> sent ∧
  ∀ t, sent = Some t → protocol_frame t ∧ compactableFrame t = true.

Lemma encode_receive sent received f :
  templates_agree sent received → protocol_frame f →
  templates_agree (encode sent f).1 (receive received (encode sent f).2).1 ∧
  (receive received (encode sent f).2).2 = Some (jsonRoundTrip f).
Proof.
  intros [-> Hsent] Hf. pose proof Hf as (m & -> & Hm). unfold encode.
  destruct (compactableFrame (JObj m)) eqn:Hc; cbn [andb].
  - destruct (match sent with Some t => shapeEqual (shapeOf (JObj m)) (shapeOf t) | None => false end) eqn:Hshape.
    + destruct sent as [t|]; [|done]. destruct (Hsent t eq_refl) as [Ht Hct]. pose proof Ht as (t' & -> & _).
      destruct (Hm eq_refl) as (_ & o & Ho & _). destruct (compactable_value m o Hc Ho) as [s Hs].
      assert (Hval : get (firstOp (JObj m)) "value" = JStr s).
      { unfold firstOp. rewrite Ho. change (get (JObj o) "value" = JStr s). cbn [get]. by rewrite Hs. }
      rewrite Hval. cbn [fst snd receive]. split; [done|].
      by apply decode_same_shape.
    + cbn [fst snd receive fullText]. split; [|done]. unfold observe, templates_agree.
      rewrite compactable_roundTrip, Hc. split; [done|]. by intros t [= <-].
  - cbn [fst snd receive fullText]. split; [|done]. unfold observe. rewrite compactable_roundTrip, Hc. done.
Qed.

#[export] Instance CompactLink : FrameLink (option json) (option json) WireText := {
  link_send := encode;
  link_receive := receive;
  link_frame := protocol_frame;
  link_inv := templates_agree;
  link_deliver := encode_receive
}.

(** ** Properties *)

(** C3.  Compaction is invisible: whatever sequence of protocol frames goes
    through the encoder, compactable or not, interleaved in any way, the decoder
    on the other side delivers exactly the frames the uncompacted JSON text
    would have carried. *)
Theorem compact_stream frames :
  Forall protocol_frame frames →
  receiveAll None (encodeAll None frames) = map (λ f, Some (jsonRoundTrip f)) frames.
Proof.
  intros Hf.
  assert (∀ t fs, encodeAll t fs = sendAll t fs) as Henc.
  { intros t fs. revert t. induction fs as [|f fs IH]; intros t; [done|]. simpl. destruct (encode t f). by rewrite IH. }
  assert (∀ t ts, receiveAll t ts = deliverAll t ts) as Hrec.
  { intros t ts. revert t. induction ts as [|x ts IH]; intros t; [done|]. simpl. destruct (receive t x). by rewrite IH. }
  rewrite Henc, Hrec. by apply link_stream.
Qed.

Lemma compact_stream_witness :
  let append s := object [("kind", JStr "patch"); ("generation", JInt 3);
    ("ops", JArr [object [("op", JStr "append"); ("path", JStr "/entries/m/content/0/text"); ("value", JStr s)]])] in
  let other := object [("kind", JStr "sessions_changed"); ("sessions", JArr [])] in
  encodeAll None [append "a"; other; append "b"] = [fullText (append "a"); fullText other; WBare "b"] ∧
  receiveAll None (encodeAll None [append "a"; other; append "b"])
    = map (λ f, Some (jsonRoundTrip f)) [append "a"; other; append "b"].
Proof.
  intros append other. split; [vm_compute; reflexivity|]. apply compact_stream.
  assert (∀ s, protocol_frame (append s)) as Happ.
  { intros s. eexists. split; [reflexivity|]. intros _. split.
    - unfold assign. simpl foldl. repeat (apply map_Forall_insert_2; [first [by right|by left]|]). apply map_Forall_empty.
    - eexists. split; [reflexivity|].
      unfold assign. simpl foldl. repeat (apply map_Forall_insert_2; [done|]). apply map_Forall_empty. }
  apply Forall_cons; split; [done|]. apply Forall_cons; split.
  - eexists. split; [reflexivity|]. intros H. vm_compute in H. discriminate.
  - by apply Forall_singleton.
Defined.

(** The comparison of shapes reads an array as the object of its indices:
    two frames whose only difference is an array against such an object have one
    shape, and the second is delivered with the first one's array in it. *)
Theorem shapeEqual_array_object :
  let frame x s := object [("kind", JStr "patch"); ("session", x);
    ("ops", JArr [object [("op", JStr "append"); ("path", JStr "/a"); ("value", JStr s)]])] in
  let f1 := frame (JArr [JInt 1]) "a" in
  let f2 := frame (object [("0", JInt 1)]) "b" in
  receiveAll None (encodeAll None [f1; f2]) = [Some f1; Some (frame (JArr [JInt 1]) "b")] ∧
  frame (JArr [JInt 1]) "b" ≠ f2.
Proof. split; [vm_compute; reflexivity|]. apply (bool_decide_unpack _). vm_compute. exact I. Qed.
