(* ===== verification/Client.v ===== *)
(** * The client

    [client.ts]: the mirror of the host's document, the plan of a pull, and the
    client that correlates requests with replies and feeds the frames it
    receives to the mirror.  The promises of the source are the identifiers of
    the requests: a handler returns the new state and, in order, what it did to
    the outside ([ClientEffect]).  A transport delivers a text as what
    [JSON.parse] makes of it, [None] when it throws. *)

From S2P Require Export Patch CompactCodec.

(** ** The document mirror *)

Record PullRequestItem := mkPull { pullEntryId : string; pullFieldPath : string }.
Record PullResponseItem := mkPulled { pulledEntryId : string; pulledFieldPath : string; pulledValue : json }.

Record DocumentMirror := mkMirror { mirrorDocument : json; revision : nat; generation : json }.

Definition emptyMirror : json :=
  object [
    ("status", object [
      ("leafId", JNull);
      ("name", JStr "");
      ("model", object [("provider", JStr ""); ("modelId", JStr "")]);
      ("thinkingLevel", JStr "off");
      ("isStreaming", JBool false);
      ("isCompacting", JBool false);
      ("stats", object [
        ("tokens", object [("input", JInt 0); ("output", JInt 0); ("cacheRead", JInt 0); ("cacheWrite", JInt 0);
                           ("total", JInt 0)]);
        ("cost", object [("total", JInt 0)]);
        ("messages", JInt 0)]);
      ("contextUsage", JNull);
      ("pendingSteer", JArr []);
      ("inFlightTools", JObj ∅)]);
    ("entries", JObj ∅)].

Definition createMirror (document : option json) : DocumentMirror := mkMirror (default emptyMirror document) 0 JNull.

Definition setGeneration (g : json) (m : DocumentMirror) : DocumentMirror := mkMirror (mirrorDocument m) (revision m) g.

Definition applyReplace (snapshot : json) (m : DocumentMirror) : DocumentMirror :=
  mkMirror snapshot (S (revision m)) (generation m).

Definition ENTRY_ROOT_PREFIX : string := "/entries/".

(** Whether the operation overwrites an entry root the document already has;
    [None]: reading [document.entries[id]] throws. *)
Definition overwritesEntry (doc : json) (op : PatchOp) : option bool :=
  match op with
  | AddOp path _ | ReplaceOp path _ =>
    if isEntryRootPath path
    then if nullish doc || nullish (get doc "entries") then None
         else Some (isDefined (get (get doc "entries") (sdrop (slength ENTRY_ROOT_PREFIX) path)))
    else Some false
  | _ => Some false
  end.

(** The loop of [applyPatch]: the revision it reaches, and whether it ends. *)
Fixpoint bumpRevision (doc : json) (ops : list PatchOp) (r : nat) : nat * bool :=
  match ops with
  | [] => (r, true)
  | op :: rest =>
    match overwritesEntry doc op with
    | None => (r, false)
    | Some b => bumpRevision doc rest (if b then S r else r)
    end
  end.

(** The new mirror, and [false] when the method throws. *)
Definition mirrorApplyPatch (ops : list PatchOp) (m : DocumentMirror) : DocumentMirror * bool :=
  let '(r, ok) := bumpRevision (mirrorDocument m) ops (revision m) in
  match (if ok then applyPatch (mirrorDocument m) ops else None) with
  | Some doc => (mkMirror doc r (generation m), true)
  | None => (mkMirror (mirrorDocument m) r (generation m), false)
  end.

Definition needsPull (pending_ : list PullRequestItem) (m : DocumentMirror) : list PullRequestItem :=
  List.filter (λ w, nullish (getAtPath (mirrorDocument m) (pullFieldPath w))) pending_.

Definition ingestPullResponse (values : list PullResponseItem) (m : DocumentMirror) : DocumentMirror :=
  mkMirror (foldl (λ doc v, setAtPath doc (pulledFieldPath v) (pulledValue v)) (mirrorDocument m) values)
           (revision m) (generation m).

(** The first request of each path, in order. *)
Fixpoint dedupe (seen : gset string) (pending_ : list PullRequestItem) : list PullRequestItem :=
  match pending_ with
  | [] => []
  | w :: rest =>
    if decide (pullFieldPath w ∈ seen) then dedupe seen rest
    else w :: dedupe ({[pullFieldPath w]} ∪ seen) rest
  end.

Definition planPull (pending_ : list PullRequestItem) (m : DocumentMirror) (loadingPaths : gset string)
  : list PullRequestItem :=
  List.filter (λ w, negb (bool_decide (pullFieldPath w ∈ loadingPaths))) (needsPull (dedupe ∅ pending_) m).

(** ** Operations on the wire *)

(** An operation as a value of a frame. *)
Definition opToJson (op : PatchOp) : json :=
  match op with
  | AddOp path v => object [("op", JStr "add"); ("path", JStr path); ("value", v)]
  | RemoveOp path => object [("op", JStr "remove"); ("path", JStr path)]
  | ReplaceOp path v => object [("op", JStr "replace"); ("path", JStr path); ("value", v)]
  | MoveOp from path => object [("op", JStr "move"); ("from", JStr from); ("path", JStr path)]
  | AppendOp path v lazy =>
    JObj (setIf lazy "lazy" (JBool true) (assign ∅ [("op", JStr "append"); ("path", JStr path); ("value", JStr v)]))
  end.

(** The operation a received value stands for; [None]: the switch of [applyOp]
    throws on it, or a field has not the type of the protocol. *)
Definition opOfJson (v : json) : option PatchOp :=
  path ← opt_str (get v "path");
  if eq_str (get v "op") "add" then Some (AddOp path (get v "value"))
  else if eq_str (get v "op") "replace" then Some (ReplaceOp path (get v "value"))
  else if eq_str (get v "op") "remove" then Some (RemoveOp path)
  else if eq_str (get v "op") "move" then from ← opt_str (get v "from"); Some (MoveOp from path)
  else if eq_str (get v "op") "append"
  then s ← opt_str (get v "value"); Some (AppendOp path s (prim_eq (get v "lazy") (JBool true)))
  else None.

Definition opsOfJson (ops : json) : option (list PatchOp) :=
  match ops with JArr l => mapM opOfJson l | _ => None end.

(** ** The client *)

(** Why a received message is not one of the protocol. *)
Inductive ProtocolViolation :=
| malformed_message
| no_established_run
| not_a_frame
| unknown_frame_kind (kind : json).

(** What a handler does to the outside. *)
Inductive ClientEffect :=
| Sent (request : json)
| Resolved (id : string) (reply : json)
| Rejected (id : string)
| Pushed (push : json)
| ProtocolError (violation : ProtocolViolation)
| Threw.

Record BridgeClient := mkClient {
  mirror : DocumentMirror;
  pending : list string;
  nextId : nat;
  codec : option json;
  violated : bool;
  onPush : bool;
  onProtocolError : bool
}.

Definition createClient (onProtocolError_ : bool) : BridgeClient :=
  mkClient (createMirror None) [] 0 None false false onProtocolError_.

Definition withMirror (m : DocumentMirror) (st : BridgeClient) : BridgeClient :=
  mkClient m (pending st) (nextId st) (codec st) (violated st) (onPush st) (onProtocolError st).
Definition withPending (l : list string) (st : BridgeClient) : BridgeClient :=
  mkClient (mirror st) l (nextId st) (codec st) (violated st) (onPush st) (onProtocolError st).
Definition withNextId (n : nat) (st : BridgeClient) : BridgeClient :=
  mkClient (mirror st) (pending st) n (codec st) (violated st) (onPush st) (onProtocolError st).
Definition withCodec (t : option json) (st : BridgeClient) : BridgeClient :=
  mkClient (mirror st) (pending st) (nextId st) t (violated st) (onPush st) (onProtocolError st).
Definition withViolated (b : bool) (st : BridgeClient) : BridgeClient :=
  mkClient (mirror st) (pending st) (nextId st) (codec st) b (onPush st) (onProtocolError st).

(** [set onPush(listener)]: whether there is a listener. *)
Definition setOnPush (listener : bool) (st : BridgeClient) : BridgeClient :=
  mkClient (mirror st) (pending st) (nextId st) (codec st) (violated st) listener (onProtocolError st).

Definition PUSH_KINDS : list string :=
  ["replace"; "patch"; "sessions_changed"; "active_sessions_changed"; "pinned_models_changed"; "session_closed"].

Definition isPushKind (kind : json) : bool := existsb (eq_str kind) PUSH_KINDS.

Definition protocolError (v : ProtocolViolation) (st : BridgeClient) : BridgeClient * list ClientEffect :=
  if violated st then (st, [])
  else (withViolated true st, if onProtocolError st then [ProtocolError v] else []).

(** [this._onPush(push)], when there is a listener. *)
Definition firePush (push : json) (st : BridgeClient) : list ClientEffect :=
  if onPush st then [Pushed push] else [].

(** [this.mirror.applyPatch(push.ops)], then the listener.  An operation that
    [opOfJson] refuses still counts the revisions of the others, and throws. *)
Definition ingestPatch (push : json) (st : BridgeClient) : BridgeClient * list ClientEffect :=
  match opsOfJson (get push "ops") with
  | None =>
    let '(r, _) := bumpRevision (mirrorDocument (mirror st)) (omap opOfJson (elements_of (get push "ops")))
                     (revision (mirror st)) in
    (withMirror (mkMirror (mirrorDocument (mirror st)) r (generation (mirror st))) st, [Threw])
  | Some ops =>
    let '(m, ok) := mirrorApplyPatch ops (mirror st) in
    (withMirror m st, if ok then firePush push st else [Threw])
  end.

Definition admitsLive (push : json) (m : DocumentMirror) : bool :=
  negb (prim_eq (generation m) JNull) && prim_eq (get push "generation") (generation m).

Definition handleMessage (msg : json) (st : BridgeClient) : BridgeClient * list ClientEffect :=
  if negb (isDefined (get msg "id")) then
    if negb (isPushKind (get msg "kind")) then protocolError (unknown_frame_kind (get msg "kind")) st
    else if eq_str (get msg "kind") "replace" then
      let m := applyReplace (get msg "document") (setGeneration (get msg "generation") (mirror st)) in
      (withMirror m st, firePush msg st)
    else if eq_str (get msg "kind") "patch" then
      if isDefined (get msg "session")
      then ingestPatch msg (withMirror (setGeneration (get msg "generation") (mirror st)) st)
      else if negb (admitsLive msg (mirror st)) then (st, [])
      else ingestPatch msg st
    else (st, firePush msg st)
  else
    match get msg "id" with
    | JStr id =>
      if decide (id ∈ pending st)
      then (withPending (List.filter (λ x, negb (bool_decide (x = id))) (pending st)) st, [Resolved id msg])
      else (st, [])
    | _ => (st, [])
    end.

(** [transport.onMessage] *)
Definition onMessage (data : option json) (st : BridgeClient) : BridgeClient * list ClientEffect :=
  match data with
  | None => protocolError malformed_message st
  | Some (JStr value) =>
    match decode (codec st) value with
    | None => protocolError no_established_run st
    | Some frame => handleMessage frame st
    end
  | Some parsed =>
    if negb (is_object parsed) || is_array parsed then protocolError not_a_frame st
    else handleMessage parsed (withCodec (observe (codec st) parsed) st)
  end.

Fixpoint onMessages (datas : list (option json)) (st : BridgeClient) : BridgeClient * list ClientEffect :=
  match datas with
  | [] => (st, [])
  | d :: rest =>
    let '(st1, es1) := onMessage d st in
    let '(st2, es2) := onMessages rest st1 in (st2, es1 ++ es2)
  end.

(** What the transport does inside [send]: the texts it delivers before it
    returns, and whether it throws in the end. *)
Record SendBehaviour := mkSend { delivers : list (option json); throws : bool }.

(** Issue a request.  The rejection of a promise that is already settled has no
    effect. *)
Definition call (body : json) (transport : SendBehaviour) (st : BridgeClient) : BridgeClient * list ClientEffect :=
  let id := string_of_nat (S (nextId st)) in
  let request := JObj (own body ∪ {["id" := JStr id]}) in
  let st1 := withPending (pending st ++ [id]) (withNextId (S (nextId st)) st) in
  let '(st2, es) := onMessages (delivers transport) st1 in
  if throws transport
  then (withPending (List.filter (λ x, negb (bool_decide (x = id))) (pending st2)) st2,
        Sent (jsonRoundTrip request) :: es ++ (if decide (id ∈ pending st2) then [Rejected id] else []))
  else (st2, Sent (jsonRoundTrip request) :: es).

Definition disconnect (st : BridgeClient) : BridgeClient * list ClientEffect :=
  (withPending [] st, map Rejected (pending st)).

(** ** Runs *)

(** Everything that can happen to a client. *)
Inductive ClientEvent :=
| Calls (body : json) (transport : SendBehaviour)
| Receives (data : option json)
| Disconnects
| Listens (listener : bool).

Definition clientStep (ev : ClientEvent) (st : BridgeClient) : BridgeClient * list ClientEffect :=
  match ev with
  | Calls body transport => call body transport st
  | Receives data => onMessage data st
  | Disconnects => disconnect st
  | Listens listener => (setOnPush listener st, [])
  end.

Fixpoint clientRun (evs : list ClientEvent) (st : BridgeClient) : BridgeClient * list ClientEffect :=
  match evs with
  | [] => (st, [])
  | ev :: rest =>
    let '(st1, es1) := clientStep ev st in
    let '(st2, es2) := clientRun rest st1 in (st2, es1 ++ es2)
  end.

(** The promises an effect settles. *)
Definition settledBy (e : ClientEffect) : option string :=
  match e with Resolved id _ | Rejected id => Some id | _ => None end.
Definition settledIds (es : list ClientEffect) : list string := omap settledBy es.

(** The identifiers of the first [n] requests. *)
Definition issued (n : nat) : list string := map string_of_nat (seq 1 n).

Definition isCall (ev : ClientEvent) : bool := match ev with Calls _ _ => true | _ => false end.

Definition isProtocolError (e : ClientEffect) : bool := match e with ProtocolError _ => true | _ => false end.

(** ** Lemmas *)

Lemma settledIds_app es es' : settledIds (es ++ es') = settledIds es ++ settledIds es'.
Proof. apply omap_app. Qed.

(** A handler neither issues nor forgets a promise: what was pending is pending
    or settled. *)
Definition conserves (st st' : BridgeClient) (es : list ClientEffect) : Prop :=
  nextId st' = nextId st ∧ (pending st ≡ₚ pending st' ++ settledIds es).

Lemma conserves_refl st es : settledIds es = [] → conserves st st es.
Proof. intros H. split; [done|]. by rewrite H, app_nil_r. Qed.

Lemma conserves_trans st1 st2 st3 es es' :
  conserves st1 st2 es → conserves st2 st3 es' → conserves st1 st3 (es ++ es').
Proof.
  intros [Hn Hp] [Hn' Hp']. split; [congruence|]. rewrite settledIds_app, Hp, Hp'.
  rewrite <- !app_assoc. apply Permutation_app_head, Permutation_app_comm.
Qed.

Lemma conserves_nodup st st' es : conserves st st' es → NoDup (pending st) → NoDup (pending st').
Proof. intros [_ ->] H. by apply NoDup_app in H as (H & _ & _). Qed.

Lemma filter_remove_perm (l : list string) x :
  NoDup l → x ∈ l → (l ≡ₚ List.filter (λ y, negb (bool_decide (y = x))) l ++ [x]).
Proof.
  induction 1 as [|y l Hy Hl IH]; [by intros ?%not_elem_of_nil|]. intros Hx. simpl.
  destruct (decide (y = x)) as [->|Hne].
  - rewrite bool_decide_eq_true_2 by done. simpl.
    assert (List.filter (λ y, negb (bool_decide (y = x))) l = l) as ->.
    { clear -Hy. induction l as [|z l IH]; [done|]. simpl. apply not_elem_of_cons in Hy as [Hz Hy].
      rewrite bool_decide_eq_false_2 by done. simpl. by rewrite IH. }
    apply Permutation_cons_append.
  - rewrite bool_decide_eq_false_2 by done. simpl. constructor. apply IH.
    apply elem_of_cons in Hx as [->|]; done.
Qed.

Lemma protocolError_conserves v st : conserves st (protocolError v st).1 (protocolError v st).2.
Proof. unfold protocolError. destruct (violated st), (onProtocolError st); (split; [done|]); simpl; by rewrite app_nil_r. Qed.

Lemma firePush_settles push st : settledIds (firePush push st) = [].
Proof. unfold firePush. by destruct (onPush st). Qed.

Lemma ingestPatch_conserves push st : conserves st (ingestPatch push st).1 (ingestPatch push st).2.
Proof.
  unfold ingestPatch. destruct (opsOfJson _) as [ops|].
  - destruct (mirrorApplyPatch ops (mirror st)) as [m ok]. split; [done|]. simpl.
    destruct ok; [rewrite firePush_settles|simpl]; by rewrite app_nil_r.
  - destruct (bumpRevision _ _ _). split; [done|]. simpl. by rewrite app_nil_r.
Qed.

Lemma handleMessage_conserves msg st :
  NoDup (pending st) → conserves st (handleMessage msg st).1 (handleMessage msg st).2.
Proof.
  intros Hnd. unfold handleMessage. destruct (negb (isDefined _)).
  - destruct (negb (isPushKind _)); [apply protocolError_conserves|].
    destruct (eq_str (get msg "kind") "replace").
    { split; [done|]. cbn [fst snd]. by rewrite firePush_settles, app_nil_r. }
    destruct (eq_str (get msg "kind") "patch").
    2:{ apply conserves_refl, firePush_settles. }
    destruct (isDefined (get msg "session")); [apply (ingestPatch_conserves msg (withMirror _ st))|].
    destruct (negb _); [by apply conserves_refl|apply ingestPatch_conserves].
  - destruct (get msg "id") as [| | | |id| |]; try by apply conserves_refl.
    case_decide as Hid; [|by apply conserves_refl]. split; [done|]. simpl.
    by apply filter_remove_perm.
Qed.

Lemma onMessage_conserves d st : NoDup (pending st) → conserves st (onMessage d st).1 (onMessage d st).2.
Proof.
  intros Hnd. unfold onMessage. destruct d as [v|]; [|apply protocolError_conserves].
  destruct v as [| | | |s| |]; cbn [is_object is_array negb orb]; try apply protocolError_conserves.
  - destruct (decode _ _); [by apply handleMessage_conserves|apply protocolError_conserves].
  - by apply (handleMessage_conserves _ (withCodec _ st)).
Qed.

Lemma onMessages_conserves ds st : NoDup (pending st) → conserves st (onMessages ds st).1 (onMessages ds st).2.
Proof.
  revert st. induction ds as [|d ds IH]; intros st Hnd; [by apply conserves_refl|]. simpl.
  pose proof (onMessage_conserves d st Hnd) as H. destruct (onMessage d st) as [st1 es1].
  pose proof (IH st1 (conserves_nodup _ _ _ H Hnd)) as H'. destruct (onMessages ds st1) as [st2 es2].
  by eapply conserves_trans.
Qed.

Lemma issued_S n : issued (S n) = issued n ++ [string_of_nat (S n)].
Proof. unfold issued. by rewrite seq_S, map_app. Qed.

Lemma issued_nodup n : NoDup (issued n).
Proof. unfold issued. apply NoDup_fmap_2; [intros ? ?; apply string_of_nat_inj|]. apply NoDup_seq. Qed.

Lemma issued_fresh n : (string_of_nat (S n) ∉ issued n).
Proof.
  unfold issued. intros (m & Heq & Hm)%list_elem_of_fmap. apply string_of_nat_inj in Heq as <-.
  apply elem_of_seq in Hm. lia.
Qed.

Lemma filter_absent (l : list string) x :
  x ∉ l → List.filter (λ y, negb (bool_decide (y = x))) l = l.
Proof.
  induction l as [|z l IH]; [done|]. intros [Hz Hl]%not_elem_of_cons. simpl.
  rewrite bool_decide_eq_false_2 by done. simpl. by rewrite IH.
Qed.

(** A request is pending or settled once [call] returns, and nothing else is
    lost. *)
Lemma call_conserves body transport st :
  NoDup (pending st ++ [string_of_nat (S (nextId st))]) →
  let '(st', es) := call body transport st in
  nextId st' = S (nextId st) ∧
  (pending st ++ [string_of_nat (S (nextId st))] ≡ₚ pending st' ++ settledIds es).
Proof.
  intros Hnd. unfold call. set (id := string_of_nat _) in *.
  set (st1 := withPending _ _).
  pose proof (onMessages_conserves (delivers transport) st1 Hnd) as H.
  destruct (onMessages (delivers transport) st1) as [st2 es] eqn:E. simpl in H.
  pose proof (conserves_nodup _ _ _ H Hnd) as Hnd2. destruct H as [Hn Hp]. change (pending st1) with (pending st ++ [id]) in Hp.
  destruct (throws transport); [|done]. split; [done|]. rewrite Hp. cbn [settledIds omap list_omap settledBy].
  change (omap settledBy (es ++ ?l)) with (settledIds (es ++ l)). rewrite settledIds_app.
  cbn [pending withPending]. case_decide as Hid.
  - rewrite (filter_remove_perm (pending st2) id Hnd2 Hid) at 1. rewrite <- !app_assoc.
    apply Permutation_app_head. simpl. apply Permutation_cons_append.
  - rewrite filter_absent by done. simpl. by rewrite app_nil_r.
Qed.

Definition accounted (st : BridgeClient) (es : list ClientEffect) : Prop :=
  pending st ++ settledIds es ≡ₚ issued (nextId st).

Lemma accounted_nodup st es : accounted st es → NoDup (pending st ++ settledIds es).
Proof. unfold accounted. intros ->. apply issued_nodup. Qed.

Lemma accounted_conserves st st' es es' :
  accounted st es → conserves st st' es' → accounted st' (es ++ es').
Proof.
  unfold accounted. intros Ha [-> Hp]. rewrite <- Ha, Hp, settledIds_app, <- app_assoc.
  apply Permutation_app_head, Permutation_app_comm.
Qed.

Lemma clientStep_accounted ev st es :
  accounted st es → accounted (clientStep ev st).1 (es ++ (clientStep ev st).2).
Proof.
  intros Ha. pose proof (accounted_nodup st es Ha) as Hnd.
  pose proof Hnd as (Hndp & _ & _)%NoDup_app.
  destruct ev as [body transport|data| |listener]; simpl.
  - assert (NoDup (pending st ++ [string_of_nat (S (nextId st))])) as Hfresh.
    { apply NoDup_app. split_and!; [done| |apply NoDup_singleton]. intros x Hx ->%list_elem_of_singleton.
      apply (issued_fresh (nextId st)). rewrite <- Ha. apply elem_of_app. by left. }
    pose proof (call_conserves body transport st Hfresh) as H. destruct (call body transport st) as [st' es'].
    destruct H as [Hn Hp]. unfold accounted in *. simpl. rewrite Hn, issued_S, <- Ha, settledIds_app.
    transitivity ((pending st ++ [string_of_nat (S (nextId st))]) ++ settledIds es).
    + rewrite Hp, <- app_assoc. apply Permutation_app_head, Permutation_app_comm.
    + rewrite <- !app_assoc. apply Permutation_app_head, Permutation_app_comm.
  - apply accounted_conserves with st; [done|]. by apply onMessage_conserves.
  - apply accounted_conserves with st; [done|]. split; [done|]. simpl.
    clear. induction (pending st) as [|x l IH]; [done|]. simpl. by constructor.
  - apply accounted_conserves with st; [done|]. split; [done|]. simpl. by rewrite app_nil_r.
Qed.

Lemma clientRun_accounted evs st es :
  accounted st es → accounted (clientRun evs st).1 (es ++ (clientRun evs st).2).
Proof.
  revert st es. induction evs as [|ev evs IH]; intros st es Ha; simpl; [by rewrite app_nil_r|].
  pose proof (clientStep_accounted ev st es Ha) as H. destruct (clientStep ev st) as [st1 es1].
  specialize (IH st1 _ H). destruct (clientRun evs st1) as [st2 es2]. simpl in *. by rewrite app_assoc.
Qed.

Lemma onMessages_nextId ds st : NoDup (pending st) → nextId (onMessages ds st).1 = nextId st.
Proof. intros H. apply onMessages_conserves, H. Qed.

(** A handler reports at most the first violation. *)
Definition errorsIn (es : list ClientEffect) : nat := length (List.filter isProtocolError es).

Definition surfaces (st st' : BridgeClient) (es : list ClientEffect) : Prop :=
  onProtocolError st' = onProtocolError st ∧ (violated st = true → violated st' = true) ∧
  errorsIn es = Nat.b2n (onProtocolError st && negb (violated st) && violated st').

Lemma errorsIn_app es es' : errorsIn (es ++ es') = errorsIn es + errorsIn es'.
Proof. unfold errorsIn. by rewrite List.filter_app, length_app. Qed.

Lemma surfaces_silent st st' es :
  onProtocolError st' = onProtocolError st → violated st' = violated st → errorsIn es = 0 → surfaces st st' es.
Proof. intros Ho Hv He. split_and!; [done|congruence|]. rewrite Hv, He. by destruct (onProtocolError st), (violated st). Qed.

Lemma surfaces_trans st1 st2 st3 es es' :
  surfaces st1 st2 es → surfaces st2 st3 es' → surfaces st1 st3 (es ++ es').
Proof.
  intros (Ho & Hv & He) (Ho' & Hv' & He'). split_and!; [congruence|auto|]. rewrite errorsIn_app, He, He', Ho.
  destruct (onProtocolError st1), (violated st1), (violated st2), (violated st3); simpl; try done;
    first [by discriminate Hv|by discriminate Hv'|by specialize (Hv eq_refl)|by specialize (Hv' eq_refl)].
Qed.

Lemma protocolError_surfaces v st : surfaces st (protocolError v st).1 (protocolError v st).2.
Proof.
  unfold protocolError, surfaces. destruct (violated st) eqn:Hv; simpl.
  - rewrite Hv. split_and!; [done..|]. by rewrite andb_false_r.
  - split_and!; [done..|]. by destruct (onProtocolError st).
Qed.

Lemma firePush_silent push st : errorsIn (firePush push st) = 0.
Proof. unfold firePush. by destruct (onPush st). Qed.

Lemma ingestPatch_surfaces push st : surfaces st (ingestPatch push st).1 (ingestPatch push st).2.
Proof.
  unfold ingestPatch. destruct (opsOfJson _) as [ops|].
  - destruct (mirrorApplyPatch ops (mirror st)) as [m ok]. apply surfaces_silent; [done..|].
    by destruct ok; [apply firePush_silent|].
  - destruct (bumpRevision _ _ _). by apply surfaces_silent.
Qed.

Lemma handleMessage_surfaces msg st : surfaces st (handleMessage msg st).1 (handleMessage msg st).2.
Proof.
  unfold handleMessage. destruct (negb (isDefined _)).
  - destruct (negb (isPushKind _)); [apply protocolError_surfaces|].
    destruct (eq_str (get msg "kind") "replace"); [by apply surfaces_silent; [..|apply firePush_silent]|].
    destruct (eq_str (get msg "kind") "patch"); [|by apply surfaces_silent; [..|apply firePush_silent]].
    destruct (isDefined (get msg "session")); [apply (ingestPatch_surfaces msg (withMirror _ st))|].
    destruct (negb _); [by apply surfaces_silent|apply ingestPatch_surfaces].
  - destruct (get msg "id"); try by apply surfaces_silent. case_decide; by apply surfaces_silent.
Qed.

Lemma onMessage_surfaces d st : surfaces st (onMessage d st).1 (onMessage d st).2.
Proof.
  unfold onMessage. destruct d as [v|]; [|apply protocolError_surfaces].
  destruct v; cbn [is_object is_array negb orb]; try apply protocolError_surfaces.
  - destruct (decode _ _); [apply handleMessage_surfaces|apply protocolError_surfaces].
  - apply (handleMessage_surfaces _ (withCodec _ st)).
Qed.

Lemma onMessages_surfaces ds st : surfaces st (onMessages ds st).1 (onMessages ds st).2.
Proof.
  revert st. induction ds as [|d ds IH]; intros st; [by apply surfaces_silent|]. simpl.
  pose proof (onMessage_surfaces d st) as H. destruct (onMessage d st) as [st1 es1].
  pose proof (IH st1) as H'. destruct (onMessages ds st1) as [st2 es2]. by eapply surfaces_trans.
Qed.

Lemma clientStep_surfaces ev st : surfaces st (clientStep ev st).1 (clientStep ev st).2.
Proof.
  destruct ev as [body transport|data| |listener]; simpl.
  - unfold call. set (id := string_of_nat _). set (st1 := withPending _ _).
    pose proof (onMessages_surfaces (delivers transport) st1) as H.
    destruct (onMessages (delivers transport) st1) as [st2 es].
    destruct (throws transport); [|exact H].
    apply (surfaces_trans st st2 _ (Sent _ :: es)); [exact H|]. apply surfaces_silent; [done..|]. by case_decide.
  - apply onMessage_surfaces.
  - apply surfaces_silent; [done..|]. unfold errorsIn. simpl. by induction (pending st).
  - by apply surfaces_silent.
Qed.

Lemma clientRun_surfaces evs st : surfaces st (clientRun evs st).1 (clientRun evs st).2.
Proof.
  revert st. induction evs as [|ev evs IH]; intros st; simpl; [by apply surfaces_silent|].
  pose proof (clientStep_surfaces ev st) as H. destruct (clientStep ev st) as [st1 es1].
  pose proof (IH st1) as H'. destruct (clientRun evs st1) as [st2 es2]. by eapply surfaces_trans.
Qed.

Lemma dedupe_spec seen l :
  NoDup (map pullFieldPath (dedupe seen l)) ∧
  (∀ w, w ∈ dedupe seen l → w ∈ l ∧ pullFieldPath w ∉ seen) ∧
  (∀ w, w ∈ l → pullFieldPath w ∉ seen → ∃ w', w' ∈ dedupe seen l ∧ pullFieldPath w' = pullFieldPath w).
Proof.
  revert seen. induction l as [|w l IH]; intros seen; simpl.
  { split_and!; [constructor|intros w Hw; by apply elem_of_nil in Hw..]. }
  case_decide as Hw.
  - destruct (IH seen) as (H1 & H2 & H3). split_and!; [done| |].
    + intros w' [? ?]%H2. split; [by right|done].
    + intros w' [->|Hw']%elem_of_cons Hn; [done|by apply H3].
  - destruct (IH ({[pullFieldPath w]} ∪ seen)) as (H1 & H2 & H3). split_and!.
    + simpl. constructor; [|done]. intros (w' & Heq & Hw')%list_elem_of_fmap.
      apply H2 in Hw' as [_ Hn]. apply Hn. rewrite <- Heq. set_solver.
    + intros w' [->|Hw']%elem_of_cons; [split; [left|done]|]. apply H2 in Hw' as [? Hn].
      split; [by right|set_solver].
    + intros w' Hw' Hn. destruct (decide (pullFieldPath w' = pullFieldPath w)) as [Heq|Hne].
      { exists w. split; [left|done]. }
      apply elem_of_cons in Hw' as [->|Hw']; [done|]. destruct (H3 w' Hw') as (w'' & ? & ?); [set_solver|].
      exists w''. split; [by right|done].
Qed.

Lemma elem_of_boolfilter {A} (f : A → bool) l x : x ∈ List.filter f l ↔ x ∈ l ∧ f x = true.
Proof. rewrite !list_elem_of_In. apply filter_In. Qed.

Lemma boolfilter_sublist {A} (f : A → bool) l : List.filter f l `sublist_of` l.
Proof. induction l as [|x l IH]; simpl; [constructor|]. destruct (f x); by constructor. Qed.

(** ** Properties *)

(** C9.  Every request is answered at most once and none is lost: after any run
    of a client, whatever the host sends and whatever its transport does inside
    [send], the requests issued so far are exactly those still pending and those
    settled, each once. *)
Theorem rpc_settled_once evs onError :
  let '(st, es) := clientRun evs (createClient onError) in
  (pending st ++ settledIds es ≡ₚ issued (nextId st)) ∧ NoDup (pending st ++ settledIds es).
Proof.
  assert (accounted (createClient onError) []) as H0 by apply Permutation_refl.
  pose proof (clientRun_accounted evs _ _ H0) as H. destruct (clientRun evs _) as [st es].
  split; [exact H|by apply accounted_nodup].
Qed.

(** A violation of the protocol surfaces once: over any run, the reports a
    client makes are one when it met a violation and has somewhere to report it,
    and none otherwise. *)
Theorem violation_surfaces_once evs onError :
  let '(st, es) := clientRun evs (createClient onError) in
  errorsIn es = Nat.b2n (onError && violated st).
Proof.
  pose proof (clientRun_surfaces evs (createClient onError)) as (_ & _ & H).
  destruct (clientRun evs _) as [st es]. simpl in *. by rewrite andb_true_r in H.
Qed.

(** A pull asks for what is missing, once: the plan has no path twice, every
    item of it was asked for, is absent from the mirror and not in flight, and
    every such path is in the plan. *)
Theorem planPull_spec pending_ m loading :
  let plan := planPull pending_ m loading in
  let missing w := nullish (getAtPath (mirrorDocument m) (pullFieldPath w)) = true ∧ pullFieldPath w ∉ loading in
  NoDup (map pullFieldPath plan) ∧
  (∀ w, w ∈ plan → w ∈ pending_ ∧ missing w) ∧
  (∀ w, w ∈ pending_ → missing w → pullFieldPath w ∈ map pullFieldPath plan).
Proof.
  destruct (dedupe_spec ∅ pending_) as (H1 & H2 & H3). unfold planPull, needsPull. split_and!.
  - eapply sublist_NoDup; [exact H1|]. apply fmap_sublist.
    etrans; apply boolfilter_sublist.
  - intros w [[Hw Hn]%elem_of_boolfilter Hl]%elem_of_boolfilter. split; [by apply H2|].
    apply negb_true_iff, bool_decide_eq_false in Hl. done.
  - intros w Hw [Hn Hl]. destruct (H3 w Hw) as (w' & Hw' & Heq); [set_solver|].
    apply list_elem_of_fmap. exists w'. split; [done|].
    apply elem_of_boolfilter. rewrite Heq. split; [|by rewrite bool_decide_eq_false_2].
    apply elem_of_boolfilter. by rewrite Heq.
Qed.
