(* ===== verification/Replica.v ===== *)
(** * The replica

    What a client's mirror is to show, stated on the frames the host sends
    rather than on what the client does with them: a document and the attachment
    generation it belongs to.  The theorem is that the client of [client.ts],
    behind the compact codec, implements it. *)

From S2P Require Export Client.

(** ** The frames of the host *)

Inductive HostFrame :=
| ReplaceFrame_ (gen : Z) (session document : json) (operationId : option string)
| SyncPatchFrame (gen : Z) (session : json) (ops : list PatchOp) (operationId : option string)
| LivePatchFrame (gen : Z) (ops : list PatchOp)
| BroadcastFrame (frame : record)
| ReplyFrame (reply : record).

Definition opsJson (ops : list PatchOp) : json := JArr (map opToJson ops).

(** [...(operationId !== null ? { operationId } : {})] *)
Definition attribution (operationId : option string) : list (string * json) :=
  match operationId with Some op => [("operationId", JStr op)] | None => [] end.

Definition frameJson (f : HostFrame) : json :=
  match f with
  | ReplaceFrame_ gen session document op =>
    object (attribution op ++
      [("kind", JStr "replace"); ("session", session); ("document", document); ("generation", JInt gen)])
  | SyncPatchFrame gen session ops op =>
    object (attribution op ++
      [("kind", JStr "patch"); ("session", session); ("ops", opsJson ops); ("generation", JInt gen)])
  | LivePatchFrame gen ops =>
    object [("kind", JStr "patch"); ("ops", opsJson ops); ("generation", JInt gen)]
  | BroadcastFrame frame => JObj frame
  | ReplyFrame reply => JObj reply
  end.

(** The frames the host sends: a session reference is an object without arrays,
    and what is neither an observation nor a reply is one of the other pushes. *)
Definition hostFrame (f : HostFrame) : Prop :=
  match f with
  | ReplaceFrame_ _ session _ _ => isDefined session = true
  | SyncPatchFrame _ session _ _ => isDefined session = true ∧ array_free session = true
  | LivePatchFrame _ _ => True
  | BroadcastFrame frame =>
    get (JObj frame) "id" = JUndef ∧ isPushKind (get (JObj frame) "kind") = true ∧
    eq_str (get (JObj frame) "kind") "replace" = false ∧ eq_str (get (JObj frame) "kind") "patch" = false
  | ReplyFrame reply =>
    isDefined (get (JObj reply) "id") = true ∧ eq_str (get (JObj reply) "kind") "patch" = false
  end.

(** ** The replica *)

Record Replica := mkReplica { replicaGeneration : option Z; replicaDocument : json }.

Definition wireOp (op : PatchOp) : PatchOp :=
  match op with
  | AddOp path v => AddOp path (wireValue v)
  | ReplaceOp path v => ReplaceOp path (wireValue v)
  | _ => op
  end.

Definition patchReplica (ops : list PatchOp) (gen : option Z) (doc : json) : option Replica :=
  if nullish (get doc "entries") then None
  else mkReplica gen <$> applyPatch doc (map wireOp ops).

(** A full sync replaces the replica, a delta sync patches it and takes it over,
    a live patch counts when it is of the replica's generation, and nothing else
    touches it.  [None]: the patch does not apply. *)
Definition replicaStep (f : HostFrame) (r : Replica) : option Replica :=
  match f with
  | ReplaceFrame_ gen _ document _ => Some (mkReplica (Some gen) (wireValue document))
  | SyncPatchFrame gen _ ops _ => patchReplica ops (Some gen) (replicaDocument r)
  | LivePatchFrame gen ops =>
    if decide (replicaGeneration r = Some gen)
    then patchReplica ops (replicaGeneration r) (replicaDocument r)
    else Some r
  | BroadcastFrame _ | ReplyFrame _ => Some r
  end.

Definition replicaRun (fs : list HostFrame) (r : Replica) : option Replica :=
  foldl (λ acc f, acc ≫= replicaStep f) (Some r) fs.

(** The mirror shows the replica. *)
Definition shows (st : BridgeClient) (r : Replica) : Prop :=
  generation (mirror st) = match replicaGeneration r with Some g => JInt g | None => JNull end ∧
  mirrorDocument (mirror st) = replicaDocument r.

(** A text as the transport hands it over. *)
Definition wireData (t : WireText) : option json :=
  match t with WFull v => Some v | WBare s => Some (JStr s) end.

Definition quiet (e : ClientEffect) : bool :=
  match e with ProtocolError _ | Threw => false | _ => true end.

(** ** Lemmas on frames *)

Lemma wireValue_str s : wireValue (JStr s) = JStr s.
Proof. done. Qed.

Lemma isDefined_wire v : isDefined (wireValue v) = isDefined v.
Proof.
  unfold wireValue. destruct (decide (v = JUndef)) as [->|Hv]; [done|].
  rewrite serialised_defined by done. unfold isDefined. simpl.
  by rewrite !bool_decide_eq_false_2 by (done || apply jsonRoundTrip_defined).
Qed.

Lemma prim_eq_lazy (b : bool) : prim_eq (if b then JBool true else JUndef) (JBool true) = b.
Proof. by destruct b. Qed.

(** An operation reads back as itself. *)
Lemma opOfJson_wire op : opOfJson (jsonRoundTrip (opToJson op)) = Some (wireOp op).
Proof.
  destruct op as [p v|p|p v|from p|p s lazy]; cbn [opToJson wireOp].
  1-4: unfold opOfJson; rewrite !get_wire; reflexivity.
  unfold opOfJson. rewrite !get_roundTrip, !get_setIf_ne by done.
  rewrite !get_object, setIf_lookup. by destruct lazy.
Qed.

Lemma opsOfJson_wire ops : opsOfJson (wireValue (opsJson ops)) = Some (map wireOp ops).
Proof.
  unfold opsJson, wireValue. cbn [serialised default from_option id jsonRoundTrip opsOfJson].
  induction ops as [|op ops IH]; [done|]. cbn [map mapM].
  rewrite opOfJson_wire. cbn [mbind option_bind]. by rewrite IH.
Qed.

Lemma compactable_ops m ops :
  compactableFrame (JObj m) = true → get (JObj m) "ops" = opsJson ops →
  ∃ path s lazy, ops = [AppendOp path s lazy].
Proof.
  unfold compactableFrame. intros H Ho. destruct (negb _); [done|]. rewrite Ho in H.
  destruct ops as [|op [|? ?]]; [done| |done]. cbn [opsJson map] in H.
  destruct op as [p v|p|p v|from p|p s lazy]; try discriminate H; try (by vm_compute in H). eauto.
Qed.

Lemma append_array_free path s lazy m :
  opToJson (AppendOp path s lazy) = JObj m → map_Forall (λ _ v, array_free v = true) m.
Proof.
  cbn [opToJson]. intros [= <-]. unfold setIf, assign. cbn [foldl fst snd].
  destruct lazy; repeat (apply map_Forall_insert_2; [done|]); apply map_Forall_empty.
Qed.

(** Every frame of the host is one the codec carries. *)
Lemma frameJson_protocol f : hostFrame f → protocol_frame (frameJson f).
Proof.
  assert (Hother : ∀ m, eq_str (get (JObj m) "kind") "patch" = false → protocol_frame (JObj m)).
  { intros m Hk. exists m. split; [done|]. unfold compactableFrame. rewrite Hk. done. }
  assert (Hpatch : ∀ m ops, get (JObj m) "ops" = opsJson ops →
    map_Forall (λ k v, k = "ops" ∨ array_free v = true) m → protocol_frame (JObj m)).
  { intros m ops Ho Hf. exists m. split; [done|]. intros Hc. split; [done|].
    destruct (compactable_ops m ops Hc Ho) as (path & s & lazy & ->).
    eexists. split; [by rewrite Ho|]. by eapply append_array_free. }
  destruct f as [g session doc op|g session ops op|g ops|frame|reply]; cbn [frameJson hostFrame].
  - intros _. apply Hother. by destruct op.
  - intros [_ Hs]. destruct op; (apply (Hpatch _ ops); [reflexivity|]);
    cbn [attribution app];
    unfold assign; cbn [foldl fst snd];
    repeat (apply map_Forall_insert_2; [first [by left|by right]|]); apply map_Forall_empty.
  - intros _. apply (Hpatch _ ops); [reflexivity|].
    unfold assign. cbn [foldl fst snd].
    repeat (apply map_Forall_insert_2; [first [by left|by right]|]). apply map_Forall_empty.
  - intros (_ & _ & _ & Hk). by apply Hother.
  - intros [_ Hk]. by apply Hother.
Qed.

(** ** The client against the replica *)

Lemma bumpRevision_ends doc ops n :
  nullish (get doc "entries") = false → ∃ r, bumpRevision doc ops n = (r, true).
Proof.
  intros He. revert n. induction ops as [|op ops IH]; intros n; simpl; [by eexists|].
  assert (nullish doc = false) as Hd by (by destruct doc).
  assert (∃ b, overwritesEntry doc op = Some b) as [b ->].
  { unfold overwritesEntry. rewrite Hd, He. destruct op; try (by eexists); destruct (isEntryRootPath _); by eexists. }
  apply IH.
Qed.

Lemma mirrorApplyPatch_ok ops m doc :
  nullish (get (mirrorDocument m) "entries") = false → applyPatch (mirrorDocument m) ops = Some doc →
  ∃ r, mirrorApplyPatch ops m = (mkMirror doc r (generation m), true).
Proof.
  intros He Hp. unfold mirrorApplyPatch.
  destruct (bumpRevision_ends (mirrorDocument m) ops (revision m) He) as [r ->]. rewrite Hp. by eexists.
Qed.

Lemma firePush_quiet push st : Forall (λ e, quiet e = true) (firePush push st).
Proof. unfold firePush. destruct (onPush st); [by apply Forall_singleton|constructor]. Qed.

(** An admitted patch of the wire patches the mirror. *)
Lemma ingestPatch_shows push ops st doc r :
  get push "ops" = wireValue (opsJson ops) → mirrorDocument (mirror st) = doc →
  patchReplica ops (replicaGeneration r) doc = Some r → shows st (mkReplica (replicaGeneration r) doc) →
  shows (ingestPatch push st).1 r ∧ codec (ingestPatch push st).1 = codec st ∧
  Forall (λ e, quiet e = true) (ingestPatch push st).2.
Proof.
  intros Hops Hdoc Hp [Hg _]. unfold ingestPatch. rewrite Hops, opsOfJson_wire.
  unfold patchReplica in Hp. destruct (nullish _) eqn:He; [done|].
  destruct (applyPatch doc _) as [doc'|] eqn:Happ; [|done]. injection Hp as Hr. subst doc.
  destruct (mirrorApplyPatch_ok _ _ _ He Happ) as [rev ->]. cbn [fst snd].
  split_and!; [|done|apply firePush_quiet]. rewrite <- Hr. split; [exact Hg|done].
Qed.

Lemma patchReplica_gen ops g doc r : patchReplica ops g doc = Some r → replicaGeneration r = g.
Proof. unfold patchReplica. destruct (nullish _); [done|]. destruct (applyPatch _ _); [|done]. by intros [= <-]. Qed.

Lemma shows_admits st r g push :
  shows st r → get push "generation" = JInt g →
  admitsLive push (mirror st) = bool_decide (replicaGeneration r = Some g).
Proof.
  intros [Hg _] Hp. unfold admitsLive. rewrite Hg, Hp. destruct (replicaGeneration r) as [g'|]; [|done].
  simpl. apply bool_decide_ext. split; [by intros [= <-]|by intros [= <-]].
Qed.

(** Name the received frame and what its fields read. *)
Ltac wire_fields msg session ops g :=
  set (msg := jsonRoundTrip _);
  assert (get msg "id" = JUndef) as Hid by apply get_wire;
  assert (get msg "kind" = JStr "patch") as Hkind by apply get_wire;
  assert (get msg "session" = wireValue session) as Hsess by apply get_wire;
  assert (get msg "generation" = JInt g) as Hg by apply get_wire;
  assert (get msg "ops" = wireValue (opsJson ops)) as Hops by apply get_wire;
  clearbody msg.

Lemma handleMessage_patch msg st :
  get msg "id" = JUndef → get msg "kind" = JStr "patch" →
  handleMessage msg st =
    if isDefined (get msg "session")
    then ingestPatch msg (withMirror (setGeneration (get msg "generation") (mirror st)) st)
    else if admitsLive msg (mirror st) then ingestPatch msg st else (st, []).
Proof.
  intros Hid Hk. unfold handleMessage. rewrite Hid, Hk.
  change (negb (isDefined JUndef)) with true. change (negb (isPushKind (JStr "patch"))) with false.
  change (eq_str (JStr "patch") "replace") with false. change (eq_str (JStr "patch") "patch") with true. cbn iota.
  destruct (isDefined (get msg "session")); [done|]. by destruct (admitsLive _ _).
Qed.

Lemma handleMessage_shows f st r r' :
  hostFrame f → shows st r → replicaStep f r = Some r' →
  let '(st', es) := handleMessage (jsonRoundTrip (frameJson f)) st in
  shows st' r' ∧ codec st' = codec st ∧ Forall (λ e, quiet e = true) es.
Proof.
  intros Hf Hshow Hstep.
  destruct f as [g session doc op|g session ops op|g ops|frame|reply]; cbn [frameJson hostFrame replicaStep] in *.
  - injection Hstep as <-. destruct op; unfold handleMessage; rewrite !get_wire; (split_and!; [|done|apply firePush_quiet]); by split.
  - destruct Hf as [Hs _]. pose proof (patchReplica_gen _ _ _ _ Hstep) as Hgen.
    destruct op; (wire_fields msg session ops g;
      rewrite (handleMessage_patch msg st Hid Hkind), Hsess, isDefined_wire, Hs, Hg;
      set (st0 := withMirror _ st);
      pose proof (ingestPatch_shows msg ops st0 (replicaDocument r) r' Hops) as H;
      destruct (ingestPatch msg st0) as [st' es]; apply H; [apply Hshow|by rewrite Hgen|];
      rewrite Hgen; split; [done|apply Hshow]).
  - pose proof (λ H, patchReplica_gen ops (replicaGeneration r) (replicaDocument r) r' H) as Hgen.
    wire_fields msg JUndef ops g.
    rewrite (handleMessage_patch msg st Hid Hkind), Hsess, isDefined_wire, (shows_admits st r g msg Hshow Hg).
    cbn [isDefined bool_decide negb]. change (isDefined JUndef) with false. cbn iota.
    case_decide as Hd; [rewrite bool_decide_eq_true_2 by done|rewrite bool_decide_eq_false_2 by done].
    2:{ injection Hstep as <-. split_and!; [done..|constructor]. }
    specialize (Hgen Hstep).
    pose proof (ingestPatch_shows msg ops st (replicaDocument r) r' Hops) as H.
    destruct (ingestPatch msg st) as [st' es]. apply H; [apply Hshow|by rewrite Hgen|].
    rewrite Hgen. by destruct r.
  - destruct Hf as (Hid & Hk & Hr & Hp). injection Hstep as <-.
    unfold handleMessage. rewrite !get_roundTrip, Hid. cbn [serialised default negb isDefined bool_decide].
    assert (∃ k, get (JObj frame) "kind" = JStr k) as [k Hkind].
    { unfold isPushKind in Hk. apply existsb_exists in Hk as (s & _ & Hs). apply eq_str_true in Hs. eauto. }
    rewrite Hkind in *. cbn [serialised default from_option id]. change (jsonRoundTrip (JStr k)) with (JStr k).
    rewrite Hk, Hr, Hp. cbn. split_and!; [done..|apply firePush_quiet].
  - injection Hstep as <-. destruct Hf as [Hid _]. unfold handleMessage. rewrite !get_roundTrip.
    rewrite <- isDefined_wire in Hid. unfold wireValue in Hid. rewrite Hid. cbn [negb].
    destruct (default _ _) as [| | | |id| |]; try (by split_and!; [done|done|constructor]).
    case_decide; (split_and!; [done|done|]); [by apply Forall_singleton|constructor].
Qed.

Lemma receive_onMessage st t c m :
  receive (codec st) t = (c, Some (JObj m)) → onMessage (wireData t) st = handleMessage (JObj m) (withCodec c st).
Proof.
  destruct t as [v|s]; cbn [receive wireData].
  - intros [= <- ->]. done.
  - intros [= <- Hd]. unfold onMessage. rewrite Hd. by destruct st.
Qed.

Lemma frameJson_object f : ∃ m, jsonRoundTrip (frameJson f) = JObj m.
Proof. destruct f; by eexists. Qed.

(** One frame, from the encoder of the host to the mirror of the client. *)
Lemma deliver_frame sent st f r r' :
  templates_agree sent (codec st) → hostFrame f → shows st r → replicaStep f r = Some r' →
  let '(st', es) := onMessage (wireData (encode sent (frameJson f)).2) st in
  templates_agree (encode sent (frameJson f)).1 (codec st') ∧ shows st' r' ∧ Forall (λ e, quiet e = true) es.
Proof.
  intros Hlink Hf Hshow Hstep.
  destruct (encode_receive sent (codec st) (frameJson f) Hlink (frameJson_protocol f Hf)) as [Hlink' Hrec].
  destruct (frameJson_object f) as [m Hm].
  destruct (receive (codec st) _) as [c frame] eqn:E. cbn [fst snd] in *. rewrite Hrec, Hm in E.
  rewrite (receive_onMessage _ _ _ _ E). rewrite <- Hm.
  pose proof (handleMessage_shows f (withCodec c st) r r' Hf Hshow Hstep) as H.
  destruct (handleMessage _ _) as [st' es]. destruct H as (Hs & Hc & Hq). rewrite Hc. done.
Qed.

(** ** Properties *)

(** C8.  The mirror is a replica: whatever frames the host sends on a
    connection, observations of several attachments, delta syncs, broadcasts and
    replies interleaved in any way, compacted or not, the client's mirror shows
    the document and the generation the replica has after them, and the client
    neither throws nor reports a violation. *)
Theorem mirror_refines_replica fs sent st r r' :
  templates_agree sent (codec st) → Forall hostFrame fs → shows st r → replicaRun fs r = Some r' →
  let '(st', es) := onMessages (map wireData (encodeAll sent (map frameJson fs))) st in
  shows st' r' ∧ Forall (λ e, quiet e = true) es.
Proof.
  intros Hlink Hfs. revert sent st r Hlink. induction Hfs as [|f fs Hf _ IH]; intros sent st r Hlink Hshow Hrun.
  { injection Hrun as <-. split; [done|constructor]. }
  unfold replicaRun in Hrun. cbn [foldl mbind option_bind] in Hrun.
  destruct (replicaStep f r) as [r1|] eqn:Hstep.
  2:{ exfalso. clear -Hrun. induction fs as [|g fs IH]; [done|by apply IH]. }
  pose proof (deliver_frame sent st f r r1 Hlink Hf Hshow Hstep) as H. cbn [map encodeAll].
  destruct (encode sent (frameJson f)) as [sent1 text]. cbn [map onMessages fst snd] in *.
  destruct (onMessage (wireData text) st) as [st1 es1]. destruct H as (Hlink1 & Hshow1 & Hq1).
  pose proof (IH sent1 st1 r1 Hlink1 Hshow1 Hrun) as H.
  destruct (onMessages _ st1) as [st2 es2]. destruct H as [Hs Hq]. split; [done|]. by apply Forall_app.
Qed.

Lemma mirror_refines_replica_witness :
  let session := object [("projectId", JStr "p"); ("stem", JStr "s"); ("sessionId", JStr "i")] in
  let doc t := object [("status", JObj ∅); ("entries", object [("m", object [("text", JStr t)])])] in
  let append t := AppendOp "/entries/m/text" t false in
  let fs := [ReplaceFrame_ 2 session (doc "") None; LivePatchFrame 2 [append "a"]; ReplyFrame {["id" := JStr "1"]};
             LivePatchFrame 1 [append "stale"]; LivePatchFrame 2 [append "b"]; LivePatchFrame 2 [append "c"]] in
  let '(st', es) := onMessages (map wireData (encodeAll None (map frameJson fs))) (createClient true) in
  shows st' (mkReplica (Some 2%Z) (doc "abc")) ∧ Forall (λ e, quiet e = true) es.
Proof.
  intros session doc append fs.
  apply (mirror_refines_replica fs None (createClient true) (mkReplica None emptyMirror) (mkReplica (Some 2%Z) (doc "abc"))).
  - split; [done|by intros t [=]].
  - by repeat (apply Forall_cons; split; [done|]).
  - split; reflexivity.
  - vm_compute. reflexivity.
Defined.
