(* ===== verification/Recovery.v ===== *)
(** * Broken-tail recovery

    [recovery.ts], [computeRecoverableTurn]: the boundary a broken turn is
    recovered from, derived from the leaf path of a document.  An index next to an entry stands for its identity: the source
    compares entries of one path by reference. *)

From S2P Require Export Status.

Inductive RecoverableTurnKind := failedTurn | interruptedTools | unfinishedTurn.

Record RecoverableTurnInfo := mkTurn { turnKind : RecoverableTurnKind; turnEntryId : json }.

(** The leaf path, root first: the walk of [deriveStats], with no id that stops it. *)
Definition leafPath (fuel : nat) (doc : json) : option (list json) :=
  path ← walkBranch (λ _, false) fuel (docEntries doc) (docLeaf doc); Some (rev path).

Definition isAssistant (e : json) : bool := isKind "message" e && eq_str (get e "role") "assistant".

Definition isRunStart (entry : json) : bool :=
  if isKind "message" entry then eq_str (get entry "role") "user"
  else isKind "custom_message" entry || isKind "branch_summary" entry || isKind "compaction" entry.

Definition isContextBearing (entry : json) : bool :=
  existsb (λ k, isKind k entry)
    ["message"; "tool_result"; "bash_execution"; "custom_message"; "branch_summary"; "compaction"].

Definition blockIs (type : string) (block : json) : bool := eq_str (get block "type") type.

Definition contentOf (entry : json) : list json := elements_of (get entry "content").

Definition producedWork (message : json) : bool :=
  existsb (λ b, (blockIs "text" b && negb (eq_str (get b "text") "")) || blockIs "toolCall" b) (contentOf message).

(** ** The recoverable boundary *)

(** The position after the last run start. *)
Definition runStart (path : list json) : nat :=
  foldl (λ start ie, if isRunStart ie.2 then S ie.1 else start) 0 (imap pair path).

(** The ids of the tool calls of an entry, in order. *)
Definition toolCallIds (entry : json) : list json :=
  map (λ b, get b "id") (List.filter (blockIs "toolCall") (contentOf entry)).

(** [s.add(x)] and [s.delete(x)] on a [Set] in insertion order. *)
Definition setAdd (s : list json) (x : json) : list json := if decide (x ∈ s) then s else s ++ [x].
Definition setDelete (s : list json) (x : json) : list json := List.filter (λ y, negb (bool_decide (y = x))) s.

(** The variables of the loop over the run. *)
Record Scan := mkScan {
  openCalls : list json;
  danglingAssistant : option json;
  lastAssistant : option (nat * json);
  lastToolResultError : json
}.

Definition scanStep (s : Scan) (ie : nat * json) : Scan :=
  let '(i, entry) := ie in
  if isAssistant entry then
    let ids := toolCallIds entry in
    mkScan (foldl setAdd (openCalls s) ids)
           (if decide (ids = []) then danglingAssistant s else Some entry)
           (Some (i, entry)) (lastToolResultError s)
  else if isKind "tool_result" entry then
    mkScan (setDelete (openCalls s) (get entry "toolCallId")) (danglingAssistant s) (lastAssistant s)
           (get entry "isError")
  else s.

Definition scanRun (start : nat) (suffix : list json) : Scan :=
  foldl scanStep (mkScan [] None None (JBool false)) (imap (λ i e, (start + i, e)) suffix).

(** [stopReason] is ["error"] or ["aborted"]. *)
Definition isDead (entry : json) : bool :=
  eq_str (get entry "stopReason") "error" || eq_str (get entry "stopReason") "aborted".

(** The last context-bearing entry of the path, with its position. *)
Definition lastContext (path : list json) : option (nat * json) :=
  find_last (λ ie, isContextBearing ie.2) (imap pair path).

Definition recoverableOf (path : list json) : option RecoverableTurnInfo :=
  if decide (path = []) then None
  else
    let start := runStart path in
    let s := scanRun start (drop start path) in
    match openCalls s, danglingAssistant s with
    | _ :: _, Some e => Some (mkTurn interruptedTools (get e "id"))
    | _, _ =>
      match lastAssistant s with
      | None => None
      | Some (i, e) =>
        if isDead e && truthy (lastToolResultError s) && negb (producedWork e)
        then Some (mkTurn interruptedTools (get e "id"))
        else if isDead e then
          match lastContext path with
          | Some (j, _) => if decide (j = i) then Some (mkTurn failedTurn (get e "id")) else None
          | None => None
          end
        else if existsb (blockIs "toolCall") (contentOf e) then Some (mkTurn unfinishedTurn (get e "id"))
        else None
      end
    end.

Definition computeRecoverableTurn (fuel : nat) (doc : json) : option (option RecoverableTurnInfo) :=
  path ← leafPath fuel doc; Some (recoverableOf path).

(** ** The boundary, declaratively *)

(** The ids the tool results of a list answer. *)
Definition answeredIds (l : list json) : list json :=
  map (λ e, get e "toolCallId") (List.filter (λ e, negb (isAssistant e) && isKind "tool_result" e) l).

(** A tool call of the run has no result after it. *)
Fixpoint unanswered (run : list json) : bool :=
  match run with
  | [] => false
  | e :: rest =>
    (isAssistant e && existsb (λ c, negb (bool_decide (c ∈ answeredIds rest))) (toolCallIds e)) || unanswered rest
  end.

(** The last run of a path: what follows its last run start. *)
Definition tailRun (path : list json) : list json :=
  match splitLast isRunStart path with Some (_, _, run) => run | None => path end.

Definition lastOf (f : json → bool) (l : list json) : option json :=
  match splitLast f l with Some (_, e, _) => Some e | None => None end.

(** The last tool result of the run is an error. *)
Definition terminated (run : list json) : bool :=
  match lastOf (λ e, negb (isAssistant e) && isKind "tool_result" e) run with
  | Some r => truthy (get r "isError")
  | None => false
  end.

Definition recoverableSpec (path : list json) : option RecoverableTurnInfo :=
  let run := tailRun path in
  if unanswered run
  then (λ e, mkTurn interruptedTools (get e "id"))
         <$> lastOf (λ e, isAssistant e && negb (bool_decide (toolCallIds e = []))) run
  else
    match splitLast isAssistant run with
    | None => None
    | Some (_, e, after) =>
      if isDead e then
        if terminated run && negb (producedWork e) then Some (mkTurn interruptedTools (get e "id"))
        else if existsb isContextBearing after then None
        else Some (mkTurn failedTurn (get e "id"))
      else if bool_decide (toolCallIds e = []) then None
      else Some (mkTurn unfinishedTurn (get e "id"))
    end.

(** ** Lemmas *)

Lemma splitLast_snoc f l x :
  splitLast f (l ++ [x]) =
    if f x then Some (l, x, [])
    else match splitLast f l with Some (b, e, a) => Some (b, e, a ++ [x]) | None => None end.
Proof.
  induction l as [|y l IH]; simpl; [by destruct (f x)|]. rewrite IH. destruct (f x); [done|].
  destruct (splitLast f l) as [[[b e] a]|]; [done|]. by destruct (f y).
Qed.

Lemma splitLast_eq f l b e a : splitLast f l = Some (b, e, a) → l = b ++ e :: a ∧ f e = true.
Proof.
  revert b e a. induction l as [|x l IH] using rev_ind; intros b e a; [done|]. rewrite splitLast_snoc.
  destruct (f x) eqn:Hx; [by intros [= <- <- <-]|].
  destruct (splitLast f l) as [[[b' e'] a']|]; [|done]. intros [= <- <- <-].
  destruct (IH b' e' a' eq_refl) as [-> ?]. by rewrite <- app_assoc.
Qed.

Lemma lastOf_snoc f l x : lastOf f (l ++ [x]) = if f x then Some x else lastOf f l.
Proof. unfold lastOf. rewrite splitLast_snoc. destruct (f x); [done|]. by destruct (splitLast f l) as [[[? ?] ?]|]. Qed.

Lemma runStart_tailRun path : runStart path ≤ length path ∧ drop (runStart path) path = tailRun path.
Proof.
  induction path as [|x path [Hle Hd]] using rev_ind; [done|].
  assert (runStart (path ++ [x]) = if isRunStart x then S (length path) else runStart path) as Hr.
  { unfold runStart. rewrite imap_app, foldl_app. simpl. by rewrite Nat.add_0_r. }
  assert (tailRun (path ++ [x]) = if isRunStart x then [] else tailRun path ++ [x]) as Ht.
  { unfold tailRun. rewrite splitLast_snoc. destruct (isRunStart x); [done|].
    by destruct (splitLast isRunStart path) as [[[? ?] ?]|]. }
  rewrite Hr, Ht, length_app. simpl. destruct (isRunStart x).
  - split; [lia|]. apply drop_ge. rewrite length_app. simpl. lia.
  - split; [lia|]. by rewrite drop_app_le, Hd.
Qed.

(** The call [c] is open at the end of the run. *)
Fixpoint openIn (c : json) (run : list json) : bool :=
  match run with
  | [] => false
  | e :: rest =>
    (isAssistant e && bool_decide (c ∈ toolCallIds e) && negb (bool_decide (c ∈ answeredIds rest))) || openIn c rest
  end.

Lemma unanswered_openIn run : unanswered run = true ↔ ∃ c, openIn c run = true.
Proof.
  induction run as [|e run IH]; simpl; [by split; [|intros [? ?]]|].
  rewrite orb_true_iff, andb_true_iff, existsb_exists, IH. split.
  - intros [[He (c & Hc & Hn)]|[c Hc]]; exists c; apply orb_true_iff; [left|by right].
    rewrite He, Hn, bool_decide_eq_true_2 by by apply list_elem_of_In. done.
  - intros [c [H|H]%orb_true_iff]; [left|right; by exists c].
    split_bools. split; [done|]. exists c. split; [by apply list_elem_of_In|]. by apply negb_true_iff, bool_decide_eq_false_2.
Qed.

Lemma answeredIds_snoc l x :
  answeredIds (l ++ [x]) = answeredIds l ++ (if negb (isAssistant x) && isKind "tool_result" x then [get x "toolCallId"] else []).
Proof. unfold answeredIds. rewrite List.filter_app, map_app. simpl. by destruct (negb (isAssistant x) && _). Qed.

Lemma openIn_snoc c run x :
  openIn c (run ++ [x]) =
    if isAssistant x then openIn c run || bool_decide (c ∈ toolCallIds x)
    else if isKind "tool_result" x then openIn c run && negb (bool_decide (c = get x "toolCallId"))
    else openIn c run.
Proof.
  induction run as [|e run IH].
  - simpl. rewrite andb_true_r, orb_false_r. destruct (isAssistant x); [done|]. by destruct (isKind _ x).
  - cbn [openIn app]. rewrite IH, answeredIds_snoc. destruct (isAssistant x); cbn [negb andb].
    + rewrite app_nil_r. by rewrite orb_assoc.
    + destruct (isKind "tool_result" x); [|by rewrite app_nil_r].
      rewrite andb_orb_distrib_l, <- !andb_assoc. f_equal. f_equal. f_equal. rewrite <- negb_orb. f_equal.
      apply eq_true_iff_eq. rewrite orb_true_iff, !bool_decide_eq_true, elem_of_app, list_elem_of_singleton. done.
Qed.

Lemma setAdd_elem s x c : c ∈ setAdd s x ↔ c ∈ s ∨ c = x.
Proof.
  unfold setAdd. case_decide; [split; [by left|intros [?| ->]; done]|].
  by rewrite elem_of_app, list_elem_of_singleton.
Qed.

Lemma setAdds_elem ids s c : c ∈ foldl setAdd s ids ↔ c ∈ s ∨ c ∈ ids.
Proof.
  revert s. induction ids as [|x ids IH]; intros s; simpl; [rewrite elem_of_nil; tauto|].
  rewrite IH, setAdd_elem, elem_of_cons. tauto.
Qed.

Lemma setDelete_elem s x c : c ∈ setDelete s x ↔ c ∈ s ∧ c ≠ x.
Proof.
  unfold setDelete. rewrite !list_elem_of_In, filter_In, negb_true_iff, bool_decide_eq_false. done.
Qed.

(** What the loop over the run knows at its end. *)
Lemma scanRun_spec start run :
  let s := scanRun start run in
  (∀ c, c ∈ openCalls s ↔ openIn c run = true) ∧
  danglingAssistant s = lastOf (λ e, isAssistant e && negb (bool_decide (toolCallIds e = []))) run ∧
  lastAssistant s = (match splitLast isAssistant run with Some (a, e, _) => Some (start + length a, e) | None => None end) ∧
  truthy (lastToolResultError s) = terminated run.
Proof.
  induction run as [|x run (Hopen & Hdang & Hlast & Herr)] using rev_ind.
  { split_and!; [|done..]. intros c. split; [by intros ?%elem_of_nil|done]. }
  unfold scanRun in *. rewrite imap_app, foldl_app. cbn [imap foldl].
  set (s := foldl scanStep _ _) in *. rewrite Nat.add_0_r. unfold scanStep.
  unfold terminated in *. setoid_rewrite openIn_snoc. rewrite !lastOf_snoc, splitLast_snoc.
  destruct (isAssistant x) eqn:Hx; cbn [negb andb openCalls danglingAssistant lastAssistant lastToolResultError].
  - split_and!; [| |done|done].
    + intros c. by rewrite setAdds_elem, Hopen, orb_true_iff, bool_decide_eq_true.
    + case_decide; [by rewrite bool_decide_eq_true_2|by rewrite bool_decide_eq_false_2].
  - destruct (isKind "tool_result" x) eqn:Hk; cbn [openCalls danglingAssistant lastAssistant lastToolResultError].
    + split_and!; [|done| |done].
      * intros c. by rewrite setDelete_elem, Hopen, andb_true_iff, negb_true_iff, bool_decide_eq_false.
      * rewrite Hlast. by destruct (splitLast isAssistant run) as [[[? ?] ?]|].
    + split_and!; [done..| |done]. rewrite Hlast. by destruct (splitLast isAssistant run) as [[[? ?] ?]|].
Qed.

Lemma openIn_lastOf c run :
  openIn c run = true → ∃ e, lastOf (λ e, isAssistant e && negb (bool_decide (toolCallIds e = []))) run = Some e.
Proof.
  induction run as [|x run IH] using rev_ind; [done|]. rewrite openIn_snoc, lastOf_snoc.
  destruct (isAssistant x); cbn [andb].
  - intros [H|H]%orb_true_iff; [|split_bools; rewrite bool_decide_eq_false_2; [by eexists|]].
    + destruct (negb _); [by eexists|by apply IH].
    + intros Hnil. rewrite Hnil in H. by apply elem_of_nil in H.
  - destruct (isKind "tool_result" x); [intros [H _]%andb_true_iff|]; by apply IH.
Qed.

Lemma toolCallIds_nil e : existsb (blockIs "toolCall") (contentOf e) = negb (bool_decide (toolCallIds e = [])).
Proof.
  unfold toolCallIds. induction (contentOf e) as [|b l IH]; [done|]. cbn [existsb List.filter].
  destruct (blockIs "toolCall" b); [by rewrite bool_decide_eq_false_2|exact IH].
Qed.

Lemma lastContext_spec before e after :
  isContextBearing e = true →
  match lastContext (before ++ e :: after) with
  | Some (j, _) => j = length before ↔ existsb isContextBearing after = false
  | None => False
  end.
Proof.
  intros He. unfold lastContext. induction after as [|x after IH] using rev_ind.
  { rewrite imap_app. cbn [imap]. rewrite find_last_app. cbn [snd compose]. rewrite He. simpl. rewrite Nat.add_0_r. done. }
  rewrite app_comm_cons, app_assoc, imap_app. cbn [imap]. rewrite find_last_app. cbn [snd compose fst]. rewrite existsb_app. cbn [existsb].
  rewrite orb_false_r, length_app. destruct (isContextBearing x).
  - rewrite orb_true_r. simpl. split; [lia|done].
  - rewrite orb_false_r. exact IH.
Qed.

Lemma assistant_context e : isAssistant e = true → isContextBearing e = true.
Proof. unfold isAssistant, isContextBearing. intros [H _]%andb_true_iff. simpl. by rewrite H. Qed.

(** ** Properties *)

(** C34.  The recoverable boundary is what its description says: with a tool call
    of the last run unanswered, the last assistant of the run that made calls is
    an interrupted batch; with the run's last assistant dead, it is an
    interrupted batch when it did no work after a failed tool result, a failed
    turn when nothing that enters the context follows it, and nothing otherwise;
    with its calls all answered and no final message, it is an unfinished turn.
    On an acyclic document the derivation always returns. *)
Theorem computeRecoverableTurn_spec doc fuel :
  acyclic (docEntries doc) → walkFuel (docEntries doc) ≤ fuel →
  ∃ path, leafPath fuel doc = Some path ∧
    computeRecoverableTurn fuel doc = Some (recoverableSpec path).
Proof.
  intros Ha Hf. destruct (walkBranch_enough (λ _, false) _ (docLeaf doc) fuel Ha Hf) as (l & Hl & _).
  exists (rev l). unfold computeRecoverableTurn, leafPath. rewrite Hl. split; [done|]. cbn [mbind option_bind].
  f_equal. generalize (rev l). clear. intros path. unfold recoverableOf, recoverableSpec.
  destruct (decide (path = [])) as [->|_]; [done|].
  destruct (runStart_tailRun path) as [Hle Hrun]. cbv zeta. rewrite Hrun.
  destruct (scanRun_spec (runStart path) (tailRun path)) as (Hopen & Hdang & Hlast & Herr).
  set (s := scanRun _ _) in *.
  assert (unanswered (tailRun path) = negb (bool_decide (openCalls s = []))) as ->.
  { apply eq_true_iff_eq. rewrite unanswered_openIn, negb_true_iff, bool_decide_eq_false. split.
    - intros [c Hc] Hnil. apply Hopen in Hc. rewrite Hnil in Hc. by apply elem_of_nil in Hc.
    - intros Hne. destruct (openCalls s) as [|c l']; [done|]. exists c. apply Hopen. left. }
  rewrite Hdang, Hlast, Herr. destruct (openCalls s) as [|c calls].
  2:{ destruct (openIn_lastOf c (tailRun path)) as [e ->]; [apply Hopen; left|done]. }
  rewrite bool_decide_eq_true_2 by done. cbn [negb].
  destruct (splitLast isAssistant (tailRun path)) as [[[b e] a]|] eqn:Hsplit; [|by destruct (lastOf _ _)].
  apply splitLast_eq in Hsplit as [Htail He].
  assert (path = (take (runStart path) path ++ b) ++ e :: a) as Hpath.
  { rewrite <- app_assoc, <- Htail, <- Hrun. by rewrite take_drop. }
  pose proof (lastContext_spec (take (runStart path) path ++ b) e a (assistant_context e He)) as Hctx.
  rewrite <- Hpath, length_app, length_take_le in Hctx by done.
  assert (Hfailed : match lastContext path with
    | Some (j, _) => if decide (j = runStart path + length b) then Some (mkTurn failedTurn (get e "id")) else None
    | None => None end = if existsb isContextBearing a then None else Some (mkTurn failedTurn (get e "id"))).
  { destruct (lastContext path) as [[j ?]|]; [|done].
    case_decide as Hj; destruct (existsb isContextBearing a); try done; [by apply Hctx in Hj|by destruct Hj; apply Hctx]. }
  rewrite toolCallIds_nil, Hfailed.
  by destruct (lastOf _ _), (bool_decide (toolCallIds e = [])), (isDead e), (terminated _), (producedWork e).
Qed.

Lemma computeRecoverableTurn_spec_witness :
  let entries := assign ∅ [
    ("u", object [("id", JStr "u"); ("parentId", JNull); ("kind", JStr "message"); ("role", JStr "user")]);
    ("a", object [("id", JStr "a"); ("parentId", JStr "u"); ("kind", JStr "message"); ("role", JStr "assistant");
                  ("stopReason", JStr "error"); ("content", JArr [])])] in
  let doc := object [("status", object [("leafId", JStr "a")]); ("entries", JObj entries)] in
  computeRecoverableTurn 9 doc = Some (Some (mkTurn failedTurn (JStr "a"))) ∧
  ∃ path, leafPath 9 doc = Some path ∧ computeRecoverableTurn 9 doc = Some (recoverableSpec path).
Proof.
  intros entries doc. split; [vm_compute; reflexivity|]. apply (computeRecoverableTurn_spec doc 9).
  - exists (λ k, if decide (k = "a") then 1 else 0). intros id e p. change (docEntries doc) with entries.
    unfold entries, assign. simpl foldl. rewrite !lookup_insert. cbn [fst snd].
    repeat case_decide; intros; simplify_eq; vm_compute in H0; simplify_eq;
      rewrite ?decide_True, ?decide_False by done; lia.
  - vm_compute. lia.
Defined.
