(* ===== verification/Reactor.v ===== *)
(** * The reactor

    [reactor.ts]: one mailbox over a pure step function.  What runs between two
    turns of the event loop is one function here: a message is queued and, unless
    one is being applied already, the queue is emptied.  The messages a step
    sends itself are part of its result; the effects it admits are names, and
    their ends are events of the environment.  [outputs] is what can be observed:
    the settled promises, the started effects, and the messages as they are
    queued and applied. *)

From S2P Require Export Prelude.

Section reactor.
  Context {S M E : Type}.

Record ReactorStep := mkStep { sends : list M; outcome : option (S * list E) }.

(** The step function of the options ([None]: it throws), and the effects whose
    [run] throws before it returns a promise. *)
  Context (step : S → M → nat → ReactorStep) (throwsAtOnce : E → bool) `{EqDecision E}.

Inductive ReactorPhase := phase_open | phase_closing | phase_closed.

(** A queued message, with the external send that waits for it. *)
Record Item := mkItem { message : M; sender : option nat }.

Record Reactor := mkReactor {
  state : S;
  phase : ReactorPhase;
  epoch : nat;
  queue : list Item;
  effectsInFlight : list E;
  drain : bool;
  drainResolve : bool
}.

Inductive Output :=
| Queued (m : M)
| Applied (n : nat) (m : M)
| SendResolved (k : nat)
| SendRejected (k : nat)
| EffectStarted (e : E)
| EffectError (e : E)
| DrainResolved.

Definition createReactor (initial : S) : Reactor := mkReactor initial phase_open 0 [] [] false false.

Definition quiet (st : Reactor) : bool :=
  match queue st, effectsInFlight st with [], [] => true | _, _ => false end.

(** [settleIfQuiet], when nothing is being applied. *)
Definition settleIfQuiet (st : Reactor) : Reactor * list Output :=
  if drainResolve st && quiet st
  then (mkReactor (state st) phase_closed (epoch st) (queue st) (effectsInFlight st) (drain st) false, [DrainResolved])
  else (st, []).

Definition settle (k : option nat) (o : nat → Output) : list Output :=
  match k with Some k => [o k] | None => [] end.

(** The effects a step admits: one whose [run] throws at once is reported and
    not in flight. *)
Definition admitEffects (es : list E) : list E * list Output :=
  (List.filter (λ e, negb (throwsAtOnce e)) es,
   concat (map (λ e, EffectStarted e :: if throwsAtOnce e then [EffectError e] else []) es)).

(** One item of the queue. *)
Definition applyItem (item : Item) (st : Reactor) : Reactor * list Output :=
  let n := Datatypes.S (epoch st) in
  let r := step (state st) (message item) n in
  let queue' := queue st ++ map (λ m, mkItem m None) (sends r) in
  let outs := Applied n (message item) :: map Queued (sends r) in
  match outcome r with
  | Some (state', effects) =>
    let '(inflight, started) := admitEffects effects in
    (mkReactor state' (phase st) n queue' (effectsInFlight st ++ inflight) (drain st) (drainResolve st),
     outs ++ settle (sender item) SendResolved ++ started)
  | None =>
    (mkReactor (state st) (phase st) n queue' (effectsInFlight st) (drain st) (drainResolve st),
     outs ++ settle (sender item) SendRejected)
  end.

(** [while (queue.length > 0)], then the settlement. *)
Fixpoint apply (fuel : nat) (st : Reactor) : option (Reactor * list Output) :=
  match fuel with
  | 0 => None
  | Datatypes.S fuel' =>
    match queue st with
    | [] => Some (settleIfQuiet st)
    | item :: rest =>
      let '(st1, outs1) := applyItem item (mkReactor (state st) (phase st) (epoch st) rest (effectsInFlight st) (drain st) (drainResolve st)) in
      '(st2, outs2) ← apply fuel' st1;
      Some (st2, outs1 ++ outs2)
    end
  end.

Definition enqueue (fuel : nat) (m : M) (k : option nat) (st : Reactor) : option (Reactor * list Output) :=
  '(st', outs) ← apply fuel (mkReactor (state st) (phase st) (epoch st) (queue st ++ [mkItem m k])
                               (effectsInFlight st) (drain st) (drainResolve st));
  Some (st', Queued m :: outs).

(** ** Operations and events *)

(** [send(message)], numbered by its caller. *)
Definition send (fuel : nat) (m : M) (k : nat) (st : Reactor) : option (Reactor * list Output) :=
  match phase st with
  | phase_open => enqueue fuel m (Some k) st
  | _ => Some (st, [SendRejected k])
  end.

Fixpoint dropEffect (e : E) (es : list E) : list E :=
  match es with
  | [] => []
  | e' :: rest => if decide (e' = e) then rest else e' :: dropEffect e rest
  end.

Definition withoutEffect (e : E) (st : Reactor) : Reactor :=
  mkReactor (state st) (phase st) (epoch st) (queue st) (dropEffect e (effectsInFlight st)) (drain st) (drainResolve st).

(** An effect resolves to its completion message. *)
Definition effectCompletes (fuel : nat) (e : E) (m : M) (st : Reactor) : option (Reactor * list Output) :=
  enqueue fuel m None (withoutEffect e st).

(** An effect rejects. *)
Definition effectRejects (e : E) (st : Reactor) : Reactor * list Output :=
  let '(st', outs) := settleIfQuiet (withoutEffect e st) in (st', EffectError e :: outs).

Definition close (st : Reactor) : Reactor * list Output :=
  if drain st then (st, [])
  else settleIfQuiet (mkReactor (state st) phase_closing (epoch st) (queue st) (effectsInFlight st) true true).

Inductive ReactorEvent :=
| Send (m : M) (k : nat)
| Completes (e : E) (m : M)
| Rejects (e : E)
| Close.

(** The effect whose end an event is must be in flight. *)
Definition enabled (ev : ReactorEvent) (st : Reactor) : bool :=
  match ev with
  | Completes e _ | Rejects e => bool_decide (e ∈ effectsInFlight st)
  | _ => true
  end.

Definition reactorStep (fuel : nat) (ev : ReactorEvent) (st : Reactor) : option (Reactor * list Output) :=
  if negb (enabled ev st) then Some (st, [])
  else match ev with
       | Send m k => send fuel m k st
       | Completes e m => effectCompletes fuel e m st
       | Rejects e => Some (effectRejects e st)
       | Close => Some (close st)
       end.

Fixpoint reactorRun (fuel : nat) (evs : list ReactorEvent) (st : Reactor) : option (Reactor * list Output) :=
  match evs with
  | [] => Some (st, [])
  | ev :: rest =>
    '(st1, outs1) ← reactorStep fuel ev st;
    '(st2, outs2) ← reactorRun fuel rest st1;
    Some (st2, outs1 ++ outs2)
  end.

(** ** The specification: a fold *)

Definition appliedBy (o : Output) : option (nat * M) := match o with Applied n m => Some (n, m) | _ => None end.
Definition appliedOf (outs : list Output) : list (nat * M) := omap appliedBy outs.
Definition queuedBy (o : Output) : option M := match o with Queued m => Some m | _ => None end.
Definition queuedOf (outs : list Output) : list M := omap queuedBy outs.

(** The state after one message: a step that throws leaves it. *)
Definition transition (s : S) (nm : nat * M) : S :=
  match outcome (step s nm.2 nm.1) with Some (s', _) => s' | None => s end.

(** ** Lemmas *)

Lemma appliedOf_cons o outs :
  appliedOf (o :: outs) = match appliedBy o with Some x => x :: appliedOf outs | None => appliedOf outs end.
Proof. done. Qed.
Lemma queuedOf_cons o outs :
  queuedOf (o :: outs) = match queuedBy o with Some x => x :: queuedOf outs | None => queuedOf outs end.
Proof. done. Qed.
Lemma appliedOf_app a b : appliedOf (a ++ b) = appliedOf a ++ appliedOf b.
Proof. apply omap_app. Qed.
Lemma queuedOf_app a b : queuedOf (a ++ b) = queuedOf a ++ queuedOf b.
Proof. apply omap_app. Qed.

(** Outputs that neither queue nor apply. *)
Definition silent (outs : list Output) : Prop := appliedOf outs = [] ∧ queuedOf outs = [].

Lemma silent_Forall outs : Forall (λ o, appliedBy o = None ∧ queuedBy o = None) outs → silent outs.
Proof.
  induction 1 as [|o outs [Ha Hq] _ [IHa IHq]]; [done|]. split; [by rewrite appliedOf_cons, Ha|by rewrite queuedOf_cons, Hq].
Qed.

Lemma settle_silent k (o : nat → Output) :
  (∀ n, appliedBy (o n) = None ∧ queuedBy (o n) = None) → silent (settle k o).
Proof. intros H. apply silent_Forall. destruct k; simpl; [by apply Forall_singleton|constructor]. Qed.

Lemma admitEffects_silent es : silent (admitEffects es).2.
Proof.
  apply silent_Forall. simpl. induction es as [|e es IH]; simpl; [constructor|].
  constructor; [done|]. apply Forall_app. split; [|exact IH]. destruct (throwsAtOnce e); [by apply Forall_singleton|constructor].
Qed.

Lemma settleIfQuiet_silent st : silent (settleIfQuiet st).2.
Proof. unfold settleIfQuiet. by destruct (drainResolve st && quiet st). Qed.

Lemma sent_outputs (ms : list M) : queuedOf (map Queued ms) = ms ∧ appliedOf (map Queued ms) = [].
Proof.
  induction ms as [|m ms [IH1 IH2]]; [done|]. cbn [map].
  rewrite queuedOf_cons, appliedOf_cons. cbn [queuedBy appliedBy]. by rewrite IH1, IH2.
Qed.

(** What applying one item does. *)
Lemma applyItem_spec item st :
  let '(st', outs) := applyItem item st in
  appliedOf outs = [(Datatypes.S (epoch st), message item)] ∧
  queuedOf outs = sends (step (state st) (message item) (Datatypes.S (epoch st))) ∧
  map message (queue st') = map message (queue st) ++ queuedOf outs ∧
  state st' = transition (state st) (Datatypes.S (epoch st), message item) ∧
  epoch st' = Datatypes.S (epoch st) ∧ phase st' = phase st ∧ drain st' = drain st ∧ drainResolve st' = drainResolve st.
Proof.
  unfold applyItem, transition. set (r := step _ _ _). cbn [snd fst].
  destruct (sent_outputs (sends r)) as [Hq Ha].
  assert (map message (map (λ m, mkItem m None) (sends r)) = sends r) as Hm by (rewrite map_map; apply map_id).
  assert (∀ tail, silent tail →
    appliedOf ((Applied (Datatypes.S (epoch st)) (message item) :: map Queued (sends r)) ++ tail)
      = [(Datatypes.S (epoch st), message item)] ∧
    queuedOf ((Applied (Datatypes.S (epoch st)) (message item) :: map Queued (sends r)) ++ tail) = sends r) as Houts.
  { intros tail [Hta Htq]. rewrite <- app_comm_cons, appliedOf_cons, queuedOf_cons. cbn [appliedBy queuedBy].
    by rewrite appliedOf_app, queuedOf_app, Hq, Ha, Hta, Htq, !app_nil_r. }
  destruct (outcome r) as [[state' effects]|].
  - destruct (admitEffects_silent effects) as [Hea Heq]. destruct (admitEffects effects) as [inflight started]. cbn [snd] in Hea, Heq.
    destruct (settle_silent (sender item) SendResolved) as [Hsa Hsq]; [done|].
    destruct (Houts (settle (sender item) SendResolved ++ started)) as [H1 H2].
    { split; [by rewrite appliedOf_app, Hsa, Hea|by rewrite queuedOf_app, Hsq, Heq]. }
    cbn [app] in H1, H2. cbn [app]. rewrite H1, H2. cbn [queue]. rewrite map_app, Hm. done.
  - destruct (Houts (settle (sender item) SendRejected)) as [H1 H2]; [by apply settle_silent|].
    cbn [app] in H1, H2. cbn [app]. rewrite H1, H2. cbn [queue]. rewrite map_app, Hm. done.
Qed.

(** The reactor after a history of outputs, against the fold. *)
Definition follows (initial : S) (outs : list Output) (st : Reactor) : Prop :=
  state st = foldl transition initial (appliedOf outs) ∧
  map fst (appliedOf outs) = seq 1 (epoch st) ∧
  queuedOf outs = map snd (appliedOf outs) ++ map message (queue st).

(** When the drain is resolved. *)
Definition phase_inv (st : Reactor) : Prop :=
  match phase st with
  | phase_open => drain st = false ∧ drainResolve st = false
  | phase_closing => drain st = true ∧ drainResolve st = true
  | phase_closed => drain st = true ∧ drainResolve st = false ∧ quiet st = true
  end.

(** Between two events the queue is empty, and a closing reactor still has
    effects to wait for. *)
Definition rests (st : Reactor) : Prop :=
  phase_inv st ∧ queue st = [] ∧ (phase st = phase_closing → effectsInFlight st ≠ []).

Lemma follows_silent initial outs outs' st st' :
  follows initial outs st → silent outs' → state st' = state st → epoch st' = epoch st → queue st' = queue st →
  follows initial (outs ++ outs') st'.
Proof.
  intros (Hs & Hn & Hq) [Ha' Hq'] Es En Eq. unfold follows.
  by rewrite !appliedOf_app, queuedOf_app, Ha', Hq', !app_nil_r, Es, En, Eq.
Qed.

Lemma settleIfQuiet_rests st :
  queue st = [] → phase_inv st → rests (settleIfQuiet st).1 ∧
  (phase (settleIfQuiet st).1 = phase_closed ↔ drain st = true ∧ effectsInFlight st = []).
Proof.
  intros Hq Hp. destruct st as [s ph n q es d dr]. unfold rests, phase_inv, settleIfQuiet, quiet in *. simpl in *. subst q.
  destruct ph.
  - destruct Hp as [-> ->]. simpl. naive_solver.
  - destruct Hp as [-> ->]. simpl. destruct es; simpl; naive_solver.
  - destruct Hp as (-> & -> & Hes). simpl. destruct es; simpl in *; naive_solver.
Qed.

Lemma apply_spec fuel st st' outs initial hist :
  apply fuel st = Some (st', outs) → phase_inv st → phase st ≠ phase_closed → follows initial hist st →
  follows initial (hist ++ outs) st' ∧ rests st' ∧ drain st' = drain st.
Proof.
  revert st st' outs hist. induction fuel as [|fuel IH]; intros st st' outs hist Hrun Hp Hph Hf; [done|].
  cbn [apply] in Hrun. destruct (queue st) as [|item rest] eqn:Hq.
  - injection Hrun as Hrun. destruct (settleIfQuiet_rests st Hq Hp) as [Hr _].
    pose proof (settleIfQuiet_silent st) as Hsil. rewrite Hrun in *. split_and!; [|done|].
    + apply follows_silent with st; [done|done|..]; unfold settleIfQuiet in Hrun;
        destruct (drainResolve st && quiet st); by simplify_eq.
    + unfold settleIfQuiet in Hrun. destruct (drainResolve st && quiet st); by simplify_eq.
  - set (st0 := mkReactor _ _ _ rest _ _ _) in Hrun. pose proof (applyItem_spec item st0) as Hi.
    destruct (applyItem item st0) as [st1 outs1]. destruct Hi as (Ha & Hqs & Hqm & Hst & Hep & Hph1 & Hdr & Hdrr).
    destruct (apply fuel st1) as [[st2 outs2]|] eqn:Happly; [|done]. injection Hrun as <- <-.
    rewrite app_assoc. edestruct (IH st1 st2 outs2 (hist ++ outs1)) as (H1 & H2 & H3); [done|..].
    + unfold phase_inv in *. rewrite Hph1, Hdr, Hdrr. cbn. by destruct (phase st).
    + by rewrite Hph1.
    + destruct Hf as (Hs & Hn & Hqf). unfold follows. rewrite !appliedOf_app, Ha, queuedOf_app, Hqm, foldl_app, !map_app.
      rewrite Hst, Hep. cbn [foldl map fst snd state epoch queue st0]. rewrite <- Hs, Hn, seq_S. split_and!; [done|done|].
      rewrite Hqf, Hq. cbn [map]. by rewrite <- !app_assoc.
    + split_and!; [done..|]. by rewrite H3, Hdr.
Qed.

(** A message joins the queue. *)
Lemma follows_queued initial hist st m k es :
  follows initial hist st →
  follows initial (hist ++ [Queued m])
    (mkReactor (state st) (phase st) (epoch st) (queue st ++ [mkItem m k]) es (drain st) (drainResolve st)).
Proof.
  intros (Hs & Hn & Hq). unfold follows. cbn [state epoch queue].
  assert (appliedOf (hist ++ [Queued m]) = appliedOf hist) as -> by (rewrite appliedOf_app; apply app_nil_r).
  assert (queuedOf (hist ++ [Queued m]) = queuedOf hist ++ [m]) as -> by apply queuedOf_app.
  split_and!; [done..|]. by rewrite Hq, map_app, <- app_assoc.
Qed.

Lemma enqueue_spec fuel m k st st' outs initial hist :
  enqueue fuel m k st = Some (st', outs) → rests st → phase st ≠ phase_closed → follows initial hist st →
  follows initial (hist ++ outs) st' ∧ rests st' ∧ drain st' = drain st.
Proof.
  unfold enqueue. intros Hrun (Hp & Hq & _) Hph Hf. set (st0 := mkReactor _ _ _ _ _ _ _) in Hrun.
  destruct (apply fuel st0) as [[st1 outs1]|] eqn:Happly; [|done]. injection Hrun as <- <-.
  change (Queued m :: ?l) with ([Queued m] ++ l). rewrite app_assoc. apply (apply_spec _ _ _ _ _ _ Happly); [|done|].
  - unfold phase_inv in *. by destruct (phase st).
  - by apply follows_queued.
Qed.

Lemma withoutEffect_follows e initial hist st : follows initial hist st → follows initial hist (withoutEffect e st).
Proof. done. Qed.

Lemma effectsInFlight_open e st : rests st → e ∈ effectsInFlight st → phase st ≠ phase_closed.
Proof.
  intros (Hp & Hq & _) He Hph. unfold phase_inv, quiet in Hp. rewrite Hph, Hq in Hp.
  destruct Hp as (_ & _ & Hp), (effectsInFlight st); [by apply elem_of_nil in He|done].
Qed.

Lemma withoutEffect_inv e st : phase st ≠ phase_closed → phase_inv st → phase_inv (withoutEffect e st).
Proof. unfold phase_inv, withoutEffect. cbn. by destruct (phase st). Qed.

Lemma drain_closes st : queue st = [] → phase_inv st → rests (settleIfQuiet st).1.
Proof. intros Hq Hp. by apply settleIfQuiet_rests. Qed.

Lemma settled_follows initial hist st outs :
  follows initial (hist ++ outs) st → follows initial (hist ++ outs ++ (settleIfQuiet st).2) (settleIfQuiet st).1.
Proof.
  intros Hf. rewrite app_assoc. apply follows_silent with st; [done|apply settleIfQuiet_silent|..];
    unfold settleIfQuiet; by destruct (drainResolve st && quiet st).
Qed.

Lemma reactorStep_spec fuel ev st st' outs initial hist :
  reactorStep fuel ev st = Some (st', outs) → rests st → follows initial hist st →
  follows initial (hist ++ outs) st' ∧ rests st'.
Proof.
  intros Hrun Hr Hf. pose proof Hr as (Hp & Hq & Hc). unfold reactorStep in Hrun.
  destruct (enabled ev st) eqn:Hen; cbn [negb] in Hrun; [|injection Hrun as <- <-; by rewrite app_nil_r].
  assert (Hsend : ∀ k, follows initial (hist ++ [SendRejected k]) st ∧ rests st).
  { intros k. split; [by apply follows_silent with st|done]. }
  destruct ev as [m k|e m|e|]; cbn [enabled] in Hen.
  - unfold send in Hrun. destruct (phase st) eqn:Hph; [|by injection Hrun as <- <-..].
    destruct (enqueue_spec _ _ _ _ _ _ _ _ Hrun Hr ltac:(by rewrite Hph) Hf) as (H1 & H2 & _). done.
  - apply bool_decide_eq_true in Hen. pose proof (effectsInFlight_open e st Hr Hen) as Hph. unfold effectCompletes, enqueue in Hrun.
    set (st0 := mkReactor _ _ _ _ _ _ _) in Hrun. destruct (apply fuel st0) as [[st1 outs1]|] eqn:Happly; [|done].
    injection Hrun as <- <-. change (Queued m :: ?l) with ([Queued m] ++ l). rewrite app_assoc.
    destruct (apply_spec _ _ _ _ initial (hist ++ [Queued m]) Happly) as (H1 & H2 & _); [|done| |done].
    { unfold phase_inv in *. cbn. by destruct (phase st). }
    by apply (follows_queued initial hist (withoutEffect e st)).
  - apply bool_decide_eq_true in Hen. pose proof (effectsInFlight_open e st Hr Hen) as Hph.
    unfold effectRejects in Hrun. pose proof (settled_follows initial hist (withoutEffect e st) [EffectError e]) as Hs.
    pose proof (drain_closes (withoutEffect e st) Hq (withoutEffect_inv e st Hph Hp)) as Hd.
    destruct (settleIfQuiet _) as [st1 outs1]. injection Hrun as <- <-. split; [|done].
    apply Hs. by apply follows_silent with st.
  - injection Hrun as Hrun. unfold close in Hrun.
    destruct (drain st) eqn:Hdr; [injection Hrun as <- <-; by rewrite app_nil_r|].
    set (st0 := mkReactor _ _ _ _ _ _ _) in Hrun.
    pose proof (settled_follows initial hist st0 []) as Hs. pose proof (drain_closes st0 Hq (conj eq_refl eq_refl)) as Hd.
    rewrite Hrun in *. split; [|done]. apply Hs. by rewrite app_nil_r.
Qed.

Lemma reactorRun_spec fuel evs st st' outs initial hist :
  reactorRun fuel evs st = Some (st', outs) → rests st → follows initial hist st →
  follows initial (hist ++ outs) st' ∧ rests st'.
Proof.
  revert st outs hist. induction evs as [|ev evs IH]; intros st outs hist Hrun Hr Hf.
  { injection Hrun as <- <-. by rewrite app_nil_r. }
  cbn [reactorRun] in Hrun. destruct (reactorStep fuel ev st) as [[st1 outs1]|] eqn:Hstep; [|done].
  cbn [mbind option_bind] in Hrun. destruct (reactorRun fuel evs st1) as [[st2 outs2]|] eqn:Hrest; [|done].
  injection Hrun as <- <-. destruct (reactorStep_spec _ _ _ _ _ _ _ Hstep Hr Hf) as [Hf1 Hr1].
  rewrite app_assoc. by apply (IH st1 outs2 (hist ++ outs1)).
Qed.

Lemma create_rests initial : rests (createReactor initial) ∧ follows initial [] (createReactor initial).
Proof. done. Qed.

(** ** Termination *)

Lemma apply_mono fuel fuel' st x : apply fuel st = Some x → fuel ≤ fuel' → apply fuel' st = Some x.
Proof.
  revert fuel' st x. induction fuel as [|fuel IH]; intros [|fuel'] st x Hrun Hle; try done; [lia|].
  cbn [apply] in *. destruct (queue st) as [|item rest]; [done|]. destruct (applyItem _ _) as [st1 outs1].
  destruct (apply fuel st1) as [[st2 outs2]|] eqn:Happly; [|done]. by rewrite (IH fuel' _ _ Happly) by lia.
Qed.

Lemma reactorStep_mono fuel fuel' ev st x : reactorStep fuel ev st = Some x → fuel ≤ fuel' → reactorStep fuel' ev st = Some x.
Proof.
  unfold reactorStep, send, effectCompletes, enqueue. intros Hrun Hle. destruct (negb _); [done|].
  destruct ev as [m k|e m|e|]; [|..|done|done].
  - destruct (phase st); [|done..]. destruct (apply fuel _) as [[? ?]|] eqn:Happly; [|done].
    by rewrite (apply_mono _ _ _ _ Happly Hle).
  - destruct (apply fuel _) as [[? ?]|] eqn:Happly; [|done]. by rewrite (apply_mono _ _ _ _ Happly Hle).
Qed.

Lemma reactorRun_mono fuel fuel' evs st x : reactorRun fuel evs st = Some x → fuel ≤ fuel' → reactorRun fuel' evs st = Some x.
Proof.
  revert st x. induction evs as [|ev evs IH]; intros st x Hrun Hle; [done|]. cbn [reactorRun] in *.
  destruct (reactorStep fuel ev st) as [[st1 outs1]|] eqn:Hstep; [|done]. rewrite (reactorStep_mono _ _ _ _ _ Hstep Hle).
  cbn [mbind option_bind] in *. destruct (reactorRun fuel evs st1) as [[st2 outs2]|] eqn:Hrest; [|done].
  by rewrite (IH _ _ Hrest Hle).
Qed.

Section ranked.
  (** A step sends itself messages of a smaller rank only. *)
  Context (rank : M → nat) (Hrank : ∀ s m n m', m' ∈ sends (step s m n) → rank m' < rank m).

Lemma applyItem_queue item st : queue (applyItem item st).1
  = queue st ++ map (λ m, mkItem m None) (sends (step (state st) (message item) (Datatypes.S (epoch st)))).
Proof.
  unfold applyItem. destruct (outcome _) as [[? effects]|]; [|done]. by destruct (admitEffects effects).
Qed.

Lemma apply_total r st : Forall (λ i, rank (message i) < r) (queue st) → ∃ fuel, is_Some (apply fuel st).
Proof.
  revert st. induction r as [|r IH].
  { intros st Hq. exists 1. cbn. destruct (queue st) as [|i q]; [by eexists|].
    apply Forall_cons in Hq as [Hq _]. lia. }
  enough (H : ∀ old new st, queue st = old ++ new → Forall (λ i, rank (message i) < Datatypes.S r) old →
     Forall (λ i, rank (message i) < r) new → ∃ fuel, is_Some (apply fuel st)).
  { intros st Hq. apply (H (queue st) []); [by rewrite app_nil_r|done|constructor]. }
  induction old as [|item old IHold]; intros new st Hq Hold Hnew; [apply IH; by rewrite Hq|].
  apply Forall_cons in Hold as [Hitem Hold]. set (st0 := mkReactor (state st) (phase st) (epoch st) (old ++ new) (effectsInFlight st) (drain st) (drainResolve st)).
  pose proof (applyItem_queue item st0) as Hq1. destruct (applyItem item st0) as [st1 outs1] eqn:Hi. cbn [fst] in Hq1.
  destruct (IHold (new ++ map (λ m, mkItem m None) (sends (step (state st) (message item) (Datatypes.S (epoch st))))) st1) as [fuel [[st2 outs2] Hrun]].
  - rewrite Hq1. unfold st0. cbn [queue state message epoch]. by rewrite <- app_assoc.
  - done.
  - apply Forall_app. split; [done|]. apply Forall_map, Forall_forall. intros m Hm. simpl.
    apply Hrank in Hm. lia.
  - exists (Datatypes.S fuel). cbn [apply]. rewrite Hq. cbn [app]. fold st0. rewrite Hi. cbn [mbind option_bind].
    rewrite Hrun. by eexists.
Qed.

Lemma queue_ranked (q : list Item) : ∃ r, Forall (λ i, rank (message i) < r) q.
Proof.
  induction q as [|i q [r IH]]; [by exists 0|]. exists (Nat.max r (Datatypes.S (rank (message i)))).
  constructor; [lia|]. eapply Forall_impl; [exact IH|]. simpl. lia.
Qed.

Lemma reactorStep_total ev st : ∃ fuel, is_Some (reactorStep fuel ev st).
Proof.
  assert (∀ m k st, ∃ fuel, is_Some (enqueue fuel m k st)) as Henq.
  { intros m k st0. unfold enqueue. set (st1 := mkReactor _ _ _ _ _ _ _). destruct (queue_ranked (queue st1)) as [r Hr].
    destruct (apply_total r st1 Hr) as [fuel [[? ?] Hx]]. exists fuel. rewrite Hx. by eexists. }
  unfold reactorStep. destruct (negb _); [by exists 0, (st, [])|].
  destruct ev as [m k|e m|e|]; [|apply Henq|by exists 0; eexists|by exists 0; eexists].
  unfold send. destruct (phase st); [apply Henq|by exists 0; eexists..].
Qed.
End ranked.

(** ** Properties *)

(** C29.  A reactor is a fold: whatever the interleaving of sends, completions,
    rejections and close, its state is the initial one after the messages it
    applied, each under its own epoch, counted from one; and the messages are
    applied in exactly the order they were queued, none left behind.  The run
    returns when a step sends itself only messages of a smaller rank. *)
Theorem reactor_is_fold evs initial (rank : M → nat) :
  (∀ s m n m', m' ∈ sends (step s m n) → rank m' < rank m) →
  ∃ fuel st outs, reactorRun fuel evs (createReactor initial) = Some (st, outs) ∧
    state st = foldl transition initial (appliedOf outs) ∧
    map fst (appliedOf outs) = seq 1 (epoch st) ∧
    map snd (appliedOf outs) = queuedOf outs.
Proof.
  intros Hrank.
  assert (∀ st, ∃ fuel st' outs, reactorRun fuel evs st = Some (st', outs)) as Htotal.
  { induction evs as [|ev evs' IH]; intros st; [by exists 0, st, []|].
    destruct (reactorStep_total rank Hrank ev st) as [fuel1 [[st1 outs1] H1]].
    destruct (IH st1) as (fuel2 & st2 & outs2 & H2).
    exists (Nat.max fuel1 fuel2), st2, (outs1 ++ outs2). cbn [reactorRun].
    rewrite (reactorStep_mono _ (Nat.max fuel1 fuel2) _ _ _ H1) by lia. cbn [mbind option_bind].
    by rewrite (reactorRun_mono _ (Nat.max fuel1 fuel2) _ _ _ H2) by lia. }
  destruct (Htotal (createReactor initial)) as (fuel & st & outs & Hrun). exists fuel, st, outs.
  destruct (create_rests initial) as [Hr Hf].
  destruct (reactorRun_spec _ _ _ _ _ _ _ Hrun Hr Hf) as [(Hs & Hn & Hq) (_ & Hnil & _)].
  cbn [app] in *. split_and!; [done..|]. by rewrite Hq, Hnil, app_nil_r.
Qed.

(** The drain is exact: in every state a reactor can be in between two
    events, it is closed exactly when close was called and no effect is left in
    flight; and once it is closed nothing is ever applied again. *)
Theorem close_drains fuel evs initial st outs :
  reactorRun fuel evs (createReactor initial) = Some (st, outs) →
  (phase st = phase_closed ↔ drain st = true ∧ effectsInFlight st = []) ∧
  (phase st = phase_closed → ∀ evs' st' outs',
     reactorRun fuel evs' st = Some (st', outs') → state st' = state st ∧ appliedOf outs' = []).
Proof.
  intros Hrun. destruct (create_rests initial) as [Hr Hf].
  destruct (reactorRun_spec _ _ _ _ _ _ _ Hrun Hr Hf) as [_ (Hp & Hq & Hc)]. clear -Hp Hq Hc. split.
  - unfold phase_inv, quiet in Hp. rewrite Hq in Hp. destruct (phase st).
    + split; [done|]. intros [Hd _]. destruct Hp. congruence.
    + split; [done|]. intros [_ Hnil]. by destruct (Hc eq_refl Hnil).
    + destruct Hp as (-> & _ & Hp). by destruct (effectsInFlight st).
  - intros Hph. unfold phase_inv, quiet in Hp. rewrite Hq, Hph in Hp. destruct Hp as (Hd & _ & Hes).
    assert (effectsInFlight st = []) as Hnil by (by destruct (effectsInFlight st)). clear Hq Hc Hes.
    induction evs' as [|ev evs' IH]; intros st' outs' Hrun'; [by injection Hrun' as <- <-|].
    cbn [reactorRun] in Hrun'.
    assert (∃ o, reactorStep fuel ev st = Some (st, o) ∧ appliedOf o = []) as (o & Hstep & Ho).
    { unfold reactorStep, enabled. rewrite Hnil. destruct ev as [m k|e m|e|]; cbn [negb].
      - unfold send. rewrite Hph. by eexists.
      - rewrite bool_decide_eq_false_2 by (by intros ?%elem_of_nil). by eexists.
      - rewrite bool_decide_eq_false_2 by (by intros ?%elem_of_nil). by eexists.
      - unfold close. rewrite Hd. by eexists. }
    rewrite Hstep in Hrun'. cbn [mbind option_bind] in Hrun'.
    destruct (reactorRun fuel evs' st) as [[st2 outs2]|] eqn:Hrest; [|done]. injection Hrun' as <- <-.
    destruct (IH st2 outs2 eq_refl) as [? Ha]. split; [done|]. by rewrite appliedOf_app, Ho, Ha.
Qed.
End reactor.

(** A sample reactor: it adds up its messages, [5] sends itself [1], [2] admits
    an effect, and [9] throws. *)
Definition sumStep (s m n : nat) : ReactorStep (S := nat) (M := nat) (E := nat) :=
  mkStep (if decide (m = 5) then [1] else [])
         (if decide (m = 9) then None else Some (s + m, if decide (m = 2) then [7] else [])).

Lemma reactor_is_fold_witness :
  ∃ fuel st outs,
    reactorRun sumStep (λ _, false) fuel [Send 5 0; Send 9 1; Send 2 2; Close; Completes 7 3; Send 1 3] (createReactor 0)
      = Some (st, outs) ∧
    state st = foldl (transition sumStep) 0 (appliedOf outs) ∧
    map fst (appliedOf outs) = seq 1 (epoch st) ∧ map snd (appliedOf outs) = queuedOf outs.
Proof.
  apply (reactor_is_fold sumStep (λ _, false) _ 0 (λ m, m)).
  intros s m n m'. unfold sumStep. simpl. case_decide as Hm; [|by intros ?%elem_of_nil].
  intros ->%list_elem_of_singleton. lia.
Defined.

Lemma close_drains_witness :
  let run := reactorRun sumStep (λ _, false) 9 in
  ∃ st outs, run [Send 2 0; Close; Completes 7 3] (createReactor 0) = Some (st, outs) ∧ phase st = phase_closed ∧
    (phase st = phase_closed ↔ drain st = true ∧ effectsInFlight st = []) ∧
    (phase st = phase_closed → ∀ evs' st' outs',
       run evs' st = Some (st', outs') → state st' = state st ∧ appliedOf outs' = []).
Proof.
  intros run. eexists _, _. split; [vm_compute; reflexivity|]. split; [reflexivity|].
  eapply (close_drains sumStep (λ _, false) 9 [Send 2 0; Close; Completes 7 3] 0). vm_compute. reflexivity.
Defined.
