(* ===== verification/GitStamp.v ===== *)
(** * Git identity stamps

    [git-stamp.ts]: the payload a stamp entry carries, its two versions, and the
    validation of a payload of unknown provenance. *)

From S2P Require Export Json.

Definition GIT_STAMP_CUSTOM_TYPE : string := "pi-bridge.git-stamp".

Inductive GitStampAnchor := prompt | tool_end | turn_end | user_bash_end.

Record GitIdentity := mkIdentity { commit : option string; branch : option string }.

Inductive GitStampData :=
| GitStampDataV1 (anchor : GitStampAnchor) (identity : GitIdentity)
| GitStampDataV2 (anchor : GitStampAnchor) (identity : GitIdentity) (commitSubject : option string).

(** [[0-9a-f]] and [[^\u0000-\u001f\u007f]]. *)
Definition isHexUnit (a : ascii) : bool :=
  let n := nat_of_ascii a in (48 <=? n) && (n <=? 57) || (97 <=? n) && (n <=? 102).
Definition isTextUnit (a : ascii) : bool :=
  let n := nat_of_ascii a in (32 <=? n) && negb (n =? 127).

Fixpoint everyUnit (f : ascii → bool) (s : string) : bool :=
  match s with EmptyString => true | String a s' => f a && everyUnit f s' end.

(** [COMMIT_ID_RE] and [BRANCH_NAME_RE]. *)
Definition COMMIT_ID_RE (s : string) : bool :=
  everyUnit isHexUnit s && ((slength s =? 40) || (slength s =? 64)).
Definition BRANCH_NAME_RE (s : string) : bool := negb (bool_decide (s = "")) && everyUnit isTextUnit s.

Definition isValidCommitId (value : string) : bool := COMMIT_ID_RE value.

Definition includes (a : ascii) (s : string) : bool := negb (char_free a s).

Definition isValidBranchName (value : string) : bool :=
  negb (bool_decide (value = "")) && negb (includes "010"%char value) && BRANCH_NAME_RE value.

Definition parseGitIdentity (commitRaw branchRaw : option string) : option GitIdentity :=
  if match commitRaw with Some c => negb (isValidCommitId c) | None => false end then None
  else if match branchRaw with Some b => negb (isValidBranchName b) | None => false end then None
  else Some (mkIdentity commitRaw branchRaw).

Definition parseCommitSubject (value : string) : option string :=
  if bool_decide (value = "") || (includes "010"%char value || includes "013"%char value) || negb (BRANCH_NAME_RE value)
  then None else Some value.

(** [null], or a string. *)
Definition nullableString (v : json) : option (option string) :=
  match v with JNull => Some None | JStr s => Some (Some s) | _ => None end.

Definition anchorName (a : GitStampAnchor) : string :=
  match a with prompt => "prompt" | tool_end => "tool_end" | turn_end => "turn_end" | user_bash_end => "user_bash_end" end.

Definition V2_ANCHORS : list GitStampAnchor := [prompt; tool_end; turn_end; user_bash_end].
Definition V1_ANCHORS : list GitStampAnchor := [prompt; turn_end].

(** The anchor among [anchors] a value names. *)
Definition anchorIn (anchors : list GitStampAnchor) (v : json) : option GitStampAnchor :=
  List.find (λ a, eq_str v (anchorName a)) anchors.

Definition parseGitStampData (data : json) : option GitStampData :=
  if negb (is_object data) || is_array data then None
  else
    c ← nullableString (get data "commit");
    b ← nullableString (get data "branch");
    if match c with Some c => negb (isValidCommitId c) | None => false end then None
    else if match b with Some b => negb (isValidBranchName b) | None => false end then None
    else if prim_eq (get data "v") (JInt 1) then
      a ← anchorIn V1_ANCHORS (get data "anchor"); Some (GitStampDataV1 a (mkIdentity c b))
    else if prim_eq (get data "v") (JInt 2) then
      a ← anchorIn V2_ANCHORS (get data "anchor");
      Some (GitStampDataV2 a (mkIdentity c b)
              (match get data "commitSubject" with JStr s => parseCommitSubject s | _ => None end))
    else None.

Definition parseGitStampEntry (entry : json) : option GitStampData :=
  if negb (eq_str (get entry "type") "custom") && negb (eq_str (get entry "kind") "custom") then None
  else if negb (eq_str (get entry "customType") GIT_STAMP_CUSTOM_TYPE) then None
  else parseGitStampData (get entry "data").

Definition sameGitIdentity (a b : GitIdentity) : bool :=
  bool_decide (commit a = commit b) && bool_decide (branch a = branch b).

(** ** Well-formed stamps *)

(** The stamp as the value of a session entry. *)
Definition stampJson (s : GitStampData) : json :=
  match s with
  | GitStampDataV1 a i =>
    object [("v", JInt 1); ("anchor", JStr (anchorName a)); ("commit", of_opt_str (commit i)); ("branch", of_opt_str (branch i))]
  | GitStampDataV2 a i subject =>
    object [("v", JInt 2); ("anchor", JStr (anchorName a)); ("commit", of_opt_str (commit i)); ("branch", of_opt_str (branch i));
            ("commitSubject", of_opt_str subject)]
  end.

Definition valid_identity (i : GitIdentity) : Prop :=
  (∀ c, commit i = Some c → isValidCommitId c = true) ∧ (∀ b, branch i = Some b → isValidBranchName b = true).

Definition valid_stamp (s : GitStampData) : Prop :=
  match s with
  | GitStampDataV1 a i => a ∈ V1_ANCHORS ∧ valid_identity i
  | GitStampDataV2 a i subject => valid_identity i ∧ ∀ t, subject = Some t → parseCommitSubject t = Some t
  end.

(** ** Lemmas *)

Lemma parseCommitSubject_idemp s t : parseCommitSubject s = Some t → parseCommitSubject t = Some t.
Proof. unfold parseCommitSubject at 1. destruct (_ || _) eqn:H; [done|]. intros [= <-]. unfold parseCommitSubject. by rewrite H. Qed.

Lemma anchorIn_name anchors a : a ∈ anchors → anchorIn anchors (JStr (anchorName a)) = Some a.
Proof.
  intros Ha. unfold anchorIn. induction anchors as [|x l IH]; [by apply elem_of_nil in Ha|]. cbn [List.find eq_str].
  case_bool_decide as Hx; [by destruct a, x|]. apply IH. apply elem_of_cons in Ha as [->|]; done.
Qed.

Lemma anchorIn_elem anchors v a : anchorIn anchors v = Some a → a ∈ anchors.
Proof. intros [H _]%find_some. by apply list_elem_of_In. Qed.

Lemma nullableString_json o : nullableString (of_opt_str o) = Some o.
Proof. by destruct o. Qed.

Lemma invalid_commit (f : string → bool) (o : option string) :
  match o with Some c => negb (f c) | None => false end = false ↔ ∀ c, o = Some c → f c = true.
Proof.
  destruct o as [c|]; [|by split]. rewrite negb_false_iff. split; [by intros H ? [= <-]|by intros H; apply H].
Qed.

(** ** Properties *)

(** Only well-formed stamps are read, and every well-formed one is: what the
    parser accepts has a valid identity, an anchor of its version and a subject
    that is one clean line or absent; and a well-formed stamp written as an entry's
    payload, by pi's session file or by a document of the bridge, reads back as
    itself, JSON round trip included. *)
Theorem parseGitStamp_roundtrip s data :
  (parseGitStampData data = Some s → valid_stamp s) ∧
  (valid_stamp s →
     parseGitStampEntry (jsonRoundTrip (object [("type", JStr "custom"); ("customType", JStr GIT_STAMP_CUSTOM_TYPE);
                                                ("data", stampJson s)])) = Some s).
Proof.
  split.
  - unfold parseGitStampData. destruct (negb _ || _); [done|].
    destruct (nullableString (get data "commit")) as [c|]; cbn [mbind option_bind]; [|done].
    destruct (nullableString (get data "branch")) as [b|]; cbn [mbind option_bind]; [|done].
    destruct (match c with Some _ => _ | None => _ end) eqn:Hc; [done|].
    destruct (match b with Some _ => _ | None => _ end) eqn:Hb; [done|].
    assert (valid_identity (mkIdentity c b)) as Hi by (split; by apply invalid_commit).
    destruct (prim_eq _ (JInt 1)); [|destruct (prim_eq _ (JInt 2)); [|done]];
      match goal with |- context [anchorIn ?l ?v] => destruct (anchorIn l v) as [a|] eqn:Ha end; cbn [mbind option_bind]; (intros [= <-] || done).
    + split; [by eapply anchorIn_elem|done].
    + split; [done|]. intros t. destruct (get data "commitSubject"); try done. apply parseCommitSubject_idemp.
  - intros Hs. set (e := jsonRoundTrip _).
    assert (get e "type" = JStr "custom") as Ht by apply get_wire.
    assert (get e "customType" = JStr GIT_STAMP_CUSTOM_TYPE) as Hct by apply get_wire.
    assert (get e "data" = jsonRoundTrip (stampJson s)) as Hd by (unfold e; rewrite get_wire; by destruct s).
    unfold parseGitStampEntry. rewrite Ht, Hct, Hd. cbn [eq_str].
    rewrite !bool_decide_eq_true_2 by done. cbn [negb andb].
    assert (Hid : ∀ i, valid_identity i →
      match commit i with Some c => negb (isValidCommitId c) | None => false end = false ∧
      match branch i with Some b => negb (isValidBranchName b) | None => false end = false).
    { intros i [H1 H2]. split; by apply invalid_commit. }
    assert (Hnull : ∀ o, nullableString (wireValue (of_opt_str o)) = Some o) by (intros o; by destruct o).
    unfold parseGitStampData. destruct s as [a i|a i subject]; cbn [stampJson valid_stamp] in *.
    + destruct Hs as [Ha Hi]. destruct (Hid i Hi) as [H1 H2]. destruct i as [c b]. cbn [commit branch] in *.
      set (d := jsonRoundTrip _).
      assert (get d "commit" = wireValue (of_opt_str c)) as -> by apply get_wire.
      assert (get d "branch" = wireValue (of_opt_str b)) as -> by apply get_wire.
      assert (get d "v" = JInt 1) as -> by apply get_wire.
      assert (get d "anchor" = JStr (anchorName a)) as -> by apply get_wire.
      rewrite !Hnull. cbn [mbind option_bind]. rewrite H1, H2, anchorIn_name by done. done.
    + destruct Hs as [Hi Hsub]. destruct (Hid i Hi) as [H1 H2]. destruct i as [c b]. cbn [commit branch] in *.
      set (d := jsonRoundTrip _).
      assert (get d "commit" = wireValue (of_opt_str c)) as -> by apply get_wire.
      assert (get d "branch" = wireValue (of_opt_str b)) as -> by apply get_wire.
      assert (get d "v" = JInt 2) as -> by apply get_wire.
      assert (get d "anchor" = JStr (anchorName a)) as -> by apply get_wire.
      assert (get d "commitSubject" = wireValue (of_opt_str subject)) as -> by apply get_wire.
      rewrite !Hnull. cbn [mbind option_bind]. rewrite H1, H2, (anchorIn_name V2_ANCHORS) by (unfold V2_ANCHORS; destruct a; set_solver).
      destruct subject as [t|]; [|done]. cbn. by rewrite Hsub.
Qed.

Lemma parseGitStamp_roundtrip_witness :
  let s := GitStampDataV2 tool_end (mkIdentity (Some "0123456789abcdef0123456789abcdef01234567") (Some "main")) (Some "fix") in
  parseGitStampEntry (jsonRoundTrip (object [("type", JStr "custom"); ("customType", JStr GIT_STAMP_CUSTOM_TYPE);
                                             ("data", stampJson s)])) = Some s.
Proof.
  intros s. apply (parseGitStamp_roundtrip s JNull). split; [split|].
  - intros c [= <-]. vm_compute. reflexivity.
  - intros b [= <-]. vm_compute. reflexivity.
  - intros t [= <-]. vm_compute. reflexivity.
Defined.
