(* ===== verification/Accounting.v ===== *)
(** * The session ledger

    [viewmodel/accounting.ts]: the usage of every entry of a document, summed
    over the session and per billed model.  Numbers are doubles, so a sum is the
    fold the source computes; the counts of requests are naturals. *)

From S2P Require Export Status.

Record ModelCostRow := mkRow {
  rowKey : string; rowProvider : json; rowModelId : json;
  rowCost : num; rowTokens : num; rowInput : num; rowOutput : num; rowCacheRead : num; rowCacheWrite : num;
  rowRequests : nat
}.

Record SessionAccounting := mkAccounting {
  cost : num; input : num; output : num; cacheRead : num; cacheWrite : num; requests : nat;
  hitRate : num; byModel : list ModelCostRow
}.

(** [String(v)] in a template, for the strings and missing values of the ledger. *)
Definition templateText (v : json) : string :=
  match v with JStr s => s | JNull => "null" | _ => "undefined" end.

(** The billed model of an entry: the reported one when the catalog knows it, or
    when there is no catalog. *)
Definition billingModelId (e : json) (models : option (list json)) : json :=
  let reported := get e "responseModel" in
  if truthy reported && negb (prim_eq reported (get e "model")) then
    match models with
    | None | Some [] => reported
    | Some ms =>
      if existsb (λ m, prim_eq (get m "provider") (get e "provider") && prim_eq (get m "id") reported) ms
      then reported else get e "model"
    end
  else get e "model".

(** [e.kind !== "message" || !e.usage] skips an entry. *)
Definition billed (e : json) : bool := isKind "message" e && truthy (get e "usage").

Definition billingKey (models : option (list json)) (e : json) : string :=
  templateText (get e "provider") +:+ "/" +:+ templateText (billingModelId e models).

Definition usageOf (e : json) (k : string) : num := num_of (get (get e "usage") k).
Definition costOf (e : json) : num := num_of (get (get (get e "usage") "cost") "total").

Definition newRow (models : option (list json)) (e : json) : ModelCostRow :=
  mkRow (billingKey models e) (get e "provider" ?? JStr "") (billingModelId e models ?? JStr "")
        (NInt 0) (NInt 0) (NInt 0) (NInt 0) (NInt 0) (NInt 0) 0.

Definition addToRow (row : ModelCostRow) (e : json) : ModelCostRow :=
  let ic := usageOf e "input" in let oc := usageOf e "output" in
  let cr := usageOf e "cacheRead" in let cw := usageOf e "cacheWrite" in
  mkRow (rowKey row) (rowProvider row) (rowModelId row)
        (num_add (rowCost row) (costOf e))
        (num_add (rowTokens row) (num_add (num_add (num_add ic oc) cr) cw))
        (num_add (rowInput row) ic) (num_add (rowOutput row) oc)
        (num_add (rowCacheRead row) cr) (num_add (rowCacheWrite row) cw) (S (rowRequests row)).

(** [byModel.get(key)], updated or created: a [Map] in insertion order. *)
Fixpoint bill (models : option (list json)) (e : json) (rows : list ModelCostRow) : list ModelCostRow :=
  match rows with
  | [] => [addToRow (newRow models e) e]
  | row :: rest =>
    if decide (rowKey row = billingKey models e) then addToRow row e :: rest else row :: bill models e rest
  end.

(** The variables of the loop. *)
Record Ledger := mkLedger {
  ledgerCost : num; ledgerInput : num; ledgerOutput : num; ledgerCacheRead : num; ledgerCacheWrite : num;
  ledgerRequests : nat; ledgerRows : list ModelCostRow
}.

Definition billEntry (models : option (list json)) (l : Ledger) (e : json) : Ledger :=
  if negb (billed e) then l
  else mkLedger (num_add (ledgerCost l) (costOf e)) (num_add (ledgerInput l) (usageOf e "input"))
         (num_add (ledgerOutput l) (usageOf e "output")) (num_add (ledgerCacheRead l) (usageOf e "cacheRead"))
         (num_add (ledgerCacheWrite l) (usageOf e "cacheWrite")) (S (ledgerRequests l)) (bill models e (ledgerRows l)).

Definition ledgerOf (models : option (list json)) (values : list json) : Ledger :=
  foldl (billEntry models) (mkLedger (NInt 0) (NInt 0) (NInt 0) (NInt 0) (NInt 0) 0 []) values.

(** [sort((a, b) => b.cost - a.cost)]: a stable sort, dearest first. *)
Definition sortByCost : list ModelCostRow → list ModelCostRow :=
  sort_by (λ a b, num_ltb (rowCost b) (rowCost a)).

(** [Object.values(entries)] in the order [values]. *)
Definition accountingOf (models : option (list json)) (values : list json) : SessionAccounting :=
  let l := ledgerOf models values in
  let promptTokens := num_add (ledgerInput l) (ledgerCacheRead l) in
  let rate := if num_ltb (NInt 0) promptTokens
              then num_mul (num_div (ledgerCacheRead l) promptTokens) (NInt 100) else NInt 0 in
  mkAccounting (ledgerCost l) (ledgerInput l) (ledgerOutput l) (ledgerCacheRead l) (ledgerCacheWrite l)
    (ledgerRequests l) rate (sortByCost (ledgerRows l)).

Definition sessionAccounting (entries : record) (models : option (list json)) : SessionAccounting :=
  accountingOf models (valuesOf entries).

(** ** Lemmas *)

(** The row of one model: its entries, in order. *)
Definition rowOf (models : option (list json)) (key : string) (values : list json) : option ModelCostRow :=
  match List.filter (λ e, billed e && bool_decide (billingKey models e = key)) values with
  | [] => None
  | e :: rest => Some (foldl addToRow (addToRow (newRow models e) e) rest)
  end.

Lemma addToRow_key row e : rowKey (addToRow row e) = rowKey row.
Proof. done. Qed.

Lemma bill_keys models e rows :
  NoDup (map rowKey rows) →
  NoDup (map rowKey (bill models e rows)) ∧
  ∀ k, k ∈ map rowKey (bill models e rows) ↔ k = billingKey models e ∨ k ∈ map rowKey rows.
Proof.
  induction rows as [|row rest IH]; intros Hnd; simpl.
  - split; [apply NoDup_singleton|]. intros k. rewrite list_elem_of_singleton, elem_of_nil. tauto.
  - apply NoDup_cons in Hnd as [Hrow Hnd]. destruct (IH Hnd) as [IH1 IH2]. case_decide as Hk; cbn [map rowKey].
    + split; [by constructor|]. intros k. rewrite addToRow_key, !elem_of_cons, Hk. tauto.
    + split.
      * constructor; [|done]. rewrite IH2. by intros [?|?].
      * intros k. rewrite !elem_of_cons, IH2. tauto.
Qed.

(** The row under a key. *)
Definition findRow (key : string) (rows : list ModelCostRow) : option ModelCostRow :=
  List.find (λ r, bool_decide (rowKey r = key)) rows.

Lemma bill_find models e rows key :
  findRow key (bill models e rows) =
    if decide (key = billingKey models e)
    then Some (addToRow (default (newRow models e) (findRow key rows)) e)
    else findRow key rows.
Proof.
  unfold findRow. induction rows as [|row rest IH]; cbn [bill List.find].
  - rewrite addToRow_key. cbn [newRow rowKey]. case_decide as Hk.
    + by rewrite bool_decide_eq_true_2.
    + by rewrite bool_decide_eq_false_2.
  - destruct (decide (rowKey row = billingKey models e)) as [Hrow|Hrow]; cbn [List.find]; rewrite ?addToRow_key.
    + rewrite Hrow. destruct (decide (key = billingKey models e)) as [->|Hk];
        [by rewrite bool_decide_eq_true_2|by rewrite bool_decide_eq_false_2].
    + rewrite IH. destruct (decide (rowKey row = key)) as [Heq|Hne].
      * rewrite !bool_decide_eq_true_2 by done. by rewrite decide_False by congruence.
      * by rewrite !bool_decide_eq_false_2.
Qed.

Lemma ledgerOf_snoc models values e : ledgerOf models (values ++ [e]) = billEntry models (ledgerOf models values) e.
Proof. unfold ledgerOf. by rewrite foldl_app. Qed.

Lemma ledgerRows_spec models values :
  NoDup (map rowKey (ledgerRows (ledgerOf models values))) ∧
  (∀ key, findRow key (ledgerRows (ledgerOf models values)) = rowOf models key values) ∧
  ledgerRequests (ledgerOf models values) = length (List.filter billed values).
Proof.
  induction values as [|e values (IH1 & IH2 & IH3)] using rev_ind; [by split_and!; [constructor|..]|].
  rewrite ledgerOf_snoc. unfold billEntry, rowOf in *. setoid_rewrite List.filter_app. cbn [List.filter].
  destruct (billed e) eqn:He; cbn [negb andb].
  - cbn [ledgerRows ledgerRequests]. split_and!.
    + by apply bill_keys.
    + intros key. rewrite bill_find, IH2. case_decide as Hk.
      * rewrite bool_decide_eq_true_2 by done.
        match goal with |- context [List.filter ?f values] => destruct (List.filter f values) as [|e0 rest] end.
        { cbn. reflexivity. }
        cbn. by rewrite foldl_app.
      * rewrite bool_decide_eq_false_2 by done. by rewrite app_nil_r.
    + rewrite IH3, length_app. simpl. lia.
  - setoid_rewrite app_nil_r. done.
Qed.

Lemma elem_of_findRow row rows :
  NoDup (map rowKey rows) → row ∈ rows ↔ findRow (rowKey row) rows = Some row.
Proof.
  intros Hnd. unfold findRow. split.
  - induction rows as [|r rows IH]; [by intros ?%elem_of_nil|]. apply NoDup_cons in Hnd as [Hr Hnd].
    intros [->|Hin]%elem_of_cons; cbn [List.find]; [by rewrite bool_decide_eq_true_2|].
    rewrite bool_decide_eq_false_2; [by apply IH|]. intros Heq. apply Hr. rewrite Heq.
    by apply list_elem_of_fmap_2.
  - intros [H _]%find_some. by apply list_elem_of_In.
Qed.

(** ** Properties *)

(** The ledger of a model is the ledger of its entries: the rows are one per
    billed model, each is the sum of exactly the usage-bearing messages billed to
    that model, in order, and the requests of the session are all of them, on any
    branch, before or after any compaction. *)
Theorem sessionAccounting_rows entries models row :
  let acc := sessionAccounting entries models in
  NoDup (map rowKey (byModel acc)) ∧
  (row ∈ byModel acc ↔ rowOf models (rowKey row) (valuesOf entries) = Some row) ∧
  requests acc = length (List.filter billed (valuesOf entries)).
Proof.
  unfold sessionAccounting, accountingOf. cbn [byModel requests].
  destruct (ledgerRows_spec models (valuesOf entries)) as (H1 & H2 & H3). unfold sortByCost. split_and!; [|by rewrite sort_by_perm, elem_of_findRow, H2|done].
  by rewrite sort_by_perm.
Qed.
