(* ===== verification/PatchView.v ===== *)
(** * Display of an [apply_patch] envelope

    [viewmodel/apply-patch.ts]: the parser that turns the text of an envelope
    into the sections a card shows.  The index into the lines is the list of the
    lines that remain; the two outer loops take the number of lines as fuel,
    which is enough on every input. *)

From S2P Require Export Json.

Record ApplyPatchChunk := mkChunk { contexts : list string; oldText : string; newText : string }.

Inductive ApplyPatchSection :=
| AddSection (filePath content : string)
| DeleteSection (filePath : string)
| UpdateSection (filePath : string) (movePath : option string) (chunks : list ApplyPatchChunk).

Record ApplyPatchParse := mkParse { sections : list ApplyPatchSection; complete : bool; ok : bool }.

Definition BEGIN_PATCH : string := "*** Begin Patch".
Definition END_PATCH : string := "*** End Patch".
Definition ADD_FILE : string := "*** Add File: ".
Definition DELETE_FILE : string := "*** Delete File: ".
Definition UPDATE_FILE : string := "*** Update File: ".
Definition MOVE_TO : string := "*** Move to: ".

Definition newline : ascii := "010"%char.
Definition carriage : ascii := "013"%char.
Definition lines_of (l : list string) : string := join_with (String newline "") l.

(** [\w] *)
Definition isWord (a : ascii) : bool :=
  let n := nat_of_ascii a in
  ((48 <=? n) && (n <=? 57)) || ((65 <=? n) && (n <=? 90)) || (n =? 95) || ((97 <=? n) && (n <=? 122)).

(** [replace(/\r\n/g, "\n")], then [replace(/\r/g, "\n")]. *)
Fixpoint unixNewlines (s : string) : string :=
  match s with
  | EmptyString => ""
  | String a s' =>
    if decide (a = carriage)
    then match s' with
         | String b s'' => if decide (b = newline) then String newline (unixNewlines s'') else String newline (unixNewlines s')
         | EmptyString => String newline ""
         end
    else String a (unixNewlines s')
  end.

Definition normalizePatchText (text : string) : string := trim (unixNewlines text).

(** ** The heredoc wrapper *)

(** A greedy run of units, and what follows it. *)
Fixpoint spanUnits (f : ascii → bool) (s : string) : string * string :=
  match s with
  | String a s' => if f a then let '(p, r) := spanUnits f s' in (String a p, r) else ("", s)
  | EmptyString => ("", "")
  end.

(** An optional quote character. *)
Definition skipQuote (s : string) : string :=
  match s with
  | String a s' => if decide (nat_of_ascii a = 34 ∨ nat_of_ascii a = 39) then s' else s
  | EmptyString => ""
  end.

(** [([\s\S]*?)\n\1\s*$]: the shortest body followed by the closing word. *)
Fixpoint heredocBody (word s : string) : option string :=
  if startsWith (String newline word) s && bool_decide (trimStart (sdrop (S (slength word)) s) = "") then Some ""
  else match s with
       | String a s' => String a <$> heredocBody word s'
       | EmptyString => None
       end.

(** [\s*\n] and the body: the white space takes as many newlines as it can. *)
Fixpoint heredocAfter (word s : string) : option string :=
  match s with
  | String a s' =>
    if isSpace a then
      match heredocAfter word s' with
      | Some body => Some body
      | None => if decide (a = newline) then heredocBody word s' else None
      end
    else None
  | EmptyString => None
  end.

Definition heredocWord (s : string) : option string :=
  if startsWith "<<" s then
    let '(word, rest) := spanUnits isWord (skipQuote (sdrop 2 s)) in
    if decide (word = "") then None else heredocAfter word (skipQuote rest)
  else None.

Definition stripHeredoc (input : string) : string :=
  let afterCat :=
    if startsWith "cat" input then
      let '(space, rest) := spanUnits isSpace (sdrop 3 input) in
      if decide (space = "") then None else heredocWord rest
    else None in
  default input (match afterCat with Some body => Some body | None => heredocWord input end).

(** ** The parser *)

Definition sectionMark : string := "*** ".

(** The lines of an added file, up to the next mark. *)
Fixpoint addedLines (lines : list string) : list string * list string :=
  match lines with
  | [] => ([], [])
  | next :: rest =>
    if startsWith sectionMark next then ([], lines)
    else let '(content, rest') := addedLines rest in
         ((if startsWith "+" next then sdrop 1 next else next) :: content, rest')
  end.

Definition isMarker (line : string) : bool := bool_decide (line = "@@") || startsWith "@@ " line.

(** The seek markers that precede a chunk. *)
Fixpoint seekMarkers (lines : list string) : list string * list string :=
  match lines with
  | [] => ([], [])
  | ctx :: rest =>
    if isMarker ctx then
      let '(cs, rest') := seekMarkers rest in
      (if startsWith "@@ " ctx then sdrop 3 ctx :: cs else cs, rest')
    else ([], lines)
  end.

(** The body of a chunk: the old lines, the new lines, and whether there is any. *)
Fixpoint chunkBody (lines : list string) : list string * list string * bool * list string :=
  match lines with
  | [] => ([], [], false, [])
  | body :: rest =>
    if startsWith sectionMark body || isMarker body then ([], [], false, lines)
    else
      let '(olds, news, saw, rest') := chunkBody rest in
      if startsWith " " body then (sdrop 1 body :: olds, sdrop 1 body :: news, true, rest')
      else if startsWith "-" body then (sdrop 1 body :: olds, news, true, rest')
      else if startsWith "+" body then (olds, sdrop 1 body :: news, true, rest')
      else (olds, news, saw, rest')
  end.

Fixpoint chunkLoop (fuel : nat) (lines : list string) : option (list ApplyPatchChunk * list string) :=
  match fuel with
  | 0 => None
  | S fuel' =>
    match lines with
    | [] => Some ([], [])
    | next :: rest =>
      if startsWith sectionMark next then Some ([], lines)
      else if bool_decide (trim next = "") then chunkLoop fuel' rest
      else
        let '(cs, rest1) := seekMarkers lines in
        let '(olds, news, saw, rest2) := chunkBody rest1 in
        '(chunks, rest3) ← chunkLoop fuel' rest2;
        Some (if saw || negb (bool_decide (cs = [])) then mkChunk cs (lines_of olds) (lines_of news) :: chunks else chunks, rest3)
    end
  end.

(** [Move to], when the next line has it. *)
Definition moveTarget (lines : list string) : option string * list string :=
  match lines with
  | line :: rest => if startsWith MOVE_TO line then (Some (sdrop (slength MOVE_TO) line), rest) else (None, lines)
  | [] => (None, [])
  end.

Fixpoint sectionLoop (fuel : nat) (lines : list string) : option (list ApplyPatchSection * bool) :=
  match fuel with
  | 0 => None
  | S fuel' =>
    match lines with
    | [] => Some ([], false)
    | line :: rest =>
      if startsWith ADD_FILE line then
        let '(content, rest') := addedLines rest in
        '(ss, done) ← sectionLoop fuel' rest';
        Some (AddSection (sdrop (slength ADD_FILE) line) (lines_of content) :: ss, done)
      else if startsWith DELETE_FILE line then
        '(ss, done) ← sectionLoop fuel' rest;
        Some (DeleteSection (sdrop (slength DELETE_FILE) line) :: ss, done)
      else if startsWith UPDATE_FILE line then
        let '(movePath, rest1) := moveTarget rest in
        '(chunks, rest2) ← chunkLoop fuel' rest1;
        '(ss, done) ← sectionLoop fuel' rest2;
        Some (UpdateSection (sdrop (slength UPDATE_FILE) line) movePath chunks :: ss, done)
      else if bool_decide (line = END_PATCH) then Some ([], true)
      else sectionLoop fuel' rest
    end
  end.

Definition parseApplyPatch (input : string) : option ApplyPatchParse :=
  let text := stripHeredoc (normalizePatchText input) in
  if negb (startsWith BEGIN_PATCH text) then Some (mkParse [] false false)
  else
    let lines := split_on newline text in
    '(ss, done) ← sectionLoop (S (length lines)) (tail lines);
    Some (mkParse ss done (negb (bool_decide (ss = [])))).

(** [/^\*\*\* (?:Add|Delete|Update) File: (.+)$/] on one line. *)
Definition touchedPath (line : string) : option string :=
  prefix ← List.find (λ p, startsWith p line) [ADD_FILE; DELETE_FILE; UPDATE_FILE];
  let path := sdrop (slength prefix) line in
  if decide (path = "") then None else Some path.

Definition extractApplyPatchPaths (input : string) : list string :=
  omap touchedPath (split_on newline (stripHeredoc (normalizePatchText input))).

Definition applyPatchInput (args : json) : option string :=
  match args with
  | JStr s => Some s
  | JObj _ => opt_str (get args "input")
  | _ => None
  end.

(** ** Printing an envelope *)

Inductive DiffLine := Kept (s : string) | Removed (s : string) | Inserted (s : string).

(** A hunk: its seek markers (bare, or with a context line) and its lines. *)
Record Hunk := mkHunk { markers : list (option string); diffLines : list DiffLine }.

Inductive FilePatch :=
| AddFile (path : string) (content : list string)
| DeleteFile (path : string)
| UpdateFile (path : string) (moveTo : option string) (hunks : list Hunk).

Definition printMarker (m : option string) : string :=
  match m with Some ctx => "@@ " +:+ ctx | None => "@@" end.
Definition printLine (l : DiffLine) : string :=
  match l with Kept s => " " +:+ s | Removed s => "-" +:+ s | Inserted s => "+" +:+ s end.
Definition printHunk (h : Hunk) : list string := map printMarker (markers h) ++ map printLine (diffLines h).
Definition printFile (f : FilePatch) : list string :=
  match f with
  | AddFile path content => (ADD_FILE +:+ path) :: map (String.append "+") content
  | DeleteFile path => [DELETE_FILE +:+ path]
  | UpdateFile path moveTo hunks =>
    (UPDATE_FILE +:+ path) :: match moveTo with Some to => [MOVE_TO +:+ to] | None => [] end ++ concat (map printHunk hunks)
  end.
Definition printPatch (fs : list FilePatch) : string :=
  lines_of (BEGIN_PATCH :: concat (map printFile fs) ++ [END_PATCH]).

(** What a reader of the envelope should see. *)
Definition oldLine (l : DiffLine) : option string := match l with Kept s | Removed s => Some s | Inserted _ => None end.
Definition newLine (l : DiffLine) : option string := match l with Kept s | Inserted s => Some s | Removed _ => None end.
Definition chunkOf (h : Hunk) : ApplyPatchChunk :=
  mkChunk (omap id (markers h)) (lines_of (omap oldLine (diffLines h))) (lines_of (omap newLine (diffLines h))).
Definition sectionOf (f : FilePatch) : ApplyPatchSection :=
  match f with
  | AddFile path content => AddSection path (lines_of content)
  | DeleteFile path => DeleteSection path
  | UpdateFile path moveTo hunks => UpdateSection path moveTo (map chunkOf hunks)
  end.
Definition pathOf (f : FilePatch) : string :=
  match f with AddFile path _ | DeleteFile path | UpdateFile path _ _ => path end.

(** One line of text. *)
Definition oneLine (s : string) : bool := char_free newline s && char_free carriage s.
Definition printable (fs : list FilePatch) : bool := forallb oneLine (concat (map printFile fs)).
Definition hunkOk (h : Hunk) : bool := negb (bool_decide (markers h = [])) && negb (bool_decide (length (diffLines h) = 0)).
Definition fileOk (f : FilePatch) : bool :=
  negb (bool_decide (pathOf f = ""))
  && match f with UpdateFile _ _ hunks => forallb hunkOk hunks | _ => true end.

#[local] Arguments startsWith : simpl never.
#[local] Arguments isMarker : simpl never.

(** ** Termination *)

Lemma addedLines_length lines : length (addedLines lines).2 ≤ length lines.
Proof.
  induction lines as [|next rest IH]; simpl; [lia|].
  destruct (startsWith sectionMark next); [simpl; lia|]. destruct (addedLines rest); simpl in *. lia.
Qed.

Lemma seekMarkers_length lines : length (seekMarkers lines).2 ≤ length lines.
Proof.
  induction lines as [|next rest IH]; simpl; [lia|].
  destruct (isMarker next); [|simpl; lia]. destruct (seekMarkers rest); simpl in *. lia.
Qed.

Lemma chunkBody_length lines : length (chunkBody lines).2 ≤ length lines.
Proof.
  induction lines as [|next rest IH]; simpl; [lia|].
  destruct (startsWith sectionMark next || isMarker next); [simpl; lia|].
  destruct (chunkBody rest) as [[[olds news] saw] rest']; simpl in *. repeat case_match; simpl; lia.
Qed.

(** One round of the loop over the chunks consumes a line. *)
Lemma chunk_progress next rest :
  startsWith sectionMark next = false →
  length (chunkBody (seekMarkers (next :: rest)).2).2 ≤ length rest.
Proof.
  intros Hs. pose proof (seekMarkers_length rest) as Hm. cbn [seekMarkers]. destruct (isMarker next) eqn:E.
  - destruct (seekMarkers rest) as [cs rest1]; simpl in *. pose proof (chunkBody_length rest1). lia.
  - simpl. rewrite Hs, E. simpl. pose proof (chunkBody_length rest) as Hb.
    destruct (chunkBody rest) as [[[olds news] saw] rest']; simpl in *. repeat case_match; simpl; lia.
Qed.

Lemma chunkLoop_total fuel lines :
  length lines < fuel → ∃ chunks rest, chunkLoop fuel lines = Some (chunks, rest) ∧ length rest ≤ length lines.
Proof.
  revert lines. induction fuel as [|fuel IH]; intros lines Hf; [lia|].
  destruct lines as [|next rest]; [by eexists _, _|]. simpl in Hf. cbn [chunkLoop].
  destruct (startsWith sectionMark next) eqn:Es; [by eexists _, _|].
  case_bool_decide.
  - destruct (IH rest) as (chunks & rest' & -> & ?); [lia|]. exists chunks, rest'. simpl. split; [done|lia].
  - pose proof (chunk_progress next rest Es) as Hp. revert Hp.
    destruct (seekMarkers (next :: rest)) as [cs rest1].
    destruct (chunkBody rest1) as [[[olds news] saw] rest2] eqn:Eb. cbn [snd]; rewrite Eb; cbn [snd]; intros Hp.
    destruct (IH rest2) as (chunks & rest3 & -> & ?); [lia|]. eexists _, rest3. simpl. split; [done|lia].
Qed.

Lemma moveTarget_length lines : length (moveTarget lines).2 ≤ length lines.
Proof. destruct lines as [|line rest]; simpl; [lia|]. destruct (startsWith MOVE_TO line); simpl; lia. Qed.

Lemma sectionLoop_total fuel lines :
  length lines < fuel → is_Some (sectionLoop fuel lines).
Proof.
  revert lines. induction fuel as [|fuel IH]; intros lines Hf; [lia|].
  destruct lines as [|line rest]; [by eexists|]. simpl in Hf. cbn [sectionLoop].
  destruct (startsWith ADD_FILE line).
  { pose proof (addedLines_length rest). destruct (addedLines rest) as [content rest']. simpl in *.
    destruct (IH rest') as [[ss done] ->]; [lia|]. by eexists. }
  destruct (startsWith DELETE_FILE line).
  { destruct (IH rest) as [[ss done] ->]; [lia|]. by eexists. }
  destruct (startsWith UPDATE_FILE line).
  { pose proof (moveTarget_length rest). destruct (moveTarget rest) as [movePath rest1]. simpl in *.
    destruct (chunkLoop_total fuel rest1) as (chunks & rest2 & -> & ?); [lia|]. simpl.
    destruct (IH rest2) as [[ss done] ->]; [lia|]. by eexists. }
  case_bool_decide; [by eexists|]. apply IH. lia.
Qed.

(** The parser never hangs, whatever text has arrived. *)
Lemma parseApplyPatch_total input : is_Some (parseApplyPatch input).
Proof.
  unfold parseApplyPatch. case_match; [by eexists|].
  set (lines := split_on _ _).
  destruct (sectionLoop_total (S (length lines)) (tail lines)) as [[ss done] ->]; [destruct lines; simpl; lia|].
  by eexists.
Qed.

(** ** Reading a printed envelope *)

(** A tail that starts a new section. *)
Definition atMark (lines : list string) : Prop :=
  match lines with [] => False | line :: _ => startsWith sectionMark line = true end.

Lemma addedLines_print content tail :
  atMark tail → addedLines (map (String.append "+") content ++ tail) = (content, tail).
Proof.
  intros Ht. induction content as [|c content IH].
  - simpl. destruct tail as [|t tail]; [done|]. simpl in *. by rewrite Ht.
  - cbn [map app addedLines]. rewrite IH. done.
Qed.

Lemma marker_not_mark m : startsWith sectionMark (printMarker m) = false.
Proof. by destruct m. Qed.

Lemma isMarker_print m : isMarker (printMarker m) = true.
Proof. destruct m; [|done]. unfold isMarker. apply orb_true_r. Qed.

Lemma isMarker_line l : isMarker (printLine l) = false.
Proof. by destruct l. Qed.

Lemma isMarker_mark line : startsWith sectionMark line = true → isMarker line = false.
Proof.
  intros [t ->]%startsWith_spec. done.
Qed.

Lemma seekMarkers_stop lines : Forall (λ l, isMarker l = false) (take 1 lines) → seekMarkers lines = ([], lines).
Proof. destruct lines as [|l rest]; simpl; [done|]. inversion_clear 1 as [|? ? Hl]. by rewrite Hl. Qed.

Lemma seekMarkers_print ms lines :
  Forall (λ l, isMarker l = false) (take 1 lines) →
  seekMarkers (map printMarker ms ++ lines) = (omap id ms, lines).
Proof.
  intros Hl. induction ms as [|m ms IH]; [by apply seekMarkers_stop|].
  cbn [map app seekMarkers]. rewrite isMarker_print, IH. by destruct m.
Qed.

Lemma chunkBody_print ls tail :
  match tail with [] => False | t :: _ => startsWith sectionMark t || isMarker t = true end →
  chunkBody (map printLine ls ++ tail)
  = (omap oldLine ls, omap newLine ls, negb (bool_decide (length ls = 0)), tail).
Proof.
  intros Ht. induction ls as [|l ls IH].
  - destruct tail as [|t tail]; [done|]. simpl. by rewrite Ht.
  - cbn [map app chunkBody]. rewrite IH. by destruct l.
Qed.

Lemma printHunk_head h : hunkOk h = true → ∃ m rest, printHunk h = printMarker m :: rest.
Proof. unfold hunkOk, printHunk. destruct (markers h) as [|m ms]; [done|]. intros _. by exists m, (map printMarker ms ++ map printLine (diffLines h)). Qed.

(** The lines after a hunk start with a section or with a marker. *)
Lemma hunks_head hs tail :
  atMark tail → forallb hunkOk hs = true →
  match concat (map printHunk hs) ++ tail with [] => False | t :: _ => startsWith sectionMark t || isMarker t = true end.
Proof.
  intros Ht Hok. destruct hs as [|h hs]; simpl.
  - destruct tail as [|t tail]; [done|]. simpl in Ht. by rewrite Ht.
  - simpl in Hok. split_bools. destruct (printHunk_head h) as (m & rest & ->); [done|]. simpl.
    by rewrite isMarker_print, orb_true_r.
Qed.

Lemma marker_not_blank m : bool_decide (trim (printMarker m) = "") = false.
Proof.
  apply bool_decide_eq_false. destruct m as [ctx|]; [|done].
  unfold trim. simpl. destruct (trimEnd ctx); done.
Qed.

(** A round of the loop that starts at a marker. *)
Lemma chunkLoop_markers fuel ms lines :
  ms ≠ [] →
  chunkLoop (S fuel) (map printMarker ms ++ lines)
  = let '(cs, rest1) := seekMarkers (map printMarker ms ++ lines) in
    let '(olds, news, saw, rest2) := chunkBody rest1 in
    '(chunks, rest3) ← chunkLoop fuel rest2;
    Some (if saw || negb (bool_decide (cs = [])) then mkChunk cs (lines_of olds) (lines_of news) :: chunks else chunks, rest3).
Proof.
  intros Hms. destruct ms as [|m ms]; [done|]. cbn [map app chunkLoop].
  by rewrite marker_not_mark, marker_not_blank.
Qed.

Lemma chunkLoop_print hs tail fuel :
  atMark tail → forallb hunkOk hs = true → length hs < fuel →
  chunkLoop fuel (concat (map printHunk hs) ++ tail) = Some (map chunkOf hs, tail).
Proof.
  intros Ht. revert fuel. induction hs as [|h hs IH]; intros [|fuel] Hok Hf; simpl in Hf; try lia.
  - destruct tail as [|t tail]; [done|]. simpl in Ht. simpl. by rewrite Ht.
  - pose proof Hok as Hok'. cbn [forallb] in Hok. apply andb_prop in Hok as [Hh Hhs].
    pose proof (hunks_head hs tail Ht Hhs) as Hnext.
    specialize (IH fuel Hhs ltac:(lia)).
    cbn [map concat]. rewrite <-app_assoc. unfold printHunk at 1. rewrite <-app_assoc.
    unfold hunkOk in Hh. split_bools.
    pose proof (seekMarkers_print (markers h) (map printLine (diffLines h) ++ concat (map printHunk hs) ++ tail)) as Hseek.
    rewrite chunkLoop_markers; [|done].
    rewrite Hseek; [|destruct (diffLines h) as [|l ls]; [done|simpl; rewrite Forall_singleton; apply isMarker_line]].
    rewrite (chunkBody_print (diffLines h) _ Hnext), IH. simpl.
    by rewrite (bool_decide_eq_false_2 (length (diffLines h) = 0)).
Qed.

Lemma printFile_head f : ∃ t rest, printFile f = (sectionMark +:+ t) :: rest.
Proof.
  destruct f as [path content|path|path moveTo hunks]; eexists (_ +:+ path), _; reflexivity.
Qed.

Lemma files_atMark fs : atMark (concat (map printFile fs) ++ [END_PATCH]).
Proof.
  destruct fs as [|f fs]; [done|]. cbn [map concat]. destruct (printFile_head f) as (t & rest & ->).
  apply (startsWith_app sectionMark).
Qed.

Lemma hunks_length hs : forallb hunkOk hs = true → length hs ≤ length (concat (map printHunk hs)).
Proof.
  induction hs as [|h hs IH]; intros Hok; [done|]. cbn [forallb] in Hok. split_bools.
  cbn [map concat length]. rewrite length_app. destruct (printHunk_head h) as (m & rest & ->); [done|].
  specialize (IH ltac:(done)). simpl. lia.
Qed.

Lemma moveTarget_print moveTo hs tail :
  atMark tail → startsWith MOVE_TO (hd "" tail) = false →
  moveTarget (match moveTo with Some to => [MOVE_TO +:+ to] | None => [] end ++ concat (map printHunk hs) ++ tail)
  = (moveTo, concat (map printHunk hs) ++ tail) ∨ forallb hunkOk hs = false.
Proof.
  intros Ht Hm. destruct (forallb hunkOk hs) eqn:Ho; [left|by right].
  destruct moveTo as [to|]; cbn [app moveTarget].
  { by rewrite startsWith_app, sdrop_app. }
  destruct hs as [|h hs]; cbn [map concat app].
  { destruct tail as [|t tail]; [done|]. simpl in *. by rewrite Hm. }
  simpl in Ho. split_bools. destruct (printHunk_head h) as (m & rest & ->); [done|]. by destruct m.
Qed.

Lemma files_not_move fs : startsWith MOVE_TO (hd "" (concat (map printFile fs) ++ [END_PATCH])) = false.
Proof.
  destruct fs as [|f fs]; [done|]. by destruct f.
Qed.

(** The loop over the sections reads back the printed ones. *)
Lemma sectionLoop_print fs fuel :
  forallb fileOk fs = true → length (concat (map printFile fs)) + 1 < fuel →
  sectionLoop fuel (concat (map printFile fs) ++ [END_PATCH]) = Some (map sectionOf fs, true).
Proof.
  revert fuel. induction fs as [|f fs IH]; intros [|fuel] Hok Hf; try lia; [done|].
  cbn [forallb] in Hok. apply andb_prop in Hok as [Hfile Hfs].
  cbn [map concat length] in *. rewrite length_app in Hf. rewrite <-app_assoc.
  specialize (IH fuel Hfs). pose proof (files_atMark fs) as Hmark. pose proof (files_not_move fs) as Hmove.
  destruct f as [path content|path|path moveTo hunks].
  - cbn [printFile app sectionLoop]. rewrite startsWith_app, sdrop_app, addedLines_print by done.
    rewrite IH by (simpl in Hf; lia). done.
  - cbn [printFile app sectionLoop]. change (startsWith ADD_FILE (DELETE_FILE +:+ path)) with false.
    rewrite startsWith_app, sdrop_app, IH by (simpl in Hf; lia). done.
  - cbn [printFile app sectionLoop]. change (startsWith ADD_FILE (UPDATE_FILE +:+ path)) with false.
    change (startsWith DELETE_FILE (UPDATE_FILE +:+ path)) with false.
    rewrite startsWith_app, sdrop_app, <-app_assoc.
    unfold fileOk in Hfile. apply andb_prop in Hfile as [_ Hh].
    destruct (moveTarget_print moveTo hunks _ Hmark Hmove) as [->|?]; [|congruence].
    cbn [printFile length] in Hf. rewrite length_app in Hf.
    pose proof (hunks_length hunks Hh).
    rewrite chunkLoop_print by (done || lia). cbn [mbind option_bind]. rewrite IH by lia. done.
Qed.

(** ** The text of a printed envelope *)

Lemma char_free_join a c l :
  a ≠ c → forallb (char_free a) l = true → char_free a (join_with (String c "") l) = true.
Proof.
  intros Hac. induction l as [|s l IH]; intros Hl; [done|]. cbn [forallb] in Hl. split_bools.
  destruct l as [|t l]; [done|].
  change (char_free a (s +:+ String c (join_with (String c "") (t :: l))) = true).
  rewrite char_free_app. apply andb_true_iff; split; [done|]. simpl.
  rewrite bool_decide_eq_true_2 by done. by apply IH.
Qed.

Lemma join_head c s l : ∃ body, join_with c (s :: l) = s +:+ body.
Proof. destruct l as [|t l]; [exists ""; by rewrite sapp_nil_r|by eexists]. Qed.

Lemma join_snoc c l x : l ≠ [] → join_with c (l ++ [x]) = join_with c l +:+ c +:+ x.
Proof.
  induction l as [|s l IH]; intros Hl; [done|]. destruct l as [|t l]; [done|].
  change (s +:+ c +:+ join_with c ((t :: l) ++ [x]) = (s +:+ c +:+ join_with c (t :: l)) +:+ c +:+ x).
  rewrite IH by done. by rewrite !sapp_assoc.
Qed.

Lemma unixNewlines_free s : char_free carriage s = true → unixNewlines s = s.
Proof.
  induction s as [|a s IH]; intros H; [done|]. simpl in H. split_bools. simpl.
  rewrite decide_False by done. by rewrite IH.
Qed.

Lemma trimEnd_last s a : isSpace a = false → trimEnd (s +:+ String a "") = s +:+ String a "".
Proof.
  intros Ha. induction s as [|b s IH]; simpl; [by rewrite Ha|].
  rewrite IH. by destruct s.
Qed.

Lemma forallb_oneLine a l :
  a = newline ∨ a = carriage → forallb oneLine l = true → forallb (char_free a) l = true.
Proof.
  intros Ha. rewrite !forallb_forall. intros H x Hx. specialize (H x Hx).
  unfold oneLine in H. split_bools. by destruct Ha as [-> | ->].
Qed.

Lemma printPatch_lines fs : printable fs = true →
  forallb oneLine (BEGIN_PATCH :: concat (map printFile fs) ++ [END_PATCH]) = true.
Proof. intros H. cbn [forallb]. rewrite forallb_app. unfold printable in H. by rewrite H. Qed.

(** Neither the normalisation nor the heredoc rule changes a printed envelope. *)
Lemma printPatch_text fs :
  printable fs = true →
  stripHeredoc (normalizePatchText (printPatch fs)) = printPatch fs
  ∧ startsWith BEGIN_PATCH (printPatch fs) = true
  ∧ split_on newline (printPatch fs) = BEGIN_PATCH :: concat (map printFile fs) ++ [END_PATCH].
Proof.
  intros Hp%printPatch_lines.
  assert (∃ body, printPatch fs = BEGIN_PATCH +:+ body) as [body Hb] by apply join_head.
  assert (∃ front, printPatch fs = front +:+ "h") as [front Hf].
  { unfold printPatch, lines_of. rewrite app_comm_cons, join_snoc by done.
    eexists (_ +:+ String newline "*** End Patc"). by rewrite <-sapp_assoc. }
  split_and!.
  - unfold normalizePatchText. rewrite unixNewlines_free.
    + unfold trim. assert (trimStart (printPatch fs) = printPatch fs) as -> by (by rewrite Hb).
      rewrite Hf, trimEnd_last, <-Hf by done. by rewrite Hb.
    + apply char_free_join; [done|]. by apply forallb_oneLine; [right|].
  - rewrite Hb. apply startsWith_app.
  - apply split_join; [done|]. apply Forall_forall. intros x Hx.
    eapply forallb_oneLine in Hp; [|by left]. rewrite forallb_forall in Hp.
    apply Hp. by apply list_elem_of_In.
Qed.

(** ** The paths *)

Lemma omap_none {A B} (f : A → option B) l : Forall (λ x, f x = None) l → omap f l = [].
Proof. induction 1 as [|x l Hx _ IH]; [done|]. cbn. by rewrite Hx. Qed.

Lemma touched_hunk h : omap touchedPath (printHunk h) = [].
Proof.
  apply omap_none. unfold printHunk. rewrite Forall_app. split; apply Forall_fmap, Forall_true.
  - by intros [m|].
  - by intros [s|s|s].
Qed.

Lemma touched_hunks hs : omap touchedPath (concat (map printHunk hs)) = [].
Proof. induction hs as [|h hs IH]; [done|]. cbn [map concat]. by rewrite omap_app, touched_hunk, IH. Qed.

Lemma touched_head p path :
  path ≠ "" → p = ADD_FILE ∨ p = DELETE_FILE ∨ p = UPDATE_FILE → touchedPath (p +:+ path) = Some path.
Proof.
  intros Hp Hk. unfold touchedPath.
  assert (List.find (λ q, startsWith q (p +:+ path)) [ADD_FILE; DELETE_FILE; UPDATE_FILE] = Some p) as ->
    by (destruct Hk as [-> | [-> | ->]]; done).
  cbn [mbind option_bind]. by rewrite sdrop_app, decide_False by done.
Qed.

Lemma touched_file f : pathOf f ≠ "" → omap touchedPath (printFile f) = [pathOf f].
Proof.
  intros Hp. destruct f as [path content|path|path moveTo hunks]; cbn [printFile pathOf] in *;
    cbn [omap list_omap]; rewrite touched_head by auto; f_equal.
  - apply omap_none, Forall_fmap, Forall_true. done.
  - change (omap touchedPath (match moveTo with Some to => [MOVE_TO +:+ to] | None => [] end ++ concat (map printHunk hunks)) = []).
    rewrite omap_app, touched_hunks. by destruct moveTo.
Qed.

Lemma touched_files fs : forallb fileOk fs = true → omap touchedPath (concat (map printFile fs)) = map pathOf fs.
Proof.
  induction fs as [|f fs IH]; intros Hok; [done|]. cbn [forallb] in Hok. apply andb_prop in Hok as [Hf Hfs].
  unfold fileOk in Hf. split_bools. cbn [map concat]. by rewrite omap_app, touched_file, IH by done.
Qed.

(** ** The property *)

(** C37. A printed envelope of well-formed sections is read back: the parser
    gives exactly the sections with their old and new sides, says that the
    envelope is complete, and the path scan lists the touched paths in order. *)
Theorem parseApplyPatch_roundtrip (fs : list FilePatch) :
  printable fs = true → forallb fileOk fs = true →
  parseApplyPatch (printPatch fs) = Some (mkParse (map sectionOf fs) true (negb (bool_decide (fs = []))))
  ∧ extractApplyPatchPaths (printPatch fs) = map pathOf fs.
Proof.
  intros Hp Hok. destruct (printPatch_text fs Hp) as (Ht & Hb & Hl). split.
  - unfold parseApplyPatch. rewrite Ht, Hb, Hl. cbn [negb tail length].
    rewrite sectionLoop_print; [|done|rewrite length_app; simpl; lia]. cbn [mbind option_bind].
    by destruct fs.
  - unfold extractApplyPatchPaths. rewrite Ht, Hl. cbn [omap list_omap].
    change (touchedPath BEGIN_PATCH) with (@None string). cbn.
    rewrite omap_app, touched_files by done. by rewrite app_nil_r.
Qed.

Definition demo_envelope : list FilePatch :=
  [AddFile "a.txt" ["one"; ""; "*** two"]; DeleteFile "b.txt";
   UpdateFile "c.txt" (Some "d.txt")
     [mkHunk [Some "fn main"; None] [Kept ""; Removed "x"; Inserted "@@ y"]; mkHunk [None] [Inserted ""]]].

Lemma parseApplyPatch_roundtrip_witness :
  printable demo_envelope = true ∧ forallb fileOk demo_envelope = true
  ∧ extractApplyPatchPaths (printPatch demo_envelope) = ["a.txt"; "b.txt"; "c.txt"].
Proof.
  split_and!; [vm_compute; reflexivity|vm_compute; reflexivity|].
  apply (parseApplyPatch_roundtrip demo_envelope); vm_compute; reflexivity.
Defined.
