(* ===== verification/Tree.v ===== *)
(** * The history tree

    [viewmodel/tree.ts], the logical structure: the labels, the tree of the user
    messages of a document, the active path, and the folding of superseded turns.
    [localeCompare] is the parameter [compare], and the ellipsis a preview ends
    with (outside the modelled code units) the parameter [ellipsis].  Ids,
    timestamps and texts are typed as strings in the document; [idOf] and
    [stringOf] read them.  The walks up [parentId] take fuel; one unit more than
    there are entries is enough on every acyclic map. *)

From S2P Require Export Status.

Inductive HistoryNode := mkHistoryNode {
  nodeId : string;
  nodeText : string;
  nodeTimestamp : string;
  deadEnd : bool;
  children : list HistoryNode;
  supersededTurns : list HistoryNode;
  nodeLabel : option string
}.
Record HistoryTree := mkHistoryTree { roots : list HistoryNode }.

Definition PREVIEW_MAX : nat := 80.

(** The string a typed field holds. *)
Definition stringOf (v : json) : string := default "" (opt_str v).
Definition idOf (e : json) : string := stringOf (get e "id").

Definition isUserMessage (e : json) : bool := isKind "message" e && eq_str (get e "role") "user".

Section tree.
  Context (compare : string → string → comparison) (ellipsis : string).

(** ** Labels *)

(** [a.timestamp.localeCompare(b.timestamp) || a.id.localeCompare(b.id)] *)
Definition byTimestamp (ta ia tb ib : string) : comparison :=
  match compare ta tb with Eq => compare ia ib | c => c end.
Definition isLt (c : comparison) : bool := match c with Lt => true | _ => false end.

(** The comparator of the label entries, when it is negative. *)
Definition labelBefore (a b : json) : bool :=
  let other := isLt (byTimestamp (stringOf (get a "timestamp")) (idOf a) (stringOf (get b "timestamp")) (idOf b)) in
  match get a "ord", get b "ord" with
  | JNum x, JNum y => if decide (x = y) then other else num_ltb x y
  | _, _ => other
  end.

Definition setLabel (labels : gmap string string) (e : json) : gmap string string :=
  if truthy (get e "label") then <[stringOf (get e "targetId") := stringOf (get e "label")]> labels
  else delete (stringOf (get e "targetId")) labels.

Definition resolveLabels (entries : record) : gmap string string :=
  foldl setLabel ∅ (sort_by labelBefore (List.filter (isKind "label") (valuesOf entries))).

(** ** The user-message tree *)

Definition previewText (entry : json) : string :=
  let texts := map (λ c, stringOf (get c "text")) (List.filter (λ c, eq_str (get c "type") "text") (elements_of (get entry "content"))) in
  let firstLine := hd "" (split_on "010"%char (trim (join_with " " texts))) in
  if PREVIEW_MAX <? slength firstLine then stake (PREVIEW_MAX - 1) firstLine +:+ ellipsis else firstLine.

(** The walk up [parentId] to the first user message ([None]: out of fuel). *)
Fixpoint userAncestor (fuel : nat) (entries : record) (cursor : option string) : option (option string) :=
  match fuel with
  | 0 => None
  | S fuel' =>
    match cursor with
    | None => Some None
    | Some id =>
      if falsyId id then Some None
      else match entries !! id with
           | None => Some None
           | Some e => if isUserMessage e then Some (Some id)
                       else userAncestor fuel' entries (opt_str (get e "parentId"))
           end
    end
  end.

Definition parentIdOf (entries : record) (id : string) : option string :=
  e ← entries !! id; opt_str (get e "parentId").

Definition nearestUserAncestor (fuel : nat) (entryId : string) (entries : record) : option (option string) :=
  userAncestor fuel entries (parentIdOf entries entryId).

Definition userEntries (entries : record) : list json := List.filter isUserMessage (valuesOf entries).

(** [effectiveParent] *)
Definition effectiveParents (fuel : nat) (entries : record) (users : list json) : option (gmap string (option string)) :=
  ps ← mapM (λ ue, p ← nearestUserAncestor fuel (idOf ue) entries; Some (idOf ue, p)) users;
  Some (foldl (λ m kv, <[kv.1 := kv.2]> m) ∅ ps).

(** A user message is a dead end when it is the effective parent of no other. *)
Definition isDeadEnd (parents : gmap string (option string)) (id : string) : bool :=
  negb (existsb (λ kv, bool_decide (kv.2 = Some id)) (map_to_list parents)).

(** The effective parent of an id: [effectiveParent.get(id) ?? null]. *)
Definition parentIn (parents : gmap string (option string)) (id : string) : option string := p ← parents !! id; p.

Definition childIds (users : list json) (parents : gmap string (option string)) (id : string) : list string :=
  List.filter (λ c, bool_decide (parentIn parents c = Some id)) (map idOf users).
Definition rootIds (users : list json) (parents : gmap string (option string)) : list string :=
  List.filter (λ c, bool_decide (parentIn parents c = None)) (map idOf users).

Definition nodeBefore (a b : HistoryNode) : bool :=
  isLt (byTimestamp (nodeTimestamp a) (nodeId a) (nodeTimestamp b) (nodeId b)).

(** The node of an id, with the nodes below it: the objects the source links
    through [children], read off from a root.  The last user message with the
    id gives the text and the timestamp. *)
Fixpoint buildNode (fuel : nat) (users : list json) (parents : gmap string (option string))
    (labels : gmap string string) (id : string) : option HistoryNode :=
  match fuel with
  | 0 => None
  | S fuel' =>
    ue ← find_last (λ e, bool_decide (idOf e = id)) users;
    kids ← mapM (buildNode fuel' users parents labels) (childIds users parents id);
    Some (mkHistoryNode id (previewText ue) (stringOf (get ue "timestamp")) (isDeadEnd parents id)
            (sort_by nodeBefore kids) [] (labels !! id))
  end.

Definition computeHistoryTree (fuel : nat) (doc : json) : option HistoryTree :=
  let entries := docEntries doc in
  let users := userEntries entries in
  let labels := resolveLabels entries in
  parents ← effectiveParents fuel entries users;
  rs ← mapM (buildNode fuel users parents labels) (rootIds users parents);
  Some (mkHistoryTree (sort_by nodeBefore rs)).

End tree.

(** ** The active path *)

Fixpoint userPath (fuel : nat) (entries : record) (cursor : option string) : option (gset string) :=
  match fuel with
  | 0 => None
  | S fuel' =>
    match cursor with
    | None => Some ∅
    | Some id =>
      if falsyId id then Some ∅
      else match entries !! id with
           | None => Some ∅
           | Some e => path ← userPath fuel' entries (opt_str (get e "parentId"));
                       Some (if isUserMessage e then {[id]} ∪ path else path)
           end
    end
  end.

Definition computeActiveUserPath (fuel : nat) (doc : json) (leafId : option string) : option (gset string) :=
  userPath fuel (docEntries doc) leafId.

(** ** Folding the superseded turns *)

Section collapse.
  Context (keepVisible : gset string).

Definition withSuperseded (n : HistoryNode) (turns : list HistoryNode) : HistoryNode :=
  mkHistoryNode (nodeId n) (nodeText n) (nodeTimestamp n) (deadEnd n) (children n) (supersededTurns n ++ turns) (nodeLabel n).
Definition withChildren (n : HistoryNode) (cs : list HistoryNode) : HistoryNode :=
  mkHistoryNode (nodeId n) (nodeText n) (nodeTimestamp n) (deadEnd n) cs (supersededTurns n) (nodeLabel n).

(** A dead end that is not kept visible. *)
Definition folds (s : HistoryNode) : bool := deadEnd s && negb (bool_decide (nodeId s ∈ keepVisible)).

(** The loop over the siblings, with the run of dead ends that waits for a node. *)
Fixpoint collapseLoop (siblings run : list HistoryNode) : list HistoryNode :=
  match siblings with
  | [] =>
    match last run with
    | Some n => [withSuperseded n (removelast run)]
    | None => []
    end
  | s :: rest =>
    if folds s then collapseLoop rest (run ++ [s])
    else (match run with [] => s | _ => withSuperseded s run end) :: collapseLoop rest []
  end.
Definition collapseSiblings (siblings : list HistoryNode) : list HistoryNode := collapseLoop siblings [].

Fixpoint collapseNode (n : HistoryNode) : HistoryNode :=
  withChildren n (collapseSiblings (map collapseNode (children n))).

Definition collapseSuperseded (tree : HistoryTree) : HistoryTree :=
  mkHistoryTree (collapseSiblings (map collapseNode (roots tree))).

End collapse.

(** ** Rows of a tree *)

(** The nodes that are drawn, and every id, the folded turns included. *)
Fixpoint rowsOf (n : HistoryNode) : list HistoryNode := n :: concat (map rowsOf (children n)).
Fixpoint allIds (n : HistoryNode) : list string :=
  nodeId n :: concat (map allIds (children n)) ++ concat (map allIds (supersededTurns n)).
Definition treeRows (t : HistoryTree) : list HistoryNode := concat (map rowsOf (roots t)).
Definition treeIds (t : HistoryTree) : list string := concat (map allIds (roots t)).
Definition siblingLists (t : HistoryTree) : list (list HistoryNode) := roots t :: map children (treeRows t).

(** Nothing continues below a dead end: what the first pass produces. *)
Definition deadEndsBare (t : HistoryTree) : Prop := Forall (λ n, deadEnd n = true → children n = []) (treeRows t).

Lemma node_ind (P : HistoryNode → Prop) :
  (∀ n, Forall P (children n) → P n) → ∀ n, P n.
Proof.
  intros H. fix go 1. intros [i t ts d cs ss l]. apply H. simpl. induction cs as [|c cs IH]; constructor; auto.
Qed.

Lemma rowsOf_unfold n : rowsOf n = n :: concat (map rowsOf (children n)).
Proof. by destruct n. Qed.

Lemma elem_of_concat_map {A B} (f : A → list B) l y : y ∈ concat (map f l) ↔ ∃ x, x ∈ l ∧ y ∈ f x.
Proof.
  induction l as [|a l IH]; simpl.
  - split; [by intros ?%not_elem_of_nil|by intros (x & ?%not_elem_of_nil & _)].
  - rewrite elem_of_app, IH. setoid_rewrite elem_of_cons. naive_solver.
Qed.

Section collapse_lemmas.
  Context (keep : gset string).

Lemma folds_withSuperseded n turns : folds keep (withSuperseded n turns) = folds keep n.
Proof. done. Qed.
Lemma folds_collapseNode n : folds keep (collapseNode keep n) = folds keep n.
Proof. by destruct n. Qed.

Lemma allIds_withSuperseded n turns : allIds (withSuperseded n turns) = allIds n ++ concat (map allIds turns).
Proof. destruct n. simpl. by rewrite map_app, concat_app, <- !app_assoc. Qed.

Lemma removelast_last {A} (l : list A) x : last l = Some x → removelast l ++ [x] = l.
Proof.
  intros Hl. destruct l as [|y l _] using rev_ind; [done|].
  rewrite last_snoc in Hl. simplify_eq. by rewrite removelast_last.
Qed.

Lemma collapseLoop_ids siblings run :
  concat (map allIds (collapseLoop keep siblings run)) ≡ₚ concat (map allIds run) ++ concat (map allIds siblings).
Proof.
  revert run. induction siblings as [|s rest IH]; intros run; cbn [collapseLoop].
  - destruct (last run) as [n|] eqn:El.
    + cbn [map concat]. rewrite allIds_withSuperseded, !app_nil_r. apply removelast_last in El. rewrite <- El at 2.
      rewrite map_app, concat_app. simpl. rewrite app_nil_r. apply Permutation_app_comm.
    + by apply last_None in El as ->.
  - destruct (folds keep s).
    + rewrite IH, map_app, concat_app. simpl. by rewrite app_nil_r, <- app_assoc.
    + cbn [map concat]. rewrite IH. destruct run as [|r run]; [done|].
      rewrite allIds_withSuperseded. cbn [map concat]. simpl.
      rewrite (Permutation_app_comm (allIds s)). by rewrite <- app_assoc.
Qed.

Lemma collapseNode_ids n : allIds (collapseNode keep n) ≡ₚ allIds n.
Proof.
  induction n as [n IH] using node_ind. destruct n as [i t ts d cs ss l]. simpl in *.
  apply perm_skip, Permutation_app_tail. unfold collapseSiblings. rewrite collapseLoop_ids. simpl.
  induction IH as [|c cs Hc _ IHcs]; [done|]. simpl. by rewrite Hc, IHcs.
Qed.

(** A node of a collapsed list is one of the siblings, its folded turns apart. *)
Lemma collapseLoop_elem siblings run x :
  x ∈ collapseLoop keep siblings run →
  ∃ s, s ∈ run ++ siblings ∧ children x = children s ∧ nodeId x = nodeId s.
Proof.
  revert run. induction siblings as [|s rest IH]; intros run; cbn [collapseLoop].
  - destruct (last run) as [n|] eqn:El; [|by intros ?%not_elem_of_nil].
    intros ->%list_elem_of_singleton. exists n. split; [|done]. rewrite app_nil_r. by apply last_Some_elem_of.
  - destruct (folds keep s).
    + intros (s' & Hs' & ?)%IH. exists s'. split; [|done]. by rewrite <- app_assoc in Hs'.
    + intros [-> | Hx]%elem_of_cons.
      * exists s. split; [set_solver|]. by destruct run.
      * apply IH in Hx as (s' & Hs' & ?). exists s'. split; [set_solver|done].
Qed.

(** A sibling that does not fold stays. *)
Lemma collapseLoop_stays siblings run s :
  s ∈ siblings → folds keep s = false →
  ∃ x, x ∈ collapseLoop keep siblings run ∧ children x = children s ∧ nodeId x = nodeId s.
Proof.
  intros Hs Hf. revert run. induction siblings as [|s' rest IH]; intros run; [by apply not_elem_of_nil in Hs|].
  cbn [collapseLoop]. apply elem_of_cons in Hs as [<- | Hs].
  - rewrite Hf. eexists. split; [apply elem_of_cons; by left|]. by destruct run.
  - destruct (folds keep s'); [by apply IH|]. destruct (IH Hs []) as (x & Hx & ?).
    exists x. split; [apply elem_of_cons; by right|done].
Qed.

(** A list is folded when only its last node may be a dead end. *)
Definition folded (l : list HistoryNode) : Prop := Forall (λ s, folds keep s = false) (removelast l).

Lemma collapseLoop_folded siblings run : folded (collapseLoop keep siblings run).
Proof.
  unfold folded. revert run. induction siblings as [|s rest IH]; intros run; cbn [collapseLoop].
  - destruct (last run); constructor.
  - destruct (folds keep s) eqn:Ef; [apply IH|]. specialize (IH []).
    destruct (collapseLoop keep rest []) as [|y l]; [constructor|].
    change (Forall (λ x, folds keep x = false) ((match run with [] => s | _ => withSuperseded s run end) :: removelast (y :: l))).
    constructor; [by destruct run|done].
Qed.
End collapse_lemmas.

Definition bare (n : HistoryNode) : Prop := deadEnd n = true → children n = [].
Definition rowsBelow (cs : list HistoryNode) : list HistoryNode := concat (map rowsOf cs).

(** A row that does not fold is still a row after the siblings are collapsed. *)
Definition staysBelow (keep : gset string) (cs cs' : list HistoryNode) : Prop :=
  ∀ m, m ∈ rowsBelow cs → folds keep m = false → ∃ m', m' ∈ rowsBelow cs' ∧ nodeId m' = nodeId m.

Lemma siblings_stay keep cs :
  Forall (λ c, staysBelow keep (children c) (children (collapseNode keep c))) cs → Forall bare cs →
  staysBelow keep cs (collapseSiblings keep (map (collapseNode keep) cs)).
Proof.
  intros Hin Hb m (c & Hc & Hm)%elem_of_concat_map Hf. rewrite Forall_forall in Hin, Hb.
  assert (folds keep c = false →
    ∃ x, x ∈ collapseSiblings keep (map (collapseNode keep) cs)
         ∧ children x = children (collapseNode keep c) ∧ nodeId x = nodeId c) as Hstay.
  { intros Hfc. destruct (collapseLoop_stays keep (map (collapseNode keep) cs) [] (collapseNode keep c)) as (x & Hx & ? & ?).
    - by apply list_elem_of_fmap_2.
    - by rewrite folds_collapseNode.
    - exists x. by destruct c. }
  rewrite rowsOf_unfold in Hm. apply elem_of_cons in Hm as [-> | Hm].
  - destruct (Hstay Hf) as (x & Hx & _ & Hid). exists x. split; [|done]. apply elem_of_concat_map.
    exists x. split; [done|]. rewrite rowsOf_unfold. by left.
  - assert (folds keep c = false) as (x & Hx & Hch & _)%Hstay.
    { unfold folds. destruct (deadEnd c) eqn:Ed; [|done]. rewrite (Hb c Hc Ed) in Hm. by apply not_elem_of_nil in Hm. }
    destruct (Hin c Hc m Hm Hf) as (m' & Hm' & Hid). exists m'. split; [|done].
    apply elem_of_concat_map. exists x. split; [done|]. rewrite rowsOf_unfold, Hch. by right.
Qed.

Lemma below_bare n : Forall bare (rowsOf n) → bare n ∧ Forall bare (rowsBelow (children n)).
Proof. rewrite rowsOf_unfold. apply Forall_cons. Qed.

Lemma rowsBelow_each cs (P : HistoryNode → Prop) : Forall P (rowsBelow cs) ↔ Forall (λ c, Forall P (rowsOf c)) cs.
Proof. unfold rowsBelow. induction cs as [|c cs IH]; simpl; [by rewrite !Forall_nil|]. by rewrite Forall_app, IH, Forall_cons. Qed.

Lemma node_stays keep n : Forall bare (rowsOf n) → staysBelow keep (children n) (children (collapseNode keep n)).
Proof.
  induction n as [n IH] using node_ind. intros [_ Hb]%below_bare. rewrite rowsBelow_each in Hb.
  assert (children (collapseNode keep n) = collapseSiblings keep (map (collapseNode keep) (children n))) as -> by (by destruct n).
  apply siblings_stay.
  - rewrite Forall_forall in *. auto.
  - eapply Forall_impl; [exact Hb|]. intros c [? _]%below_bare. done.
Qed.

(** Every sibling list below a collapsed node is folded. *)
Lemma node_folded keep n : Forall (λ x, folded keep (children x)) (rowsOf (collapseNode keep n)).
Proof.
  induction n as [n IH] using node_ind. rewrite rowsOf_unfold.
  assert (children (collapseNode keep n) = collapseSiblings keep (map (collapseNode keep) (children n))) as Hc by (by destruct n).
  constructor; [rewrite Hc; apply collapseLoop_folded|]. rewrite Hc. apply rowsBelow_each.
  apply Forall_forall. intros x (s & Hs & Hch & _)%collapseLoop_elem.
  apply list_elem_of_fmap in Hs as (c & -> & Hcin). rewrite Forall_forall in IH. specialize (IH c Hcin).
  rewrite rowsOf_unfold in *. apply Forall_cons in IH as [? ?]. constructor; by rewrite Hch.
Qed.

(** Folding loses no turn: every id of the tree is still there, as a row or
    among the folded turns of one.  No node leaves the rows unless it is a dead
    end that is not kept visible (in a tree whose dead ends have nothing below
    them), and in every list of siblings only the last may still be one. *)
Theorem collapseSuperseded_keeps keep t :
  deadEndsBare t →
  let t' := collapseSuperseded keep t in
  treeIds t' ≡ₚ treeIds t
  ∧ (∀ n, n ∈ treeRows t → folds keep n = false → ∃ n', n' ∈ treeRows t' ∧ nodeId n' = nodeId n)
  ∧ Forall (folded keep) (siblingLists t').
Proof.
  intros Hb. cbn zeta. destruct t as [rs]. unfold treeIds, treeRows, siblingLists, deadEndsBare in *. simpl in *.
  pose proof (proj1 (rowsBelow_each rs bare) Hb) as Hbr. split_and!.
  - unfold collapseSiblings. rewrite collapseLoop_ids. simpl. clear. induction rs as [|r rs IH]; [done|].
    simpl. by rewrite collapseNode_ids, IH.
  - apply siblings_stay.
    + eapply Forall_impl; [exact Hbr|]. intros c. apply node_stays.
    + eapply Forall_impl; [exact Hbr|]. intros c [? _]%below_bare. done.
  - constructor; [apply collapseLoop_folded|]. apply Forall_fmap.
    change (Forall (λ x, folded keep (children x)) (rowsBelow (collapseSiblings keep (map (collapseNode keep) rs)))).
    rewrite rowsBelow_each. apply Forall_forall. intros x (s & Hs & Hch & _)%collapseLoop_elem.
    apply list_elem_of_fmap in Hs as (c & -> & Hcin). pose proof (node_folded keep c) as Hc.
    rewrite rowsOf_unfold in *. apply Forall_cons in Hc as [? ?]. constructor; by rewrite Hch.
Qed.

(** ** The forest of the user messages *)

Lemma concat_map_perm {A B} (f : A → list B) l l' : l ≡ₚ l' → concat (map f l) ≡ₚ concat (map f l').
Proof. intros Hl. rewrite <- !flat_map_concat_map. by apply Permutation_flat_map. Qed.

Section forest.
  Context (U : list string) (up : string → option string) (rank : string → nat)
    (HU : NoDup U) (Hup : ∀ c p, c ∈ U → up c = Some p → p ∈ U ∧ rank p < rank c).

Definition kidsOf (id : string) : list string := List.filter (λ c, bool_decide (up c = Some id)) U.

(** [x] is the message [id] or one below it. *)
Definition under : string → string → Prop := rtc (λ c p, c ∈ U ∧ up c = Some p).

Lemma elem_of_kidsOf c id : c ∈ kidsOf id ↔ c ∈ U ∧ up c = Some id.
Proof. unfold kidsOf. by rewrite list_elem_of_In, filter_In, <- list_elem_of_In, bool_decide_eq_true. Qed.

Lemma under_rank x id : under x id → rank id ≤ rank x.
Proof. induction 1 as [|x y z [Hx Hy] _ IH]; [lia|]. destruct (Hup _ _ Hx Hy). lia. Qed.

Lemma under_comparable x a b : under x a → under x b → under a b ∨ under b a.
Proof.
  intros Ha. revert b. induction Ha as [x|x y a Hxy Hya IH]; intros b Hb; [by left|].
  inversion Hb as [|? y' ? Hxy' Hy']; subst; [right; by eapply rtc_l|].
  apply IH. destruct Hxy as [_ ?], Hxy' as [_ ?]. assert (y = y') as -> by congruence. done.
Qed.

(** The messages below two siblings are different. *)
Lemma siblings_disjoint c c' x :
  c ∈ U → c' ∈ U → up c = up c' → under x c → under x c' → c = c'.
Proof.
  assert (∀ a b, a ∈ U → b ∈ U → up a = up b → under a b → a = b) as Hone.
  { intros a b Ha Hb Hu Hab. inversion Hab as [|? p ? [_ Hp] Hpb]; [done|]; subst.
    rewrite Hu in Hp. destruct (Hup _ _ Hb Hp). apply under_rank in Hpb. lia. }
  intros Hc Hc' Hu Hx Hx'. destruct (under_comparable _ _ _ Hx Hx') as [?|?]; [by apply Hone|symmetry; by apply Hone].
Qed.

(** What the nodes below a list of siblings are. *)
Definition spans (l : list string) (ns : list HistoryNode) : Prop :=
  map nodeId ns ≡ₚ l ∧ NoDup (map nodeId (rowsBelow ns))
  ∧ (∀ x, x ∈ map nodeId (rowsBelow ns) ↔ ∃ c, c ∈ l ∧ under x c).

Lemma spans_perm l ns ns' : ns ≡ₚ ns' → spans l ns → spans l ns'.
Proof.
  intros Hp (Hl & Hn & Hx). pose proof (Permutation_map nodeId (concat_map_perm rowsOf _ _ Hp)) as Hr.
  unfold spans, rowsBelow. split_and!.
  - by rewrite <- Hp.
  - unfold rowsBelow in Hn. by rewrite <- Hr.
  - intros x. rewrite <- Hr. apply Hx.
Qed.

Lemma spans_nil : spans [] [].
Proof. split_and!; [done|constructor|]. intros x. split; [by intros ?%not_elem_of_nil|by intros (c & ?%not_elem_of_nil & _)]. Qed.

Lemma spans_cons c l n ns par :
  NoDup (c :: l) → (∀ x, x ∈ c :: l → x ∈ U ∧ up x = par) →
  spans [c] [n] → spans l ns → spans (c :: l) (n :: ns).
Proof.
  intros [Hcl Hl]%NoDup_cons Hsib (Hi & Hn & Hx) (Hi' & Hn' & Hx').
  assert (rowsBelow (n :: ns) = rowsBelow [n] ++ rowsBelow ns) as Hr by (unfold rowsBelow; simpl; by rewrite app_nil_r).
  unfold spans. rewrite Hr, map_app. split_and!.
  - change (map nodeId [n] ++ map nodeId ns ≡ₚ [c] ++ l). by rewrite Hi, Hi'.
  - apply NoDup_app. split_and!; [done| |done]. intros x (c1 & ->%list_elem_of_singleton & H1)%Hx (c2 & Hc2 & H2)%Hx'.
    destruct (Hsib c) as [HcU Hcp]; [by left|]. destruct (Hsib c2) as [H2U H2p]; [by right|].
    assert (c = c2) by (apply (siblings_disjoint c c2 x); congruence). by subst.
  - intros x. rewrite elem_of_app, Hx, Hx'. setoid_rewrite elem_of_cons. set_solver.
Qed.

Lemma spans_node id n : id ∈ U → nodeId n = id → spans (kidsOf id) (children n) → spans [id] [n].
Proof.
  intros Hid Hn (Hi & Hnd & Hx). unfold spans.
  assert (rowsBelow [n] = n :: rowsBelow (children n)) as ->
    by (unfold rowsBelow at 1; simpl; by rewrite app_nil_r, rowsOf_unfold).
  simpl. rewrite Hn. split_and!; [done| |].
  - apply NoDup_cons. split; [|done]. intros (c & [Hc Hcp]%elem_of_kidsOf & Hu)%Hx.
    apply under_rank in Hu. destruct (Hup _ _ Hc Hcp). lia.
  - intros x. rewrite elem_of_cons, Hx. split.
    + intros [-> | (c & [Hc Hcp]%elem_of_kidsOf & Hu)]; [exists id; split; [by left|constructor]|].
      exists id. split; [by left|]. eapply rtc_r; [done|]. by split.
    + intros (c & ->%list_elem_of_singleton & Hu).
      apply rtc_inv_r in Hu as [-> | (c & Hu & Hc & Hcp)]; [by left|]. right. exists c. split; [|done]. by apply elem_of_kidsOf.
Qed.

(** Every message is below one without a parent. *)
Lemma under_root x : x ∈ U → ∃ r, r ∈ U ∧ up r = None ∧ under x r.
Proof.
  induction x as [x IH] using (induction_ltof1 _ rank). unfold ltof in IH. intros Hx.
  destruct (up x) as [p|] eqn:Hp; [|exists x; split_and!; [done|done|constructor]].
  destruct (Hup _ _ Hx Hp) as [HpU Hlt]. destruct (IH p Hlt HpU) as (r & ? & ? & ?).
  exists r. split_and!; [done|done|]. by eapply rtc_l.
Qed.

(** The messages that can still be visited from [id] downwards. *)
Definition above (id : string) : gset string := filter (λ k, rank id ≤ rank k) (list_to_set U).

Lemma above_kid c id : c ∈ kidsOf id → id ∈ U → size (above c) < size (above id).
Proof.
  intros [Hc Hp]%elem_of_kidsOf Hid. destruct (Hup _ _ Hc Hp) as [_ Hlt]. apply subset_size. unfold above. split.
  - intros k. rewrite !elem_of_filter. intros []. split; [lia|done].
  - intros Hsub. specialize (Hsub id). rewrite !elem_of_filter, elem_of_list_to_set in Hsub. destruct Hsub; [|lia]. by split.
Qed.

Lemma above_size id : size (above id) ≤ length U.
Proof.
  assert (above id ⊆ list_to_set U) as Hs by (unfold above; set_solver).
  apply subseteq_size in Hs. by rewrite size_list_to_set in Hs.
Qed.
End forest.

(** ** The tree of a document *)

(** Every entry is stored under its id, which is not empty. *)
Definition keyed (entries : record) : Prop := map_Forall (λ k e, get e "id" = JStr k ∧ k ≠ "") entries.
Definition isUser (entries : record) (id : string) : Prop := ∃ e, entries !! id = Some e ∧ isUserMessage e = true.

Lemma keyed_idOf entries k e : keyed entries → entries !! k = Some e → idOf e = k.
Proof. intros Hk He. destruct (Hk _ _ He) as [Hi _]. unfold idOf. by rewrite Hi. Qed.

Lemma NoDup_map_filter {A B} (g : A → B) (f : A → bool) l : NoDup (map g l) → NoDup (map g (List.filter f l)).
Proof.
  induction l as [|x l IH]; simpl; [done|]. intros [Hx Hl]%NoDup_cons. destruct (f x); [|by apply IH].
  simpl. apply NoDup_cons. split; [|by apply IH]. intros (y & Hy & Hin)%list_elem_of_fmap.
  rewrite list_elem_of_In, filter_In, <- list_elem_of_In in Hin. apply Hx. rewrite Hy. apply (list_elem_of_fmap_2 g), Hin.
Qed.

Lemma filter_keys (f : json → bool) (l : list (string * json)) :
  (∀ kv, kv ∈ l → idOf kv.2 = kv.1) → map idOf (List.filter f l.*2) = map fst (List.filter (λ kv, f kv.2) l).
Proof.
  induction l as [|kv l IH]; intros Hl; [done|].
  change ((kv :: l).*2) with (kv.2 :: l.*2). cbn [List.filter].
  destruct (f kv.2); cbn [map]; rewrite IH by (intros; apply Hl; by right); [|done].
  f_equal. apply Hl. by left.
Qed.

Lemma userIds_spec entries :
  keyed entries → NoDup (map idOf (userEntries entries)) ∧ ∀ id, id ∈ map idOf (userEntries entries) ↔ isUser entries id.
Proof.
  intros Hk. unfold userEntries, valuesOf. rewrite filter_keys.
  2:{ intros [k e] Hin%elem_of_map_to_list. by eapply keyed_idOf. }
  split; [apply NoDup_map_filter, NoDup_fst_map_to_list|].
  intros id. rewrite list_elem_of_fmap. split.
  - intros ([k e] & -> & Hin). rewrite list_elem_of_In, filter_In, <- list_elem_of_In, elem_of_map_to_list in Hin.
    exists e. naive_solver.
  - intros (e & He & Hu). exists (id, e). split; [done|].
    by rewrite list_elem_of_In, filter_In, <- list_elem_of_In, elem_of_map_to_list.
Qed.

(** What the walk of a user message finds. *)
Lemma userAncestor_found fuel entries rank cursor p :
  (∀ id e q, entries !! id = Some e → opt_str (get e "parentId") = Some q → is_Some (entries !! q) → rank q < rank id) →
  userAncestor fuel entries cursor = Some (Some p) →
  isUser entries p ∧ ∃ id, cursor = Some id ∧ is_Some (entries !! id) ∧ (rank p : nat) ≤ rank id.
Proof.
  intros Hrank. revert cursor. induction fuel as [|fuel IH]; intros [id|]; simpl; try done.
  destruct (falsyId id); [done|]. destruct (entries !! id) as [e|] eqn:He; [|done].
  destruct (isUserMessage e) eqn:Hu; [intros [= ->]; split; [by exists e|]; by exists p|].
  intros [? (q & Hq & Hin & Hle)]%IH. split; [done|]. exists id. split_and!; [done|done|].
  pose proof (Hrank _ _ _ He Hq Hin). lia.
Qed.

Lemma userAncestor_total entries cursor fuel :
  acyclic entries → walkFuel entries ≤ fuel →
  userAncestor fuel entries cursor = userAncestor (walkFuel entries) entries cursor
  ∧ is_Some (userAncestor (walkFuel entries) entries cursor).
Proof.
  intros Ha Hfuel.
  assert (∃ r, ∀ extra, userAncestor (walkFuel entries + extra) entries cursor = Some r) as [r Hr].
  { apply (acyclic_chain_ind entries (λ n c, ∃ r, ∀ extra, userAncestor (n + extra) entries c = Some r) Ha);
      [by exists None| | |done].
    - intros n id Hid. exists None. intros extra. simpl. rewrite Hid. by destruct (falsyId id).
    - intros n id e Hid [r Hr]. simpl. rewrite Hid. destruct (falsyId id); [by exists None|].
      destruct (isUserMessage e); [by exists (Some id)|]. by exists r. }
  pose proof (Hr 0) as H0. rewrite Nat.add_0_r in H0. rewrite H0.
  replace fuel with (walkFuel entries + (fuel - walkFuel entries)) by lia. rewrite Hr. by split.
Qed.

(** The effective parent. *)
Definition upOf (entries : record) (id : string) : option string :=
  default None (nearestUserAncestor (walkFuel entries) id entries).

Lemma nearestUserAncestor_up entries fuel id :
  acyclic entries → walkFuel entries ≤ fuel → nearestUserAncestor fuel id entries = Some (upOf entries id).
Proof.
  intros Ha Hf. unfold upOf, nearestUserAncestor.
  destruct (userAncestor_total entries (parentIdOf entries id) fuel Ha Hf) as [-> [r ->]]. done.
Qed.

Lemma upOf_down entries rank c p :
  acyclic entries →
  (∀ id e q, entries !! id = Some e → opt_str (get e "parentId") = Some q → is_Some (entries !! q) → rank q < rank id) →
  upOf entries c = Some p → isUser entries p ∧ (rank p : nat) < rank c.
Proof.
  intros Ha Hrank Hup. pose proof (nearestUserAncestor_up entries (walkFuel entries) c Ha (le_n _)) as Hn.
  rewrite Hup in Hn. unfold nearestUserAncestor in Hn.
  destruct (userAncestor_found _ _ rank _ _ Hrank Hn) as (Hu & q & Hq & Hin & Hle). split; [done|].
  unfold parentIdOf in Hq. apply bind_Some in Hq as (e & He & Hq). pose proof (Hrank _ _ _ He Hq Hin). lia.
Qed.

Lemma foldl_insert_function {A} (f : string → A) ids (m : gmap string A) :
  ∀ id, foldl (λ m kv, <[kv.1 := kv.2]> m) m (map (λ i, (i, f i)) ids) !! id
        = if decide (id ∈ ids) then Some (f id) else m !! id.
Proof.
  revert m. induction ids as [|i ids IH]; intros m id.
  - rewrite decide_False by apply not_elem_of_nil. done.
  - cbn [map foldl fst snd]. rewrite IH. destruct (decide (id ∈ ids)); [by rewrite decide_True by (by right)|].
    destruct (decide (id = i)) as [-> | Hi]; [rewrite lookup_insert_eq, decide_True; [done|by left]|].
    rewrite lookup_insert_ne, decide_False; [done| |done]. by intros [?|?]%elem_of_cons.
Qed.

Lemma effectiveParents_spec entries fuel :
  acyclic entries → walkFuel entries ≤ fuel →
  ∃ P, effectiveParents fuel entries (userEntries entries) = Some P ∧
       ∀ id, P !! id = if decide (id ∈ map idOf (userEntries entries)) then Some (upOf entries id) else None.
Proof.
  intros Ha Hf. unfold effectiveParents.
  assert (mapM (λ ue, p ← nearestUserAncestor fuel (idOf ue) entries; Some (idOf ue, p)) (userEntries entries)
          = Some (map (λ i, (i, upOf entries i)) (map idOf (userEntries entries)))) as ->.
  { induction (userEntries entries) as [|u us IH]; [done|]. cbn [mapM map].
    rewrite nearestUserAncestor_up by done. cbn [mbind option_bind]. by rewrite IH. }
  eexists. split; [done|]. intros id. rewrite foldl_insert_function. by case_decide.
Qed.

Lemma found_user users id :
  id ∈ map idOf users → ∃ e, find_last (λ e, bool_decide (idOf e = id)) users = Some e.
Proof.
  induction users as [|e l IH] using rev_ind; [by intros ?%not_elem_of_nil|].
  rewrite map_app, elem_of_app, find_last_app. simpl. rewrite list_elem_of_singleton.
  case_bool_decide; [by eexists|]. intros [?| ->]; [by apply IH|done].
Qed.

Section build.
  Context (compare : string → string → comparison) (ellipsis : string) (entries : record)
    (Hk : keyed entries) (Ha : acyclic entries) (rank : string → nat)
    (Hrank : ∀ id e q, entries !! id = Some e → opt_str (get e "parentId") = Some q → is_Some (entries !! q) → rank q < rank id)
    (P : gmap string (option string)) (labels : gmap string string).

Let U := map idOf (userEntries entries).
Let up := upOf entries.
Hypothesis (HP : ∀ id, P !! id = if decide (id ∈ U) then Some (up id) else None).

Lemma U_nodup : NoDup U.
Proof. apply userIds_spec, Hk. Qed.

Lemma U_up c p : c ∈ U → up c = Some p → p ∈ U ∧ rank p < rank c.
Proof. intros _ Hp. destruct (upOf_down entries rank c p Ha Hrank Hp). split; [by apply userIds_spec|done]. Qed.

Lemma parentIn_up c : c ∈ U → parentIn P c = up c.
Proof. intros Hc. unfold parentIn. by rewrite HP, decide_True by done. Qed.

Lemma filter_ids_ext (f g : string → bool) l : (∀ x, x ∈ l → f x = g x) → List.filter f l = List.filter g l.
Proof.
  induction l as [|x l IH]; intros H; simpl; [done|]. rewrite (H x) by (by left). rewrite IH; [done|]. intros y Hy. apply H. by right.
Qed.

Lemma childIds_kids id : childIds (userEntries entries) P id = kidsOf U up id.
Proof. apply filter_ids_ext. intros c Hc. by rewrite parentIn_up. Qed.

Lemma isDeadEnd_kids id : isDeadEnd P id = true ↔ kidsOf U up id = [].
Proof.
  unfold isDeadEnd. rewrite negb_true_iff, <- not_true_iff_false, existsb_exists. split.
  - intros Hn. destruct (kidsOf U up id) as [|c l] eqn:E; [done|]. exfalso. apply Hn.
    assert (c ∈ kidsOf U up id) as [Hc Hp]%elem_of_kidsOf by (rewrite E; by left).
    exists (c, Some id). split; [|by apply bool_decide_eq_true].
    apply list_elem_of_In, elem_of_map_to_list. rewrite HP, decide_True by done. by rewrite Hp.
  - intros E ([c p] & Hin & Hp%bool_decide_eq_true). simpl in Hp. subst p.
    apply list_elem_of_In, elem_of_map_to_list in Hin. rewrite HP in Hin. case_decide; [|done]. simplify_eq.
    assert (c ∈ kidsOf U up id) as Hin' by (by apply elem_of_kidsOf). rewrite E in Hin'. by apply not_elem_of_nil in Hin'.
Qed.

(** What is promised of every node. *)
Definition goodNode (n : HistoryNode) : Prop :=
  nodeId n ∈ U ∧ map nodeId (children n) ≡ₚ kidsOf U up (nodeId n)
  ∧ (deadEnd n = true ↔ children n = []) ∧ nodeLabel n = labels !! nodeId n.

Lemma build_siblings f l par :
  NoDup l → (∀ c, c ∈ l → c ∈ U ∧ up c = par) →
  (∀ c, c ∈ l → ∃ n, f c = Some n ∧ spans U up [c] [n] ∧ Forall goodNode (rowsOf n)) →
  ∃ ns, mapM f l = Some ns ∧ spans U up l ns ∧ Forall goodNode (rowsBelow ns).
Proof.
  induction l as [|c l IH]; intros Hl Hsib Hf.
  - exists []. split_and!; [done|apply spans_nil|constructor].
  - destruct (Hf c) as (n & Hn & Hs & Hg); [by left|].
    destruct IH as (ns & Hns & Hs' & Hg'); [by apply NoDup_cons in Hl as []|intros; apply Hsib; by right|intros; apply Hf; by right|].
    exists (n :: ns). split_and!.
    + cbn [mapM]. rewrite Hn. cbn [mbind option_bind]. by rewrite Hns.
    + eapply spans_cons; [apply U_nodup|apply U_up|done|exact Hsib|done|done].
    + apply rowsBelow_each. constructor; [done|]. by apply rowsBelow_each.
Qed.

Lemma sorted_siblings l ns :
  spans U up l ns ∧ Forall goodNode (rowsBelow ns) →
  spans U up l (sort_by (nodeBefore compare) ns) ∧ Forall goodNode (rowsBelow (sort_by (nodeBefore compare) ns)).
Proof.
  intros [Hs Hg]. pose proof (sort_by_perm (nodeBefore compare) ns) as Hp. split.
  - eapply spans_perm; [symmetry; exact Hp|done].
  - unfold rowsBelow. by rewrite (concat_map_perm rowsOf _ _ Hp).
Qed.

Lemma buildNode_spec fuel id :
  id ∈ U → size (above U rank id) < fuel →
  ∃ n, buildNode compare ellipsis fuel (userEntries entries) P labels id = Some n
       ∧ spans U up [id] [n] ∧ Forall goodNode (rowsOf n).
Proof.
  revert id. induction fuel as [|fuel IH]; intros id Hid Hf; [lia|]. cbn [buildNode].
  destruct (found_user _ id Hid) as [e ->]. cbn [mbind option_bind]. rewrite childIds_kids.
  destruct (build_siblings (buildNode compare ellipsis fuel (userEntries entries) P labels) (kidsOf U up id) (Some id))
    as (ns & -> & Hs).
  - unfold kidsOf. rewrite <- (map_id (List.filter _ _)). apply (NoDup_map_filter (λ x, x)). rewrite map_id. apply U_nodup.
  - intros c Hc. by apply elem_of_kidsOf.
  - intros c Hc. pose proof (above_kid U up rank U_up c id Hc Hid). apply IH; [by apply elem_of_kidsOf in Hc as []|lia].
  - apply sorted_siblings in Hs as [Hs Hg]. cbn [mbind option_bind]. eexists. split; [done|]. split.
    + eapply spans_node; [apply U_up|done|done|exact Hs].
    + rewrite rowsOf_unfold. constructor; [|exact Hg]. destruct Hs as (Hi & _). split_and!; [done|exact Hi| |done].
      simpl. rewrite isDeadEnd_kids. simpl in Hi. split.
      * intros E. rewrite E in Hi. by apply Permutation_nil_r, map_eq_nil in Hi.
      * intros E. rewrite E in Hi. by apply Permutation_nil_l in Hi.
Qed.

End build.

Lemma userIds_length entries : keyed entries → length (map idOf (userEntries entries)) ≤ size entries.
Proof.
  intros Hk. destruct (userIds_spec entries Hk) as [Hnd Hu].
  rewrite <- (size_list_to_set (C := gset string)) by done. rewrite <- size_dom.
  apply subseteq_size. intros id. rewrite elem_of_list_to_set, Hu. intros (e & He & _). by apply elem_of_dom.
Qed.

(** C36. The first pass returns on every acyclic document, and its rows are the
    user messages, each exactly once; the nodes under a node are the messages
    whose nearest user ancestor it is, the roots those that have none, and a
    node is marked as a dead end exactly when it has no nodes under it. *)
Theorem computeHistoryTree_spec compare ellipsis fuel doc :
  let entries := docEntries doc in
  acyclic entries → keyed entries → walkFuel entries ≤ fuel →
  ∃ t, computeHistoryTree compare ellipsis fuel doc = Some t
    ∧ NoDup (map nodeId (treeRows t))
    ∧ (∀ id, id ∈ map nodeId (treeRows t) ↔ isUser entries id)
    ∧ (∀ id, id ∈ map nodeId (roots t) ↔ isUser entries id ∧ nearestUserAncestor fuel id entries = Some None)
    ∧ (∀ n, n ∈ treeRows t →
         (∀ id, id ∈ map nodeId (children n) ↔ isUser entries id ∧ nearestUserAncestor fuel id entries = Some (Some (nodeId n)))
         ∧ (deadEnd n = true ↔ children n = [])
         ∧ nodeLabel n = resolveLabels compare entries !! nodeId n).
Proof.
  intros entries Ha Hk Hf. pose proof Ha as [rank Hrank]. unfold computeHistoryTree. fold entries.
  destruct (effectiveParents_spec entries fuel Ha Hf) as (P & -> & HP). cbn [mbind option_bind].
  set (U := map idOf (userEntries entries)). destruct (userIds_spec entries Hk) as [Hnd Hu].
  assert (rootIds (userEntries entries) P = List.filter (λ c, bool_decide (upOf entries c = None)) U) as ->.
  { apply filter_ids_ext. intros c Hc. by rewrite (parentIn_up entries P HP). }
  destruct (build_siblings entries Hk Ha rank Hrank (resolveLabels compare entries)
    (buildNode compare ellipsis fuel (userEntries entries) P (resolveLabels compare entries))
    (List.filter (λ c, bool_decide (upOf entries c = None)) U) None) as (ns & -> & Hs).
  { rewrite <- (map_id (List.filter _ _)). apply (NoDup_map_filter (λ x, x)). by rewrite map_id. }
  { intros c. by rewrite list_elem_of_In, filter_In, <- list_elem_of_In, bool_decide_eq_true. }
  { intros c Hc. rewrite list_elem_of_In, filter_In, <- list_elem_of_In in Hc. destruct Hc as [Hc _].
    apply buildNode_spec with (rank := rank); [done..|]. pose proof (above_size U (upOf entries) rank Hnd (U_up entries Hk Ha rank Hrank) c).
    pose proof (userIds_length entries Hk). unfold walkFuel in Hf. unfold U in *. lia. }
  apply (sorted_siblings compare) in Hs as [(Hi & Hn & Hx) Hg]. cbn [mbind option_bind].
  eexists. split; [done|]. unfold treeRows. cbn [roots].
  change (concat (map rowsOf (sort_by (nodeBefore compare) ns))) with (rowsBelow (sort_by (nodeBefore compare) ns)).
  split_and!.
  - done.
  - intros id. rewrite Hx, <- Hu. split.
    + intros (r & Hr & Hur). rewrite list_elem_of_In, filter_In, <- list_elem_of_In in Hr.
      inversion Hur as [|? ? ? []]; subst; [by destruct Hr|done].
    + intros Hid. destruct (under_root U (upOf entries) rank (U_up entries Hk Ha rank Hrank) id Hid) as (r & ? & ? & ?).
      exists r. split; [|done]. rewrite list_elem_of_In, filter_In, <- list_elem_of_In, bool_decide_eq_true. done.
  - intros id. rewrite Hi, list_elem_of_In, filter_In, <- list_elem_of_In, bool_decide_eq_true, <- Hu.
    rewrite nearestUserAncestor_up by done. split; intros [? ?]; (split; [done|congruence]).
  - intros n Hin. rewrite Forall_forall in Hg. destruct (Hg n Hin) as (_ & Hc & Hd & Hl). split_and!; [|done|done].
    intros id. rewrite Hc, elem_of_kidsOf, <- Hu. rewrite nearestUserAncestor_up by done. split; intros [? ?]; (split; [done|congruence]).
Qed.

(** ** Labels *)

(** The label entries of a document, and the target of one. *)
Definition labelEntries (entries : record) : list json := List.filter (isKind "label") (valuesOf entries).
Definition targetIs (id : string) (e : json) : bool := bool_decide (stringOf (get e "targetId") = id).
(** Each has a position of its own. *)
Definition labelsPositioned (entries : record) : Prop :=
  Forall (λ e, get e "ord" = JInt (ordZ e)) (labelEntries entries)
  ∧ ∀ a b, a ∈ labelEntries entries → b ∈ labelEntries entries → ordZ a = ordZ b → a = b.

Lemma foldl_setLabel l id :
  foldl setLabel ∅ l !! id
  = match find_last (targetIs id) l with
    | Some e => if truthy (get e "label") then Some (stringOf (get e "label")) else None
    | None => None
    end.
Proof.
  induction l as [|e l IH] using rev_ind; [done|]. rewrite foldl_app, find_last_app. cbn [foldl].
  unfold setLabel at 1, targetIs at 1. case_bool_decide as Ht.
  - subst. destruct (truthy (get e "label")); [apply lookup_insert_eq|apply lookup_delete_eq].
  - destruct (truthy (get e "label")); [rewrite lookup_insert_ne by done|rewrite lookup_delete_ne by done]; exact IH.
Qed.

Lemma labels_sorted compare entries :
  labelsPositioned entries →
  StronglySorted (λ a b, (ordZ a ≤ ordZ b)%Z) (sort_by (labelBefore compare) (labelEntries entries)).
Proof.
  intros [Hp Hd]. rewrite Forall_forall in Hp. apply Sorted_StronglySorted; [intros a b c; lia|].
  apply sort_by_sorted. intros x y Hx Hy. unfold labelBefore. rewrite (Hp x Hx), (Hp y Hy).
  destruct (decide (NInt (ordZ x) = NInt (ordZ y))) as [E | E].
  - simplify_eq. destruct (isLt _); lia.
  - simpl. destruct (ordZ x <? ordZ y)%Z eqn:El; lia.
Qed.

(** The label of a message is the one its last label entry in file order
    set, whatever the clock said; an empty label, or none, leaves it unlabelled. *)
Theorem resolveLabels_latest compare entries id :
  labelsPositioned entries →
  (∀ e, e ∈ labelEntries entries → targetIs id e = true →
     (∀ e', e' ∈ labelEntries entries → targetIs id e' = true → (ordZ e' ≤ ordZ e)%Z) →
     resolveLabels compare entries !! id = if truthy (get e "label") then Some (stringOf (get e "label")) else None)
  ∧ ((∀ e, e ∈ labelEntries entries → targetIs id e = false) → resolveLabels compare entries !! id = None).
Proof.
  intros Hp. pose proof (labels_sorted compare entries Hp) as Hs. unfold resolveLabels.
  rewrite foldl_setLabel. change (List.filter (isKind "label") (valuesOf entries)) with (labelEntries entries).
  destruct (find_last (targetIs id) (sort_by (labelBefore compare) (labelEntries entries))) as [x|] eqn:E.
  - apply find_last_Some in E as Hx. destruct Hx as [Hx Htx]. rewrite sort_by_perm in Hx. split.
    + intros e He Hte Hmax. enough (x = e) as -> by done. destruct Hp as [_ Hd]. apply Hd; [done|done|].
      pose proof (Hmax x Hx Htx). rewrite <- (sort_by_perm (labelBefore compare)) in He.
      destruct (find_last_greatest _ _ _ _ _ Hs E He Hte) as [? | ->]; lia.
    + intros Hn. rewrite (Hn x Hx) in Htx. done.
  - split; [|done]. intros e He Hte _. exfalso. rewrite <- (sort_by_perm (labelBefore compare)) in He.
    apply find_last_None in E. rewrite Forall_forall in E. rewrite (E e He) in Hte. done.
Qed.

(** ** A document with a fork *)

Definition demo_user (id parent : json) (ts text : string) : json :=
  object [("kind", JStr "message"); ("role", JStr "user"); ("id", id); ("parentId", parent); ("timestamp", JStr ts);
          ("content", JArr [object [("type", JStr "text"); ("text", JStr text)]])].
Definition demo_label (id target : string) (ord : Z) (label : json) : json :=
  object [("kind", JStr "label"); ("id", JStr id); ("parentId", JStr "u2"); ("timestamp", JStr "t9");
          ("targetId", JStr target); ("ord", JInt ord); ("label", label)].
Definition demo_entries : record := list_to_map
  [("u1", demo_user (JStr "u1") JNull "t1" "first");
   ("a1", object [("kind", JStr "message"); ("role", JStr "assistant"); ("id", JStr "a1"); ("parentId", JStr "u1")]);
   ("u2", demo_user (JStr "u2") (JStr "a1") "t2" " second ");
   ("u3", demo_user (JStr "u3") (JStr "a1") "t3" "third");
   ("l1", demo_label "l1" "u2" 4 (JStr "old")); ("l2", demo_label "l2" "u2" 5 (JStr "new"))].
Definition demo_doc : json := object [("entries", JObj demo_entries)].
Definition demo_rank (id : string) : nat :=
  if decide (id = "u1") then 0 else if decide (id = "a1") then 1 else if decide (id = "u2") then 2 else 3.

Lemma demo_keyed : keyed (docEntries demo_doc).
Proof. apply map_Forall_to_list. vm_compute. repeat (constructor; [by split|]). constructor. Qed.

Lemma demo_acyclic : acyclic (docEntries demo_doc).
Proof.
  exists demo_rank. intros id e p He Hp Hin. revert id e He p Hp Hin.
  change (map_Forall (λ id e, ∀ p, opt_str (get e "parentId") = Some p → is_Some (docEntries demo_doc !! p) → demo_rank p < demo_rank id) (docEntries demo_doc)).
  apply map_Forall_to_list. vm_compute. repeat (constructor; [intros; simplify_eq; lia|]). constructor.
Qed.

Lemma demo_labelEntries : labelEntries demo_entries = [demo_label "l1" "u2" 4 (JStr "old"); demo_label "l2" "u2" 5 (JStr "new")].
Proof. vm_compute. reflexivity. Qed.

Lemma demo_labels : labelsPositioned demo_entries.
Proof.
  unfold labelsPositioned. rewrite demo_labelEntries. split; [vm_compute; repeat constructor|].
  intros a b Ha Hb. rewrite !elem_of_cons, elem_of_nil in Ha. rewrite !elem_of_cons, elem_of_nil in Hb.
  destruct Ha as [-> | [-> | []]], Hb as [-> | [-> | []]]; done.
Qed.

Lemma collapseSuperseded_keeps_witness :
  let t := mkHistoryTree [mkHistoryNode "a" "" "" true [] [] None; mkHistoryNode "b" "" "" false [mkHistoryNode "c" "" "" true [] [] None] [] None] in
  deadEndsBare t ∧ treeIds (collapseSuperseded {["c"]} t) ≡ₚ treeIds t.
Proof.
  cbn zeta. assert (deadEndsBare (mkHistoryTree [mkHistoryNode "a" "" "" true [] [] None; mkHistoryNode "b" "" "" false [mkHistoryNode "c" "" "" true [] [] None] [] None])) as H.
  { unfold deadEndsBare. repeat constructor; done. }
  split; [exact H|]. apply (collapseSuperseded_keeps {["c"]} _ H).
Defined.

Lemma computeHistoryTree_spec_witness :
  acyclic (docEntries demo_doc) ∧ keyed (docEntries demo_doc)
  ∧ ∃ t, computeHistoryTree String.compare "..." 7 demo_doc = Some t ∧ NoDup (map nodeId (treeRows t)).
Proof.
  split_and!; [apply demo_acyclic|apply demo_keyed|].
  assert (walkFuel (docEntries demo_doc) ≤ 7) as Hf by (apply Nat.leb_le; vm_compute; reflexivity).
  destruct (computeHistoryTree_spec String.compare "..." 7 demo_doc demo_acyclic demo_keyed Hf) as (t & Ht & Hn & _).
  exists t. split; [exact Ht|exact Hn].
Defined.

Lemma resolveLabels_latest_witness :
  labelsPositioned demo_entries ∧ resolveLabels String.compare demo_entries !! "u3" = None.
Proof.
  split; [apply demo_labels|]. apply (proj2 (resolveLabels_latest String.compare demo_entries "u3" demo_labels)).
  intros e He. rewrite demo_labelEntries, !elem_of_cons, elem_of_nil in He. destruct He as [-> | [-> | []]]; done.
Defined.

(** The tree it gives: two answers to one message, the later label on the first. *)
Example demo_tree :
  (λ t, (map (λ n, (nodeId n, nodeText n, map nodeId (children n), nodeLabel n)) (treeRows t)))
    <$> computeHistoryTree String.compare "..." 7 demo_doc
  = Some [("u1", "first", ["u2"; "u3"], None); ("u2", "second", [], Some "new"); ("u3", "third", [], None)].
Proof. vm_compute. reflexivity. Qed.
