(* ===== verification/Lanes.v ===== *)
(** * The lanes of the history graph

    [viewmodel/tree.ts], the visual structure: [computeLaneLayout] assigns a
    lane to every row of a history tree and emits the vertical runs and the
    forks.  A fork lands half a row below its branch point, so the start of a
    run and the end of a fork are counted in half rows ([startHalf], [toHalf]).
    The recursion along the primary chain takes fuel; one unit per row is
    enough.  [None] stands for a value the source reads as [undefined]. *)

From S2P Require Export Tree.

Record PlacedNode := mkPlaced { node : HistoryNode; lane : nat; row : nat; isOnActivePath : bool }.
Record Lineage := mkLineage { lineageLane : nat; startHalf : nat; endRow : nat }.
Record Fork := mkFork { fromRow : nat; fromLane : nat; toHalf : nat; toLane : nat }.
Record LaneLayout := mkLayout {
  nodes : list PlacedNode;
  lineages : list Lineage;
  forks : list Fork;
  laneCount : nat;
  rowCount : nat
}.

Section layout.
  Context (compare : string → string → comparison) (activePath : gset string).

(** A [Map] from ids, filled in the order of the pairs. *)
Definition mapOf {A} (pairs : list (string * A)) : gmap string A := foldl (λ m kv, <[kv.1 := kv.2]> m) ∅ pairs.

(** [all], in chronological order. *)
Definition flatRows (tree : HistoryTree) : list HistoryNode := sort_by (nodeBefore compare) (treeRows tree).

Definition rowsById (all : list HistoryNode) : gmap string nat := mapOf (imap (λ i n, (nodeId n, i)) all).

(** [dfsParent] *)
Fixpoint parentPairs (parent : option string) (n : HistoryNode) : list (string * option string) :=
  (nodeId n, parent) :: concat (map (parentPairs (Some (nodeId n))) (children n)).
Definition parentsById (tree : HistoryTree) : gmap string (option string) :=
  mapOf (concat (map (parentPairs None) (roots tree))).

(** The child on the active path, or the newest. *)
Definition primaryChild (n : HistoryNode) : option string :=
  match List.find (λ c, bool_decide (nodeId c ∈ activePath)) (children n) with
  | Some c => Some (nodeId c)
  | None => nodeId <$> last (children n)
  end.
Definition primaryById (all : list HistoryNode) : gmap string (option string) :=
  mapOf (map (λ n, (nodeId n, primaryChild n)) all).

(** [computePCLR], without its memory: the row where the primary chain ends. *)
Fixpoint chainLastRow (fuel : nat) (primaryChildOf : gmap string (option string)) (rowOf : gmap string nat) (id : string)
    : option nat :=
  match fuel with
  | 0 => None
  | S fuel' =>
    match primaryChildOf !! id with
    | Some (Some pc) => if falsyId pc then rowOf !! id else chainLastRow fuel' primaryChildOf rowOf pc
    | _ => rowOf !! id
    end
  end.

(** ** The loop over the rows *)

Record LaneState := mkLanes {
  placedNodes : list PlacedNode;
  lineagesSoFar : list Lineage;
  forksSoFar : list Fork;
  nodeLane : gmap string nat;
  childLane : gmap string nat;
  activeLanes : gmap nat Lineage
}.

(** The first lane from [i] on that is free: at most as many are taken as there
    are active lanes. *)
Fixpoint freeFrom (fuel : nat) (active : gmap nat Lineage) (i : nat) : nat :=
  match fuel with
  | 0 => i
  | S fuel' => if decide (is_Some (active !! i)) then freeFrom fuel' active (S i) else i
  end.
Definition leftmostFreeLane (active : gmap nat Lineage) : nat := freeFrom (size active) active 0.
Definition leftmostFreeLaneAbove (active : gmap nat Lineage) (above : nat) : nat := freeFrom (size active) active (S above).

Definition openLineage (lin : Lineage) (st : LaneState) : LaneState :=
  mkLanes (placedNodes st) (lineagesSoFar st ++ [lin]) (forksSoFar st) (nodeLane st) (childLane st)
          (<[lineageLane lin := lin]> (activeLanes st)).

Definition place (n : HistoryNode) (l r : nat) (st : LaneState) : LaneState :=
  mkLanes (placedNodes st ++ [mkPlaced n l r (bool_decide (nodeId n ∈ activePath))]) (lineagesSoFar st) (forksSoFar st)
          (<[nodeId n := l]> (nodeLane st)) (childLane st) (activeLanes st).

Definition forkTo (child : HistoryNode) (f : Fork) (st : LaneState) : LaneState :=
  mkLanes (placedNodes st) (lineagesSoFar st) (forksSoFar st ++ [f]) (nodeLane st)
          (<[nodeId child := toLane f]> (childLane st)) (activeLanes st).

Definition freeEnded (r : nat) (st : LaneState) : LaneState :=
  mkLanes (placedNodes st) (lineagesSoFar st) (forksSoFar st) (nodeLane st) (childLane st)
          (filter (λ kv, r < endRow kv.2) (activeLanes st)).

Section rows.
  Context (lastRow : string → option nat) (parentOf : gmap string (option string))
    (primaryChildOf : gmap string (option string)).

(** One secondary child of a branch point. *)
Definition reserve (r l : nat) (primary : option string) (st : LaneState) (child : HistoryNode) : option LaneState :=
  if decide (primary = Some (nodeId child)) then Some st
  else
    let v := leftmostFreeLaneAbove (activeLanes st) l in
    e ← lastRow (nodeId child);
    Some (openLineage (mkLineage v (2 * r + 1) e) (forkTo child (mkFork r l (2 * r + 1) v) st)).

Fixpoint reserveAll (r l : nat) (primary : option string) (cs : list HistoryNode) (st : LaneState) : option LaneState :=
  match cs with
  | [] => Some st
  | c :: cs' => st' ← reserve r l primary st c; reserveAll r l primary cs' st'
  end.

(** The lane of a row, and the state with the lineage a root begins. *)
Definition laneOf (r : nat) (n : HistoryNode) (st : LaneState) : option (nat * LaneState) :=
  match p ← parentOf !! nodeId n; p with
  | None =>
    let l := leftmostFreeLane (activeLanes st) in
    e ← lastRow (nodeId n); Some (l, openLineage (mkLineage l (2 * r) e) st)
  | Some parentId =>
    match childLane st !! nodeId n with
    | Some l => Some (l, st)
    | None => l ← nodeLane st !! parentId; Some (l, st)
    end
  end.

Definition rowStep (r : nat) (n : HistoryNode) (st : LaneState) : option LaneState :=
  '(l, st1) ← laneOf r n st;
  let primary := p ← primaryChildOf !! nodeId n; p in
  st2 ← reserveAll r l primary (rev (children n)) (place n l r st1);
  Some (freeEnded r st2).

Fixpoint rowLoop (r : nat) (rest : list HistoryNode) (st : LaneState) : option LaneState :=
  match rest with
  | [] => Some st
  | n :: rest' => st' ← rowStep r n st; rowLoop (S r) rest' st'
  end.

End rows.

Definition computeLaneLayout (fuel : nat) (tree : HistoryTree) : option LaneLayout :=
  let all := flatRows tree in
  if decide (all = []) then Some (mkLayout [] [] [] 0 0)
  else
    let primaryChildOf := primaryById all in
    st ← rowLoop (chainLastRow fuel primaryChildOf (rowsById all)) (parentsById tree) primaryChildOf
           0 all (mkLanes [] [] [] ∅ ∅ ∅);
    Some (mkLayout (placedNodes st) (lineagesSoFar st) (forksSoFar st)
            (map_fold (λ _ l acc, Nat.max (S l) acc) 0 (nodeLane st)) (length all)).

End layout.

(** ** The order of the rows *)

(** What the layout relies on from [localeCompare]: a total preorder. *)
Class LocaleCompare (compare : string → string → comparison) := {
  compare_opp a b : compare b a = CompOpp (compare a b);
  compare_trans a b c : compare a b ≠ Gt → compare b c ≠ Gt → compare a c ≠ Gt
}.

#[global] Arguments compare_opp compare {_} a b.
#[global] Arguments compare_trans compare {_} a b c.

Section order.
  Context (compare : string → string → comparison) `{!LocaleCompare compare}.

Definition nodeLe (a b : HistoryNode) : Prop :=
  byTimestamp compare (nodeTimestamp a) (nodeId a) (nodeTimestamp b) (nodeId b) ≠ Gt.

Lemma byTimestamp_opp ta ia tb ib : byTimestamp compare tb ib ta ia = CompOpp (byTimestamp compare ta ia tb ib).
Proof. unfold byTimestamp. rewrite (compare_opp compare ta tb), (compare_opp compare ia ib). by destruct (compare ta tb). Qed.

Lemma nodeBefore_le a b : if nodeBefore compare a b then nodeLe a b else nodeLe b a.
Proof.
  unfold nodeBefore, nodeLe. rewrite (byTimestamp_opp (nodeTimestamp a)).
  by destruct (byTimestamp compare (nodeTimestamp a) (nodeId a) (nodeTimestamp b) (nodeId b)).
Qed.

Lemma nodeBefore_not_le a b : nodeBefore compare a b = true → ¬ nodeLe b a.
Proof.
  unfold nodeBefore, nodeLe. rewrite (byTimestamp_opp (nodeTimestamp a)).
  destruct (byTimestamp compare (nodeTimestamp a) (nodeId a) (nodeTimestamp b) (nodeId b)); simpl; try done. tauto.
Qed.

Lemma compare_mixed a b c : compare a b ≠ Gt → compare b c ≠ Gt → compare a c = Eq → compare a b = Eq ∧ compare b c = Eq.
Proof.
  intros H1 H2 H3.
  pose proof (compare_trans compare b c a H2) as Hba. rewrite (compare_opp compare a c), (compare_opp compare a b), H3 in Hba.
  pose proof (compare_trans compare c a b) as Hcb. rewrite (compare_opp compare a c), (compare_opp compare b c), H3 in Hcb.
  split.
  - destruct (compare a b); [done| |done]. exfalso. by apply Hba.
  - destruct (compare b c); [done| |done]. exfalso. by apply Hcb.
Qed.

#[export] Instance nodeLe_trans : Transitive nodeLe.
Proof.
  intros a b c. unfold nodeLe, byTimestamp.
  pose proof (compare_trans compare (nodeTimestamp a) (nodeTimestamp b) (nodeTimestamp c)) as Ht.
  pose proof (compare_mixed (nodeTimestamp a) (nodeTimestamp b) (nodeTimestamp c)) as Hm.
  intros Hab Hbc.
  assert (compare (nodeTimestamp a) (nodeTimestamp b) ≠ Gt) as H1 by (intros E; by rewrite E in Hab).
  assert (compare (nodeTimestamp b) (nodeTimestamp c) ≠ Gt) as H2 by (intros E; by rewrite E in Hbc).
  specialize (Ht H1 H2). specialize (Hm H1 H2).
  destruct (compare (nodeTimestamp a) (nodeTimestamp c)); [|done|done].
  destruct (Hm eq_refl) as [E1 E2]. rewrite E1 in Hab. rewrite E2 in Hbc. by apply (compare_trans compare) with (nodeId b).
Qed.

Lemma flatRows_sorted tree : StronglySorted nodeLe (flatRows compare tree).
Proof. apply Sorted_StronglySorted; [apply _|]. apply sort_by_sorted. intros x y _ _. apply nodeBefore_le. Qed.
End order.

(** ** Free lanes *)

Lemma freeFrom_above fuel active i : i ≤ freeFrom fuel active i.
Proof. revert i. induction fuel as [|fuel IH]; intros i; simpl; [lia|]. case_decide; [|lia]. specialize (IH (S i)). lia. Qed.

Lemma freeFrom_free fuel active i :
  size (filter (λ k, i ≤ k) (dom active)) ≤ fuel → active !! freeFrom fuel active i = None.
Proof.
  revert i. induction fuel as [|fuel IH]; intros i Hs; simpl.
  - apply eq_None_not_Some. intros Hi%elem_of_dom.
    assert (filter (λ k, i ≤ k) (dom active) ≡ ∅) as He by (apply size_empty_inv; lia).
    specialize (He i). rewrite elem_of_filter in He. set_solver by lia.
  - case_decide as Hi; [|by apply eq_None_not_Some]. apply IH.
    assert (filter (λ k, S i ≤ k) (dom active) ⊂ filter (λ k, i ≤ k) (dom active)) as Hsub%subset_size; [|lia].
    split.
    + intros k. rewrite !elem_of_filter. intros []. split; [lia|done].
    + intros Hsub. specialize (Hsub i). rewrite !elem_of_filter in Hsub. apply elem_of_dom in Hi. destruct Hsub; [|lia]. by split.
Qed.

Lemma freeFrom_size active i : active !! freeFrom (size active) active i = None.
Proof.
  apply freeFrom_free. rewrite <- (size_dom (D := gset nat) active). apply subseteq_size. set_solver.
Qed.

(** ** The lineages *)

(** [a] ends before [b] starts, on one lane. *)
Definition ends_before (a b : Lineage) : Prop := lineageLane a = lineageLane b → 2 * endRow a < startHalf b.

Record lanesOk (r : nat) (st : LaneState) : Prop := {
  ok_apart : StronglySorted ends_before (lineagesSoFar st);
  ok_held lin : lin ∈ lineagesSoFar st → activeLanes st !! lineageLane lin = Some lin ∨ endRow lin < r
}.

Lemma open_ok r lin st :
  lanesOk r st → activeLanes st !! lineageLane lin = None → 2 * r ≤ startHalf lin → lanesOk r (openLineage lin st).
Proof.
  intros [Ha Hh] Hfree Hstart. split; simpl.
  - apply StronglySorted_app. split_and!; [|done|by repeat constructor].
    intros a b Hin ->%list_elem_of_singleton Hl. destruct (Hh a Hin) as [H|?]; [|lia]. rewrite Hl in H. congruence.
  - intros a [Hin | ->%list_elem_of_singleton]%elem_of_app; [|left; apply lookup_insert_eq].
    destruct (Hh a Hin) as [H|?]; [left|by right]. rewrite lookup_insert_ne; [done|]. intros E. rewrite E in Hfree. congruence.
Qed.

Lemma free_ok r st : lanesOk r st → lanesOk (S r) (freeEnded r st).
Proof.
  intros [Ha Hh]. split; [done|]. simpl. intros lin Hin. destruct (Hh lin Hin) as [H|?]; [|right; lia].
  destruct (decide (r < endRow lin)); [left|right; lia]. by apply map_lookup_filter_Some.
Qed.

(** ** The invariant of the loop *)

Lemma primaryChild_in activePath n pc :
  primaryChild activePath n = Some pc → ∃ c, c ∈ children n ∧ nodeId c = pc.
Proof.
  unfold primaryChild. destruct (List.find _ (children n)) as [c|] eqn:E.
  - intros [= <-]. apply find_some in E as [Hc _]. exists c. split; [by apply list_elem_of_In|done].
  - destruct (last (children n)) as [c|] eqn:El; [|done]. intros [= <-]. exists c. split; [by apply last_Some_elem_of|done].
Qed.

Section loop.
  Context (activePath : gset string) (all : list HistoryNode) (lastRow : string → option nat)
    (parentOf : gmap string (option string)) (primaryChildOf : gmap string (option string)).

Abbreviation primaryOf := (primaryChild activePath).

Definition covered (st : LaneState) (l s : nat) (e : option nat) : Prop :=
  ∃ lin, lin ∈ lineagesSoFar st ∧ lineageLane lin = l ∧ startHalf lin ≤ s ∧ e = Some (endRow lin).

(** The lane of a node that is placed, or reserved. *)
Definition assigned (st : LaneState) (id : string) : option nat :=
  match nodeLane st !! id with Some l => Some l | None => childLane st !! id end.

(** A secondary child of one of the first [P] rows. *)
Definition secondary (P : nat) (id : string) : Prop :=
  ∃ i p c, i < P ∧ all !! i = Some p ∧ c ∈ children p ∧ nodeId c = id ∧ primaryOf p ≠ Some id.

Record nodesOk (P : nat) (st : LaneState) : Prop := {
  ok_placed i n : all !! i = Some n → (is_Some (nodeLane st !! nodeId n) ↔ i < P);
  ok_reserved id : is_Some (childLane st !! id) → secondary P id;
  ok_covered i n l : all !! i = Some n → assigned st (nodeId n) = Some l → covered st l (2 * i) (lastRow (nodeId n));
  ok_primary p c : p ∈ all → c ∈ children p → primaryOf p = Some (nodeId c) → is_Some (nodeLane st !! nodeId c) →
    nodeLane st !! nodeId c = nodeLane st !! nodeId p;
  ok_forks f : f ∈ forksSoFar st → fromLane f < toLane f ∧
    ∃ lin, lin ∈ lineagesSoFar st ∧ lineageLane lin = toLane f ∧ startHalf lin = toHalf f;
  ok_rows : map node (placedNodes st) = take P all;
  ok_dots i pn : placedNodes st !! i = Some pn →
    row pn = i ∧ nodeLane st !! nodeId (node pn) = Some (lane pn)
    ∧ isOnActivePath pn = bool_decide (nodeId (node pn) ∈ activePath)
}.

(** Every lineage has a head. *)
Definition headsOk (st : LaneState) : Prop :=
  ∀ lin, lin ∈ lineagesSoFar st →
    ∃ h, h ∈ all ∧ assigned st (nodeId h) = Some (lineageLane lin) ∧ lastRow (nodeId h) = Some (endRow lin).

Definition allReserved (P : nat) (st : LaneState) : Prop := ∀ id, secondary P id → is_Some (childLane st !! id).

Context (Hids : NoDup (map nodeId all)).

Lemma same_id i j a b : all !! i = Some a → all !! j = Some b → nodeId a = nodeId b → i = j ∧ a = b.
Proof.
  intros Ha Hb Hid. assert (i = j) as ->.
  { eapply NoDup_lookup; [exact Hids|..]; rewrite list_lookup_fmap; [by rewrite Ha|by rewrite Hb; simpl; rewrite Hid]. }
  split; congruence.
Qed.

Lemma covered_open lin st l s e : covered st l s e → covered (openLineage lin st) l s e.
Proof. intros (a & Ha & ?). exists a. split; [|done]. simpl. apply elem_of_app. by left. Qed.

Lemma covered_new lin st s : startHalf lin ≤ s → covered (openLineage lin st) (lineageLane lin) s (Some (endRow lin)).
Proof. intros Hs. exists lin. split_and!; [|done|done|done]. simpl. apply elem_of_app. right. by left. Qed.

Lemma open_nodes P lin st : nodesOk P st → nodesOk P (openLineage lin st).
Proof.
  intros []. split; try done.
  - intros i n l Hi Hl. apply covered_open. eauto.
  - intros f Hf. destruct (ok_forks0 f Hf) as (? & a & Ha & ?). split; [done|]. exists a. split; [|done].
    simpl. apply elem_of_app. by left.
Qed.

Lemma free_nodes P r st : nodesOk P st → nodesOk P (freeEnded r st).
Proof. intros []. by split. Qed.

Lemma fork_nodes P j c f st :
  nodesOk P st → all !! j = Some c → P ≤ j → secondary P (nodeId c) →
  covered st (toLane f) (2 * j) (lastRow (nodeId c)) → fromLane f < toLane f →
  (∃ lin, lin ∈ lineagesSoFar st ∧ lineageLane lin = toLane f ∧ startHalf lin = toHalf f) →
  nodesOk P (forkTo c f st).
Proof.
  intros [] Hj HP Hsec Hcov Hlt Hlin. split; try done.
  - intros id. simpl. destruct (decide (id = nodeId c)) as [-> | Hn]; [done|].
    rewrite lookup_insert_ne by done. apply ok_reserved0.
  - intros i n l Hi. unfold assigned. simpl. destruct (decide (nodeId n = nodeId c)) as [E | E].
    + destruct (same_id _ _ _ _ Hi Hj E) as [-> ->]. rewrite lookup_insert_eq.
      destruct (nodeLane st !! nodeId c) eqn:El; [|by intros [= <-]].
      assert (j < P) by (eapply ok_placed0; [done|by rewrite El]). lia.
    + rewrite lookup_insert_ne by done. apply ok_covered0; done.
  - intros g. simpl. intros [Hg | ->%list_elem_of_singleton]%elem_of_app; [by apply ok_forks0|by split].
Qed.

Lemma place_nodes r n l st :
  nodesOk r st → all !! r = Some n → covered st l (2 * r) (lastRow (nodeId n)) →
  (∀ p, p ∈ all → n ∈ children p → primaryOf p = Some (nodeId n) → nodeId p ≠ nodeId n ∧ nodeLane st !! nodeId p = Some l) →
  (∀ c, c ∈ children n → c ∈ all ∧ nodeLane st !! nodeId c = None ∧ nodeId c ≠ nodeId n) →
  (∀ p, p ∈ all → ∀ c, c ∈ children p → c ∈ all) →
  nodesOk (S r) (place activePath n l r st).
Proof.
  intros [] Hr Hcov Hprim Hkids Hclosed. split.
  - intros i m Hi. simpl. destruct (decide (nodeId m = nodeId n)) as [E | E].
    + destruct (same_id _ _ _ _ Hi Hr E) as [-> ->]. rewrite lookup_insert_eq. split; [lia|by eexists].
    + rewrite lookup_insert_ne, (ok_placed0 i m Hi) by done. split; [lia|]. intros Hlt.
      destruct (decide (i = r)) as [-> | ?]; [|lia]. congruence.
  - intros id (i & p & c & ? & ?)%ok_reserved0. exists i, p, c. split; [lia|done].
  - intros i m k Hi. unfold assigned. simpl. destruct (decide (nodeId m = nodeId n)) as [E | E].
    + destruct (same_id _ _ _ _ Hi Hr E) as [-> ->]. rewrite lookup_insert_eq. by intros [= <-].
    + rewrite lookup_insert_ne by done. apply ok_covered0; done.
  - intros p c Hp Hc Hpc. simpl. destruct (decide (nodeId c = nodeId n)) as [E | E].
    + assert (c = n) as -> by (apply list_elem_of_lookup in Hp as Hp'; pose proof (Hclosed p Hp c Hc) as [j Hj]%list_elem_of_lookup; by eapply same_id).
      intros _. destruct (Hprim p Hp Hc Hpc) as [Hne Hl]. rewrite lookup_insert_eq, lookup_insert_ne by done. done.
    + rewrite lookup_insert_ne by done. intros Hs. destruct (decide (nodeId p = nodeId n)) as [Ep | Ep].
      * apply list_elem_of_lookup in Hp as [j Hj]. destruct (same_id _ _ _ _ Hj Hr Ep) as [-> ->].
        destruct (Hkids c Hc) as (_ & Hn & _). rewrite Hn in Hs. by destruct Hs.
      * rewrite lookup_insert_ne by done. by apply ok_primary0.
  - done.
  - simpl. rewrite map_app, ok_rows0. simpl. by rewrite (take_S_r _ _ _ Hr).
  - intros i pn. simpl. assert (length (placedNodes st) = r) as Hlen.
    { rewrite <- (length_map node), ok_rows0, length_take. apply lookup_lt_Some in Hr. lia. }
    intros [Hi | [Hge Hi]]%lookup_app_Some.
    + destruct (ok_dots0 i pn Hi) as (Hrow & Hl & Ha). split_and!; [done| |done].
      rewrite lookup_insert_ne; [done|]. intros E.
      assert (r < r); [|lia]. eapply ok_placed0; [exact Hr|]. rewrite E. by eexists.
    + apply list_lookup_singleton_Some in Hi as [Hi <-]. simpl. split_and!; [lia| |done]. apply lookup_insert_eq.
Qed.

(** What the maps of the layout hold, for a tree in chronological order. *)
Record layoutFacts : Prop := {
  f_closed p c : p ∈ all → c ∈ children p → c ∈ all;
  f_parent p c : p ∈ all → c ∈ children p → parentOf !! nodeId c = Some (Some (nodeId p));
  f_root n : n ∈ all → parentOf !! nodeId n = Some None ∨ ∃ p, p ∈ all ∧ n ∈ children p;
  f_primary n : n ∈ all → primaryChildOf !! nodeId n = Some (primaryOf n);
  f_later i j p c : all !! i = Some p → all !! j = Some c → c ∈ children p → i < j;
  f_last i n : all !! i = Some n → ∃ e, lastRow (nodeId n) = Some e ∧ i ≤ e;
  f_chain n c : n ∈ all → c ∈ children n → primaryOf n = Some (nodeId c) → lastRow (nodeId c) = lastRow (nodeId n);
  f_kids n : n ∈ all → NoDup (map nodeId (children n))
}.
Context (F : layoutFacts).

Definition rowInv (r : nat) (st : LaneState) : Prop :=
  lanesOk r st ∧ nodesOk r st ∧ headsOk st ∧ allReserved r st.

Lemma parent_unique p q c d :
  p ∈ all → q ∈ all → c ∈ children p → d ∈ children q → nodeId c = nodeId d → p = q.
Proof.
  intros Hp Hq Hc Hd E. pose proof (f_parent F _ _ Hp Hc) as H1. pose proof (f_parent F _ _ Hq Hd) as H2.
  rewrite E, H2 in H1. simplify_eq. apply list_elem_of_lookup in Hp as [i Hi], Hq as [j Hj]. by eapply same_id.
Qed.

(** A reservation keeps everything, and assigns the child its lane. *)
Lemma reserve_ok r l n c st :
  all !! r = Some n → c ∈ children n → childLane st !! nodeId c = None →
  lanesOk r st → nodesOk (S r) st → headsOk st →
  ∃ st', reserve lastRow r l (primaryOf n) st c = Some st' ∧ lanesOk r st' ∧ nodesOk (S r) st' ∧ headsOk st'
    ∧ (∀ id, id ≠ nodeId c → childLane st' !! id = childLane st !! id)
    ∧ (primaryOf n ≠ Some (nodeId c) → is_Some (childLane st' !! nodeId c)).
Proof.
  intros Hr Hc Hnone Hlanes Hnodes Hheads. unfold reserve. case_decide as Hp; [by exists st|].
  assert (n ∈ all) as Hn by by eapply list_elem_of_lookup_2.
  pose proof (f_closed F _ _ Hn Hc) as [j Hj]%list_elem_of_lookup. pose proof (f_later F _ _ _ _ Hr Hj Hc) as Hlt.
  destruct (f_last F _ _ Hj) as (e & He & Hje). rewrite He. cbn [mbind option_bind].
  set (v := leftmostFreeLaneAbove (activeLanes st) l). set (lin := mkLineage v (2 * r + 1) e).
  set (f := mkFork r l (2 * r + 1) v).
  assert (nodeLane st !! nodeId c = None) as Hplaced.
  { apply eq_None_not_Some. intros H%(ok_placed _ _ Hnodes j c Hj). lia. }
  eexists. split; [done|]. split_and!.
  - apply open_ok; [by destruct Hlanes| |simpl; lia]. apply freeFrom_size.
  - change (openLineage lin (forkTo c f st)) with (forkTo c f (openLineage lin st)).
    apply (fork_nodes (S r) j); [by apply open_nodes|done|lia| | | |].
    + exists r, n, c. split_and!; [lia|done|done|done|congruence].
    + rewrite He. apply (covered_new lin st). simpl. lia.
    + simpl. unfold v, leftmostFreeLaneAbove. pose proof (freeFrom_above (size (activeLanes st)) (activeLanes st) (S l)). lia.
    + exists lin. split; [|done]. simpl. apply elem_of_app. right. by left.
  - intros a [Ha | ->%list_elem_of_singleton]%elem_of_app.
    + destruct (Hheads a Ha) as (h & Hh & Has & Hl). exists h. split_and!; [done| |done].
      unfold assigned in *. simpl. rewrite lookup_insert_ne; [done|]. intros E. rewrite <- E, Hplaced, Hnone in Has. done.
    + exists c. split_and!; [by eapply list_elem_of_lookup_2| |done]. unfold assigned. simpl.
      rewrite Hplaced. apply lookup_insert_eq.
  - intros id Hid. simpl. by rewrite lookup_insert_ne.
  - intros _. simpl. rewrite lookup_insert_eq. by eexists.
Qed.

Lemma reserveAll_ok r l n cs st :
  all !! r = Some n → (∀ c, c ∈ cs → c ∈ children n ∧ childLane st !! nodeId c = None) → NoDup (map nodeId cs) →
  lanesOk r st → nodesOk (S r) st → headsOk st →
  ∃ st', reserveAll lastRow r l (primaryOf n) cs st = Some st' ∧ lanesOk r st' ∧ nodesOk (S r) st' ∧ headsOk st'
    ∧ (∀ id, is_Some (childLane st !! id) → is_Some (childLane st' !! id))
    ∧ (∀ c, c ∈ cs → primaryOf n ≠ Some (nodeId c) → is_Some (childLane st' !! nodeId c)).
Proof.
  intros Hr. revert st. induction cs as [|c cs IH]; intros st Hcs Hnd Hl Hn Hh.
  { exists st. split_and!; try done. by intros c ?%not_elem_of_nil. }
  apply NoDup_cons in Hnd as [Hc Hnd]. destruct (Hcs c ltac:(by left)) as [Hcn Hnone].
  destruct (reserve_ok r l n c st Hr Hcn Hnone Hl Hn Hh) as (st1 & E1 & Hl1 & Hn1 & Hh1 & Hother & Hsome).
  destruct (IH st1) as (st' & E' & ? & ? & ? & Hmono & Hres); [|done|done|done|done|].
  { intros d Hd. destruct (Hcs d ltac:(by right)) as [? Hdn]. split; [done|]. rewrite Hother; [done|].
    intros E. apply Hc. rewrite <- E. by apply list_elem_of_fmap_2. }
  exists st'. cbn [reserveAll]. rewrite E1. split_and!; try done.
  - intros id Hid. apply Hmono. destruct (decide (id = nodeId c)) as [-> | ?]; [|by rewrite Hother].
    rewrite Hnone in Hid. by destruct Hid.
  - intros d [-> | Hd]%elem_of_cons Hp; [by apply Hmono, Hsome|by apply Hres].
Qed.

Lemma place_heads n l r st :
  nodeLane st !! nodeId n = None → (∀ l', childLane st !! nodeId n = Some l' → l' = l) →
  headsOk st → headsOk (place activePath n l r st).
Proof.
  intros Hn Hc Hh lin Hin. destruct (Hh lin Hin) as (h & Hall & Has & Hl). exists h. split_and!; [done| |done].
  unfold assigned in *. simpl. destruct (decide (nodeId h = nodeId n)) as [E | E].
  - rewrite E, Hn in Has. apply Hc in Has as ->. rewrite E. by rewrite lookup_insert_eq.
  - by rewrite lookup_insert_ne.
Qed.

Lemma row_unplaced r n st : all !! r = Some n → nodesOk r st → nodeLane st !! nodeId n = None.
Proof. intros Hr Hnodes. apply eq_None_not_Some. intros H%(ok_placed _ _ Hnodes r n Hr). lia. Qed.

Lemma kids_unplaced r n st :
  all !! r = Some n → nodesOk r st →
  ∀ c, c ∈ children n → c ∈ all ∧ nodeLane st !! nodeId c = None ∧ nodeId c ≠ nodeId n.
Proof.
  intros Hr Hnodes c Hc. assert (n ∈ all) as Hn by by eapply list_elem_of_lookup_2.
  pose proof (f_closed F _ _ Hn Hc) as Hcin. pose proof Hcin as [j Hj]%list_elem_of_lookup.
  pose proof (f_later F _ _ _ _ Hr Hj Hc). split_and!; [done| |].
  - apply eq_None_not_Some. intros H'%(ok_placed _ _ Hnodes j c Hj). lia.
  - intros E. destruct (same_id _ _ _ _ Hj Hr E). lia.
Qed.

(** What a row is promised: a lane, and a state in which it can be placed there. *)
Definition rowPlaced (r : nat) (n : HistoryNode) (st : LaneState) : Prop :=
  ∃ l st1, laneOf lastRow parentOf r n st = Some (l, st1) ∧ childLane st1 = childLane st
    ∧ lanesOk r st1 ∧ nodesOk (S r) (place activePath n l r st1) ∧ headsOk (place activePath n l r st1).

(** A root begins a lineage on a free lane. *)
Lemma root_placed r n st :
  all !! r = Some n → rowInv r st → parentOf !! nodeId n = Some None → rowPlaced r n st.
Proof.
  intros Hr (Hlanes & Hnodes & Hheads & _) Hroot. destruct (f_last F _ _ Hr) as (e & He & Hle).
  assert (∀ p c, p ∈ all → c ∈ children p → nodeId c ≠ nodeId n) as Hno.
  { intros p c Hp Hc E. pose proof (f_parent F _ _ Hp Hc) as H. rewrite E, Hroot in H. done. }
  unfold rowPlaced, laneOf. rewrite Hroot. cbn [mbind option_bind]. rewrite He. cbn [mbind option_bind].
  set (l := leftmostFreeLane (activeLanes st)). set (lin := mkLineage l (2 * r) e).
  exists l, (openLineage lin st). split_and!; [done|done| | |].
  - apply open_ok; [done|apply freeFrom_size|simpl; lia].
  - apply place_nodes; [by apply open_nodes|done| | |by apply (kids_unplaced r n st)|by intros; eapply (f_closed F)].
    + rewrite He. apply (covered_new lin st). simpl. lia.
    + intros p Hp Hnp. by destruct (Hno p n Hp Hnp).
  - assert (headsOk (place activePath n l r st)) as Hh.
    { apply place_heads; [by apply (row_unplaced r)| |done]. intros l' Hl'. exfalso.
      destruct (ok_reserved _ _ Hnodes (nodeId n)) as (i & p & c & _ & Hi & Hc & E & _); [by rewrite Hl'|].
      by apply (Hno p c); [eapply list_elem_of_lookup_2|..]. }
    intros a [Ha | ->%list_elem_of_singleton]%elem_of_app; [by apply Hh|].
    exists n. split_and!; [by eapply list_elem_of_lookup_2| |done]. unfold assigned. simpl. by rewrite lookup_insert_eq.
Qed.

(** An answer is on the lane reserved for it, or on its parent's. *)
Lemma child_placed r n p st :
  all !! r = Some n → rowInv r st → p ∈ all → n ∈ children p → rowPlaced r n st.
Proof.
  intros Hr (Hlanes & Hnodes & Hheads & Hres) Hp Hnp. unfold rowPlaced, laneOf.
  rewrite (f_parent F _ _ Hp Hnp). cbn [mbind option_bind]. pose proof (row_unplaced r n st Hr Hnodes) as Hnone.
  pose proof Hp as [ip Hip]%list_elem_of_lookup. pose proof (f_later F _ _ _ _ Hip Hr Hnp) as Hlt.
  destruct (childLane st !! nodeId n) as [l|] eqn:Ecl.
  - exists l, st. split_and!; [done|done|done| |apply place_heads; [done|congruence|done]].
    apply place_nodes; [done|done| | |by apply (kids_unplaced r n st)|by intros; eapply (f_closed F)].
    + apply (ok_covered _ _ Hnodes r n l Hr). unfold assigned. by rewrite Hnone.
    + intros q Hq Hnq Hprim. destruct (ok_reserved _ _ Hnodes (nodeId n)) as (i & p' & c & _ & Hi & Hc & E & Hne); [by rewrite Ecl|].
      assert (p' ∈ all) as Hp' by by eapply list_elem_of_lookup_2.
      rewrite (parent_unique _ _ _ _ Hp' Hq Hc Hnq E) in Hne. done.
  - destruct (proj2 (ok_placed _ _ Hnodes ip p Hip) Hlt) as [l El].
    assert (primaryOf p = Some (nodeId n)) as Hprim.
    { destruct (decide (primaryOf p = Some (nodeId n))) as [?|Hne]; [done|]. exfalso.
      destruct (Hres (nodeId n)) as [x Hx]; [exists ip, p, n; done|]. congruence. }
    exists l, st. rewrite El. split_and!; [done|done|done| |apply place_heads; [done|congruence|done]].
    apply place_nodes; [done|done| | |by apply (kids_unplaced r n st)|by intros; eapply (f_closed F)].
    + rewrite (f_chain F _ _ Hp Hnp Hprim).
      destruct (ok_covered _ _ Hnodes ip p l Hip) as (lin & Hin & H1 & H2 & H3); [unfold assigned; by rewrite El|].
      exists lin. split_and!; [done|done|lia|done].
    + intros q Hq Hnq _. rewrite (parent_unique _ _ _ _ Hq Hp Hnq Hnp eq_refl). split; [|done].
      intros E. destruct (same_id _ _ _ _ Hip Hr E). lia.
Qed.

Lemma laneOf_ok r n st : all !! r = Some n → rowInv r st → rowPlaced r n st.
Proof.
  intros Hr Hinv. assert (n ∈ all) as Hn by by eapply list_elem_of_lookup_2.
  destruct (f_root F n Hn) as [Hroot | (p & Hp & Hnp)]; [by apply root_placed|by eapply child_placed].
Qed.

Lemma rowStep_ok r n st :
  all !! r = Some n → rowInv r st →
  ∃ st', rowStep activePath lastRow parentOf primaryChildOf r n st = Some st' ∧ rowInv (S r) st'.
Proof.
  intros Hr Hinv. destruct (laneOf_ok r n st Hr Hinv) as (l & st1 & E1 & Ec & Hl & Hn & Hh).
  destruct Hinv as (_ & Hnodes & _ & Hres). assert (n ∈ all) as Hin by by eapply list_elem_of_lookup_2.
  unfold rowStep. rewrite E1. cbn [mbind option_bind]. rewrite (f_primary F n Hin). cbn [mbind option_bind].
  destruct (reserveAll_ok r l n (rev (children n)) (place activePath n l r st1) Hr) as (st2 & E2 & Hl2 & Hn2 & Hh2 & Hmono & Hdone);
    [| |by destruct Hl|done|done|].
  - intros c. rewrite list_elem_of_In, <- in_rev, <- list_elem_of_In. intros Hc. split; [done|].
    change (childLane st1 !! nodeId c = None). rewrite Ec. apply eq_None_not_Some.
    intros (i & p & d & Hi & Hp & Hd & E & _)%(ok_reserved _ _ Hnodes).
    assert (p ∈ all) as Hpin by by eapply list_elem_of_lookup_2.
    rewrite (parent_unique _ _ _ _ Hpin Hin Hd Hc E) in Hp. destruct (same_id _ _ _ _ Hp Hr eq_refl). lia.
  - rewrite map_rev. apply NoDup_ListNoDup, NoDup_rev, NoDup_ListNoDup, (f_kids F n Hin).
  - exists (freeEnded r st2). rewrite E2. split; [done|]. split_and!.
    + by apply free_ok.
    + by apply free_nodes.
    + done.
    + intros id (i & p & c & Hi & Hp & Hc & <- & Hne). change (is_Some (childLane st2 !! nodeId c)).
      destruct (decide (i = r)) as [-> | ?].
      * assert (p = n) as -> by congruence. apply Hdone; [|done]. by rewrite list_elem_of_In, <- in_rev, <- list_elem_of_In.
      * apply Hmono. change (is_Some (childLane st1 !! nodeId c)). rewrite Ec. apply Hres. exists i, p, c. split_and!; try done. lia.
Qed.

Lemma rowLoop_ok pre rest st :
  all = pre ++ rest → rowInv (length pre) st →
  ∃ st', rowLoop activePath lastRow parentOf primaryChildOf (length pre) rest st = Some st' ∧ rowInv (length all) st'.
Proof.
  revert pre st. induction rest as [|n rest IH]; intros pre st Hall Hinv.
  - exists st. split; [done|]. by rewrite Hall, app_nil_r.
  - assert (all !! length pre = Some n) as Hr by (rewrite Hall; by apply list_lookup_middle).
    destruct (rowStep_ok _ n st Hr Hinv) as (st1 & E & Hinv1). cbn [rowLoop]. rewrite E. cbn [mbind option_bind].
    specialize (IH (pre ++ [n]) st1). rewrite length_app, Nat.add_1_r in IH. apply IH; [|done].
    by rewrite <- app_assoc.
Qed.

Lemma start_inv : rowInv 0 (mkLanes [] [] [] ∅ ∅ ∅).
Proof.
  split_and!.
  - split; [constructor|]. by intros lin ?%not_elem_of_nil.
  - split; try done.
    + intros i n _. simpl. rewrite lookup_empty. split; [by intros []|lia].
    + intros id [x Hx]. done.
    + by intros f ?%not_elem_of_nil.
  - by intros lin ?%not_elem_of_nil.
  - intros id (i & ? & ? & ? & _). lia.
Qed.

(** The nodes of a primary chain are on one lane, which ends at a dot. *)
Lemma chain_dot st h l e :
  rowInv (length all) st → h ∈ all → nodeLane st !! nodeId h = Some l → lastRow (nodeId h) = Some e →
  (∀ n i, all !! i = Some n → primaryOf n = None → lastRow (nodeId n) = Some i) →
  ∃ n, all !! e = Some n ∧ nodeLane st !! nodeId n = Some l.
Proof.
  intros (_ & Hnodes & _) Hh Hl He Hend. pose proof Hh as [i Hi]%list_elem_of_lookup.
  remember (length all - i) as k eqn:Hk. assert (length all - i ≤ k) as Hle by lia. clear Hk.
  revert h i Hh Hi Hl He Hle. induction k as [|k IH]; intros h i Hh Hi Hl He Hle.
  { apply lookup_lt_Some in Hi. lia. }
  destruct (primaryOf h) as [pc|] eqn:Ep.
  - destruct (primaryChild_in _ _ _ Ep) as (c & Hc & <-). pose proof (f_closed F _ _ Hh Hc) as Hcall.
    pose proof Hcall as [j Hj]%list_elem_of_lookup. pose proof (f_later F _ _ _ _ Hi Hj Hc).
    apply (IH c j); [done|done| | |lia].
    + rewrite (ok_primary _ _ Hnodes h c Hh Hc Ep); [done|]. apply (ok_placed _ _ Hnodes j c Hj). by eapply lookup_lt_Some.
    + by rewrite (f_chain F h c Hh Hc Ep).
  - pose proof (Hend h i Hi Ep). exists h. split; [congruence|done].
Qed.

End loop.

(** ** The maps of a chronological tree *)

(** Ids are distinct and not empty, and a message is older than its answers. *)
Record chronological (compare : string → string → comparison) (t : HistoryTree) : Prop := {
  chr_ids : NoDup (map nodeId (treeRows t));
  chr_named n : n ∈ treeRows t → nodeId n ≠ "";
  chr_order n c : n ∈ treeRows t → c ∈ children n → nodeBefore compare n c = true
}.

Lemma rowsOf_closed n p c : p ∈ rowsOf n → c ∈ children p → c ∈ rowsOf n.
Proof.
  induction n as [n IH] using node_ind. rewrite rowsOf_unfold. rewrite Forall_forall in IH.
  intros [-> | (d & Hd & Hp)%elem_of_concat_map]%elem_of_cons Hc; right; apply elem_of_concat_map.
  - exists c. split; [done|]. rewrite rowsOf_unfold. by left.
  - exists d. split; [done|]. by apply (IH d).
Qed.

Lemma rowsBelow_closed cs p c : p ∈ rowsBelow cs → c ∈ children p → c ∈ rowsBelow cs.
Proof.
  intros (d & Hd & Hp)%elem_of_concat_map Hc. apply elem_of_concat_map. exists d. split; [done|]. by eapply rowsOf_closed.
Qed.

Lemma rowsOf_child n m : m ∈ rowsOf n → m = n ∨ ∃ p, p ∈ rowsOf n ∧ m ∈ children p.
Proof.
  induction n as [n IH] using node_ind. rewrite rowsOf_unfold. rewrite Forall_forall in IH.
  intros [-> | (d & Hd & Hm)%elem_of_concat_map]%elem_of_cons; [by left|right].
  destruct (IH d Hd Hm) as [-> | (p & Hp & Hc)].
  - exists n. split; [by left|done].
  - exists p. split; [|done]. right. apply elem_of_concat_map. by exists d.
Qed.

Lemma rowsBelow_ids cs : NoDup (map nodeId (rowsBelow cs)) → NoDup (map nodeId cs).
Proof.
  induction cs as [|c cs IH]; [done|]. unfold rowsBelow. simpl. rewrite map_app. intros (Hc & Hd & Hcs)%NoDup_app.
  apply NoDup_cons. split; [|by apply IH]. intros (d & E & Hin)%list_elem_of_fmap.
  apply (Hd (nodeId c)).
  - rewrite rowsOf_unfold. by left.
  - rewrite E. apply list_elem_of_fmap_2, elem_of_concat_map. exists d. split; [done|]. rewrite rowsOf_unfold. by left.
Qed.

Lemma rowsBelow_one cs d : NoDup (map nodeId (rowsBelow cs)) → d ∈ cs → NoDup (map nodeId (rowsOf d)).
Proof.
  intros Hb (l1 & l2 & ->)%list_elem_of_split. unfold rowsBelow in Hb.
  rewrite map_app, concat_app, map_app in Hb. apply NoDup_app in Hb as (_ & _ & Hb). cbn [map concat] in Hb.
  rewrite map_app in Hb. by apply NoDup_app in Hb as (Hb & _).
Qed.

Lemma rowsOf_kids n p : NoDup (map nodeId (rowsOf n)) → p ∈ rowsOf n → NoDup (map nodeId (children p)).
Proof.
  induction n as [n IH] using node_ind. rewrite rowsOf_unfold. rewrite Forall_forall in IH.
  intros [_ Hb]%NoDup_cons [-> | (d & Hd & Hp)%elem_of_concat_map]%elem_of_cons; [by apply rowsBelow_ids|].
  apply (IH d Hd); [|done]. by apply (rowsBelow_one (children n)).
Qed.

Lemma parentPairs_keys par n : map fst (parentPairs par n) = map nodeId (rowsOf n).
Proof.
  revert par. induction n as [n IH] using node_ind. intros par. rewrite rowsOf_unfold. destruct n as [i t ts d cs ss l].
  simpl in *. f_equal. induction IH as [|c cs Hc _ IHcs]; [done|]. simpl. by rewrite !map_app, Hc, IHcs.
Qed.

Lemma parentPairs_child par n p c : p ∈ rowsOf n → c ∈ children p → (nodeId c, Some (nodeId p)) ∈ parentPairs par n.
Proof.
  revert par. induction n as [n IH] using node_ind. intros par. rewrite rowsOf_unfold. rewrite Forall_forall in IH.
  assert (parentPairs par n = (nodeId n, par) :: concat (map (parentPairs (Some (nodeId n))) (children n))) as -> by (by destruct n).
  intros [-> | (d & Hd & Hp)%elem_of_concat_map]%elem_of_cons Hc; right; apply elem_of_concat_map.
  - exists c. split; [done|]. destruct c. by left.
  - exists d. split; [done|]. by apply (IH d).
Qed.

Section facts.
  Context (compare : string → string → comparison) `{!LocaleCompare compare} (activePath : gset string) (t : HistoryTree)
    (C : chronological compare t).

Let all := flatRows compare t.

Lemma all_rows : all ≡ₚ treeRows t.
Proof. apply sort_by_perm. Qed.

Lemma all_ids : NoDup (map nodeId all).
Proof. rewrite all_rows. apply (chr_ids _ _ C). Qed.

Lemma all_closed p c : p ∈ all → c ∈ children p → c ∈ all.
Proof. rewrite all_rows. apply rowsBelow_closed. Qed.

Lemma all_later i j p c : all !! i = Some p → all !! j = Some c → c ∈ children p → i < j.
Proof.
  intros Hi Hj Hc. assert (nodeBefore compare p c = true) as Hb.
  { apply (chr_order _ _ C); [|done]. rewrite <- all_rows. by eapply list_elem_of_lookup_2. }
  apply (nodeBefore_not_le compare) in Hb. destruct (decide (i < j)) as [?|Hn]; [done|]. exfalso. apply Hb.
  destruct (decide (i = j)) as [-> | Hne].
  - assert (p = c) as -> by congruence. pose proof (nodeBefore_le compare c c) as H. revert H. destruct (nodeBefore compare c c); intros H; exact H.
  - pose proof (flatRows_sorted compare t) as Hs. fold all in Hs.
    rewrite <- (take_drop_middle _ _ _ Hi) in Hs. eapply StronglySorted_app_1_elem_of; [exact Hs| |by left].
    apply list_elem_of_lookup. exists j. rewrite lookup_take_lt by lia. done.
Qed.

Lemma parents_lookup id v :
  (id, v) ∈ concat (map (parentPairs None) (roots t)) → parentsById t !! id = Some v.
Proof.
  intros Hin. apply (foldl_insert_in fst snd _ ∅ (id, v)); [|done].
  assert (map fst (concat (map (parentPairs None) (roots t))) = map nodeId (treeRows t)) as ->; [|apply (chr_ids _ _ C)].
  unfold treeRows. clear. generalize (roots t). intros rs. induction rs as [|r rs IH]; [done|]. cbn [map concat]. by rewrite !map_app, parentPairs_keys, IH.
Qed.

Lemma all_parent p c : p ∈ all → c ∈ children p → parentsById t !! nodeId c = Some (Some (nodeId p)).
Proof.
  rewrite all_rows. intros (r & Hr & Hp)%elem_of_concat_map Hc. apply parents_lookup, elem_of_concat_map.
  exists r. split; [done|]. by apply parentPairs_child.
Qed.

Lemma all_root n : n ∈ all → parentsById t !! nodeId n = Some None ∨ ∃ p, p ∈ all ∧ n ∈ children p.
Proof.
  rewrite all_rows. intros (r & Hr & Hn)%elem_of_concat_map. destruct (rowsOf_child _ _ Hn) as [-> | (p & Hp & Hc)].
  - left. apply parents_lookup, elem_of_concat_map. exists r. split; [done|]. destruct r. by left.
  - right. exists p. split; [|done]. rewrite all_rows. apply elem_of_concat_map. by exists r.
Qed.

Lemma all_kids n : n ∈ all → NoDup (map nodeId (children n)).
Proof.
  rewrite all_rows. intros (r & Hr & Hn)%elem_of_concat_map. apply (rowsOf_kids r); [|done].
  apply (rowsBelow_one (roots t)); [apply (chr_ids _ _ C)|done].
Qed.

Lemma all_primary n : n ∈ all → primaryById activePath all !! nodeId n = Some (primaryChild activePath n).
Proof.
  intros Hn. apply (foldl_insert_in fst snd _ ∅ (nodeId n, primaryChild activePath n)).
  - rewrite map_map. simpl. apply all_ids.
  - by apply (list_elem_of_fmap_2 (λ n, (nodeId n, primaryChild activePath n))).
Qed.

Lemma all_row i n : all !! i = Some n → rowsById all !! nodeId n = Some i.
Proof.
  intros Hi. apply (foldl_insert_in fst snd _ ∅ (nodeId n, i)).
  - assert (map fst (imap (λ i n, (nodeId n, i)) all) = map nodeId all) as ->; [|apply all_ids].
    apply list_eq. intros k. rewrite !list_lookup_fmap, list_lookup_imap. by destruct (all !! k).
  - apply elem_of_lookup_imap. by exists i, n.
Qed.

(** ** The primary chain *)

Let primaryOf := primaryById activePath all.
Let rowOf := rowsById all.

Lemma chain_step f n c :
  n ∈ all → c ∈ children n → primaryChild activePath n = Some (nodeId c) →
  chainLastRow (S f) primaryOf rowOf (nodeId n) = chainLastRow f primaryOf rowOf (nodeId c).
Proof.
  intros Hn Hc Hp. cbn [chainLastRow]. unfold primaryOf at 1. rewrite all_primary by done. rewrite Hp.
  unfold falsyId. rewrite bool_decide_eq_false_2; [done|]. apply (chr_named _ _ C). rewrite <- all_rows. by eapply all_closed.
Qed.

Lemma chain_end f n i :
  all !! i = Some n → primaryChild activePath n = None → chainLastRow (S f) primaryOf rowOf (nodeId n) = Some i.
Proof.
  intros Hi Hp. assert (n ∈ all) as Hn by by eapply list_elem_of_lookup_2.
  cbn [chainLastRow]. unfold primaryOf. rewrite all_primary, Hp by done. by apply all_row.
Qed.

Lemma chain_total k i n :
  all !! i = Some n → length all - i ≤ k →
  ∃ e, i ≤ e ∧ ∀ extra, chainLastRow (k + extra) primaryOf rowOf (nodeId n) = Some e.
Proof.
  revert i n. induction k as [|k IH]; intros i n Hi Hk; [apply lookup_lt_Some in Hi; lia|].
  assert (n ∈ all) as Hn by by eapply list_elem_of_lookup_2.
  destruct (primaryChild activePath n) as [pc|] eqn:Ep.
  - destruct (primaryChild_in _ _ _ Ep) as (c & Hc & <-). pose proof (all_closed _ _ Hn Hc) as [j Hj]%list_elem_of_lookup.
    pose proof (all_later _ _ _ _ Hi Hj Hc). destruct (IH j c Hj) as (e & Hle & He); [lia|].
    exists e. split; [lia|]. intros extra. cbn [plus]. by rewrite (chain_step _ n c).
  - exists i. split; [lia|]. intros extra. cbn [plus]. by apply chain_end.
Qed.

Lemma all_facts fuel : length all ≤ fuel → layoutFacts activePath all (chainLastRow fuel primaryOf rowOf) (parentsById t) primaryOf.
Proof.
  intros Hfuel. split.
  - apply all_closed.
  - apply all_parent.
  - apply all_root.
  - apply all_primary.
  - apply all_later.
  - intros i n Hi. destruct (chain_total fuel i n Hi) as (e & ? & He); [lia|]. exists e. by rewrite <- (Nat.add_0_r fuel).
  - intros n c Hn Hc Hp. pose proof Hn as [i Hi]%list_elem_of_lookup. pose proof (all_closed _ _ Hn Hc) as [j Hj]%list_elem_of_lookup.
    pose proof (all_later _ _ _ _ Hi Hj Hc). pose proof (lookup_lt_Some _ _ _ Hj).
    destruct fuel as [|f]; [lia|]. rewrite (chain_step f n c) by done.
    destruct (chain_total (length all - j) j c Hj) as (e & _ & He); [lia|].
    pose proof (He (S f - (length all - j))) as H1. pose proof (He (f - (length all - j))) as H2.
    replace (length all - j + (S f - (length all - j))) with (S f) in H1 by lia.
    replace (length all - j + (f - (length all - j))) with f in H2 by lia. congruence.
  - apply all_kids.
Qed.
End facts.

(** ** The property *)

Lemma max_lane (m : gmap string nat) id l :
  m !! id = Some l → l < map_fold (λ _ l acc, Nat.max (S l) acc) 0 m.
Proof. intros Hid. rewrite (map_fold_delete_L _ _ id l); [lia|intros; lia|done]. Qed.

(** C28. The layout of a chronological tree always exists and is sound: the rows
    are the nodes in chronological order; two vertical runs on one lane never
    overlap; every dot lies on a run of its own lane and inside the graph; every
    run ends at a dot; a primary child, so every node of the active path, stays
    on its parent's lane; and every fork goes to the right and lands on the start
    of a run. *)
Theorem computeLaneLayout_sound compare `{!LocaleCompare compare} activePath fuel t :
  chronological compare t → length (treeRows t) ≤ fuel →
  ∃ L, computeLaneLayout compare activePath fuel t = Some L
    ∧ map node (nodes L) = flatRows compare t
    ∧ StronglySorted ends_before (lineages L)
    ∧ (∀ i pn, nodes L !! i = Some pn → row pn = i ∧ lane pn < laneCount L
         ∧ ∃ lin, lin ∈ lineages L ∧ lineageLane lin = lane pn ∧ startHalf lin ≤ 2 * i ∧ i ≤ endRow lin)
    ∧ (∀ lin, lin ∈ lineages L → ∃ pn, nodes L !! endRow lin = Some pn ∧ lane pn = lineageLane lin)
    ∧ (∀ p c, p ∈ nodes L → c ∈ nodes L → node c ∈ children (node p) →
         primaryChild activePath (node p) = Some (nodeId (node c)) → lane c = lane p)
    ∧ (∀ f, f ∈ forks L → fromLane f < toLane f ∧
         ∃ lin, lin ∈ lineages L ∧ lineageLane lin = toLane f ∧ startHalf lin = toHalf f).
Proof.
  intros C Hf. unfold computeLaneLayout. case_decide as Hnil.
  { eexists. split; [done|]. simpl. rewrite Hnil. split_and!; try done; try by constructor.
    - by intros lin ?%not_elem_of_nil.
    - by intros p c ?%not_elem_of_nil.
    - by intros f ?%not_elem_of_nil. }
  set (all := flatRows compare t) in *.
  assert (length all ≤ fuel) as Hfuel by (unfold all; by rewrite (all_rows compare t)).
  pose proof (all_facts compare activePath t C fuel Hfuel) as F. pose proof (all_ids compare t C) as Hids. fold all in F, Hids.
  destruct (rowLoop_ok activePath all _ _ _ Hids F [] all _ eq_refl (start_inv activePath all _)) as (st & E & Hinv).
  cbn [length] in E. rewrite E. cbn [mbind option_bind]. eexists. split; [done|]. cbn [nodes lineages forks laneCount].
  pose proof Hinv as (Hlanes & Hnodes & Hheads & _).
  assert (map node (placedNodes st) = all) as Hrows by (by rewrite (ok_rows _ _ _ _ _ Hnodes), firstn_all).
  assert (∀ i pn, placedNodes st !! i = Some pn → all !! i = Some (node pn)) as Hat.
  { intros i pn Hi. rewrite <- Hrows, list_lookup_fmap, Hi. done. }
  split_and!; [done|apply (ok_apart _ _ Hlanes)| | | |apply (ok_forks _ _ _ _ _ Hnodes)].
  - intros i pn Hi. destruct (ok_dots _ _ _ _ _ Hnodes i pn Hi) as (Hrow & Hl & _). split_and!; [done|by eapply max_lane|].
    destruct (ok_covered _ _ _ _ _ Hnodes i (node pn) (lane pn) (Hat i pn Hi)) as (lin & ? & ? & ? & He).
    { unfold assigned. by rewrite Hl. }
    exists lin. split_and!; [done|done|done|]. destruct (f_last _ _ _ _ _ F i (node pn) (Hat i pn Hi)) as (e & He' & Hle).
    rewrite He' in He. simplify_eq. done.
  - intros lin Hlin. destruct (Hheads lin Hlin) as (h & Hh & Has & Hlast).
    assert (nodeLane st !! nodeId h = Some (lineageLane lin)) as Hl.
    { pose proof Hh as [k Hk]%list_elem_of_lookup. pose proof (lookup_lt_Some _ _ _ Hk) as Hlt.
      destruct (proj2 (ok_placed _ _ _ _ _ Hnodes k h Hk) Hlt) as [l Hl]. unfold assigned in Has. rewrite Hl in Has. congruence. }
    destruct (chain_dot activePath all _ _ _ F st h _ _ Hinv Hh Hl Hlast) as (n & Hn & Hln).
    { intros n k Hk Hp. destruct fuel as [|f]; [apply lookup_lt_Some in Hk; lia|]. by apply (chain_end compare activePath t C). }
    rewrite <- Hrows, list_lookup_fmap in Hn. destruct (placedNodes st !! endRow lin) as [pn|] eqn:Epn; [|done].
    exists pn. split; [done|]. simpl in Hn. simplify_eq. destruct (ok_dots _ _ _ _ _ Hnodes _ pn Epn) as (_ & Hlp & _). congruence.
  - intros p c Hp Hc Hkid Hprim. apply list_elem_of_lookup in Hp as [i Hi], Hc as [j Hj].
    destruct (ok_dots _ _ _ _ _ Hnodes i p Hi) as (_ & Hlp & _). destruct (ok_dots _ _ _ _ _ Hnodes j c Hj) as (_ & Hlc & _).
    assert (node p ∈ all) as Hpin by by eapply list_elem_of_lookup_2, Hat.
    pose proof (ok_primary _ _ _ _ _ Hnodes (node p) (node c) Hpin Hkid Hprim) as Heq.
    rewrite Hlp, Hlc in Heq. specialize (Heq ltac:(by eexists)). congruence.
Qed.

(** ** A fork *)

(** The order of the code units is such an order. *)
#[export] Instance string_locale : LocaleCompare String.compare.
Proof.
  split; [intros; apply String.compare_antisym|].
  intros a. induction a as [|x a IH]; intros [|y b] [|z c]; simpl; try done.
  unfold Ascii.compare. destruct (N.compare_spec (N_of_ascii x) (N_of_ascii y)), (N.compare_spec (N_of_ascii y) (N_of_ascii z)),
    (N.compare_spec (N_of_ascii x) (N_of_ascii z)); try done; try lia. apply IH.
Qed.

Definition demo_node (id ts : string) (cs : list HistoryNode) : HistoryNode := mkHistoryNode id "" ts false cs [] None.
Definition demo_history : HistoryTree :=
  mkHistoryTree [demo_node "u1" "1" [demo_node "u2" "2" [demo_node "u4" "4" []]; demo_node "u3" "3" []; demo_node "u5" "5" []]].

Lemma demo_chronological : chronological String.compare demo_history.
Proof.
  split.
  - apply (bool_decide_unpack _). vm_compute. exact I.
  - apply Forall_forall. vm_compute. by repeat constructor.
  - assert (Forall (λ n, Forall (λ c, nodeBefore String.compare n c = true) (children n)) (treeRows demo_history)) as H.
    { apply (bool_decide_unpack _). vm_compute. exact I. }
    intros n c Hn Hc. rewrite Forall_forall in H. specialize (H n Hn). rewrite Forall_forall in H. by apply H.
Qed.

Lemma computeLaneLayout_sound_witness :
  chronological String.compare demo_history
  ∧ ∃ L, computeLaneLayout String.compare {["u2"]} 5 demo_history = Some L ∧ StronglySorted ends_before (lineages L).
Proof.
  split; [apply demo_chronological|].
  assert (length (treeRows demo_history) ≤ 5) as Hf by (apply Nat.leb_le; vm_compute; reflexivity).
  destruct (computeLaneLayout_sound String.compare {["u2"]} 5 demo_history demo_chronological Hf) as (L & HL & _ & Hs & _).
  exists L. split; [exact HL|exact Hs].
Defined.

(** The active answer stays on its parent's lane; the newest of the others is next to it. *)
Example demo_lanes :
  (λ L, (map lane (nodes L), map (λ f, (fromRow f, toLane f)) (forks L), laneCount L))
    <$> computeLaneLayout String.compare {["u2"]} 5 demo_history
  = Some ([0; 0; 2; 0; 1], [(0, 1); (0, 2)], 3).
Proof. vm_compute. reflexivity. Qed.
