(* ===== verification/Verbs.v ===== *)
(** * The verbs

    [client.ts], the verb methods, and [host/connection-verbs.ts] with the
    request dispatch of [host/connection.ts]: what each method sends, and what
    the host does with one request.  The daemon and the session behind the
    handlers are the parameter [seam]: the outcome of each call.  The transitions
    (openSession, newSession, detach) are modelled as they run in their turn; the
    line that serialises them is in [Connection]. *)

From S2P Require Export Client.

(** ** The requests of the client *)

(** [if (c) body[k] = v] *)
Definition when (c : bool) (k : string) (v : json) : list (string * json) := if c then [(k, v)] else [].

(** An optional argument, [undefined] when it is left out. *)
Definition given (v : json) : bool := negb (bool_decide (v = JUndef)).

Definition prompt (text : string) (images model thinkingLevel : json) : list (string * json) :=
  [("verb", JStr "prompt"); ("text", JStr text)]
  ++ when (match images with JArr (_ :: _) => true | _ => false end) "images" images
  ++ when (truthy model) "model" model
  ++ when (given thinkingLevel) "thinkingLevel" thinkingLevel.
Definition abort : list (string * json) := [("verb", JStr "abort")].
Definition discardSteer : list (string * json) := [("verb", JStr "discardSteer")].
Definition setPinnedModels (models : list json) : list (string * json) := [("verb", JStr "setPinnedModels"); ("models", JArr models)].
Definition renameSession (name : string) : list (string * json) := [("verb", JStr "renameSession"); ("name", JStr name)].
Definition setLabel (entryId label : string) : list (string * json) :=
  [("verb", JStr "setLabel"); ("entryId", JStr entryId); ("label", JStr label)].
Definition navigate (entryId : option string) : list (string * json) := [("verb", JStr "navigate"); ("entryId", of_opt_str entryId)].
Definition recoverTurn : list (string * json) := [("verb", JStr "recoverTurn")].
Definition openSession (projectId stem : string) (cursor : json) : list (string * json) :=
  if truthy cursor
  then [("verb", JStr "openSession"); ("projectId", JStr projectId); ("stem", JStr stem); ("cursor", cursor)]
  else [("verb", JStr "openSession"); ("projectId", JStr projectId); ("stem", JStr stem)].
Definition newSession (projectId text operationId : string) (images model thinkingLevel : json) : list (string * json) :=
  [("verb", JStr "newSession"); ("projectId", JStr projectId); ("text", JStr text);
   ("operationId", JStr operationId); ("images", images); ("model", model); ("thinkingLevel", thinkingLevel)].
Definition listSessions (projectId : string) (max cursor : json) : list (string * json) :=
  [("verb", JStr "listSessions"); ("projectId", JStr projectId)] ++ when (given max) "max" max
  ++ when (negb (nullish cursor)) "cursor" cursor.
Definition listActiveSessions : list (string * json) := [("verb", JStr "listActiveSessions")].
Definition getDaemonInfo : list (string * json) := [("verb", JStr "getDaemonInfo")].
Definition asrCredentials : list (string * json) := [("verb", JStr "asrCredentials")].
Definition textPolish (text : string) : list (string * json) := [("verb", JStr "textPolish"); ("text", JStr text)].
Definition pull (requests : list json) : list (string * json) := [("verb", JStr "pull"); ("requests", JArr requests)].
Definition detach : list (string * json) := [("verb", JStr "detach")].
Definition closeSession (projectId stem : string) : list (string * json) :=
  [("verb", JStr "closeSession"); ("projectId", JStr projectId); ("stem", JStr stem)].
Definition archiveSession (projectId stem : string) : list (string * json) :=
  [("verb", JStr "archiveSession"); ("projectId", JStr projectId); ("stem", JStr stem)].
Definition listFiles (projectId prefix : string) : list (string * json) :=
  [("verb", JStr "listFiles"); ("projectId", JStr projectId); ("prefix", JStr prefix)].
Definition readFile (path : string) (state : json) : list (string * json) :=
  if given state then [("verb", JStr "readFile"); ("path", JStr path); ("state", state)]
  else [("verb", JStr "readFile"); ("path", JStr path)].
Definition listDirectory (path : string) (state : json) : list (string * json) :=
  if given state then [("verb", JStr "listDirectory"); ("path", JStr path); ("state", state)]
  else [("verb", JStr "listDirectory"); ("path", JStr path)].
Definition gitShow (commit : string) : list (string * json) := [("verb", JStr "gitShow"); ("commit", JStr commit)].
Definition gitBase (directory commit : string) : list (string * json) :=
  [("verb", JStr "gitBase"); ("directory", JStr directory); ("commit", JStr commit)].
Definition gitDiff (directory oldState newState : string) : list (string * json) :=
  [("verb", JStr "gitDiff"); ("directory", JStr directory); ("old", JStr oldState); ("new", JStr newState)].
Definition console (level : string) (args : list json) : list (string * json) :=
  [("verb", JStr "console"); ("level", JStr level); ("args", JArr args)].

(** ** The host *)

Definition MAX_IMAGES_PER_MESSAGE : nat := 5.
Definition MAX_IMAGE_BASE64_LENGTH : Z := 4718592.
Definition MAX_PINNED_MODELS : nat := 64.
Definition THINKING_LEVEL_NAMES : list string := ["off"; "minimal"; "low"; "medium"; "high"; "xhigh"; "max"].

Record SessionTarget := mkTarget { targetProject : string; targetStem : string; targetSession : string; targetCwd : string }.

(** What a handler may ask of the attached session, and of the daemon. *)
Inductive SeamCall :=
| CommandPrompt (t : SessionTarget) (text images model thinkingLevel : json)
| CommandAbort (t : SessionTarget)
| CommandDiscardSteer (t : SessionTarget)
| CommandRename (t : SessionTarget) (name : json)
| CommandSetLabel (t : SessionTarget) (entryId label : json)
| CommandNavigate (t : SessionTarget) (entryId : json)
| CommandRecoverTurn (t : SessionTarget)
| CommandPull (t : SessionTarget) (requests : json)
| DaemonGitShow (commit : json) (cwd : string)
| DaemonCloseSession (projectId stem : json)
| DaemonArchiveSession (projectId stem : json)
| DaemonListSessions (projectId max cursor : json)
| DaemonListActiveSessions
| DaemonGetDaemonInfo
| DaemonSetPinnedModels (models : json)
| DaemonAsrCredentials
| DaemonTextPolish (text : json)
| DaemonListFiles (prefix projectId : json)
| DaemonReadFile (path state : json)
| DaemonListDirectory (path state : json)
| DaemonGitBase (directory commit : json)
| DaemonGitDiff (directory old new : json)
| DaemonOpenSession (projectId stem cursor : json)
| DaemonNewSession (projectId text images model thinkingLevel : json)
| DaemonDetach.

Inductive HostOutput :=
| Called (c : SeamCall)
| Frame (v : json)
| SessionsChanged (projectId : string)
| UnhandledRejection.

(** What the request sees of its connection. *)
Record VerbContext := mkContext { attached : option SessionTarget; devMode : bool; attachmentGeneration : Z; disposed : bool }.

(** A handler either throws, or makes at most one call and answers with its result. *)
Inductive Plan :=
| Throws (message : string)
| Asks (c : SeamCall) (answer : json → list HostOutput)
| Answers (outputs : list HostOutput).

Definition sendReply (id : json) (ok : bool) (error : json) : HostOutput :=
  Frame (object ([("id", id); ("ok", JBool ok)] ++ when (truthy error) "error" error)).
Definition acknowledge (id : json) (_ : json) : list HostOutput := [sendReply id true JUndef].
(** [{ id, ok: true, ...result }] *)
Definition spreadReply (id result : json) : list HostOutput :=
  [Frame (JObj (own result ∪ own (object [("id", id); ("ok", JBool true)])))].
Definition fieldsReply (id : json) (fields : list (string * json)) : list HostOutput :=
  [Frame (object ([("id", id); ("ok", JBool true)] ++ fields))].
Definition outcomeReply (id result : json) : list HostOutput := [sendReply id (truthy (get result "ok")) (get result "error")].

(** [typeof v !== "string" || v === ""] *)
Definition blank (v : json) : bool := match v with JStr s => bool_decide (s = "") | _ => true end.
(** [typeof v !== "string" || v.trim() === ""] *)
Definition blankText (v : json) : bool := match v with JStr s => bool_decide (trim s = "") | _ => true end.

Definition withTarget (ctx : VerbContext) (k : SessionTarget → Plan) : Plan :=
  match attached ctx with Some t => k t | None => Throws "no session attached" end.
Definition reject (c : bool) (message : string) (k : Plan) : Plan := if c then Throws message else k.

Definition badImage (i : json) : bool :=
  negb (is_object i)
  || match get i "data" with JStr s => (MAX_IMAGE_BASE64_LENGTH <? Z.of_nat (slength s))%Z | _ => true end
  || negb (is_string (get i "mimeType")).
Definition badImages (images : json) : bool :=
  given images && match images with
                  | JArr l => (MAX_IMAGES_PER_MESSAGE <? length l) || existsb badImage l
                  | _ => true
                  end.
Definition badModel (model : json) : bool :=
  given model && (negb (is_object model) || blank (get model "provider") || blank (get model "modelId")).
Definition badLevel (level : json) : bool :=
  given level && negb (existsb (eq_str level) THINKING_LEVEL_NAMES).
Definition badPin (entry : json) : bool :=
  negb (is_object entry) || blank (get entry "provider") || blank (get entry "id") || badLevel (get entry "thinkingLevel").

(** ** The handlers *)

Definition handlePrompt (ctx : VerbContext) (m : json) : Plan :=
  withTarget ctx (λ t,
  reject (negb (is_string (get m "text"))) "Missing `text`" (
  reject (badImages (get m "images")) "Invalid `images`" (
  reject (badModel (get m "model")) "Invalid `model`" (
  reject (given (get m "thinkingLevel") && negb (is_string (get m "thinkingLevel"))) "Invalid `thinkingLevel`" (
  reject (badLevel (get m "thinkingLevel")) "Invalid `thinkingLevel`" (
  Asks (CommandPrompt t (get m "text") (get m "images") (get m "model") (get m "thinkingLevel")) (acknowledge (get m "id")))))))).
Definition handleAbort (ctx : VerbContext) (m : json) : Plan :=
  withTarget ctx (λ t, Asks (CommandAbort t) (acknowledge (get m "id"))).
Definition handleDiscardSteer (ctx : VerbContext) (m : json) : Plan :=
  withTarget ctx (λ t, Asks (CommandDiscardSteer t) (acknowledge (get m "id"))).
Definition handleRename (ctx : VerbContext) (m : json) : Plan :=
  withTarget ctx (λ t,
  reject (negb (is_string (get m "name"))) "Missing `name`" (
  Asks (CommandRename t (get m "name")) (λ _, [sendReply (get m "id") true JUndef; SessionsChanged (targetProject t)]))).
Definition handleSetLabel (ctx : VerbContext) (m : json) : Plan :=
  withTarget ctx (λ t,
  reject (negb (is_string (get m "entryId"))) "Missing `entryId`" (
  reject (negb (is_string (get m "label"))) "Missing `label`" (
  Asks (CommandSetLabel t (get m "entryId") (get m "label")) (acknowledge (get m "id"))))).
Definition handleNavigate (ctx : VerbContext) (m : json) : Plan :=
  withTarget ctx (λ t,
  reject (negb (bool_decide (get m "entryId" = JNull)) && negb (is_string (get m "entryId"))) "Missing `entryId`" (
  Asks (CommandNavigate t (get m "entryId")) (acknowledge (get m "id")))).
Definition handleRecoverTurn (ctx : VerbContext) (m : json) : Plan :=
  withTarget ctx (λ t, Asks (CommandRecoverTurn t) (λ action, fieldsReply (get m "id") [("action", action)])).
Definition handleGitShow (ctx : VerbContext) (m : json) : Plan :=
  reject (blank (get m "commit")) "Missing `commit`" (
  withTarget ctx (λ t, Asks (DaemonGitShow (get m "commit") (targetCwd t)) (spreadReply (get m "id")))).
Definition handlePull (ctx : VerbContext) (m : json) : Plan :=
  reject (negb (is_array (get m "requests"))) "Missing `requests` array" (
  withTarget ctx (λ t, Asks (CommandPull t (get m "requests")) (λ values,
    fieldsReply (get m "id")
      [("values", JArr (map (λ v, object [("entryId", get v "entryId"); ("fieldPath", get v "fieldPath"); ("value", get v "value")])
                            (elements_of values)));
       ("generation", JInt (attachmentGeneration ctx))]))).
Definition handleCloseSession (ctx : VerbContext) (m : json) : Plan :=
  reject (blank (get m "projectId")) "Missing `projectId`" (
  reject (blank (get m "stem")) "Missing `stem`" (
  Asks (DaemonCloseSession (get m "projectId") (get m "stem")) (outcomeReply (get m "id")))).
Definition handleArchiveSession (ctx : VerbContext) (m : json) : Plan :=
  reject (blank (get m "projectId")) "Missing `projectId`" (
  reject (blank (get m "stem")) "Missing `stem`" (
  Asks (DaemonArchiveSession (get m "projectId") (get m "stem")) (outcomeReply (get m "id")))).
Definition handleListSessions (ctx : VerbContext) (m : json) : Plan :=
  reject (blank (get m "projectId")) "Missing `projectId`" (
  Asks (DaemonListSessions (get m "projectId") (get m "max" ?? JUndef) (get m "cursor" ?? JNull)) (λ result,
    fieldsReply (get m "id") ([("sessions", get result "sessions"); ("hasMore", get result "hasMore")]
      ++ when (truthy (get result "nextCursor")) "nextCursor" (get result "nextCursor")))).
Definition handleListActiveSessions (ctx : VerbContext) (m : json) : Plan :=
  Asks DaemonListActiveSessions (λ sessions, fieldsReply (get m "id") [("sessions", sessions)]).
Definition handleGetDaemonInfo (ctx : VerbContext) (m : json) : Plan :=
  Asks DaemonGetDaemonInfo (spreadReply (get m "id")).
Definition handleSetPinnedModels (ctx : VerbContext) (m : json) : Plan :=
  reject (negb (is_array (get m "models"))) "Invalid `models`" (
  reject (MAX_PINNED_MODELS <? length (elements_of (get m "models"))) "Too many pinned models" (
  reject (existsb badPin (elements_of (get m "models"))) "Invalid `models`" (
  Asks (DaemonSetPinnedModels (get m "models")) (λ _, fieldsReply (get m "id") [])))).
Definition handleAsrCredentials (ctx : VerbContext) (m : json) : Plan :=
  Asks DaemonAsrCredentials (λ auth, fieldsReply (get m "id") [("auth", auth)]).
Definition handleTextPolish (ctx : VerbContext) (m : json) : Plan :=
  reject (blankText (get m "text")) "Missing `text`" (
  Asks (DaemonTextPolish (get m "text")) (λ text, fieldsReply (get m "id") [("text", text)])).
Definition handleListFiles (ctx : VerbContext) (m : json) : Plan :=
  reject (negb (is_string (get m "prefix"))) "Missing `prefix`" (
  reject (blank (get m "projectId")) "Missing `projectId`" (
  Asks (DaemonListFiles (get m "prefix") (get m "projectId")) (λ entries, fieldsReply (get m "id") [("entries", entries)]))).
Definition handleReadFile (ctx : VerbContext) (m : json) : Plan :=
  reject (blank (get m "path")) "Missing `path`" (
  reject (given (get m "state") && blank (get m "state")) "Invalid `state`" (
  Asks (DaemonReadFile (get m "path") (get m "state")) (spreadReply (get m "id")))).
Definition handleListDirectory (ctx : VerbContext) (m : json) : Plan :=
  reject (blank (get m "path")) "Missing `path`" (
  reject (given (get m "state") && blank (get m "state")) "Invalid `state`" (
  Asks (DaemonListDirectory (get m "path") (get m "state")) (spreadReply (get m "id")))).
Definition handleGitBase (ctx : VerbContext) (m : json) : Plan :=
  reject (blank (get m "directory")) "Missing `directory`" (
  reject (blank (get m "commit")) "Missing `commit`" (
  Asks (DaemonGitBase (get m "directory") (get m "commit")) (spreadReply (get m "id")))).
Definition handleGitDiff (ctx : VerbContext) (m : json) : Plan :=
  reject (blank (get m "directory")) "Missing `directory`" (
  reject (negb (is_string (get m "old")) || negb (is_string (get m "new"))) "Missing diff states" (
  Asks (DaemonGitDiff (get m "directory") (get m "old") (get m "new")) (spreadReply (get m "id")))).
Definition handleConsole (ctx : VerbContext) (m : json) : Plan :=
  reject (negb (devMode ctx)) "console verb requires --dev mode" (Answers [sendReply (get m "id") true JUndef]).

Definition verbTable : list (string * (VerbContext → json → Plan)) :=
  [("prompt", handlePrompt); ("abort", handleAbort); ("discardSteer", handleDiscardSteer); ("renameSession", handleRename);
   ("setLabel", handleSetLabel); ("navigate", handleNavigate); ("recoverTurn", handleRecoverTurn); ("gitShow", handleGitShow);
   ("pull", handlePull); ("closeSession", handleCloseSession); ("archiveSession", handleArchiveSession);
   ("listSessions", handleListSessions); ("listActiveSessions", handleListActiveSessions); ("getDaemonInfo", handleGetDaemonInfo);
   ("setPinnedModels", handleSetPinnedModels); ("asrCredentials", handleAsrCredentials); ("textPolish", handleTextPolish);
   ("listFiles", handleListFiles); ("readFile", handleReadFile); ("listDirectory", handleListDirectory);
   ("gitBase", handleGitBase); ("gitDiff", handleGitDiff); ("console", handleConsole)].

(** ** Dispatch *)

Definition handleOpenSession (m : json) : Plan :=
  reject (blank (get m "projectId")) "Missing `projectId`" (
  reject (blank (get m "stem")) "Missing `stem`" (
  Asks (DaemonOpenSession (get m "projectId") (get m "stem") (get m "cursor" ?? JNull)) (λ result,
    if truthy (get result "ok") then fieldsReply (get m "id") [("session", get result "session" ?? JNull)]
    else [sendReply (get m "id") false (get result "error")]))).
Definition handleNewSession (m : json) : Plan :=
  reject (blank (get m "projectId")) "Missing `projectId`" (
  reject (blankText (get m "text")) "Missing `text`" (
  reject (blank (get m "operationId")) "Missing `operationId`" (
  reject (given (get m "images") && negb (is_array (get m "images"))) "Invalid `images`" (
  reject (given (get m "model") &&
          (negb (is_object (get m "model")) || negb (is_string (get (get m "model") "provider"))
           || negb (is_string (get (get m "model") "modelId")))) "Invalid `model`" (
  reject (given (get m "thinkingLevel") && negb (is_string (get m "thinkingLevel"))) "Invalid `thinkingLevel`" (
  Asks (DaemonNewSession (get m "projectId") (get m "text") (get m "images") (get m "model") (get m "thinkingLevel")) (λ result,
    if truthy (get result "ok")
    then fieldsReply (get m "id") [("session", get result "session" ?? JNull); ("operationId", get m "operationId")]
    else [sendReply (get m "id") false (get result "error")]))))))).
Definition handleDetach (m : json) : Plan :=
  Asks DaemonDetach (λ _, [sendReply (get m "id") true JUndef]).

(** A transition that reaches its turn after the socket closed is refused. *)
Definition inTurn (ctx : VerbContext) (p : Plan) : Plan := if disposed ctx then Throws "connection closed" else p.

Section dispatch.
  (** The outcome of each call ([inr]: it rejects), and the texts of the errors
      the engine throws and of the keys that are not strings. *)
  Context (seam : SeamCall → json + string) (engineError : string → string) (keyText : json → string).

(** [verbTable[verb]] also finds what an object inherits: called without a
    receiver, [constructor] and [toString] return, the other methods throw, and
    [__proto__] is not a function. *)
Definition inheritedVerbs : list string :=
  ["hasOwnProperty"; "isPrototypeOf"; "propertyIsEnumerable"; "toLocaleString"; "valueOf"; "__proto__";
   "__defineGetter__"; "__defineSetter__"; "__lookupGetter__"; "__lookupSetter__"].
Definition silentVerbs : list string := ["constructor"; "toString"].

Definition propertyKey (v : json) : string := match v with JStr s => s | _ => keyText v end.

Definition lookupVerb (verb : string) : option (VerbContext → json → Plan) :=
  snd <$> List.find (λ kv, bool_decide (kv.1 = verb)) verbTable.

Definition connectionVerbHandler (verb : string) : option (VerbContext → json → Plan) :=
  match lookupVerb verb with
  | Some h => Some h
  | None =>
    if decide (verb ∈ silentVerbs) then Some (λ _ _, Answers [])
    else if decide (verb ∈ inheritedVerbs) then Some (λ _ _, Throws (engineError verb))
    else None
  end.

Definition planOf (ctx : VerbContext) (msg : json) : Plan :=
  let verb := get msg "verb" in
  if eq_str verb "openSession" then inTurn ctx (handleOpenSession msg)
  else if eq_str verb "newSession" then inTurn ctx (handleNewSession msg)
  else if eq_str verb "detach" then inTurn ctx (handleDetach msg)
  else match connectionVerbHandler (propertyKey verb) with
       | Some handler => handler ctx msg
       | None => Throws ("Unknown verb: " +:+ propertyKey verb)
       end.

(** Run a plan, and answer what it throws. *)
Definition runPlan (id : json) (p : Plan) : list HostOutput :=
  match p with
  | Throws message => [sendReply id false (JStr message)]
  | Answers outputs => outputs
  | Asks c answer =>
    Called c :: match seam c with
                | inl result => answer result
                | inr message => [sendReply id false (JStr message)]
                end
  end.

(** One received text.  The properties of [null] are read before the [try]. *)
Definition handleMessage (ctx : VerbContext) (msg : json) : list HostOutput :=
  if nullish msg then [UnhandledRejection] else runPlan (get msg "id") (planOf ctx msg).

(** ** What a request is answered *)

(** No result brings an [id] of its own. *)
Definition resultsAnonymous : Prop := ∀ c v, seam c = inl v → own v !! "id" = None.

Definition replyTo (id : json) (o : HostOutput) : bool :=
  match o with Frame v => bool_decide (get v "id" = id) | _ => false end.
Definition isFrame (o : HostOutput) : bool := match o with Frame _ => true | _ => false end.

(** Exactly one frame, and it has the id. *)
Definition answered (id : json) (os : list HostOutput) : Prop :=
  ∃ o, List.filter isFrame os = [o] ∧ replyTo id o = true.

Definition planAnswers (id : json) (p : Plan) : Prop :=
  match p with
  | Throws _ => True
  | Answers os => answered id os
  | Asks _ answer => ∀ v, own v !! "id" = None → answered id (answer v)
  end.

Lemma answered_reply id ok error os : List.filter isFrame os = [] → answered id (sendReply id ok error :: os).
Proof.
  intros Ho. eexists. simpl. rewrite Ho. split; [done|]. simpl. apply bool_decide_eq_true.
  unfold when. by destruct (truthy error).
Qed.

Lemma answered_object id kvs : assoc_last "id" kvs = Some id → answered id [Frame (object kvs)].
Proof. intros Hk. eexists. split; [done|]. cbn [replyTo]. by rewrite object_get, Hk, bool_decide_eq_true_2. Qed.

Lemma answered_spread id v : own v !! "id" = None → answered id (spreadReply id v).
Proof.
  intros Hv. eexists. split; [done|]. cbn [replyTo get]. rewrite lookup_union_r, object_lookup by done.
  by apply bool_decide_eq_true.
Qed.

Lemma answers_reject id c message k : planAnswers id k → planAnswers id (reject c message k).
Proof. by destruct c. Qed.

Lemma answers_target id ctx k : (∀ t, planAnswers id (k t)) → planAnswers id (withTarget ctx k).
Proof. intros Hk. unfold withTarget. by destruct (attached ctx). Qed.

Create HintDb answers.
#[local] Hint Resolve answers_reject answers_target answered_spread answered_reply : answers.
#[local] Hint Extern 1 (answered _ (fieldsReply _ _)) => apply answered_object; unfold when; repeat case_match; reflexivity : answers.
#[local] Hint Extern 2 (answered _ (acknowledge _ _)) => apply answered_reply; reflexivity : answers.
#[local] Hint Extern 2 (answered _ (outcomeReply _ _)) => apply answered_reply; reflexivity : answers.

Ltac answers := repeat (apply answers_reject || (apply answers_target; intros ?)); cbn [planAnswers]; intros; auto with answers.

Lemma table_answers ctx m : Forall (λ kv, planAnswers (get m "id") (kv.2 ctx m)) verbTable.
Proof.
  unfold verbTable.
  repeat (apply Forall_cons; split; [cbn [snd]; unfold handleListActiveSessions, handleGetDaemonInfo, handleAsrCredentials; answers|]).
  constructor.
Qed.

Lemma plan_answers ctx msg :
  propertyKey (get msg "verb") ∉ silentVerbs → planAnswers (get msg "id") (planOf ctx msg).
Proof.
  intros Hs. unfold planOf, inTurn.
  destruct (eq_str _ "openSession"); [destruct (disposed ctx); [done|answers; by case_match; auto with answers]|].
  destruct (eq_str _ "newSession"); [destruct (disposed ctx); [done|answers; by case_match; auto with answers]|].
  destruct (eq_str _ "detach"); [destruct (disposed ctx); [done|unfold handleDetach; answers]|].
  unfold connectionVerbHandler. destruct (lookupVerb _) as [h|] eqn:E.
  - unfold lookupVerb in E. apply fmap_Some in E as ([k h'] & Hf%find_some & ->). destruct Hf as [Hin _].
    apply list_elem_of_In in Hin. pose proof (table_answers ctx msg) as Ht. rewrite Forall_forall in Ht. apply (Ht _ Hin).
  - rewrite decide_False by done. by case_decide.
Qed.

(** A plan that answers, run on an anonymous outcome. *)
Lemma runPlan_answered id p : resultsAnonymous → planAnswers id p → answered id (runPlan id p).
Proof.
  intros Hseam Hp. destruct p as [message|c answer|os]; cbn [runPlan planAnswers] in *; [by apply answered_reply| |done].
  destruct (seam c) as [v|message] eqn:E.
  - destruct (Hp v (Hseam c v E)) as (o & Ho & Hr). exists o. by split.
  - destruct (answered_reply id false (JStr message) [] eq_refl) as (o & Ho & Hr). exists o. by split.
Qed.

(** Every request is answered: whatever the text, the verb and the state of
    the attachment, the host sends exactly one frame for it and the frame carries
    the request's id.  The exceptions are the text [null] and the two verbs the
    handler table inherits. *)
Theorem request_answered ctx msg :
  resultsAnonymous → nullish msg = false → propertyKey (get msg "verb") ∉ silentVerbs →
  answered (get msg "id") (handleMessage ctx msg).
Proof.
  intros Hseam Hm Hv. unfold handleMessage. rewrite Hm. by apply runPlan_answered, plan_answers.
Qed.

(** The exceptions. *)
Lemma request_unanswered ctx id verb :
  verb ∈ silentVerbs →
  handleMessage ctx (object [("id", id); ("verb", JStr verb)]) = [] ∧ handleMessage ctx JNull = [UnhandledRejection].
Proof.
  intros Hv. split; [|done]. unfold silentVerbs in Hv. rewrite !elem_of_cons, elem_of_nil in Hv.
  unfold handleMessage, planOf. rewrite !object_get. destruct Hv as [-> | [-> | []]]; reflexivity.
Qed.
End dispatch.

(** ** What the host is asked *)

(** A value a text carries unchanged, or an argument that is left out. *)
Definition carried (v : json) : Prop := v = JUndef ∨ wire_safe v = true.
Definition filled (s : string) : Prop := s ≠ "".

(** The calls of the client, with their arguments as their types promise, and what
    each asks of the host that has [t] attached. *)
Inductive asksFor (t : SessionTarget) : list (string * json) → SeamCall → Prop :=
| ask_prompt text images model level :
    carried images → carried model → carried level → badImages images = false → images ≠ JArr [] →
    badModel model = false → badLevel level = false →
    asksFor t (prompt text images model level) (CommandPrompt t (JStr text) images model level)
| ask_abort : asksFor t abort (CommandAbort t)
| ask_discardSteer : asksFor t discardSteer (CommandDiscardSteer t)
| ask_setPinnedModels models :
    wire_safe (JArr models) = true → length models ≤ MAX_PINNED_MODELS → existsb badPin models = false →
    asksFor t (setPinnedModels models) (DaemonSetPinnedModels (JArr models))
| ask_renameSession name : asksFor t (renameSession name) (CommandRename t (JStr name))
| ask_setLabel entryId label : asksFor t (setLabel entryId label) (CommandSetLabel t (JStr entryId) (JStr label))
| ask_navigate entryId : asksFor t (navigate entryId) (CommandNavigate t (of_opt_str entryId))
| ask_recoverTurn : asksFor t recoverTurn (CommandRecoverTurn t)
| ask_openSession p s cursor :
    filled p → filled s → carried cursor → truthy cursor = true →
    asksFor t (openSession p s cursor) (DaemonOpenSession (JStr p) (JStr s) cursor)
| ask_openSession_full p s :
    filled p → filled s → asksFor t (openSession p s JUndef) (DaemonOpenSession (JStr p) (JStr s) JNull)
| ask_newSession p text op images model level :
    filled p → trim text ≠ "" → filled op → carried images → carried model → carried level →
    badImages images = false → badModel model = false → badLevel level = false →
    asksFor t (newSession p text op images model level) (DaemonNewSession (JStr p) (JStr text) images model level)
| ask_listSessions p max cursor :
    filled p → carried max → carried cursor → max ≠ JNull →
    asksFor t (listSessions p max cursor) (DaemonListSessions (JStr p) max (cursor ?? JNull))
| ask_listActiveSessions : asksFor t listActiveSessions DaemonListActiveSessions
| ask_getDaemonInfo : asksFor t getDaemonInfo DaemonGetDaemonInfo
| ask_asrCredentials : asksFor t asrCredentials DaemonAsrCredentials
| ask_textPolish text : trim text ≠ "" → asksFor t (textPolish text) (DaemonTextPolish (JStr text))
| ask_pull requests : wire_safe (JArr requests) = true → asksFor t (pull requests) (CommandPull t (JArr requests))
| ask_detach : asksFor t detach DaemonDetach
| ask_closeSession p s : filled p → filled s → asksFor t (closeSession p s) (DaemonCloseSession (JStr p) (JStr s))
| ask_archiveSession p s : filled p → filled s → asksFor t (archiveSession p s) (DaemonArchiveSession (JStr p) (JStr s))
| ask_listFiles p prefix : filled p → asksFor t (listFiles p prefix) (DaemonListFiles (JStr prefix) (JStr p))
| ask_readFile path state : filled path → filled state → asksFor t (readFile path (JStr state)) (DaemonReadFile (JStr path) (JStr state))
| ask_readFile_live path : filled path → asksFor t (readFile path JUndef) (DaemonReadFile (JStr path) JUndef)
| ask_listDirectory path state :
    filled path → filled state → asksFor t (listDirectory path (JStr state)) (DaemonListDirectory (JStr path) (JStr state))
| ask_listDirectory_live path : filled path → asksFor t (listDirectory path JUndef) (DaemonListDirectory (JStr path) JUndef)
| ask_gitShow commit : filled commit → asksFor t (gitShow commit) (DaemonGitShow (JStr commit) (targetCwd t))
| ask_gitBase dir commit : filled dir → filled commit → asksFor t (gitBase dir commit) (DaemonGitBase (JStr dir) (JStr commit))
| ask_gitDiff dir old new : filled dir → asksFor t (gitDiff dir old new) (DaemonGitDiff (JStr dir) (JStr old) (JStr new)).

(** The text [call] sends for a body, parsed by the host. *)
Definition requestText (id : string) (body : list (string * json)) : json :=
  jsonRoundTrip (JObj (own (object body) ∪ {["id" := JStr id]})).

Lemma get_request id body k :
  get (requestText id body) k
  = wireValue (match assoc_last k body with Some v => v | None => if String.eqb k "id" then JStr id else JUndef end).
Proof.
  unfold requestText. rewrite get_roundTrip. unfold wireValue. f_equal. f_equal. cbn [get].
  destruct (assoc_last k body) as [v|] eqn:E.
  - rewrite (lookup_union_Some_l _ _ _ v); [done|]. by rewrite object_lookup.
  - rewrite lookup_union_r by (by rewrite object_lookup). destruct (String.eqb_spec k "id") as [-> | Hk].
    + by rewrite lookup_singleton_eq.
    + by rewrite lookup_singleton_ne.
Qed.

Lemma carried_wire v : carried v → wireValue v = v.
Proof.
  intros [-> | H]; [done|]. unfold wireValue. rewrite serialised_defined by (by intros ->). by apply jsonRoundTrip_wire_safe.
Qed.
Lemma carried_str s : carried (JStr s).
Proof. by right. Qed.

Lemma blank_filled s : filled s → blank (JStr s) = false.
Proof. intros H. by apply bool_decide_eq_false. Qed.
Lemma blankText_filled s : trim s ≠ "" → blankText (JStr s) = false.
Proof. intros H. by apply bool_decide_eq_false. Qed.

Section reach.
  Context (engineError : string → string) (keyText : json → string) (ctx : VerbContext) (t : SessionTarget)
    (Hattached : attached ctx = Some t) (Hopen : disposed ctx = false).

Definition reaches (msg : json) (c : SeamCall) : Prop := ∃ answer, planOf engineError keyText ctx msg = Asks c answer.

Lemma get_field id body k v : assoc_last k body = Some v → carried v → get (requestText id body) k = v.
Proof. intros E Hv. rewrite get_request, E. by apply carried_wire. Qed.
Lemma get_absent id body k : assoc_last k body = None → k ≠ "id" → get (requestText id body) k = JUndef.
Proof. intros E Hk. rewrite get_request, E. destruct (String.eqb_spec k "id"); done. Qed.

Lemma wire_array l : wire_safe (JArr l) = true → carried (JArr l).
Proof. by right. Qed.
Lemma carried_opt o : carried (of_opt_str o).
Proof. right. by destruct o. Qed.

Ltac read_field :=
  match goal with
  | |- context [get (requestText ?id ?body) ?k] =>
    let r := eval hnf in (assoc_last k body) in
    match r with
    | Some ?v => rewrite (get_field id body k v eq_refl) by (assumption || apply carried_str || apply carried_opt || (apply wire_array; assumption))
    | None => rewrite (get_absent id body k eq_refl) by done
    end
  end.

(** Find the handler of a literal verb, then read the fields of the request. *)
Ltac reach handler :=
  unfold reaches, planOf; read_field;
  match goal with |- context [requestText ?id ?body] =>
    match goal with |- ∃ answer, _ = Asks ?c answer => change (∃ answer, handler ctx (requestText id body) = Asks c answer) end
  end;
  unfold handler; unfold inTurn, handleOpenSession, handleNewSession, handleDetach, withTarget; rewrite ?Hattached, ?Hopen;
  repeat read_field; cbn [fst snd];
  rewrite ?blank_filled, ?blankText_filled by assumption;
  try (eexists; reflexivity).

Definition inTurnOpen (ctx : VerbContext) (m : json) : Plan := inTurn ctx (handleOpenSession m).
Definition inTurnNew (ctx : VerbContext) (m : json) : Plan := inTurn ctx (handleNewSession m).
Definition inTurnDetach (ctx : VerbContext) (m : json) : Plan := inTurn ctx (handleDetach m).

(** An optional field is read as the argument, sent or left out. *)
Lemma get_when id body k (c : bool) v :
  k ≠ "id" → assoc_last k body = (if c then Some v else None) → carried v → (c = false → v = JUndef) →
  get (requestText id body) k = v.
Proof.
  intros Hk E Hv Hc. destruct c; [by apply get_field|]. rewrite Hc by done. by apply get_absent.
Qed.

(** The checks of the transitions are weaker than those of a prompt. *)
Lemma badImages_array images : badImages images = false → given images && negb (is_array images) = false.
Proof. unfold badImages. by destruct (given images), images. Qed.
Lemma badModel_strings model :
  badModel model = false →
  given model && (negb (is_object model) || negb (is_string (get model "provider")) || negb (is_string (get model "modelId"))) = false.
Proof.
  unfold badModel. destruct (given model); [|done]. destruct (is_object model); [|done].
  destruct (get model "provider"), (get model "modelId"); simpl; try done; by destruct (bool_decide _).
Qed.
Lemma badLevel_string level : badLevel level = false → given level && negb (is_string level) = false.
Proof. unfold badLevel. destruct (given level); [|done]. by destruct level. Qed.

Lemma reach_prompt id text images model level :
  carried images → carried model → carried level → badImages images = false → images ≠ JArr [] →
  badModel model = false → badLevel level = false →
  reaches (requestText id (prompt text images model level)) (CommandPrompt t (JStr text) images model level).
Proof.
  intros Hi Hm Hl Hbi Hne Hbm Hbl. set (body := prompt text images model level).
  set (cI := match images with JArr (_ :: _) => true | _ => false end).
  assert (∀ k, String.eqb "images" k = false → String.eqb "model" k = false → String.eqb "thinkingLevel" k = false →
    assoc_last k body = assoc_last k [("verb", JStr "prompt"); ("text", JStr text)]) as Hother.
  { intros k H1 H2 H3. unfold body, prompt, when, assoc_last. fold cI.
    destruct cI, (truthy model), (given level); cbn [app foldl fst snd]; rewrite ?H1, ?H2, ?H3; reflexivity. }
  assert (get (requestText id body) "verb" = JStr "prompt") as Hverb by (apply get_field; [by rewrite Hother|apply carried_str]).
  assert (get (requestText id body) "text" = JStr text) as Htext by (apply get_field; [by rewrite Hother|apply carried_str]).
  assert (get (requestText id body) "images" = images) as Himages.
  { apply get_when with cI; [done| |done|].
    - unfold body, prompt, when. fold cI. by destruct cI, (truthy model), (given level).
    - unfold badImages, cI in *. destruct images as [| | | | |[|]|]; done. }
  assert (get (requestText id body) "model" = model) as Hmodel.
  { apply get_when with (truthy model); [done| |done|].
    - unfold body, prompt, when. fold cI. by destruct cI, (truthy model), (given level).
    - unfold badModel in Hbm. destruct model as [| |[]| | | |]; try done; intros _; exfalso; by simpl in Hbm. }
  assert (get (requestText id body) "thinkingLevel" = level) as Hlevel.
  { apply get_when with (given level); [done| |done|].
    - unfold body, prompt, when. fold cI. by destruct cI, (truthy model), (given level).
    - intros Hg. unfold given in Hg. split_bools. done. }
  unfold reaches, planOf. rewrite Hverb. change (∃ answer, handlePrompt ctx (requestText id body) = Asks (CommandPrompt t (JStr text) images model level) answer).
  unfold handlePrompt, withTarget. rewrite Hattached, Htext, Himages, Hmodel, Hlevel, Hbi, Hbm, Hbl, badLevel_string by done. by eexists.
Qed.

Lemma reach_listSessions id p max cursor :
  filled p → carried max → carried cursor → max ≠ JNull →
  reaches (requestText id (listSessions p max cursor)) (DaemonListSessions (JStr p) max (cursor ?? JNull)).
Proof.
  intros Hp Hm Hc Hne. set (body := listSessions p max cursor).
  assert (get (requestText id body) "verb" = JStr "listSessions") as Hverb.
  { apply get_field; [|apply carried_str]. unfold body, listSessions, when. by destruct (given max), (negb (nullish cursor)). }
  assert (get (requestText id body) "projectId" = JStr p) as Hproject.
  { apply get_field; [|apply carried_str]. unfold body, listSessions, when. by destruct (given max), (negb (nullish cursor)). }
  assert (get (requestText id body) "max" ?? JUndef = max) as Hmax.
  { rewrite (get_when id body "max" (given max) max); [by destruct max|done| |done|].
    - unfold body, listSessions, when. by destruct (given max), (negb (nullish cursor)).
    - intros Hg. unfold given in Hg. by split_bools. }
  assert (get (requestText id body) "cursor" ?? JNull = (cursor ?? JNull)) as Hcursor.
  { destruct (nullish cursor) eqn:En.
    - rewrite get_absent; [symmetry; by apply coalesce_nullish|unfold body, listSessions, when; rewrite En; by destruct (given max)|done].
    - by rewrite (get_field id body "cursor" cursor); [|unfold body, listSessions, when; rewrite En; by destruct (given max)|]. }
  unfold reaches, planOf. rewrite Hverb.
  change (∃ answer, handleListSessions ctx (requestText id body) = Asks (DaemonListSessions (JStr p) max (cursor ?? JNull)) answer).
  unfold handleListSessions. rewrite Hproject, Hmax, Hcursor, blank_filled by done. by eexists.
Qed.

Lemma asksFor_reaches id body c : asksFor t body c → reaches (requestText id body) c.
Proof.
  intros H. destruct H.
  - by apply reach_prompt.
  - reach handleAbort.
  - reach handleDiscardSteer.
  - reach handleSetPinnedModels. cbn [elements_of]. rewrite H1. apply Nat.ltb_ge in H0. rewrite H0. by eexists.
  - reach handleRename.
  - reach handleSetLabel.
  - reach handleNavigate. by destruct entryId; eexists.
  - reach handleRecoverTurn.
  - unfold openSession. rewrite H2. reach inTurnOpen. assert (cursor ?? JNull = cursor) as -> by (by destruct cursor). by eexists.
  - reach inTurnOpen.
  - reach inTurnNew. rewrite badImages_array, badModel_strings, badLevel_string by done. by eexists.
  - by apply reach_listSessions.
  - reach handleListActiveSessions.
  - reach handleGetDaemonInfo.
  - reach handleAsrCredentials.
  - reach handleTextPolish.
  - reach handlePull.
  - reach inTurnDetach.
  - reach handleCloseSession.
  - reach handleArchiveSession.
  - reach handleListFiles.
  - reach handleReadFile. 
  - reach handleReadFile.
  - reach handleListDirectory.
  - reach handleListDirectory.
  - reach handleGitShow.
  - reach handleGitBase.
  - reach handleGitDiff.
Qed.
End reach.

Lemma silent_plan engineError keyText ctx msg :
  propertyKey keyText (get msg "verb") ∈ silentVerbs → planOf engineError keyText ctx msg = Answers [].
Proof.
  intros Hv. unfold planOf.
  assert (∀ s, s ∉ silentVerbs → eq_str (get msg "verb") s = false) as Hne.
  { intros s Hs. destruct (eq_str (get msg "verb") s) eqn:E; [|done]. apply eq_str_true in E. rewrite E in Hv. done. }
  rewrite !Hne by (apply (bool_decide_unpack _); vm_compute; exact I).
  unfold connectionVerbHandler. rewrite (decide_True _ _ Hv).
  unfold silentVerbs in Hv. rewrite !elem_of_cons, elem_of_nil in Hv. by destruct Hv as [-> | [-> | []]].
Qed.

Lemma asksFor_id t body c : asksFor t body c → assoc_last "id" body = None.
Proof.
  intros []; try reflexivity; unfold prompt, listSessions, openSession, when; repeat case_match; reflexivity.
Qed.

(** C26. A method of the client reaches the host unchanged: with arguments of
    their types, the text it sends makes the host call exactly the operation the
    method stands for, with those arguments and the target that is attached, and
    send one frame with the id the client waits for. *)
Theorem request_reaches_host seam engineError keyText ctx t body c transport st :
  asksFor t body c → attached ctx = Some t → disposed ctx = false → resultsAnonymous seam →
  ∃ st' msg es os,
    call (object body) transport st = (st', Sent msg :: es)
    ∧ handleMessage seam engineError keyText ctx msg = Called c :: os
    ∧ answered (JStr (string_of_nat (S (nextId st)))) os.
Proof.
  intros Hask Ht Hd Hseam. set (id := string_of_nat (S (nextId st))).
  destruct (asksFor_reaches engineError keyText ctx t Ht Hd id body c Hask) as [answer Hplan].
  assert (∃ st' es, call (object body) transport st = (st', Sent (requestText id body) :: es)) as (st' & es & Hcall).
  { unfold call. destruct (onMessages _ _) as [st2 es2]. destruct (throws transport); by eexists _, _. }
  exists st', (requestText id body), es.
  assert (get (requestText id body) "id" = JStr id) as Hid by (rewrite get_request, (asksFor_id _ _ _ Hask); done).
  assert (propertyKey keyText (get (requestText id body) "verb") ∉ silentVerbs) as Hv.
  { intros Hs%(silent_plan engineError keyText ctx). congruence. }
  pose proof (plan_answers engineError keyText ctx _ Hv) as Hp. rewrite Hplan, Hid in Hp. cbn [planAnswers] in Hp.
  unfold handleMessage. rewrite Hplan, Hid. cbn [runPlan].
  change (nullish (requestText id body)) with false. cbn [negb].
  destruct (seam c) as [v|message] eqn:E.
  - exists (answer v). split_and!; [done|done|]. apply Hp, (Hseam c v E).
  - eexists. split_and!; [done|done|]. by apply answered_reply.
Qed.

Definition demo_seam (c : SeamCall) : json + string :=
  match c with DaemonListFiles _ _ => inl (JArr []) | _ => inr "refused" end.
Definition demo_target : SessionTarget := mkTarget "p" "s" "i" "/home".
Definition demo_context : VerbContext := mkContext (Some demo_target) false 3 false.

Lemma demo_anonymous : resultsAnonymous demo_seam.
Proof. intros c v H. destruct c; simpl in H; simplify_eq. reflexivity. Qed.

Lemma request_answered_witness :
  resultsAnonymous demo_seam
  ∧ answered (JStr "7") (handleMessage demo_seam id (λ _, "") demo_context (object [("id", JStr "7"); ("verb", JStr "listFiles"); ("prefix", JStr "a"); ("projectId", JStr "p")])).
Proof.
  split; [apply demo_anonymous|].
  apply (request_answered demo_seam id (λ _, "") demo_context (object [("id", JStr "7"); ("verb", JStr "listFiles"); ("prefix", JStr "a"); ("projectId", JStr "p")])).
  - apply demo_anonymous.
  - reflexivity.
  - apply (bool_decide_unpack _). vm_compute. exact I.
Defined.

Lemma request_reaches_host_witness :
  asksFor demo_target (listFiles "p" "a") (DaemonListFiles (JStr "a") (JStr "p"))
  ∧ ∃ msg os, handleMessage demo_seam id (λ _, "") demo_context msg = Called (DaemonListFiles (JStr "a") (JStr "p")) :: os.
Proof.
  assert (asksFor demo_target (listFiles "p" "a") (DaemonListFiles (JStr "a") (JStr "p"))) as Ha by (apply ask_listFiles; intros H; discriminate H).
  split; [exact Ha|].
  destruct (request_reaches_host demo_seam id (λ _, "") demo_context demo_target _ _ (mkSend [] false) (createClient false) Ha eq_refl eq_refl demo_anonymous)
    as (st' & msg & es & os & _ & Hh & _).
  exists msg, os. exact Hh.
Defined.
