(* ===== verification/Scope.v ===== *)
(** * The lifecycle scope

    [host/lifecycle-scope.ts]: one queue of serialised operations with a terminal
    close.  The source chains promises; here a promise of the chain is the
    position of its operation, and the reactions of the event loop are the steps
    [start], [settle] and [drained], each enabled when its promise has settled. *)

From S2P Require Export Prelude.

(** ** The state *)

(** The promise of one admitted operation: not begun, running, settled. *)
Inductive Job := Waiting | Running | Settled (ok : bool).

Inductive ScopeState := ScopeOpen | ScopeClosing | ScopeClosed.

(** [tail] is the promise of the last admitted operation, so a number: how many
    were admitted; [drain] holds the [tail] it hangs on. *)
Record LifecycleScope := mkScope { jobs : list Job; drain : option nat; scopeState : ScopeState }.

Definition createLifecycleScope : LifecycleScope := mkScope [] None ScopeOpen.

Definition tail (s : LifecycleScope) : nat := length (jobs s).

#[global] Instance Job_eq_dec : EqDecision Job.
Proof. solve_decision. Defined.
#[global] Instance ScopeState_eq_dec : EqDecision ScopeState.
Proof. solve_decision. Defined.

Definition jobSettled (j : Job) : bool := match j with Settled _ => true | _ => false end.

(** Whether the promise [t] of the chain has settled: the first one is resolved
    from the start, the others settle with their operation. *)
Definition tailSettled (s : LifecycleScope) (t : nat) : bool :=
  match t with
  | 0 => true
  | S i => match jobs s !! i with Some j => jobSettled j | None => false end
  end.

(** ** The operations *)

(** [run]: the operation goes behind [tail]; [None] is the rejection. *)
Definition run (s : LifecycleScope) : option LifecycleScope :=
  match drain s with
  | Some _ => None
  | None => Some (mkScope (jobs s ++ [Waiting]) None (scopeState s))
  end.

(** [tail.then(operation)] fires: the operation begins once the promise before
    it has settled. *)
Definition start (i : nat) (s : LifecycleScope) : option LifecycleScope :=
  match jobs s !! i with
  | Some Waiting => if tailSettled s i then Some (mkScope (<[i := Running]> (jobs s)) (drain s) (scopeState s)) else None
  | _ => None
  end.

(** The running operation settles, either way. *)
Definition settle (i : nat) (ok : bool) (s : LifecycleScope) : option LifecycleScope :=
  match jobs s !! i with
  | Some Running => Some (mkScope (<[i := Settled ok]> (jobs s)) (drain s) (scopeState s))
  | _ => None
  end.

Definition close (s : LifecycleScope) : LifecycleScope :=
  match drain s with
  | Some _ => s
  | None => mkScope (jobs s) (Some (tail s)) ScopeClosing
  end.

(** The reaction of [close] on [tail]. *)
Definition drained (s : LifecycleScope) : option LifecycleScope :=
  match drain s, scopeState s with
  | Some t, ScopeClosing => if tailSettled s t then Some (mkScope (jobs s) (drain s) ScopeClosed) else None
  | _, _ => None
  end.

(** ** The invariant *)

(** Operations begin one at a time, in arrival order; the drain hangs on the
    last of them. *)
Record scope_ok (s : LifecycleScope) : Prop := {
  scope_order : ∀ i j a b, i < j → jobs s !! i = Some a → jobs s !! j = Some b → b ≠ Waiting → jobSettled a = true;
  scope_drain : ∀ t, drain s = Some t → t = tail s;
  scope_open : drain s = None ↔ scopeState s = ScopeOpen;
  scope_closed : scopeState s = ScopeClosed → Forall (λ j, jobSettled j = true) (jobs s)
}.

(** The promise before an operation speaks for all the ones before it. *)
Lemma tailSettled_all s t :
  scope_ok s → tailSettled s t = true → ∀ i a, i < t → jobs s !! i = Some a → jobSettled a = true.
Proof.
  intros H Ht i a Hi Ha. destruct t as [|t]; [lia|]. simpl in Ht. destruct (jobs s !! t) as [b|] eqn:Eb; [|done].
  destruct (decide (i = t)) as [-> | ?]; [by simplify_eq|].
  apply (scope_order s H i t a b); [lia|done|done|]. by intros ->.
Qed.

Lemma scope_create : scope_ok createLifecycleScope.
Proof. by split. Qed.

Lemma run_ok s s' : scope_ok s → run s = Some s' → scope_ok s'.
Proof.
  intros [Ho Hd Hs Hc] H. unfold run in H. destruct (drain s) eqn:E; simplify_eq. split; simpl.
  - intros i j a b Hij Ha Hb Hw. apply lookup_app_Some in Hb as [Hb | [? Hb]].
    + rewrite lookup_app_l in Ha by (apply lookup_lt_Some in Hb; lia). by eapply Ho.
    + by apply list_lookup_singleton_Some in Hb as [_ <-].
  - done.
  - done.
  - destruct Hs as [Hs _]. by rewrite (Hs eq_refl).
Qed.

Lemma tail_insert i j s d st : tail (mkScope (<[i := j]> (jobs s)) d st) = tail s.
Proof. apply length_insert. Qed.

(** An update of the operation at [i] keeps the order when all before it have
    settled, and the operation it replaces had not. *)
Lemma insert_ok i j s b :
  scope_ok s → jobs s !! i = Some b → jobSettled b = false →
  (∀ k a, k < i → jobs s !! k = Some a → jobSettled a = true) →
  scope_ok (mkScope (<[i := j]> (jobs s)) (drain s) (scopeState s)).
Proof.
  intros H Hi Hb Hbefore. destruct H as [Ho Hd Hs Hc]. split; simpl.
  - intros k l a c Hkl Ha Hcc Hw. apply lookup_lt_Some in Hi as Hlen.
    destruct (decide (l = i)) as [-> | Hl].
    + rewrite list_lookup_insert_ne in Ha by lia. by eapply Hbefore.
    + rewrite list_lookup_insert_ne in Hcc by done. destruct (decide (k = i)) as [-> | Hk].
      * assert (jobSettled b = true); [by apply (Ho i l b c)|congruence].
      * rewrite list_lookup_insert_ne in Ha by done. by eapply (Ho k l).
  - intros t Ht. rewrite tail_insert. by apply Hd.
  - done.
  - intros Hcl. apply Hc in Hcl. rewrite Forall_lookup in Hcl. apply Hcl in Hi. congruence.
Qed.

Lemma start_ok i s s' : scope_ok s → start i s = Some s' → scope_ok s'.
Proof.
  intros H E. unfold start in E. destruct (jobs s !! i) as [[| |]|] eqn:Ei; try done. case_match eqn:Et; simplify_eq.
  eapply insert_ok; [done|done|done|]. by eapply tailSettled_all.
Qed.

Lemma settle_ok i ok s s' : scope_ok s → settle i ok s = Some s' → scope_ok s'.
Proof.
  intros H E. unfold settle in E. destruct (jobs s !! i) as [[| |]|] eqn:Ei; simplify_eq.
  eapply insert_ok; [done|done|done|]. intros k a Hk Ha. by eapply (scope_order s H k i).
Qed.

Lemma close_scope_ok s : scope_ok s → scope_ok (close s).
Proof.
  intros H. unfold close. destruct (drain s) eqn:E; [done|]. destruct H as [Ho Hd Hs Hc]. split; simpl; try done.
  by intros t [= <-].
Qed.

Lemma drained_ok s s' : scope_ok s → drained s = Some s' → scope_ok s'.
Proof.
  intros H E. unfold drained in E. destruct (drain s) as [t|] eqn:Ed; [|done].
  destruct (scopeState s) eqn:Es; try done. case_match eqn:Et; simplify_eq.
  pose proof (tailSettled_all s t H Et) as Hall. destruct H as [Ho Hd Hs Hc]. split; simpl; [exact Ho|intros t' [= <-]; exact (Hd t Ed)| |].
  { split; [congruence|done]. }
  intros _. apply Forall_lookup. intros i a Ha. apply (Hall i a); [|done].
  rewrite (Hd t Ed). by apply lookup_lt_Some in Ha.
Qed.

(** ** Progress *)

(** A chain with an unsettled operation can move: the first one of them begins
    or settles. *)
Fixpoint firstUnsettled (l : list Job) : option nat :=
  match l with
  | [] => None
  | Settled _ :: l' => S <$> firstUnsettled l'
  | _ => Some 0
  end.

Lemma firstUnsettled_Some l i :
  firstUnsettled l = Some i →
  (∃ j, l !! i = Some j ∧ jobSettled j = false) ∧ ∀ k a, k < i → l !! k = Some a → jobSettled a = true.
Proof.
  revert i. induction l as [|j l IH]; intros i H; [done|].
  assert (jobSettled j = false → i = 0 → (∃ x, (j :: l) !! i = Some x ∧ jobSettled x = false)
    ∧ ∀ k a, k < i → (j :: l) !! k = Some a → jobSettled a = true) as Hhead.
  { intros Hj ->. split; [by exists j|]. intros; lia. }
  destruct j as [| |ok]; simpl in H; simplify_eq; [by apply Hhead..|].
  destruct (firstUnsettled l) as [m|]; simplify_eq/=. destruct (IH m eq_refl) as [Hx Hk]. split; [done|].
  intros [|k] a Hlt Ha; simplify_eq/=; [done|]. apply (Hk k a); [lia|done].
Qed.

Lemma firstUnsettled_None l : firstUnsettled l = None → Forall (λ j, jobSettled j = true) l.
Proof.
  induction l as [|[| |ok] l IH]; simpl; intros H; try done. destruct (firstUnsettled l); [done|].
  constructor; [done|by apply IH].
Qed.
