(* ===== verification/Connection.v ===== *)
(** * The connection

    [host/connection.ts], with [attach] of [host/daemon.ts]: the protocol actor of
    one socket.  Its attachment transitions (openSession, newSession, detach) run
    one at a time on a line ([Scope]); every other verb is a handler of [Verbs].
    What runs between two turns of the event loop is one function; the worker
    behind the open (the frames it delivers to a sink, whether an open succeeds)
    and the ends of awaits are events, in any order.  What a worker may deliver to
    one sink is the automaton [streamStep], which [Streams] derives from the
    worker's code.  A stream and a request are the position at which they were
    made. *)

From S2P Require Export Scope Replica Verbs.

(** ** Observations *)

Inductive WorkerObservationFrame :=
| ReplaceFrame (session document : json)
| PatchFrame (session : option json) (ops : list PatchOp)
| ClosedFrame (projectId stem : string).

(** One sink given to a worker: the request that opened it, the generation it
    stamps, how far its frames are, and whether its observation was released.  An
    observation [Ended] after its initial sync, or was [Lost] before its open
    resolved. *)
Inductive StreamPhase := Unsynced | Synced | Ended | Lost.
Record Stream := mkStream { opener : nat; sinkGeneration : Z; streamPhase : StreamPhase; released : bool }.

#[global] Instance StreamPhase_eq_dec : EqDecision StreamPhase.
Proof. solve_decision. Defined.

(** Whether the initial sync was delivered. *)
Definition phaseSynced (p : StreamPhase) : bool := match p with Synced | Ended => true | _ => false end.

(** The order of frames on one sink: the initial sync, live patches, the terminal
    frame, which a link that dies also delivers to a sink it never synced. *)
Definition streamStep (f : WorkerObservationFrame) (p : StreamPhase) : option StreamPhase :=
  match p, f with
  | Unsynced, ReplaceFrame _ _ | Unsynced, PatchFrame (Some _) _ => Some Synced
  | Synced, PatchFrame None _ => Some Synced
  | Unsynced, ClosedFrame _ _ => Some Lost
  | Synced, ClosedFrame _ _ => Some Ended
  | _, _ => None
  end.

(** ** The state *)

Record AttachedSession := mkAttached { target : SessionTarget; observation : nat }.

(** Where a request stands: on the line, refused by it, in the await of the open
    ([None]: the project has no worker), in an await of a release, in the await of
    its handler, or answered. *)
Inductive RequestPoint :=
| Queued
| Refused
| Opening (o : option nat) (answer : json → list HostOutput)
| ReleasingOwn (answer : json → list HostOutput)
| ReleasingPrevious (a : AttachedSession) (answer : json → list HostOutput)
| Calling (p : Plan)
| Answered.

Record Request := mkRequest { message : json; job : option nat; point : RequestPoint }.

Inductive Sender := ForStream (o : nat) | ForRequest (r : nat) | ForDaemon.
#[global] Instance Sender_eq_dec : EqDecision Sender.
Proof. solve_decision. Defined.

(** The fields of the connection, the sinks and requests made so far, and what
    went to [send], in order. *)
Record Connection := mkConnection {
  attachment : option AttachedSession;
  attachmentGeneration : Z;
  syncAttribution : option string;
  disposed : bool;
  transitions : LifecycleScope;
  streams : list Stream;
  requests : list Request;
  sent : list (Sender * HostFrame)
}.

Definition createConnection : Connection := mkConnection None 0 None false createLifecycleScope [] [] [].

(** *** Assignments *)

Definition setAttachment (a : option AttachedSession) (g : Z) (c : Connection) : Connection :=
  mkConnection a g (syncAttribution c) (disposed c) (transitions c) (streams c) (requests c) (sent c).
Definition setAttribution (op : option string) (c : Connection) : Connection :=
  mkConnection (attachment c) (attachmentGeneration c) op (disposed c) (transitions c) (streams c) (requests c) (sent c).
Definition setDisposed (c : Connection) : Connection :=
  mkConnection (attachment c) (attachmentGeneration c) (syncAttribution c) true (transitions c) (streams c) (requests c) (sent c).
Definition setTransitions (s : LifecycleScope) (c : Connection) : Connection :=
  mkConnection (attachment c) (attachmentGeneration c) (syncAttribution c) (disposed c) s (streams c) (requests c) (sent c).
Definition setStreams (l : list Stream) (c : Connection) : Connection :=
  mkConnection (attachment c) (attachmentGeneration c) (syncAttribution c) (disposed c) (transitions c) l (requests c) (sent c).
Definition setRequests (l : list Request) (c : Connection) : Connection :=
  mkConnection (attachment c) (attachmentGeneration c) (syncAttribution c) (disposed c) (transitions c) (streams c) l (sent c).
Definition setSent (l : list (Sender * HostFrame)) (c : Connection) : Connection :=
  mkConnection (attachment c) (attachmentGeneration c) (syncAttribution c) (disposed c) (transitions c) (streams c) (requests c) l.

(** ** Sending *)

Definition send (from : Sender) (f : HostFrame) (c : Connection) : Connection := setSent (sent c ++ [(from, f)]) c.

(** The frames of what a handler put out. *)
Definition frameOf (o : HostOutput) : option HostFrame :=
  match o with Frame v => Some (ReplyFrame (own v)) | _ => None end.

Definition sendOutputs (r : nat) (os : list HostOutput) (c : Connection) : Connection :=
  setSent (sent c ++ (pair (ForRequest r) <$> omap frameOf os)) c.

(** ** The attachment *)

(** [observation.release()] *)
Definition markReleased (s : Stream) : Stream := mkStream (opener s) (sinkGeneration s) (streamPhase s) true.
Definition release (o : nat) (c : Connection) : Connection := setStreams (alter markReleased o (streams c)) c.

Definition inPhase (p : StreamPhase) (s : Stream) : Stream := mkStream (opener s) (sinkGeneration s) p (released s).
Definition setPhase (o : nat) (p : StreamPhase) (c : Connection) : Connection := setStreams (alter (inPhase p) o (streams c)) c.

Definition releaseAttached (a : option AttachedSession) (c : Connection) : Connection :=
  match a with Some a => release (observation a) c | None => c end.

Definition detach (c : Connection) : Connection :=
  setAttachment None (attachmentGeneration c) (releaseAttached (attachment c) c).

Definition dispose (c : Connection) : Connection :=
  let c := detach (setDisposed c) in setTransitions (close (transitions c)) c.

(** A frame the worker hands to the sink of stream [o]. *)
Definition deliverObservation (o : nat) (f : WorkerObservationFrame) (g : Z) (c : Connection) : Connection :=
  match f with
  | ReplaceFrame session document => send (ForStream o) (ReplaceFrame_ g session document (syncAttribution c)) c
  | PatchFrame (Some session) ops => send (ForStream o) (SyncPatchFrame g session ops (syncAttribution c)) c
  | PatchFrame None ops => send (ForStream o) (LivePatchFrame g ops) c
  | ClosedFrame projectId stem =>
    let c := send (ForStream o) (BroadcastFrame (own (object
               [("kind", JStr "session_closed"); ("projectId", JStr projectId); ("stem", JStr stem); ("generation", JInt g)]))) c in
    if negb (bool_decide (g = attachmentGeneration c)) then c else detach c
  end.

Definition deliver (o : nat) (f : WorkerObservationFrame) (c : Connection) : option Connection :=
  s ← streams c !! o;
  if released s then None
  else p ← streamStep f (streamPhase s); Some (deliverObservation o f (sinkGeneration s) (setPhase o p c)).

(** ** Requests *)

Section requests.
  (** The mode of the daemon, and the two parameters of [Verbs.planOf]. *)
  Context (devMode : bool) (engineError : string → string) (keyText : json → string).

(** What [verbsFor] and the requirements read. *)
Definition contextOf (c : Connection) : VerbContext :=
  mkContext (target <$> attachment c) devMode (attachmentGeneration c) (disposed c).

Definition planFor (msg : json) (c : Connection) : Plan := planOf engineError keyText (contextOf c) msg.

Definition isTransition (msg : json) : bool :=
  eq_str (get msg "verb") "openSession" || eq_str (get msg "verb") "newSession" || eq_str (get msg "verb") "detach".

Definition addRequest (msg : json) (j : option nat) (p : RequestPoint) (c : Connection) : Connection :=
  setRequests (requests c ++ [mkRequest msg j p]) c.

Definition atPoint (p : RequestPoint) (q : Request) : Request := mkRequest (message q) (job q) p.
Definition setPoint (r : nat) (p : RequestPoint) (c : Connection) : Connection :=
  setRequests (alter (atPoint p) r (requests c)) c.

Definition runTransition (msg : json) (c : Connection) : Connection :=
  match run (transitions c) with
  | Some s => addRequest msg (Some (Scope.tail (transitions c))) Queued (setTransitions s c)
  | None => addRequest msg None Refused c
  end.

(** One parsed text.  Destructuring [null] throws before the [try]. *)
Definition receives (msg : json) (c : Connection) : Connection :=
  if nullish msg then c
  else if isTransition msg then runTransition msg c
  else addRequest msg None (Calling (planFor msg c)) c.

(** The operation id a creation attributes its initial sync to. *)
Definition attributionOf (msg : json) : option string :=
  if eq_str (get msg "verb") "newSession" then opt_str (get msg "operationId") else None.

(** The request [r] is answered, and its operation on the line settles. *)
Definition finish (r : nat) (os : list HostOutput) (c : Connection) : option Connection :=
  q ← requests c !! r;
  j ← job q;
  s ← settle j true (transitions c);
  let c := sendOutputs r os (setTransitions s (setPoint r Answered c)) in
  Some (if eq_str (get (message q) "verb") "newSession" then setAttribution None c else c).

(** The turn of the transition [r]: [routed] when the project has a worker.  The
    generation is minted before the open, for the sink it is given. *)
Definition turnStarts (r : nat) (routed : bool) (c : Connection) : option Connection :=
  q ← requests c !! r;
  j ← job q;
  match point q with
  | Queued =>
    s ← start j (transitions c);
    let c := setTransitions s c in
    match planFor (message q) c with
    | Throws error => finish r [sendReply (get (message q) "id") false (JStr error)] c
    | Answers os => finish r os c
    | Asks DaemonDetach answer => finish r (answer JUndef) (detach c)
    | Asks _ answer =>
      let c := if eq_str (get (message q) "verb") "newSession" then setAttribution (attributionOf (message q)) c else c in
      if routed
      then Some (setPoint r (Opening (Some (length (streams c))) answer)
                  (setStreams (streams c ++ [mkStream r (attachmentGeneration c + 1) Unsynced false]) c))
      else Some (setPoint r (Opening None answer) c)
    end
  | _ => None
  end.

Definition failure (error : string) : json := object [("ok", JBool false); ("error", JStr error)].
Definition sessionRefOf (t : SessionTarget) : json :=
  object [("projectId", JStr (targetProject t)); ("stem", JStr (targetStem t)); ("sessionId", JStr (targetSession t))].

(** [await open(...)] rejects: no frame is delivered to the sink any more. *)
Definition openFails (r : nat) (error : string) (c : Connection) : option Connection :=
  q ← requests c !! r;
  match point q with
  | Opening (Some o) answer => finish r (answer (failure error)) (setPhase o Lost c)
  | Opening None answer =>
    finish r (answer (failure ("Unknown project: " +:+ propertyKey keyText (get (message q) "projectId")))) c
  | _ => None
  end.

(** [await open(...)] resolves: [attach] up to the release it awaits.  The worker
    has delivered the initial sync by then. *)
Definition openSucceeds (r : nat) (t : SessionTarget) (c : Connection) : option Connection :=
  q ← requests c !! r;
  match point q with
  | Opening (Some o) answer =>
    s ← streams c !! o;
    if negb (phaseSynced (streamPhase s)) then None
    else if disposed c then Some (setPoint r (ReleasingOwn answer) (release o c))
    else Some (setPoint r (ReleasingPrevious (mkAttached t o) answer)
                (releaseAttached (attachment c) (setAttachment (Some (mkAttached t o)) (sinkGeneration s) c)))
  | _ => None
  end.

(** The awaited release resolves. *)
Definition releaseResolves (r : nat) (c : Connection) : option Connection :=
  q ← requests c !! r;
  match point q with
  | ReleasingOwn answer => finish r (answer (failure "connection closed")) c
  | ReleasingPrevious a answer =>
    finish r (answer (object [("ok", JBool true); ("session", sessionRefOf (target a))])) c
  | _ => None
  end.

(** The handler of a verb that is not a transition ends. *)
Definition replies (r : nat) (outcome : json + string) (c : Connection) : option Connection :=
  q ← requests c !! r;
  match point q with
  | Calling p => Some (sendOutputs r (runPlan (λ _, outcome) (get (message q) "id") p) (setPoint r Answered c))
  | _ => None
  end.

(** The [catch] of [runTransition]. *)
Definition refusalReplies (r : nat) (c : Connection) : option Connection :=
  q ← requests c !! r;
  match point q with
  | Refused =>
    Some (sendOutputs r [sendReply (get (message q) "id") false (JStr "connection closed")] (setPoint r Answered c))
  | _ => None
  end.

(** ** Events *)

Inductive ConnectionEvent :=
| Receives (msg : json)
| TurnStarts (r : nat) (routed : bool)
| Delivers (o : nat) (f : WorkerObservationFrame)
| OpenSucceeds (r : nat) (t : SessionTarget)
| OpenFails (r : nat) (error : string)
| ReleaseResolves (r : nat)
| Replies (r : nat) (outcome : json + string)
| RefusalReplies (r : nat)
| Pushes (frame : record)
| Disposes
| TransitionsDrained.

(** The reaction to an event; [None] when it cannot happen in this state. *)
Definition connectionStep (e : ConnectionEvent) (c : Connection) : option Connection :=
  match e with
  | Receives msg => Some (receives msg c)
  | TurnStarts r routed => turnStarts r routed c
  | Delivers o f => deliver o f c
  | OpenSucceeds r t => openSucceeds r t c
  | OpenFails r error => openFails r error c
  | ReleaseResolves r => releaseResolves r c
  | Replies r outcome => replies r outcome c
  | RefusalReplies r => refusalReplies r c
  | Pushes frame => Some (send ForDaemon (BroadcastFrame frame) c)
  | Disposes => Some (dispose c)
  | TransitionsDrained => (λ s, setTransitions s c) <$> drained (transitions c)
  end.

Fixpoint runConnection (es : list ConnectionEvent) (c : Connection) : option Connection :=
  match es with
  | [] => Some c
  | e :: es => connectionStep e c ≫= runConnection es
  end.

Definition reachable (c : Connection) : Prop := ∃ es, runConnection es createConnection = Some c.
End requests.

(** ** The line *)

(** The requests whose operation has begun and not ended. *)
Definition inTransition (p : RequestPoint) : bool :=
  match p with Opening _ _ | ReleasingOwn _ | ReleasingPrevious _ _ => true | _ => false end.

(** A transition stands where its job on the line does. *)
Definition pointJob (p : RequestPoint) (b : Job) : Prop :=
  match p with
  | Queued => b = Waiting
  | Refused | Calling _ => False
  | Opening _ _ | ReleasingOwn _ | ReleasingPrevious _ _ => b = Running
  | Answered => jobSettled b = true
  end.

Definition pointFree (p : RequestPoint) : Prop :=
  match p with Refused | Calling _ | Answered => True | _ => False end.

Record line_ok (qs : list Request) (js : list Job) : Prop := {
  line_point : ∀ r q, qs !! r = Some q →
    match job q with Some j => ∃ b, js !! j = Some b ∧ pointJob (point q) b | None => pointFree (point q) end;
  line_unique : ∀ r r' q q' j, qs !! r = Some q → qs !! r' = Some q' → job q = Some j → job q' = Some j → r = r';
  line_full : ∀ j b, js !! j = Some b → ∃ r q, qs !! r = Some q ∧ job q = Some j
}.

Lemma alter_request (qs : list Request) (r : nat) p (k : nat) q :
  alter (atPoint p) r qs !! k = Some q →
  (k = r ∧ ∃ q0, qs !! r = Some q0 ∧ q = atPoint p q0) ∨ (k ≠ r ∧ qs !! k = Some q).
Proof.
  destruct (decide (k = r)) as [-> | Hk].
  - rewrite list_lookup_alter_eq. intros (q0 & E & ->)%fmap_Some. left. by split; [|exists q0].
  - rewrite list_lookup_alter_ne by done. by right.
Qed.

Lemma alter_request_job (qs : list Request) (r : nat) p (k : nat) q :
  alter (atPoint p) r qs !! k = Some q → ∃ q0, qs !! k = Some q0 ∧ job q = job q0 ∧ message q = message q0.
Proof. intros [(-> & q0 & E & ->) | [_ E]]%alter_request; [by exists q0|by exists q]. Qed.

Lemma line_move qs js (r : nat) q (j : nat) p b :
  line_ok qs js → qs !! r = Some q → job q = Some j → pointJob p b → line_ok (alter (atPoint p) r qs) (<[j := b]> js).
Proof.
  intros [Hp Hu Hf] Hr Hj Hb. assert (∃ b0, js !! j = Some b0) as [b0 Hb0].
  { specialize (Hp r q Hr). rewrite Hj in Hp. destruct Hp as (b0 & ? & _). by exists b0. }
  apply lookup_lt_Some in Hb0 as Hlt. split.
  - intros k k' E. destruct (alter_request _ _ _ _ _ E) as [(-> & q0 & E0 & ->) | [Hne E0]]; simplify_eq/=.
    + rewrite Hj. exists b. by rewrite list_lookup_insert_eq.
    + specialize (Hp k k' E0). destruct (job k') as [j'|] eqn:Ej; [|done]. destruct Hp as (b' & Hb' & Hpt).
      exists b'. rewrite list_lookup_insert_ne; [done|]. intros <-. by destruct Hne; eapply Hu.
  - intros k k' x x' i E%alter_request_job E'%alter_request_job Hx Hx'. destruct E as (y & Ey & E1 & _), E' as (y' & Ey' & E1' & _).
    apply (Hu k k' y y' i); congruence.
  - intros i x Hi. assert (∃ y, js !! i = Some y) as [y Hy].
    { apply lookup_lt_Some in Hi. rewrite length_insert in Hi. by apply lookup_lt_is_Some. }
    destruct (Hf i y Hy) as (k & qk & Ek & Ejk). destruct (decide (k = r)) as [-> | Hk].
    + exists r, (atPoint p qk). split; [|done]. by rewrite list_lookup_alter_eq, Ek.
    + exists k, qk. split; [|done]. by rewrite list_lookup_alter_ne.
Qed.

Lemma line_free qs js (r : nat) q p :
  line_ok qs js → qs !! r = Some q → job q = None → pointFree p → line_ok (alter (atPoint p) r qs) js.
Proof.
  intros [Hp Hu Hf] Hr Hj Hfree. split.
  - intros k k' E. destruct (alter_request _ _ _ _ _ E) as [(-> & q0 & E0 & ->) | [Hne E0]]; simplify_eq/=; [by rewrite Hj|].
    by apply (Hp k k').
  - intros k k' x x' i E%alter_request_job E'%alter_request_job Hx Hx'. destruct E as (y & Ey & E1 & _), E' as (y' & Ey' & E1' & _).
    apply (Hu k k' y y' i); congruence.
  - intros i x Hi. destruct (Hf i x Hi) as (k & qk & Ek & Ejk). destruct (decide (k = r)) as [-> | Hk]; [congruence|].
    exists k, qk. split; [|done]. by rewrite list_lookup_alter_ne.
Qed.

Lemma line_add qs js q j :
  line_ok qs js → (match j with Some j => j = length js | None => True end) → job q = j →
  (match j with Some _ => point q = Queued | None => pointFree (point q) end) →
  line_ok (qs ++ [q]) (js ++ match j with Some _ => [Waiting] | None => [] end).
Proof.
  intros [Hp Hu Hf] Hlen Hj Hq.
  assert (∀ k x i, qs !! k = Some x → job x = Some i → i < length js) as Hlt.
  { intros k x i E Ei. specialize (Hp k x E). rewrite Ei in Hp. destruct Hp as (b & Hb & _). by apply lookup_lt_Some in Hb. }
  split.
  - intros k x [[_ E] | [-> <-]]%lookup_snoc_Some.
    + specialize (Hp k x E). destruct (job x) as [i|] eqn:Ei; [|done]. destruct Hp as (b & Hb & Hpt). exists b.
      split; [|done]. by apply lookup_app_l_Some.
    + rewrite Hj. destruct j as [j|]; [|done]. subst j. exists Waiting. rewrite Hq. split; [|done].
      by rewrite lookup_app_r, Nat.sub_diag by lia.
  - intros k k' x x' i [[_ E] | [-> <-]]%lookup_snoc_Some [[_ E'] | [-> <-]]%lookup_snoc_Some Ex Ex'.
    + by eapply Hu.
    + rewrite Ex' in Hj. subst j. pose proof (Hlt k x i E Ex). simpl in Hlen. lia.
    + rewrite Ex in Hj. subst j. pose proof (Hlt k' x' i E' Ex'). simpl in Hlen. lia.
    + done.
  - intros i x [Hi | [Hle Hi]]%lookup_app_Some.
    + destruct (Hf i x Hi) as (k & qk & Ek & Ejk). exists k, qk. split; [|done]. by apply lookup_app_l_Some.
    + destruct j as [j|]; [|done]. apply list_lookup_singleton_Some in Hi as [Hi _]. exists (length qs), q.
      rewrite lookup_app_r, Nat.sub_diag by lia. split; [done|]. rewrite Hj. f_equal. lia.
Qed.

(** ** The invariant *)

(** A stream that may still deliver. *)
Definition live (s : Stream) : bool :=
  negb (released s) && match streamPhase s with Unsynced | Synced => true | _ => false end.

Record conn_ok (c : Connection) : Prop := {
  ok_line : line_ok (requests c) (jobs (transitions c));
  ok_scope : scope_ok (transitions c);
  ok_disposed : disposed c = true ↔ is_Some (drain (transitions c));
  ok_attached : ∀ a, attachment c = Some a →
    disposed c = false ∧ ∃ s, streams c !! observation a = Some s ∧ sinkGeneration s = attachmentGeneration c ∧
      released s = false ∧ phaseSynced (streamPhase s) = true;
  ok_opening : ∀ r q o answer, requests c !! r = Some q → point q = Opening (Some o) answer →
    ∃ s, streams c !! o = Some s ∧ opener s = r ∧ sinkGeneration s = (attachmentGeneration c + 1)%Z ∧ released s = false;
  ok_streams : ∀ o s, streams c !! o = Some s → live s = true →
    (∃ a, attachment c = Some a ∧ observation a = o) ∨
    (∃ r q answer, requests c !! r = Some q ∧ point q = Opening (Some o) answer);
  ok_previous : ∀ r q a answer, requests c !! r = Some q → point q = ReleasingPrevious a answer →
    attachment c = Some a ∨ attachment c = None ∧
      (disposed c = true ∨ ∃ s, streams c !! observation a = Some s ∧ streamPhase s = Ended);
  ok_attribution : ∀ r q, requests c !! r = Some q → inTransition (point q) = true →
    syncAttribution c = attributionOf (message q);
  ok_unattributed : (∀ r q, requests c !! r = Some q → inTransition (point q) = false) → syncAttribution c = None
}.

Lemma running_unique s (i j : nat) :
  scope_ok s → jobs s !! i = Some Running → jobs s !! j = Some Running → i = j.
Proof.
  intros H Hi Hj. destruct (lt_eq_lt_dec i j) as [[Hlt | ?] | Hlt]; [|done|].
  - by assert (jobSettled Running = true) by by apply (scope_order s H i j _ Running).
  - by assert (jobSettled Running = true) by by apply (scope_order s H j i _ Running).
Qed.

(** No other request is in transition. *)
Definition alone (c : Connection) (r : nat) : Prop :=
  ∀ r' q', r' ≠ r → requests c !! r' = Some q' → inTransition (point q') = false.

Lemma transition_job c r q :
  conn_ok c → requests c !! r = Some q → inTransition (point q) = true →
  ∃ j, job q = Some j ∧ jobs (transitions c) !! j = Some Running.
Proof.
  intros H E Ht. pose proof (line_point _ _ (ok_line c H) r q E) as Hp.
  destruct (job q) as [j|]; [|by destruct (point q)]. destruct Hp as (b & Hb & Hp). exists j. split; [done|].
  destruct (point q); try done; simpl in Hp; congruence.
Qed.

Lemma alone_running c r q j :
  conn_ok c → requests c !! r = Some q → job q = Some j →
  (∀ i, jobs (transitions c) !! i = Some Running → i = j) → alone c r.
Proof.
  intros H E Hj Hrun r' q' Hne E'. destruct (inTransition (point q')) eqn:Et; [|done]. exfalso. apply Hne.
  destruct (transition_job c r' q' H E' Et) as (i & Hi & Hb). apply (line_unique _ _ (ok_line c H) r' r q' q j); [done..| |done].
  by rewrite Hi, (Hrun i Hb).
Qed.

Lemma alone_transition c r q :
  conn_ok c → requests c !! r = Some q → inTransition (point q) = true → alone c r.
Proof.
  intros H E Ht. destruct (transition_job c r q H E Ht) as (j & Hj & Hb).
  apply (alone_running c r q j); [done..|]. intros i Hi. by apply (running_unique (transitions c)); [apply ok_scope| |].
Qed.

Lemma alone_started c r q j s :
  conn_ok c → requests c !! r = Some q → job q = Some j → start j (transitions c) = Some s → alone c r.
Proof.
  intros H E Hj Hs. apply (alone_running c r q j); [done..|]. intros i Hi.
  unfold start in Hs. destruct (jobs (transitions c) !! j) as [[| |]|] eqn:Ej; try done.
  destruct (tailSettled _ _) eqn:Et; [|done]. destruct (lt_eq_lt_dec i j) as [[Hlt | ?] | Hlt]; [|done|].
  - by pose proof (tailSettled_all _ j (ok_scope c H) Et i _ Hlt Hi).
  - by assert (jobSettled Waiting = true) by by apply (scope_order _ (ok_scope c H) j i _ Running).
Qed.

(** What a request that is alone may become. *)
Lemma alone_ok c r q j b p att g op tr str l :
  conn_ok c → requests c !! r = Some q → job q = Some j → alone c r →
  jobs tr = <[j := b]> (jobs (transitions c)) → drain tr = drain (transitions c) → scope_ok tr → pointJob p b →
  (∀ a, att = Some a → disposed c = false ∧ ∃ s, str !! observation a = Some s ∧ sinkGeneration s = g ∧
     released s = false ∧ phaseSynced (streamPhase s) = true) →
  (∀ o answer, p = Opening (Some o) answer →
     ∃ s, str !! o = Some s ∧ opener s = r ∧ sinkGeneration s = (g + 1)%Z ∧ released s = false) →
  (∀ o s, str !! o = Some s → live s = true →
     (∃ a, att = Some a ∧ observation a = o) ∨ (∃ answer, p = Opening (Some o) answer)) →
  (∀ a answer, p = ReleasingPrevious a answer → att = Some a) →
  op = (if inTransition p then attributionOf (message q) else None) →
  conn_ok (mkConnection att g op (disposed c) tr str (alter (atPoint p) r (requests c)) l).
Proof.
  intros H E Hj Hal Hjobs Hdr Hsc Hpt Hatt Hop Hstr Hprev ->.
  assert (∀ r' q', alter (atPoint p) r (requests c) !! r' = Some q' → inTransition (point q') = true →
    r' = r ∧ q' = atPoint p q) as Hat.
  { intros r' q' [(-> & q0 & E0 & ->) | [Hne E0]]%alter_request Ht; [by simplify_eq|]. by rewrite (Hal r' q' Hne E0) in Ht. }
  split; simpl.
  - rewrite Hjobs. by eapply line_move; [apply ok_line| | |].
  - done.
  - rewrite Hdr. apply ok_disposed, H.
  - done.
  - intros r' q' o answer E' Hp. destruct (Hat r' q' E') as [-> ->]; [by rewrite Hp|]. by eapply Hop.
  - intros o s Ho Hl. destruct (Hstr o s Ho Hl) as [? | [answer ->]]; [by left|]. right.
    exists r, (atPoint (Opening (Some o) answer) q), answer. by rewrite list_lookup_alter_eq, E.
  - intros r' q' a answer E' Hp. destruct (Hat r' q' E') as [-> ->]; [by rewrite Hp|]. left. by eapply Hprev.
  - intros r' q' E' Ht. destruct (Hat r' q' E' Ht) as [-> ->]. simpl in *. by rewrite Ht.
  - intros Hno. specialize (Hno r (atPoint p q)). rewrite list_lookup_alter_eq, E in Hno. simpl in Hno. by rewrite Hno.
Qed.

(** ** Every step keeps it *)

Lemma settle_jobs j ok s s' :
  settle j ok s = Some s' → jobs s' = <[j := Settled ok]> (jobs s) ∧ drain s' = drain s.
Proof. unfold settle. destruct (jobs s !! j) as [[]|]; intros [=<-] || intros [=]; done. Qed.

Lemma start_jobs j s s' :
  start j s = Some s' → jobs s' = <[j := Running]> (jobs s) ∧ drain s' = drain s.
Proof. unfold start. destruct (jobs s !! j) as [[]|]; try done. destruct (tailSettled _ _); [|done]. by intros [= <-]. Qed.

Lemma conn_ok_sent l c : conn_ok c → conn_ok (setSent l c).
Proof. by intros []; split. Qed.

Lemma alter_stream f (o : nat) (l : list Stream) (k : nat) s :
  alter f o l !! k = Some s → (k = o ∧ ∃ s0, l !! k = Some s0 ∧ s = f s0) ∨ (k ≠ o ∧ l !! k = Some s).
Proof.
  destruct (decide (k = o)) as [-> | Hk].
  - rewrite list_lookup_alter_eq. intros (s0 & E & ->)%fmap_Some. left. split; [done|]. by exists s0.
  - rewrite list_lookup_alter_ne by done. by right.
Qed.

Lemma live_released s : live (markReleased s) = false.
Proof. done. Qed.
Lemma live_lost s : live (inPhase Lost s) = false.
Proof. unfold live. simpl. by rewrite andb_false_r. Qed.

(** The observation of the attachment is not the one being opened. *)
Lemma attached_not_opening c a r q o answer :
  conn_ok c → attachment c = Some a → requests c !! r = Some q → point q = Opening (Some o) answer → o ≠ observation a.
Proof.
  intros H Ha E Hp ->. destruct (ok_attached c H a Ha) as (_ & s & Es & Hg & _).
  destruct (ok_opening c H r q _ answer E Hp) as (s' & Es' & _ & Hg' & _). rewrite Es in Es'. simplify_eq. lia.
Qed.

Lemma detach_streams c k s :
  streams (detach c) !! k = Some s →
  (∃ a s0, attachment c = Some a ∧ k = observation a ∧ streams c !! k = Some s0 ∧ s = markReleased s0) ∨
  (∀ a, attachment c = Some a → k ≠ observation a) ∧ streams c !! k = Some s.
Proof.
  unfold detach, releaseAttached. destruct (attachment c) as [a|] eqn:Ea; simpl; [|by right].
  intros [(-> & s0 & E & ->) | [Hne E]]%alter_stream; [left; by exists a, s0|]. right. split; [|done]. by intros ? [= <-].
Qed.

Lemma detach_lookup c k s :
  (∀ a, attachment c = Some a → k ≠ observation a) → streams c !! k = Some s → streams (detach c) !! k = Some s.
Proof.
  unfold detach, releaseAttached. destruct (attachment c) as [a|] eqn:Ea; simpl; [|done].
  intros Hne E. rewrite list_lookup_alter_ne; [done|]. by intros <-; apply (Hne a).
Qed.

Lemma detach_ended c k :
  (∃ s, streams c !! k = Some s ∧ streamPhase s = Ended) → ∃ s, streams (detach c) !! k = Some s ∧ streamPhase s = Ended.
Proof.
  intros (s & E & Hs). unfold detach, releaseAttached. destruct (attachment c) as [a|] eqn:Ea; simpl; [|by exists s].
  destruct (decide (k = observation a)) as [-> | Hne].
  - exists (markReleased s). by rewrite list_lookup_alter_eq, E.
  - exists s. by rewrite list_lookup_alter_ne.
Qed.

Lemma detach_shape c :
  detach c = mkConnection None (attachmentGeneration c) (syncAttribution c) (disposed c) (transitions c)
               (streams (detach c)) (requests c) (sent c).
Proof. unfold detach, releaseAttached. by destruct (attachment c). Qed.

Lemma detach_ok c :
  conn_ok c →
  (∀ r q a answer, requests c !! r = Some q → point q = ReleasingPrevious a answer →
     disposed c = true ∨ ∃ s, streams c !! observation a = Some s ∧ streamPhase s = Ended) →
  conn_ok (detach c).
Proof.
  intros H Hprev. rewrite detach_shape. pose proof H as []. split; simpl; try done.
  - intros r q o answer E Hp. destruct (ok_opening c H r q o answer E Hp) as (s & Es & Hs). exists s. split; [|done].
    apply detach_lookup; [|done]. intros a Ha. by eapply attached_not_opening.
  - intros o s [(a & s0 & _ & -> & _ & ->) | [Hne E]]%detach_streams Hl; [done|]. right.
    destruct (ok_streams c H o s E Hl) as [(a & Ha & <-) | Hop]; [by destruct (Hne a Ha)|done].
  - intros r q a answer E Hp. right. split; [done|]. destruct (Hprev r q a answer E Hp) as [? | ?]; [by left|right].
    by apply detach_ended.
Qed.

Lemma finish_inv r os c c' :
  finish r os c = Some c' →
  ∃ q j s, requests c !! r = Some q ∧ job q = Some j ∧ settle j true (transitions c) = Some s ∧
    c' = mkConnection (attachment c) (attachmentGeneration c)
           (if eq_str (get (message q) "verb") "newSession" then None else syncAttribution c) (disposed c) s (streams c)
           (alter (atPoint Answered) r (requests c)) (sent c ++ (pair (ForRequest r) <$> omap frameOf os)).
Proof.
  unfold finish. intros (q & E & (j & Ej & (s & Es & Hc)%bind_Some)%bind_Some)%bind_Some. exists q, j, s.
  split_and!; [done..|]. simplify_eq. by destruct (eq_str _ _).
Qed.

Lemma unattributed_verb msg : eq_str (get msg "verb") "newSession" = false → attributionOf msg = None.
Proof. unfold attributionOf. by intros ->. Qed.

Lemma finish_ok r os c c' q :
  conn_ok c → requests c !! r = Some q → inTransition (point q) = true →
  (∀ o answer s, point q = Opening (Some o) answer → streams c !! o = Some s → live s = false) →
  finish r os c = Some c' → conn_ok c'.
Proof.
  intros H E Ht Hdead (q' & j & s & E' & Hj & Hs & ->)%finish_inv. simplify_eq.
  pose proof (alone_transition c r q H E Ht) as Hal. destruct (settle_jobs _ _ _ _ Hs) as [Hjobs Hdr].
  eapply (alone_ok c r q j (Settled true)); try done; [by eapply settle_ok; [apply ok_scope|]|apply ok_attached, H| |].
  - intros o s' Eo Hl. left. destruct (ok_streams c H o s' Eo Hl) as [? | (r' & q' & answer & Er & Hp)]; [done|].
    destruct (decide (r' = r)) as [-> | Hne]; [|by specialize (Hal r' q' Hne Er); rewrite Hp in Hal].
    simplify_eq. by rewrite (Hdead o answer s' Hp Eo) in Hl.
  - destruct (eq_str _ _) eqn:Ev; [done|]. rewrite (ok_attribution c H r q E Ht). by apply unattributed_verb.
Qed.

Lemma queued_unattributed c r q :
  conn_ok c → requests c !! r = Some q → point q = Queued → alone c r → syncAttribution c = None.
Proof.
  intros H E Hq Hal. apply (ok_unattributed c H). intros r' q' E'. destruct (decide (r' = r)) as [-> | Hne]; [|by apply (Hal r')].
  simplify_eq. by rewrite Hq.
Qed.

(** No stream is opened while the line is between two transitions. *)
Lemma queued_streams c r q o s :
  conn_ok c → requests c !! r = Some q → point q = Queued → alone c r → streams c !! o = Some s → live s = true →
  ∃ a, attachment c = Some a ∧ observation a = o.
Proof.
  intros H E Hq Hal Eo Hl. destruct (ok_streams c H o s Eo Hl) as [? | (r' & q' & answer & Er & Hp)]; [done|].
  destruct (decide (r' = r)) as [-> | Hne]; [congruence|]. by specialize (Hal r' q' Hne Er); rewrite Hp in Hal.
Qed.

Lemma started_finish_ok r q j s os c c' :
  conn_ok c → requests c !! r = Some q → job q = Some j → point q = Queued → start j (transitions c) = Some s →
  finish r os (setTransitions s c) = Some c' → conn_ok c'.
Proof.
  intros H E Hj Hq Hstart (q' & j' & s' & E' & Hj' & Hs & ->)%finish_inv. simpl in *. simplify_eq.
  pose proof (alone_started c r q j s H E Hj Hstart) as Hal.
  destruct (start_jobs _ _ _ Hstart) as [Hjobs Hdr], (settle_jobs _ _ _ _ Hs) as [Hjobs' Hdr'].
  pose proof (start_ok _ _ _ (ok_scope c H) Hstart) as Hsc. rewrite Hjobs, list_insert_insert_eq in Hjobs'.
  eapply (alone_ok c r q j (Settled true)); try done; [congruence|by eapply settle_ok|apply ok_attached, H| |].
  - intros o st Eo Hl. left. by eapply queued_streams.
  - rewrite (queued_unattributed c r q) by done. by destruct (eq_str _ _).
Qed.

Lemma detach_started_ok r q j s c :
  conn_ok c → requests c !! r = Some q → job q = Some j → point q = Queued → start j (transitions c) = Some s →
  conn_ok (detach c).
Proof.
  intros H E Hj Hq Hs. apply detach_ok; [done|]. intros r' q' a answer E' Hp.
  pose proof (alone_started c r q j s H E Hj Hs) as Hal. destruct (decide (r' = r)) as [-> | Hne]; [congruence|].
  by specialize (Hal r' q' Hne E'); rewrite Hp in Hal.
Qed.

Section steps.
  Context (devMode : bool) (engineError : string → string) (keyText : json → string).
  #[local] Abbreviation planFor := (planFor devMode engineError keyText).
  #[local] Abbreviation connectionStep := (connectionStep devMode engineError keyText).

(** The state in which the open is awaited. *)
Definition opening (r : nat) (q : Request) (s : LifecycleScope) (answer : json → list HostOutput) (routed : bool) (c : Connection) : Connection :=
  mkConnection (attachment c) (attachmentGeneration c)
    (if eq_str (get (message q) "verb") "newSession" then attributionOf (message q) else syncAttribution c) (disposed c) s
    (if routed then streams c ++ [mkStream r (attachmentGeneration c + 1) Unsynced false] else streams c)
    (alter (atPoint (Opening (if routed then Some (length (streams c)) else None) answer)) r (requests c)) (sent c).

(** What a turn that ends at once puts out. *)
Definition turnOutputs (id : json) (p : Plan) (os : list HostOutput) : Prop :=
  match p with
  | Throws error => os = [sendReply id false (JStr error)]
  | Answers os' => os = os'
  | Asks _ answer => os = answer JUndef
  end.

Lemma turnStarts_inv r routed c c' :
  turnStarts devMode engineError keyText r routed c = Some c' →
  ∃ q j s, requests c !! r = Some q ∧ job q = Some j ∧ point q = Queued ∧ start j (transitions c) = Some s ∧
    ((∃ os, turnOutputs (get (message q) "id") (planFor (message q) (setTransitions s c)) os ∧
        finish r os (setTransitions s c) = Some c') ∨
     (∃ os, turnOutputs (get (message q) "id") (planFor (message q) (setTransitions s c)) os ∧
        finish r os (setTransitions s (detach c)) = Some c') ∨
     (∃ call answer, planFor (message q) (setTransitions s c) = Asks call answer ∧ call ≠ DaemonDetach ∧
        c' = opening r q s answer routed c)).
Proof.
  unfold turnStarts. intros (q & E & (j & Hj & Hc)%bind_Some)%bind_Some. destruct (point q) eqn:Hq; try done.
  apply bind_Some in Hc as (s & Hs & Hc). exists q, j, s. split_and!; [done..|].
  assert (setTransitions s (detach c) = detach (setTransitions s c)) as Hcomm.
  { unfold detach, releaseAttached. simpl. by destruct (attachment c). }
  destruct (planFor (message q) (setTransitions s c)) as [error|call answer|os] eqn:Hp; [by left; eexists| |by left; eexists].
  assert (call = DaemonDetach ∨ call ≠ DaemonDetach) as [-> | Hne] by (destruct call; auto).
  { right. left. rewrite Hcomm. eexists. by split; [|exact Hc]. }
  right. right. exists call, answer. split_and!; [done..|]. unfold opening.
  destruct call; try done; destruct routed, (eq_str _ _); by simplify_eq/=.
Qed.

Lemma turnStarts_ok r routed c c' :
  conn_ok c → turnStarts devMode engineError keyText r routed c = Some c' → conn_ok c'.
Proof.
  intros H (q & j & s & E & Hj & Hq & Hs & [(os & _ & Hf) | [(os & _ & Hf) | (call & answer & _ & _ & ->)]])%turnStarts_inv.
  - by eapply started_finish_ok.
  - pose proof (detach_started_ok r q j s c H E Hj Hq Hs) as Hd. rewrite detach_shape in Hf, Hd.
    eapply (started_finish_ok r q j s os _ c' Hd); [done..|exact Hf].
  - pose proof (alone_started c r q j s H E Hj Hs) as Hal. destruct (start_jobs _ _ _ Hs) as [Hjobs Hdr].
    eapply (alone_ok c r q j Running); try done; [by eapply start_ok; [apply ok_scope|]| | | |].
    + intros a Ha. destruct (ok_attached c H a Ha) as (? & st & Est & ?). split; [done|]. exists st. split; [|done].
      destruct routed; [|done]. by apply lookup_app_l_Some.
    + intros o ans [= Ho _]. destruct routed; simplify_eq. exists (mkStream r (attachmentGeneration c + 1) Unsynced false).
      by rewrite lookup_app_r, Nat.sub_diag.
    + intros o st Est Hl. destruct routed.
      * apply lookup_snoc_Some in Est as [[_ Est] | [-> <-]]; [left; by eapply queued_streams|right; by eexists].
      * left. by eapply queued_streams.
    + simpl. rewrite (queued_unattributed c r q) by done. destruct (eq_str _ _) eqn:Ev; [done|]. by rewrite unattributed_verb.
Qed.

Lemma openFails_ok r error c c' : conn_ok c → openFails keyText r error c = Some c' → conn_ok c'.
Proof.
  unfold openFails. intros H (q & E & Hc)%bind_Some. destruct (point q) as [| |[o|] answer| | | |] eqn:Hp; try done.
  - assert (Hok : conn_ok (setPhase o Lost c)).
    { assert (Hal : alone c r) by (eapply alone_transition; [done..|by rewrite Hp]).
      pose proof H as []. split; simpl; try done.
      - intros a Ha. destruct (ok_attached c H a Ha) as (Hd & s & Es & Hs). split; [done|]. exists s. split; [|done].
        rewrite list_lookup_alter_ne; [done|]. by eapply attached_not_opening.
      - intros r' q' o' ans E' Hp'. destruct (ok_opening c H r' q' o' ans E' Hp') as (s & Es & Hs).
        destruct (decide (o' = o)) as [-> | Hne]; [exists (inPhase Lost s); by rewrite list_lookup_alter_eq, Es|].
        exists s. by rewrite list_lookup_alter_ne.
      - intros o' s [(-> & s0 & _ & ->) | [_ Es]]%alter_stream Hl; [by rewrite live_lost in Hl|]. by apply (ok_streams c H o' s).
      - intros r' q' a ans E' Hp'. destruct (decide (r' = r)) as [-> | Hne]; [congruence|].
        by specialize (Hal r' q' Hne E'); rewrite Hp' in Hal. }
    eapply (finish_ok r _ (setPhase o Lost c) c' q Hok E); [by rewrite Hp| |exact Hc].
    intros o' ans s Hp' Es. rewrite Hp in Hp'. simplify_eq. simpl in Es. rewrite list_lookup_alter_eq in Es.
    apply fmap_Some in Es as (s0 & _ & ->). apply live_lost.
  - eapply (finish_ok r _ c c' q H E); [by rewrite Hp| |exact Hc]. intros o' ans s Hp'. congruence.
Qed.

Lemma releaseResolves_ok r c c' : conn_ok c → releaseResolves r c = Some c' → conn_ok c'.
Proof.
  unfold releaseResolves. intros H (q & E & Hc)%bind_Some. destruct (point q) as [| | |answer|a answer| |] eqn:Hp; try done;
    (eapply (finish_ok r _ c c' q H E); [by rewrite Hp| |exact Hc]; intros o' ans s Hp'; congruence).
Qed.

(** The state in which [attach] awaits the release of the predecessor. *)
Definition attachedTo (r : nat) (a : AttachedSession) (g : Z) (answer : json → list HostOutput) (c : Connection) : Connection :=
  mkConnection (Some a) g (syncAttribution c) (disposed c) (transitions c) (streams (detach c))
    (alter (atPoint (ReleasingPrevious a answer)) r (requests c)) (sent c).

Lemma openSucceeds_inv r t c c' :
  openSucceeds r t c = Some c' →
  ∃ q o answer s, requests c !! r = Some q ∧ point q = Opening (Some o) answer ∧ streams c !! o = Some s ∧
    phaseSynced (streamPhase s) = true ∧
    ((disposed c = true ∧ c' = setPoint r (ReleasingOwn answer) (release o c)) ∨
     (disposed c = false ∧ c' = attachedTo r (mkAttached t o) (sinkGeneration s) answer c)).
Proof.
  unfold openSucceeds. intros (q & E & Hc)%bind_Some. destruct (point q) as [| |[o|] answer| | | |] eqn:Hp; try done.
  apply bind_Some in Hc as (s & Es & Hc). destruct (phaseSynced _) eqn:Hph; [|done]. exists q, o, answer, s. split_and!; [done..|].
  simpl in Hc. destruct (disposed c); simplify_eq; [by left|]. right. split; [done|].
  unfold attachedTo, detach, releaseAttached. by destruct (attachment c).
Qed.

Lemma running_insert c r q :
  conn_ok c → requests c !! r = Some q → inTransition (point q) = true →
  ∃ j, job q = Some j ∧ jobs (transitions c) = <[j := Running]> (jobs (transitions c)).
Proof. intros H E Ht. destruct (transition_job c r q H E Ht) as (j & Hj & Hb). exists j. by rewrite list_insert_id. Qed.

Lemma openSucceeds_ok r t c c' : conn_ok c → openSucceeds r t c = Some c' → conn_ok c'.
Proof.
  intros H (q & o & answer & s & E & Hp & Es & Hph & Hc)%openSucceeds_inv.
  assert (Ht : inTransition (point q) = true) by by rewrite Hp.
  destruct (running_insert c r q H E Ht) as (j & Hj & Hjobs). pose proof (alone_transition c r q H E Ht) as Hal.
  destruct (ok_opening c H r q o answer E Hp) as (s' & Es' & _ & Hg & Hrel). simplify_eq.
  destruct Hc as [[Hd ->] | [Hd ->]].
  - assert (attachment c = None) as Ha.
    { destruct (attachment c) as [a|] eqn:Ea; [|done]. destruct (ok_attached c H a Ea); congruence. }
    eapply (alone_ok c r q j Running); try done.
    + apply (ok_scope c H).
    + intros a Ha'. change (attachment c = Some a) in Ha'. congruence.
    + simpl. intros o' s' [(-> & s0 & _ & ->) | [Hne Eo]]%alter_stream Hl; [done|].
      destruct (ok_streams c H o' s' Eo Hl) as [? | (r' & q' & ans & E' & Hp')]; [by left|].
      destruct (decide (r' = r)) as [-> | Hner]; [congruence|]. by specialize (Hal r' q' Hner E'); rewrite Hp' in Hal.
    + simpl. by apply (ok_attribution c H r).
  - eapply (alone_ok c r q j Running); try done.
    + apply (ok_scope c H).
    + intros a [= <-]. split; [done|]. exists s. split_and!; [|done..]. apply detach_lookup; [|done].
      intros a Ha. by eapply attached_not_opening.
    + intros o' s' [(a & s0 & _ & -> & _ & ->) | [Hne Eo]]%detach_streams Hl; [done|]. left. exists (mkAttached t o). split; [done|].
      destruct (ok_streams c H o' s' Eo Hl) as [(a & Ha & <-) | (r' & q' & ans & E' & Hp')]; [by destruct (Hne a Ha)|].
      destruct (decide (r' = r)) as [-> | Hner]; [assert (q' = q) as -> by congruence; rewrite Hp in Hp'; by simplify_eq|]. by specialize (Hal r' q' Hner E'); rewrite Hp' in Hal.
    + by intros a ans [= <- _].
    + by apply (ok_attribution c H r).
Qed.

(** A stream that delivers is the attachment's, at the current generation, or
    the one being opened, at the next. *)
Lemma live_stream c o s :
  conn_ok c → streams c !! o = Some s → live s = true →
  (∃ a, attachment c = Some a ∧ observation a = o ∧ sinkGeneration s = attachmentGeneration c ∧
     phaseSynced (streamPhase s) = true) ∨
  (∃ q answer, requests c !! opener s = Some q ∧ point q = Opening (Some o) answer ∧
     sinkGeneration s = (attachmentGeneration c + 1)%Z).
Proof.
  intros H Es Hl. destruct (ok_streams c H o s Es Hl) as [(a & Ha & <-) | (r & q & answer & E & Hp)].
  - left. exists a. destruct (ok_attached c H a Ha) as (_ & s' & Es' & ? & _ & ?). by simplify_eq.
  - right. destruct (ok_opening c H r q o answer E Hp) as (s' & Es' & <- & ? & _). simplify_eq. by exists q, answer.
Qed.

Lemma streamStep_live f p p' :
  streamStep f p = Some p' → (p = Unsynced ∨ p = Synced) ∧ (phaseSynced p = true → phaseSynced p' = true).
Proof. destruct p, f as [? ?|[?|] ?|? ?]; intros [= <-]; auto. Qed.

Lemma deliver_inv o f c c' :
  deliver o f c = Some c' →
  ∃ s p, streams c !! o = Some s ∧ live s = true ∧ streamStep f (streamPhase s) = Some p ∧
    c' = deliverObservation o f (sinkGeneration s) (setPhase o p c).
Proof.
  unfold deliver. intros (s & Es & Hc)%bind_Some. destruct (released s) eqn:Hr; [done|].
  apply bind_Some in Hc as (p & Hp & [= <-]). exists s, p. split_and!; [done| |done..].
  unfold live. rewrite Hr. by destruct (streamStep_live _ _ _ Hp) as [[-> | ->] _].
Qed.

Lemma setPhase_ok o p s c :
  conn_ok c → streams c !! o = Some s → live s = true → (phaseSynced (streamPhase s) = true → phaseSynced p = true) →
  conn_ok (setPhase o p c).
Proof.
  intros H Es Hl Hp. pose proof H as []. split; simpl; try done.
  - intros a Ha. destruct (ok_attached c H a Ha) as (Hd & s' & Es' & Hg & Hr & Hph). split; [done|].
    destruct (decide (observation a = o)) as [<- | Hne].
    + exists (inPhase p s'). rewrite list_lookup_alter_eq, Es'. simplify_eq. split_and!; [done..|by apply Hp].
    + exists s'. by rewrite list_lookup_alter_ne.
  - intros r' q' o' ans E' Hp'. destruct (ok_opening c H r' q' o' ans E' Hp') as (s' & Es' & Hs).
    destruct (decide (o' = o)) as [-> | Hne]; [exists (inPhase p s'); by rewrite list_lookup_alter_eq, Es'|].
    exists s'. by rewrite list_lookup_alter_ne.
  - intros o' s' [(-> & s0 & E0 & ->) | [_ Es']]%alter_stream Hl'; [|by apply (ok_streams c H o' s')].
    simplify_eq. by apply (ok_streams c H o s).
  - intros r' q' a ans E' Hp'. destruct (ok_previous c H r' q' a ans E' Hp') as [? | [Ha [? | (s' & Es' & Hs)]]]; [by left|by right; split; [|left]|].
    right. split; [done|]. right. exists s'. split; [|done]. rewrite list_lookup_alter_ne; [done|]. intros ->.
    simplify_eq. unfold live in Hl. by rewrite Hs, andb_false_r in Hl.
Qed.

Lemma deliver_ok o f c c' : conn_ok c → deliver o f c = Some c' → conn_ok c'.
Proof.
  intros H (s & p & Es & Hl & Hp & ->)%deliver_inv.
  destruct (streamStep_live _ _ _ Hp) as [_ Hun].
  pose proof (setPhase_ok o p s c H Es Hl Hun) as Hok. unfold deliverObservation.
  destruct f as [session doc|[session|] ops|projectId stem]; try by apply conn_ok_sent.
  destruct (bool_decide _) eqn:Hg; [|by apply conn_ok_sent]. apply bool_decide_eq_true in Hg. simpl negb. cbn iota.
  apply detach_ok; [by apply conn_ok_sent|]. simpl. intros r q a answer E Hpt.
  destruct (live_stream c o s H Es Hl) as [(b & Hb & <- & _ & Hsy) | (q' & ans & _ & _ & Hg')]; [|simpl in Hg; lia].
  assert (p = Ended) as -> by (by destruct (streamPhase s); simplify_eq/=).
  right. destruct (ok_previous c H r q a answer E Hpt) as [Ha | [Ha _]]; [|congruence].
  exists (inPhase Ended s). assert (a = b) as -> by congruence. cbn. by rewrite list_lookup_alter_eq, Es.
Qed.

(** A request that is not on the line may be added, or change among the points
    off it. *)
Lemma off_line_ok c qs tr :
  conn_ok c → line_ok qs (jobs tr) → scope_ok tr → drain tr = drain (transitions c) →
  (∀ r q, inTransition (point q) = true → qs !! r = Some q ↔ requests c !! r = Some q) →
  conn_ok (setRequests qs (setTransitions tr c)).
Proof.
  intros H Hline Hsc Hdr Hqs. pose proof H as []. split; simpl; try done.
  - by rewrite Hdr.
  - intros r q o answer E Hp. apply Hqs in E; [|by rewrite Hp]. by eapply (ok_opening c H).
  - intros o s Es Hl. destruct (ok_streams c H o s Es Hl) as [? | (r & q & answer & E & Hp)]; [by left|].
    right. exists r, q, answer. split; [|done]. apply Hqs; [by rewrite Hp|done].
  - intros r q a answer E Hp. apply Hqs in E; [|by rewrite Hp]. by eapply (ok_previous c H).
  - intros r q E Ht. apply Hqs in E; [|done]. by eapply (ok_attribution c H).
  - intros Hno. apply (ok_unattributed c H). intros r q E. destruct (inTransition (point q)) eqn:Et; [|done].
    apply Hqs in E; [|done]. by rewrite <- Et, (Hno r q E).
Qed.

Lemma add_off_line qs x (r : nat) q :
  inTransition (point x) = false → inTransition (point q) = true → (qs ++ [x]) !! r = Some q ↔ qs !! r = Some q.
Proof.
  intros Hx Hq. rewrite lookup_snoc_Some. split; [intros [[_ ?] | [_ <-]]; [done|congruence]|].
  intros E. left. by split; [apply lookup_lt_Some in E|].
Qed.

Lemma receives_ok msg c : conn_ok c → conn_ok (receives devMode engineError keyText msg c).
Proof.
  intros H. unfold receives, runTransition, addRequest. pose proof (ok_line c H) as Hline.
  assert (∀ m p, pointFree p → inTransition p = false → conn_ok (setRequests (requests c ++ [mkRequest m None p]) c)) as Hfree.
  { intros m p Hp Ht. apply (off_line_ok c _ (transitions c)); [done| |by apply ok_scope|done|by intros; apply add_off_line].
    rewrite <- (app_nil_r (jobs _)). by apply (line_add _ _ (mkRequest m None p) None). }
  destruct (nullish msg); [done|]. destruct (isTransition msg); [|by apply Hfree].
  destruct (run (transitions c)) as [s|] eqn:Hrun; [|by apply Hfree].
  pose proof (run_ok _ _ (ok_scope c H) Hrun) as Hsc. unfold run in Hrun. destruct (drain (transitions c)) eqn:Hd; [done|].
  injection Hrun as <-. apply (off_line_ok c _ (mkScope _ _ _)); [done| |done|by rewrite Hd|by intros; apply add_off_line].
  by apply (line_add _ _ (mkRequest msg (Some (Scope.tail (transitions c))) Queued) (Some (Scope.tail (transitions c)))).
Qed.

Lemma answered_off_line c r q :
  conn_ok c → requests c !! r = Some q → inTransition (point q) = false → point q ≠ Queued →
  point q ≠ Answered → conn_ok (setPoint r Answered c).
Proof.
  intros H E Ht Hq Ha. apply (off_line_ok c _ (transitions c)); [done| |by apply ok_scope|done|].
  - eapply line_free; [by apply ok_line|done| |done].
    pose proof (line_point _ _ (ok_line c H) r q E) as Hp. destruct (job q) as [j|]; [|done].
    destruct Hp as (b & _ & Hp). by destruct (point q).
  - intros r' q' Ht'. destruct (decide (r' = r)) as [-> | Hne]; [|by rewrite list_lookup_alter_ne].
    rewrite list_lookup_alter_eq, E. split; [intros [= <-]; done|intros [= <-]; congruence].
Qed.

Lemma replies_ok r outcome c c' : conn_ok c → replies r outcome c = Some c' → conn_ok c'.
Proof.
  unfold replies. intros H (q & E & Hc)%bind_Some. destruct (point q) eqn:Hp; simplify_eq.
  apply conn_ok_sent. by apply (answered_off_line c r q H E); rewrite Hp.
Qed.

Lemma refusalReplies_ok r c c' : conn_ok c → refusalReplies r c = Some c' → conn_ok c'.
Proof.
  unfold refusalReplies. intros H (q & E & Hc)%bind_Some. destruct (point q) eqn:Hp; simplify_eq.
  apply conn_ok_sent. by apply (answered_off_line c r q H E); rewrite Hp.
Qed.

Lemma dispose_ok c : conn_ok c → conn_ok (dispose c).
Proof.
  intros H. unfold dispose. rewrite detach_shape. pose proof H as [].
  assert (jobs (close (transitions c)) = jobs (transitions c)) as Hjobs by (unfold close; by destruct (drain (transitions c))).
  assert (streams (detach (setDisposed c)) = streams (detach c)) as ->.
  { unfold detach, releaseAttached. simpl. by destruct (attachment c). }
  split; simpl; try done.
  - by rewrite Hjobs.
  - by apply close_scope_ok.
  - split; [|done]. intros _. unfold close. destruct (drain (transitions c)) eqn:E; [rewrite E|]; by eexists.
  - intros r q o answer E Hp. destruct (ok_opening c H r q o answer E Hp) as (s & Es & Hs). exists s. split; [|done].
    apply detach_lookup; [|done]. intros a Ha. by eapply attached_not_opening.
  - intros o s [(a & s0 & _ & -> & _ & ->) | [Hne E]]%detach_streams Hl; [done|]. right.
    destruct (ok_streams c H o s E Hl) as [(a & Ha & <-) | Hop]; [by destruct (Hne a Ha)|done].
  - intros r q a answer E Hp. right. split; [done|]. by left.
Qed.

Lemma connectionStep_ok e c c' : conn_ok c → connectionStep e c = Some c' → conn_ok c'.
Proof.
  intros H E. destruct e; simpl in E.
  - injection E as <-. by apply receives_ok.
  - by eapply turnStarts_ok.
  - by eapply deliver_ok.
  - by eapply openSucceeds_ok.
  - by eapply openFails_ok.
  - by eapply releaseResolves_ok.
  - by eapply replies_ok.
  - by eapply refusalReplies_ok.
  - injection E as <-. by apply conn_ok_sent.
  - injection E as <-. by apply dispose_ok.
  - apply fmap_Some in E as (s & Hd & ->). pose proof (drained_ok _ _ (ok_scope c H) Hd) as Hsc.
    unfold drained in Hd. destruct (drain (transitions c)) as [n|] eqn:Edr; [|done].
    destruct (scopeState (transitions c)); try done. destruct (tailSettled _ _); [|done]. injection Hd as <-.
    apply (off_line_ok c (requests c)); [done|by apply ok_line|done|by rewrite Edr|done].
Qed.

Lemma createConnection_ok : conn_ok createConnection.
Proof. by split; simpl; try done. Qed.

(** An invariant of the steps holds in every reachable state. *)
Lemma reachable_ind (P : Connection → Prop) :
  P createConnection → (∀ e c c', conn_ok c → P c → connectionStep e c = Some c' → P c') →
  ∀ c, reachable devMode engineError keyText c → conn_ok c ∧ P c.
Proof.
  intros H0 Hstep c (es & Hrun).
  assert (∀ c0, conn_ok c0 → P c0 → runConnection devMode engineError keyText es c0 = Some c → conn_ok c ∧ P c) as Hgen.
  { clear Hrun. induction es as [|e es IH]; intros c0 Hc HP Hrun; [by simplify_eq/=|].
    simpl in Hrun. apply bind_Some in Hrun as (c1 & E & Hrun). apply (IH c1); [|by eapply Hstep|done].
    by eapply connectionStep_ok. }
  by apply (Hgen createConnection createConnection_ok).
Qed.

Lemma connection_reachable_ok c : reachable devMode engineError keyText c → conn_ok c.
Proof. intros H. by apply (reachable_ind (λ _, True)) in H as [? _]. Qed.
End steps.
