(* ===== verification/Attachment.v ===== *)
(** * What a client sees of its attachments

    The theorems on [Connection] and on its composition with the client of
    [Client] through the codec: whose frames a client applies, what a reply
    promises about the attachment, and what a disposed connection leaves behind. *)

From S2P Require Export Connection.

(** ** What a step adds *)

Section evolution.
  Context (devMode : bool) (engineError : string → string) (keyText : json → string).
  #[local] Abbreviation connectionStep := (connectionStep devMode engineError keyText).
  #[local] Abbreviation reachable := (reachable devMode engineError keyText).

(** A frame of an observation that a client's mirror reads. *)
Definition isObservationFrame (f : HostFrame) : bool :=
  match f with ReplaceFrame_ _ _ _ _ | SyncPatchFrame _ _ _ _ | LivePatchFrame _ _ => true | _ => false end.

(** A step that delivers nothing to the mirror: streams keep their opener and
    generation, none comes to life, and a new one is unsynced. *)
Record calm (c c' : Connection) : Prop := {
  calm_sent : ∃ l, sent c' = sent c ++ l ∧ Forall (λ x, isObservationFrame x.2 = false) l;
  calm_old : ∀ k s', streams c' !! k = Some s' →
    (∃ s, streams c !! k = Some s ∧ sinkGeneration s' = sinkGeneration s ∧ opener s' = opener s ∧
       (live s' = true → live s = true ∧ streamPhase s' = streamPhase s) ∧
       (phaseSynced (streamPhase s') = true → phaseSynced (streamPhase s) = true)) ∨
    streams c !! k = None ∧ phaseSynced (streamPhase s') = false;
  calm_kept : ∀ k s, streams c !! k = Some s →
    ∃ s', streams c' !! k = Some s' ∧ sinkGeneration s' = sinkGeneration s ∧ opener s' = opener s;
  calm_opening : ∀ r q o answer, requests c' !! r = Some q → point q = Opening (Some o) answer →
    (∃ q0, requests c !! r = Some q0 ∧ point q0 = Opening (Some o) answer) ∨ streams c !! o = None;
  calm_requests : ∀ r q, requests c !! r = Some q → ∃ q', requests c' !! r = Some q' ∧ message q' = message q
}.

Lemma calm_refl c : calm c c.
Proof.
  split; [exists []; by rewrite app_nil_r|intros k s E; left; by exists s|intros k s E; by exists s| |intros r q E; by exists q].
  intros r q o answer E Hp. left. by exists q.
Qed.

Lemma calm_trans c1 c2 c3 : calm c1 c2 → calm c2 c3 → calm c1 c3.
Proof.
  intros [(l & Hl & Fl) Ho Hk Hop Hr] [(l' & Hl' & Fl') Ho' Hk' Hop' Hr']. split.
  - exists (l ++ l'). rewrite Hl', Hl, app_assoc. split; [done|by apply Forall_app].
  - intros k s3 E3. destruct (Ho' k s3 E3) as [(s2 & E2 & Hg & Hopn & Hlive & Hsy) | [E2 Hu]].
    + destruct (Ho k s2 E2) as [(s1 & E1 & Hg1 & Hop1 & Hlive1 & Hsy1) | [E1 Hu]].
      * left. exists s1. split_and!; [done|congruence..| |auto]. intros H3. destruct (Hlive H3) as [H2 Hp].
        destruct (Hlive1 H2). split; [done|congruence].
      * right. split; [done|]. destruct (phaseSynced (streamPhase s3)); [|done]. by rewrite Hsy in Hu.
    + right. split; [|done]. destruct (streams c1 !! k) as [s|] eqn:E1; [|done].
      destruct (Hk k s E1) as (s2 & ? & _). congruence.
  - intros k s E. destruct (Hk k s E) as (s2 & E2 & ? & ?), (Hk' k s2 E2) as (s3 & E3 & ? & ?). exists s3. split_and!; [done|congruence..].
  - intros r q o answer E Hp. destruct (Hop' r q o answer E Hp) as [(q2 & E2 & Hp2) | E2].
    + by eapply Hop.
    + right. destruct (streams c1 !! o) as [s|] eqn:E1; [|done]. destruct (Hk o s E1) as (s2 & ? & _). congruence.
  - intros r q E. destruct (Hr r q E) as (q2 & E2 & ?), (Hr' r q2 E2) as (q3 & E3 & ?). exists q3. split; [done|congruence].
Qed.

(** Steps on other fields. *)
Lemma calm_same c c' l :
  streams c' = streams c → requests c' = requests c → sent c' = sent c ++ l →
  Forall (λ x, isObservationFrame x.2 = false) l → calm c c'.
Proof.
  intros Es Er El Fl. split; [by exists l|rewrite Es|rewrite Es|rewrite Er|rewrite Er].
  - intros k s E. left. by exists s.
  - intros k s E. by exists s.
  - intros r q o answer E Hp. left. by exists q.
  - intros r q E. by exists q.
Qed.

Lemma calm_nothing c c' : streams c' = streams c → requests c' = requests c → sent c' = sent c → calm c c'.
Proof. intros Es Er El. apply (calm_same c c' []); [done..|by rewrite app_nil_r|done]. Qed.

Lemma outputs_replies r os : Forall (λ x, isObservationFrame x.2 = false) (pair (ForRequest r) <$> omap frameOf os).
Proof. apply Forall_fmap, Forall_forall. intros f ([] & _ & [= <-])%list_elem_of_omap. done. Qed.

Lemma calm_outputs r os c : calm c (sendOutputs r os c).
Proof. by eapply calm_same; [..|apply outputs_replies]. Qed.

Lemma calm_alter f (o : nat) c :
  (∀ s, streams c !! o = Some s → sinkGeneration (f s) = sinkGeneration s ∧ opener (f s) = opener s ∧
        (live (f s) = true → live s = true ∧ streamPhase (f s) = streamPhase s) ∧
        (phaseSynced (streamPhase (f s)) = true → phaseSynced (streamPhase s) = true)) →
  calm c (setStreams (alter f o (streams c)) c).
Proof.
  intros Hf. split; simpl.
  - exists []. by rewrite app_nil_r.
  - intros k s [(-> & s0 & E & ->) | [_ E]]%alter_stream; left; [exists s0|by exists s]. by destruct (Hf s0 E) as (? & ? & ? & ?).
  - intros k s E. destruct (decide (k = o)) as [-> | Hne].
    + exists (f s). rewrite list_lookup_alter_eq, E. by destruct (Hf s E) as (? & ? & _).
    + exists s. by rewrite list_lookup_alter_ne.
  - intros r q k answer E Hp. left. by exists q.
  - intros r q E. by exists q.
Qed.

Lemma calm_release o c : calm c (release o c).
Proof. by apply calm_alter. Qed.
Lemma calm_lost o c : calm c (setPhase o Lost c).
Proof. apply calm_alter. intros s _. split_and!; [done..| |done]. by rewrite live_lost. Qed.

(** The terminal frame. *)
Lemma calm_closed o s projectId stem p c :
  streams c !! o = Some s → streamStep (ClosedFrame projectId stem) (streamPhase s) = Some p → calm c (setPhase o p c).
Proof.
  intros Es Hp. apply calm_alter. intros s' Es'. simplify_eq.
  destruct (streamPhase s); simplify_eq/=; (split_and!; [done..| |done]); unfold live; simpl; by rewrite andb_false_r.
Qed.
Lemma calm_detach c : calm c (detach c).
Proof.
  unfold detach, releaseAttached. destruct (attachment c) as [a|]; [|by apply calm_nothing].
  eapply calm_trans; [apply (calm_release (observation a))|by apply calm_nothing].
Qed.

Lemma calm_point r p c :
  (∀ o answer, p = Opening (Some o) answer → streams c !! o = None) → calm c (setPoint r p c).
Proof.
  intros Hp. split; simpl.
  - exists []. by rewrite app_nil_r.
  - intros k s E. left. by exists s.
  - intros k s E. by exists s.
  - intros k q o answer [(-> & q0 & E & ->) | [_ E]]%alter_request Hq; [right; by eapply Hp|left; by exists q].
  - intros k q E. destruct (decide (k = r)) as [-> | Hne]; [exists (atPoint p q); by rewrite list_lookup_alter_eq, E|].
    exists q. by rewrite list_lookup_alter_ne.
Qed.

Lemma calm_add msg j p c :
  (∀ o answer, p ≠ Opening (Some o) answer) → calm c (addRequest msg j p c).
Proof.
  intros Hp. split; simpl.
  - exists []. by rewrite app_nil_r.
  - intros k s E. left. by exists s.
  - intros k s E. by exists s.
  - intros k q o answer [[_ E] | [_ <-]]%lookup_snoc_Some Hq; [left; by exists q|by destruct (Hp o answer)].
  - intros k q E. exists q. split; [|done]. by apply lookup_app_l_Some.
Qed.

Lemma calm_finish r os c c' : finish r os c = Some c' → calm c c'.
Proof.
  intros (q & j & s & _ & _ & _ & ->)%finish_inv. eapply calm_trans; [by apply (calm_point r Answered)|].
  by eapply calm_same; [..|apply outputs_replies].
Qed.

Lemma calm_opens r q s answer routed c : calm c (opening r q s answer routed c).
Proof.
  eapply calm_trans; [apply (calm_point r (Opening (if routed then Some (length (streams c)) else None) answer))|].
  { intros o ans [= Ho _]. destruct routed; simplify_eq. by apply lookup_ge_None. }
  split; simpl.
  - exists []. by rewrite app_nil_r.
  - intros k s' E. destruct routed; [|left; by exists s'].
    apply lookup_snoc_Some in E as [[_ E] | [-> <-]]; [left; by exists s'|]. right. split; [by apply lookup_ge_None|done].
  - intros k s' E. exists s'. split; [|done]. destruct routed; [by apply lookup_app_l_Some|done].
  - intros k q' o ans E Hp. left. by exists q'.
  - intros k q' E. by exists q'.
Qed.

(** Every step but a delivery to a live stream is calm. *)
Lemma step_calm e c c' :
  connectionStep e c = Some c' → (∀ o f, e = Delivers o f → ∃ projectId stem, f = ClosedFrame projectId stem) →
  calm c c'.
Proof.
  intros E Hnot. destruct e; simpl in E.
  - injection E as <-. unfold receives, runTransition. destruct (nullish msg); [apply calm_refl|].
    destruct (isTransition msg); [|by apply calm_add]. destruct (run _); [|by apply calm_add].
    by eapply calm_trans; [|by apply calm_add]; apply calm_nothing.
  - apply turnStarts_inv in E as (q & j & s & _ & _ & _ & _ & [(os & _ & Hf) | [(os & _ & Hf) | (call & answer & _ & _ & ->)]]).
    + eapply calm_trans; [|by eapply calm_finish]. by apply calm_nothing.
    + eapply calm_trans; [apply calm_detach|]. eapply calm_trans; [|by eapply calm_finish]. by apply calm_nothing.
    + apply calm_opens.
  - destruct (Hnot o f eq_refl) as (p & stem & ->). apply deliver_inv in E as (s & ph & Es & _ & Hph & ->).
    eapply calm_trans; [by eapply calm_closed|]. unfold deliverObservation.
    destruct (negb _); [|eapply calm_trans; [|apply calm_detach]]; (eapply calm_same; [done..|]); by apply Forall_singleton.
  - apply openSucceeds_inv in E as (q & o & answer & s & _ & _ & _ & _ & [[_ ->] | [_ ->]]).
    + eapply calm_trans; [apply (calm_release o)|by apply calm_point].
    + eapply calm_trans; [apply calm_detach|]. eapply calm_trans; [by apply (calm_point r (ReleasingPrevious (mkAttached t o) answer))|].
      apply calm_nothing; [done| |]; by rewrite (detach_shape c).
  - unfold openFails in E. apply bind_Some in E as (q & _ & E). destruct (point q) as [| |[o|] answer| | | |]; try done.
    + eapply calm_trans; [apply (calm_lost o)|by eapply calm_finish].
    + by eapply calm_finish.
  - unfold releaseResolves in E. apply bind_Some in E as (q & _ & E).
    destruct (point q); try done; by eapply calm_finish.
  - unfold replies in E. apply bind_Some in E as (q & _ & E). destruct (point q); simplify_eq.
    apply (calm_trans _ (setPoint r Answered c)); [by apply calm_point|apply calm_outputs].
  - unfold refusalReplies in E. apply bind_Some in E as (q & _ & E). destruct (point q); simplify_eq.
    apply (calm_trans _ (setPoint r Answered c)); [by apply calm_point|apply calm_outputs].
  - injection E as <-. eapply calm_same; [done..|by apply Forall_singleton].
  - injection E as <-. unfold dispose. apply (calm_trans _ (setDisposed c)); [by apply calm_nothing|].
    apply (calm_trans _ (detach (setDisposed c))); [apply calm_detach|by apply calm_nothing].
  - apply fmap_Some in E as (s & _ & ->). by apply calm_nothing.
Qed.

(** ** Whose frames they are *)

Definition syncOf (f : HostFrame) : option (Z * option string) :=
  match f with ReplaceFrame_ g _ _ op | SyncPatchFrame g _ _ op => Some (g, op) | _ => None end.

(** The stream, and the generation, of the last initial sync. *)
Definition ownerStep (own : option (nat * Z)) (x : Sender * HostFrame) : option (nat * Z) :=
  match x.1, syncOf x.2 with ForStream o, Some (g, _) => Some (o, g) | _, _ => own end.
Definition owner (l : list (Sender * HostFrame)) : option (nat * Z) := foldl ownerStep None l.

(** A live patch of the owner's generation is the owner's. *)
Definition fits (own : option (nat * Z)) (x : Sender * HostFrame) : Prop :=
  match x.2 with LivePatchFrame g _ => ∀ o, own = Some (o, g) → x.1 = ForStream o | _ => True end.
Fixpoint wellOwned (own : option (nat * Z)) (l : list (Sender * HostFrame)) : Prop :=
  match l with [] => True | x :: l => fits own x ∧ wellOwned (ownerStep own x) l end.

Lemma wellOwned_app own l l' : wellOwned own (l ++ l') ↔ wellOwned own l ∧ wellOwned (foldl ownerStep own l) l'.
Proof. revert own. induction l as [|x l IH]; intros own; simpl; [tauto|]. rewrite IH. tauto. Qed.

Lemma owner_app l l' : owner (l ++ l') = foldl ownerStep (owner l) l'.
Proof. apply foldl_app. Qed.

Lemma calm_owner own l :
  Forall (λ x, isObservationFrame x.2 = false) l → foldl ownerStep own l = own ∧ wellOwned own l.
Proof.
  induction 1 as [|[from f] l Hf _ [IHo IHw]]; [done|]. simpl.
  assert (ownerStep own (from, f) = own) as -> by (by destruct from, f). split_and!; [done| |done]. by destruct f.
Qed.

Record owned_ok (c : Connection) : Prop := {
  owned_fits : wellOwned None (sent c);
  owned_stream : ∀ o g, owner (sent c) = Some (o, g) → ∃ s, streams c !! o = Some s ∧ sinkGeneration s = g;
  (** whatever else has the owner's generation has not been synced *)
  owned_other : ∀ o g o' s', owner (sent c) = Some (o, g) → streams c !! o' = Some s' → o' ≠ o →
    sinkGeneration s' = g → live s' = true → streamPhase s' = Unsynced;
  owned_opening : ∀ r q o answer s, requests c !! r = Some q → point q = Opening (Some o) answer →
    streams c !! o = Some s → phaseSynced (streamPhase s) = true → owner (sent c) = Some (o, sinkGeneration s);
  owned_attached : ∀ a, attachment c = Some a →
    owner (sent c) = Some (observation a, attachmentGeneration c) ∨
    ∃ o, owner (sent c) = Some (o, (attachmentGeneration c + 1)%Z);
  sync_attributed : ∀ o f g op, (ForStream o, f) ∈ sent c → syncOf f = Some (g, op) →
    ∃ s q, streams c !! o = Some s ∧ sinkGeneration s = g ∧ requests c !! opener s = Some q ∧ op = attributionOf (message q)
}.

(** A calm step that neither attaches nor changes the generation. *)
Lemma calm_owned c c' :
  owned_ok c → calm c c' →
  (∀ a, attachment c' = Some a →
     owner (sent c) = Some (observation a, attachmentGeneration c') ∨
     ∃ o, owner (sent c) = Some (o, (attachmentGeneration c' + 1)%Z)) → owned_ok c'.
Proof.
  intros [Hf Hs Ho Hop Ha Hat] [(l & Hl & Fl) Hold Hkept Hopening Hreq] Hatt.
  destruct (calm_owner (owner (sent c)) l Fl) as [Hown Hwell].
  assert (owner (sent c') = owner (sent c)) as Eown by by rewrite Hl, owner_app.
  split; rewrite ?Eown.
  - rewrite Hl. by apply wellOwned_app.
  - intros o g Eo. destruct (Hs o g Eo) as (s & Es & <-), (Hkept o s Es) as (s' & Es' & ? & _). by exists s'.
  - intros o g o' s' Eo Es' Hne Hg Hl'. destruct (Hold o' s' Es') as [(s & Es & Hg' & _ & Hlv & _) | [_ Hu]].
    + destruct (Hlv Hl') as [Hlive ->]. eapply (Ho o g o' s); congruence.
    + unfold live in Hl'. destruct (streamPhase s'); try done; by rewrite andb_false_r in Hl'.
  - intros r q o answer s' E Hp Es' Hsy. destruct (Hold o s' Es') as [(s & Es & -> & _ & _ & Hsy') | [_ Hu]]; [|congruence].
    destruct (Hopening r q o answer E Hp) as [(q0 & E0 & Hp0) | Hnone]; [|congruence].
    apply (Hop r q0 o answer s); auto.
  - exact Hatt.
  - intros o f g op Hin Hsync. rewrite Hl in Hin. apply elem_of_app in Hin as [Hin | Hin].
    + destruct (Hat o f g op Hin Hsync) as (s & q & Es & Hg & E & ->).
      destruct (Hkept o s Es) as (s' & Es' & ? & Hopn), (Hreq _ q E) as (q' & E' & Hm).
      exists s', q'. split_and!; [done|congruence|by rewrite Hopn|by rewrite Hm].
    + rewrite Forall_forall in Fl. specialize (Fl _ Hin). by destruct f.
Qed.

(** A delivery to the mirror. *)
Definition delivered (o : nat) (f : HostFrame) (c : Connection) : Connection :=
  mkConnection (attachment c) (attachmentGeneration c) (syncAttribution c) (disposed c) (transitions c)
    (alter (inPhase Synced) o (streams c)) (requests c) (sent c ++ [(ForStream o, f)]).

Lemma delivered_inv o f c c' :
  deliver o f c = Some c' → (∀ projectId stem, f ≠ ClosedFrame projectId stem) →
  ∃ s frame, streams c !! o = Some s ∧ live s = true ∧ c' = delivered o frame c ∧
    ((streamPhase s = Unsynced ∧ syncOf frame = Some (sinkGeneration s, syncAttribution c)) ∨
     (streamPhase s = Synced ∧ ∃ ops, frame = LivePatchFrame (sinkGeneration s) ops)).
Proof.
  intros (s & p & Es & Hl & Hp & ->)%deliver_inv Hnot.
  destruct f as [session doc|[session|] ops|? stem]; [| | |by destruct (Hnot projectId stem)];
    destruct (streamPhase s) eqn:Eph; simplify_eq/=; eexists s, _; (split_and!; [done|done|reflexivity|]); eauto.
Qed.

Lemma alter_same f (o : nat) (l : list Stream) s : l !! o = Some s → f s = s → alter f o l = l.
Proof.
  intros E Hf. apply list_eq. intros k. destruct (decide (k = o)) as [-> | Hne].
  - rewrite list_lookup_alter_eq, E. simpl. by rewrite Hf.
  - by rewrite list_lookup_alter_ne.
Qed.

Lemma live_patch_owned o ops s c :
  owned_ok c → streams c !! o = Some s → live s = true → streamPhase s = Synced →
  owned_ok (delivered o (LivePatchFrame (sinkGeneration s) ops) c).
Proof.
  intros [Hf Hs Ho Hop Ha Hat] Es Hl Hsy. unfold delivered.
  rewrite (alter_same _ o (streams c) s) by (done || by destruct s; simplify_eq/=).
  assert (owner (sent c ++ [(ForStream o, LivePatchFrame (sinkGeneration s) ops)]) = owner (sent c)) as Eown by by rewrite owner_app.
  split; simpl; rewrite ?Eown; try done.
  - apply wellOwned_app. split; [done|]. split; [|done]. intros o1 Eo. simpl in *.
    destruct (decide (o = o1)) as [-> |Hne]; [done|].
    by rewrite (Ho o1 _ o s Eo Es Hne eq_refl Hl) in Hsy.
  - intros o' f g op [Hin | [= -> ->]%list_elem_of_singleton]%elem_of_app Hsync; [by eapply Hat|done].
Qed.

Lemma sync_owned o f s c :
  conn_ok c → owned_ok c → streams c !! o = Some s → live s = true → streamPhase s = Unsynced →
  syncOf f = Some (sinkGeneration s, syncAttribution c) → owned_ok (delivered o f c).
Proof.
  intros H [Hf Hs Ho Hop Ha Hat] Es Hl Hun Hsync.
  destruct (live_stream c o s H Es Hl) as [(a & _ & _ & _ & Hsy) | (q & answer & E & Hp & Hg)]; [by rewrite Hun in Hsy|].
  assert (Hal : alone c (opener s)) by (eapply alone_transition; [done..|by rewrite Hp]).
  assert (Honly : ∀ r' q' o' ans, requests c !! r' = Some q' → point q' = Opening (Some o') ans → o' = o).
  { intros r' q' o' ans E' Hp'. destruct (decide (r' = opener s)) as [-> | Hne]; [congruence|].
    by specialize (Hal r' q' Hne E'); rewrite Hp' in Hal. }
  assert (owner (sent c ++ [(ForStream o, f)]) = Some (o, sinkGeneration s)) as Eown.
  { rewrite owner_app. simpl. unfold ownerStep. simpl. by rewrite Hsync. }
  unfold delivered. split; simpl; rewrite ?Eown.
  - apply wellOwned_app. split; [done|]. split; [|done]. unfold fits. simpl. by destruct f.
  - intros o' g [= <- <-]. exists (inPhase Synced s). by rewrite list_lookup_alter_eq, Es.
  - intros o1 g o' s' [= <- <-] E' Hne Hg' Hl'. rewrite list_lookup_alter_ne in E' by done.
    destruct (live_stream c o' s' H E' Hl') as [(a & _ & _ & Hga & _) | (q' & ans & Eq' & Hp' & _)]; [lia|].
    by rewrite (Honly _ _ _ _ Eq' Hp') in Hne.
  - intros r' q' o' ans s' E' Hp' Es' _. rewrite (Honly _ _ _ _ E' Hp') in *. rewrite list_lookup_alter_eq, Es in Es'.
    by simplify_eq/=.
  - intros a _. right. exists o. by rewrite Hg.
  - intros o' f' g op [Hin | [= -> ->]%list_elem_of_singleton]%elem_of_app Hsync'.
    + destruct (Hat o' f' g op Hin Hsync') as (s0 & q0 & E0 & ? & ? & ?). destruct (decide (o' = o)) as [-> | Hne].
      * exists (inPhase Synced s0), q0. by rewrite list_lookup_alter_eq, E0.
      * exists s0, q0. by rewrite list_lookup_alter_ne.
    + exists (inPhase Synced s), q. rewrite list_lookup_alter_eq, Es. rewrite Hsync in Hsync'. simplify_eq.
      split_and!; [done..|]. apply (ok_attribution c H (opener s) q E). by rewrite Hp.
Qed.

(** Only an open that succeeds attaches. *)
Definition detaches (c c' : Connection) : Prop :=
  attachmentGeneration c' = attachmentGeneration c ∧ (attachment c' = attachment c ∨ attachment c' = None).

Lemma finish_attachment r os c c' :
  finish r os c = Some c' → attachmentGeneration c' = attachmentGeneration c ∧ attachment c' = attachment c.
Proof. by intros (q & j & s & _ & _ & _ & ->)%finish_inv. Qed.

Lemma step_attachment e c c' :
  connectionStep e c = Some c' → (∀ r t, e ≠ OpenSucceeds r t) → detaches c c'.
Proof.
  intros E Hnot. unfold detaches. destruct e; simpl in E.
  - injection E as <-. unfold receives, runTransition, addRequest.
    destruct (nullish msg), (isTransition msg), (run (transitions c)); auto.
  - apply turnStarts_inv in E as (q & j & s & _ & _ & _ & _ & [(os & _ & Hf) | [(os & _ & Hf) | (call & answer & _ & _ & ->)]]); [| |auto].
    + apply finish_attachment in Hf as [-> ->]. auto.
    + apply finish_attachment in Hf as [-> ->]. rewrite detach_shape. auto.
  - apply deliver_inv in E as (s & p & _ & _ & _ & ->). unfold deliverObservation.
    destruct f as [|[] ?|]; auto. destruct (negb _); [auto|]. rewrite detach_shape. auto.
  - by destruct (Hnot r t).
  - unfold openFails in E. apply bind_Some in E as (q & _ & E). destruct (point q) as [| |[o|] answer| | | |]; try done;
      apply finish_attachment in E as [-> ->]; auto.
  - unfold releaseResolves in E. apply bind_Some in E as (q & _ & E).
    destruct (point q); try done; apply finish_attachment in E as [-> ->]; auto.
  - unfold replies in E. apply bind_Some in E as (q & _ & E). destruct (point q); simplify_eq. auto.
  - unfold refusalReplies in E. apply bind_Some in E as (q & _ & E). destruct (point q); simplify_eq. auto.
  - injection E as <-. auto.
  - injection E as <-. unfold dispose. rewrite detach_shape. auto.
  - apply fmap_Some in E as (s & _ & ->). auto.
Qed.

Lemma step_owned e c c' : conn_ok c → owned_ok c → connectionStep e c = Some c' → owned_ok c'.
Proof.
  intros H Ho E.
  assert (Hcalm : calm c c' → (∀ r t, e ≠ OpenSucceeds r t) → owned_ok c').
  { intros Hc Hnot. apply (calm_owned c c' Ho Hc). intros a Ha.
    destruct (step_attachment e c c' E Hnot) as [-> [Hatt | Hatt]]; rewrite Hatt in Ha; [by apply owned_attached|done]. }
  assert (Hother : (∀ o f, e = Delivers o f → ∃ projectId stem, f = ClosedFrame projectId stem) → calm c c') by by apply step_calm.
  destruct e; try (apply Hcalm; [by apply Hother|done]).
  - simpl in E. assert ((∃ projectId stem, f = ClosedFrame projectId stem) ∨ ∀ projectId stem, f ≠ ClosedFrame projectId stem) as [Hf | Hf].
    { destruct f; [by right|by right|left; eauto]. }
    { apply Hcalm; [|done]. apply Hother. by intros ? ? [= <- <-]. }
    destruct (delivered_inv o f c c' E Hf) as (s & frame & Es & Hl & -> & [[Hun Hsync] | [Hsy [ops ->]]]).
    + by eapply sync_owned.
    + by apply live_patch_owned.
  - apply (calm_owned c c' Ho (Hother ltac:(done))). simpl in E.
    apply openSucceeds_inv in E as (q & o & answer & s & E & Hp & Es & Hsy & [[_ ->] | [_ ->]]).
    + apply (owned_attached c Ho).
    + intros a [= <-]. left. by apply (owned_opening c Ho r q o answer s).
Qed.

Lemma create_owned : owned_ok createConnection.
Proof. split; simpl; try done. by intros o f g op ?%not_elem_of_nil. Qed.

Lemma reachable_owned c : reachable c → conn_ok c ∧ owned_ok c.
Proof. apply reachable_ind; [apply create_owned|]. intros e c1 c2. apply step_owned. Qed.

(** Frames of an observation come from one. *)
Lemma step_named e c c' :
  Forall (λ x, isObservationFrame x.2 = true → ∃ o, x.1 = ForStream o) (sent c) → connectionStep e c = Some c' →
  Forall (λ x, isObservationFrame x.2 = true → ∃ o, x.1 = ForStream o) (sent c').
Proof.
  intros H E.
  assert (Hcalm : calm c c' → Forall (λ x, isObservationFrame x.2 = true → ∃ o, x.1 = ForStream o) (sent c')).
  { intros Hc. destruct (calm_sent _ _ Hc) as (l & -> & Hl). apply Forall_app. split; [done|].
    eapply Forall_impl; [exact Hl|]. intros x Hx. congruence. }
  assert ((∃ o f, e = Delivers o f ∧ ∀ projectId stem, f ≠ ClosedFrame projectId stem) ∨
    ∀ o f, e = Delivers o f → ∃ projectId stem, f = ClosedFrame projectId stem) as [(o & f & -> & Hf) | Hnot].
  { destruct e as [| |o f| | | | | | | |]; try (right; by intros ? ? [=]).
    destruct f; [left; eauto 10|left; eauto 10|]. right. intros ? ? [= <- <-]. eauto. }
  - destruct (delivered_inv o f c c' E Hf) as (s & frame & _ & _ & -> & _). simpl. apply Forall_app. split; [done|].
    apply Forall_singleton. by exists o.
  - apply Hcalm. by eapply step_calm.
Qed.

Lemma observations_named c :
  reachable c → Forall (λ x, isObservationFrame x.2 = true → ∃ o, x.1 = ForStream o) (sent c).
Proof.
  intros H. apply (reachable_ind _ _ _ (λ c, Forall (λ x, isObservationFrame x.2 = true → ∃ o, x.1 = ForStream o) (sent c)))
    in H as [_ H]; [done|constructor|]. intros e c1 c2 _. apply step_named.
Qed.

(** ** The replica of what was sent *)

Lemma replicaRun_cons f fs r : replicaRun (f :: fs) r = replicaStep f r ≫= replicaRun fs.
Proof.
  unfold replicaRun. simpl. destruct (replicaStep f r) as [r'|]; [done|]. simpl.
  induction fs as [|f' fs IH]; [done|exact IH].
Qed.

Lemma replicaRun_app fs fs' r : replicaRun (fs ++ fs') r = replicaRun fs r ≫= replicaRun fs'.
Proof.
  revert r. induction fs as [|f fs IH]; intros r; [done|]. simpl. rewrite !replicaRun_cons.
  destruct (replicaStep f r) as [r'|]; [apply IH|done].
Qed.

(** The generation of a replica is the owner's. *)
Lemma replicaRun_generation l r r' own :
  Forall (λ x, isObservationFrame x.2 = true → ∃ o, x.1 = ForStream o) l →
  replicaRun (map snd l) r = Some r' → replicaGeneration r = snd <$> own →
  replicaGeneration r' = snd <$> foldl ownerStep own l.
Proof.
  intros Hl. revert r own. induction Hl as [|[from f] l Hf _ IH]; intros r own; [by intros [= <-]|].
  simpl. rewrite replicaRun_cons. intros (r1 & Hstep & Hrun)%bind_Some Hg. apply (IH r1 _ Hrun). unfold ownerStep. simpl in *.
  destruct f; simpl in *.
  - destruct (Hf eq_refl) as [o ->]. by injection Hstep as <-.
  - destruct (Hf eq_refl) as [o ->]. by apply patchReplica_gen in Hstep.
  - transitivity (snd <$> own); [|by destruct from]. rewrite <- Hg. case_decide; [by apply patchReplica_gen in Hstep|by injection Hstep as <-].
  - injection Hstep as <-. by destruct from.
  - injection Hstep as <-. by destruct from.
Qed.

Definition fromStream (o : nat) (l : list (Sender * HostFrame)) : list (Sender * HostFrame) :=
  filter (λ x, x.1 = ForStream o) l.

(** After a sync, a replica is what the frames of its stream alone make of it. *)
Lemma replicaRun_owned o g l r :
  replicaGeneration r = Some g → wellOwned (Some (o, g)) l → Forall (λ x, syncOf x.2 = None) l →
  replicaRun (map snd l) r = replicaRun (map snd (fromStream o l)) r.
Proof.
  intros Hg Hw Hl. revert r Hg Hw. induction Hl as [|[from f] l Hs _ IH]; intros r Hg Hw; [done|]. destruct Hw as [Hfit Hw].
  assert (ownerStep (Some (o, g)) (from, f) = Some (o, g)) as Hown by (unfold ownerStep; simpl in *; rewrite Hs; by destruct from).
  rewrite Hown in Hw. unfold fromStream. simpl in *. rewrite filter_cons, replicaRun_cons. simpl.
  case_decide as Hfrom.
  - simpl. rewrite replicaRun_cons. destruct (replicaStep f r) as [r1|] eqn:Hstep; [|done]. apply IH; [|done].
    destruct f; simpl in *; simplify_eq; try done. case_decide; [by apply patchReplica_gen in Hstep as ->|by injection Hstep as <-].
  - assert (replicaStep f r = Some r) as ->; [|by apply IH].
    destruct f as [| |g' ops| |]; simpl in *; simplify_eq; try done. rewrite decide_False; [done|]. rewrite Hg. intros [= <-].
    by apply Hfrom, Hfit.
Qed.

Definition emptyReplica : Replica := mkReplica None emptyMirror.

(** What [onMessages] makes of the frames sent. *)
Definition received (reports : bool) (c : Connection) : BridgeClient * list ClientEffect :=
  onMessages (map wireData (encodeAll None (map frameJson (map snd (sent c))))) (createClient reports).

Lemma received_shows reports c r :
  Forall hostFrame (map snd (sent c)) → replicaRun (map snd (sent c)) emptyReplica = Some r →
  let '(st, es) := received reports c in shows st r ∧ Forall (λ e, quiet e = true) es.
Proof.
  intros Hf Hr. apply (mirror_refines_replica _ None (createClient reports) emptyReplica r); [|done|by split|done].
  by split; [|intros t [=]].
Qed.

(** ** Properties *)

(** C10. A client shows one observation: after everything a connection sent, opens,
    switches, failed opens, late frames of the predecessor, replies and broadcasts
    in any order, its mirror is what the last initial sync and the later frames of
    that sync's own observation make of it.  No frame of another session reaches
    the document. *)
Theorem client_shows_one_observation reports c w1 o f w2 r :
  reachable c → sent c = w1 ++ (ForStream o, f) :: w2 → is_Some (syncOf f) → Forall (λ x, syncOf x.2 = None) w2 →
  Forall hostFrame (map snd (sent c)) →
  replicaRun (map snd w1 ++ f :: map snd (fromStream o w2)) emptyReplica = Some r →
  let '(st, es) := received reports c in shows st r ∧ Forall (λ e, quiet e = true) es.
Proof.
  intros [_ Ho]%reachable_owned Es [[g op] Hsync] Hw2 Hframes Hrun. apply received_shows; [done|].
  rewrite Es, map_app. cbn [map snd]. rewrite replicaRun_app in *. destruct (replicaRun (map snd w1) emptyReplica) as [r1|]; [|done].
  simpl in *. rewrite replicaRun_cons in *. destruct (replicaStep f r1) as [r2|] eqn:Hstep; [|done]. simpl in *.
  pose proof (owned_fits c Ho) as Hw. rewrite Es in Hw. apply wellOwned_app in Hw as [_ [_ Hw]].
  unfold ownerStep in Hw. simpl in Hw. rewrite Hsync in Hw. rewrite (replicaRun_owned o g w2); [done| |done|done].
  destruct f; simplify_eq/=; [done|by apply patchReplica_gen in Hstep].
Qed.

(** C11. The client is on the connection's attachment: its mirror carries the
    attachment's generation and shows the attachment's observation, except while a
    newer open has synced and not ended, or after such an open has failed. *)
Theorem client_follows_attachment reports c a r :
  reachable c → attachment c = Some a → Forall hostFrame (map snd (sent c)) →
  replicaRun (map snd (sent c)) emptyReplica = Some r →
  let g := generation (mirror (received reports c).1) in
  g = JInt (attachmentGeneration c) ∧ owner (sent c) = Some (observation a, attachmentGeneration c) ∨
  g = JInt (attachmentGeneration c + 1) ∧
    ∃ o s, owner (sent c) = Some (o, (attachmentGeneration c + 1)%Z) ∧ streams c !! o = Some s ∧
      ((∃ q answer, requests c !! opener s = Some q ∧ point q = Opening (Some o) answer) ∨ live s = false).
Proof.
  intros Hreach Ha Hframes Hrun. destruct (reachable_owned c Hreach) as [H Ho].
  pose proof (received_shows reports c r Hframes Hrun) as Hshow. destruct (received reports c) as [st es].
  destruct Hshow as [[Hg _] _]. cbn zeta. simpl.
  assert (replicaGeneration r = snd <$> owner (sent c)) as Hgen.
  { apply (replicaRun_generation (sent c) emptyReplica r None); [by apply observations_named|done|done]. }
  rewrite Hg, Hgen. destruct (owned_attached c Ho a Ha) as [-> | [o Eo]]; [by left|]. right. rewrite Eo. split; [done|].
  destruct (owned_stream c Ho o _ Eo) as (s & Es & Hgs). exists o, s. split_and!; [done..|].
  destruct (live s) eqn:Hl; [|by right]. left.
  destruct (live_stream c o s H Es Hl) as [(b & _ & _ & Hb & _) | (q & answer & E & Hp & _)]; [lia|by exists q, answer].
Qed.

(** C14. A disposed connection leaves no observation behind: once the line is
    drained, every observation ever opened on it was released, ended or failed,
    also those whose open was in flight when the socket closed; from the disposal
    on, only the one being opened may still deliver. *)
Theorem disposed_releases_all c o s :
  reachable c → disposed c = true → streams c !! o = Some s → live s = true →
  scopeState (transitions c) ≠ ScopeClosed ∧
  ∃ q answer, requests c !! opener s = Some q ∧ point q = Opening (Some o) answer.
Proof.
  intros H%connection_reachable_ok Hd Es Hl. destruct (live_stream c o s H Es Hl) as [(a & Ha & _) | (q & answer & E & Hp & _)].
  { destruct (ok_attached c H a Ha) as [? _]. congruence. }
  split; [|by exists q, answer]. intros Hc.
  destruct (transition_job c _ q H E) as (j & _ & Hj); [by rewrite Hp|].
  pose proof (scope_closed _ (ok_scope c H) Hc) as Hall. rewrite Forall_lookup in Hall. by specialize (Hall j _ Hj).
Qed.

(** Attribution: an initial sync carries an operation id exactly when its own
    observation was opened by a newSession request, and it is that request's,
    whatever else is in flight. *)
Theorem sync_names_its_creation c o f g op :
  reachable c → (ForStream o, f) ∈ sent c → syncOf f = Some (g, op) →
  ∃ s q, streams c !! o = Some s ∧ sinkGeneration s = g ∧ requests c !! opener s = Some q ∧ op = attributionOf (message q).
Proof. intros [_ H]%reachable_owned. apply (sync_attributed c H). Qed.


(** An observation whose terminal frame arrives between the end of its open and
    the turn of [attach] that resumes is attached all the same. *)
Lemma attach_after_close r t c c' q o answer s :
  requests c !! r = Some q → point q = Opening (Some o) answer → streams c !! o = Some s → streamPhase s = Ended →
  disposed c = false → connectionStep (OpenSucceeds r t) c = Some c' →
  attachment c' = Some (mkAttached t o) ∧ ∀ f, deliver o f c' = None.
Proof.
  intros E Hp Es Hs Hd Hstep. simpl in Hstep.
  apply openSucceeds_inv in Hstep as (q' & o' & answer' & s' & E' & Hp' & Es' & _ & [[? _] | [_ ->]]); [congruence|].
  rewrite E in E'. injection E' as <-. rewrite Hp in Hp'. injection Hp' as <- <-. split; [done|]. intros f.
  destruct (deliver o f _) as [c2|] eqn:Ed; [|done]. apply deliver_inv in Ed as (x & p & Ex & Hl & _).
  destruct (detach_streams c o x Ex) as [(b & s0 & _ & _ & _ & ->) | [_ Ex']]; [done|].
  simplify_eq. unfold live in Hl. by rewrite Hs, andb_false_r in Hl.
Qed.
End evolution.

(** ** Runs *)

Definition demoRun (es : list ConnectionEvent) : Connection :=
  default createConnection (runConnection false id (λ _, "") es createConnection).

Definition demoReachable (c : Connection) : Prop := reachable false id (λ _, "") c.

Lemma demo_run_reachable es : is_Some (runConnection false id (λ _, "") es createConnection) → demoReachable (demoRun es).
Proof. intros [c E]. exists es. unfold demoRun. by rewrite E. Qed.

Definition demoOpen (id_ stem : string) : json :=
  object [("id", JStr id_); ("verb", JStr "openSession"); ("projectId", JStr "p"); ("stem", JStr stem)].
Definition demoNew (id_ op : string) : json :=
  object [("id", JStr id_); ("verb", JStr "newSession"); ("projectId", JStr "p"); ("text", JStr "hi"); ("operationId", JStr op)].
Definition demoTarget (stem : string) : SessionTarget := mkTarget "p" stem ("id-" +:+ stem) "/p".
Definition demoDoc (t : string) : json :=
  object [("status", JObj ∅); ("entries", object [("m", object [("text", JStr t)])])].
Definition demoSync (stem : string) : WorkerObservationFrame := ReplaceFrame (sessionRefOf (demoTarget stem)) (demoDoc stem).
Definition demoAppend (t : string) : WorkerObservationFrame := PatchFrame None [AppendOp "/entries/m/text" t false].

(** Open [a], then switch to [b]; the predecessor still delivers while [b] is opened. *)
Definition demoSwitch : list ConnectionEvent :=
  [Receives (demoOpen "1" "a"); TurnStarts 0 true; Delivers 0 (demoSync "a"); OpenSucceeds 0 (demoTarget "a");
   ReleaseResolves 0; Delivers 0 (demoAppend "1"); Receives (demoOpen "2" "b"); TurnStarts 1 true;
   Delivers 1 (demoSync "b"); Delivers 0 (demoAppend "late"); OpenSucceeds 1 (demoTarget "b"); ReleaseResolves 1;
   Delivers 1 (demoAppend "2")].

(** What it sends. *)
Definition demoReply (id_ stem : string) : HostFrame :=
  ReplyFrame (own (object [("id", JStr id_); ("ok", JBool true); ("session", sessionRefOf (demoTarget stem))])).
Definition demoLive (g : Z) (t : string) : HostFrame := LivePatchFrame g [AppendOp "/entries/m/text" t false].
Definition demoReplace (g : Z) (stem : string) : HostFrame := ReplaceFrame_ g (sessionRefOf (demoTarget stem)) (demoDoc stem) None.
Definition demoBefore : list (Sender * HostFrame) :=
  [(ForStream 0, demoReplace 1 "a"); (ForRequest 0, demoReply "1" "a"); (ForStream 0, demoLive 1 "1")].
Definition demoAfter : list (Sender * HostFrame) :=
  [(ForStream 0, demoLive 1 "late"); (ForRequest 1, demoReply "2" "b"); (ForStream 1, demoLive 2 "2")].

Lemma demo_sent : sent (demoRun demoSwitch) = demoBefore ++ (ForStream 1, demoReplace 2 "b") :: demoAfter.
Proof. vm_compute. reflexivity. Qed.

Lemma demo_switch : demoReachable (demoRun demoSwitch).
Proof. apply demo_run_reachable. vm_compute. by eexists. Qed.

Lemma demo_host_frames : Forall hostFrame (map snd (sent (demoRun demoSwitch))).
Proof. rewrite demo_sent. by repeat (apply Forall_cons; split; [done|]). Qed.

Lemma client_shows_one_observation_witness :
  let '(st, es) := received true (demoRun demoSwitch) in
  shows st (mkReplica (Some 2%Z) (demoDoc "b2")) ∧ Forall (λ e, quiet e = true) es.
Proof.
  apply (client_shows_one_observation false id (λ _, "") true (demoRun demoSwitch) demoBefore 1 (demoReplace 2 "b") demoAfter).
  - apply demo_switch.
  - apply demo_sent.
  - by eexists.
  - by repeat (apply Forall_cons; split; [done|]).
  - apply demo_host_frames.
  - vm_compute. reflexivity.
Defined.

Lemma client_follows_attachment_witness :
  attachment (demoRun demoSwitch) = Some (mkAttached (demoTarget "b") 1) ∧
  generation (mirror (received true (demoRun demoSwitch)).1) = JInt 2.
Proof.
  split; [by vm_compute|].
  destruct (client_follows_attachment false id (λ _, "") true (demoRun demoSwitch) (mkAttached (demoTarget "b") 1)
    (mkReplica (Some 2%Z) (demoDoc "b2")) demo_switch) as [[-> _] | [_ (o & s & Ho & _)]].
  - by vm_compute.
  - apply demo_host_frames.
  - rewrite demo_sent. vm_compute. reflexivity.
  - by vm_compute.
  - rewrite demo_sent in Ho. by vm_compute in Ho.
Defined.

(** The socket closes while the open of [b] is in flight. *)
Definition demoClosing : list ConnectionEvent := take 10 demoSwitch ++ [Disposes].

Lemma disposed_releases_all_witness :
  live (mkStream 1 2 Synced false) = true ∧ scopeState (transitions (demoRun demoClosing)) ≠ ScopeClosed.
Proof.
  split; [done|].
  destruct (disposed_releases_all false id (λ _, "") (demoRun demoClosing) 1 (mkStream 1 2 Synced false)) as [H _]; [|by vm_compute..|exact H].
  apply demo_run_reachable. vm_compute. by eexists.
Defined.

Definition demoCreate : list ConnectionEvent :=
  [Receives (demoNew "1" "op"); TurnStarts 0 true; Delivers 0 (demoSync "n")].

Lemma sync_names_its_creation_witness :
  attributionOf (demoNew "1" "op") = Some "op" ∧
  ∃ s q, streams (demoRun demoCreate) !! 0 = Some s ∧ sinkGeneration s = 1%Z ∧
    requests (demoRun demoCreate) !! opener s = Some q ∧ Some "op" = attributionOf (message q).
Proof.
  split; [by vm_compute|].
  apply (sync_names_its_creation false id (λ _, "") (demoRun demoCreate) 0
    (ReplaceFrame_ 1 (sessionRefOf (demoTarget "n")) (demoDoc "n") (Some "op")) 1 (Some "op")); [| |done].
  - apply demo_run_reachable. vm_compute. by eexists.
  - apply list_elem_of_In. vm_compute. by left.
Defined.



