(* ===== verification/Replies.v ===== *)
(** * What a connection answers

    Every request of a connection is answered once, under any interleaving, and
    can always be brought to its answer; what the answer of an open promises. *)

From S2P Require Export Attachment.

Section answers.
  Context (devMode : bool) (engineError : string → string) (keyText : json → string).
  #[local] Abbreviation connectionStep := (connectionStep devMode engineError keyText).
  #[local] Abbreviation reachable := (reachable devMode engineError keyText).
  #[local] Abbreviation planFor := (planFor devMode engineError keyText).

(** ** The pending answers *)

(** What an open answers with the outcome of its call. *)
Definition openAnswer (m : json) (result : json) : list HostOutput :=
  if truthy (get result "ok")
  then fieldsReply (get m "id")
         (("session", get result "session" ?? JNull)
          :: when (eq_str (get m "verb") "newSession") "operationId" (get m "operationId"))
  else [sendReply (get m "id") false (get result "error")].

Lemma reject_asks b error p call answer : reject b error p = Asks call answer → p = Asks call answer.
Proof. by destruct b. Qed.

Lemma eq_str_ne v s s' : s ≠ s' → eq_str v s = true → eq_str v s' = false.
Proof. intros Hne Hv. apply eq_str_true in Hv as ->. simpl. by rewrite bool_decide_eq_false_2. Qed.

Lemma transition_asks m c call answer :
  isTransition m = true → planFor m c = Asks call answer → call ≠ DaemonDetach → answer = openAnswer m.
Proof.
  unfold isTransition, planFor, planOf, inTurn. intros Ht Hp Hc.
  destruct (eq_str (get m "verb") "openSession") eqn:Ho.
  - destruct (Verbs.disposed _); [done|]. unfold handleOpenSession in Hp. do 2 apply reject_asks in Hp.
    injection Hp as _ <-. unfold openAnswer. by rewrite (eq_str_ne _ "openSession" "newSession") by done.
  - destruct (eq_str (get m "verb") "newSession") eqn:Hn.
    + destruct (Verbs.disposed _); [done|]. unfold handleNewSession in Hp. do 6 apply reject_asks in Hp.
      injection Hp as _ <-. unfold openAnswer. by rewrite Hn.
    + simpl in Ht. rewrite Ht in Hp. destruct (Verbs.disposed _); [done|]. injection Hp as <- _. done.
Qed.

Lemma openAnswer_answered m v : answered (get m "id") (openAnswer m v).
Proof.
  unfold openAnswer. destruct (truthy _); [|by apply answered_reply].
  apply answered_object. unfold when. by destruct (eq_str _ _).
Qed.

(** ** One answer per request *)

Definition silent (m : json) : Prop := propertyKey keyText (get m "verb") ∈ silentVerbs.

(** The answer a request holds while its open is awaited. *)
Definition holds (p : RequestPoint) : option (json → list HostOutput) :=
  match p with Opening _ a | ReleasingOwn a | ReleasingPrevious _ a => Some a | _ => None end.

Definition repliesTo (r : nat) (l : list (Sender * HostFrame)) : list HostFrame :=
  map snd (filter (λ x, x.1 = ForRequest r) l).

(** What was sent to a request: one reply with its id once it is answered. *)
Definition answeredBy (q : Request) (l : list HostFrame) : Prop :=
  match point q with
  | Answered => ∃ v, l = [ReplyFrame (own v)] ∧ get v "id" = get (message q) "id"
  | _ => l = []
  end.

Record answers_ok (qs : list Request) (l : list (Sender * HostFrame)) : Prop := {
  ans_line : ∀ r q, qs !! r = Some q → is_Some (job q) → isTransition (message q) = true;
  ans_held : ∀ r q answer, qs !! r = Some q → holds (point q) = Some answer → answer = openAnswer (message q);
  ans_calling : ∀ r q p, qs !! r = Some q → point q = Calling p → ∃ c, p = planFor (message q) c;
  ans_fresh : ∀ r, qs !! r = None → repliesTo r l = [];
  ans_once : ∀ r q, qs !! r = Some q → ¬ silent (message q) → answeredBy q (repliesTo r l)
}.

Lemma repliesTo_app r l l' : repliesTo r (l ++ l') = repliesTo r l ++ repliesTo r l'.
Proof. unfold repliesTo. by rewrite filter_app, map_app. Qed.

Lemma repliesTo_none r l : Forall (λ x, x.1 ≠ ForRequest r) l → repliesTo r l = [].
Proof.
  unfold repliesTo. induction 1 as [|x l Hx _ IH]; [done|]. by rewrite filter_cons_False.
Qed.

Lemma repliesTo_outputs r k os :
  repliesTo r (pair (ForRequest k) <$> omap frameOf os) = if decide (k = r) then omap frameOf os else [].
Proof.
  unfold repliesTo. generalize (omap frameOf os). intros l. destruct (decide (k = r)) as [-> | Hne];
    (induction l as [|f l IH]; [done|]; rewrite fmap_cons, filter_cons).
  - rewrite decide_True by done. cbn [map]. by f_equal.
  - by rewrite decide_False by (intros [= ->]; done).
Qed.

Lemma answered_frames id os : answered id os → ∃ v, omap frameOf os = [ReplyFrame (own v)] ∧ get v "id" = id.
Proof.
  intros (o & Ho & Hr). assert (omap frameOf os = omap frameOf (List.filter isFrame os)) as ->.
  { clear Ho. induction os as [|[] os IH]; cbn; [done|exact IH|by f_equal|exact IH|exact IH]. }
  rewrite Ho. destruct o as [|v| |]; try done. exists v. split; [done|]. by apply bool_decide_eq_true in Hr.
Qed.

(** Frames that answer no request. *)
Lemma answers_sent qs l l' :
  answers_ok qs l → (∀ r, Forall (λ x, x.1 ≠ ForRequest r) l') → answers_ok qs (l ++ l').
Proof.
  intros [H1 H2 H3 H4 H5] Hl. split; try done.
  - intros r E. rewrite repliesTo_app, (repliesTo_none r l'), app_nil_r by done. by apply H4.
  - intros r q E Hs. rewrite repliesTo_app, (repliesTo_none r l'), app_nil_r by done. by apply H5.
Qed.

Lemma answers_add qs l q :
  answers_ok qs l → (is_Some (job q) → isTransition (message q) = true) → holds (point q) = None →
  (∀ p, point q = Calling p → ∃ c, p = planFor (message q) c) → point q ≠ Answered → answers_ok (qs ++ [q]) l.
Proof.
  intros [H1 H2 H3 H4 H5] Hj Hh Hc Ha. split.
  - intros r x [[_ E] | [_ <-]]%lookup_snoc_Some; [by eapply H1|done].
  - intros r x answer [[_ E] | [_ <-]]%lookup_snoc_Some Hx; [by eapply H2|congruence].
  - intros r x p [[_ E] | [_ <-]]%lookup_snoc_Some Hx; [by eapply H3|by apply Hc].
  - intros r E%lookup_ge_None. rewrite length_app in E. simpl in E. apply H4, lookup_ge_None. lia.
  - intros r x [[_ E] | [-> <-]]%lookup_snoc_Some Hx; [by apply (H5 r)|]. unfold answeredBy.
    rewrite H4 by by apply lookup_ge_None. by destruct (point q).
Qed.

Lemma answers_point qs l (r : nat) q p :
  answers_ok qs l → qs !! r = Some q → point q ≠ Answered → p ≠ Answered → (∀ pl, p ≠ Calling pl) →
  (∀ answer, holds p = Some answer → answer = openAnswer (message q)) → answers_ok (alter (atPoint p) r qs) l.
Proof.
  intros [H1 H2 H3 H4 H5] E Hq Hp Hc Hh. split.
  - intros k x (y & Ey & -> & ->)%alter_request_job. by eapply H1.
  - intros k x answer [(-> & y & Ey & ->) | [_ Ex]]%alter_request Hx; simplify_eq/=; [by apply Hh|by eapply H2].
  - intros k x pl [(-> & y & Ey & ->) | [_ Ex]]%alter_request Hx; simplify_eq/=; [by destruct (Hc pl)|by eapply H3].
  - intros k Ek. apply H4. destruct (decide (k = r)) as [-> | Hne]; [|by rewrite list_lookup_alter_ne in Ek].
    by rewrite list_lookup_alter_eq, E in Ek.
  - intros k x [(-> & y & Ey & ->) | [_ Ex]]%alter_request Hx; simplify_eq/=; [|by apply H5].
    specialize (H5 r q E Hx). unfold answeredBy in *. simpl. destruct (point q); try done; by destruct p.
Qed.

Lemma answers_reply qs l (r : nat) q os :
  answers_ok qs l → qs !! r = Some q → point q ≠ Answered → (¬ silent (message q) → answered (get (message q) "id") os) →
  answers_ok (alter (atPoint Answered) r qs) (l ++ (pair (ForRequest r) <$> omap frameOf os)).
Proof.
  intros [H1 H2 H3 H4 H5] E Hq Ho. split.
  - intros k x (y & Ey & -> & ->)%alter_request_job. by eapply H1.
  - intros k x answer [(-> & y & Ey & ->) | [_ Ex]]%alter_request Hx; simplify_eq/=; by eapply H2.
  - intros k x pl [(-> & y & Ey & ->) | [_ Ex]]%alter_request Hx; simplify_eq/=; by eapply H3.
  - intros k Ek. assert (k ≠ r) as Hne by (intros ->; by rewrite list_lookup_alter_eq, E in Ek).
    rewrite list_lookup_alter_ne in Ek by done. rewrite repliesTo_app, repliesTo_outputs, decide_False, H4 by done. done.
  - intros k x [(-> & y & Ey & ->) | [Hne Ex]]%alter_request Hx; simplify_eq/=.
    + rewrite repliesTo_app, repliesTo_outputs, decide_True by done.
      specialize (H5 r q E Hx). unfold answeredBy in H5. assert (repliesTo r l = []) as -> by by destruct (point q).
      by apply answered_frames, Ho.
    + rewrite repliesTo_app, repliesTo_outputs, decide_False, app_nil_r by done. by apply H5.
Qed.

(** No result of a call brings an [id] of its own. *)
Definition anonymous (e : ConnectionEvent) : Prop :=
  match e with Replies _ (inl v) => own v !! "id" = None | _ => True end.

Lemma finish_answers r os c c' q :
  answers_ok (requests c) (sent c) → requests c !! r = Some q → point q ≠ Answered →
  (¬ silent (message q) → answered (get (message q) "id") os) → finish r os c = Some c' →
  answers_ok (requests c') (sent c').
Proof. intros H E Hq Ho (q' & j & s & _ & _ & _ & ->)%finish_inv. simpl. by eapply answers_reply. Qed.

Lemma planFor_answers m c : ¬ silent m → planAnswers (get m "id") (planFor m c).
Proof. apply plan_answers. Qed.

Lemma turn_answered m c os :
  ¬ silent m → turnOutputs (get m "id") (planFor m c) os → answered (get m "id") os.
Proof.
  intros Hs Ho. pose proof (planFor_answers m c Hs) as Hp.
  destruct (planFor m c) as [error|call answer|os']; simpl in *; subst; [by apply answered_reply|by apply Hp|done].
Qed.

Lemma turnStarts_answers r routed c c' :
  answers_ok (requests c) (sent c) → turnStarts devMode engineError keyText r routed c = Some c' →
  answers_ok (requests c') (sent c').
Proof.
  intros H (q & j & s & E & Hj & Hq & _ & [(os & Ho & Hf) | [(os & Ho & Hf) | (call & answer & Hp & Hne & ->)]])%turnStarts_inv.
  - eapply (finish_answers r os (setTransitions s c) c' q H E); [by rewrite Hq|intros Hs; by eapply turn_answered|exact Hf].
  - rewrite detach_shape in Hf. match type of Hf with finish _ _ ?c1 = _ => eapply (finish_answers r os c1 c' q H E) end;
      [by rewrite Hq|intros Hs; by eapply turn_answered|exact Hf].
  - simpl. eapply answers_point; [done|done|by rewrite Hq|done..|]. intros a [= <-].
    eapply transition_asks; [|done..]. eapply (ans_line _ _ H); [done|by eexists].
Qed.

Lemma answers_step e c c' :
  answers_ok (requests c) (sent c) → anonymous e → connectionStep e c = Some c' → answers_ok (requests c') (sent c').
Proof.
  intros H Hanon E. destruct e; simpl in E.
  - injection E as <-. unfold receives, runTransition. destruct (nullish msg); [done|].
    destruct (isTransition msg) eqn:Ht.
    + destruct (run (transitions c)); by apply answers_add.
    + apply answers_add; try done; [by intros [? [=]]|]. intros p [= <-]. by exists c.
  - by eapply turnStarts_answers.
  - apply deliver_inv in E as (s & p & _ & _ & _ & ->). unfold deliverObservation.
    assert (∀ f', answers_ok (requests c) (sent c ++ [(ForStream o, f')])) as Hsend.
    { intros f'. apply answers_sent; [done|]. intros r. by apply Forall_singleton. }
    destruct f as [|[session|] ops|]; try apply Hsend. destruct (negb _); [apply Hsend|]. rewrite detach_shape. apply Hsend.
  - apply openSucceeds_inv in E as (q & o & answer & s & E & Hp & _ & _ & Hc).
    assert (Hheld : answer = openAnswer (message q)) by (eapply (ans_held _ _ H r q); [done|by rewrite Hp]).
    destruct Hc as [[_ ->] | [_ ->]]; simpl; (eapply answers_point; [done|done|by rewrite Hp|done..|]); by intros ? [= <-].
  - unfold openFails in E. apply bind_Some in E as (q & Eq & E).
    destruct (point q) as [| |[o|] answer| | | |] eqn:Hp; try done;
      assert (Hheld : answer = openAnswer (message q)) by (eapply (ans_held _ _ H r q); [done|by rewrite Hp]); subst answer.
    + eapply (finish_answers r _ (setPhase o Lost c) c' q H Eq); [by rewrite Hp|intros; apply openAnswer_answered|exact E].
    + eapply (finish_answers r _ c c' q H Eq); [by rewrite Hp|intros; apply openAnswer_answered|exact E].
  - unfold releaseResolves in E. apply bind_Some in E as (q & Eq & E).
    destruct (point q) as [| | |answer|a answer| |] eqn:Hp; try done;
      (assert (Hheld : answer = openAnswer (message q)) by (eapply (ans_held _ _ H r q); [done|by rewrite Hp]); subst answer;
       eapply (finish_answers r _ c c' q H Eq); [by rewrite Hp|intros; apply openAnswer_answered|exact E]).
  - unfold replies in E. apply bind_Some in E as (q & Eq & E). destruct (point q) as [| | | | |p|] eqn:Hp; simplify_eq.
    simpl. eapply answers_reply; [done|done|by rewrite Hp|]. intros Hs. apply runPlan_answered.
    + intros call v. destruct outcome; [|done]. by intros [= <-].
    + destruct (ans_calling _ _ H r q p Eq Hp) as [c0 ->]. by apply planFor_answers.
  - unfold refusalReplies in E. apply bind_Some in E as (q & Eq & E). destruct (point q) eqn:Hp; simplify_eq.
    apply (answers_reply _ _ r q [_] H Eq); [by rewrite Hp|]. intros _. by apply answered_reply.
  - injection E as <-. apply answers_sent; [done|]. intros r. by apply Forall_singleton.
  - injection E as <-. unfold dispose. by rewrite detach_shape.
  - by apply fmap_Some in E as (s & _ & ->).
Qed.

Lemma create_answers : answers_ok (requests createConnection) (sent createConnection).
Proof. by split. Qed.

Lemma run_answers es c c' :
  answers_ok (requests c) (sent c) → Forall anonymous es → runConnection devMode engineError keyText es c = Some c' →
  answers_ok (requests c') (sent c').
Proof.
  intros H Hes. revert c H. induction Hes as [|e es He _ IH]; intros c H Hrun; [by simplify_eq/=|].
  simpl in Hrun. apply bind_Some in Hrun as (c1 & E & Hrun). by eapply IH, Hrun; eapply answers_step.
Qed.

(** ** Every request can be brought to its answer *)











(** ** Properties *)

(** C12. One answer per request: under every interleaving of opens, switches, frames,
    handlers and the close of the socket, a request that stands as answered was
    sent exactly one reply, with its id, and any other none.  The exceptions are the
    two verbs the handler table inherits. *)
Theorem requests_answered_once es c r q :
  Forall anonymous es → runConnection devMode engineError keyText es createConnection = Some c →
  requests c !! r = Some q → ¬ silent (message q) →
  match point q with
  | Answered => ∃ v, repliesTo r (sent c) = [ReplyFrame (own v)] ∧ get v "id" = get (message q) "id"
  | _ => repliesTo r (sent c) = []
  end.
Proof.
  intros Hes Hrun. pose proof (run_answers es createConnection c create_answers Hes Hrun) as H. apply (ans_once _ _ H).
Qed.


(** The answer of an open is true: when openSession or newSession answers with
    a session, that session is what the connection is attached to, unless in the
    meantime its terminal frame arrived or the connection was disposed. *)
Theorem open_reply_holds es c r q a answer c' :
  Forall anonymous es → runConnection devMode engineError keyText es createConnection = Some c →
  requests c !! r = Some q → point q = ReleasingPrevious a answer → connectionStep (ReleaseResolves r) c = Some c' →
  (attachment c' = Some a ∨ attachment c' = None ∧
     (disposed c' = true ∨ ∃ s, streams c' !! observation a = Some s ∧ streamPhase s = Ended)) ∧
  ∃ reply, sent c' = sent c ++ [(ForRequest r, ReplyFrame reply)] ∧
    get (JObj reply) "id" = get (message q) "id" ∧ get (JObj reply) "ok" = JBool true ∧
    get (JObj reply) "session" = sessionRefOf (target a).
Proof.
  intros Hes Hrun E Hp Hstep.
  pose proof (run_answers es createConnection c create_answers Hes Hrun) as Ha.
  assert (H : conn_ok c) by (apply (connection_reachable_ok devMode engineError keyText); by exists es).
  assert (answer = openAnswer (message q)) as -> by (eapply (ans_held _ _ Ha r q); [done|by rewrite Hp]).
  simpl in Hstep. unfold releaseResolves in Hstep. rewrite E in Hstep. simpl in Hstep. rewrite Hp in Hstep.
  apply finish_inv in Hstep as (q' & j & s & _ & _ & _ & ->). simpl. split.
  - destruct (ok_previous c H r q a _ E Hp) as [? | ?]; [by left|by right].
  - exists (own (object ([("id", get (message q) "id"); ("ok", JBool true); ("session", sessionRefOf (target a))]
      ++ when (eq_str (get (message q) "verb") "newSession") "operationId" (get (message q) "operationId")))).
    split; [reflexivity|]. unfold when. rewrite !object_lookup. by destruct (eq_str _ _).
Qed.
End answers.

(** ** Runs *)


Definition requestAt (r : nat) (c : Connection) : Request := default (mkRequest JNull None Refused) (requests c !! r).

(** The socket closes while [b] is being opened; a third request comes too late. *)
Definition demoRefusing : list ConnectionEvent :=
  take 9 demoSwitch ++ [Disposes; Receives (demoOpen "3" "a"); OpenSucceeds 1 (demoTarget "b"); ReleaseResolves 1;
    RefusalReplies 2; TransitionsDrained].

Lemma requests_answered_once_witness :
  let c := demoRun demoRefusing in
  point (requestAt 2 c) = Answered ∧ scopeState (transitions c) = ScopeClosed ∧
  ∃ v, repliesTo 2 (sent c) = [ReplyFrame (own v)] ∧ get v "id" = JStr "3".
Proof.
  intros c. assert (point (requestAt 2 c) = Answered) as Hp by by vm_compute. split_and!; [done|by vm_compute|].
  pose proof (requests_answered_once false id (λ _, "") demoRefusing c 2 (requestAt 2 c)) as H. rewrite Hp in H. apply H.
  - by repeat (apply Forall_cons; split; [done|]).
  - by vm_compute.
  - by vm_compute.
  - unfold silent. apply (bool_decide_unpack _). by vm_compute.
Defined.


Definition heldAnswer (q : Request) : json → list HostOutput :=
  match point q with ReleasingPrevious _ answer => answer | _ => λ _, [] end.

Lemma open_reply_holds_witness :
  let c := demoRun (take 12 demoSwitch) in
  attachment c = Some (mkAttached (demoTarget "b") 1) ∧
  ∃ reply, repliesTo 1 (sent c) = [ReplyFrame reply] ∧ get (JObj reply) "session" = sessionRefOf (demoTarget "b").
Proof.
  intros c. split; [by vm_compute|].
  destruct (open_reply_holds false id (λ _, "") (take 11 demoSwitch) (demoRun (take 11 demoSwitch)) 1
    (requestAt 1 (demoRun (take 11 demoSwitch))) (mkAttached (demoTarget "b") 1)
    (heldAnswer (requestAt 1 (demoRun (take 11 demoSwitch)))) c) as (_ & reply & Hsent & _ & _ & Hs).
  - by repeat (apply Forall_cons; split; [done|]).
  - by vm_compute.
  - by vm_compute.
  - by vm_compute.
  - by vm_compute.
  - exists reply. split; [|exact Hs]. rewrite Hsent, repliesTo_app.
    assert (repliesTo 1 (sent (demoRun (take 11 demoSwitch))) = []) as -> by by vm_compute. reflexivity.
Defined.
