(* ===== verification/Actor.v ===== *)
(** * The session actor

    [host/session-actor.ts]: the owner of one session's runtime.  It admits
    commands (at once) and mutations (on the line of [Scope]), hands out
    capabilities and their observations, decides when the session is idle, and
    closes.  What runs between two turns of the event loop is one function; the
    ends of operations and the reactions of the awaits in [close] are events.

    An object the source compares by identity (an observation, a capability, a
    command in flight) is the position at which it was made. *)

From S2P Require Export Scope.

(** ** The state *)

Inductive ActorPhase := Creating | Live | Closing | Closed.

(** One installed observation: its handle, and whether it was stopped. *)
Record Observation := mkObservation { observer : nat; stopped : bool }.

(** One client handle: the [released] flag and the observations it owns. *)
Record Capability := mkCapability { released : bool; owned : list nat }.

(** What the actor sees of its [Manager]: the handles it delivers to, how often
    [dispose] was called, and the facts the idle decision reads. *)
Record Manager := mkManager {
  connectionHandles : gset nat; disposals : nat;
  isStreaming : bool; isCompacting : bool; durable : bool; empty : bool }.

(** Where the body of [close] stands: its three awaits and its two ends. *)
Inductive ClosePoint :=
  | AwaitMutations | AwaitDispose | AwaitTracked (waiting : list nat) | CloseResolved | CloseRejected.

Record SessionActor := mkActor {
  manager : Manager;
  idleGcMs : Z; unflushedIdleGcMs : Z;
  mutations : LifecycleScope;
  commands : nat;                     (* commands begun so far *)
  tracked : list nat;                 (* those in flight *)
  observations : list Observation;    (* all ever installed *)
  liveObservations : list nat;
  capabilities : list Capability;     (* all ever minted *)
  liveCapabilities : Z;
  idleTimer : option Z;
  phase : ActorPhase;
  closed : option ClosePoint
}.

#[global] Instance ActorPhase_eq_dec : EqDecision ActorPhase.
Proof. solve_decision. Defined.
#[global] Instance ClosePoint_eq_dec : EqDecision ClosePoint.
Proof. solve_decision. Defined.

Definition DEFAULT_IDLE_GC_MS : Z := 5 * 60000.
Definition DEFAULT_UNFLUSHED_IDLE_GC_MS : Z := 30 * 60000.

Definition createSessionActor (m : Manager) (idleMs unflushedMs : option Z) : SessionActor :=
  mkActor m (default DEFAULT_IDLE_GC_MS idleMs) (default DEFAULT_UNFLUSHED_IDLE_GC_MS unflushedMs)
    createLifecycleScope 0 [] [] [] [] 0 None Live None.

(** *** Assignments *)

Definition setManager (m : Manager) (a : SessionActor) : SessionActor :=
  mkActor m (idleGcMs a) (unflushedIdleGcMs a) (mutations a) (commands a) (tracked a) (observations a)
    (liveObservations a) (capabilities a) (liveCapabilities a) (idleTimer a) (phase a) (closed a).
Definition setMutations (s : LifecycleScope) (a : SessionActor) : SessionActor :=
  mkActor (manager a) (idleGcMs a) (unflushedIdleGcMs a) s (commands a) (tracked a) (observations a)
    (liveObservations a) (capabilities a) (liveCapabilities a) (idleTimer a) (phase a) (closed a).
Definition setTracked (n : nat) (t : list nat) (a : SessionActor) : SessionActor :=
  mkActor (manager a) (idleGcMs a) (unflushedIdleGcMs a) (mutations a) n t (observations a)
    (liveObservations a) (capabilities a) (liveCapabilities a) (idleTimer a) (phase a) (closed a).
Definition setObservations (os : list Observation) (live : list nat) (a : SessionActor) : SessionActor :=
  mkActor (manager a) (idleGcMs a) (unflushedIdleGcMs a) (mutations a) (commands a) (tracked a) os
    live (capabilities a) (liveCapabilities a) (idleTimer a) (phase a) (closed a).
Definition setCapabilities (cs : list Capability) (n : Z) (a : SessionActor) : SessionActor :=
  mkActor (manager a) (idleGcMs a) (unflushedIdleGcMs a) (mutations a) (commands a) (tracked a) (observations a)
    (liveObservations a) cs n (idleTimer a) (phase a) (closed a).
Definition setIdleTimer (t : option Z) (a : SessionActor) : SessionActor :=
  mkActor (manager a) (idleGcMs a) (unflushedIdleGcMs a) (mutations a) (commands a) (tracked a) (observations a)
    (liveObservations a) (capabilities a) (liveCapabilities a) t (phase a) (closed a).
Definition setPhase (p : ActorPhase) (c : option ClosePoint) (a : SessionActor) : SessionActor :=
  mkActor (manager a) (idleGcMs a) (unflushedIdleGcMs a) (mutations a) (commands a) (tracked a) (observations a)
    (liveObservations a) (capabilities a) (liveCapabilities a) (idleTimer a) p c.

Definition setHandles (h : gset nat) (m : Manager) : Manager :=
  mkManager h (disposals m) (isStreaming m) (isCompacting m) (durable m) (empty m).

(** [Set.delete] *)
Definition without (n : nat) (l : list nat) : list nat := filter (λ k, k ≠ n) l.

(** ** Admission *)

(** The gate of a handle: the registration's admission, or a capability. *)
Definition admissible (gate : option nat) (a : SessionActor) : bool :=
  match gate with
  | None => bool_decide (phase a = Live)
  | Some c =>
    match capabilities a !! c with
    | Some cap => negb (released cap) && bool_decide (phase a = Live)
    | None => false
    end
  end.

(** [commandOp]: [throws] when the operation throws before it returns its
    promise.  [None] is a rejection. *)
Definition commandOp (gate : option nat) (throws : bool) (a : SessionActor) : option nat * SessionActor :=
  if negb (admissible gate a) then (None, a)
  else if throws then (None, a)
  else (Some (commands a), setTracked (S (commands a)) (tracked a ++ [commands a]) a).

(** The reaction that takes a settled command out of [tracked]. *)
Definition commandSettles (k : nat) (a : SessionActor) : SessionActor :=
  setTracked (commands a) (without k (tracked a)) a.

Definition mutateOp (gate : option nat) (a : SessionActor) : option nat * SessionActor :=
  if negb (admissible gate a) then (None, a)
  else match run (mutations a) with
       | Some s => (Some (tail (mutations a)), setMutations s a)
       | None => (None, a)
       end.

(** ** The idle decision *)

Definition cancelIdle (a : SessionActor) : SessionActor := setIdleTimer None a.

Definition armIdle (a : SessionActor) : SessionActor :=
  if negb (bool_decide (phase a = Live)) || (0 <? liveCapabilities a)%Z || bool_decide (is_Some (idleTimer a)) then a
  else setIdleTimer (Some (if durable (manager a) || empty (manager a) then idleGcMs a else unflushedIdleGcMs a)) a.

(** The timer fires: whether [onIdle] is called, and the new state. *)
Definition maybeCollect (a : SessionActor) : bool * SessionActor :=
  if negb (bool_decide (phase a = Live)) || (0 <? liveCapabilities a)%Z then (false, a)
  else if isStreaming (manager a) || isCompacting (manager a) then (false, armIdle a)
  else (true, a).

Definition idleFires (a : SessionActor) : bool * SessionActor := maybeCollect (setIdleTimer None a).

(** ** Observations and capabilities *)

Definition stop (n : nat) (a : SessionActor) : SessionActor :=
  match observations a !! n with
  | Some (mkObservation h false) =>
    setManager (setHandles (connectionHandles (manager a) ∖ {[h]}) (manager a))
      (setObservations (<[n := mkObservation h true]> (observations a)) (without n (liveObservations a)) a)
  | _ => a
  end.

Definition stopAll (ns : list nat) (a : SessionActor) : SessionActor := foldl (λ a n, stop n a) a ns.

Definition capability (a : SessionActor) : nat * SessionActor :=
  (length (capabilities a),
   cancelIdle (setCapabilities (capabilities a ++ [mkCapability false []]) (liveCapabilities a + 1) a)).

(** [observe]; [None] is the throw. *)
Definition observe (c : nat) (h : nat) (a : SessionActor) : option nat * SessionActor :=
  match capabilities a !! c with
  | Some cap =>
    if released cap || negb (bool_decide (phase a = Live)) then (None, a)
    else
      let n := length (observations a) in
      let a := setManager (setHandles (connectionHandles (manager a) ∪ {[h]}) (manager a)) a in
      let a := setObservations (observations a ++ [mkObservation h false]) (liveObservations a ++ [n]) a in
      (Some n, setCapabilities (<[c := mkCapability false (owned cap ++ [n])]> (capabilities a)) (liveCapabilities a) a)
  | None => (None, a)
  end.

(** [release] of one observation of the capability [c]. *)
Definition releaseObservation (c n : nat) (a : SessionActor) : SessionActor :=
  match capabilities a !! c with
  | Some cap =>
    let a := stop n a in
    setCapabilities (<[c := mkCapability (released cap) (without n (owned cap))]> (capabilities a)) (liveCapabilities a) a
  | None => a
  end.

Definition release (c : nat) (a : SessionActor) : SessionActor :=
  match capabilities a !! c with
  | Some cap =>
    if released cap then a
    else
      let a := stopAll (owned cap) a in
      let a := setCapabilities (<[c := mkCapability true []]> (capabilities a)) (liveCapabilities a - 1) a in
      if (liveCapabilities a =? 0)%Z then armIdle a else a
  | None => a
  end.

(** ** The terminal boundary *)

(** The turn in which [close] is called, up to its first await. *)
Definition closeActor (a : SessionActor) : SessionActor :=
  match closed a with
  | Some _ => a
  | None => setMutations (close (mutations a)) (setPhase Closing (Some AwaitMutations) (cancelIdle a))
  end.

(** [await mutations.close()] resumes: the runtime is disposed. *)
Definition mutationsClosed (a : SessionActor) : option SessionActor :=
  match closed a, scopeState (mutations a) with
  | Some AwaitMutations, ScopeClosed =>
    let m := manager a in
    Some (setManager (mkManager (connectionHandles m) (S (disposals m)) (isStreaming m) (isCompacting m) (durable m) (empty m))
           (setPhase (phase a) (Some AwaitDispose) a))
  | _, _ => None
  end.

(** [await manager.dispose()] resumes, or throws. *)
Definition disposed (ok : bool) (a : SessionActor) : option SessionActor :=
  match closed a with
  | Some AwaitDispose => Some (setPhase (phase a) (Some (if ok then AwaitTracked (tracked a) else CloseRejected)) a)
  | _ => None
  end.

(** [await Promise.allSettled(...)] resumes: the observations are released. *)
Definition trackedSettled (a : SessionActor) : option SessionActor :=
  match closed a with
  | Some (AwaitTracked waiting) =>
    if forallb (λ k, negb (bool_decide (k ∈ tracked a))) waiting then
      let a := stopAll (liveObservations a) a in
      Some (setPhase Closed (Some CloseResolved) (setObservations (observations a) [] a))
    else None
  | _ => None
  end.

(** ** Events *)

Inductive ActorEvent :=
  | Command (gate : option nat) (throws : bool)
  | CommandSettles (k : nat)
  | Mutate (gate : option nat)
  | MutationStarts (i : nat)
  | MutationSettles (i : nat) (ok : bool)
  | Capture
  | Observe (c h : nat)
  | StopObservation (c n : nat)
  | Release (c : nat)
  | ArmIdle
  | IdleFires
  | Facts (streaming compacting onDisk noEntries : bool)
  | MutationsDrained
  | MutationsClosed
  | Disposed (ok : bool)
  | TrackedSettled.

(** The reaction to an event; [None] when it cannot happen in this state. *)
Definition react (e : ActorEvent) (a : SessionActor) : option SessionActor :=
  match e with
  | Command g throws => Some (commandOp g throws a).2
  | CommandSettles k => if bool_decide (k ∈ tracked a) then Some (commandSettles k a) else None
  | Mutate g => Some (mutateOp g a).2
  | MutationStarts i => (λ s, setMutations s a) <$> start i (mutations a)
  | MutationSettles i ok => (λ s, setMutations s a) <$> settle i ok (mutations a)
  | Capture => Some (capability a).2
  | Observe c h => Some (observe c h a).2
  | StopObservation c n => Some (releaseObservation c n a)
  | Release c => Some (release c a)
  | ArmIdle => Some (armIdle a)
  | IdleFires => if bool_decide (is_Some (idleTimer a)) then Some (idleFires a).2 else None
  | Facts st co di em => Some (setManager (mkManager (connectionHandles (manager a)) (disposals (manager a)) st co di em) a)
  | MutationsDrained => (λ s, setMutations s a) <$> drained (mutations a)
  | MutationsClosed => mutationsClosed a
  | Disposed ok => disposed ok a
  | TrackedSettled => trackedSettled a
  end.

(** Whether the event calls [onIdle]. *)
Definition callsOnIdle (e : ActorEvent) (a : SessionActor) : bool :=
  match e with IdleFires => bool_decide (is_Some (idleTimer a)) && (idleFires a).1 | _ => false end.

(** What happens to an actor: an event, or a call of [close]. *)
Inductive ActorStep := Event (e : ActorEvent) | Close.

Definition actorStep (s : ActorStep) (a : SessionActor) : option SessionActor :=
  match s with Event e => react e a | Close => Some (closeActor a) end.

Fixpoint runActor (ss : list ActorStep) (a : SessionActor) : option SessionActor :=
  match ss with
  | [] => Some a
  | s :: ss => actorStep s a ≫= runActor ss
  end.

(** ** The invariant *)

(** An observation is live exactly when it was not stopped, and the manager
    delivers to handles of live observations only. *)
Record observations_ok (a : SessionActor) : Prop := {
  ok_live : ∀ n, n ∈ liveObservations a ↔ ∃ h, observations a !! n = Some (mkObservation h false);
  ok_handles : ∀ h, h ∈ connectionHandles (manager a) → ∃ n, observations a !! n = Some (mkObservation h false)
}.

(** A capability counts while it is not released; the timer runs only for a live
    session that no capability holds. *)
Definition unreleased (cs : list Capability) : list Capability := filter (λ c, released c = false) cs.

Record idle_ok (a : SessionActor) : Prop := {
  ok_count : liveCapabilities a = Z.of_nat (length (unreleased (capabilities a)));
  ok_timer : is_Some (idleTimer a) → liveCapabilities a = 0%Z ∧ phase a = Live
}.

(** Where [close] stands fixes the phase, the disposals and what has drained. *)
Definition close_ok (a : SessionActor) : Prop :=
  match closed a with
  | None => phase a = Live ∧ drain (mutations a) = None ∧ disposals (manager a) = 0
  | Some AwaitMutations => phase a = Closing ∧ is_Some (drain (mutations a)) ∧ disposals (manager a) = 0
  | Some p =>
    scopeState (mutations a) = ScopeClosed ∧ disposals (manager a) = 1 ∧
    match p with
    | CloseResolved => phase a = Closed ∧ tracked a = [] ∧ liveObservations a = []
    | AwaitTracked w => phase a = Closing ∧ tracked a ⊆ w
    | _ => phase a = Closing
    end
  end.

Record actor_ok (a : SessionActor) : Prop := {
  ok_observations : observations_ok a;
  ok_idle : idle_ok a;
  ok_close : close_ok a;
  ok_scope : scope_ok (mutations a)
}.

(** *** Stopping observations *)

Lemma without_elem k n l : k ∈ without n l ↔ k ≠ n ∧ k ∈ l.
Proof. unfold without. by rewrite list_elem_of_filter. Qed.

Lemma without_id n l : n ∉ l → without n l = l.
Proof.
  unfold without. induction l as [|k l IH]; [done|]. rewrite not_elem_of_cons, filter_cons. intros [Hk Hl].
  rewrite decide_True by done. by rewrite IH.
Qed.

(** What stopping leaves alone. *)
Lemma stopAll_shape ns a :
  ∃ hs os live, stopAll ns a = setManager (setHandles hs (manager a)) (setObservations os live a)
    ∧ length os = length (observations a) ∧ live ⊆ liveObservations a.
Proof.
  revert a. induction ns as [|n ns IH]; intros a.
  - exists (connectionHandles (manager a)), (observations a), (liveObservations a). by destruct a as [[]].
  - simpl. destruct (IH (stop n a)) as (hs & os & live & E & El & Esub). exists hs, os, live. rewrite E.
    unfold stop in *. destruct (observations a !! n) as [[h []]|]; [done| |done]. split_and!; [done| |].
    + rewrite El. apply length_insert.
    + intros k Hk%Esub. by apply without_elem in Hk as [_ ?].
Qed.

Lemma stop_observations_ok n a : observations_ok a → observations_ok (stop n a).
Proof.
  intros H. unfold stop. destruct (observations a !! n) as [[h []]|] eqn:En; [done| |done].
  apply lookup_lt_Some in En as Hlt. destruct H as [Hlive Hh]. split; simpl.
  - intros k. rewrite without_elem, Hlive. destruct (decide (k = n)) as [-> | Hk].
    + rewrite list_lookup_insert_eq by done. split; [by intros [? _]|by intros [? [=]]].
    + rewrite list_lookup_insert_ne by done. naive_solver.
  - intros g [Hg Hne]%elem_of_difference. destruct (Hh g Hg) as [k Hk]. exists k.
    rewrite list_lookup_insert_ne; [done|]. intros ->. apply Hne. simplify_eq. by apply elem_of_singleton.
Qed.

Lemma stop_live n a : observations_ok a → liveObservations (stop n a) = without n (liveObservations a).
Proof.
  intros H. assert (∀ P : Prop, (n ∉ liveObservations a → P) → (∃ h, observations a !! n = Some (mkObservation h false)) ∨ P) as Hcase.
  { intros P HP. destruct (decide (n ∈ liveObservations a)) as [Hn|Hn]; [left; by apply (ok_live a H)|right; by apply HP]. }
  destruct (Hcase (without n (liveObservations a) = liveObservations a)) as [[h Hh] | E].
  - by apply without_id.
  - unfold stop. by rewrite Hh.
  - rewrite E. unfold stop. destruct (observations a !! n) as [[h []]|] eqn:En; done.
Qed.

Lemma stopAll_observations_ok ns a : observations_ok a → observations_ok (stopAll ns a).
Proof. revert a. induction ns as [|n ns IH]; intros a H; [done|]. by apply IH, stop_observations_ok. Qed.

Lemma stopAll_live ns a k :
  observations_ok a → k ∈ liveObservations (stopAll ns a) ↔ k ∈ liveObservations a ∧ k ∉ ns.
Proof.
  revert a. induction ns as [|n ns IH]; intros a H; simpl; [set_solver|].
  rewrite IH by by apply stop_observations_ok. rewrite stop_live by done. rewrite without_elem. set_solver.
Qed.

(** *** Counting capabilities *)

Definition counts (c : Capability) : nat := if released c then 0 else 1.

Lemma unreleased_length cs : length (unreleased cs) = sum_list_with counts cs.
Proof.
  unfold unreleased. induction cs as [|[[] ns] cs IH]; simpl; [done|done|]. by rewrite <- IH.
Qed.

Lemma counts_insert cs c x y :
  cs !! c = Some x → sum_list_with counts (<[c := y]> cs) + counts x = sum_list_with counts cs + counts y.
Proof.
  revert c. induction cs as [|z cs IH]; intros [|c] H; simplify_eq/=; [lia|]. specialize (IH c H). lia.
Qed.

(** *** Every operation keeps the invariant *)

Lemma idle_ok_same a b :
  capabilities b = capabilities a → liveCapabilities b = liveCapabilities a → phase b = phase a →
  (is_Some (idleTimer b) → is_Some (idleTimer a)) → idle_ok a → idle_ok b.
Proof. intros Ec El Ep Et []. split; [congruence|]. rewrite El, Ep. auto. Qed.

Lemma observations_ok_same a b :
  observations b = observations a → liveObservations b = liveObservations a → manager b = manager a →
  observations_ok a → observations_ok b.
Proof. intros Eo El Em []. split; [by rewrite Eo, El|by rewrite Eo, Em]. Qed.

Lemma armIdle_ok a : actor_ok a → actor_ok (armIdle a).
Proof.
  intros [Ho [Hc Ht] Hcl Hs]. unfold armIdle. case_match eqn:E; [done|].
  apply orb_false_iff in E as [[E1 E2]%orb_false_iff E3]. apply negb_false_iff, bool_decide_eq_true in E1.
  apply Z.ltb_ge in E2. split; [by apply (observations_ok_same a)| |done|done]. split; simpl; [done|]. intros _. split; [lia|done].
Qed.

(** [close_ok] reads these components only. *)
Lemma close_ok_same a b :
  closed b = closed a → phase b = phase a → drain (mutations b) = drain (mutations a) →
  scopeState (mutations b) = scopeState (mutations a) → disposals (manager b) = disposals (manager a) →
  (tracked b ⊆ tracked a) → (liveObservations b ⊆ liveObservations a) → close_ok a → close_ok b.
Proof.
  intros E1 E2 E3 E4 E5 Ht Hl. unfold close_ok. rewrite E1, E2, E3, E4, E5.
  destruct (closed a) as [[]|]; try done.
  - intros (? & ? & ? & ?). split_and!; [done..|]. by etrans.
  - intros (? & ? & ? & E6 & E7). rewrite E6 in Ht. rewrite E7 in Hl.
    split_and!; [done..| |]; by apply list_nil_subseteq.
Qed.

(** An admissible handle means a live actor whose [close] was not called. *)
Lemma admissible_live g a : admissible g a = true → phase a = Live.
Proof. unfold admissible. intros H. repeat case_match; split_bools; done. Qed.

Lemma live_open a : close_ok a → phase a = Live → closed a = None.
Proof. unfold close_ok. intros H Hp. destruct (closed a) as [[]|]; [destruct_and?; congruence..|done]. Qed.

Lemma command_ok g throws a : actor_ok a → actor_ok (commandOp g throws a).2.
Proof.
  intros H. unfold commandOp. destruct (admissible g a) eqn:E; [|done]. destruct throws; [done|].
  apply admissible_live in E. destruct H as [Ho Hi Hc Hs]. split; [by apply (observations_ok_same a)| |..|done].
  - by apply (idle_ok_same a).
  - pose proof (live_open a Hc E) as En. unfold close_ok in *. simpl. by rewrite En in *.
Qed.

Lemma without_subseteq n l : without n l ⊆ l.
Proof. intros k Hk. by apply without_elem in Hk as [_ ?]. Qed.

Lemma commandSettles_ok k a : actor_ok a → actor_ok (commandSettles k a).
Proof.
  intros [Ho Hi Hc Hs]. split; [by apply (observations_ok_same a)|by apply (idle_ok_same a)| |done].
  apply (close_ok_same a); try done. apply without_subseteq.
Qed.

(** A change of the mutation line that does not close it. *)
Lemma setMutations_ok s a :
  actor_ok a → scope_ok s → drain s = drain (mutations a) →
  scopeState s = scopeState (mutations a) → actor_ok (setMutations s a).
Proof.
  intros [Ho Hi Hc Hs] Hs' Hd Hst. split; [by apply (observations_ok_same a)|by apply (idle_ok_same a)| |done].
  by apply (close_ok_same a).
Qed.

Lemma mutate_ok g a : actor_ok a → actor_ok (mutateOp g a).2.
Proof.
  intros H. unfold mutateOp. destruct (admissible g a) eqn:E; [|done]. destruct (run (mutations a)) as [s|] eqn:Er; [|done].
  pose proof (run_ok _ _ (ok_scope a H) Er). unfold run in Er. destruct (drain (mutations a)) eqn:Ed; simplify_eq.
  by apply setMutations_ok.
Qed.

Lemma mutationStarts_ok i s a : actor_ok a → start i (mutations a) = Some s → actor_ok (setMutations s a).
Proof.
  intros H E. pose proof (start_ok _ _ _ (ok_scope a H) E). unfold start in E.
  repeat case_match; simplify_eq. by apply setMutations_ok.
Qed.

Lemma mutationSettles_ok i ok s a : actor_ok a → settle i ok (mutations a) = Some s → actor_ok (setMutations s a).
Proof.
  intros H E. pose proof (settle_ok _ _ _ _ (ok_scope a H) E). unfold settle in E.
  repeat case_match; simplify_eq. by apply setMutations_ok.
Qed.

Lemma drained_actor_ok s a : actor_ok a → drained (mutations a) = Some s → actor_ok (setMutations s a).
Proof.
  intros H E. pose proof (drained_ok _ _ (ok_scope a H) E). unfold drained in E.
  destruct (drain (mutations a)) as [t|] eqn:Ed; [|done]. destruct (scopeState (mutations a)) eqn:Es; try done.
  case_match; simplify_eq. destruct H as [Ho Hi Hc Hs].
  split; [by apply (observations_ok_same a)|by apply (idle_ok_same a)| |done].
  unfold close_ok in *. simpl. rewrite Es, Ed in Hc. destruct (closed a) as [[]|]; destruct_and?; done.
Qed.

Lemma capture_ok a : actor_ok a → actor_ok (capability a).2.
Proof.
  intros [Ho [Hcount Ht] Hc Hs]. split; [by apply (observations_ok_same a)| |done|done].
  split; simpl; [|by intros [? ?]]. rewrite unreleased_length, sum_list_with_app. simpl.
  rewrite Hcount, unreleased_length. lia.
Qed.

(** Stopping observations keeps everything but the observations. *)
Lemma stopAll_ok ns a : actor_ok a → actor_ok (stopAll ns a).
Proof.
  intros [Ho Hi Hc Hs]. pose proof (stopAll_observations_ok ns a Ho) as Ho'.
  destruct (stopAll_shape ns a) as (hs & os & live & E & _ & Hsub). rewrite E in *.
  split; [done|by apply (idle_ok_same a)|by apply (close_ok_same a)|done].
Qed.

(** A capability rewritten with the same [released] flag. *)
Lemma setOwned_ok c cap ns a :
  capabilities a !! c = Some cap → actor_ok a →
  actor_ok (setCapabilities (<[c := mkCapability (released cap) ns]> (capabilities a)) (liveCapabilities a) a).
Proof.
  intros E [Ho [Hcount Ht] Hc Hs]. split; [by apply (observations_ok_same a)| |done|done]. split; simpl; [|done].
  pose proof (counts_insert _ _ _ (mkCapability (released cap) ns) E) as Hx. unfold counts in Hx at 2 4.
  rewrite Hcount, !unreleased_length. destruct (released cap); simpl in *; lia.
Qed.

Lemma observe_ok c h a : actor_ok a → actor_ok (observe c h a).2.
Proof.
  intros H. unfold observe. destruct (capabilities a !! c) as [cap|] eqn:E; [|done].
  destruct (released cap || _) eqn:Er; [done|]. apply orb_false_iff in Er as [Er Ep].
  apply negb_false_iff, bool_decide_eq_true in Ep.
  pose proof (setOwned_ok c cap (owned cap ++ [length (observations a)])
    (setObservations (observations a ++ [mkObservation h false]) (liveObservations a ++ [length (observations a)])
      (setManager (setHandles (connectionHandles (manager a) ∪ {[h]}) (manager a)) a)) E) as Hown.
  rewrite Er in Hown. apply Hown. clear Hown.
  destruct H as [[Hlive Hh] Hi Hc Hs]. split; [|by apply (idle_ok_same a)| |done].
  - split; simpl.
    + intros n. rewrite elem_of_app, list_elem_of_singleton, Hlive. split.
      * intros [[g Hg] | ->]; [exists g; by apply lookup_app_l_Some|]. exists h. by apply list_lookup_middle.
      * intros [g [Hg | [Hn Hg]]%lookup_app_Some]; [left; by exists g|].
        apply list_lookup_singleton_Some in Hg as [Hn' _]. right. lia.
    + intros g [Hg | ->%elem_of_singleton]%elem_of_union.
      * destruct (Hh g Hg) as [n Hn]. exists n. by apply lookup_app_l_Some.
      * exists (length (observations a)). by apply list_lookup_middle.
  - pose proof (live_open a Hc Ep) as En. unfold close_ok in *. simpl. by rewrite En in *.
Qed.

Lemma stop_ok n a : actor_ok a → actor_ok (stop n a).
Proof. apply (stopAll_ok [n]). Qed.

Lemma stopAll_caps ns a : capabilities (stopAll ns a) = capabilities a ∧ liveCapabilities (stopAll ns a) = liveCapabilities a
  ∧ phase (stopAll ns a) = phase a ∧ closed (stopAll ns a) = closed a ∧ idleTimer (stopAll ns a) = idleTimer a
  ∧ mutations (stopAll ns a) = mutations a ∧ disposals (manager (stopAll ns a)) = disposals (manager a)
  ∧ commands (stopAll ns a) = commands a ∧ tracked (stopAll ns a) = tracked a
  ∧ length (observations (stopAll ns a)) = length (observations a).
Proof. by destruct (stopAll_shape ns a) as (hs & os & live & -> & ? & _). Qed.

Lemma releaseObservation_ok c n a : actor_ok a → actor_ok (releaseObservation c n a).
Proof.
  intros H. unfold releaseObservation. destruct (capabilities a !! c) as [cap|] eqn:E; [|done].
  destruct (stopAll_caps [n] a) as (Ec & _). simpl in Ec. apply (stop_ok n) in H. rewrite <- Ec in E. by apply setOwned_ok.
Qed.

Lemma release_ok c a : actor_ok a → actor_ok (release c a).
Proof.
  intros H. unfold release. destruct (capabilities a !! c) as [cap|] eqn:E; [|done].
  destruct (released cap) eqn:Er; [done|]. destruct (stopAll_caps (owned cap) a) as (Ec & _).
  apply (stopAll_ok (owned cap)) in H. rewrite <- Ec in E. set (b := stopAll (owned cap) a) in *.
  assert (actor_ok (setCapabilities (<[c:=mkCapability true []]> (capabilities b)) (liveCapabilities b - 1) b)) as Hok;
    [|case_match; [by apply armIdle_ok|done]].
  destruct H as [Ho [Hcount Ht] Hc Hs]. split; [by apply (observations_ok_same b)| |done|done].
  pose proof (counts_insert _ _ _ (mkCapability true []) E) as Hx. unfold counts in Hx at 2 4. rewrite Er in Hx. simpl in Hx.
  rewrite unreleased_length in Hcount.
  split; simpl; [rewrite unreleased_length; lia|]. intros Hsome. destruct (Ht Hsome) as [Hzero Hp]. split; [|done]. lia.
Qed.

Lemma cancelIdle_ok a : actor_ok a → actor_ok (cancelIdle a).
Proof.
  intros [Ho [Hcount Ht] Hc Hs]. split; [by apply (observations_ok_same a)|split; [done|by intros [? ?]]|done|done].
Qed.

Lemma idleFires_ok a : actor_ok a → actor_ok (idleFires a).2.
Proof.
  intros H%cancelIdle_ok. unfold idleFires, maybeCollect, cancelIdle in *.
  repeat case_match; simpl; [done|by apply armIdle_ok|done].
Qed.

Lemma closeActor_ok a : actor_ok a → actor_ok (closeActor a).
Proof.
  intros H. unfold closeActor. destruct (closed a) eqn:E; [done|]. destruct (cancelIdle_ok a H) as [Ho [Hcount _] Hc Hs].
  split; [by apply (observations_ok_same (cancelIdle a))|split; [done|by intros [? ?]]| |by apply close_scope_ok].
  unfold close_ok in *. simpl in *. rewrite E in Hc. destruct Hc as (_ & Hd & Hn). unfold close. by rewrite Hd.
Qed.

Lemma mutationsClosed_ok a b : actor_ok a → mutationsClosed a = Some b → actor_ok b.
Proof.
  intros [Ho Hi Hc Hs] E. unfold mutationsClosed in E. destruct (closed a) as [[]|] eqn:Ec; try done.
  destruct (scopeState (mutations a)) eqn:Es; simplify_eq. destruct Ho as [Hlive Hh].
  split; [by split|by apply (idle_ok_same a)| |done]. unfold close_ok in *. simpl. rewrite Ec in Hc. naive_solver.
Qed.

Lemma disposed_ok ok a b : actor_ok a → disposed ok a = Some b → actor_ok b.
Proof.
  intros [Ho Hi Hc Hs] E. unfold disposed in E. destruct (closed a) as [[]|] eqn:Ec; simplify_eq.
  split; [by apply (observations_ok_same a)|by apply (idle_ok_same a)| |done]. unfold close_ok in *. rewrite Ec in Hc.
  destruct Hc as (? & ? & ?). by destruct ok; split_and!.
Qed.

Lemma trackedSettled_ok a b : actor_ok a → trackedSettled a = Some b → actor_ok b.
Proof.
  intros H E. unfold trackedSettled in E. destruct (closed a) as [[| |w| |]|] eqn:Ec; try done.
  destruct (forallb _ w) eqn:Ew; [|done]. set (c := stopAll (liveObservations a) a) in *. simplify_eq.
  destruct (stopAll_caps (liveObservations a) a) as (_ & _ & Ep & Ecl & Et & Em & Ed & _ & Etr & _). fold c in Ep, Ecl, Et, Em, Ed, Etr.
  assert (liveObservations c = []) as Hnil.
  { apply list_nil_subseteq. intros k Hk. apply stopAll_live in Hk as [? ?]; [done|by destruct H]. }
  assert (phase a = Closing ∧ tracked a ⊆ w ∧ scopeState (mutations a) = ScopeClosed ∧ disposals (manager a) = 1) as (Hp & Hw & Hs & Hd).
  { pose proof (ok_close a H) as Hc. unfold close_ok in Hc. rewrite Ec in Hc. naive_solver. }
  destruct (stopAll_ok (liveObservations a) a H) as [Ho [Hcount Ht] _ Hsc]. fold c in Ho, Hcount, Ht, Hsc.
  split; [apply (observations_ok_same c); try done| |..|done].
  - split; simpl; [done|]. intros [_ Hp']%Ht. congruence.
  - unfold close_ok. simpl. split_and!; [congruence..| |done]. rewrite Etr. apply list_nil_subseteq. intros k Hk.
    rewrite forallb_forall in Ew. assert (k ∈ w) as Hkw%list_elem_of_In by by apply Hw. apply Ew in Hkw. by split_bools.
Qed.

Lemma react_ok e a b : actor_ok a → react e a = Some b → actor_ok b.
Proof.
  intros H E. destruct e; cbn [react] in E; simplify_eq;
    try by auto using command_ok, mutate_ok, capture_ok, observe_ok, releaseObservation_ok, release_ok, armIdle_ok.
  - case_match; simplify_eq. by apply commandSettles_ok.
  - apply fmap_Some in E as (s & E & ->). by eapply mutationStarts_ok.
  - apply fmap_Some in E as (s & E & ->). by eapply mutationSettles_ok.
  - case_match; simplify_eq. by apply idleFires_ok.
  - destruct H as [[Hlive Hh] Hi Hc Hs]. split; [by split|by apply (idle_ok_same a)|by apply (close_ok_same a)|done].
  - apply fmap_Some in E as (s & E & ->). by apply drained_actor_ok.
  - by eapply mutationsClosed_ok.
  - by eapply disposed_ok.
  - by eapply trackedSettled_ok.
Qed.

Lemma actorStep_ok s a b : actor_ok a → actorStep s a = Some b → actor_ok b.
Proof. intros H. destruct s; [by apply react_ok|]. intros [= <-]. by apply closeActor_ok. Qed.

Lemma runActor_ok ss a b : actor_ok a → runActor ss a = Some b → actor_ok b.
Proof.
  revert a. induction ss as [|s ss IH]; simpl; intros a H E; [by simplify_eq|].
  apply bind_Some in E as (c & Ec & E). eapply IH; [|done]. by eapply actorStep_ok.
Qed.

(** A manager no one is connected to and that was not disposed, as [createManager] gives it. *)
Definition freshManager (m : Manager) : Prop := connectionHandles m = ∅ ∧ disposals m = 0.

Lemma create_ok m i u : freshManager m → actor_ok (createSessionActor m i u).
Proof.
  intros [Hh Hd]. split; [|by split; [|intros [? ?]]|done|apply scope_create]. split; simpl.
  - intros n. rewrite elem_of_nil. split; [done|by intros [? ?]].
  - intros h. rewrite Hh. by intros ?%elem_of_empty.
Qed.

(** ** Once [close] was called *)

(** Nothing is admitted from [a] to [b]: no command, no mutation, no observation. *)
Record frozen (a b : SessionActor) : Prop := {
  frozen_phase : phase b ≠ Live;
  frozen_commands : commands b = commands a;
  frozen_mutations : tail (mutations b) = tail (mutations a);
  frozen_observations : length (observations b) = length (observations a);
  frozen_handles : connectionHandles (manager b) ⊆ connectionHandles (manager a)
}.

Lemma not_admissible g a : phase a ≠ Live → admissible g a = false.
Proof. intros H. destruct (admissible g a) eqn:E; [|done]. by apply admissible_live in E. Qed.

Lemma frozen_refl a : phase a ≠ Live → frozen a a.
Proof. by split. Qed.

Lemma frozen_trans a b c : frozen a b → frozen b c → frozen a c.
Proof. intros [] []. split; [done|congruence..|]. by etrans. Qed.

(** A state that differs from [a] in what freezing does not mention. *)
Lemma frozen_same a b :
  phase b = phase a → commands b = commands a → tail (mutations b) = tail (mutations a) →
  observations b = observations a → manager b = manager a → phase a ≠ Live → frozen a b.
Proof. intros Ep Ec Em Eo Eh H. split; [congruence..|by rewrite Eh]. Qed.

Lemma stop_handles n a : connectionHandles (manager (stop n a)) ⊆ connectionHandles (manager a).
Proof. unfold stop. destruct (observations a !! n) as [[h []]|]; simpl; set_solver. Qed.

Lemma stopAll_handles ns a : connectionHandles (manager (stopAll ns a)) ⊆ connectionHandles (manager a).
Proof. revert a. induction ns as [|n ns IH]; intros a; [done|]. etrans; [apply IH|apply stop_handles]. Qed.

Lemma stopAll_frozen ns a : phase a ≠ Live → frozen a (stopAll ns a).
Proof.
  intros H. destruct (stopAll_caps ns a) as (_ & _ & Ep & _ & _ & Em & _ & Ec & _ & El).
  split; [congruence|done|congruence|done|apply stopAll_handles].
Qed.

Lemma armIdle_closed a : phase a ≠ Live → armIdle a = a.
Proof. intros H. unfold armIdle. by rewrite bool_decide_eq_false_2. Qed.

Lemma idleFires_closed a : phase a ≠ Live → idleFires a = (false, setIdleTimer None a).
Proof. intros H. unfold idleFires, maybeCollect. simpl. by rewrite bool_decide_eq_false_2. Qed.

Lemma releaseObservation_frozen c n a : phase a ≠ Live → frozen a (releaseObservation c n a).
Proof.
  intros H. unfold releaseObservation. destruct (capabilities a !! c); [|by apply frozen_refl].
  pose proof (stopAll_frozen [n] a H) as Hf. apply (frozen_trans _ (stop n a)); [done|]. by apply frozen_same; [..|destruct Hf].
Qed.

Lemma release_frozen c a : phase a ≠ Live → frozen a (release c a).
Proof.
  intros H. unfold release. destruct (capabilities a !! c) as [cap|]; [|by apply frozen_refl].
  destruct (released cap); [by apply frozen_refl|]. pose proof (stopAll_frozen (owned cap) a H) as Hf.
  apply (frozen_trans _ (stopAll (owned cap) a)); [done|]. destruct Hf as [Hp _ _ _ _].
  case_match; [rewrite armIdle_closed by done|]; by apply frozen_same.
Qed.

Lemma react_frozen e a b : phase a ≠ Live → react e a = Some b → frozen a b.
Proof.
  intros H E. destruct e; cbn [react] in E.
  - unfold commandOp in E. rewrite not_admissible in E by done. simplify_eq. by apply frozen_refl.
  - case_match; simplify_eq. by apply frozen_same.
  - unfold mutateOp in E. rewrite not_admissible in E by done. simplify_eq. by apply frozen_refl.
  - apply fmap_Some in E as (s & E & ->). unfold start in E. repeat case_match; simplify_eq.
    apply frozen_same; try done. apply tail_insert.
  - apply fmap_Some in E as (s & E & ->). unfold settle in E. repeat case_match; simplify_eq.
    apply frozen_same; try done. apply tail_insert.
  - simplify_eq. by apply frozen_same.
  - unfold observe in E. rewrite (bool_decide_eq_false_2 (phase a = Live)) in E by done.
    destruct (capabilities a !! c) as [[[] ?]|]; simplify_eq/=; by apply frozen_refl.
  - simplify_eq. by apply releaseObservation_frozen.
  - simplify_eq. by apply release_frozen.
  - rewrite armIdle_closed in E by done. simplify_eq. by apply frozen_refl.
  - case_match; simplify_eq. rewrite idleFires_closed by done. by apply frozen_same.
  - simplify_eq. by split.
  - apply fmap_Some in E as (s & E & ->). unfold drained in E. repeat case_match; simplify_eq. by apply frozen_same.
  - unfold mutationsClosed in E. repeat case_match; simplify_eq. by split.
  - unfold disposed in E. repeat case_match; simplify_eq; by split.
  - unfold trackedSettled in E. repeat case_match; simplify_eq.
    destruct (stopAll_frozen (liveObservations a) a H). by split.
Qed.

Lemma not_live_closed a : close_ok a → phase a ≠ Live → is_Some (closed a).
Proof. unfold close_ok. destruct (closed a); [by eexists|]. by intros (? & _) ?. Qed.

Lemma runActor_frozen ss a b : actor_ok a → phase a ≠ Live → runActor ss a = Some b → frozen a b.
Proof.
  revert a. induction ss as [|s ss IH]; simpl; intros a H Hp E; simplify_eq; [by apply frozen_refl|].
  apply bind_Some in E as (c & Ec & E). assert (frozen a c) as Hf.
  { destruct s as [e|]; simpl in Ec; [by eapply react_frozen|]. simplify_eq. unfold closeActor.
    destruct (not_live_closed a (ok_close a H) Hp) as [p ->]. by apply frozen_refl. }
  apply (frozen_trans _ c); [done|]. apply IH; [by eapply actorStep_ok|by destruct Hf|done].
Qed.

(** ** The close can always finish *)

(** The events by which the environment lets admitted work end. *)
Definition settling (e : ActorEvent) : Prop :=
  match e with
  | CommandSettles _ | MutationStarts _ | MutationSettles _ _ | MutationsDrained | MutationsClosed
  | Disposed true | TrackedSettled => True
  | _ => False
  end.

Definition leads (a b : SessionActor) : Prop :=
  ∃ es, Forall settling es ∧ runActor (Event <$> es) a = Some b.

Lemma leads_refl a : leads a a.
Proof. by exists []. Qed.

Lemma runActor_app s1 s2 a : runActor (s1 ++ s2) a = runActor s1 a ≫= runActor s2.
Proof. revert a. induction s1 as [|s s1 IH]; intros a; [done|]. simpl. destruct (actorStep s a); [apply IH|done]. Qed.

Lemma leads_trans a b c : leads a b → leads b c → leads a c.
Proof.
  intros (e1 & H1 & E1) (e2 & H2 & E2). exists (e1 ++ e2). split; [by apply Forall_app|].
  by rewrite fmap_app, runActor_app, E1.
Qed.

Lemma leads_event e a b : settling e → react e a = Some b → leads a b.
Proof. intros He E. exists [e]. split; [by repeat constructor|]. simpl. by rewrite E. Qed.

(** The work left on the line: two units for an operation that did not begin,
    one for the one that runs. *)
Definition workOf (j : Job) : nat := match j with Waiting => 2 | Running => 1 | Settled _ => 0 end.

Definition work (s : LifecycleScope) : nat := sum_list_with workOf (jobs s).

Lemma work_insert l i x y :
  l !! i = Some x → sum_list_with workOf (<[i := y]> l) + workOf x = sum_list_with workOf l + workOf y.
Proof. revert i. induction l as [|z l IH]; intros [|i] H; simplify_eq/=; [lia|]. specialize (IH i H). lia. Qed.

(** While an operation is unsettled the line can move. *)
Lemma line_moves a :
  scope_ok (mutations a) → 0 < work (mutations a) →
  ∃ s, leads a (setMutations s a) ∧ scope_ok s ∧ work s < work (mutations a)
    ∧ drain s = drain (mutations a) ∧ scopeState s = scopeState (mutations a).
Proof.
  intros Hok Hw. destruct (firstUnsettled (jobs (mutations a))) as [i|] eqn:Ef.
  - apply firstUnsettled_Some in Ef as [(j & Hj & Hs) Hbefore].
    destruct j as [| |ok]; [| |done].
    + assert (start i (mutations a) = Some (mkScope (<[i := Running]> (jobs (mutations a))) (drain (mutations a)) (scopeState (mutations a)))) as E.
      { unfold start. rewrite Hj. destruct i as [|i]; [done|]. simpl.
        destruct (lookup_lt_is_Some_2 (jobs (mutations a)) i) as [p Hp]; [apply lookup_lt_Some in Hj; lia|].
        rewrite Hp. by rewrite (Hbefore i p) by (done || lia). }
      eexists. split_and!; [eapply (leads_event (MutationStarts i)); [done|]; simpl; by rewrite E|by eapply start_ok| |done..].
      unfold work. simpl. pose proof (work_insert _ _ _ Running Hj) as Hi. simpl in Hi. lia.
    + assert (settle i true (mutations a) = Some (mkScope (<[i := Settled true]> (jobs (mutations a))) (drain (mutations a)) (scopeState (mutations a)))) as E.
      { unfold settle. by rewrite Hj. }
      eexists. split_and!; [eapply (leads_event (MutationSettles i true)); [done|]; simpl; by rewrite E|by eapply settle_ok| |done..].
      unfold work. simpl. pose proof (work_insert _ _ _ (Settled true) Hj) as Hi. simpl in Hi. lia.
  - apply firstUnsettled_None in Ef. exfalso. unfold work in Hw. induction Ef as [|[| |ok] l Hx Hl IH]; simpl in *; [lia|done|done|auto].
Qed.

Lemma line_settles a :
  scope_ok (mutations a) →
  ∃ s, leads a (setMutations s a) ∧ scope_ok s ∧ work s = 0
    ∧ drain s = drain (mutations a) ∧ scopeState s = scopeState (mutations a).
Proof.
  remember (work (mutations a)) as n eqn:En. revert a En. induction n as [n IH] using lt_wf_ind. intros a -> Hok.
  destruct (decide (work (mutations a) = 0)) as [Hz | Hz].
  - exists (mutations a). split_and!; try done. destruct a. apply leads_refl.
  - destruct (line_moves a Hok) as (s & Hl & Hs & Hlt & Hd & Hst); [lia|].
    destruct (IH (work s) Hlt (setMutations s a) eq_refl Hs) as (s' & Hl' & Hs' & Hz' & Hd' & Hst').
    simpl in Hd', Hst'. exists s'. split_and!; [by eapply leads_trans|done|done|congruence|congruence].
Qed.

Lemma no_work_settled s t : work s = 0 → t ≤ tail s → tailSettled s t = true.
Proof.
  unfold work, tail. intros Hw Ht. destruct t as [|t]; [done|]. simpl.
  destruct (lookup_lt_is_Some_2 (jobs s) t) as [j Hj]; [lia|]. rewrite Hj.
  pose proof (work_insert _ _ _ j Hj) as Hi. assert (workOf j = 0) as Hz; [|by destruct j].
  clear Hi Ht. revert t Hj Hw. induction (jobs s) as [|x l IH]; intros [|t] Hj Hw; simplify_eq/=; [lia|]. eapply (IH t); [done|lia].
Qed.

Lemma tracked_settles a : leads a (setTracked (commands a) [] a).
Proof.
  remember (length (tracked a)) as n eqn:En. revert a En. induction n as [n IH] using lt_wf_ind. intros a ->.
  destruct (tracked a) as [|k l] eqn:Et; [destruct a; simpl in *; subst; apply leads_refl|].
  apply (leads_trans _ (commandSettles k a)).
  - apply (leads_event (CommandSettles k)); [done|]. simpl. rewrite bool_decide_eq_true_2; [done|]. rewrite Et. by left.
  - change (setTracked (commands a) [] a) with (setTracked (commands (commandSettles k a)) [] (commandSettles k a)).
    apply (IH (length (without k (tracked a)))); [|done]. rewrite Et. unfold without. rewrite filter_cons_False by tauto.
    pose proof (length_filter (λ j, j ≠ k) l). simpl. lia.
Qed.

Definition finishes (a : SessionActor) : Prop := ∃ b, leads a b ∧ phase b = Closed.

Lemma finishes_leads a b : leads a b → finishes b → finishes a.
Proof. intros H (c & Hc & Hp). exists c. split; [by eapply leads_trans|done]. Qed.

Lemma await_tracked_finishes a w : closed a = Some (AwaitTracked w) → finishes a.
Proof.
  intros E. apply (finishes_leads _ _ (tracked_settles a)). eexists. split; [apply (leads_event TrackedSettled); [done|]|].
  - cbn [react]. unfold trackedSettled. simpl. rewrite E.
    rewrite (proj2 (forallb_forall _ _)); [done|]. by intros k _.
  - done.
Qed.

Lemma await_dispose_finishes a : closed a = Some AwaitDispose → finishes a.
Proof.
  intros E. eapply (finishes_leads a); [apply (leads_event (Disposed true)); [done|simpl; unfold disposed; by rewrite E]|].
  by eapply await_tracked_finishes.
Qed.

Lemma drained_finishes a : closed a = Some AwaitMutations → scopeState (mutations a) = ScopeClosed → finishes a.
Proof.
  intros E Es. eapply (finishes_leads a); [apply (leads_event MutationsClosed); [done|simpl; unfold mutationsClosed; by rewrite E, Es]|].
  by apply await_dispose_finishes.
Qed.

Lemma await_mutations_finishes a : actor_ok a → closed a = Some AwaitMutations → finishes a.
Proof.
  intros H E. destruct (scopeState (mutations a)) eqn:Es; [..|by apply drained_finishes].
  - pose proof (ok_close a H) as Hc. unfold close_ok in Hc. rewrite E in Hc. destruct Hc as (_ & [t Hd] & _).
    apply (scope_open _ (ok_scope a H)) in Es. congruence.
  - destruct (line_settles a (ok_scope a H)) as (s & Hl & Hs & Hw & Hd & Hst). apply (finishes_leads _ _ Hl).
    pose proof (ok_close a H) as Hc. unfold close_ok in Hc. rewrite E in Hc. destruct Hc as (_ & [t Ht] & _).
    rewrite Ht in Hd. rewrite Es in Hst. apply (finishes_leads _ (setMutations (mkScope (jobs s) (drain s) ScopeClosed) a));
      [|by apply drained_finishes]. apply (leads_event MutationsDrained); [done|]. simpl. unfold drained.
    rewrite Hd, Hst, no_work_settled; [done|done|]. by rewrite (scope_drain s Hs t Hd).
Qed.

(** ** The last client and the timer *)

(** A live session that had clients and lost them all has its timer armed. *)
Definition attended (a : SessionActor) : Prop :=
  phase a = Live → capabilities a ≠ [] → unreleased (capabilities a) = [] → is_Some (idleTimer a).

Lemma attended_same a b :
  phase b = phase a → capabilities b = capabilities a → idleTimer b = idleTimer a → attended a → attended b.
Proof. unfold attended. by intros -> -> ->. Qed.

Lemma armIdle_armed a : idle_ok a → phase a = Live → unreleased (capabilities a) = [] → is_Some (idleTimer (armIdle a)).
Proof.
  intros [Hc _] Hp Hu. unfold armIdle. rewrite Hc, Hu, bool_decide_eq_true_2 by done. simpl.
  destruct (idleTimer a) eqn:E; simpl; [by rewrite E; eexists|by eexists].
Qed.

Lemma armIdle_same a : phase (armIdle a) = phase a ∧ capabilities (armIdle a) = capabilities a.
Proof. unfold armIdle. by case_match. Qed.

Lemma armIdle_attended a : idle_ok a → attended (armIdle a).
Proof.
  intros H Hp _ Hu. destruct (armIdle_same a) as [E1 E2]. rewrite E1 in Hp. rewrite E2 in Hu. by apply armIdle_armed.
Qed.

(** A capability rewritten, not released, leaves the same clients. *)
Lemma unreleased_insert cs c cap ns :
  cs !! c = Some cap → released cap = false → unreleased (<[c := mkCapability (released cap) ns]> cs) ≠ [].
Proof.
  intros H Hr E. pose proof (counts_insert _ _ _ (mkCapability (released cap) ns) H) as Hc.
  rewrite <- !unreleased_length, E in Hc. unfold counts in Hc. simpl in Hc. rewrite Hr in Hc. simpl in Hc.
  assert (cap ∈ unreleased cs) as Hin; [|destruct (unreleased cs); [by apply not_elem_of_nil in Hin|simpl in Hc; lia]].
  unfold unreleased. apply list_elem_of_filter. split; [done|]. by eapply list_elem_of_lookup_2.
Qed.

Lemma released_insert cs c cap ns :
  cs !! c = Some cap → unreleased (<[c := mkCapability (released cap) ns]> cs) = [] → unreleased cs = [].
Proof.
  intros H E. destruct (released cap) eqn:Er.
  - pose proof (counts_insert _ _ _ (mkCapability true ns) H) as Hc. rewrite <- !unreleased_length, E in Hc.
    unfold counts in Hc. simpl in Hc. rewrite Er in Hc. destruct (unreleased cs); [done|simpl in Hc; lia].
  - rewrite <- Er in E. by apply unreleased_insert in E.
Qed.

Lemma insert_nonnil {A} (l : list A) i x : <[i := x]> l ≠ [] → l ≠ [].
Proof. by intros H ->. Qed.

Lemma releaseObservation_attended c n a : attended a → attended (releaseObservation c n a).
Proof.
  intros H. unfold releaseObservation. destruct (capabilities a !! c) as [cap|] eqn:E; [|done].
  destruct (stopAll_caps [n] a) as (Ec & _ & Ep & _ & Et & _). simpl in *. unfold attended. simpl.
  rewrite Ep, Et, Ec. intros Hp Hn%insert_nonnil Hu%(released_insert _ _ _ _ E). by apply H.
Qed.

Lemma release_attended c a : actor_ok a → attended a → attended (release c a).
Proof.
  intros Hok H. unfold release in *. pose proof (release_ok c a Hok) as Hr. unfold release in Hr.
  destruct (capabilities a !! c) as [cap|] eqn:E; [|done]. destruct (released cap) eqn:Erel; [done|].
  set (b := setCapabilities _ _ _) in *. case_match eqn:Ez.
  - apply armIdle_attended. destruct (armIdle_same b) as [E1 E2]. destruct (stopAll_ok (owned cap) a Hok) as [_ [Hcount Ht] _ _].
    destruct (stopAll_caps (owned cap) a) as (Ec & El & Ep & _).
    pose proof (counts_insert _ _ _ (mkCapability true []) E) as Hx. unfold counts in Hx at 2 4. rewrite Erel in Hx. simpl in Hx.
    rewrite unreleased_length, Ec in Hcount. split; simpl.
    + rewrite unreleased_length, Ec. lia.
    + intros [Hz Hp]%Ht. split; [|done]. rewrite El in Hz, Hcount. lia.
  - intros Hp Hn Hu. exfalso. destruct Hr as [_ [Hcount _] _ _]. rewrite Hu in Hcount. simpl in Hcount.
    apply Z.eqb_neq in Ez. done.
Qed.

Lemma react_attended e a b :
  actor_ok a → attended a → react e a = Some b → callsOnIdle e a = false → attended b.
Proof.
  intros Hok H E Hidle. destruct e; cbn [react] in E.
  - unfold commandOp in E. repeat case_match; simplify_eq; by apply (attended_same a).
  - case_match; simplify_eq. by apply (attended_same a).
  - unfold mutateOp in E. repeat case_match; simplify_eq; by apply (attended_same a).
  - apply fmap_Some in E as (s & _ & ->). by apply (attended_same a).
  - apply fmap_Some in E as (s & _ & ->). by apply (attended_same a).
  - simplify_eq. intros _ _ Hu. simpl in Hu. unfold unreleased in Hu. rewrite filter_app in Hu. by apply app_eq_nil in Hu as [_ ?].
  - simplify_eq. unfold observe. destruct (capabilities a !! c) as [cap|] eqn:Ec; [|done].
    destruct (released cap || _) eqn:Er; [done|]. apply orb_false_iff in Er as [Er _].
    intros _ _ Hu. simpl in Hu. rewrite <- Er in Hu. by apply unreleased_insert in Hu.
  - simplify_eq. by apply releaseObservation_attended.
  - simplify_eq. by apply release_attended.
  - simplify_eq. apply armIdle_attended. by destruct Hok.
  - simpl in Hidle. case_match eqn:Et; simplify_eq. unfold idleFires, maybeCollect in *. simpl in *.
    destruct (cancelIdle_ok a Hok) as [_ Hi _ _]. case_match eqn:Ez.
    + simpl. intros Hp Hn Hu. exfalso. simpl in *. destruct Hok as [_ [Hc _] _ _]. rewrite Hp, Hc, Hu in Ez. done.
    + case_match; [by apply armIdle_attended|done].
  - simplify_eq. by apply (attended_same a).
  - apply fmap_Some in E as (s & _ & ->). by apply (attended_same a).
  - unfold mutationsClosed in E. repeat case_match; simplify_eq. by apply (attended_same a).
  - unfold disposed in E. repeat case_match; simplify_eq; by apply (attended_same a).
  - unfold trackedSettled in E. repeat case_match; simplify_eq. by intros ?.
Qed.

(** ** Theorems *)

(** The states of an actor made over a fresh manager. *)
Definition reachable (a : SessionActor) : Prop :=
  ∃ ss m i u, freshManager m ∧ runActor ss (createSessionActor m i u) = Some a.

Lemma reachable_ok a : reachable a → actor_ok a.
Proof. intros (ss & m & i & u & Hm & E). eapply runActor_ok; [|done]. by apply create_ok. Qed.

Lemma disposals_settled a : actor_ok a →
  disposals (manager a) ≤ 1 ∧ (0 < disposals (manager a) → Forall (λ j, jobSettled j = true) (jobs (mutations a))).
Proof.
  intros [_ _ Hc Hs]. unfold close_ok in Hc. pose proof (scope_closed _ Hs) as Hall.
  destruct (closed a) as [[]|]; destruct_and?; split; try lia; by (intros _; apply Hall) || (intros; lia).
Qed.

Definition demoManager : Manager := mkManager ∅ 0 false false true false.

(** A client observes, a command and two mutations are admitted, and the session
    is closed while all three are in flight. *)
Definition demoSteps : list ActorStep :=
  [Event Capture; Event (Observe 0 7); Event (Command (Some 0) false); Event (Mutate (Some 0)); Event (Mutate None);
   Event (MutationStarts 0); Close].

Definition demoEnd : list ActorStep :=
  Event <$> [MutationSettles 0 true; MutationStarts 1; MutationSettles 1 false; MutationsDrained; MutationsClosed;
             Disposed true; CommandSettles 0; TrackedSettled].

Definition demoActor (ss : list ActorStep) : SessionActor :=
  default (createSessionActor demoManager None None) (runActor ss (createSessionActor demoManager None None)).

Lemma demo_reachable ss :
  is_Some (runActor ss (createSessionActor demoManager None None)) → reachable (demoActor ss).
Proof. intros [a E]. exists ss, demoManager, None, None. unfold demoActor. by rewrite E. Qed.

(** Mutations run one at a time in the order of admission: when one has begun,
    all the ones before it have settled. *)
Theorem mutations_in_order a i j x y :
  reachable a → i < j → jobs (mutations a) !! i = Some x → jobs (mutations a) !! j = Some y →
  y ≠ Waiting → jobSettled x = true.
Proof. intros H%reachable_ok Hij Hx Hy Hw. by eapply (scope_order _ (ok_scope a H) i j). Qed.

Lemma mutations_in_order_witness : jobs (mutations (demoActor (demoSteps ++ take 2 demoEnd))) !! 1 = Some Running
  ∧ jobSettled (Settled true) = true.
Proof.
  split; [by vm_compute|]. apply (mutations_in_order (demoActor (demoSteps ++ take 2 demoEnd)) 0 1 _ Running); [|lia|by vm_compute..|done].
  apply demo_reachable. vm_compute. by eexists.
Defined.

(** C25. The runtime is disposed at most once, and only when every mutation that was
    admitted has run to its end; a closed actor has disposed it, every command it
    admitted has settled, and no handle is left on the runtime. *)
Theorem closed_is_drained a :
  reachable a →
  disposals (manager a) ≤ 1 ∧
  (0 < disposals (manager a) → Forall (λ j, jobSettled j = true) (jobs (mutations a))) ∧
  (phase a = Closed →
    disposals (manager a) = 1 ∧ tracked a = [] ∧ connectionHandles (manager a) = ∅ ∧
    Forall (λ o, stopped o = true) (observations a)).
Proof.
  intros H%reachable_ok. destruct (disposals_settled a H) as [H1 H2]. split_and!; [done|done|]. intros Hp.
  destruct H as [[Hlive Hh] _ Hc _]. unfold close_ok in Hc. rewrite Hp in Hc.
  destruct (closed a) as [[]|]; destruct_and?; try done.
  assert (∀ n h, observations a !! n ≠ Some (mkObservation h false)) as Hnone.
  { intros n h Hn. assert (n ∈ liveObservations a) as Hin by (apply Hlive; by exists h).
    replace (liveObservations a) with (@nil nat) in Hin. by apply not_elem_of_nil in Hin. }
  split_and!; [done|done| |].
  - apply set_eq. intros h. split; [|by intros ?%elem_of_empty]. intros [n Hn]%Hh. by destruct (Hnone n h).
  - apply Forall_lookup. intros n [h []] Hn; [done|]. by destruct (Hnone n h).
Qed.

Lemma closed_is_drained_witness :
  length (observations (demoActor (demoSteps ++ demoEnd))) = 1 ∧ connectionHandles (manager (demoActor (demoSteps ++ demoEnd))) = ∅.
Proof.
  split; [by vm_compute|]. apply (closed_is_drained (demoActor (demoSteps ++ demoEnd))); [|by vm_compute].
  apply demo_reachable. vm_compute. by eexists.
Defined.

(** From the turn in which [close] is called nothing is admitted: no later step
    adds a command, a mutation, an observation or a handle. *)
Theorem closing_admits_nothing a b ss :
  reachable a → phase a ≠ Live → runActor ss a = Some b →
  phase b ≠ Live ∧ commands b = commands a ∧ length (jobs (mutations b)) = length (jobs (mutations a)) ∧
  length (observations b) = length (observations a) ∧ connectionHandles (manager b) ⊆ connectionHandles (manager a).
Proof. intros H%reachable_ok Hp E. by destruct (runActor_frozen ss a b H Hp E). Qed.

Lemma closing_admits_nothing_witness :
  commands (demoActor (demoSteps ++ [Event (Command None false)])) = commands (demoActor demoSteps).
Proof.
  apply (closing_admits_nothing (demoActor demoSteps) _ [Event (Command None false)]); [|by vm_compute|by vm_compute].
  apply demo_reachable. vm_compute. by eexists.
Defined.

(** C24. A close never deadlocks: whatever is in flight when it is called, once the
    admitted work ends and the runtime's disposal succeeds the actor is closed. *)
Theorem close_completes a :
  reachable a → closed (closeActor a) ≠ Some CloseRejected →
  ∃ es b, Forall settling es ∧ runActor (Event <$> es) (closeActor a) = Some b ∧ phase b = Closed.
Proof.
  intros H%reachable_ok%closeActor_ok Hr. enough (finishes (closeActor a)) as (b & (es & Hes & E) & Hb) by by exists es, b.
  assert (is_Some (closed (closeActor a))) as [p E].
  { unfold closeActor. destruct (closed a) eqn:E; [by rewrite E; eexists|by eexists]. }
  destruct p.
  - by apply await_mutations_finishes.
  - by apply await_dispose_finishes.
  - by eapply await_tracked_finishes.
  - exists (closeActor a). split; [apply leads_refl|]. pose proof (ok_close _ H) as Hc. unfold close_ok in Hc. rewrite E in Hc. by destruct_and?.
  - congruence.
Qed.

Lemma close_completes_witness :
  phase (demoActor demoSteps) = Closing ∧
  ∃ es b, Forall settling es ∧ runActor (Event <$> es) (closeActor (demoActor demoSteps)) = Some b ∧ phase b = Closed.
Proof.
  split; [by vm_compute|]. apply (close_completes (demoActor demoSteps)); [|by vm_compute].
  apply demo_reachable. vm_compute. by eexists.
Defined.
