(* ===== verification/Streams.v ===== *)
(** * The observation streams of a worker

    [installObservation] and [endObservations] of [host/worker-local.ts], over the
    actor of one activation ([Actor]): the handle that forwards the manager's
    patches to a caller's sink, filtered by what the observation pulled, and the
    terminal frame.  What the sink of an observation receives is a run of
    [Connection.streamStep], which is what [Connection] assumes of a worker. *)

From S2P Require Import Sync.
From S2P Require Import Actor.
From S2P Require Export Connection.

(** ** The state *)

(** One observation: the capability and the actor's observation behind it, its
    demand, whether it was released, and what its sink was handed. *)
Record ObservationState := mkState {
  capabilityOf : nat; observationOf : nat; demand : gset string; stateReleased : bool;
  toSink : list WorkerObservationFrame }.

(** The observations of one activation, in the order of their installation; the
    handle of one is its position.  The source's map holds those not released. *)
Record Watched := mkWatched { actor : SessionActor; states : list ObservationState }.

(** ** The operations *)

(** [deliver] *)
Definition deliverTo (f : WorkerObservationFrame) (s : ObservationState) : ObservationState :=
  if stateReleased s then s
  else mkState (capabilityOf s) (observationOf s) (demand s) (stateReleased s) (toSink s ++ [f]).

(** [onInitialSync] *)
Definition onInitialSync (frame : InitialSyncFrame) (s : ObservationState) : ObservationState :=
  let s := mkState (capabilityOf s) (observationOf s) ∅ (stateReleased s) (toSink s) in
  match frame with
  | Sync.ReplaceFrame session document => deliverTo (ReplaceFrame session document) s
  | Sync.PatchFrame session ops => deliverTo (PatchFrame (Some session) ops) s
  end.

(** [onPatch]; [None]: the filter does not end. *)
Definition onPatch (fuel : nat) (ops : list PatchOp) (s : ObservationState) : option ObservationState :=
  ops' ← filterPatchForSocket fuel ops (demand s);
  Some (match ops' with [] => s | _ => deliverTo (PatchFrame None ops') s end).

(** The new observation, or [None] when [observe] throws; the initial sync is
    delivered inside [observe]. *)
Definition installObservation (frame : InitialSyncFrame) (w : Watched) : option nat * Watched :=
  let h := length (states w) in
  let '(c, a) := capability (actor w) in
  match Actor.observe c h a with
  | (None, a) => (None, mkWatched a (states w))
  | (Some n, a) => (Some h, mkWatched a (states w ++ [onInitialSync frame (mkState c n ∅ false [])]))
  end.

(** [emitPatch] of the manager, to the handles it holds. *)
Fixpoint emitFrom (fuel : nat) (ops : list PatchOp) (handles : gset nat) (h : nat) (l : list ObservationState)
    : option (list ObservationState) :=
  match l with
  | [] => Some []
  | s :: l =>
    s' ← (if bool_decide (h ∈ handles) then onPatch fuel ops s else Some s);
    l' ← emitFrom fuel ops handles (S h) l;
    Some (s' :: l')
  end.

Definition emitPatch (fuel : nat) (ops : list PatchOp) (w : Watched) : option Watched :=
  mkWatched (actor w) <$> emitFrom fuel ops (connectionHandles (manager (actor w))) 0 (states w).

(** The values of a [pull] arrive: path, and whether the entry is live. *)
Definition pulled (i : nat) (values : list (string * bool)) (w : Watched) : Watched :=
  mkWatched (actor w)
    (alter (λ s, mkState (capabilityOf s) (observationOf s)
                   (demand s ∪ list_to_set (map fst (List.filter snd values))) (stateReleased s) (toSink s)) i (states w)).

Definition stateAsReleased (s : ObservationState) : ObservationState :=
  mkState (capabilityOf s) (observationOf s) (demand s) true (toSink s).

(** [release], up to its await; the capability goes in the next turn. *)
Definition releaseStream (i : nat) (w : Watched) : Watched :=
  match states w !! i with
  | Some s =>
    if stateReleased s then w
    else mkWatched (releaseObservation (capabilityOf s) (observationOf s) (actor w)) (alter stateAsReleased i (states w))
  | None => w
  end.

Definition releaseCapability (i : nat) (w : Watched) : Watched :=
  match states w !! i with
  | Some s => mkWatched (Actor.release (capabilityOf s) (actor w)) (states w)
  | None => w
  end.

(** One turn of the loop of [endObservations]. *)
Definition endObservation (projectId stem : string) (i : nat) (w : Watched) : Watched :=
  match states w !! i with
  | Some s =>
    if stateReleased s then w
    else mkWatched (Actor.release (capabilityOf s) (releaseObservation (capabilityOf s) (observationOf s) (actor w)))
           (alter (λ s, stateAsReleased (deliverTo (ClosedFrame projectId stem) s)) i (states w))
  | None => w
  end.

Definition endObservations (projectId stem : string) (w : Watched) : Watched :=
  foldl (λ w i, endObservation projectId stem i w) w (seq 0 (length (states w))).

(** ** Events *)

Inductive StreamEvent :=
| Installs (frame : InitialSyncFrame)
| Emits (ops : list PatchOp)
| Pulled (i : nat) (values : list (string * bool))
| ReleasesStream (i : nat)
| ReleasesCapability (i : nat)
| EndsAll (projectId stem : string)
| ActorSteps (s : ActorStep).

Section events.
  Context (fuel : nat).

Definition streamEvent (e : StreamEvent) (w : Watched) : option Watched :=
  match e with
  | Installs frame => Some (installObservation frame w).2
  | Emits ops => emitPatch fuel ops w
  | Pulled i values => Some (pulled i values w)
  | ReleasesStream i => Some (releaseStream i w)
  | ReleasesCapability i => Some (releaseCapability i w)
  | EndsAll projectId stem => Some (endObservations projectId stem w)
  | ActorSteps s => (λ a, mkWatched a (states w)) <$> actorStep s (actor w)
  end.

Fixpoint runStreams (es : list StreamEvent) (w : Watched) : option Watched :=
  match es with
  | [] => Some w
  | e :: es => streamEvent e w ≫= runStreams es
  end.

(** ** What a sink receives *)

(** The phase a stream is in after frames. *)
Definition followed (fs : list WorkerObservationFrame) : option StreamPhase :=
  foldl (λ p f, p ≫= streamStep f) (Some Unsynced) fs.

(** A live patch holds no lazy content outside a demand. *)
Definition demanded (D : gset string) (f : WorkerObservationFrame) : Prop :=
  match f with
  | PatchFrame None ops =>
    Forall (λ op, isLazyAppend op = true ∨ isLazyFieldPath fuel (filterPath op) = Some true →
                  isSubscribedPath fuel (filterPath op) D = Some true) ops
  | _ => True
  end.

Lemma filter_demanded ops D ops' : filterPatchForSocket fuel ops D = Some ops' → demanded D (PatchFrame None ops').
Proof.
  revert ops'. induction ops as [|op ops IH]; intros ops'; simpl; [intros [= <-]; constructor|].
  intros (r & Hr & (res & Hres & [= <-])%bind_Some)%bind_Some. specialize (IH _ Hres). simpl in IH.
  destruct r as [op'|]; [|done]. apply Forall_cons. split; [|done]. by apply (filterOp_sent _ _ _ _ Hr).
Qed.

Record state_ok (s : ObservationState) : Prop := {
  st_followed : ∃ p, followed (toSink s) = Some p ∧ (stateReleased s = false → p = Synced);
  st_demanded : Forall (demanded (demand s)) (toSink s)
}.

Lemma someAncestor_mono n (t t' : string → bool) p :
  (∀ q, t q = true → t' q = true) → someAncestor n t p = Some true → someAncestor n t' p = Some true.
Proof.
  intros Ht. revert p. induction n as [|n IH]; intros p; simpl; [done|]. destruct (includesSlash p); [|done].
  destruct (t (dropLastSegment p)) eqn:E; [by rewrite (Ht _ E)|]. intros H. destruct (t' _); [done|by apply IH].
Qed.

Lemma isSubscribedPath_mono p (D D' : gset string) :
  D ⊆ D' → isSubscribedPath fuel p D = Some true → isSubscribedPath fuel p D' = Some true.
Proof.
  intros Hsub. unfold isSubscribedPath. destruct (bool_decide (p ∈ D)) eqn:E.
  - apply bool_decide_eq_true in E. intros _. by rewrite bool_decide_eq_true_2 by by apply Hsub.
  - intros H. destruct (bool_decide (p ∈ D')); [done|]. eapply someAncestor_mono; [|exact H]. simpl. intros q.
    rewrite !bool_decide_eq_true. apply Hsub.
Qed.

Lemma demanded_mono D D' f : D ⊆ D' → demanded D f → demanded D' f.
Proof.
  intros Hsub. destruct f as [|[] ops|]; try done. simpl. intros H. eapply Forall_impl; [exact H|]. intros op Hop Hl.
  eapply isSubscribedPath_mono; [done|by apply Hop].
Qed.

Lemma followed_snoc fs f : followed (fs ++ [f]) = followed fs ≫= streamStep f.
Proof. unfold followed. by rewrite foldl_app. Qed.

(** A patch or a terminal frame of an observation that is not released. *)
Lemma deliverTo_ok f s p' :
  state_ok s → (∀ p, p = Synced → streamStep f p = Some p') → demanded (demand s) f →
  (p' = Synced → state_ok (deliverTo f s)) ∧ state_ok (stateAsReleased (deliverTo f s)).
Proof.
  intros [(p & Hp & Hs) Hd] Hf Hdf. unfold deliverTo. destruct (stateReleased s) eqn:Hr.
  { split; [intros _; split; [exists p; by rewrite Hr|done]|]. split; [exists p; split; [done|by intros [=]]|done]. }
  specialize (Hs eq_refl). subst p. specialize (Hf Synced eq_refl).
  assert (followed (toSink s ++ [f]) = Some p') as Hfol by by rewrite followed_snoc, Hp.
  assert (Forall (demanded (demand s)) (toSink s ++ [f])) as Hall by (apply Forall_app; split; [done|by apply Forall_singleton]).
  split; [intros ->|]; (split; [|done]); eexists; (split; [exact Hfol|]); simpl; [done|by intros [=]].
Qed.

Lemma onPatch_ok ops s s' : state_ok s → onPatch fuel ops s = Some s' → state_ok s'.
Proof.
  intros H E. unfold onPatch in E. apply bind_Some in E as (ops' & Hf & E).
  pose proof (filter_demanded ops (demand s) ops' Hf) as Hd.
  destruct ops' as [|op ops']; injection E as <-; [done|].
  destruct (deliverTo_ok (PatchFrame None (op :: ops')) s Synced H) as [Hok _]; [by intros p ->|done|by apply Hok].
Qed.

Lemma install_ok frame c n : state_ok (onInitialSync frame (mkState c n ∅ false [])).
Proof.
  destruct frame; (split; [exists Synced; by split|]); simpl; by apply Forall_singleton.
Qed.

Lemma released_ok s : state_ok s → state_ok (stateAsReleased s).
Proof. intros [(p & Hp & _) Hd]. split; [exists p; by split; [|intros [=]]|done]. Qed.

Lemma pulled_ok D s :
  state_ok s → state_ok (mkState (capabilityOf s) (observationOf s) (demand s ∪ D) (stateReleased s) (toSink s)).
Proof.
  intros [Hp Hd]. split; [done|]. simpl. eapply Forall_impl; [exact Hd|]. intros f. apply demanded_mono. set_solver.
Qed.

(** ** Every event keeps it *)

Definition grows (s s' : ObservationState) : Prop :=
  (state_ok s → state_ok s') ∧ (stateReleased s = true → stateReleased s' = true ∧ toSink s' = toSink s).

Record evolves (l l' : list ObservationState) : Prop := {
  ev_old : ∀ i s, l !! i = Some s → ∃ s', l' !! i = Some s' ∧ grows s s';
  ev_new : ∀ i s', l' !! i = Some s' → l !! i = None → state_ok s'
}.

Lemma grows_refl s : grows s s.
Proof. by split. Qed.

Lemma evolves_refl l : evolves l l.
Proof. split; [|congruence]. intros i s E. exists s. split; [done|apply grows_refl]. Qed.

Lemma evolves_trans l1 l2 l3 : evolves l1 l2 → evolves l2 l3 → evolves l1 l3.
Proof.
  intros [O1 N1] [O2 N2]. split.
  - intros i s1 E1. destruct (O1 i s1 E1) as (s2 & E2 & H1 & H1'), (O2 i s2 E2) as (s3 & E3 & H2 & H2').
    exists s3. split; [done|]. split; [auto|]. intros Hr. destruct (H1' Hr) as [Hr2 Hs2], (H2' Hr2). split; [done|congruence].
  - intros i s3 E3 E1. destruct (l2 !! i) as [s2|] eqn:E2; [|by eapply N2].
    destruct (O2 i s2 E2) as (s3' & E3' & H & _). simplify_eq. by eapply H, N1.
Qed.

Lemma evolves_alter f (i : nat) l : (∀ s, l !! i = Some s → grows s (f s)) → evolves l (alter f i l).
Proof.
  intros Hf. split.
  - intros k s E. destruct (decide (k = i)) as [-> | Hne].
    + exists (f s). rewrite list_lookup_alter_eq, E. split; [done|by apply Hf].
    + exists s. rewrite list_lookup_alter_ne by done. split; [done|apply grows_refl].
  - intros k s' E En. apply lookup_lt_Some in E. rewrite length_alter in E. apply lookup_ge_None in En. lia.
Qed.

Lemma evolves_emit ops handles h l l' : emitFrom fuel ops handles h l = Some l' → evolves l l'.
Proof.
  revert h l'. induction l as [|s l IH]; intros h l'; simpl; [intros [= <-]; apply evolves_refl|].
  intros (s' & Hs & (r & Hr & [= <-])%bind_Some)%bind_Some. destruct (IH _ _ Hr) as [O N].
  assert (grows s s') as Hg.
  { destruct (bool_decide _); [|by injection Hs as <-; apply grows_refl]. split; [intros H; by eapply onPatch_ok|].
    intros Hrel. unfold onPatch in Hs. apply bind_Some in Hs as (ops' & _ & Hs). unfold deliverTo in Hs. rewrite Hrel in Hs.
    destruct ops'; by simplify_eq. }
  split; intros [|i] x E; simplify_eq/=; [by exists s'|by apply O| |by eapply N]. done.
Qed.

Lemma installObservation_evolves frame w : evolves (states w) (states (installObservation frame w).2).
Proof.
  unfold installObservation. destruct (capability (actor w)) as [c a], (Actor.observe c _ a) as [[n|] a']; [|apply evolves_refl].
  split.
  - intros i s E. exists s. split; [by apply lookup_app_l_Some|apply grows_refl].
  - intros i s [[_ E] | [_ <-]]%lookup_snoc_Some En; [congruence|apply install_ok].
Qed.

Lemma endObservation_evolves projectId stem i w : evolves (states w) (states (endObservation projectId stem i w)).
Proof.
  unfold endObservation. destruct (states w !! i) as [s|] eqn:E; [|apply evolves_refl].
  destruct (stateReleased s) eqn:Hr; [apply evolves_refl|]. apply evolves_alter. intros s' E'. simplify_eq. split; [|congruence].
  intros H. destruct (deliverTo_ok (ClosedFrame projectId stem) s Ended H) as [_ Hok]; [by intros p ->|done|exact Hok].
Qed.

Lemma endObservations_evolves projectId stem w : evolves (states w) (states (endObservations projectId stem w)).
Proof.
  unfold endObservations. generalize (seq 0 (length (states w))). intros is_. revert w.
  induction is_ as [|i is_ IH]; intros w; [apply evolves_refl|]. eapply evolves_trans; [apply endObservation_evolves|apply IH].
Qed.

Lemma streamEvent_evolves e w w' : streamEvent e w = Some w' → evolves (states w) (states w').
Proof.
  intros E. destruct e; simpl in E.
  - injection E as <-. apply installObservation_evolves.
  - apply fmap_Some in E as (l & E & ->). by eapply evolves_emit.
  - injection E as <-. apply evolves_alter. intros s _. split; [apply pulled_ok|done].
  - injection E as <-. unfold releaseStream. destruct (states w !! i) as [s|] eqn:E; [|apply evolves_refl].
    destruct (stateReleased s) eqn:Hr; [apply evolves_refl|]. apply evolves_alter. intros s' _. split; [apply released_ok|done].
  - injection E as <-. unfold releaseCapability. destruct (states w !! i); apply evolves_refl.
  - injection E as <-. apply endObservations_evolves.
  - apply fmap_Some in E as (a & _ & ->). apply evolves_refl.
Qed.

Lemma runStreams_evolves es w w' : runStreams es w = Some w' → evolves (states w) (states w').
Proof.
  revert w. induction es as [|e es IH]; intros w; simpl; [intros [= <-]; apply evolves_refl|].
  intros (w1 & E & Hrun)%bind_Some. eapply evolves_trans; [by eapply streamEvent_evolves|by apply IH].
Qed.

(** The terminal frame of an activation reaches every observation that is left. *)
Lemma endObservation_at projectId stem i k w s :
  states w !! k = Some s →
  states (endObservation projectId stem i w) !! k =
    Some (if decide (k = i) then if stateReleased s then s else stateAsReleased (deliverTo (ClosedFrame projectId stem) s) else s).
Proof.
  intros E. unfold endObservation. destruct (decide (k = i)) as [-> | Hne].
  - rewrite E. destruct (stateReleased s); [done|]. simpl. by rewrite list_lookup_alter_eq, E.
  - destruct (states w !! i) as [x|]; [|done]. destruct (stateReleased x); [done|]. simpl. by rewrite list_lookup_alter_ne.
Qed.

Lemma endObservations_at projectId stem k w s :
  states w !! k = Some s → stateReleased s = false →
  states (endObservations projectId stem w) !! k = Some (stateAsReleased (deliverTo (ClosedFrame projectId stem) s)).
Proof.
  intros E Hr. unfold endObservations.
  assert (Hgen : ∀ is_ w s, states w !! k = Some s →
    states (foldl (λ w i, endObservation projectId stem i w) w is_) !! k =
      Some (if decide (k ∈ is_) then if stateReleased s then s else stateAsReleased (deliverTo (ClosedFrame projectId stem) s) else s)).
  { clear. induction is_ as [|i is_ IH]; intros w s E; [done|]. simpl.
    rewrite (IH _ _ (endObservation_at projectId stem i k w s E)). f_equal.
    destruct (decide (k = i)) as [-> | Hne].
    - rewrite (decide_True (P := i ∈ i :: is_)) by left. destruct (stateReleased s) eqn:Hr; [rewrite Hr|]; by destruct (decide (i ∈ is_)).
    - destruct (decide (k ∈ is_)) as [Hin | Hnin]; [by rewrite decide_True by by right|].
      by rewrite decide_False by (by intros [-> | ?]%elem_of_cons). }
  rewrite (Hgen _ w s E), decide_True, Hr; [done|]. apply elem_of_seq. apply lookup_lt_Some in E. lia.
Qed.

Lemma followed_none l : foldl (λ p f, p ≫= streamStep f) None l = None.
Proof. by induction l. Qed.

Lemma followed_prefix l l' p : followed (l ++ l') = Some p → is_Some (followed l).
Proof.
  unfold followed. rewrite foldl_app. destruct (foldl _ (Some Unsynced) l) as [q|]; [by exists q|]. by rewrite followed_none.
Qed.

Lemma runStreams_ok es a w i s : runStreams es (mkWatched a []) = Some w → states w !! i = Some s → state_ok s.
Proof. intros H%runStreams_evolves E. by apply (ev_new _ _ H i s E). Qed.

(** ** Properties *)

(** C15. The worker keeps the order a connection relies on: whatever the manager
    emits and the callers pull, release and close, the frames handed to a sink are
    one initial sync, then live patches, then at most one terminal frame, and none
    after a release; each is one the model of the connection delivers to a stream
    that received the frames before it. *)
Theorem worker_keeps_stream_order es a w i s :
  runStreams es (mkWatched a []) = Some w → states w !! i = Some s →
  (∃ p, followed (toSink s) = Some p ∧ (stateReleased s = false → p = Synced)) ∧
  (∀ es' w', stateReleased s = true → runStreams es' w = Some w' → ∃ s', states w' !! i = Some s' ∧ toSink s' = toSink s) ∧
  ∀ n f c o st, toSink s !! n = Some f → streams c !! o = Some st → Connection.released st = false →
    followed (take n (toSink s)) = Some (streamPhase st) → is_Some (deliver o f c).
Proof.
  intros Hrun E. destruct (runStreams_ok es a w i s Hrun E) as [(p & Hp & Hs) _]. split_and!; [by exists p| |].
  - intros es' w' Hr H%runStreams_evolves. destruct (ev_old _ _ H i s E) as (s' & E' & _ & Hf). exists s'. split; [done|by apply Hf].
  - intros n f c o st Hf Est Hrel Hn. unfold deliver. rewrite Est. simpl. rewrite Hrel.
    rewrite <- (take_drop (S n) (toSink s)) in Hp. apply followed_prefix in Hp as [p' Hp'].
    rewrite (take_S_r _ _ f Hf), followed_snoc, Hn in Hp'. simpl in Hp'. rewrite Hp'. by eexists.
Qed.

End events.

(** ** Runs *)

Definition demoManager : Manager := mkManager ∅ 0 false false true false.
Definition demoActor : SessionActor := createSessionActor demoManager None None.
Definition demoText (t : string) (lazy : bool) : PatchOp := AppendOp "/entries/m/content/0/text" t lazy.

(** Two observations of one session: the first pulls a live text, the second does
    not; the first is released, the session closes. *)
Definition demoEvents : list StreamEvent :=
  [Installs (Sync.ReplaceFrame (JStr "session") (JStr "document")); Installs (Sync.ReplaceFrame (JStr "session") (JStr "document"));
   Emits [demoText "a" true]; Pulled 0 [("/entries/m/content/0/text", true)]; Emits [demoText "b" true; demoText "c" false];
   ReleasesStream 0; ReleasesCapability 0; Emits [demoText "d" false]; EndsAll "p" "s"].
Definition demoWatched : Watched := default (mkWatched demoActor []) (runStreams 9 demoEvents (mkWatched demoActor [])).

Definition demoFirst : ObservationState :=
  mkState 0 0 {["/entries/m/content/0/text"]} true
    [ReplaceFrame (JStr "session") (JStr "document"); PatchFrame None [demoText "b" true; demoText "c" false]].

Lemma worker_keeps_stream_order_witness :
  states demoWatched !! 0 = Some demoFirst ∧ followed (toSink demoFirst) = Some Synced ∧
  is_Some (deliver 1 (PatchFrame None [demoText "b" true; demoText "c" false])
             (setStreams [mkStream 0 1 Synced false; mkStream 1 2 Synced false] createConnection)).
Proof.
  split_and!; [by vm_compute|by vm_compute|].
  destruct (worker_keeps_stream_order 9 demoEvents demoActor demoWatched 0 demoFirst) as (_ & _ & H); [by vm_compute..|].
  apply (H 1 _ _ 1 (mkStream 1 2 Synced false)); by vm_compute.
Defined.

