(* ===== verification/Registry.v ===== *)
(** * The activation registry

    [host/activation-registry.ts], and the session verbs of
    [host/worker-local.ts] that drive it: which session is addressed, being
    created, live or being collected.  Creations, opens, closes, collections and
    the shutdown are asynchronous functions of the source: each has a program
    point per [await], and an interleaving is a sequence of [step]s, each of
    which runs one of them up to its next [await].  Any order of resumption is
    allowed, so what is proved holds for the order of the event loop.

    Promises and records, compared by identity in the source, are positions in
    the lists of all that were made. *)

From S2P Require Export Actor.

(** ** What the registry asks of an actor *)

Class ActorSpec (A : Type) := {
  actorEvent : Type;
  actorManager : Type;
  actorCreate : actorManager → A;
  actorReact : actorEvent → A → option A;
  actorClose : A → A;
  actorPhase : A → ActorPhase;
  actorRejected : A → bool;         (* [close] rejected *)
  actorIdle : actorEvent → A → bool; (* the event calls [onIdle] *)
  actorWf : A → Prop;
  actorAttended : A → Prop;
  managerFresh : actorManager → Prop;
  create_spec : ∀ m, managerFresh m → actorWf (actorCreate m) ∧ actorPhase (actorCreate m) = Live ∧ actorAttended (actorCreate m);
  react_wf : ∀ e a b, actorWf a → actorReact e a = Some b → actorWf b;
  close_wf : ∀ a, actorWf a → actorWf (actorClose a);
  react_live : ∀ e a b, actorWf a → actorReact e a = Some b → actorPhase b = Live ↔ actorPhase a = Live;
  react_closed : ∀ e a b, actorReact e a = Some b → actorPhase a = Closed → actorPhase b = Closed;
  react_rejected : ∀ e a b, actorReact e a = Some b → actorRejected a = true → actorRejected b = true;
  react_attended : ∀ e a b, actorWf a → actorAttended a → actorReact e a = Some b → actorIdle e a = false → actorAttended b;
  ended_attended : ∀ a, actorPhase a ≠ Live → actorAttended a;
  idle_live : ∀ e a b, actorWf a → actorReact e a = Some b → actorIdle e a = true → actorPhase b = Live;
  close_live : ∀ a, actorWf a → actorPhase a = Live → actorPhase (actorClose a) = Closing ∧ actorRejected (actorClose a) = false;
  close_ended : ∀ a, actorWf a → actorPhase a ≠ Live → actorClose a = a;
  rejected_not_live : ∀ a, actorWf a → actorRejected a = true → actorPhase a = Closing
}.

(** The address key of a project and a stem. *)
Definition addressKey (projectId stem : string) : string := projectId +:+ String "000" stem.

Record SessionRef := mkSessionRef { projectId : string; sessionId : string; stem : string }.

Definition refKey (r : SessionRef) : string := addressKey (projectId r) (stem r).

(** ** The state *)

(** The promise in [record.collecting]: awaiting the actor's close, its body
    ended or threw and the [finally] is to run. *)
Inductive Collection := Disposing | Cleaned | Broken.

(** A creation: the per-address [create] or a [runCreation] operation. *)
Inductive CreationPoint :=
  | CreatingManager                 (* awaits the factory *)
  | Refusing                        (* awaits [manager.dispose()], then throws *)
  | Choosing (rid : nat)            (* a fresh session: the choices before the observation *)
  | Abandoning (rid : nat)          (* they failed: awaits [collect] *)
  | Created (rid : nat)
  | CreationFailed.

Record Creation := mkCreation { fresh : bool; creationProject : string; creationStem : string; creationPoint : CreationPoint }.

Definition creationKey (c : Creation) : string := addressKey (creationProject c) (creationStem c).

Definition creationSettled (c : Creation) : bool :=
  match creationPoint c with Created _ | CreationFailed => true | _ => false end.

(** The manager of a creation exists, or is being built, and no record owns it. *)
Definition inFlight (c : Creation) : bool :=
  match creationPoint c with CreatingManager | Refusing => true | _ => false end.

(** A call of [open], inside [reserve] or between its calls. *)
Inductive OpenPoint :=
  | WaitCollected (rid : nat)       (* [await record.collecting] *)
  | WaitPending (cid : nat)         (* joins the creation of another open *)
  | WaitCreate (cid : nat)          (* its own creation, forgotten when it settles *)
  | Reserved (rid : nat)
  | Opened (rid : nat)
  | OpenFailed.

Record OpenCall := mkOpenCall { openProject : string; openStem : string; openPoint : OpenPoint }.

(** A call of [closeSession] or [archiveSession]. *)
Inductive ClosePoint :=
  | WaitSettled (cid : nat)         (* [awaitSettled] *)
  | Found (record : option nat)
  | WaitCollect (rid : nat)
  | CloseReplied (rid : option nat)
  | CloseThrew.

Record CloseCall := mkCloseCall { archives : bool; closeProject : string; closeStem : string; closePoint : ClosePoint }.

(** The drain of the shutdown. *)
Inductive Drain :=
  | AwaitSettled (rids cids closing : list nat)
  | ClosingRecord (rid : nat) (rest : list nat)
  | Drained
  | DrainThrew.

(** One registration of a worker, and a session a caller may command. *)
Record WorkerRegistration := mkWorkerRegistration { workerId : string; incarnation : string; workerGeneration : nat }.
Record SessionTarget := mkSessionTarget {
  targetProject : string; targetStem : string; targetSession : string; worker : WorkerRegistration; activation : nat }.

Section Registry.

Context {A : Type} `{Spec : ActorSpec A}.

Record Activation := mkActivation {
  ref : SessionRef; generation : nat; actor : A; collecting : option Collection }.

Record Registry := mkRegistry {
  activations : list Activation;                    (* every record made, by identity *)
  records : list nat;                               (* those in the map, oldest first *)
  byAddress : gmap string nat;
  pending : gmap string nat;
  sessionOwnerById : gmap string (nat * (string * string));
  generations : nat;
  promises : list Creation;                         (* every creation begun *)
  creations : list nat;                             (* the tracked [runCreation]s *)
  openCalls : list OpenCall;
  closeCalls : list CloseCall;
  disposed : bool;
  disposeDrain : option Drain;
  files : gset string                               (* the addresses that have a session file *)
}.

Definition emptyRegistry (fs : gset string) : Registry :=
  mkRegistry [] [] ∅ ∅ ∅ 0 [] [] [] [] false None fs.

(** *** Assignments *)

Definition setActivations (l : list Activation) (s : Registry) : Registry :=
  mkRegistry l (records s) (byAddress s) (pending s) (sessionOwnerById s) (generations s) (promises s) (creations s)
    (openCalls s) (closeCalls s) (disposed s) (disposeDrain s) (files s).
Definition setIndexes (rs : list nat) (b : gmap string nat) (o : gmap string (nat * (string * string))) (s : Registry) : Registry :=
  mkRegistry (activations s) rs b (pending s) o (generations s) (promises s) (creations s)
    (openCalls s) (closeCalls s) (disposed s) (disposeDrain s) (files s).
Definition setPending (p : gmap string nat) (s : Registry) : Registry :=
  mkRegistry (activations s) (records s) (byAddress s) p (sessionOwnerById s) (generations s) (promises s) (creations s)
    (openCalls s) (closeCalls s) (disposed s) (disposeDrain s) (files s).
Definition setGenerations (n : nat) (s : Registry) : Registry :=
  mkRegistry (activations s) (records s) (byAddress s) (pending s) (sessionOwnerById s) n (promises s) (creations s)
    (openCalls s) (closeCalls s) (disposed s) (disposeDrain s) (files s).
Definition setPromises (l : list Creation) (s : Registry) : Registry :=
  mkRegistry (activations s) (records s) (byAddress s) (pending s) (sessionOwnerById s) (generations s) l (creations s)
    (openCalls s) (closeCalls s) (disposed s) (disposeDrain s) (files s).
Definition setCreations (l : list nat) (s : Registry) : Registry :=
  mkRegistry (activations s) (records s) (byAddress s) (pending s) (sessionOwnerById s) (generations s) (promises s) l
    (openCalls s) (closeCalls s) (disposed s) (disposeDrain s) (files s).
Definition setOpenCalls (l : list OpenCall) (s : Registry) : Registry :=
  mkRegistry (activations s) (records s) (byAddress s) (pending s) (sessionOwnerById s) (generations s) (promises s) (creations s)
    l (closeCalls s) (disposed s) (disposeDrain s) (files s).
Definition setCloseCalls (l : list CloseCall) (s : Registry) : Registry :=
  mkRegistry (activations s) (records s) (byAddress s) (pending s) (sessionOwnerById s) (generations s) (promises s) (creations s)
    (openCalls s) l (disposed s) (disposeDrain s) (files s).
Definition setDrain (d : bool) (dr : option Drain) (s : Registry) : Registry :=
  mkRegistry (activations s) (records s) (byAddress s) (pending s) (sessionOwnerById s) (generations s) (promises s) (creations s)
    (openCalls s) (closeCalls s) d dr (files s).
Definition setFiles (fs : gset string) (s : Registry) : Registry :=
  mkRegistry (activations s) (records s) (byAddress s) (pending s) (sessionOwnerById s) (generations s) (promises s) (creations s)
    (openCalls s) (closeCalls s) (disposed s) (disposeDrain s) fs.

Definition setActor (a : A) (r : Activation) : Activation := mkActivation (ref r) (generation r) a (collecting r).
Definition setCollecting (c : option Collection) (r : Activation) : Activation :=
  mkActivation (ref r) (generation r) (actor r) c.
Definition setActivation (rid : nat) (r : Activation) (s : Registry) : Registry :=
  setActivations (<[rid := r]> (activations s)) s.
Definition setPoint (cid : nat) (p : CreationPoint) (s : Registry) : Registry :=
  setPromises (alter (λ c, mkCreation (fresh c) (creationProject c) (creationStem c) p) cid (promises s)) s.

Definition key (r : Activation) : string := refKey (ref r).
Definition isLive (r : Activation) : bool := bool_decide (actorPhase (actor r) = Live).

(** ** Queries *)

(** [records.get(byAddress.get(key))] *)
Definition recordAt (k : string) (s : Registry) : option nat :=
  rid ← byAddress s !! k; if decide (rid ∈ records s) then Some rid else None.

Definition byAddressAny (p st : string) (s : Registry) : option nat := recordAt (addressKey p st) s.

Definition byAddressLive (p st : string) (s : Registry) : option nat :=
  rid ← byAddressAny p st s; r ← activations s !! rid; if isLive r then Some rid else None.

(** ** Creation *)

(** [register], once the manager is built; the second component is where the
    caller stands afterwards. *)
Definition register (m : actorManager) (rf : SessionRef) (s : Registry) : Registry * (nat + CreationPoint) :=
  if disposed s then (s, inr Refusing)
  else
    let rid := length (activations s) in
    let s := setGenerations (S (generations s)) s in
    let s := setActivations (activations s ++ [mkActivation rf (generations s) (actorCreate m) None]) s in
    (setIndexes (records s ++ [rid]) (<[refKey rf := rid]> (byAddress s))
       (<[sessionId rf := (rid, (projectId rf, stem rf))]> (sessionOwnerById s)) s, inl rid).

(** [create] up to the factory's await. *)
Definition create (p st : string) (s : Registry) : nat * Registry :=
  (length (promises s),
   setPromises (promises s ++ [mkCreation false p st
     (if decide (addressKey p st ∈ files s) then CreatingManager else CreationFailed)]) s).

(** One turn of the loop of [reserve]. *)
Definition reserveTurn (p st : string) (s : Registry) : OpenPoint * Registry :=
  let k := addressKey p st in
  let create_ := match pending s !! k with
                 | Some cid => (WaitPending cid, s)
                 | None => let '(cid, s) := create p st s in (WaitCreate cid, setPending (<[k := cid]> (pending s)) s)
                 end in
  if disposed s then (OpenFailed, s)
  else match rid ← recordAt k s; r ← activations s !! rid; Some (rid, r) with
       | Some (rid, r) =>
         if isLive r then (Reserved rid, s)
         else match collecting r with Some _ => (WaitCollected rid, s) | None => create_ end
       | None => create_
       end.

(** ** Collection *)

(** [collect] up to its await; [false] when it returns at once. *)
Definition collect (rid : nat) (s : Registry) : bool * Registry :=
  match activations s !! rid with
  | Some r =>
    match collecting r with
    | Some _ => (true, s)
    | None =>
      if disposed s then (false, s)
      else if negb (isLive r) then (false, s)
      else (true, setActivation rid (mkActivation (ref r) (generation r) (actorClose (actor r)) (Some Disposing)) s)
    end
  | None => (false, s)
  end.

(** [disposeRecord] after the actor's close resolved, or threw. *)
Definition disposeRecord (rid : nat) (s : Registry) : option Registry :=
  r ← activations s !! rid;
  match collecting r with
  | Some Disposing =>
    if decide (actorPhase (actor r) = Closed) then
      let rs := without rid (records s) in
      let b := if decide (byAddress s !! key r = Some rid) then delete (key r) (byAddress s) else byAddress s in
      let o := match sessionOwnerById s !! sessionId (ref r) with
               | Some (owner, _) => if decide (owner = rid) then delete (sessionId (ref r)) (sessionOwnerById s) else sessionOwnerById s
               | None => sessionOwnerById s
               end in
      Some (setActivation rid (setCollecting (Some Cleaned) r) (setIndexes rs b o s))
    else if actorRejected (actor r) then Some (setActivation rid (setCollecting (Some Broken) r) s)
    else None
  | _ => None
  end.

(** The [finally] of [collect]. *)
Definition collected (rid : nat) (s : Registry) : option Registry :=
  r ← activations s !! rid;
  match collecting r with
  | Some Cleaned | Some Broken => Some (setActivation rid (setCollecting None r) s)
  | _ => None
  end.

(** An event of an actor; when it calls [onIdle] the record is collected. *)
Definition actorStepAt (rid : nat) (e : actorEvent) (s : Registry) : option Registry :=
  r ← activations s !! rid;
  a ← actorReact e (actor r);
  let s' := setActivation rid (setActor a r) s in
  Some (if actorIdle e (actor r) then (collect rid s').2 else s').

(** ** The steps of a creation *)

(** The factory resolves with the manager of a session, or rejects. *)
Definition managerCreated (cid : nat) (result : option (string * actorManager)) (s : Registry) : option Registry :=
  c ← promises s !! cid;
  match creationPoint c with
  | CreatingManager =>
    if fresh c then None
    else match result with
         | None => Some (setPoint cid CreationFailed s)
         | Some (sid, m) =>
           let taken := match sessionOwnerById s !! sid with
                        | Some (_, (p, st)) => negb (bool_decide (p = creationProject c)) || negb (bool_decide (st = creationStem c))
                        | None => false
                        end in
           if taken then Some (setPoint cid Refusing s)
           else match register m (mkSessionRef (creationProject c) sid (creationStem c)) s with
                | (s', inl rid) => Some (setPoint cid (Created rid) s')
                | (s', inr p) => Some (setPoint cid p s')
                end
         end
  | _ => None
  end.

(** [runCreation] of [createSession], up to the factory's await. *)
Definition startCreation (p : string) (s : Registry) : Registry :=
  let cid := length (promises s) in
  setCreations (creations s ++ [cid]) (setPromises (promises s ++ [mkCreation true p "" CreatingManager]) s).

(** What the environment promises of a new session: its address and its id are
    new, so no creation is in flight for the one and no record claims the other. *)
Definition allocated (p st sid : string) (s : Registry) : bool :=
  forallb (λ c, negb (inFlight c && negb (fresh c) && bool_decide (creationKey c = addressKey p st))) (promises s)
  && bool_decide (sessionOwnerById s !! sid = None).

(** The factory of a fresh session resolves with its manager, whose file names
    the stem; [None] when it rejects.  [badStem]: the path is outside. *)
Definition freshCreated (cid : nat) (result : option (string * string * actorManager)) (badStem : bool) (s : Registry) : option Registry :=
  c ← promises s !! cid;
  match creationPoint c with
  | CreatingManager =>
    if negb (fresh c) then None
    else match result with
         | None => Some (setPoint cid CreationFailed s)
         | Some (st, sid, m) =>
           if badStem then Some (setPoint cid Refusing s)
           else match byAddressAny (creationProject c) st s with
                | Some _ => Some (setPoint cid Refusing s)
                | None =>
                  if allocated (creationProject c) st sid s
                  then match register m (mkSessionRef (creationProject c) sid st) s with
                       | (s', inl rid) => Some (setPoint cid (Choosing rid) s')
                       | (s', inr p) => Some (setPoint cid p s')
                       end
                  else None
                end
         end
  | _ => None
  end.

(** [await manager.dispose()] resumes and the creation throws. *)
Definition managerGone (cid : nat) (s : Registry) : option Registry :=
  c ← promises s !! cid;
  match creationPoint c with Refusing => Some (setPoint cid CreationFailed s) | _ => None end.

(** The choices before the observation succeed, or fail and the record is collected. *)
Definition choicesEnd (cid : nat) (ok : bool) (s : Registry) : option Registry :=
  c ← promises s !! cid;
  match creationPoint c with
  | Choosing rid =>
    if ok then Some (setPoint cid (Created rid) s)
    else let '(waits, s) := collect rid s in
         Some (setPoint cid (if waits then Abandoning rid else CreationFailed) s)
  | _ => None
  end.

(** Whether the promise in [record.collecting] has settled. *)
Definition collectionSettled (rid : nat) (s : Registry) : bool :=
  match activations s !! rid with Some r => bool_decide (collecting r = None) | None => false end.

Definition abandonEnd (cid : nat) (s : Registry) : option Registry :=
  c ← promises s !! cid;
  match creationPoint c with
  | Abandoning rid => if collectionSettled rid s then Some (setPoint cid CreationFailed s) else None
  | _ => None
  end.

(** The [finally] of [runCreation]. *)
Definition forgetCreation (cid : nat) (s : Registry) : option Registry :=
  c ← promises s !! cid;
  if fresh c && creationSettled c then Some (setCreations (without cid (creations s)) s) else None.

(** ** The steps of an open *)

(** The value of a settled creation. *)
Definition creationResult (cid : nat) (s : Registry) : option OpenPoint :=
  c ← promises s !! cid;
  match creationPoint c with
  | Created rid => Some (Reserved rid)
  | CreationFailed => Some OpenFailed
  | _ => None
  end.

Definition setOpenPoint (i : nat) (p : OpenPoint) (s : Registry) : Registry :=
  setOpenCalls (alter (λ o, mkOpenCall (openProject o) (openStem o) p) i (openCalls s)) s.

Definition startOpen (p st : string) (s : Registry) : Registry :=
  let '(point, s) := reserveTurn p st s in
  setOpenCalls (openCalls s ++ [mkOpenCall p st point]) s.

(** Another turn of [reserve] for the open [i]. *)
Definition reserveAgain (i : nat) (o : OpenCall) (s : Registry) : Registry :=
  let '(point, s) := reserveTurn (openProject o) (openStem o) s in setOpenPoint i point s.

Definition resumeOpen (i : nat) (s : Registry) : option Registry :=
  o ← openCalls s !! i;
  match openPoint o with
  | WaitCollected rid =>
    r ← activations s !! rid;
    match collecting r with
    | Some _ => None
    | None => Some (if actorRejected (actor r) then setOpenPoint i OpenFailed s else reserveAgain i o s)
    end
  | WaitPending cid => p ← creationResult cid s; Some (setOpenPoint i p s)
  | WaitCreate cid =>
    p ← creationResult cid s;
    Some (setOpenPoint i p (setPending (delete (addressKey (openProject o) (openStem o)) (pending s)) s))
  | Reserved rid =>
    r ← activations s !! rid;
    Some (if isLive r then setOpenPoint i (Opened rid) s else reserveAgain i o s)
  | Opened _ | OpenFailed => None
  end.

(** ** The steps of a close *)

Definition setClosePoint (i : nat) (p : ClosePoint) (s : Registry) : Registry :=
  setCloseCalls (alter (λ c, mkCloseCall (archives c) (closeProject c) (closeStem c) p) i (closeCalls s)) s.

(** One turn of the loop of [awaitSettled]. *)
Definition awaitSettled (p st : string) (s : Registry) : ClosePoint :=
  match pending s !! addressKey p st with
  | Some cid => WaitSettled cid
  | None => Found (byAddressAny p st s)
  end.

Definition startClose (archive : bool) (p st : string) (s : Registry) : Registry :=
  setCloseCalls (closeCalls s ++ [mkCloseCall archive p st (awaitSettled p st s)]) s.

(** What follows the collection: the reply, and before it the move of the file. *)
Definition replyClose (i : nat) (c : CloseCall) (rid : option nat) (s : Registry) : Registry :=
  if archives c then
    let k := addressKey (closeProject c) (closeStem c) in
    if decide (k ∈ files s) then setClosePoint i (CloseReplied rid) (setFiles (files s ∖ {[k]}) s)
    else setClosePoint i CloseThrew s
  else setClosePoint i (CloseReplied rid) s.

Definition collectFor (i : nat) (c : CloseCall) (rid : nat) (s : Registry) : Registry :=
  let '(waits, s) := collect rid s in
  if waits then setClosePoint i (WaitCollect rid) s else replyClose i c (Some rid) s.

Definition resumeClose (i : nat) (s : Registry) : option Registry :=
  c ← closeCalls s !! i;
  match closePoint c with
  | WaitSettled cid =>
    pr ← promises s !! cid;
    if creationSettled pr then Some (setClosePoint i (awaitSettled (closeProject c) (closeStem c) s) s) else None
  | Found None => Some (if archives c then replyClose i c None s else setClosePoint i CloseThrew s)
  | Found (Some rid) =>
    r ← activations s !! rid;
    if negb (archives c) && (negb (isLive r) || bool_decide (is_Some (collecting r)))
    then Some (setClosePoint i CloseThrew s)
    else Some (collectFor i c rid s)
  | WaitCollect rid =>
    r ← activations s !! rid;
    match collecting r with
    | Some _ => None
    | None => Some (if actorRejected (actor r) then setClosePoint i CloseThrew s else replyClose i c (Some rid) s)
    end
  | CloseReplied _ | CloseThrew => None
  end.

(** ** The shutdown *)

Definition hasCollection (s : Registry) (rid : nat) : bool :=
  match activations s !! rid with Some r => bool_decide (is_Some (collecting r)) | None => false end.

(** [dispose] up to its first await. *)
Definition dispose (s : Registry) : Registry :=
  match disposeDrain s with
  | Some _ => s
  | None =>
    let closing := filter (λ rid, hasCollection s rid = false) (records s) in
    let rids := filter (λ rid, hasCollection s rid = true) (records s) in
    let cids := (map_to_list (pending s)).*2 ++ creations s in
    setDrain true (Some (AwaitSettled rids cids closing)) (setPending ∅ (setIndexes [] ∅ ∅ s))
  end.

(** The loop over [closing]: the next actor is closed. *)
Definition closeNext (rest : list nat) (s : Registry) : Registry :=
  match rest with
  | [] => setDrain (disposed s) (Some Drained) s
  | rid :: rest =>
    let s := match activations s !! rid with
             | Some r => setActivation rid (setActor (actorClose (actor r)) r) s
             | None => s
             end in
    setDrain (disposed s) (Some (ClosingRecord rid rest)) s
  end.

Definition promiseSettled (s : Registry) (cid : nat) : bool :=
  match promises s !! cid with Some c => creationSettled c | None => false end.

Definition drainStep (s : Registry) : option Registry :=
  match disposeDrain s with
  | Some (AwaitSettled rids cids closing) =>
    if forallb (λ rid, collectionSettled rid s) rids && forallb (promiseSettled s) cids
    then Some (closeNext closing s) else None
  | Some (ClosingRecord rid rest) =>
    r ← activations s !! rid;
    if decide (actorPhase (actor r) = Closed) then Some (closeNext rest s)
    else if actorRejected (actor r) then Some (setDrain (disposed s) (Some DrainThrew) s)
    else None
  | _ => None
  end.

(** ** Targets of commands *)

(** [targetOf]; [cwd] is data for reads of the repository and left out. *)
Definition targetOf (reg : WorkerRegistration) (r : Activation) : SessionTarget :=
  mkSessionTarget (projectId (ref r)) (stem (ref r)) (sessionId (ref r)) reg (generation r).

(** [admissionFor]: the record whose admission the command gets; [None]: it throws. *)
Definition admissionFor (reg : WorkerRegistration) (t : SessionTarget) (s : Registry) : option nat :=
  if negb (bool_decide (incarnation (worker t) = incarnation reg)) || negb (bool_decide (workerId (worker t) = workerId reg)) then None
  else if negb (bool_decide (workerGeneration (worker t) = workerGeneration reg)) then None
  else
    rid ← byAddressAny (targetProject t) (targetStem t) s;
    r ← activations s !! rid;
    if negb (bool_decide (sessionId (ref r) = targetSession t)) then None
    else if negb (bool_decide (generation r = activation t)) then None
    else Some rid.

(** ** The transition system *)

Inductive Step :=
  | StartOpen (p st : string) | ResumeOpen (i : nat)
  | StartCreation (p : string)
  | ManagerCreated (cid : nat) (result : option (string * actorManager))
  | FreshCreated (cid : nat) (result : option (string * string * actorManager)) (badStem : bool)
  | ManagerGone (cid : nat) | ChoicesEnd (cid : nat) (ok : bool) | AbandonEnd (cid : nat) | ForgetCreation (cid : nat)
  | ActorEvent (rid : nat) (e : actorEvent)
  | DisposeRecord (rid : nat) | Collected (rid : nat)
  | StartClose (archive : bool) (p st : string) | ResumeClose (i : nat)
  | Dispose | DrainStep
  | FileWritten (p st : string).

(** A manager the environment hands over is fresh. *)
Definition stepAdmitted (t : Step) : Prop :=
  match t with
  | ManagerCreated _ (Some (_, m)) => managerFresh m
  | FreshCreated _ (Some (_, _, m)) _ => managerFresh m
  | _ => True
  end.

Definition step (t : Step) (s : Registry) : option Registry :=
  match t with
  | StartOpen p st => Some (startOpen p st s)
  | ResumeOpen i => resumeOpen i s
  | StartCreation p => Some (startCreation p s)
  | ManagerCreated cid result => managerCreated cid result s
  | FreshCreated cid result bad => freshCreated cid result bad s
  | ManagerGone cid => managerGone cid s
  | ChoicesEnd cid ok => choicesEnd cid ok s
  | AbandonEnd cid => abandonEnd cid s
  | ForgetCreation cid => forgetCreation cid s
  | ActorEvent rid e => actorStepAt rid e s
  | DisposeRecord rid => disposeRecord rid s
  | Collected rid => collected rid s
  | StartClose ar p st => Some (startClose ar p st s)
  | ResumeClose i => resumeClose i s
  | Dispose => Some (dispose s)
  | DrainStep => drainStep s
  | FileWritten p st => Some (setFiles (files s ∪ {[addressKey p st]}) s)
  end.

Inductive reaches : Registry → Registry → Prop :=
  | reaches_refl s : reaches s s
  | reaches_step s t u v : reaches s u → stepAdmitted t → step t u = Some v → reaches s v.


End Registry.
