(* ===== verification/Activations.v ===== *)
(** * Properties of the activation registry

    The invariant of [Registry] and what follows from it: one runtime per
    address and per session id, targets that name one activation, a shutdown that
    leaves nothing behind, no session forgotten.  The actor is used through
    [ActorSpec] only; the last section applies the theorems to [Actor]. *)

From S2P Require Export Registry.

Lemma list_alter_Some {B} (f : B → B) (l : list B) (i j : nat) x :
  alter f i l !! j = Some x → (i = j ∧ ∃ y, l !! j = Some y ∧ x = f y) ∨ (i ≠ j ∧ l !! j = Some x).
Proof.
  rewrite list_lookup_alter. case_decide as E; [|by right]. subst. intros (y & Hy & ->)%fmap_Some. left. split; [done|by exists y].
Qed.

Section Activations.

Context {A : Type} `{Spec : ActorSpec A}.
Implicit Types s : Registry (A := A).

(** ** The invariant *)

(** The runtime of a record is not gone: its actor has neither closed nor failed to. *)
Definition unfinished (r : Activation (A := A)) : Prop := actorPhase (actor r) ≠ Closed ∧ actorRejected (actor r) = false.

(** The record holds its address: it is live, or its disposal is awaited. *)
Definition held (r : Activation (A := A)) : Prop :=
  match collecting r with None => actorPhase (actor r) = Live | Some Disposing => True | Some _ => False end.

(** A creation addressed by an open whose manager no record owns yet. *)
Definition addressFlight (c : Creation) : Prop := fresh c = false ∧ inFlight c = true.

(** What holds in every reachable state. *)
Record base s : Prop := {
  base_wf : ∀ rid r, activations s !! rid = Some r → actorWf (actor r);
  base_count : generations s = length (activations s);
  base_generation : ∀ rid r, activations s !! rid = Some r → generation r = S rid
}.

(** One holder per address and per session id. *)
Record exclusive s : Prop := {
  one_address : ∀ i j ri rj, activations s !! i = Some ri → activations s !! j = Some rj →
    unfinished ri → unfinished rj → key ri = key rj → i = j;
  one_session : ∀ i j ri rj, activations s !! i = Some ri → activations s !! j = Some rj →
    unfinished ri → unfinished rj → sessionId (ref ri) = sessionId (ref rj) → i = j;
  no_second : ∀ i ri j c, activations s !! i = Some ri → promises s !! j = Some c →
    unfinished ri → addressFlight c → key ri ≠ creationKey c;
  one_creation : ∀ i j ci cj, promises s !! i = Some ci → promises s !! j = Some cj →
    addressFlight ci → addressFlight cj → creationKey ci = creationKey cj → i = j
}.

(** How [collecting] follows the actor. *)
Definition collectingAgrees (r : Activation (A := A)) : Prop :=
  match collecting r with
  | None => actorPhase (actor r) = Live ∨ actorPhase (actor r) = Closed ∨ actorRejected (actor r) = true
  | Some Disposing => actorPhase (actor r) ≠ Live
  | Some Cleaned => actorPhase (actor r) = Closed
  | Some Broken => actorRejected (actor r) = true
  end.

(** The indexes describe the holders, until the shutdown clears them. *)
Record indexed s : Prop := {
  index_state : ∀ rid r, activations s !! rid = Some r → collectingAgrees r;
  index_attended : ∀ rid r, activations s !! rid = Some r → actorAttended (actor r);
  index_held : ∀ rid r, activations s !! rid = Some r → held r →
    byAddress s !! key r = Some rid ∧ sessionOwnerById s !! sessionId (ref r) = Some (rid, (projectId (ref r), stem (ref r))) ∧
    rid ∈ records s;
  index_flight : ∀ cid c, promises s !! cid = Some c → addressFlight c → pending s !! creationKey c = Some cid;
  index_free : ∀ cid c rid r, promises s !! cid = Some c → addressFlight c → activations s !! rid = Some r → held r →
    key r ≠ creationKey c
}.

Definition openKey (o : OpenCall) : string := addressKey (openProject o) (openStem o).

(** An open that awaits its own creation is the one that will forget it. *)
Record opens_ok s : Prop := {
  open_pending : ∀ i o cid, openCalls s !! i = Some o → openPoint o = WaitCreate cid →
    pending s !! openKey o = Some cid ∧ cid < length (promises s);
  open_one : ∀ i j oi oj cid, openCalls s !! i = Some oi → openCalls s !! j = Some oj →
    openPoint oi = WaitCreate cid → openPoint oj = WaitCreate cid → i = j
}.

Record registry_ok s : Prop := {
  ok_base : base s;
  ok_exclusive : exclusive s;
  ok_drain : disposed s = false → disposeDrain s = None;
  ok_indexed : disposed s = false → indexed s ∧ opens_ok s
}.

Lemma unfinished_held r : collectingAgrees r → unfinished r → held r.
Proof.
  unfold collectingAgrees, unfinished, held. intros Ha [Hp Hr].
  destruct (collecting r) as [[]|]; [done|done|congruence|]. destruct Ha as [?|[?|?]]; [done|done|congruence].
Qed.

Lemma live_unfinished r : actorWf (actor r) → actorPhase (actor r) = Live → unfinished r.
Proof.
  intros Hwf Hp. split; [by rewrite Hp|]. apply not_true_iff_false. intros Hr%rejected_not_live; [|done]. congruence.
Qed.

(** While the indexes are kept they make the holders unique. *)
Lemma indexed_exclusive s : indexed s → exclusive s.
Proof.
  intros Hi. assert (∀ i r, activations s !! i = Some r → unfinished r → held r) as Hheld.
  { intros i r Hr. apply unfinished_held. by eapply index_state. }
  split.
  - intros i j ri rj Hri Hrj Ui Uj E. destruct (index_held s Hi i ri Hri) as (Ei & _); [by eapply Hheld|].
    destruct (index_held s Hi j rj Hrj) as (Ej & _); [by eapply Hheld|]. rewrite E in Ei. congruence.
  - intros i j ri rj Hri Hrj Ui Uj E. destruct (index_held s Hi i ri Hri) as (_ & Ei & _); [by eapply Hheld|].
    destruct (index_held s Hi j rj Hrj) as (_ & Ej & _); [by eapply Hheld|]. rewrite E in Ei. congruence.
  - intros i ri j c Hri Hc Ui Hf. eapply index_free; [done..| |by eapply Hheld]. done.
  - intros i j ci cj Hci Hcj Fi Fj E. pose proof (index_flight s Hi i ci Hci Fi) as Ei.
    pose proof (index_flight s Hi j cj Hcj Fj) as Ej. rewrite E in Ei. congruence.
Qed.

(** ** Steps that only take holders away *)

Record shrinks s s' : Prop := {
  shrinks_records : ∀ rid r', activations s' !! rid = Some r' → unfinished r' →
    ∃ r, activations s !! rid = Some r ∧ ref r = ref r' ∧ unfinished r;
  shrinks_creations : ∀ cid c', promises s' !! cid = Some c' → addressFlight c' →
    ∃ c, promises s !! cid = Some c ∧ creationKey c = creationKey c' ∧ addressFlight c
}.

Lemma shrinks_refl s : shrinks s s.
Proof. split; eauto. Qed.

Lemma shrinks_trans s u v : shrinks s u → shrinks u v → shrinks s v.
Proof.
  intros [R1 C1] [R2 C2]. split.
  - intros rid r Hr Hu. destruct (R2 rid r Hr Hu) as (r2 & Hr2 & E2 & U2).
    destruct (R1 rid r2 Hr2 U2) as (r1 & ? & E1 & ?). exists r1. split_and!; [done|congruence|done].
  - intros cid c Hc Hf. destruct (C2 cid c Hc Hf) as (c2 & Hc2 & E2 & F2).
    destruct (C1 cid c2 Hc2 F2) as (c1 & ? & E1 & ?). exists c1. split_and!; [done|congruence|done].
Qed.

Lemma shrinks_exclusive s s' : shrinks s s' → exclusive s → exclusive s'.
Proof.
  intros [R C] He. split.
  - intros i j ri rj Hri Hrj Ui Uj E. destruct (R i ri Hri Ui) as (r1 & H1 & E1 & U1). destruct (R j rj Hrj Uj) as (r2 & H2 & E2 & U2).
    apply (one_address s He i j r1 r2); [done..|]. unfold key in *. congruence.
  - intros i j ri rj Hri Hrj Ui Uj E. destruct (R i ri Hri Ui) as (r1 & H1 & E1 & U1). destruct (R j rj Hrj Uj) as (r2 & H2 & E2 & U2).
    apply (one_session s He i j r1 r2); [done..|]. congruence.
  - intros i ri j c Hri Hc Ui Hf E. destruct (R i ri Hri Ui) as (r1 & H1 & E1 & U1). destruct (C j c Hc Hf) as (c1 & H2 & E2 & F2).
    apply (no_second s He i r1 j c1); [done..|]. unfold key in *. congruence.
  - intros i j ci cj Hci Hcj Fi Fj E. destruct (C i ci Hci Fi) as (c1 & H1 & E1 & F1). destruct (C j cj Hcj Fj) as (c2 & H2 & E2 & F2).
    apply (one_creation s He i j c1 c2); [done..|]. congruence.
Qed.

(** A state with the same records and creations. *)
Lemma shrinks_same s s' : activations s' = activations s → promises s' = promises s → shrinks s s'.
Proof. intros Ea Ep. split; rewrite ?Ea, ?Ep; eauto. Qed.

Lemma shrinks_setActivation s rid r r' :
  activations s !! rid = Some r → ref r' = ref r → (unfinished r' → unfinished r) → shrinks s (setActivation rid r' s).
Proof.
  intros Hr Eref Hu. split; [|eauto]. intros i x Hx Hux. simpl in Hx.
  destruct (decide (i = rid)) as [-> | Hne]; [|rewrite list_lookup_insert_ne in Hx by done; eauto].
  rewrite list_lookup_insert_eq in Hx by by eapply lookup_lt_Some. simplify_eq. exists r. split_and!; [done|done|by apply Hu].
Qed.

Lemma shrinks_update s u rid r r' :
  activations s !! rid = Some r → activations u = <[rid := r']> (activations s) → promises u = promises s →
  ref r' = ref r → (unfinished r' → unfinished r) → shrinks s u.
Proof.
  intros Hr Ea Ep Eref Hu. apply (shrinks_trans _ (setActivation rid r' s)); [by eapply shrinks_setActivation|by apply shrinks_same].
Qed.

Lemma shrinks_setPoint s cid c p :
  promises s !! cid = Some c → (inFlight (mkCreation (fresh c) (creationProject c) (creationStem c) p) = true → inFlight c = true) →
  shrinks s (setPoint cid p s).
Proof.
  intros Hc Hf. split; [eauto|]. intros i x Hx [Hfr Hin]. simpl in Hx. apply list_alter_Some in Hx as [(E & y & Hy & ->) | [Hne Hx]];
    [|by exists x]. subst i. simplify_eq. exists c. split_and!; [done|done|]. split; [done|]. by apply Hf.
Qed.

Lemma shrinks_flight s cid c p : promises s !! cid = Some c → creationPoint c = CreatingManager → shrinks s (setPoint cid p s).
Proof. intros Hc Hp. apply (shrinks_setPoint s cid c); [done|]. intros _. unfold inFlight. by rewrite Hp. Qed.

(** ** Every operation keeps the base *)

Lemma base_same s s' : activations s' = activations s → generations s' = generations s → base s → base s'.
Proof. intros Ea Eg []. split; by rewrite ?Ea, ?Eg. Qed.

Lemma base_setActivation s rid r r' :
  base s → activations s !! rid = Some r → generation r' = generation r → actorWf (actor r') →
  base (setActivation rid r' s).
Proof.
  intros [Hwf Hc Hg] Hr Egen Hwf'. split; simpl.
  - intros i x [(-> & -> & _) | [_ Hx]]%list_lookup_insert_Some; [done|by eapply Hwf].
  - by rewrite length_insert.
  - intros i x [(-> & -> & _) | [_ Hx]]%list_lookup_insert_Some; [|by apply Hg]. rewrite Egen. by apply Hg.
Qed.

Lemma register_base m rf s : managerFresh m → base s → base (register m rf s).1.
Proof.
  intros Hm [Hwf Hc Hg]. unfold register. destruct (disposed s); [by split|]. split; simpl.
  - intros i x [Hx | [_ Hx]]%lookup_app_Some; [by eapply Hwf|]. apply list_lookup_singleton_Some in Hx as [_ <-]. by apply create_spec.
  - rewrite length_app. simpl. lia.
  - intros i x [Hx | [Hi Hx]]%lookup_app_Some; [by apply Hg|]. apply list_lookup_singleton_Some in Hx as [Hi' <-]. simpl. lia.
Qed.

Lemma register_point_base m rf s s1 x cid p : managerFresh m → base s → register m rf s = (s1, x) → base (setPoint cid p s1).
Proof. intros Hm Hb E. apply (base_same s1); [done..|]. pose proof (register_base m rf s Hm Hb) as Hb1. by rewrite E in Hb1. Qed.

Lemma collect_base rid s : base s → base (collect rid s).2.
Proof.
  intros Hb. unfold collect. destruct (activations s !! rid) as [r|] eqn:Er; [|done]. repeat case_match; try done.
  simpl. eapply base_setActivation; [done..|]. simpl. apply close_wf. by eapply base_wf.
Qed.

Lemma disposeRecord_base rid s s' : base s → disposeRecord rid s = Some s' → base s'.
Proof.
  intros Hb E. unfold disposeRecord in E. apply bind_Some in E as (r & Er & E).
  repeat case_match; simplify_eq; (eapply base_setActivation; [by apply (base_same s)|done|done|exact (base_wf s Hb _ _ Er)]).
Qed.

Lemma collected_base rid s s' : base s → collected rid s = Some s' → base s'.
Proof.
  intros Hb E. unfold collected in E. apply bind_Some in E as (r & Er & E).
  repeat case_match; simplify_eq; (eapply base_setActivation; [done|done|done|exact (base_wf s Hb _ _ Er)]).
Qed.

Lemma actorStepAt_base rid e s s' : base s → actorStepAt rid e s = Some s' → base s'.
Proof.
  intros Hb E. unfold actorStepAt in E. apply bind_Some in E as (r & Er & E). apply bind_Some in E as (a & Ea & E).
  assert (base (setActivation rid (setActor a r) s)) as Hb'.
  { eapply base_setActivation; [done..|]. eapply react_wf; [|done]. by eapply base_wf. }
  simplify_eq. case_match; [by apply collect_base|done].
Qed.

Lemma reserveTurn_base p st s : base s → base (reserveTurn p st s).2.
Proof. intros Hb. unfold reserveTurn, create. repeat case_match; simplify_eq/=; try done; by apply (base_same s). Qed.

Lemma closeNext_base rest s : base s → base (closeNext rest s).
Proof.
  intros Hb. unfold closeNext. destruct rest as [|rid rest]; [by apply (base_same s)|].
  destruct (activations s !! rid) as [r|] eqn:Er; [|by apply (base_same s)].
  apply (base_same (setActivation rid (setActor (actorClose (actor r)) r) s)); [done..|].
  eapply base_setActivation; [done..|]. apply close_wf. by eapply base_wf.
Qed.

Lemma reserveAgain_base i o s : base s → base (reserveAgain i o s).
Proof.
  intros Hb%(reserveTurn_base (openProject o) (openStem o)). unfold reserveAgain.
  destruct (reserveTurn _ _ s) as [pt s1]. by apply (base_same s1).
Qed.

Lemma replyClose_same i c o s : activations (replyClose i c o s) = activations s ∧ generations (replyClose i c o s) = generations s
  ∧ promises (replyClose i c o s) = promises s ∧ disposed (replyClose i c o s) = disposed s
  ∧ byAddress (replyClose i c o s) = byAddress s ∧ sessionOwnerById (replyClose i c o s) = sessionOwnerById s
  ∧ records (replyClose i c o s) = records s ∧ pending (replyClose i c o s) = pending s ∧ openCalls (replyClose i c o s) = openCalls s.
Proof. unfold replyClose. by repeat case_match. Qed.

Lemma collectFor_base i c rid s : base s → base (collectFor i c rid s).
Proof.
  intros Hb%(collect_base rid). unfold collectFor. destruct (collect rid s) as [waits s1]. destruct waits; [by apply (base_same s1)|].
  destruct (replyClose_same i c (Some rid) s1) as (E1 & E2 & _). by apply (base_same s1).
Qed.

Lemma step_base t s s' : base s → stepAdmitted t → step t s = Some s' → base s'.
Proof.
  intros Hb Ht E. destruct t; cbn [step] in E.
  - simplify_eq. unfold startOpen. apply (reserveTurn_base p st) in Hb. destruct (reserveTurn p st s) as [pt s1]. by apply (base_same s1).
  - unfold resumeOpen in E. apply bind_Some in E as (o & Eo & E). destruct (openPoint o); try done;
      apply bind_Some in E as (x & Ex & E); repeat case_match; simplify_eq; by apply reserveAgain_base || by apply (base_same s).
  - simplify_eq. by apply (base_same s).
  - unfold managerCreated in E. apply bind_Some in E as (c & Ec & E). repeat case_match; simplify_eq; try by apply (base_same s).
    all: by eapply register_point_base.
  - unfold freshCreated in E. apply bind_Some in E as (c & Ec & E). repeat case_match; simplify_eq; try by apply (base_same s).
    all: by eapply register_point_base.
  - unfold managerGone in E. apply bind_Some in E as (c & Ec & E). repeat case_match; simplify_eq. by apply (base_same s).
  - unfold choicesEnd in E. apply bind_Some in E as (c & Ec & E). destruct (creationPoint c); try done.
    apply (collect_base rid) in Hb as Hb1. destruct ok; simplify_eq; [by apply (base_same s)|].
    destruct (collect rid s) as [w s1]. simplify_eq. by apply (base_same s1).
  - unfold abandonEnd in E. apply bind_Some in E as (c & Ec & E). repeat case_match; simplify_eq. by apply (base_same s).
  - unfold forgetCreation in E. apply bind_Some in E as (c & Ec & E). repeat case_match; simplify_eq. by apply (base_same s).
  - by eapply actorStepAt_base.
  - by eapply disposeRecord_base.
  - by eapply collected_base.
  - simplify_eq. by apply (base_same s).
  - unfold resumeClose in E. apply bind_Some in E as (c & Ec & E). pose proof (replyClose_same i c) as Hs.
    destruct (closePoint c) as [cid|[rid|]|rid| |]; try done; try apply bind_Some in E as (x & Ex & E);
      repeat case_match; simplify_eq; first [by apply collectFor_base | by apply (base_same s) | by destruct (Hs None s) as (? & ? & _); apply (base_same s)
        | by destruct (Hs (Some rid) s) as (? & ? & _); apply (base_same s)].
  - simplify_eq. unfold dispose. case_match; [done|by apply (base_same s)].
  - unfold drainStep in E. repeat case_match; simplify_eq; try by apply closeNext_base.
    apply bind_Some in E as (x & Ex & E). repeat case_match; simplify_eq; [by apply closeNext_base|by apply (base_same s)].
  - simplify_eq. by apply (base_same s).
Qed.

(** ** After the shutdown began holders only go *)

Lemma collect_disposed rid s : disposed s = true → (collect rid s).2 = s.
Proof. intros Hd. unfold collect. rewrite Hd. by repeat case_match. Qed.

Lemma reserveTurn_disposed p st s : disposed s = true → reserveTurn p st s = (OpenFailed, s).
Proof. intros Hd. unfold reserveTurn. by rewrite Hd. Qed.

Lemma shrinks_actor s rid r a :
  activations s !! rid = Some r → (unfinished (setActor a r) → unfinished r) → shrinks s (setActivation rid (setActor a r) s).
Proof. intros Hr Hu. by eapply shrinks_setActivation. Qed.

Lemma react_unfinished e a b r :
  actorReact e a = Some b → actor r = a → unfinished (setActor b r) → unfinished r.
Proof.
  intros E <- [Hp Hr]. split.
  - intros Hc. by apply Hp, (react_closed e (actor r)).
  - apply not_true_iff_false. intros Hrej%(react_rejected e _ _ E). simpl in Hr. congruence.
Qed.

Lemma close_unfinished r : actorWf (actor r) → unfinished (setActor (actorClose (actor r)) r) → unfinished r.
Proof.
  intros Hwf Hu. destruct (decide (actorPhase (actor r) = Live)) as [Hl | Hl]; [by apply live_unfinished|].
  unfold unfinished in *. simpl in Hu. by rewrite close_ended in Hu.
Qed.

Lemma closeNext_shrinks rest s : base s → shrinks s (closeNext rest s).
Proof.
  intros Hb. unfold closeNext. destruct rest as [|rid rest]; [by apply shrinks_same|].
  destruct (activations s !! rid) as [r|] eqn:Er; [|by apply shrinks_same].
  apply (shrinks_trans _ (setActivation rid (setActor (actorClose (actor r)) r) s)); [|by apply shrinks_same].
  apply shrinks_actor; [done|]. apply close_unfinished. by eapply base_wf.
Qed.

Lemma setOpenPoint_shrinks i p s : shrinks s (setOpenPoint i p s).
Proof. by apply shrinks_same. Qed.

Lemma drainStep_shrinks s s' : base s → drainStep s = Some s' → shrinks s s'.
Proof.
  intros Hb E. unfold drainStep in E. destruct (disposeDrain s) as [[]|]; try done.
  - case_match; simplify_eq. by apply closeNext_shrinks.
  - apply bind_Some in E as (r & Er & E). repeat case_match; simplify_eq; [by apply closeNext_shrinks|by apply shrinks_same].
Qed.

Lemma snoc_shrinks s l c : promises s = l → ~ addressFlight c → shrinks s (setPromises (l ++ [c]) s).
Proof.
  intros <- Hc. split; [eauto|]. intros i x [Hx | [_ Hx]]%lookup_app_Some Hf; [by exists x|].
  apply list_lookup_singleton_Some in Hx as [_ <-]. done.
Qed.

Lemma disposeRecord_shrinks rid s s' : disposeRecord rid s = Some s' → shrinks s s'.
Proof.
  intros E. unfold disposeRecord in E. apply bind_Some in E as (r & Er & E).
  repeat case_match; simplify_eq; by eapply shrinks_update.
Qed.

Lemma collected_shrinks rid s s' : collected rid s = Some s' → shrinks s s'.
Proof.
  intros E. unfold collected in E. apply bind_Some in E as (r & Er & E).
  repeat case_match; simplify_eq; by eapply shrinks_update.
Qed.

Lemma register_disposed m rf s : disposed s = true → register m rf s = (s, inr Refusing).
Proof. intros Hd. unfold register. by rewrite Hd. Qed.

(** The steps of a creation whose factory returned too late. *)
Lemma managerCreated_disposed cid result s s' :
  disposed s = true → managerCreated cid result s = Some s' → shrinks s s'.
Proof.
  intros Hd E. unfold managerCreated in E. apply bind_Some in E as (c & Ec & E). destruct (creationPoint c) eqn:Ep; try done.
  destruct (fresh c); [done|]. destruct result as [[sid m]|]; [rewrite register_disposed in E by done|].
  all: repeat case_match; simplify_eq; by eapply (shrinks_flight s cid c).
Qed.

Lemma freshCreated_disposed cid result bad s s' :
  disposed s = true → freshCreated cid result bad s = Some s' → shrinks s s'.
Proof.
  intros Hd E. unfold freshCreated in E. apply bind_Some in E as (c & Ec & E). destruct (creationPoint c) eqn:Ep; try done.
  destruct (fresh c); [|done]. simpl in E. destruct result as [[[st sid] m]|]; [rewrite register_disposed in E by done|].
  all: repeat case_match; simplify_eq; by eapply (shrinks_flight s cid c).
Qed.

Lemma choicesEnd_disposed cid ok s s' : disposed s = true → choicesEnd cid ok s = Some s' → shrinks s s'.
Proof.
  intros Hd E. unfold choicesEnd in E. apply bind_Some in E as (c & Ec & E). destruct (creationPoint c) eqn:Ep; try done.
  pose proof (collect_disposed rid s Hd) as Hcol. destruct (collect rid s) as [w s1]. simpl in Hcol. subst s1.
  repeat case_match; simplify_eq; by eapply shrinks_setPoint.
Qed.

Lemma collectFor_disposed i c rid s : disposed s = true → shrinks s (collectFor i c rid s).
Proof.
  intros Hd. unfold collectFor. pose proof (collect_disposed rid s Hd) as Hcol. destruct (collect rid s) as [w s1]. simpl in Hcol. subst s1.
  destruct w; [by apply shrinks_same|]. destruct (replyClose_same i c (Some rid) s) as (? & _ & ? & _). by apply shrinks_same.
Qed.

Lemma resumeClose_disposed i s s' : disposed s = true → resumeClose i s = Some s' → shrinks s s'.
Proof.
  intros Hd E. unfold resumeClose in E. apply bind_Some in E as (c & Ec & E). pose proof (replyClose_same i c) as Hs.
  destruct (closePoint c) as [cid|[rid|]|rid| |]; try done; try apply bind_Some in E as (x & Ex & E);
    repeat case_match; simplify_eq; first [by apply collectFor_disposed | by apply shrinks_same
      | by destruct (Hs None s) as (? & _ & ? & _); apply shrinks_same | by destruct (Hs (Some rid) s) as (? & _ & ? & _); apply shrinks_same].
Qed.

Lemma resumeOpen_disposed i s s' : disposed s = true → resumeOpen i s = Some s' → shrinks s s'.
Proof.
  intros Hd E. unfold resumeOpen, reserveAgain in E. apply bind_Some in E as (o & Eo & E).
  rewrite reserveTurn_disposed in E by done.
  destruct (openPoint o); try done; apply bind_Some in E as (x & Ex & E); repeat case_match; simplify_eq; by apply shrinks_same.
Qed.

Lemma step_disposed t s s' : base s → disposed s = true → step t s = Some s' → shrinks s s'.
Proof.
  intros Hb Hd E. destruct t; cbn [step] in E.
  - simplify_eq. unfold startOpen. rewrite reserveTurn_disposed by done. by apply shrinks_same.
  - by eapply resumeOpen_disposed.
  - simplify_eq. apply (shrinks_trans _ (setPromises (promises s ++ [mkCreation true p "" CreatingManager]) s)); [|by apply shrinks_same].
    apply snoc_shrinks; [done|by intros [? _]].
  - by eapply managerCreated_disposed.
  - by eapply freshCreated_disposed.
  - unfold managerGone in E. apply bind_Some in E as (c & Ec & E). repeat case_match; simplify_eq. by eapply shrinks_setPoint.
  - by eapply choicesEnd_disposed.
  - unfold abandonEnd in E. apply bind_Some in E as (c & Ec & E). repeat case_match; simplify_eq. by eapply shrinks_setPoint.
  - unfold forgetCreation in E. apply bind_Some in E as (c & Ec & E). repeat case_match; simplify_eq. by apply shrinks_same.
  - unfold actorStepAt in E. apply bind_Some in E as (r & Er & E). apply bind_Some in E as (a & Ea & E). simplify_eq.
    case_match; [rewrite collect_disposed by done|]; (apply shrinks_actor; [done|by eapply react_unfinished]).
  - by eapply disposeRecord_shrinks.
  - by eapply collected_shrinks.
  - simplify_eq. by apply shrinks_same.
  - by eapply resumeClose_disposed.
  - simplify_eq. unfold dispose. case_match; by apply shrinks_same.
  - by eapply drainStep_shrinks.
  - simplify_eq. by apply shrinks_same.
Qed.

(** ** Before it the indexes are kept *)

Lemma indexed_same s s' :
  activations s' = activations s → byAddress s' = byAddress s → sessionOwnerById s' = sessionOwnerById s →
  records s' = records s → pending s' = pending s → promises s' = promises s → indexed s → indexed s'.
Proof. intros E1 E2 E3 E4 E5 E6 []. split; by rewrite ?E1, ?E2, ?E3, ?E4, ?E5, ?E6. Qed.

Lemma opens_same s s' :
  pending s' = pending s → openCalls s' = openCalls s → length (promises s) ≤ length (promises s') → opens_ok s → opens_ok s'.
Proof.
  intros Ep Eo El [H1 H2]. split; rewrite ?Ep, ?Eo; [|done]. intros i o cid Ho Hp. destruct (H1 i o cid Ho Hp). split; [done|lia].
Qed.

Lemma setPoint_length cid p s : length (promises (setPoint cid p s)) = length (promises s).
Proof. apply length_alter. Qed.

Lemma indexed_setPoint s cid c p :
  promises s !! cid = Some c → (inFlight (mkCreation (fresh c) (creationProject c) (creationStem c) p) = true → inFlight c = true) →
  indexed s → indexed (setPoint cid p s).
Proof.
  intros Hc Hf [H1 H2 H3 H4 H5].
  assert (∀ i x, promises (setPoint cid p s) !! i = Some x → addressFlight x →
    ∃ y, promises s !! i = Some y ∧ creationKey y = creationKey x ∧ addressFlight y) as Hback.
  { intros i x [(E & y & Hy & ->) | [Hne Hx]]%list_alter_Some Hin; [|by exists x]. subst i. simplify_eq.
    destruct Hin as [Hfr Hin]. exists c. split_and!; [done|done|split; [done|by apply Hf]]. }
  split; [done|done|done|..].
  - intros i x Hx Hin. destruct (Hback i x Hx Hin) as (y & Hy & <- & Hfy). by apply H4.
  - intros i x rid r Hx Hin Hr Hh. destruct (Hback i x Hx Hin) as (y & Hy & <- & Hfy). by eapply H5.
Qed.

Lemma opens_setPoint s cid p : opens_ok s → opens_ok (setPoint cid p s).
Proof. apply opens_same; [done|done|by rewrite setPoint_length]. Qed.

Lemma indexed_setActivation s rid r r' :
  activations s !! rid = Some r → ref r' = ref r → collectingAgrees r' → actorAttended (actor r') → (held r' → held r) →
  indexed s → indexed (setActivation rid r' s).
Proof.
  intros Hr Eref Hag Hatt Hh [H1 H2 H3 H4 H5]. split; simpl.
  - intros i x [(-> & -> & _) | [_ Hx]]%list_lookup_insert_Some; [done|by eapply H1].
  - intros i x [(-> & -> & _) | [_ Hx]]%list_lookup_insert_Some; [done|by eapply H2].
  - intros i x [(-> & -> & _) | [_ Hx]]%list_lookup_insert_Some Hx'; [|by apply H3].
    unfold key. rewrite Eref. apply H3; [done|by apply Hh].
  - done.
  - intros cid c i x Hc Hf [(-> & -> & _) | [_ Hx]]%list_lookup_insert_Some Hx'; [|by eapply H5].
    unfold key. rewrite Eref. eapply H5; [done|done|done|by apply Hh].
Qed.

Lemma indexed_register s m rf s' rid :
  managerFresh m → base s → indexed s → register m rf s = (s', inl rid) →
  (∀ i r, activations s !! i = Some r → held r → key r ≠ refKey rf ∧ sessionId (ref r) ≠ sessionId rf) →
  (∀ cid c, promises s !! cid = Some c → addressFlight c → creationKey c ≠ refKey rf) →
  indexed s'.
Proof.
  intros Hm Hb [H1 H2 H3 H4 H5] E Hfree Hflight. unfold register in E. destruct (disposed s); [done|]. simplify_eq.
  destruct (create_spec m Hm) as (_ & Hlive & Hatt). split; simpl.
  - intros i x [Hx | [_ Hx]]%lookup_app_Some; [by eapply H1|]. apply list_lookup_singleton_Some in Hx as [_ <-]. by left.
  - intros i x [Hx | [_ Hx]]%lookup_app_Some; [by eapply H2|]. by apply list_lookup_singleton_Some in Hx as [_ <-].
  - intros i x [Hx | [Hi Hx]]%lookup_app_Some Hh.
    + destruct (Hfree i x Hx Hh) as [Hk Hs]. destruct (H3 i x Hx Hh) as (E1 & E2 & E3).
      rewrite !lookup_insert_ne by done. split_and!; [done|done|]. apply elem_of_app. by left.
    + apply list_lookup_singleton_Some in Hx as [Hi' <-]. assert (i = length (activations s)) as -> by lia. simpl. unfold key. simpl.
      rewrite !lookup_insert_eq. split_and!; [done|done|]. apply elem_of_app. right. by left.
  - done.
  - intros cid c i x Hc Hf [Hx | [_ Hx]]%lookup_app_Some Hh; [by eapply H5|].
    apply list_lookup_singleton_Some in Hx as [_ <-]. intros E. by eapply (Hflight cid c).
Qed.

Lemma indexed_collect rid s : base s → indexed s → indexed (collect rid s).2.
Proof.
  intros Hb Hi. unfold collect. destruct (activations s !! rid) as [r|] eqn:Er; [|done].
  destruct (collecting r) eqn:Ec; [done|]. destruct (disposed s); [done|]. unfold isLive. case_bool_decide as Hl; [simpl|done].
  pose proof (base_wf s Hb _ _ Er) as Hwf. destruct (close_live _ Hwf Hl) as [Hp Hrej].
  eapply indexed_setActivation; [done|done| | | |done].
  - unfold collectingAgrees. simpl. by rewrite Hp.
  - apply ended_attended. simpl. by rewrite Hp.
  - intros _. unfold held. by rewrite Ec.
Qed.

Lemma indexed_collected rid s s' : base s → indexed s → collected rid s = Some s' → indexed s'.
Proof.
  intros Hb Hi E. unfold collected in E. apply bind_Some in E as (r & Er & E).
  pose proof (index_state s Hi rid r Er) as Hag. pose proof (index_attended s Hi rid r Er) as Hatt.
  unfold collectingAgrees in Hag.
  destruct (collecting r) as [[]|] eqn:Ec; simplify_eq; (eapply indexed_setActivation; [done|done| |done| |done]).
  - unfold collectingAgrees. simpl. by right; left.
  - unfold held. simpl. by rewrite Hag.
  - unfold collectingAgrees. simpl. by right; right.
  - unfold held. simpl. intros Hl. apply rejected_not_live in Hag; [congruence|]. exact (base_wf s Hb _ _ Er).
Qed.

Lemma indexed_disposeRecord rid s s' : indexed s → disposeRecord rid s = Some s' → indexed s'.
Proof.
  intros Hi E. unfold disposeRecord in E. apply bind_Some in E as (r & Er & E).
  destruct (collecting r) as [[]|] eqn:Ec; try done. pose proof (index_attended s Hi rid r Er) as Hatt.
  case_decide as Hp; simplify_eq.
  - set (o := match sessionOwnerById s !! _ with Some _ => _ | None => _ end).
    set (b := if decide (byAddress s !! key r = Some rid) then _ else _).
    destruct (indexed_setActivation s rid r (setCollecting (Some Cleaned) r)) as [H1 H2 H3 H4 H5]; [done|done|done|done|done|done|].
    split; [done|done| |done|done]. intros i x Hx Hh. destruct (H3 i x Hx Hh) as (E1 & E2 & E3). simpl in *.
    apply list_lookup_insert_Some in Hx as [(-> & <- & _) | [Hne Hx]]; [done|]. split_and!.
    + unfold b. case_decide as Eb; [|done]. rewrite lookup_delete_ne; [done|]. intros Ek. congruence.
    + unfold o. destruct (sessionOwnerById s !! sessionId (ref r)) as [[owner ad]|] eqn:Eo; [|done].
      case_decide; [|done]. subst owner. rewrite lookup_delete_ne; [done|]. intros Ek. congruence.
    + apply without_elem. by split.
  - case_match eqn:Erej; simplify_eq. eapply indexed_setActivation; [done|done|done|done|done|done].
Qed.

Lemma held_setActor e a r :
  actorWf (actor r) → actorReact e (actor r) = Some a → held (setActor a r) → held r.
Proof.
  intros Hwf E. unfold held. simpl. destruct (collecting r); [done|]. intros Hl. by apply (react_live e (actor r) a).
Qed.

Lemma agrees_setActor e a r :
  actorWf (actor r) → actorReact e (actor r) = Some a → collectingAgrees r → collectingAgrees (setActor a r).
Proof.
  intros Hwf E. pose proof (react_live e _ _ Hwf E) as Hlive. pose proof (react_closed e _ _ E) as Hcl.
  pose proof (react_rejected e _ _ E) as Hrej. unfold collectingAgrees. simpl. destruct (collecting r) as [[]|]; tauto.
Qed.

Lemma indexed_actorStepAt rid e s s' : base s → disposed s = false → indexed s → actorStepAt rid e s = Some s' → indexed s'.
Proof.
  intros Hb Hd Hi E. unfold actorStepAt in E. apply bind_Some in E as (r & Er & E). apply bind_Some in E as (a & Ea & E).
  pose proof (base_wf s Hb _ _ Er) as Hwf. pose proof (index_state s Hi rid r Er) as Hag.
  pose proof (react_wf e _ _ Hwf Ea) as Hwfa. simplify_eq. destruct (actorIdle e (actor r)) eqn:Eidle.
  - pose proof (idle_live e _ _ Hwf Ea Eidle) as Hl. unfold collect. simpl.
    rewrite list_lookup_insert_eq by by eapply lookup_lt_Some. simpl. pose proof (react_live e _ _ Hwf Ea) as Hlive.
    unfold collectingAgrees in Hag. destruct (collecting r) as [[]|] eqn:Ec.
    1: by destruct (Hag (proj1 Hlive Hl)).
    1: rewrite (proj1 Hlive Hl) in Hag; done.
    1: { apply rejected_not_live in Hag; [|done]. rewrite (proj1 Hlive Hl) in Hag. done. }
    rewrite Hd. unfold isLive. simpl. rewrite bool_decide_eq_true_2 by done. simpl. unfold setActivation. simpl. rewrite list_insert_insert_eq.
    destruct (close_live _ Hwfa Hl) as [Hp Hrej].
    apply (indexed_same (setActivation rid (mkActivation (ref r) (generation r) (actorClose a) (Some Disposing)) s)); [done..|].
    eapply indexed_setActivation; [done|done| | | |done].
    + unfold collectingAgrees. simpl. by rewrite Hp.
    + apply ended_attended. simpl. by rewrite Hp.
    + intros _. unfold held. rewrite Ec. by apply Hlive.
  - eapply indexed_setActivation; [done|done|by eapply agrees_setActor| |by eapply held_setActor|done].
    apply (react_attended e (actor r) a); [done| |done|done]. by eapply index_attended.
Qed.

Lemma indexed_snoc s c : ~ addressFlight c → indexed s → indexed (setPromises (promises s ++ [c]) s).
Proof.
  intros Hc [H1 H2 H3 H4 H5]. split; [done|done|done|..]; simpl.
  - intros i x [Hx | [_ Hx]]%lookup_app_Some Hf; [by apply H4|]. apply list_lookup_singleton_Some in Hx as [_ <-]. done.
  - intros i x rid r [Hx | [_ Hx]]%lookup_app_Some Hf; [by eapply H5|]. apply list_lookup_singleton_Some in Hx as [_ <-]. done.
Qed.

(** A holder is found at its address. *)
Lemma held_recordAt s rid r : indexed s → activations s !! rid = Some r → held r → recordAt (key r) s = Some rid.
Proof.
  intros Hi Hr Hh. destruct (index_held s Hi rid r Hr Hh) as (Eb & _ & Hin). unfold recordAt. rewrite Eb. simpl. by rewrite decide_True.
Qed.

(** A new creation at an address nothing holds and nothing is pending for. *)
Lemma creation_ok p st s cid s1 :
  indexed s → opens_ok s → pending s !! addressKey p st = None →
  (∀ rid r, activations s !! rid = Some r → held r → key r ≠ addressKey p st) → create p st s = (cid, s1) →
  cid = length (promises s) ∧ openCalls s1 = openCalls s ∧ disposed s1 = disposed s ∧ pending s1 = pending s ∧
  indexed (setPending (<[addressKey p st := cid]> (pending s1)) s1) ∧
  opens_ok (setPending (<[addressKey p st := cid]> (pending s1)) s1).
Proof.
  intros [H1 H2 H3 H4 H5] [O1 O2] Hnone Hfree E. unfold create in E. simplify_eq. split_and!; try done.
  - split; [done|done|done|..]; simpl.
    + intros i x [Hx | [Hi Hx]]%lookup_app_Some Hf.
      * rewrite lookup_insert_ne; [by apply H4|]. intros Ek. pose proof (H4 i x Hx Hf). congruence.
      * apply list_lookup_singleton_Some in Hx as [Hi' <-]. assert (i = length (promises s)) as -> by lia. by apply lookup_insert_eq.
    + intros i x rid r [Hx | [Hi Hx]]%lookup_app_Some Hf Hr Hh; [by eapply H5|].
      apply list_lookup_singleton_Some in Hx as [_ <-]. by eapply Hfree.
  - split; simpl; [|done]. intros i o cid Ho Hp. destruct (O1 i o cid Ho Hp) as [E1 E2]. rewrite length_app. simpl.
    split; [|lia]. rewrite lookup_insert_ne; [done|]. intros Ek. congruence.
Qed.

(** What one turn of [reserve] promises its caller. *)
Definition turnOk (k : string) (pt : OpenPoint) s : Prop :=
  ∀ cid, pt = WaitCreate cid → pending s !! k = Some cid ∧ cid < length (promises s) ∧
    ∀ i o, openCalls s !! i = Some o → openPoint o ≠ WaitCreate cid.

Lemma reserveTurn_ok p st s :
  disposed s = false → indexed s → opens_ok s →
  indexed (reserveTurn p st s).2 ∧ opens_ok (reserveTurn p st s).2 ∧ openCalls (reserveTurn p st s).2 = openCalls s ∧
  disposed (reserveTurn p st s).2 = false ∧ turnOk (addressKey p st) (reserveTurn p st s).1 (reserveTurn p st s).2.
Proof.
  intros Hd Hi Ho. set (ok := λ x : OpenPoint * Registry, indexed x.2 ∧ opens_ok x.2 ∧ openCalls x.2 = openCalls s ∧
    disposed x.2 = false ∧ turnOk (addressKey p st) x.1 x.2). change (ok (reserveTurn p st s)).
  assert (∀ pt, (∀ cid, pt ≠ WaitCreate cid) → ok (pt, s)) as Hplain by by (intros pt Hpt; split_and!; try done; intros cid E; destruct (Hpt cid)).
  unfold reserveTurn. set (fallthrough := match pending s !! _ with Some _ => _ | None => _ end).
  assert ((∀ rid r, activations s !! rid = Some r → held r → key r ≠ addressKey p st) → ok fallthrough) as Hfall.
  { intros Hfree. unfold fallthrough. destruct (pending s !! addressKey p st) as [cid|] eqn:Ep; [by apply Hplain|].
    destruct (create p st s) as [cid s1] eqn:Ec. destruct (creation_ok p st s cid s1 Hi Ho Ep Hfree Ec) as (-> & E1 & E2 & E3 & Hi1 & Ho1).
    split_and!; [done|done|done|simpl; congruence|]. intros cid [= <-]. simpl. rewrite lookup_insert_eq. split_and!; [done| |].
    - unfold create in Ec. simplify_eq. simpl. rewrite length_app. simpl. lia.
    - rewrite E1. intros i o Hoo Hp. destruct (open_pending s Ho i o _ Hoo Hp) as [_ Hlt]. lia. }
  rewrite Hd. destruct (recordAt (addressKey p st) s) as [rid|] eqn:Er; simpl.
  - destruct (activations s !! rid) as [r|] eqn:Ea; simpl.
    + destruct (isLive r) eqn:El; [by apply Hplain|]. destruct (collecting r) eqn:Ec; [by apply Hplain|].
      apply Hfall. intros i x Hx Hh Ek. apply (held_recordAt s i x Hi Hx) in Hh as E. rewrite Ek, Er in E. simplify_eq.
      unfold held in Hh. rewrite Ec in Hh. unfold isLive in El. by split_bools.
    + apply Hfall. intros i x Hx Hh Ek. apply (held_recordAt s i x Hi Hx) in Hh as E. rewrite Ek, Er in E. by simplify_eq.
  - apply Hfall. intros i x Hx Hh Ek. apply (held_recordAt s i x Hi Hx) in Hh as E. by rewrite Ek, Er in E.
Qed.

(** A call of [open] that moves. *)
Lemma setOpenPoint_opens i o pt s :
  openCalls s !! i = Some o → turnOk (openKey o) pt s → opens_ok s → opens_ok (setOpenPoint i pt s).
Proof.
  intros Hi Ht [O1 O2]. split; simpl.
  - intros j x cid [(<- & y & Hy & ->) | [_ Hx]]%list_alter_Some Hp; [|by eapply O1]. simplify_eq. simpl in Hp.
    by destruct (Ht cid Hp) as (? & ? & _).
  - intros j k x y cid [(<- & x' & Hx' & ->) | [Hj Hx]]%list_alter_Some [(E & y' & Hy' & ->) | [Hk Hy]]%list_alter_Some Px Py;
      [done| | |by eapply O2]; simpl in *.
    + destruct (Ht cid Px) as (_ & _ & Hno). by destruct (Hno _ _ Hy).
    + destruct (Ht cid Py) as (_ & _ & Hno). by destruct (Hno _ _ Hx).
Qed.

Lemma turnOk_plain k pt s : (∀ cid, pt ≠ WaitCreate cid) → turnOk k pt s.
Proof. intros Hpt cid ->. by destruct (Hpt cid). Qed.

Lemma startOpen_ok p st s :
  disposed s = false → indexed s → opens_ok s → indexed (startOpen p st s) ∧ opens_ok (startOpen p st s).
Proof.
  intros Hd Hi Ho. destruct (reserveTurn_ok p st s Hd Hi Ho) as (Hi1 & [O1 O2] & Eo & _ & Ht). unfold startOpen.
  destruct (reserveTurn p st s) as [pt s1]. simpl in *. split; [by apply (indexed_same s1)|]. split; simpl.
  - intros j x cid [Hx | [_ Hx]]%lookup_app_Some Hp; [by eapply O1|]. apply list_lookup_singleton_Some in Hx as [_ <-].
    by destruct (Ht cid Hp) as (? & ? & _).
  - intros j k x y cid [Hx | [Hj Hx]]%lookup_app_Some [Hy | [Hk Hy]]%lookup_app_Some Px Py; [by eapply O2|..];
      try apply list_lookup_singleton_Some in Hx as [Hj' <-]; try apply list_lookup_singleton_Some in Hy as [Hk' <-]; simpl in *.
    + destruct (Ht cid Py) as (_ & _ & Hno). by destruct (Hno _ _ Hx).
    + destruct (Ht cid Px) as (_ & _ & Hno). by destruct (Hno _ _ Hy).
    + lia.
Qed.

Lemma reserveAgain_ok i o s :
  openCalls s !! i = Some o → disposed s = false → indexed s → opens_ok s →
  indexed (reserveAgain i o s) ∧ opens_ok (reserveAgain i o s).
Proof.
  intros Hio Hd Hi Ho. destruct (reserveTurn_ok (openProject o) (openStem o) s Hd Hi Ho) as (Hi1 & Ho1 & Eo & _ & Ht).
  unfold reserveAgain. destruct (reserveTurn _ _ s) as [pt s1]. simpl in *. split; [by apply (indexed_same s1)|].
  eapply setOpenPoint_opens; [by rewrite Eo|done|done].
Qed.

(** The creator forgets its creation once it settled. *)
Lemma forget_pending i o cid s pt :
  openCalls s !! i = Some o → openPoint o = WaitCreate cid → creationResult cid s = Some pt →
  indexed s → opens_ok s →
  let s' := setOpenPoint i pt (setPending (delete (openKey o) (pending s)) s) in indexed s' ∧ opens_ok s'.
Proof.
  intros Hio Hp Hres [H1 H2 H3 H4 H5] [O1 O2]. destruct (O1 i o cid Hio Hp) as [Epend Hlt].
  assert (∀ c, promises s !! cid = Some c → inFlight c = false) as Hset.
  { intros c Hc. unfold creationResult in Hres. rewrite Hc in Hres. simpl in Hres. unfold inFlight. by destruct (creationPoint c). }
  assert (∀ c, pt ≠ WaitCreate c) as Hpt.
  { intros c ->. unfold creationResult in Hres. apply bind_Some in Hres as (x & _ & Hx). by destruct (creationPoint x). }
  split; [split; [done|done|done| |done]|split]; simpl.
  - intros j c Hc Hf. rewrite lookup_delete_ne; [by apply H4|]. intros Ek. pose proof (H4 j c Hc Hf) as E. rewrite <- Ek in E.
    assert (j = cid) as -> by congruence. destruct Hf as [_ Hf]. by rewrite (Hset c Hc) in Hf.
  - intros j x c [(<- & y & Hy & ->) | [Hne Hx]]%list_alter_Some Px; [by destruct (Hpt c)|].
    destruct (O1 j x c Hx Px) as [E Hc]. split; [|done]. rewrite lookup_delete_ne; [done|]. intros Ek. rewrite <- Ek in E.
    assert (c = cid) as -> by congruence. by destruct (Hne (O2 _ _ _ _ _ Hio Hx Hp Px)).
  - intros j k x y c [(<- & x' & Hx' & ->) | [_ Hx]]%list_alter_Some [(<- & y' & Hy' & ->) | [_ Hy]]%list_alter_Some Px Py; simpl in *;
      [done|by destruct (Hpt c)|by destruct (Hpt c)|by eapply O2].
Qed.

Lemma register_setPoint m rf cid p s s1 x :
  register m rf s = (s1, x) → register m rf (setPoint cid p s) = (setPoint cid p s1, x).
Proof. unfold register. simpl. destruct (disposed s); intros E; by simplify_eq. Qed.

Lemma register_frame m rf s s1 x : register m rf s = (s1, x) →
  promises s1 = promises s ∧ openCalls s1 = openCalls s ∧ pending s1 = pending s.
Proof. unfold register. destruct (disposed s); intros E; by simplify_eq. Qed.

(** A creation whose manager is registered no longer flies. *)
Lemma registered_ok cid c p m rf s s1 rid :
  managerFresh m → base s → indexed s → promises s !! cid = Some c →
  inFlight (mkCreation (fresh c) (creationProject c) (creationStem c) p) = false →
  register m rf s = (s1, inl rid) →
  (∀ i r, activations s !! i = Some r → held r → key r ≠ refKey rf ∧ sessionId (ref r) ≠ sessionId rf) →
  (∀ j x, promises s !! j = Some x → addressFlight x → creationKey x = refKey rf → j = cid) →
  indexed (setPoint cid p s1).
Proof.
  intros Hm Hb Hi Hc Hp E Hfree Honly. apply (register_setPoint _ _ cid p) in E.
  eapply indexed_register; [done| | |done|done|].
  - by apply (base_same s).
  - eapply indexed_setPoint; [done| |done]. congruence.
  - intros j x [(<- & y & Hy & ->) | [Hne Hx]]%list_alter_Some Hf Ek.
    + simplify_eq. destruct Hf as [_ Hf]. congruence.
    + apply Hne. symmetry. by eapply Honly.
Qed.

Lemma managerCreated_ok cid result s s' :
  base s → indexed s → stepAdmitted (ManagerCreated cid result) → managerCreated cid result s = Some s' →
  indexed s' ∧ (opens_ok s → opens_ok s').
Proof.
  intros Hb Hi Hm E. unfold managerCreated in E. apply bind_Some in E as (c & Ec & E).
  destruct (creationPoint c) eqn:Ep; try done. destruct (fresh c) eqn:Ef; [done|].
  assert (addressFlight c) as Hfl by (split; [done|by unfold inFlight; rewrite Ep]).
  assert (∀ p, indexed (setPoint cid p s) ∧ (opens_ok s → opens_ok (setPoint cid p s))) as Hpoint.
  { intros p. split; [|apply opens_setPoint]. eapply indexed_setPoint; [done|by destruct Hfl|done]. }
  destruct result as [[sid m]|]; [|by simplify_eq]. cbv zeta in E.
  match type of E with (if ?taken then _ else _) = _ => destruct taken eqn:Et end; [by simplify_eq|].
  destruct (register m _ s) as [s1 [rid|p]] eqn:Er; simplify_eq.
  - destruct (register_frame _ _ _ _ _ Er) as (Epr & Eop & Epe). split.
    + eapply registered_ok; [done|done|done|done| |done| |].
      * done.
      * intros i r Hr Hh. pose proof (index_free s Hi cid c i r Ec Hfl Hr Hh) as Hk. split; [done|]. simpl. intros <-.
        destruct (index_held s Hi i r Hr Hh) as (_ & Eo & _). rewrite Eo in Et.
        apply orb_false_iff in Et as [E1 E2]. apply negb_false_iff, bool_decide_eq_true in E1, E2. apply Hk.
        unfold key, refKey, creationKey. by rewrite E1, E2.
      * intros j x Hx Hf Ek. pose proof (index_flight s Hi j x Hx Hf) as Ej. pose proof (index_flight s Hi cid c Ec Hfl) as Ec'.
        rewrite Ek in Ej. unfold refKey in Ej. simpl in Ej. unfold creationKey in Ec'. congruence.
    + intros Ho. apply opens_setPoint. apply (opens_same s); [done|done|by rewrite Epr|done].
  - assert (s1 = s) as ->; [unfold register in Er; by destruct (disposed s); simplify_eq|]. by apply Hpoint.
Qed.

Lemma allocated_spec p st sid s :
  allocated p st sid s = true →
  (∀ j x, promises s !! j = Some x → addressFlight x → creationKey x ≠ addressKey p st) ∧ sessionOwnerById s !! sid = None.
Proof.
  unfold allocated. intros [Ha Ho%bool_decide_eq_true]%andb_prop. split; [|done]. intros j x Hx [Hfr Hin] Ek.
  rewrite forallb_forall in Ha. apply list_elem_of_lookup_2, list_elem_of_In, Ha in Hx.
  rewrite Hfr, Hin, bool_decide_eq_true_2 in Hx by done. done.
Qed.

Lemma freshCreated_ok cid result bad s s' :
  base s → indexed s → stepAdmitted (FreshCreated cid result bad) → freshCreated cid result bad s = Some s' →
  indexed s' ∧ (opens_ok s → opens_ok s').
Proof.
  intros Hb Hi Hm E. unfold freshCreated in E. apply bind_Some in E as (c & Ec & E).
  destruct (creationPoint c) eqn:Ep; try done. destruct (fresh c) eqn:Ef; [|done]. cbn [negb] in E.
  assert (∀ p, indexed (setPoint cid p s) ∧ (opens_ok s → opens_ok (setPoint cid p s))) as Hpoint.
  { intros p. split; [|apply opens_setPoint]. eapply indexed_setPoint; [done| |done]. intros _. unfold inFlight. by rewrite Ep. }
  destruct result as [[[st sid] m]|]; [|by simplify_eq]. destruct bad; [by simplify_eq|].
  destruct (byAddressAny _ st s) eqn:Eany; [by simplify_eq|]. destruct (allocated _ st sid s) eqn:Eal; [|done].
  apply allocated_spec in Eal as [Hfly Hown]. destruct (register m _ s) as [s1 [rid|p]] eqn:Er; simplify_eq.
  - destruct (register_frame _ _ _ _ _ Er) as (Epr & Eop & Epe). split.
    + eapply registered_ok; [done|done|done|done| |done| |].
      * done.
      * intros i r Hr Hh. split.
        -- intros Ek. apply (held_recordAt s i r Hi Hr) in Hh. rewrite Ek in Hh. unfold byAddressAny in Eany.
           unfold refKey in Hh. simpl in Hh. congruence.
        -- simpl. intros <-. destruct (index_held s Hi i r Hr Hh) as (_ & Eo & _). congruence.
      * intros j x Hx Hf Ek. by destruct (Hfly j x Hx Hf).
    + intros Ho. apply opens_setPoint. apply (opens_same s); [done|done|by rewrite Epr|done].
  - assert (s1 = s) as ->; [unfold register in Er; by destruct (disposed s); simplify_eq|]. by apply Hpoint.
Qed.

Lemma collect_frame rid s : openCalls (collect rid s).2 = openCalls s ∧ pending (collect rid s).2 = pending s
  ∧ promises (collect rid s).2 = promises s ∧ disposed (collect rid s).2 = disposed s.
Proof. unfold collect. by repeat case_match. Qed.

Lemma opens_collect rid s : opens_ok s → opens_ok (collect rid s).2.
Proof. destruct (collect_frame rid s) as (E1 & E2 & E3 & _). apply opens_same; [done|done|by rewrite E3]. Qed.

Lemma choicesEnd_ok cid ok s s' : base s → indexed s → opens_ok s → choicesEnd cid ok s = Some s' → indexed s' ∧ opens_ok s'.
Proof.
  intros Hb Hi Ho E. unfold choicesEnd in E. apply bind_Some in E as (c & Ec & E). destruct (creationPoint c) eqn:Ep; try done.
  assert (∀ p u, promises u = promises s → inFlight (mkCreation (fresh c) (creationProject c) (creationStem c) p) = false →
    indexed u → opens_ok u → indexed (setPoint cid p u) ∧ opens_ok (setPoint cid p u)) as Hpoint.
  { intros p u Eu Hp Hiu Hou. split; [|by apply opens_setPoint]. eapply indexed_setPoint; [by rewrite Eu| |done]. congruence. }
  destruct ok; simplify_eq; [by apply Hpoint|]. pose proof (indexed_collect rid s Hb Hi) as Hi1. pose proof (opens_collect rid s Ho) as Ho1.
  destruct (collect_frame rid s) as (_ & _ & Epr & _). destruct (collect rid s) as [w s1]. simpl in *. simplify_eq.
  apply Hpoint; [done|by destruct w|done|done].
Qed.

Lemma replyClose_ok i c o s : indexed s → opens_ok s → indexed (replyClose i c o s) ∧ opens_ok (replyClose i c o s).
Proof.
  intros Hi Ho. destruct (replyClose_same i c o s) as (E1 & _ & E3 & _ & E5 & E6 & E7 & E8 & E9).
  split; [by apply (indexed_same s)|by apply (opens_same s); rewrite ?E3].
Qed.

Lemma setClosePoint_ok i p s : indexed s → opens_ok s → indexed (setClosePoint i p s) ∧ opens_ok (setClosePoint i p s).
Proof. intros Hi Ho. split; [by apply (indexed_same s)|by apply (opens_same s)]. Qed.

Lemma collectFor_ok i c rid s : base s → indexed s → opens_ok s → indexed (collectFor i c rid s) ∧ opens_ok (collectFor i c rid s).
Proof.
  intros Hb Hi Ho. unfold collectFor. pose proof (indexed_collect rid s Hb Hi) as Hi1. pose proof (opens_collect rid s Ho) as Ho1.
  destruct (collect rid s) as [w s1]. destruct w; [by apply setClosePoint_ok|by apply replyClose_ok].
Qed.

Lemma resumeClose_ok i s s' : base s → indexed s → opens_ok s → resumeClose i s = Some s' → indexed s' ∧ opens_ok s'.
Proof.
  intros Hb Hi Ho E. unfold resumeClose in E. apply bind_Some in E as (c & Ec & E).
  destruct (closePoint c) as [cid|[rid|]|rid| |]; try done; try apply bind_Some in E as (x & Ex & E);
    repeat case_match; simplify_eq; by apply collectFor_ok || by apply setClosePoint_ok || by apply replyClose_ok.
Qed.

Lemma resumeOpen_ok i s s' : disposed s = false → indexed s → opens_ok s → resumeOpen i s = Some s' → indexed s' ∧ opens_ok s'.
Proof.
  intros Hd Hi Ho E. unfold resumeOpen in E. apply bind_Some in E as (o & Eo & E).
  assert (∀ p, (∀ cid, p ≠ WaitCreate cid) → indexed (setOpenPoint i p s) ∧ opens_ok (setOpenPoint i p s)) as Hpoint.
  { intros p Hp. split; [by apply (indexed_same s)|]. eapply setOpenPoint_opens; [done|by apply turnOk_plain|done]. }
  destruct (openPoint o) eqn:Ep; try done; apply bind_Some in E as (x & Ex & E).
  - repeat case_match; simplify_eq; [by apply Hpoint|by apply reserveAgain_ok].
  - simplify_eq. apply Hpoint. intros c ->. unfold creationResult in Ex. apply bind_Some in Ex as (y & _ & Ey). by destruct (creationPoint y).
  - simplify_eq. by eapply forget_pending.
  - simplify_eq. case_match; [by apply Hpoint|by apply reserveAgain_ok].
Qed.

Lemma opens_activations s s' : promises s' = promises s → pending s' = pending s → openCalls s' = openCalls s → opens_ok s → opens_ok s'.
Proof. intros E1 E2 E3. apply opens_same; [done|done|by rewrite E1]. Qed.

Lemma actorStepAt_frame rid e s s' : actorStepAt rid e s = Some s' →
  promises s' = promises s ∧ pending s' = pending s ∧ openCalls s' = openCalls s.
Proof.
  intros E. unfold actorStepAt in E. apply bind_Some in E as (r & Er & E). apply bind_Some in E as (a & Ea & E). simplify_eq.
  case_match; [|done]. by destruct (collect_frame rid (setActivation rid (setActor a r) s)) as (? & ? & ? & _).
Qed.

Lemma disposeRecord_frame rid s s' : disposeRecord rid s = Some s' →
  promises s' = promises s ∧ pending s' = pending s ∧ openCalls s' = openCalls s.
Proof. intros E. unfold disposeRecord in E. apply bind_Some in E as (r & Er & E). by repeat case_match; simplify_eq. Qed.

Lemma collected_frame rid s s' : collected rid s = Some s' →
  promises s' = promises s ∧ pending s' = pending s ∧ openCalls s' = openCalls s.
Proof. intros E. unfold collected in E. apply bind_Some in E as (r & Er & E). by repeat case_match; simplify_eq. Qed.

Lemma step_indexed t s s' :
  base s → disposed s = false → disposeDrain s = None → indexed s → opens_ok s → t ≠ Dispose → stepAdmitted t → step t s = Some s' →
  indexed s' ∧ opens_ok s'.
Proof.
  intros Hb Hd Hdr Hi Ho Hne Ht E. destruct t; cbn [step] in E.
  - simplify_eq. by apply startOpen_ok.
  - by eapply resumeOpen_ok.
  - simplify_eq. unfold startCreation. split.
    + eapply indexed_same; [..|apply (indexed_snoc s (mkCreation true p "" CreatingManager)); [by intros [? _]|done]]; done.
    + apply (opens_same s); [done|done| |done]. simpl. rewrite length_app. lia.
  - destruct (managerCreated_ok cid result s s') as [? Hop]; try done. split; [done|by apply Hop].
  - destruct (freshCreated_ok cid result badStem s s') as [? Hop]; try done. split; [done|by apply Hop].
  - unfold managerGone in E. apply bind_Some in E as (c & Ec & E). repeat case_match; simplify_eq.
    split; [|by apply opens_setPoint]. by eapply indexed_setPoint.
  - by eapply choicesEnd_ok.
  - unfold abandonEnd in E. apply bind_Some in E as (c & Ec & E). repeat case_match; simplify_eq.
    split; [|by apply opens_setPoint]. by eapply indexed_setPoint.
  - unfold forgetCreation in E. apply bind_Some in E as (c & Ec & E). repeat case_match; simplify_eq.
    split; [by apply (indexed_same s)|by apply (opens_same s)].
  - destruct (actorStepAt_frame _ _ _ _ E) as (? & ? & ?). split; [by eapply indexed_actorStepAt|by eapply opens_activations].
  - destruct (disposeRecord_frame _ _ _ E) as (? & ? & ?). split; [by eapply indexed_disposeRecord|by eapply opens_activations].
  - destruct (collected_frame _ _ _ E) as (? & ? & ?). split; [by eapply indexed_collected|by eapply opens_activations].
  - simplify_eq. split; [by apply (indexed_same s)|by apply (opens_same s)].
  - by eapply resumeClose_ok.
  - done.
  - unfold drainStep in E. by rewrite Hdr in E.
  - simplify_eq. split; [by apply (indexed_same s)|by apply (opens_same s)].
Qed.

(** Only the shutdown touches its flag and its drain. *)
Definition sameDrain s s' : Prop := disposed s' = disposed s ∧ disposeDrain s' = disposeDrain s.

Lemma collect_drain rid s : sameDrain s (collect rid s).2.
Proof. unfold collect. by repeat case_match. Qed.

Lemma reserveTurn_drain p st s : sameDrain s (reserveTurn p st s).2.
Proof. unfold reserveTurn, create. by repeat case_match; simplify_eq/=. Qed.

Lemma register_drain m rf s : sameDrain s (register m rf s).1.
Proof. unfold register. by destruct (disposed s) eqn:E; split; simpl; rewrite ?E. Qed.

Lemma replyClose_drain i c o s : sameDrain s (replyClose i c o s).
Proof. unfold replyClose. by repeat case_match. Qed.

Lemma collectFor_drain i c rid s : sameDrain s (collectFor i c rid s).
Proof.
  unfold collectFor. pose proof (collect_drain rid s) as Hc. destruct (collect rid s) as [w s1]. simpl in Hc.
  destruct w; [done|]. destruct (replyClose_drain i c (Some rid) s1), Hc. split; congruence.
Qed.

Lemma reserveAgain_drain i o s : sameDrain s (reserveAgain i o s).
Proof.
  unfold reserveAgain. pose proof (reserveTurn_drain (openProject o) (openStem o) s) as Hc.
  by destruct (reserveTurn _ _ s) as [pt s1].
Qed.

Lemma step_drain t s s' : t ≠ Dispose → t ≠ DrainStep → step t s = Some s' → sameDrain s s'.
Proof.
  intros H1 H2 E. destruct t; cbn [step] in E; try done.
  - simplify_eq. unfold startOpen. pose proof (reserveTurn_drain p st s) as Hc. by destruct (reserveTurn p st s) as [pt s1].
  - unfold resumeOpen in E. apply bind_Some in E as (o & Eo & E). destruct (openPoint o); try done;
      apply bind_Some in E as (x & Ex & E); repeat case_match; simplify_eq; by apply reserveAgain_drain || done.
  - by simplify_eq.
  - unfold managerCreated in E. apply bind_Some in E as (c & Ec & E). destruct (creationPoint c); try done. destruct (fresh c); [done|].
    destruct result as [[sid m]|]; [|by simplify_eq]. cbv zeta in E. pose proof (register_drain m (mkSessionRef (creationProject c) sid (creationStem c)) s) as Hr.
    destruct (register m _ s) as [s1 [rid|pt]]; repeat case_match; by simplify_eq.
  - unfold freshCreated in E. apply bind_Some in E as (c & Ec & E). destruct (creationPoint c); try done. destruct (fresh c); [|done]. cbn [negb] in E.
    destruct result as [[[st sid] m]|]; [|by simplify_eq]. pose proof (register_drain m (mkSessionRef (creationProject c) sid st) s) as Hr.
    destruct (register m _ s) as [s1 [rid|pt]]; repeat case_match; by simplify_eq.
  - unfold managerGone in E. apply bind_Some in E as (c & Ec & E). by repeat case_match; simplify_eq.
  - unfold choicesEnd in E. apply bind_Some in E as (c & Ec & E). destruct (creationPoint c); try done.
    pose proof (collect_drain rid s) as Hc. destruct (collect rid s) as [w s1]. destruct ok; by simplify_eq.
  - unfold abandonEnd in E. apply bind_Some in E as (c & Ec & E). by repeat case_match; simplify_eq.
  - unfold forgetCreation in E. apply bind_Some in E as (c & Ec & E). by repeat case_match; simplify_eq.
  - unfold actorStepAt in E. apply bind_Some in E as (r & Er & E). apply bind_Some in E as (a & Ea & E). simplify_eq.
    case_match; [|done]. apply (collect_drain rid (setActivation rid (setActor a r) s)).
  - unfold disposeRecord in E. apply bind_Some in E as (r & Er & E). by repeat case_match; simplify_eq.
  - unfold collected in E. apply bind_Some in E as (r & Er & E). by repeat case_match; simplify_eq.
  - by simplify_eq.
  - unfold resumeClose in E. apply bind_Some in E as (c & Ec & E).
    destruct (closePoint c) as [cid|[rid|]|rid| |]; try done; try apply bind_Some in E as (x & Ex & E);
      repeat case_match; simplify_eq; by apply collectFor_drain || apply replyClose_drain || done.
  - by simplify_eq.
Qed.

Lemma closeNext_drain rest s : disposed (closeNext rest s) = disposed s ∧ is_Some (disposeDrain (closeNext rest s)).
Proof. unfold closeNext. destruct rest; [split; [done|by eexists]|]. case_match; (split; [done|by eexists]). Qed.

Lemma drainStep_disposed s s' : drainStep s = Some s' → disposed s' = disposed s.
Proof.
  intros E. unfold drainStep in E. destruct (disposeDrain s) as [[]|]; try done.
  - case_match; simplify_eq. by apply closeNext_drain.
  - apply bind_Some in E as (r & Er & E). repeat case_match; simplify_eq; [by apply closeNext_drain|done].
Qed.

(** A step is the shutdown, one of its drain, or leaves both alone. *)
Lemma step_cases t s s' : step t s = Some s' → t = Dispose ∨ t = DrainStep ∨ (t ≠ Dispose ∧ sameDrain s s').
Proof.
  intros E. assert (t = Dispose ∨ t = DrainStep ∨ (t ≠ Dispose ∧ t ≠ DrainStep)) as [-> | [-> | [H1 H2]]] by by (destruct t; auto).
  - by left.
  - by right; left.
  - right; right. split; [done|by eapply step_drain].
Qed.

Lemma dispose_disposed s : registry_ok s → disposed (dispose s) = true.
Proof.
  intros Hok. unfold dispose. destruct (disposeDrain s) eqn:Ed; [|done]. apply not_false_iff_true. intros Hd%(ok_drain s Hok). congruence.
Qed.

Lemma step_ok t s s' : registry_ok s → stepAdmitted t → step t s = Some s' → registry_ok s'.
Proof.
  intros Hok Ht E. pose proof (dispose_disposed s Hok) as Hdisp. destruct Hok as [Hb He Hdr Hi].
  pose proof (step_base t s s' Hb Ht E) as Hb'. destruct (disposed s) eqn:Ed.
  - assert (disposed s' = true) as Ed'.
    { destruct (step_cases t s s' E) as [-> | [-> | [_ [-> _]]]]; [|by rewrite (drainStep_disposed s s' E)|done].
      simpl in E. by simplify_eq. }
    split; [done| |congruence..]. apply (shrinks_exclusive s); [by eapply (step_disposed t)|done].
  - destruct (Hi eq_refl) as [Hix Hop]. specialize (Hdr eq_refl). destruct (step_cases t s s' E) as [-> | [-> | [Hne [Ed' Edr]]]].
    + simpl in E. simplify_eq. split; [done| |congruence..]. apply (shrinks_exclusive s); [|done].
      unfold dispose. case_match; by apply shrinks_same.
    + simpl in E. unfold drainStep in E. by rewrite Hdr in E.
    + destruct (step_indexed t s s') as [Hix' Hop']; try done. split; [done|by apply indexed_exclusive|congruence|done].
Qed.

Lemma empty_ok fs : registry_ok (emptyRegistry fs).
Proof.
  assert (∀ (B : Type) (i : nat) (x : B), [] !! i = Some x → False) as Hnil by by intros.
  split; [by split| |done|]; [split|intros _; split; split]; simpl; intros; by edestruct Hnil.
Qed.

Lemma reaches_ok s s' : registry_ok s → reaches s s' → registry_ok s'.
Proof. intros Hok. induction 1 as [|s t u v Hr IH Ht E]; [done|]. eapply step_ok; [by apply IH|done|done]. Qed.

End Activations.
