(* ===== verification/Shutdown.v ===== *)
(** * The shutdown of the registry, and the replies it gives

    What each step of [Registry] does to the creations and, once the shutdown has
    begun, to the records; from it: a drain that ends has ended everything, and a
    close that was answered has closed. *)

From S2P Require Export Activations.

Section Shutdown.

Context {A : Type} `{Spec : ActorSpec A}.
Implicit Types s : Registry (A := A).

(** ** What a step does to the creations *)

(** The points of a creation: those of [runCreation] belong to fresh sessions. *)
Definition pointFits (c : Creation) : Prop := fresh c = false → creationSettled c = true ∨ inFlight c = true.

Definition moved (c : Creation) (p : CreationPoint) : Creation := mkCreation (fresh c) (creationProject c) (creationStem c) p.

Inductive evolves s s' : Prop :=
  | evolves_same : promises s' = promises s → creations s' = creations s → evolves s s'
  | evolves_point cid c p : promises s !! cid = Some c → creationSettled c = false → pointFits (moved c p) →
      promises s' = alter (λ c, moved c p) cid (promises s) → creations s' = creations s → evolves s s'
  | evolves_create c : fresh c = false → pointFits c → promises s' = promises s ++ [c] → creations s' = creations s → evolves s s'
  | evolves_fresh c : fresh c = true → promises s' = promises s ++ [c] → creations s' = creations s ++ [length (promises s)] → evolves s s'
  | evolves_forget cid c : promises s !! cid = Some c → creationSettled c = true → promises s' = promises s →
      creations s' = without cid (creations s) → evolves s s'.

Lemma evolves_setPoint s s1 cid c p :
  promises s !! cid = Some c → creationSettled c = false → pointFits (moved c p) →
  promises s1 = promises s → creations s1 = creations s → evolves s (setPoint cid p s1).
Proof. intros Hc Hs Hp E1 E2. eapply (evolves_point _ _ cid c p); [done|done|done|simpl; by rewrite E1|done]. Qed.

Lemma collect_promises rid s : promises (collect rid s).2 = promises s ∧ creations (collect rid s).2 = creations s.
Proof. unfold collect. by repeat case_match. Qed.

Lemma register_promises m rf s : promises (register m rf s).1 = promises s ∧ creations (register m rf s).1 = creations s.
Proof. unfold register. by destruct (disposed s). Qed.

Lemma register_point m rf s s1 p : register m rf s = (s1, inr p) → p = Refusing.
Proof. unfold register. destruct (disposed s); intros E; by simplify_eq. Qed.

Lemma create_promises p st s cid s1 : create p st s = (cid, s1) →
  ∃ c, fresh c = false ∧ pointFits c ∧ promises s1 = promises s ++ [c] ∧ creations s1 = creations s.
Proof.
  unfold create. intros E. simplify_eq. eexists. split_and!; [| |done|done]; [done|]. intros _. unfold creationSettled, inFlight. simpl.
  case_decide; tauto.
Qed.

Lemma reserveTurn_evolves p st s s1 : promises s1 = promises (reserveTurn p st s).2 → creations s1 = creations (reserveTurn p st s).2 → evolves s s1.
Proof.
  unfold reserveTurn. intros E1 E2. destruct (create p st s) as [cid s2] eqn:Ec.
  destruct (create_promises _ _ _ _ _ Ec) as (c & Hf & Hp & E3 & E4).
  repeat case_match; simplify_eq/=; (by apply evolves_same) || (eapply (evolves_create _ _ c); congruence || done).
Qed.

Lemma replyClose_promises i c o s : promises (replyClose i c o s) = promises s ∧ creations (replyClose i c o s) = creations s.
Proof. unfold replyClose. by repeat case_match. Qed.

Lemma closeNext_promises rest s : promises (closeNext rest s) = promises s ∧ creations (closeNext rest s) = creations s.
Proof. unfold closeNext. by repeat case_match. Qed.

Lemma collectFor_promises i c rid s : promises (collectFor i c rid s) = promises s ∧ creations (collectFor i c rid s) = creations s.
Proof.
  unfold collectFor. destruct (collect_promises rid s) as [E1 E2]. destruct (collect rid s) as [w s1]. simpl in *.
  destruct w; [done|]. destruct (replyClose_promises i c (Some rid) s1). split; congruence.
Qed.

Lemma reserveAgain_evolves i o s : evolves s (reserveAgain i o s).
Proof.
  apply (reserveTurn_evolves (openProject o) (openStem o)); unfold reserveAgain; by destruct (reserveTurn _ _ s).
Qed.

Lemma step_evolves t s s' : Forall pointFits (promises s) → step t s = Some s' → evolves s s'.
Proof.
  intros Hfit E. destruct t; cbn [step] in E.
  - simplify_eq. apply (reserveTurn_evolves p st); unfold startOpen; by destruct (reserveTurn _ _ s).
  - unfold resumeOpen in E. apply bind_Some in E as (o & Eo & E). destruct (openPoint o); try done;
      apply bind_Some in E as (x & Ex & E); repeat case_match; simplify_eq; by apply reserveAgain_evolves || by apply evolves_same.
  - simplify_eq. by apply (evolves_fresh _ _ (mkCreation true p "" CreatingManager)).
  - unfold managerCreated in E. apply bind_Some in E as (c & Ec & E). destruct (creationPoint c) eqn:Ep; try done.
    destruct (fresh c) eqn:Ef; [done|]. assert (creationSettled c = false) as Hs by (unfold creationSettled; by rewrite Ep).
    destruct result as [[sid m]|]; [|simplify_eq; eapply evolves_setPoint; first [done | by intros _; left]].
    pose proof (register_promises m (mkSessionRef (creationProject c) sid (creationStem c)) s) as [E1 E2].
    destruct (register m _ s) as [s1 [rid|pt]] eqn:Er; [|apply register_point in Er as ->];
      repeat case_match; simplify_eq; (eapply evolves_setPoint; first [done | by intros _; left | by intros _; right]).
  - unfold freshCreated in E. apply bind_Some in E as (c & Ec & E). destruct (creationPoint c) eqn:Ep; try done.
    destruct (fresh c) eqn:Ef; [|done]. cbn [negb] in E. assert (creationSettled c = false) as Hs by (unfold creationSettled; by rewrite Ep).
    assert (∀ p, pointFits (moved c p)) as Hfits by by intros p Hp; simpl in Hp; congruence.
    destruct result as [[[st sid] m]|]; [|simplify_eq; eapply evolves_setPoint; by try apply Hfits].
    pose proof (register_promises m (mkSessionRef (creationProject c) sid st) s) as [E1 E2].
    destruct (register m _ s) as [s1 [rid|pt]]; repeat case_match; simplify_eq; (eapply evolves_setPoint; by try apply Hfits).
  - unfold managerGone in E. apply bind_Some in E as (c & Ec & E). destruct (creationPoint c) eqn:Ep; simplify_eq.
    eapply evolves_setPoint; [done|unfold creationSettled; by rewrite Ep|by intros _; left|done|done].
  - unfold choicesEnd in E. apply bind_Some in E as (c & Ec & E). destruct (creationPoint c) eqn:Ep; try done.
    assert (creationSettled c = false) as Hs by (unfold creationSettled; by rewrite Ep).
    destruct ok; [simplify_eq; eapply evolves_setPoint; first [done | by intros _; left]|].
    destruct (collect_promises rid s) as [E1 E2]. destruct (collect rid s) as [w s1]. simplify_eq.
    eapply evolves_setPoint; [done|done| |done|done]. destruct w; [|by intros _; left]. intros Hf. simpl in Hf.
    destruct (Forall_lookup_1 _ _ _ _ Hfit Ec Hf) as [Hx | Hx]; [congruence|]. unfold inFlight in Hx. by rewrite Ep in Hx.
  - unfold abandonEnd in E. apply bind_Some in E as (c & Ec & E). destruct (creationPoint c) eqn:Ep; try done. case_match; simplify_eq.
    eapply evolves_setPoint; [done|unfold creationSettled; by rewrite Ep|by intros _; left|done|done].
  - unfold forgetCreation in E. apply bind_Some in E as (c & Ec & E). case_match eqn:Ef; simplify_eq.
    apply andb_prop in Ef as [_ Hs]. by eapply evolves_forget.
  - unfold actorStepAt in E. apply bind_Some in E as (r & Er & E). apply bind_Some in E as (a & Ea & E). simplify_eq.
    case_match; [|by apply evolves_same]. by destruct (collect_promises rid (setActivation rid (setActor a r) s)); apply evolves_same.
  - unfold disposeRecord in E. apply bind_Some in E as (r & Er & E). repeat case_match; simplify_eq; by apply evolves_same.
  - unfold collected in E. apply bind_Some in E as (r & Er & E). repeat case_match; simplify_eq; by apply evolves_same.
  - simplify_eq. by apply evolves_same.
  - unfold resumeClose in E. apply bind_Some in E as (c & Ec & E). pose proof (replyClose_promises i c) as Hr.
    destruct (closePoint c) as [cid|[rid|]|rid| |]; try done; try apply bind_Some in E as (x & Ex & E);
      repeat case_match; simplify_eq; first [by destruct (collectFor_promises i c rid s); apply evolves_same
        | by destruct (Hr None s); apply evolves_same | by destruct (Hr (Some rid) s); apply evolves_same | by apply evolves_same].
  - simplify_eq. unfold dispose. case_match; by apply evolves_same.
  - unfold drainStep in E. destruct (disposeDrain s) as [[]|]; try done.
    + case_match; simplify_eq. by destruct (closeNext_promises closing s); apply evolves_same.
    + apply bind_Some in E as (r & Er & E). repeat case_match; simplify_eq; [|by apply evolves_same].
      by destruct (closeNext_promises rest s); apply evolves_same.
  - simplify_eq. by apply evolves_same.
Qed.

Record promises_ok s : Prop := {
  promise_fits : Forall pointFits (promises s);
  promise_tracked : ∀ cid c, promises s !! cid = Some c → fresh c = true → creationSettled c = false → cid ∈ creations s
}.

Lemma evolves_ok s s' : promises_ok s → evolves s s' → promises_ok s'.
Proof.
  intros [H1 H2] [E1 E2|cid c p Hc Hs Hp E1 E2|c Hf Hp E1 E2|c Hf E1 E2|cid c Hc Hs E1 E2]; split; rewrite E1, ?E2.
  - done.
  - done.
  - apply Forall_lookup. intros i x [(<- & y & Hy & ->) | [_ Hx]]%list_alter_Some; [by simplify_eq|by eapply (Forall_lookup_1 _ _ _ _ H1)].
  - intros i x [(<- & y & Hy & ->) | [_ Hx]]%list_alter_Some Hfx Hsx; [|by eapply H2]. simplify_eq. by eapply H2.
  - apply Forall_app. by rewrite Forall_singleton.
  - intros i x [Hx | [_ Hx]]%lookup_app_Some Hfx Hsx; [by eapply H2|]. apply list_lookup_singleton_Some in Hx as [_ <-]. congruence.
  - apply Forall_app. rewrite Forall_singleton. split; [done|]. intros Hx. congruence.
  - intros i x [Hx | [Hi Hx]]%lookup_app_Some Hfx Hsx; apply elem_of_app; [left; by eapply H2|].
    apply list_lookup_singleton_Some in Hx as [Hz _]. right. apply list_elem_of_singleton. lia.
  - done.
  - intros i x Hx Hfx Hsx. apply without_elem. split; [|by eapply H2]. intros ->. congruence.
Qed.

(** A settled promise stays settled, and no promise is lost. *)
Lemma evolves_settled s s' cid :
  evolves s s' → cid < length (promises s) → promiseSettled s cid = true → promiseSettled s' cid = true.
Proof.
  intros He Hlt. unfold promiseSettled.
  destruct He as [E1 E2|i c p Hc Hs Hp E1 E2|c Hf Hp E1 E2|c Hf E1 E2|i c Hc Hs E1 E2]; rewrite E1; try done.
  - rewrite list_lookup_alter. case_decide as Hi; [|done]. subst. rewrite Hc. simpl. congruence.
  - by rewrite lookup_app_l.
  - by rewrite lookup_app_l.
Qed.

Lemma evolves_length s s' : evolves s s' → length (promises s) ≤ length (promises s').
Proof.
  intros [E1 E2|i c p Hc Hs Hp E1 E2|c Hf Hp E1 E2|c Hf E1 E2|i c Hc Hs E1 E2]; rewrite E1; [done| | | |done].
  - by rewrite length_alter.
  - rewrite length_app. lia.
  - rewrite length_app. lia.
Qed.

(** ** What a step does to the records *)

(** One record moves; [d]: the shutdown has begun. *)
Inductive recordMove (d : bool) (r : Activation (A := A)) : Activation (A := A) → Prop :=
  | move_react e a : actorReact e (actor r) = Some a → recordMove d r (setActor a r)
  | move_close : d = true → recordMove d r (setActor (actorClose (actor r)) r)
  | move_collect : d = false → collecting r = None → actorPhase (actor r) = Live →
      recordMove d r (setCollecting (Some Disposing) (setActor (actorClose (actor r)) r))
  | move_idle e a : d = false → actorReact e (actor r) = Some a → collecting r = None → actorPhase a = Live →
      recordMove d r (setCollecting (Some Disposing) (setActor (actorClose a) r))
  | move_cleaned : actorPhase (actor r) = Closed → recordMove d r (setCollecting (Some Cleaned) r)
  | move_broken : actorRejected (actor r) = true → recordMove d r (setCollecting (Some Broken) r)
  | move_collected : collecting r = Some Cleaned ∨ collecting r = Some Broken → recordMove d r (setCollecting None r).

Inductive changes s s' : Prop :=
  | changes_same : activations s' = activations s → changes s s'
  | changes_update rid r r' : activations s !! rid = Some r → recordMove (disposed s) r r' →
      activations s' = <[rid := r']> (activations s) → changes s s'
  | changes_new r : disposed s = false → activations s' = activations s ++ [r] → changes s s'.

Lemma changes_collect rid s s' : activations s' = activations (collect rid s).2 → changes s s'.
Proof.
  unfold collect. destruct (activations s !! rid) as [r|] eqn:Er; [|by apply changes_same].
  destruct (collecting r) eqn:Ec; [by apply changes_same|]. destruct (disposed s) eqn:Ed; [by apply changes_same|].
  unfold isLive. case_bool_decide as Hl; [|by apply changes_same]. intros E.
  eapply changes_update; [done| |exact E]. rewrite Ed. by apply (move_collect false r).
Qed.

Lemma changes_register m rf s s' : activations s' = activations (register m rf s).1 → changes s s'.
Proof. unfold register. destruct (disposed s) eqn:Ed; intros E; [by apply changes_same|eapply changes_new; [done|exact E]]. Qed.

Lemma changes_setActor rid r a e s s' :
  activations s !! rid = Some r → actorReact e (actor r) = Some a →
  activations s' = activations (collect rid (setActivation rid (setActor a r) s)).2 → changes s s'.
Proof.
  intros Er Ea. assert (activations s' = <[rid := setActor a r]> (activations s) → changes s s') as Hplain.
  { intros E. apply (changes_update s s' rid r (setActor a r)); [done|by eapply move_react|done]. }
  unfold collect. simpl. rewrite list_lookup_insert_eq by by eapply lookup_lt_Some. simpl.
  destruct (collecting r) eqn:Ec; [done|]. destruct (disposed s) eqn:Ed; [done|]. unfold isLive. simpl. case_bool_decide as Hl; [simpl|done].
  rewrite list_insert_insert_eq. intros E. eapply changes_update; [done| |exact E]. rewrite Ed. by eapply (move_idle false r e a).
Qed.

Lemma reserveTurn_activations p st s : activations (reserveTurn p st s).2 = activations s.
Proof. unfold reserveTurn, create. by repeat case_match; simplify_eq/=. Qed.

Lemma changes_closeNext rest s : disposed s = true → changes s (closeNext rest s).
Proof.
  intros Hd. unfold closeNext. destruct rest as [|rid rest]; [by apply changes_same|].
  destruct (activations s !! rid) as [r|] eqn:Er; [|by apply changes_same].
  eapply changes_update; [done|by apply move_close|done].
Qed.

Lemma changes_collectFor i c rid s : changes s (collectFor i c rid s).
Proof.
  apply (changes_collect rid). unfold collectFor. destruct (collect rid s) as [w s1]. destruct w; [done|].
  by destruct (replyClose_same i c (Some rid) s1) as (? & _).
Qed.

Lemma changes_reserveAgain i o s : changes s (reserveAgain i o s).
Proof.
  apply changes_same. unfold reserveAgain. pose proof (reserveTurn_activations (openProject o) (openStem o) s) as E.
  by destruct (reserveTurn _ _ s).
Qed.

Lemma step_changes t s s' : (disposed s = false → disposeDrain s = None) → step t s = Some s' → changes s s'.
Proof.
  intros Hdr E. destruct t; cbn [step] in E.
  - simplify_eq. apply changes_same. unfold startOpen. pose proof (reserveTurn_activations p st s) as Ea. by destruct (reserveTurn p st s).
  - unfold resumeOpen in E. apply bind_Some in E as (o & Eo & E). destruct (openPoint o); try done;
      apply bind_Some in E as (x & Ex & E); repeat case_match; simplify_eq; by apply changes_reserveAgain || by apply changes_same.
  - simplify_eq. by apply changes_same.
  - unfold managerCreated in E. apply bind_Some in E as (c & Ec & E). destruct (creationPoint c); try done. destruct (fresh c); [done|].
    destruct result as [[sid m]|]; [|simplify_eq; by apply changes_same].
    pose proof (changes_register m (mkSessionRef (creationProject c) sid (creationStem c)) s) as Hr.
    destruct (register m _ s) as [s1 [rid|pt]]; repeat case_match; simplify_eq; first [by apply changes_same | by apply Hr].
  - unfold freshCreated in E. apply bind_Some in E as (c & Ec & E). destruct (creationPoint c); try done. destruct (fresh c); [|done].
    cbn [negb] in E. destruct result as [[[st sid] m]|]; [|simplify_eq; by apply changes_same].
    pose proof (changes_register m (mkSessionRef (creationProject c) sid st) s) as Hr.
    destruct (register m _ s) as [s1 [rid|pt]]; repeat case_match; simplify_eq; first [by apply changes_same | by apply Hr].
  - unfold managerGone in E. apply bind_Some in E as (c & Ec & E). repeat case_match; simplify_eq. by apply changes_same.
  - unfold choicesEnd in E. apply bind_Some in E as (c & Ec & E). destruct (creationPoint c); try done.
    pose proof (changes_collect rid s) as Hc. destruct (collect rid s) as [w s1].
    destruct ok; simplify_eq; [by apply changes_same|by apply Hc].
  - unfold abandonEnd in E. apply bind_Some in E as (c & Ec & E). repeat case_match; simplify_eq. by apply changes_same.
  - unfold forgetCreation in E. apply bind_Some in E as (c & Ec & E). repeat case_match; simplify_eq. by apply changes_same.
  - unfold actorStepAt in E. apply bind_Some in E as (r & Er & E). apply bind_Some in E as (a & Ea & E). simplify_eq.
    case_match; [by eapply changes_setActor|apply (changes_update s _ rid r (setActor a r)); [done|by eapply move_react|done]].
  - unfold disposeRecord in E. apply bind_Some in E as (r & Er & E). destruct (collecting r) as [[]|]; try done.
    repeat case_match; simplify_eq; (eapply changes_update; [done| |done]); first [by apply move_cleaned | by apply move_broken].
  - unfold collected in E. apply bind_Some in E as (r & Er & E). destruct (collecting r) as [[]|] eqn:Ec; simplify_eq;
      (eapply changes_update; [done|apply move_collected; tauto|done]).
  - simplify_eq. by apply changes_same.
  - unfold resumeClose in E. apply bind_Some in E as (c & Ec & E). pose proof (λ o, replyClose_same i c o s) as Hs.
    destruct (closePoint c) as [cid|[rid|]|rid| |]; try done; try apply bind_Some in E as (x & Ex & E);
      repeat case_match; simplify_eq; first [by apply changes_collectFor | by apply changes_same
        | by destruct (Hs None) as (? & _); apply changes_same | by destruct (Hs (Some rid)) as (? & _); apply changes_same].
  - simplify_eq. unfold dispose. case_match; by apply changes_same.
  - assert (disposed s = true) as Hd. { apply not_false_iff_true. intros Hd. unfold drainStep in E. by rewrite Hdr in E. }
    unfold drainStep in E. destruct (disposeDrain s) as [[]|]; try done.
    + case_match; simplify_eq. by apply changes_closeNext.
    + apply bind_Some in E as (r & Er & E). repeat case_match; simplify_eq; [by apply changes_closeNext|by apply changes_same].
  - simplify_eq. by apply changes_same.
Qed.

(** *** What no move undoes *)

Definition persists (r r' : Activation (A := A)) : Prop :=
  (actorPhase (actor r) ≠ Live → actorPhase (actor r') ≠ Live) ∧
  (actorPhase (actor r) = Closed → actorPhase (actor r') = Closed) ∧
  (actorRejected (actor r) = true → actorRejected (actor r') = true).

Lemma persists_react e a r : actorWf (actor r) → actorReact e (actor r) = Some a → persists r (setActor a r).
Proof.
  intros Hwf E. split_and!; simpl; [|by apply (react_closed e (actor r) a)|by apply (react_rejected e (actor r) a)].
  intros Hl Hl'. by apply Hl, (react_live e (actor r) a).
Qed.

Lemma persists_close r : actorWf (actor r) → persists r (setActor (actorClose (actor r)) r).
Proof.
  intros Hwf. destruct (decide (actorPhase (actor r) = Live)) as [Hl | Hl]; [|unfold persists; simpl; by rewrite close_ended].
  split_and!; [done|congruence|]. intros Hr%rejected_not_live; [congruence|done].
Qed.

Lemma recordMove_persists d r r' : actorWf (actor r) → recordMove d r r' → persists r r'.
Proof.
  intros Hwf Hm. destruct Hm as [e a E|Hd|Hd Hc Hl|e a Hd E Hc Hl|Hp|Hr|Hc]; try done.
  - by eapply persists_react.
  - by apply persists_close.
  - exact (persists_close r Hwf).
  - pose proof (persists_react e a r Hwf E) as (H1 & H2 & H3). pose proof (react_wf e _ _ Hwf E) as Hwfa.
    pose proof (persists_close (setActor a r) Hwfa) as (H4 & H5 & H6). split_and!; simpl in *; auto.
Qed.

Definition recordsPersist s s' : Prop :=
  ∀ rid r, activations s !! rid = Some r → ∃ r', activations s' !! rid = Some r' ∧ persists r r'.

Lemma changes_persist s s' : base s → changes s s' → recordsPersist s s'.
Proof.
  intros Hb [E|rid r x Hr Hm E|x Hd E] i y Hy; rewrite E.
  - by exists y.
  - destruct (decide (i = rid)) as [-> | Hne]; [|rewrite list_lookup_insert_ne by done; by exists y]. simplify_eq.
    rewrite list_lookup_insert_eq by by eapply lookup_lt_Some. exists x. split; [done|]. eapply recordMove_persists; [|done]. by eapply base_wf.
  - exists y. split; [|done]. by apply lookup_app_l_Some.
Qed.

(** *** Once the shutdown began *)

Definition collectingKept (r : Activation (A := A)) : Prop :=
  match collecting r with
  | Some Cleaned => actorPhase (actor r) = Closed
  | Some Broken => actorRejected (actor r) = true
  | _ => True
  end.

Definition advances (r r' : Activation (A := A)) : Prop :=
  (unfinished r' → unfinished r) ∧ (collectingKept r → collectingKept r') ∧
  (collectingKept r → collecting r' = None → collecting r = None ∨ ~ unfinished r').

Definition recordsAdvance s s' : Prop :=
  length (activations s') = length (activations s) ∧
  ∀ rid r', activations s' !! rid = Some r' → ∃ r, activations s !! rid = Some r ∧ advances r r'.

(** A move of the actor alone. *)
Lemma advances_actor r a : persists r (setActor a r) → (unfinished (setActor a r) → unfinished r) → advances r (setActor a r).
Proof.
  intros (_ & Hc & Hr) Hu. split_and!; [done| |intros _ ?; by left]. unfold collectingKept. simpl in *.
  destruct (collecting r) as [[]|]; auto.
Qed.

Lemma recordMove_advances r r' : actorWf (actor r) → recordMove true r r' → advances r r'.
Proof.
  intros Hwf Hm. destruct Hm as [e a E|Hd|Hd Hc Hl|e a Hd E Hc Hl|Hp|Hr|Hc]; try done.
  - apply advances_actor; [by eapply persists_react|by eapply react_unfinished].
  - apply advances_actor; [by apply persists_close|by apply close_unfinished].
  - unfold advances, collectingKept, unfinished. simpl. destruct Hc as [-> | ->]; (split_and!; [done|done|]); intros Hk _; right; intros [? ?]; congruence.
Qed.

Lemma changes_advance s s' : base s → disposed s = true → changes s s' → recordsAdvance s s'.
Proof.
  intros Hb Hd [E|rid r x Hr Hm E|x Hd' E]; [| |congruence]; unfold recordsAdvance; rewrite E.
  - split; [done|]. intros i y Hy. exists y. split; [done|]. split_and!; auto.
  - split; [apply length_insert|]. intros i y [(<- & <- & _) | [_ Hy]]%list_lookup_insert_Some.
    + exists r. split; [done|]. rewrite Hd in Hm. apply recordMove_advances; [by eapply base_wf|done].
    + exists y. split; [done|]. split_and!; auto.
Qed.

(** ** The drain *)

(** Where the drain stands, what may still be unfinished: [n] creations and [m]
    records existed when it began. *)
Definition drainOk (n m : nat) s : Prop :=
  disposed s = true ∧ length (activations s) = m ∧ n ≤ length (promises s) ∧
  (∀ rid r, activations s !! rid = Some r → collectingKept r) ∧
  match disposeDrain s with
  | Some (AwaitSettled rids cids closing) =>
    (∀ rid r, activations s !! rid = Some r → unfinished r → rid ∈ closing ∨ rid ∈ rids) ∧
    (∀ rid r, rid ∈ rids → activations s !! rid = Some r → collecting r = None → ~ unfinished r) ∧
    (∀ cid, cid < n → promiseSettled s cid = true ∨ cid ∈ cids)
  | Some (ClosingRecord rid rest) =>
    (∀ i r, activations s !! i = Some r → unfinished r → i = rid ∨ i ∈ rest) ∧ (∀ cid, cid < n → promiseSettled s cid = true)
  | Some Drained =>
    (∀ i r, activations s !! i = Some r → ~ unfinished r) ∧ (∀ cid, cid < n → promiseSettled s cid = true)
  | Some DrainThrew => True
  | None => False
  end.

Lemma drainOk_other n m s s' :
  drainOk n m s → sameDrain s s' → recordsAdvance s s' → evolves s s' → drainOk n m s'.
Proof.
  intros (Hd & Hm & Hn & Hk & Hdr) [E1 E2] [El Ha] He. pose proof (evolves_length s s' He) as Hlen.
  assert (∀ cid, cid < n → promiseSettled s cid = true → promiseSettled s' cid = true) as Hset.
  { intros cid Hlt. apply evolves_settled; [done|lia]. }
  assert (∀ i r', activations s' !! i = Some r' → unfinished r' → ∃ r, activations s !! i = Some r ∧ unfinished r) as Hback.
  { intros i r' Hr' Hu. destruct (Ha i r' Hr') as (r & Hr & Hadv & _). exists r. split; [done|by apply Hadv]. }
  unfold drainOk. rewrite E1, E2, El. split_and!; [done|done|lia| |].
  - intros i r' Hr'. destruct (Ha i r' Hr') as (r & Hr & _ & Hkept & _). by apply Hkept, (Hk i).
  - destruct (disposeDrain s) as [[rids cids closing|rid rest| |]|]; [|destruct Hdr as [H1 H2]; split|destruct Hdr as [H1 H2]; split|done|done].
    + destruct Hdr as (H1 & H2 & H3). split_and!.
      * intros i r' Hr' Hu. destruct (Hback i r' Hr' Hu) as (r & Hr & Hur). by eapply H1.
      * intros i r' Hin Hr' Hc Hu. destruct (Ha i r' Hr') as (r & Hr & Hadv & _ & Hnone).
        destruct (Hnone (Hk i r Hr) Hc) as [Hc' | Hn']; [|done]. by destruct (H2 i r Hin Hr Hc' (Hadv Hu)).
      * intros cid Hlt. destruct (H3 cid Hlt) as [Hs | Hs]; [left; by apply Hset|by right].
    + intros i r' Hr' Hu. destruct (Hback i r' Hr' Hu) as (r & Hr & Hur). by eapply H1.
    + intros cid Hlt. by apply Hset, H2.
    + intros i r' Hr' Hu. destruct (Hback i r' Hr' Hu) as (r & Hr & Hur). by eapply H1.
    + intros cid Hlt. by apply Hset, H2.
Qed.

Lemma promiseSettled_same s s' : promises s' = promises s → ∀ cid, promiseSettled s' cid = promiseSettled s cid.
Proof. intros E cid. unfold promiseSettled. by rewrite E. Qed.

Lemma closeNext_drainOk n m rest s :
  base s → disposed s = true → length (activations s) = m → n ≤ length (promises s) →
  (∀ rid r, activations s !! rid = Some r → collectingKept r) →
  (∀ i r, activations s !! i = Some r → unfinished r → i ∈ rest) → (∀ cid, cid < n → promiseSettled s cid = true) →
  drainOk n m (closeNext rest s).
Proof.
  intros Hb Hd Hm Hn Hk Hu Hs. destruct (changes_advance s _ Hb Hd (changes_closeNext rest s Hd)) as [El Ha]. destruct (closeNext_promises rest s) as [Ep _].
  destruct (closeNext_drain rest s) as [Ed _]. unfold drainOk. rewrite Ed, El, Ep. split_and!; [done|done|done| |].
  - intros i r' Hr'. destruct (Ha i r' Hr') as (r & Hr & _ & Hkept & _). by apply Hkept, (Hk i).
  - assert (∀ i r', activations (closeNext rest s) !! i = Some r' → unfinished r' → i ∈ rest) as Hu'.
    { intros i r' Hr' Hun. destruct (Ha i r' Hr') as (r & Hr & Hadv & _). eapply Hu; [done|by apply Hadv]. }
    destruct rest as [|rid rest].
    + simpl. split; [|by intros cid ?%Hs]. intros i r Hr Hun. by apply (Hu' i r), not_elem_of_nil in Hun.
    + assert (disposeDrain (closeNext (rid :: rest) s) = Some (ClosingRecord rid rest)) as -> by (unfold closeNext; by case_match).
      split; [|intros cid Hlt; rewrite (promiseSettled_same s); [by apply Hs|done]]. intros i r Hr Hun. by apply elem_of_cons, (Hu' i r).
Qed.

Lemma drainStep_drainOk n m s s' : base s → drainOk n m s → drainStep s = Some s' → drainOk n m s'.
Proof.
  intros Hb (Hd & Hm & Hn & Hk & Hdr) E. unfold drainStep in E. destruct (disposeDrain s) as [[rids cids closing|rid rest| |]|] eqn:Edr; try done.
  - destruct (forallb _ rids && _) eqn:Eall; simplify_eq. apply andb_prop in Eall as [E1 E2]. destruct Hdr as (H1 & H2 & H3).
    rewrite forallb_forall in E1, E2. apply closeNext_drainOk; [done..| |].
    + intros i r Hr Hun. destruct (H1 i r Hr Hun) as [Hi | Hi]; [done|]. exfalso. apply (H2 i r Hi Hr); [|done].
      apply list_elem_of_In, E1 in Hi. unfold collectionSettled in Hi. rewrite Hr in Hi. by split_bools.
    + intros cid Hlt. destruct (H3 cid Hlt) as [Hs | Hs]; [done|]. by apply list_elem_of_In, E2 in Hs.
  - apply bind_Some in E as (r & Er & E). destruct Hdr as [H1 H2]. case_decide as Hp; simplify_eq.
    + apply closeNext_drainOk; [done..| |done]. intros i x Hx Hun. destruct (H1 i x Hx Hun) as [-> | ?]; [|done].
      simplify_eq. by destruct Hun.
    + case_match; simplify_eq. split_and!; done.
Qed.

(** The shutdown begins: what is unfinished is in its snapshot. *)
Lemma dispose_drainOk s :
  registry_ok s → promises_ok s → disposed s = false → drainOk (length (promises s)) (length (activations s)) (dispose s).
Proof.
  intros Hok [Hfit Htr] Hd. destruct (ok_indexed s Hok Hd) as [Hi _]. pose proof (ok_drain s Hok Hd) as Hdr.
  unfold dispose, drainOk. rewrite Hdr. simpl. split_and!; [done|done|done| | | |].
  - intros rid r Hr. pose proof (index_state s Hi rid r Hr) as Hag. unfold collectingAgrees, collectingKept in *.
    by destruct (collecting r) as [[]|].
  - intros rid r Hr Hu. assert (held r) as Hh by by (apply unfinished_held; [eapply index_state|]).
    destruct (index_held s Hi rid r Hr Hh) as (_ & _ & Hin). rewrite !list_elem_of_filter.
    destruct (hasCollection s rid); auto.
  - intros rid r [Hc Hin]%list_elem_of_filter Hr Hnone. unfold hasCollection in Hc. rewrite Hr, Hnone in Hc. by split_bools.
  - intros cid Hlt. destruct (lookup_lt_is_Some_2 _ _ Hlt) as [c Hc]. unfold promiseSettled. simpl. rewrite Hc.
    destruct (creationSettled c) eqn:Es; [by left|right]. apply elem_of_app. destruct (fresh c) eqn:Ef; [right; by eapply Htr|left].
    destruct (Forall_lookup_1 _ _ _ _ Hfit Hc Ef) as [? | Hfl]; [congruence|].
    pose proof (index_flight s Hi cid c Hc (conj Ef Hfl)) as Hp. apply list_elem_of_fmap. exists (creationKey c, cid). split; [done|].
    by apply elem_of_map_to_list.
Qed.

Lemma reaches_promises s s' : promises_ok s → reaches s s' → promises_ok s'.
Proof.
  intros Hok. induction 1 as [|s t u v Hr IH Ht E]; [done|]. specialize (IH Hok). eapply evolves_ok; [done|].
  eapply step_evolves; [by destruct IH|done].
Qed.

Lemma empty_promises fs : promises_ok (emptyRegistry fs).
Proof. split; [done|]. by intros cid c ?. Qed.

Lemma reaches_drainOk n m s s' : registry_ok s → promises_ok s → drainOk n m s → reaches s s' → drainOk n m s'.
Proof.
  intros Hok Hpr Hdr. induction 1 as [|s t u v Hr IH Ht E]; [done|]. specialize (IH Hok Hpr Hdr).
  pose proof (reaches_ok s u Hok Hr) as [Hb _ _ _]. pose proof (reaches_promises s u Hpr Hr) as [Hfit _].
  assert (disposed u = true) as Hd by by destruct IH.
  destruct (step_cases t u v E) as [-> | [-> | [_ Hsame]]].
  - simpl in E. simplify_eq. unfold dispose. destruct (disposeDrain u) eqn:Ed; [done|]. destruct IH as (_ & _ & _ & _ & IH). by rewrite Ed in IH.
  - by eapply drainStep_drainOk.
  - eapply drainOk_other; [done|done| |by eapply step_evolves].
    apply changes_advance; [done|done|]. eapply step_changes; [congruence|done].
Qed.

(** ** The replies of a close *)

(** The runtime a close reply speaks of is gone; an archive is also answered for
    one whose disposal failed, and during the shutdown nothing is awaited. *)
Definition replyGood (archive : bool) (rid : nat) s : Prop :=
  ∃ r, activations s !! rid = Some r ∧
    (actorPhase (actor r) = Closed ∨ (archive = true ∧ actorRejected (actor r) = true) ∨ disposed s = true).

Definition closePointOk (c : CloseCall) s : Prop :=
  match closePoint c with
  | WaitCollect rid => ∃ r, activations s !! rid = Some r ∧ (actorPhase (actor r) ≠ Live ∨ disposed s = true)
  | CloseReplied (Some rid) => replyGood (archives c) rid s
  | _ => True
  end.

Definition closesOk s : Prop := ∀ i c, closeCalls s !! i = Some c → closePointOk c s.

Lemma closePointOk_persist c s s' :
  recordsPersist s s' → (disposed s = true → disposed s' = true) → closePointOk c s → closePointOk c s'.
Proof.
  intros Hp Hd. unfold closePointOk, replyGood. destruct (closePoint c) as [|[]|rid|[rid|]|]; try done.
  - intros (r & Hr & Hx). destruct (Hp rid r Hr) as (r' & Hr' & Hl & _ & _). exists r'. split; [done|]. tauto.
  - intros (r & Hr & Hx). destruct (Hp rid r Hr) as (r' & Hr' & _ & Hc & Hrej). exists r'. split; [done|]. tauto.
Qed.

(** A step that leaves the calls of [closeSession] alone. *)
Lemma closesOk_same s s' :
  recordsPersist s s' → (disposed s = true → disposed s' = true) → closeCalls s' = closeCalls s → closesOk s → closesOk s'.
Proof. intros Hp Hd E H i c Hc. rewrite E in Hc. eapply closePointOk_persist; [done|done|by eapply H]. Qed.

Lemma closesOk_point i c p s :
  closeCalls s !! i = Some c → closePointOk (mkCloseCall (archives c) (closeProject c) (closeStem c) p) s → closesOk s →
  closesOk (setClosePoint i p s).
Proof.
  intros Hc Hp H j x [(<- & y & Hy & ->) | [_ Hx]]%list_alter_Some; [|by apply (H j)]. simplify_eq. exact Hp.
Qed.

Lemma replyClose_closes i c o s :
  closeCalls s !! i = Some c → closePointOk (mkCloseCall (archives c) (closeProject c) (closeStem c) (CloseReplied o)) s →
  closesOk s → closesOk (replyClose i c o s).
Proof.
  intros Hc Hp H. pose proof (closesOk_point i c (CloseReplied o) s Hc Hp H) as H1.
  pose proof (closesOk_point i c (CloseReplied o) (setFiles (files s ∖ {[addressKey (closeProject c) (closeStem c)]}) s) Hc Hp H) as H2.
  clear Hp. unfold replyClose. destruct (archives c); [|done]. case_decide; [done|by apply (closesOk_point i c CloseThrew)].
Qed.

Lemma recordsPersist_refl s : recordsPersist s s.
Proof. intros rid r Hr. by exists r. Qed.

(** After [collect] the caller waits for a record that is not live, or goes on. *)
Lemma collect_result rid s r :
  base s → (disposed s = false → indexed s) → activations s !! rid = Some r →
  if (collect rid s).1 then ∃ r', activations (collect rid s).2 !! rid = Some r' ∧ (actorPhase (actor r') ≠ Live ∨ disposed s = true)
  else (collect rid s).2 = s ∧
    (actorPhase (actor r) = Closed ∨ (collecting r = None ∧ actorPhase (actor r) ≠ Live ∧ actorRejected (actor r) = true) ∨ disposed s = true).
Proof.
  intros Hb Hi Hr. unfold collect. rewrite Hr. destruct (disposed s) eqn:Ed.
  { destruct (collecting r); [exists r; tauto|split; [done|tauto]]. }
  pose proof (index_state s (Hi eq_refl) rid r Hr) as Hag. pose proof (base_wf s Hb _ _ Hr) as Hwf. unfold collectingAgrees in Hag.
  destruct (collecting r) as [q|] eqn:Ec.
  - exists r. split; [done|left]. destruct q; [done|by rewrite Hag|]. apply rejected_not_live in Hag; [|done]. by rewrite Hag.
  - unfold isLive. case_bool_decide as Hl; simpl.
    + rewrite list_lookup_insert_eq by by eapply lookup_lt_Some. eexists. split; [done|left]. simpl.
      destruct (close_live _ Hwf Hl) as [-> _]. done.
    + split; [done|]. destruct Hag as [?|[?|?]]; tauto.
Qed.

Lemma collect_closeCalls rid s : closeCalls (collect rid s).2 = closeCalls s.
Proof. unfold collect. by repeat case_match. Qed.

Lemma collectFor_closes i c rid r s :
  base s → (disposed s = false → indexed s) → closeCalls s !! i = Some c → activations s !! rid = Some r →
  (archives c = false → isLive r = true ∧ collecting r = None) → closesOk s → closesOk (collectFor i c rid s).
Proof.
  intros Hb Hi Hc Hr Hguard H. pose proof (collect_result rid s r Hb Hi Hr) as Hres.
  assert (closesOk (collect rid s).2) as H1.
  { apply (closesOk_same s); [by apply changes_persist; [|eapply changes_collect]| |by apply collect_closeCalls|done].
    destruct (collect_drain rid s) as [-> _]. done. }
  pose proof (collect_closeCalls rid s) as Ecc. unfold collectFor. pose proof (collect_drain rid s) as [Ed _].
  destruct (collect rid s) as [w s1]. simpl in *. destruct w.
  - eapply closesOk_point; [by rewrite Ecc| |done]. unfold closePointOk. simpl. by rewrite Ed.
  - destruct Hres as [-> Hphase]. apply replyClose_closes; [done| |done]. exists r. split; [done|].
    destruct (archives c) eqn:Ea; [tauto|]. destruct (Hguard eq_refl) as [Hl Hn]. unfold isLive in Hl. split_bools. tauto.
Qed.

Lemma awaitSettled_point p st ar q st' s : closePointOk (mkCloseCall ar q st' (awaitSettled p st s)) s.
Proof. unfold awaitSettled, closePointOk. simpl. by destruct (pending s !! addressKey p st). Qed.

Lemma resumeClose_closes i s s' :
  base s → (disposed s = false → indexed s) → closesOk s → resumeClose i s = Some s' → closesOk s'.
Proof.
  intros Hb Hi H E. unfold resumeClose in E. apply bind_Some in E as (c & Ec & E).
  destruct (closePoint c) as [cid|[rid|]|rid| |] eqn:Ep; try done.
  - apply bind_Some in E as (x & Ex & E). case_match; simplify_eq. eapply closesOk_point; [done|apply awaitSettled_point|done].
  - apply bind_Some in E as (r & Er & E). case_match eqn:Eg; simplify_eq; [by apply (closesOk_point i c CloseThrew)|].
    eapply collectFor_closes; [done|done|done|done| |done]. intros Ea. rewrite Ea in Eg. simpl in Eg.
    apply orb_false_iff in Eg as [E1 E2]. apply negb_false_iff in E1. split; [done|]. split_bools. by apply eq_None_not_Some.
  - simplify_eq. case_match; [by apply replyClose_closes|by apply (closesOk_point i c CloseThrew)].
  - apply bind_Some in E as (r & Er & E). destruct (collecting r) eqn:Ec'; simplify_eq. case_match eqn:Erej; [by apply (closesOk_point i c CloseThrew)|].
    apply replyClose_closes; [done| |done]. exists r. split; [done|]. pose proof (H i c Ec) as Hpt. unfold closePointOk in Hpt.
    rewrite Ep in Hpt. destruct Hpt as (r' & Hr' & Hl). simplify_eq. destruct Hl as [Hl | Hl]; [|tauto].
    destruct (disposed s) eqn:Ed; [tauto|]. pose proof (index_state s (Hi eq_refl) rid r Er) as Hag. unfold collectingAgrees in Hag.
    rewrite Ec' in Hag. left. destruct Hag as [?|[?|?]]; [done|done|congruence].
Qed.

Lemma register_closeCalls m rf s : closeCalls (register m rf s).1 = closeCalls s.
Proof. unfold register. by destruct (disposed s). Qed.

Lemma reserveTurn_closeCalls p st s : closeCalls (reserveTurn p st s).2 = closeCalls s.
Proof. unfold reserveTurn, create. by repeat case_match; simplify_eq/=. Qed.

Lemma reserveAgain_closeCalls i o s : closeCalls (reserveAgain i o s) = closeCalls s.
Proof. unfold reserveAgain. pose proof (reserveTurn_closeCalls (openProject o) (openStem o) s) as E. by destruct (reserveTurn _ _ s). Qed.

(** Every other step leaves the calls of close alone. *)
Lemma step_closeCalls t s s' :
  (∀ ar p st, t ≠ StartClose ar p st) → (∀ i, t ≠ ResumeClose i) → step t s = Some s' → closeCalls s' = closeCalls s.
Proof.
  intros H1 H2 E. destruct t; cbn [step] in E; try (by destruct (H1 _ _ _ eq_refl)); try (by destruct (H2 _ eq_refl)).
  - simplify_eq. unfold startOpen. pose proof (reserveTurn_closeCalls p st s) as Ea. by destruct (reserveTurn p st s).
  - unfold resumeOpen in E. apply bind_Some in E as (o & Eo & E). destruct (openPoint o); try done;
      apply bind_Some in E as (x & Ex & E); repeat case_match; simplify_eq; first [done | apply reserveAgain_closeCalls].
  - by simplify_eq.
  - unfold managerCreated in E. apply bind_Some in E as (c & Ec & E). destruct (creationPoint c); try done. destruct (fresh c); [done|].
    destruct result as [[sid m]|]; [|by simplify_eq]. pose proof (register_closeCalls m (mkSessionRef (creationProject c) sid (creationStem c)) s) as Hr.
    destruct (register m _ s) as [s1 [rid|pt]]; by repeat case_match; simplify_eq.
  - unfold freshCreated in E. apply bind_Some in E as (c & Ec & E). destruct (creationPoint c); try done. destruct (fresh c); [|done]. cbn [negb] in E.
    destruct result as [[[st sid] m]|]; [|by simplify_eq]. pose proof (register_closeCalls m (mkSessionRef (creationProject c) sid st) s) as Hr.
    destruct (register m _ s) as [s1 [rid|pt]]; by repeat case_match; simplify_eq.
  - unfold managerGone in E. apply bind_Some in E as (c & Ec & E). by repeat case_match; simplify_eq.
  - unfold choicesEnd in E. apply bind_Some in E as (c & Ec & E). destruct (creationPoint c); try done.
    pose proof (collect_closeCalls rid s) as Hc. destruct (collect rid s) as [w s1]. destruct ok; by simplify_eq.
  - unfold abandonEnd in E. apply bind_Some in E as (c & Ec & E). by repeat case_match; simplify_eq.
  - unfold forgetCreation in E. apply bind_Some in E as (c & Ec & E). by repeat case_match; simplify_eq.
  - unfold actorStepAt in E. apply bind_Some in E as (r & Er & E). apply bind_Some in E as (a & Ea & E). simplify_eq.
    case_match; [|done]. apply (collect_closeCalls rid (setActivation rid (setActor a r) s)).
  - unfold disposeRecord in E. apply bind_Some in E as (r & Er & E). by repeat case_match; simplify_eq.
  - unfold collected in E. apply bind_Some in E as (r & Er & E). by repeat case_match; simplify_eq.
  - simplify_eq. unfold dispose. by case_match.
  - assert (∀ rest, closeCalls (closeNext rest s) = closeCalls s) as Hn by by (intros [|i rest]; unfold closeNext; [|case_match]).
    unfold drainStep in E. destruct (disposeDrain s) as [[]|]; try done; [case_match; simplify_eq; apply Hn|].
    apply bind_Some in E as (r & Er & E). repeat case_match; simplify_eq; [apply Hn|done].
  - by simplify_eq.
Qed.

Lemma step_closes t s s' : registry_ok s → closesOk s → step t s = Some s' → closesOk s'.
Proof.
  intros Hok H E. pose proof (ok_base s Hok) as Hb.
  assert (recordsPersist s s') as Hp. { apply changes_persist; [done|]. eapply step_changes; [by apply ok_drain|done]. }
  assert (disposed s = true → disposed s' = true) as Hd.
  { intros Hd. destruct (step_cases t s s' E) as [-> | [-> | [_ [-> _]]]]; [|by rewrite (drainStep_disposed s s' E)|done].
    simpl in E. simplify_eq. by apply dispose_disposed. }
  destruct t; try by (eapply closesOk_same; [done|done| |done]; eapply step_closeCalls; [intros ar q st1 [=]|intros i0 [=]|exact E]).
  - cbn [step] in E. simplify_eq. intros i c Hc. simpl in Hc. apply lookup_app_Some in Hc as [Hc | [_ Hc]].
    + eapply closePointOk_persist; [exact Hp|done|by eapply H].
    + apply list_lookup_singleton_Some in Hc as [_ <-]. eapply closePointOk_persist; [exact Hp|done|apply awaitSettled_point].
  - eapply resumeClose_closes; [done| |done|done]. intros Hnd. by destruct (ok_indexed s Hok Hnd).
Qed.

Lemma reaches_closes fs s : reaches (emptyRegistry fs) s → closesOk s.
Proof.
  intros Hr. remember (emptyRegistry fs) as s0 eqn:E0. induction Hr as [s|s t u v Hr IH Ht E]; subst; [by intros i c ?|].
  eapply step_closes; [|by apply IH|done]. eapply reaches_ok; [apply empty_ok|done].
Qed.

End Shutdown.
