(* ===== verification/Worker.v ===== *)
(** * The sessions of one worker

    The registry over the session actor: [Actor] implements [ActorSpec], so the
    theorems of [Activations] and [Shutdown] hold of the two together.  They
    are stated here, with runs of the composed system as witnesses. *)

From S2P Require Export Shutdown.

(** ** The actor implements what the registry asks *)

(** Events move the phase and [close] forward only where [close] awaits them. *)
Lemma react_phase e a b : react e a = Some b →
  (phase b = phase a ∧ closed b = closed a) ∨
  (phase b = phase a ∧ (closed a = Some AwaitMutations ∨ closed a = Some AwaitDispose)) ∨
  (phase b = Closed ∧ ∃ w, closed a = Some (AwaitTracked w)).
Proof.
  assert (∀ ns u, phase (stopAll ns u) = phase u ∧ closed (stopAll ns u) = closed u) as Hstop.
  { intros ns u. by destruct (stopAll_caps ns u) as (_ & _ & ? & ? & _). }
  intros E. destruct e; cbn [react] in E.
  - left. unfold commandOp in E. by repeat case_match; simplify_eq.
  - left. by repeat case_match; simplify_eq.
  - left. unfold mutateOp in E. by repeat case_match; simplify_eq.
  - left. by apply fmap_Some in E as (s & _ & ->).
  - left. by apply fmap_Some in E as (s & _ & ->).
  - left. by simplify_eq.
  - left. unfold observe in E. by repeat case_match; simplify_eq.
  - left. simplify_eq. unfold releaseObservation. case_match; [|done]. apply (Hstop [n] a).
  - left. simplify_eq. unfold release. case_match; [|done]. case_match; [done|].
    case_match; [|apply (Hstop (owned c0) a)]. unfold armIdle. case_match; apply (Hstop (owned c0) a).
  - left. simplify_eq. unfold armIdle. by case_match.
  - left. case_match; simplify_eq. unfold idleFires, maybeCollect, armIdle. by repeat case_match.
  - left. by simplify_eq.
  - left. by apply fmap_Some in E as (s & _ & ->).
  - right; left. unfold mutationsClosed in E. repeat case_match; simplify_eq. split; [done|by left].
  - right; left. unfold Actor.disposed in E. repeat case_match; simplify_eq; (split; [done|by right]).
  - right; right. unfold trackedSettled in E. repeat case_match; simplify_eq. split; [done|by eexists].
Qed.

(** [close] rejected. *)
Definition closeRejected (a : SessionActor) : bool := bool_decide (closed a = Some CloseRejected).

Lemma close_phase a : actor_ok a → match closed a with
  | None => phase a = Live
  | Some CloseResolved => phase a = Closed
  | Some _ => phase a = Closing
  end.
Proof. intros [_ _ Hc _]. unfold close_ok in Hc. destruct (closed a) as [[]|]; by destruct_and?. Qed.

Lemma react_live_iff e a b : actor_ok a → react e a = Some b → phase b = Live ↔ phase a = Live.
Proof.
  intros Hok E. pose proof (close_phase a Hok) as Hp. destruct (react_phase e a b E) as [[-> _] | [[-> _] | [-> [w Hw]]]]; [done|done|].
  rewrite Hw in Hp. rewrite Hp. split; congruence.
Qed.

Lemma react_keeps_closed e a b : react e a = Some b → phase a = Closed → phase b = Closed.
Proof. intros E Hp. destruct (react_phase e a b E) as [[-> _] | [[-> _] | [-> _]]]; done. Qed.

Lemma react_keeps_rejected e a b : react e a = Some b → closeRejected a = true → closeRejected b = true.
Proof.
  unfold closeRejected. rewrite !bool_decide_eq_true. intros E Hr.
  destruct (react_phase e a b E) as [[_ ->] | [[_ [Hc | Hc]] | [_ [w Hc]]]]; [done|congruence..].
Qed.

Lemma idle_only_live e a b : react e a = Some b → callsOnIdle e a = true → phase b = Live.
Proof.
  intros E Hi. destruct e; try done. cbn [react callsOnIdle] in *. apply andb_prop in Hi as [Ht Hi]. rewrite Ht in E. simplify_eq.
  unfold idleFires, maybeCollect in *. simpl in *. case_bool_decide as Hp; [|done]. by repeat case_match.
Qed.

Lemma closeActor_live a : actor_ok a → phase a = Live → phase (closeActor a) = Closing ∧ closeRejected (closeActor a) = false.
Proof. intros [_ _ Hc _] Hp. pose proof (live_open a Hc Hp) as E. unfold closeActor. by rewrite E. Qed.

Lemma closeActor_ended a : actor_ok a → phase a ≠ Live → closeActor a = a.
Proof. intros [_ _ Hc _] Hp. destruct (not_live_closed a Hc Hp) as [p E]. unfold closeActor. by rewrite E. Qed.

Lemma rejected_closing a : actor_ok a → closeRejected a = true → phase a = Closing.
Proof. intros Hok Hr%bool_decide_eq_true. pose proof (close_phase a Hok) as Hp. by rewrite Hr in Hp. Qed.

Lemma create_actor_ok (m : Manager * option Z * option Z) :
  freshManager m.1.1 →
  actor_ok (createSessionActor m.1.1 m.1.2 m.2) ∧ phase (createSessionActor m.1.1 m.1.2 m.2) = Live ∧
  attended (createSessionActor m.1.1 m.1.2 m.2).
Proof. intros Hm. split_and!; [by apply create_ok|done|by intros _ ?]. Qed.

(** A manager comes with the delays of the idle policy. *)
#[export] Instance sessionActorSpec : ActorSpec SessionActor := {
  actorEvent := Actor.ActorEvent;
  actorManager := Manager * option Z * option Z;
  actorCreate := λ m, createSessionActor m.1.1 m.1.2 m.2;
  actorReact := react;
  actorClose := closeActor;
  actorPhase := phase;
  actorRejected := closeRejected;
  actorIdle := callsOnIdle;
  actorWf := actor_ok;
  actorAttended := attended;
  managerFresh := λ m, freshManager m.1.1;
  create_spec := create_actor_ok;
  react_wf := react_ok;
  close_wf := closeActor_ok;
  react_live := react_live_iff;
  react_closed := react_keeps_closed;
  Registry.react_rejected := react_keeps_rejected;
  Registry.react_attended := Actor.react_attended;
  ended_attended := λ a Hp Hl, False_ind _ (Hp Hl);
  idle_live := λ e a b _, idle_only_live e a b;
  close_live := closeActor_live;
  close_ended := closeActor_ended;
  rejected_not_live := rejected_closing
}.

(** ** Runs *)

Definition Sessions : Type := Registry (A := SessionActor).

Fixpoint runSteps (ts : list Step) (s : Sessions) : option Sessions :=
  match ts with
  | [] => Some s
  | t :: ts => step t s ≫= runSteps ts
  end.

Lemma reaches_trans (s u v : Sessions) : reaches s u → reaches u v → reaches s v.
Proof. intros Hsu Huv. induction Huv as [|u t w v Huw IH Ht E]; [done|]. eapply reaches_step; [by apply IH|done|done]. Qed.

Lemma runSteps_reaches ts (s s' : Sessions) : Forall stepAdmitted ts → runSteps ts s = Some s' → reaches s s'.
Proof.
  revert s. induction ts as [|t ts IH]; simpl; intros s Ht E; [simplify_eq; apply reaches_refl|].
  apply Forall_cons in Ht as [Ht Hts]. apply bind_Some in E as (u & Eu & E).
  apply (reaches_trans _ u); [|by apply IH]. eapply reaches_step; [apply reaches_refl|done|done].
Qed.

(** A worker that has just started, over some session files. *)
Definition startWorker (fs : gset string) : Sessions := emptyRegistry fs.

Definition demoKey : string := addressKey "p" "a".

Definition demoRun (ts : list Step) : Sessions := default (startWorker {[demoKey]}) (runSteps ts (startWorker {[demoKey]})).

Lemma demoRun_reaches ts : Forall stepAdmitted ts → is_Some (runSteps ts (startWorker {[demoKey]})) → reaches (startWorker {[demoKey]}) (demoRun ts).
Proof. intros Ht [s E]. unfold demoRun. rewrite E. by eapply runSteps_reaches. Qed.

Definition demoMade : Manager * option Z * option Z := (demoManager, None, None).

(** Two opens share one creation; the session is closed while a third one waits. *)
Definition opened : list Step :=
  [StartOpen "p" "a"; StartOpen "p" "a"; ManagerCreated 0 (Some ("id", demoMade)); ResumeOpen 0; ResumeOpen 1; ResumeOpen 0; ResumeOpen 1].

Definition collects : list Step :=
  [ActorEvent 0 MutationsDrained; ActorEvent 0 MutationsClosed; ActorEvent 0 (Disposed true); ActorEvent 0 TrackedSettled;
   DisposeRecord 0; Collected 0].

(** Proves that a run of demonstration steps is admitted and goes through. *)
Ltac demo_run := apply demoRun_reaches; [repeat constructor|vm_compute; by eexists].

Lemma live_index s rid r :
  registry_ok s → disposed s = false → activations s !! rid = Some r → actorPhase (A := SessionActor) (actor r) = Live →
  held r ∧ recordAt (key r) s = Some rid.
Proof.
  intros Hok Hd Hr Hl. destruct (ok_indexed s Hok Hd) as [Hi _]. assert (held r) as Hh.
  { apply unfinished_held; [by eapply index_state|]. apply live_unfinished; [|done]. by eapply (base_wf s (ok_base s Hok)). }
  split; [done|by apply held_recordAt].
Qed.

(** C22. One runtime per session: however opens, creations, closes, collections and
    the shutdown interleave, no two records whose runtime is not gone share an
    address or a session id, no runtime is being built for an address that has
    one, and no address has two being built. *)
Theorem one_runtime fs s :
  reaches (startWorker fs) s →
  (∀ i j ri rj, activations s !! i = Some ri → activations s !! j = Some rj →
    phase (actor ri) ≠ Closed → closeRejected (actor ri) = false → phase (actor rj) ≠ Closed → closeRejected (actor rj) = false →
    key ri = key rj ∨ sessionId (ref ri) = sessionId (ref rj) → i = j) ∧
  (∀ i ri j c, activations s !! i = Some ri → promises s !! j = Some c →
    phase (actor ri) ≠ Closed → closeRejected (actor ri) = false → fresh c = false → inFlight c = true → key ri ≠ creationKey c) ∧
  (∀ i j ci cj, promises s !! i = Some ci → promises s !! j = Some cj → fresh ci = false → inFlight ci = true →
    fresh cj = false → inFlight cj = true → creationKey ci = creationKey cj → i = j).
Proof.
  intros Hr. destruct (reaches_ok _ s (empty_ok fs) Hr) as [_ [H1 H2 H3 H4] _ _]. split_and!.
  - intros i j ri rj Hi Hj ? ? ? ? [E | E]; [by eapply (H1 i j ri rj)|by eapply (H2 i j ri rj)].
  - intros i ri j c Hi Hc ? ? ? ?. by eapply (H3 i ri j c).
  - intros i j ci cj Hi Hj ? ? ? ? E. by eapply (H4 i j ci cj).
Qed.

Lemma one_runtime_witness :
  openPoint <$> (openCalls (demoRun opened)) = [Opened 0; Opened 0] ∧ length (activations (demoRun opened)) = 1 ∧
  ∀ i j ci cj, promises (demoRun opened) !! i = Some ci → promises (demoRun opened) !! j = Some cj → fresh ci = false →
    inFlight ci = true → fresh cj = false → inFlight cj = true → creationKey ci = creationKey cj → i = j.
Proof. split; [by vm_compute|]. split; [by vm_compute|]. apply (one_runtime {[demoKey]}). demo_run. Defined.

(** A target names one activation: a command is admitted by no other record than
    the one its target was made from, and while that record is live and the
    worker runs it is admitted there. *)
Theorem target_names_one_activation fs s reg rid r :
  reaches (startWorker fs) s → activations s !! rid = Some r →
  (∀ rid', admissionFor reg (targetOf reg r) s = Some rid' → rid' = rid) ∧
  (disposed s = false → phase (actor r) = Live → admissionFor reg (targetOf reg r) s = Some rid).
Proof.
  intros Hr Hrid. pose proof (reaches_ok _ s (empty_ok fs) Hr) as Hok. destruct (ok_base s Hok) as [_ _ Hgen].
  unfold admissionFor. simpl. rewrite !bool_decide_eq_true_2 by done. simpl. split.
  - intros rid' E. apply bind_Some in E as (i & _ & E). apply bind_Some in E as (x & Hx & E).
    repeat case_match; simplify_eq. apply Hgen in Hx, Hrid. split_bools. lia.
  - intros Hd Hl. destruct (live_index s rid r Hok Hd Hrid Hl) as [_ E]. unfold byAddressAny.
    change (addressKey (projectId (ref r)) (stem (ref r))) with (key r). rewrite E. simpl. rewrite Hrid. simpl.
    by rewrite !bool_decide_eq_true_2.
Qed.

Definition demoRegistration : WorkerRegistration := mkWorkerRegistration "w" "run" 0.

Lemma target_names_one_activation_witness :
  ∃ r, activations (demoRun opened) !! 0 = Some r ∧ admissionFor demoRegistration (targetOf demoRegistration r) (demoRun opened) = Some 0.
Proof.
  eexists. split; [vm_compute; reflexivity|].
  apply (target_names_one_activation {[demoKey]} _ demoRegistration 0 _); [demo_run|by vm_compute|by vm_compute|by vm_compute].
Defined.

(** C23. The shutdown leaves nothing behind: when its drain ends, no record was added
    since it began, every record's actor is closed (or its disposal failed), and
    every creation that had begun has settled. *)
Theorem shutdown_leaves_nothing fs s s' :
  reaches (startWorker fs) s → disposed s = false → reaches (dispose s) s' → disposeDrain s' = Some Drained →
  length (activations s') = length (activations s) ∧
  (∀ i r, activations s' !! i = Some r → phase (actor r) = Closed ∨ closeRejected (actor r) = true) ∧
  (∀ cid, cid < length (promises s) → ∃ c, promises s' !! cid = Some c ∧ creationSettled c = true).
Proof.
  intros Hr Hd Hr' Hdr. pose proof (reaches_ok _ s (empty_ok fs) Hr) as Hok.
  pose proof (reaches_promises _ s (empty_promises fs) Hr) as Hpr.
  assert (step Dispose s = Some (dispose s)) as Estep by done.
  pose proof (dispose_drainOk s Hok Hpr Hd) as Hdrain. apply (reaches_drainOk _ _ _ s') in Hdrain; [|by apply (step_ok Dispose s)| |done].
  - destruct Hdrain as (_ & Hm & Hn & _ & Hend). rewrite Hdr in Hend. destruct Hend as [H1 H2]. split_and!; [done| |].
    + intros i r Hi. pose proof (H1 i r Hi) as Hno. unfold unfinished in Hno. simpl in Hno.
      destruct (decide (phase (actor r) = Closed)); [by left|right]. destruct (closeRejected (actor r)); [done|tauto].
    + intros cid Hlt. pose proof (H2 cid Hlt) as Hs. unfold promiseSettled in Hs. by destruct (promises s' !! cid) as [c|]; [exists c|].
  - eapply evolves_ok; [done|]. eapply step_evolves; [by destruct Hpr|exact Estep].
Qed.

(** The shutdown begins while a second creation is in flight. *)
Definition shutdown : list Step :=
  [ManagerCreated 1 None; ResumeOpen 2; DrainStep; ActorEvent 0 MutationsDrained; ActorEvent 0 MutationsClosed;
   ActorEvent 0 (Disposed true); ActorEvent 0 TrackedSettled; DrainStep].

Definition opening : list Step := opened ++ [FileWritten "p" "b"; StartOpen "p" "b"].

Lemma shutdown_leaves_nothing_witness :
  ∃ s', runSteps shutdown (dispose (demoRun opening)) = Some s' ∧ length (activations s') = length (activations (demoRun opening)).
Proof.
  eexists. split; [vm_compute; reflexivity|].
  apply (shutdown_leaves_nothing {[demoKey]} (demoRun opening)); [demo_run|by vm_compute| |by vm_compute].
  apply (runSteps_reaches shutdown); [repeat constructor|by vm_compute].
Defined.

(** C31. A close that was answered has closed: when [closeSession] replies before the
    shutdown, the actor it found has disposed its runtime and drained its work. *)
Theorem close_reply_means_closed fs s i p st rid :
  reaches (startWorker fs) s → disposed s = false →
  closeCalls s !! i = Some (mkCloseCall false p st (CloseReplied (Some rid))) →
  ∃ r, activations s !! rid = Some r ∧ phase (actor r) = Closed.
Proof.
  intros Hr Hd Hc. destruct (reaches_closes fs s Hr i _ Hc) as (r & Hrid & Hx). exists r. split; [done|].
  simpl in Hx. destruct Hx as [?|[[? _]|?]]; [done|done|congruence].
Qed.

Definition closes : list Step := opened ++ [StartClose false "p" "a"; ResumeClose 0] ++ collects ++ [ResumeClose 0].

Lemma close_reply_means_closed_witness : ∃ r, activations (demoRun closes) !! 0 = Some r ∧ phase (actor r) = Closed.
Proof. apply (close_reply_means_closed {[demoKey]} _ 0 "p" "a"); [demo_run|by vm_compute|by vm_compute]. Defined.

(** C33. No session is forgotten: while the worker runs, a live session that had
    clients and lost them all has its idle timer armed. *)
Theorem no_session_forgotten fs s rid r :
  reaches (startWorker fs) s → disposed s = false → activations s !! rid = Some r →
  phase (actor r) = Live → capabilities (actor r) ≠ [] → Forall (λ c, released c = true) (capabilities (actor r)) →
  is_Some (idleTimer (actor r)).
Proof.
  intros Hr Hd Hrid Hl Hn Hall. destruct (ok_indexed s (reaches_ok _ s (empty_ok fs) Hr) Hd) as [Hi _].
  apply (index_attended s Hi rid r Hrid Hl Hn). unfold unreleased. induction Hall as [|c cs Hc Hcs IH]; [done|].
  rewrite filter_cons_False by congruence. destruct cs; [done|]. by apply IH.
Qed.

Definition left : list Step :=
  opened ++ [ActorEvent 0 Capture; ActorEvent 0 (Observe 0 7); ActorEvent 0 (Release 0); ActorEvent 0 (Facts true false true false);
             ActorEvent 0 IdleFires].

Lemma no_session_forgotten_witness : ∃ r, activations (demoRun left) !! 0 = Some r ∧ is_Some (idleTimer (actor r)).
Proof.
  eexists. split; [vm_compute; reflexivity|].
  eapply (no_session_forgotten {[demoKey]} (demoRun left) 0); [demo_run|by vm_compute|by vm_compute|by vm_compute|by vm_compute|].
  vm_compute. by repeat constructor.
Defined.

(** [archiveSession] can move the file of a session that is being opened: an open
    that waits for the same collection resumes before the archive does, and its
    creation is in flight over the file the archive then takes away. *)
Theorem archive_races_open :
  ∃ s c, reaches (startWorker {[demoKey]}) s ∧
    closeCalls s !! 0 = Some (mkCloseCall true "p" "a" (CloseReplied (Some 0))) ∧ (demoKey ∉ files s) ∧
    promises s !! 1 = Some c ∧ creationKey c = demoKey ∧ creationPoint c = CreatingManager.
Proof.
  exists (demoRun (opened ++ [StartClose true "p" "a"; ResumeClose 0; StartOpen "p" "a"] ++ collects ++ [ResumeOpen 2; ResumeClose 0])).
  eexists. split; [demo_run|]. split; [by vm_compute|]. split; [apply (bool_decide_unpack _); vm_compute; exact I|].
  split; [vm_compute; reflexivity|]. by split.
Qed.
