(* ===== verification/Protocol.v ===== *)
(** * The worker protocol

    [host/worker-protocol.ts], with the requests that the methods of
    [host/worker-client.ts] send and the reading of one by the dispatch of
    [host/worker-server.ts].  A text on the socket is what [JSON.parse] makes of
    it, [None] when it throws. *)

From S2P Require Export Verbs.

Definition WORKER_PROTOCOL_VERSION : Z := 1.
Definition WORKER_REJECTED_CLOSE_CODE : Z := 4403.
Definition WORKER_PROBE_ID : string := "probe".

(** ** Frames *)

Definition workerProbeRequest : json := object [("id", JStr WORKER_PROBE_ID); ("verb", JStr "ping")].

Definition isWorkerProbeRequest (value : json) : bool :=
  is_object value && eq_str (get value "id") WORKER_PROBE_ID && eq_str (get value "verb") "ping".

Definition workerProbeReply (web : option string) : json :=
  object [("id", JStr WORKER_PROBE_ID); ("ok", JBool true); ("protocol", JInt WORKER_PROTOCOL_VERSION); ("web", of_opt_str web)].

(** [typeof v === "boolean"] *)
Definition is_bool (v : json) : bool := match v with JBool _ => true | _ => false end.

Definition isWorkerRequest (value : json) : bool :=
  is_object value && is_string (get value "id") && is_string (get value "kind") && negb (eq_str (get value "kind") "hello").

Definition isWorkerReply (value : json) : bool :=
  is_object value && is_string (get value "id") && is_bool (get value "ok") && negb (isDefined (get value "kind")).

Definition isWorkerPush (value : json) : bool :=
  is_object value && negb (isDefined (get value "id")) &&
  (eq_str (get value "kind") "hello" || eq_str (get value "kind") "observation" || eq_str (get value "kind") "event"
   || eq_str (get value "kind") "unavailable").

Definition parseWorkerFrame (data : option json) : option json :=
  parsed ← data;
  if isWorkerRequest parsed || isWorkerReply parsed || isWorkerPush parsed then Some parsed else None.

(** [WorkerReply] *)
Definition okReply (id : string) (result : json) : json :=
  object [("id", JStr id); ("ok", JBool true); ("result", result)].
Definition errorReply (id error : string) : json :=
  object [("id", JStr id); ("ok", JBool false); ("error", JStr error)].

(** [WorkerPush] *)
Definition helloPush (registration info : json) : json :=
  object [("kind", JStr "hello"); ("protocol", JInt WORKER_PROTOCOL_VERSION); ("registration", registration); ("info", info)].
Definition observationPush (observation : string) (frame : json) : json :=
  object [("kind", JStr "observation"); ("observation", JStr observation); ("frame", frame)].
Definition eventPush (event : json) : json := object [("kind", JStr "event"); ("event", event)].
Definition unavailablePush (reason : string) : json := object [("kind", JStr "unavailable"); ("reason", JStr reason)].

(** ** Requests *)

(** [WorkerRequestInput]: one constructor per [kind]. *)
Inductive WorkerRequest :=
| ObserveSession (address cursor : json) (observation : string)
| CreateSession (projectId : json) (observation : string) (text images model thinkingLevel : json)
| ReleaseObservation (observation : string)
| Pull (observation : string) (requests : json)
| Prompt (target text images model thinkingLevel : json)
| Abort (target : json)
| DiscardSteer (target : json)
| RenameSession (target name : json)
| SetLabel (target entryId label : json)
| Navigate (target entryId : json)
| RecoverTurn (target : json)
| CloseSession (address : json)
| ArchiveSession (address : json)
| ListSessions (projectId max cursor : json)
| ListActiveSessions
| Info
| SetPinnedModels (models : json)
| ListFiles (prefix projectId : json)
| ReadFile (path state : json)
| ListDirectory (path state : json)
| GitShow (commit cwd : json)
| GitBase (directory commit : json)
| GitDiff (directory oldState newState : json)
| ShutdownWorker.

(** What the method of the client passes to [request]. *)
Definition requestBody (r : WorkerRequest) : list (string * json) :=
  match r with
  | ObserveSession address cursor observation =>
    [("kind", JStr "observeSession"); ("address", address); ("cursor", cursor ?? JNull); ("observation", JStr observation)]
  | CreateSession projectId observation text images model thinkingLevel =>
    [("kind", JStr "createSession"); ("projectId", projectId); ("observation", JStr observation);
     ("options", object [("text", text); ("images", images); ("model", model); ("thinkingLevel", thinkingLevel)])]
  | ReleaseObservation observation => [("kind", JStr "releaseObservation"); ("observation", JStr observation)]
  | Pull observation requests => [("kind", JStr "pull"); ("observation", JStr observation); ("requests", requests)]
  | Prompt target text images model thinkingLevel =>
    [("kind", JStr "prompt"); ("target", target); ("text", text); ("images", images); ("model", model);
     ("thinkingLevel", thinkingLevel)]
  | Abort target => [("kind", JStr "abort"); ("target", target)]
  | DiscardSteer target => [("kind", JStr "discardSteer"); ("target", target)]
  | RenameSession target name => [("kind", JStr "renameSession"); ("target", target); ("name", name)]
  | SetLabel target entryId label => [("kind", JStr "setLabel"); ("target", target); ("entryId", entryId); ("label", label)]
  | Navigate target entryId => [("kind", JStr "navigate"); ("target", target); ("entryId", entryId)]
  | RecoverTurn target => [("kind", JStr "recoverTurn"); ("target", target)]
  | CloseSession address => [("kind", JStr "closeSession"); ("address", address)]
  | ArchiveSession address => [("kind", JStr "archiveSession"); ("address", address)]
  | ListSessions projectId max cursor =>
    [("kind", JStr "listSessions"); ("projectId", projectId); ("max", max); ("cursor", cursor ?? JNull)]
  | ListActiveSessions => [("kind", JStr "listActiveSessions")]
  | Info => [("kind", JStr "info")]
  | SetPinnedModels models => [("kind", JStr "setPinnedModels"); ("models", models)]
  | ListFiles prefix projectId => [("kind", JStr "listFiles"); ("prefix", prefix); ("projectId", projectId)]
  | ReadFile path state => [("kind", JStr "readFile"); ("path", path); ("state", state)]
  | ListDirectory path state => [("kind", JStr "listDirectory"); ("path", path); ("state", state)]
  | GitShow commit cwd => [("kind", JStr "gitShow"); ("commit", commit); ("cwd", cwd)]
  | GitBase directory commit => [("kind", JStr "gitBase"); ("directory", directory); ("commit", commit)]
  | GitDiff directory oldState newState =>
    [("kind", JStr "gitDiff"); ("directory", directory); ("oldState", oldState); ("newState", newState)]
  | ShutdownWorker => [("kind", JStr "shutdown")]
  end.

(** [{ ...body, id }], and its text. *)
Definition requestFrame (id : string) (r : WorkerRequest) : json := object (requestBody r ++ [("id", JStr id)]).
Definition requestWire (id : string) (r : WorkerRequest) : json := jsonRoundTrip (requestFrame id r).

(** A string where the protocol has one; a peer may send anything. *)
Definition stringOf (v : json) : string := default "undefined" (opt_str v).

(** The call of the service that [dispatch] makes, with the arguments it reads;
    [inr]: it throws before it makes one. *)
Definition readRequest (engineError : string → string) (request : json) : WorkerRequest + string :=
  let kindIs := eq_str (get request "kind") in
  let arg := get request in
  let observation := stringOf (arg "observation") in
  if kindIs "observeSession" then inl (ObserveSession (arg "address") (arg "cursor") observation)
  else if kindIs "createSession" then
    let options := arg "options" in
    if nullish options then inr (engineError "text")
    else inl (CreateSession (arg "projectId") observation (get options "text") (get options "images") (get options "model")
                (get options "thinkingLevel"))
  else if kindIs "releaseObservation" then inl (ReleaseObservation observation)
  else if kindIs "pull" then inl (Pull observation (arg "requests"))
  else if kindIs "prompt" then inl (Prompt (arg "target") (arg "text") (arg "images") (arg "model") (arg "thinkingLevel"))
  else if kindIs "abort" then inl (Abort (arg "target"))
  else if kindIs "discardSteer" then inl (DiscardSteer (arg "target"))
  else if kindIs "renameSession" then inl (RenameSession (arg "target") (arg "name"))
  else if kindIs "setLabel" then inl (SetLabel (arg "target") (arg "entryId") (arg "label"))
  else if kindIs "navigate" then inl (Navigate (arg "target") (arg "entryId"))
  else if kindIs "recoverTurn" then inl (RecoverTurn (arg "target"))
  else if kindIs "closeSession" then inl (CloseSession (arg "address"))
  else if kindIs "archiveSession" then inl (ArchiveSession (arg "address"))
  else if kindIs "listSessions" then inl (ListSessions (arg "projectId") (arg "max") (arg "cursor" ?? JNull))
  else if kindIs "listActiveSessions" then inl ListActiveSessions
  else if kindIs "info" then inl Info
  else if kindIs "setPinnedModels" then inl (SetPinnedModels (arg "models"))
  else if kindIs "listFiles" then inl (ListFiles (arg "prefix") (arg "projectId"))
  else if kindIs "readFile" then inl (ReadFile (arg "path") (arg "state"))
  else if kindIs "listDirectory" then inl (ListDirectory (arg "path") (arg "state"))
  else if kindIs "gitShow" then inl (GitShow (arg "commit") (arg "cwd"))
  else if kindIs "gitBase" then inl (GitBase (arg "directory") (arg "commit"))
  else if kindIs "gitDiff" then inl (GitDiff (arg "directory") (arg "oldState") (arg "newState"))
  else if kindIs "shutdown" then inl ShutdownWorker
  else inr ("unknown worker request: " +:+ stringOf (get request "kind")).

(** The arguments a request carries, and how the other end reads them. *)
Definition requestValues (r : WorkerRequest) : list json :=
  match r with
  | ObserveSession address cursor _ => [address; cursor]
  | CreateSession projectId _ text images model thinkingLevel => [projectId; text; images; model; thinkingLevel]
  | Pull _ requests => [requests]
  | Prompt target text images model thinkingLevel => [target; text; images; model; thinkingLevel]
  | Abort v | DiscardSteer v | RecoverTurn v | CloseSession v | ArchiveSession v | SetPinnedModels v => [v]
  | RenameSession v w | Navigate v w | ListFiles v w | ReadFile v w | ListDirectory v w | GitShow v w | GitBase v w => [v; w]
  | SetLabel v w x | ListSessions v w x | GitDiff v w x => [v; w; x]
  | ReleaseObservation _ | ListActiveSessions | Info | ShutdownWorker => []
  end.

Definition received (r : WorkerRequest) : WorkerRequest :=
  match r with
  | ObserveSession address cursor observation => ObserveSession address (cursor ?? JNull) observation
  | ListSessions projectId max cursor => ListSessions projectId max (cursor ?? JNull)
  | _ => r
  end.

(** The observation a request opens. *)
Definition opens (r : WorkerRequest) : option string :=
  match r with ObserveSession _ _ o | CreateSession _ o _ _ _ _ => Some o | _ => None end.

(** ** Reading the wire *)

Lemma requestWire_get id r k :
  get (requestWire id r) k = wireValue (default JUndef (assoc_last k (requestBody r ++ [("id", JStr id)]))).
Proof. apply get_wire. Qed.

Lemma requestWire_id id r : get (requestWire id r) "id" = JStr id.
Proof. rewrite requestWire_get. unfold assoc_last. by rewrite foldl_app. Qed.

Lemma body_lookup id r k : k ≠ "id" → assoc_last k (requestBody r ++ [("id", JStr id)]) = assoc_last k (requestBody r).
Proof.
  intros Hk. unfold assoc_last. rewrite foldl_app. cbn [foldl fst]. by destruct (String.eqb_spec "id" k).
Qed.

Lemma requestWire_arg id r k v :
  k ≠ "id" → assoc_last k (requestBody r) = Some v → carried v → get (requestWire id r) k = v.
Proof. intros Hk E Hv. rewrite requestWire_get, body_lookup, E by done. by apply carried_wire. Qed.

Lemma requestWire_kind id r : ∃ kind, get (requestWire id r) "kind" = JStr kind ∧ kind ≠ "hello" ∧ assoc_last "kind" (requestBody r) = Some (JStr kind).
Proof.
  assert (∃ kind, assoc_last "kind" (requestBody r) = Some (JStr kind) ∧ kind ≠ "hello") as (kind & E & Hk)
    by (destruct r; eexists; (split; [reflexivity|done])).
  exists kind. split_and!; [|done|done]. eapply requestWire_arg; [done|exact E|by right].
Qed.

Lemma carried_coalesce v : carried v → carried (v ?? JNull).
Proof. intros [-> | H]; [by right|]. destruct v; by right. Qed.

Lemma received_coalesce v : (v ?? JNull) ?? JNull = v ?? JNull.
Proof. by destruct v. Qed.

(** The options of a creation are read from the object the client nested. *)
Lemma creation_option id projectId observation text images model thinkingLevel k :
  let options := get (requestWire id (CreateSession projectId observation text images model thinkingLevel)) "options" in
  nullish options = false ∧
  get options k = wireValue (default JUndef
    (assoc_last k [("text", text); ("images", images); ("model", model); ("thinkingLevel", thinkingLevel)])).
Proof.
  intros options. assert (options = jsonRoundTrip (object
    [("text", text); ("images", images); ("model", model); ("thinkingLevel", thinkingLevel)])) as ->.
  { unfold options. by rewrite requestWire_get. }
  split; [done|]. apply get_wire.
Qed.

(** Replace the reads of a request by what was written. *)
Ltac read_request :=
  repeat match goal with
  | |- context [get (requestWire ?id ?r) ?k] =>
    erewrite (requestWire_arg id r k) by first [reflexivity | done | by apply carried_coalesce | apply carried_str]
  end.

Lemma readRequest_wire engineError id r :
  Forall carried (requestValues r) → readRequest engineError (requestWire id r) = inl (received r).
Proof.
  intros Hc. destruct r; cbn [requestValues] in Hc; rewrite ?Forall_cons in Hc; destruct_and?; unfold readRequest.
  2: { destruct (creation_option id projectId observation text images model thinkingLevel "text") as [Hn _].
    pose proof (λ k, proj2 (creation_option id projectId observation text images model thinkingLevel k)) as Hk.
    cbn zeta in Hn, Hk. rewrite Hn, !Hk. read_request. cbn [eq_str]. simpl. by rewrite !carried_wire. }
  all: read_request; cbn [eq_str snd]; rewrite ?received_coalesce; reflexivity.
Qed.

(** ** What the other end takes a frame for *)

(** [k in JSON.parse(JSON.stringify({...}))] *)
Lemma has_wire kvs k : has (jsonRoundTrip (object kvs)) k = isDefined (default JUndef (assoc_last k kvs)).
Proof.
  unfold object. rewrite jsonRoundTrip_object. cbn [has]. rewrite serialised_get.
  change (JObj (assign ∅ kvs)) with (object kvs). rewrite object_get.
  destruct (default JUndef (assoc_last k kvs)); by vm_compute.
Qed.

Lemma requestWire_frame id r :
  parseWorkerFrame (Some (requestWire id r)) = Some (requestWire id r) ∧ has (requestWire id r) "ok" = false ∧
  has (requestWire id r) "id" = true.
Proof.
  destruct (requestWire_kind id r) as (kind & Ek & Hk & _). split_and!.
  - unfold parseWorkerFrame, isWorkerRequest. cbn [mbind option_bind]. rewrite requestWire_id, Ek.
    cbn [is_string eq_str]. by rewrite bool_decide_eq_false_2.
  - unfold requestWire, requestFrame. rewrite has_wire. by destruct r.
  - unfold requestWire, requestFrame. rewrite has_wire. by destruct r.
Qed.

Lemma okReply_frame id v :
  let w := jsonRoundTrip (okReply id v) in
  parseWorkerFrame (Some w) = Some w ∧ has w "ok" = true ∧ get w "id" = JStr id ∧ get w "ok" = JBool true ∧
  get w "result" = wireValue v.
Proof.
  intros w. assert (∀ k, get w k = wireValue (default JUndef (assoc_last k [("id", JStr id); ("ok", JBool true); ("result", v)]))) as E
    by apply get_wire.
  split_and!; [|by apply has_wire|by rewrite E..].
  unfold parseWorkerFrame, isWorkerRequest, isWorkerReply. cbn [mbind option_bind]. by rewrite !E.
Qed.

Lemma errorReply_frame id error :
  let w := jsonRoundTrip (errorReply id error) in
  parseWorkerFrame (Some w) = Some w ∧ has w "ok" = true ∧ get w "id" = JStr id ∧ get w "ok" = JBool false ∧
  get w "error" = JStr error.
Proof.
  intros w. assert (∀ k, get w k = wireValue (default JUndef (assoc_last k [("id", JStr id); ("ok", JBool false); ("error", JStr error)]))) as E
    by apply get_wire.
  split_and!; [|by apply has_wire|by rewrite E..].
  unfold parseWorkerFrame, isWorkerRequest, isWorkerReply. cbn [mbind option_bind]. by rewrite !E.
Qed.

(** A push, given what it reads as. *)
Lemma push_frame kvs kind :
  assoc_last "id" kvs = None → assoc_last "ok" kvs = None → assoc_last "kind" kvs = Some (JStr kind) →
  kind ∈ ["hello"; "observation"; "event"; "unavailable"] →
  let w := jsonRoundTrip (object kvs) in
  parseWorkerFrame (Some w) = Some w ∧ has w "ok" = false ∧ get w "kind" = JStr kind ∧ has w "id" = false.
Proof.
  intros Hid Hok Hkind Hin w.
  assert (get w "kind" = JStr kind) as Ek by (unfold w; by rewrite get_wire, Hkind).
  assert (get w "id" = JUndef) as Ei by (unfold w; by rewrite get_wire, Hid).
  split_and!; [|unfold w; by rewrite has_wire, Hok|done|unfold w; by rewrite has_wire, Hid].
  unfold parseWorkerFrame, isWorkerRequest, isWorkerReply, isWorkerPush. cbn [mbind option_bind]. rewrite Ek, Ei.
  rewrite !elem_of_cons, elem_of_nil in Hin. by destruct Hin as [-> | [-> | [-> | [-> | []]]]].
Qed.

(** ** Properties *)

(** C27. A method of the daemon's side of a worker link reaches the worker: the text
    it sends, whatever the kind of request, is taken for a request with the id the
    caller waits for, and makes the worker call the operation of that kind with the
    arguments it was given; an absent cursor reads as [null]. *)
Theorem worker_request_reaches_service engineError id r :
  Forall carried (requestValues r) →
  let text := requestWire id r in
  parseWorkerFrame (Some text) = Some text ∧ has text "ok" = false ∧ get text "id" = JStr id ∧
  readRequest engineError text = inl (received r).
Proof.
  intros Hc. destruct (requestWire_frame id r) as (Hp & Hok & _).
  split_and!; [done..|apply requestWire_id|by apply readRequest_wire].
Qed.

Definition demoRequest : WorkerRequest :=
  ListSessions (JStr "p") (JInt 20) JUndef.

Lemma worker_request_reaches_service_witness :
  readRequest id (requestWire "7" demoRequest) = inl (ListSessions (JStr "p") (JInt 20) JNull).
Proof.
  apply (worker_request_reaches_service id "7" demoRequest).
  repeat apply Forall_cons_2; [by right|by right|by left|apply Forall_nil_2].
Defined.
