(* ===== verification/Link.v ===== *)
(** * The daemon's end of a worker link

    [host/worker-client.ts]: the [WorkerService] a daemon has over a socket, from
    the handshake to the loss of the link, with what the daemon does when a worker
    becomes unavailable ([host/daemon.ts], [host/worker-host.ts]).  What runs
    between two turns of the event loop is one function; what the socket does and
    the ends of awaits are events.  The promise of a call and the sink it was given
    are the position of the call.  A sink or a listener of events does not call
    back into the link; the listener of [unavailable] does. *)

From S2P Require Export Protocol.

(** ** The state *)

(** A promise of [request]. *)
Inductive Outcome := Pending | Fulfilled (result : json) | Rejected (error : string).

(** One call of a method that sends a request: the request, the id that was minted
    for it, its promise, whether the method went on after it, and what its sink was handed. *)
Record Call := mkCall { request : WorkerRequest; callId : option string; outcome : Outcome; resumed : bool; sunk : list json }.

(** An entry of [observations]: the call whose sink it is, and the address its
    terminal frame names. *)
Record Route := mkRoute { sinkOf : nat; address : option json }.

Inductive ReadyState := CONNECTING | OPEN | CLOSING | CLOSED.

(** What the link does to the outside, apart from sinks, promises and requests. *)
Inductive LinkEffect :=
| ConnectResolves
| ConnectRejects (error : string) (registration : bool)
| ReportsUnavailable (reason : string)
| HandsEvent (event : json)
| ClosesSocket (code : option Z)
| Pings
| ClosedResolves
| Uncaught.

(** What [ws.send] does with a text. *)
Inductive SendOutcome := Sends | Loses | SendThrows (error : string).

(** What the daemon does when the link reports [unavailable]: nothing while it
    stops; [closeLink] for a worker that dialed in; [dispose] for one it dialed. *)
Inductive DaemonReaction := ReactsNot | ClosesLink | DisposesWorker.

(** [pending] maps an id to its call; [minted] counts the calls of [randomUUID]. *)
Record Link := mkLink {
  greeted : bool; settled : bool; unavailable : bool; heartbeat : bool; readyState : ReadyState;
  pending : gmap string nat; observations : gmap string Route;
  calls : list Call; minted : nat; outbox : list json; effects : list LinkEffect }.

#[global] Instance Outcome_eq_dec : EqDecision Outcome.
Proof. solve_decision. Defined.
#[global] Instance ReadyState_eq_dec : EqDecision ReadyState.
Proof. solve_decision. Defined.
#[global] Instance DaemonReaction_eq_dec : EqDecision DaemonReaction.
Proof. solve_decision. Defined.

(** [adoptWorkerConnection], up to the seeded handshake. *)
Definition adoptLink (r : ReadyState) : Link := mkLink false false false false r ∅ ∅ [] 0 [] [].

Create HintDb link.

(** *** Assignments *)

Definition setConnect (g s h : bool) (l : Link) : Link :=
  mkLink g s (unavailable l) h (readyState l) (pending l) (observations l) (calls l) (minted l) (outbox l) (effects l).
Definition setUnavailable (l : Link) : Link :=
  mkLink (greeted l) (settled l) true (heartbeat l) (readyState l) (pending l) (observations l) (calls l) (minted l) (outbox l) (effects l).
Definition setReady (r : ReadyState) (l : Link) : Link :=
  mkLink (greeted l) (settled l) (unavailable l) (heartbeat l) r (pending l) (observations l) (calls l) (minted l) (outbox l) (effects l).
Definition setPending (m : gmap string nat) (l : Link) : Link :=
  mkLink (greeted l) (settled l) (unavailable l) (heartbeat l) (readyState l) m (observations l) (calls l) (minted l) (outbox l) (effects l).
Definition setObservations (m : gmap string Route) (l : Link) : Link :=
  mkLink (greeted l) (settled l) (unavailable l) (heartbeat l) (readyState l) (pending l) m (calls l) (minted l) (outbox l) (effects l).
Definition setCalls (cs : list Call) (l : Link) : Link :=
  mkLink (greeted l) (settled l) (unavailable l) (heartbeat l) (readyState l) (pending l) (observations l) cs (minted l) (outbox l) (effects l).
Definition setMinted (n : nat) (l : Link) : Link :=
  mkLink (greeted l) (settled l) (unavailable l) (heartbeat l) (readyState l) (pending l) (observations l) (calls l) n (outbox l) (effects l).
Definition setOutbox (o : list json) (l : Link) : Link :=
  mkLink (greeted l) (settled l) (unavailable l) (heartbeat l) (readyState l) (pending l) (observations l) (calls l) (minted l) o (effects l).
Definition does (e : LinkEffect) (l : Link) : Link :=
  mkLink (greeted l) (settled l) (unavailable l) (heartbeat l) (readyState l) (pending l) (observations l) (calls l) (minted l) (outbox l) (effects l ++ [e]).

(** [clearInterval(heartbeat); heartbeat = null] *)
Definition stopHeartbeat (l : Link) : Link := setConnect (greeted l) (settled l) false l.

(** [ws.close()] and [ws.terminate()] on a socket that is not gone. *)
Definition closing (r : ReadyState) : ReadyState := match r with CLOSED => CLOSED | _ => CLOSING end.
Definition closeSocket (code : option Z) (l : Link) : Link := does (ClosesSocket code) (setReady (closing (readyState l)) l).

(** ** Promises and sinks *)

(** [resolve] and [reject]: a promise that has settled stays as it is. *)
Definition settleCall (o : Outcome) (c : Call) : Call :=
  mkCall (request c) (callId c) (match outcome c with Pending => o | o' => o' end) (resumed c) (sunk c).
Definition handTo (f : json) (c : Call) : Call := mkCall (request c) (callId c) (outcome c) (resumed c) (sunk c ++ [f]).
Definition resume (c : Call) : Call := mkCall (request c) (callId c) (outcome c) true (sunk c).

(** [{ kind: "closed", address }] *)
Definition closedFrame (address : json) : json := object [("kind", JStr "closed"); ("address", address)].

Section link.
  (** [randomUUID], whose values are distinct, the [accept] of the options (the reason it throws), and the
      listener of [unavailable]. *)
  Context (uuid : nat → string) `{Huuid : !Inj (=) (=) uuid} (accept : json → option string) (onUnavailable : DaemonReaction).

(** ** Requests *)

Definition addCall (r : WorkerRequest) (id : option string) (o : Outcome) (l : Link) : Link :=
  setCalls (calls l ++ [mkCall r id o false []]) l.

(** [request]. *)
Definition makeRequest (r : WorkerRequest) (send : SendOutcome) (l : Link) : Link :=
  if unavailable l then addCall r None (Rejected "worker is unavailable") l
  else
    let id := uuid (minted l) in
    let l' := setMinted (S (minted l)) (addCall r (Some id) Pending l) in
    match send with
    | Sends => setOutbox (outbox l ++ [requestWire id r]) (setPending (<[id := length (calls l)]> (pending l)) l')
    | Loses => setPending (<[id := length (calls l)]> (pending l)) l'
    | SendThrows error => setCalls (alter (settleCall (Rejected error)) (length (calls l)) (calls l')) l'
    end.

(** [observeSession] and [createSession]: the route is there before the request. *)
Definition addRoute (a : option json) (l : Link) : Link :=
  setMinted (S (minted l)) (setObservations (<[uuid (minted l) := mkRoute (length (calls l)) a]> (observations l)) l).

Definition observeSession (addr cursor : json) (send : SendOutcome) (l : Link) : Link :=
  makeRequest (ObserveSession addr cursor (uuid (minted l))) send (addRoute (Some addr) l).

Definition createSession (projectId text images model thinkingLevel : json) (send : SendOutcome) (l : Link) : Link :=
  makeRequest (CreateSession projectId (uuid (minted l)) text images model thinkingLevel) send (addRoute None l).

(** [release] of the observation a call returned. *)
Definition releaseRemote (n : nat) (send : SendOutcome) (l : Link) : option Link :=
  c ← calls l !! n;
  o ← opens (request c);
  match outcome c, resumed c with
  | Fulfilled _, true =>
    match observations l !! o with
    | None => Some l
    | Some _ => Some (makeRequest (ReleaseObservation o) send (setObservations (delete o (observations l)) l))
    end
  | _, _ => None
  end.

(** ** The end of the link *)

Definition closeLink (l : Link) : Link :=
  let l := setObservations ∅ (stopHeartbeat l) in
  match readyState l with OPEN | CONNECTING => closeSocket None l | _ => l end.

(** The end of [dispose], after its request. *)
Definition disposeLink (l : Link) : Link := closeSocket None (setObservations ∅ (stopHeartbeat l)).

(** [withdraw], with the synchronous part of what the daemon's listener does; the
    daemon listens once it has the link. *)
Definition withdraw (reason : string) (l : Link) : Link :=
  if unavailable l then l
  else if negb (greeted l) then setUnavailable l
  else
    let l := does (ReportsUnavailable reason) (setUnavailable l) in
    match onUnavailable with
    | ReactsNot => l
    | ClosesLink => closeLink l
    | DisposesWorker => makeRequest ShutdownWorker Loses l
    end.

Definition rejectAll (error : string) (m : gmap string nat) (cs : list Call) : list Call :=
  foldl (λ cs e, alter (settleCall (Rejected error)) e.2 cs) cs (map_to_list m).

Definition fail (error : string) (l : Link) : Link :=
  if negb (settled l) then does (ConnectRejects error false) (setConnect (greeted l) true (heartbeat l) l)
  else setObservations ∅ (setPending ∅ (setCalls (rejectAll error (pending l) (calls l)) l)).

(** The terminal frame of one observation. *)
Definition endRoute (cs : list Call) (held : Route) : list Call :=
  match address held with Some a => alter (handTo (closedFrame a)) (sinkOf held) cs | None => cs end.

Definition terminate (reason : string) (l : Link) : Link :=
  let l := withdraw reason l in
  let l := setCalls (foldl (λ cs e, endRoute cs e.2) (calls l) (map_to_list (observations l))) l in
  closeSocket None (stopHeartbeat (fail reason l)).

(** The [close] handler. *)
Definition socketClosed (l : Link) : option Link :=
  match readyState l with
  | CLOSED => None
  | _ => Some (does ClosedResolves (fail "worker link closed" (withdraw "worker link closed" (stopHeartbeat (setReady CLOSED l)))))
  end.

(** The [error] handler, and the timer of the handshake (whose error it is given). *)
Definition rejectConnect (error : string) (l : Link) : Link :=
  if settled l then l else does (ConnectRejects error false) (setConnect (greeted l) true (heartbeat l) l).
Definition handshakeTimeout (l : Link) : Link :=
  if settled l then l
  else does (ConnectRejects "worker handshake timed out" false) (closeSocket None (setConnect (greeted l) true (heartbeat l) l)).

(** The interval: [silent] when the last pong is too old. *)
Definition heartbeatTick (silent : bool) (l : Link) : option Link :=
  if heartbeat l then Some (if silent then terminate "worker link lost: heartbeat timeout" l else does Pings l) else None.

(** ** Inbound frames *)

Definition refuseHello (reason : string) (l : Link) : Link :=
  does (ConnectRejects reason true)
    (closeSocket (Some WORKER_REJECTED_CLOSE_CODE) (setConnect (greeted l) true (heartbeat l) l)).

(** The text of a version mismatch is shortened. *)
Definition acceptHello (candidate : json) (l : Link) : Link :=
  if greeted l || settled l then l
  else if negb (prim_eq (get candidate "protocol") (JInt WORKER_PROTOCOL_VERSION)) then refuseHello "worker protocol mismatch" l
  else match accept candidate with
       | Some reason => refuseHello reason l
       | None => does ConnectResolves (setConnect true true true l)
       end.

(** A terminal frame ends the observation on both sides. *)
Definition handFrame (o : string) (held : Route) (frame : json) (l : Link) : Link :=
  let l := if eq_str (get frame "kind") "closed" then setObservations (delete o (observations l)) l else l in
  setCalls (alter (handTo frame) (sinkOf held) (calls l)) l.

Definition handlePush (push : json) (l : Link) : Link :=
  let kind := get push "kind" in
  if eq_str kind "observation" then
    match opt_str (get push "observation") ≫= (λ o, pair o <$> observations l !! o) with
    | None => l
    | Some (o, held) =>
      if nullish (get push "frame") then does Uncaught l else handFrame o held (get push "frame") l
    end
  else if eq_str kind "event" then does (HandsEvent (get push "event")) l
  else if eq_str kind "unavailable" then terminate (stringOf (get push "reason")) l
  else l.

Definition handleReply (reply : json) (l : Link) : Link :=
  match opt_str (get reply "id") ≫= (λ id, pair id <$> pending l !! id) with
  | None => l
  | Some (id, n) =>
    let o := if truthy (get reply "ok") then Fulfilled (get reply "result") else Rejected (stringOf (get reply "error")) in
    setCalls (alter (settleCall o) n (calls l)) (setPending (delete id (pending l)) l)
  end.

(** The [message] handler. *)
Definition onFrame (data : option json) (l : Link) : Link :=
  match parseWorkerFrame data with
  | None => l
  | Some frame =>
    if has frame "ok" then handleReply frame l
    else if eq_str (get frame "kind") "hello" then
      acceptHello (object [("protocol", get frame "protocol"); ("registration", get frame "registration"); ("info", get frame "info")]) l
    else handlePush frame l
  end.

(** ** Continuations *)

(** The end of the [await] in the method of call [n]. *)
Definition resumes (n : nat) (l : Link) : option Link :=
  c ← calls l !! n;
  if resumed c then None
  else match outcome c with
  | Pending => None
  | o =>
    let l := setCalls (alter resume n (calls l)) l in
    Some match request c, o with
         | ObserveSession _ _ obs, Rejected _ | CreateSession _ obs _ _ _ _, Rejected _ =>
           setObservations (delete obs (observations l)) l
         | CreateSession projectId obs _ _ _ _, Fulfilled target =>
           if nullish target then setObservations (delete obs (observations l)) l
           else setObservations (<[obs := mkRoute n (Some (object [("projectId", projectId); ("stem", get target "stem")]))]>
                                   (observations l)) l
         | ShutdownWorker, _ => disposeLink l
         | _, _ => l
         end
  end.

(** ** Events *)

Inductive LinkEvent :=
| Observes (addr cursor : json) (send : SendOutcome)
| Creates (projectId text images model thinkingLevel : json) (send : SendOutcome)
| Requests (r : WorkerRequest) (send : SendOutcome)
| Releases (n : nat) (send : SendOutcome)
| Resumes (n : nat)
| ClosesByHost
| Seeds (hello : json)
| Opens
| Receives (data : option json)
| Ticks (silent : bool)
| TimesOut
| Errors (error : string)
| Closes.

(** A method needs the link that [connectWorker] resolved with. *)
Definition linkStep (e : LinkEvent) (l : Link) : option Link :=
  match e with
  | Observes addr cursor send => if greeted l then Some (observeSession addr cursor send l) else None
  | Creates projectId text images model level send =>
    if greeted l then Some (createSession projectId text images model level send l) else None
  | Requests r send =>
    if greeted l then match opens r, r with Some _, _ | _, ReleaseObservation _ => None | _, _ => Some (makeRequest r send l) end
    else None
  | Releases n send => if greeted l then releaseRemote n send l else None
  | Resumes n => resumes n l
  | ClosesByHost => if greeted l then Some (closeLink l) else None
  | Seeds hello => Some (acceptHello hello l)
  | Opens => match readyState l with CONNECTING => Some (setReady OPEN l) | _ => None end
  | Receives data => match readyState l with CLOSED => None | _ => Some (onFrame data l) end
  | Ticks silent => heartbeatTick silent l
  | TimesOut => Some (handshakeTimeout l)
  | Errors error => Some (rejectConnect error l)
  | Closes => socketClosed l
  end.

Fixpoint runLink (es : list LinkEvent) (l : Link) : option Link :=
  match es with [] => Some l | e :: es => linkStep e l ≫= runLink es end.

Definition linkReachable (l : Link) : Prop := ∃ r es, runLink es (adoptLink r) = Some l.

(** ** Calls only grow *)

(** What happens to a call: its request and id stay, a settled promise stays
    settled the same way, its sink is handed more. *)
Record grows (c c' : Call) : Prop := {
  gr_request : request c' = request c;
  gr_id : callId c' = callId c;
  gr_outcome : outcome c ≠ Pending → outcome c' = outcome c;
  gr_sunk : sunk c `prefix_of` sunk c'
}.

Definition callsGrow (cs cs' : list Call) : Prop := ∀ n c, cs !! n = Some c → ∃ c', cs' !! n = Some c' ∧ grows c c'.

Lemma calls_grows_refl c : grows c c.
Proof. by split. Qed.
Lemma grows_trans c1 c2 c3 : grows c1 c2 → grows c2 c3 → grows c1 c3.
Proof.
  intros [R1 I1 O1 S1] [R2 I2 O2 S2]. split; [congruence..| |by trans (sunk c2)].
  intros H. rewrite <- (O1 H). apply O2. by rewrite (O1 H).
Qed.
Lemma grows_settle o c : grows c (settleCall o c).
Proof. split; try done. simpl. by destruct (outcome c). Qed.
Lemma grows_hand f c : grows c (handTo f c).
Proof. split; try done. by eexists. Qed.
Lemma grows_resume c : grows c (resume c).
Proof. by split. Qed.

Lemma callsGrow_refl cs : callsGrow cs cs.
Proof. intros n c E. exists c. split; [done|apply calls_grows_refl]. Qed.
Lemma callsGrow_trans cs1 cs2 cs3 : callsGrow cs1 cs2 → callsGrow cs2 cs3 → callsGrow cs1 cs3.
Proof.
  intros H1 H2 n c E. destruct (H1 n c E) as (c2 & E2 & G2), (H2 n c2 E2) as (c3 & E3 & G3).
  exists c3. split; [done|by eapply grows_trans].
Qed.
Lemma callsGrow_alter f n cs : (∀ c, grows c (f c)) → callsGrow cs (alter f n cs).
Proof.
  intros Hf k c E. destruct (decide (k = n)) as [-> | Hne].
  - exists (f c). rewrite list_lookup_alter_eq, E. by split.
  - exists c. rewrite list_lookup_alter_ne by done. split; [done|apply calls_grows_refl].
Qed.
Lemma callsGrow_app cs c : callsGrow cs (cs ++ [c]).
Proof. intros n x E. exists x. split; [by apply lookup_app_l_Some|apply calls_grows_refl]. Qed.
Lemma callsGrow_foldl {A} (f : list Call → A → list Call) xs cs :
  (∀ cs x, callsGrow cs (f cs x)) → callsGrow cs (foldl f cs xs).
Proof.
  intros Hf. revert cs. induction xs as [|x xs IH]; intros cs; simpl; [apply callsGrow_refl|].
  eapply callsGrow_trans; [apply Hf|apply IH].
Qed.

Local Hint Resolve callsGrow_refl callsGrow_app : link.

Definition linkGrows (l l' : Link) : Prop := callsGrow (calls l) (calls l').

Lemma linkGrows_trans l1 l2 l3 : linkGrows l1 l2 → linkGrows l2 l3 → linkGrows l1 l3.
Proof. apply callsGrow_trans. Qed.

Lemma makeRequest_grows r send l : linkGrows l (makeRequest r send l).
Proof.
  unfold linkGrows, makeRequest. destruct (unavailable l), send; simpl; auto with link.
  eapply callsGrow_trans; [apply callsGrow_app|]. apply callsGrow_alter. intros c. apply grows_settle.
Qed.

Lemma closeLink_grows l : linkGrows l (closeLink l).
Proof. unfold closeLink. destruct (readyState _); apply callsGrow_refl. Qed.

Lemma withdraw_grows reason l : linkGrows l (withdraw reason l).
Proof.
  unfold withdraw. destruct (unavailable l); [apply callsGrow_refl|]. destruct (greeted l); [|apply callsGrow_refl].
  cbn [negb].
  destruct onUnavailable; [apply callsGrow_refl| |apply (makeRequest_grows ShutdownWorker Loses (does (ReportsUnavailable reason) (setUnavailable l)))].
  apply (closeLink_grows (does (ReportsUnavailable reason) (setUnavailable l))).
Qed.

Lemma fail_grows error l : linkGrows l (fail error l).
Proof.
  unfold linkGrows, fail. destruct (negb (settled l)); [apply callsGrow_refl|]. apply callsGrow_foldl.
  intros cs e. apply callsGrow_alter. intros c. apply grows_settle.
Qed.

Lemma terminate_grows reason l : linkGrows l (terminate reason l).
Proof.
  unfold terminate. eapply linkGrows_trans; [apply withdraw_grows|].
  eapply linkGrows_trans; [|eapply linkGrows_trans; [apply fail_grows|apply callsGrow_refl]].
  apply callsGrow_foldl. intros cs [k [n [a|]]]; [|apply callsGrow_refl]. apply callsGrow_alter. intros c. apply grows_hand.
Qed.

Lemma acceptHello_grows candidate l : linkGrows l (acceptHello candidate l).
Proof. unfold acceptHello. repeat case_match; apply callsGrow_refl. Qed.

Lemma onFrame_grows data l : linkGrows l (onFrame data l).
Proof.
  unfold onFrame. destruct (parseWorkerFrame data) as [frame|]; [|apply callsGrow_refl].
  destruct (has frame "ok").
  - unfold handleReply. destruct (_ ≫= _) as [[id n]|]; [|apply callsGrow_refl]. apply callsGrow_alter. intros c. apply grows_settle.
  - destruct (eq_str _ "hello"); [apply acceptHello_grows|]. unfold handlePush.
    destruct (eq_str _ "observation").
    + destruct (_ ≫= _) as [[o held]|]; [|apply callsGrow_refl]. destruct (nullish _); [apply callsGrow_refl|].
      unfold handFrame. destruct (eq_str _ "closed"); apply callsGrow_alter; intros c; apply grows_hand.
    + destruct (eq_str _ "event"); [apply callsGrow_refl|]. destruct (eq_str _ "unavailable"); [apply terminate_grows|apply callsGrow_refl].
Qed.

Lemma resumes_grows n l l' : resumes n l = Some l' → linkGrows l l'.
Proof.
  intros (c & Ec & H)%bind_Some. destruct (resumed c); [done|].
  assert (linkGrows l (setCalls (alter resume n (calls l)) l)) as Hr by (apply callsGrow_alter, grows_resume).
  destruct (outcome c); [done|..]; injection H as <-; destruct (request c); try exact Hr; try (destruct (nullish _)); exact Hr.
Qed.

Lemma linkStep_grows e l l' : linkStep e l = Some l' → linkGrows l l'.
Proof.
  intros H. destruct e; simpl in H.
  - destruct (greeted l); [|done]. injection H as <-. apply (makeRequest_grows _ _ (addRoute _ _)).
  - destruct (greeted l); [|done]. injection H as <-. apply (makeRequest_grows _ _ (addRoute _ _)).
  - destruct (greeted l); [|done]. destruct (opens r); [done|]. destruct r; simplify_eq; apply makeRequest_grows.
  - destruct (greeted l); [|done]. apply bind_Some in H as (c & Ec & (o & Ho & H)%bind_Some).
    destruct (outcome c), (resumed c); try done. destruct (observations l !! o); injection H as <-; [apply (makeRequest_grows _ _ (setObservations _ _))|apply callsGrow_refl].
  - by eapply resumes_grows.
  - destruct (greeted l); [|done]. injection H as <-. apply closeLink_grows.
  - injection H as <-. apply acceptHello_grows.
  - destruct (readyState l); simplify_eq; apply callsGrow_refl.
  - destruct (readyState l); simplify_eq; apply onFrame_grows.
  - unfold heartbeatTick in H. destruct (heartbeat l); [|done]. injection H as <-. destruct silent; [apply terminate_grows|apply callsGrow_refl].
  - injection H as <-. unfold handshakeTimeout. destruct (settled l); apply callsGrow_refl.
  - injection H as <-. unfold rejectConnect. destruct (settled l); apply callsGrow_refl.
  - unfold socketClosed in H. destruct (readyState l); simplify_eq;
      (eapply linkGrows_trans; [apply (withdraw_grows "worker link closed" (stopHeartbeat (setReady CLOSED l)))|apply fail_grows]).
Qed.

Lemma runLink_grows es l l' : runLink es l = Some l' → linkGrows l l'.
Proof.
  revert l. induction es as [|e es IH]; intros l; simpl; [intros [= ->]; apply callsGrow_refl|].
  intros (l1 & H1 & H2)%bind_Some. eapply linkGrows_trans; [by eapply linkStep_grows|by apply IH].
Qed.

(** ** Promises *)

(** The pending ids are those of the calls that wait, and were minted. *)
Record promises_core (m : gmap string nat) (cs : list Call) (k : nat) : Prop := {
  pc_pending : ∀ id n, m !! id = Some n → ∃ c, cs !! n = Some c ∧ callId c = Some id ∧ outcome c = Pending;
  pc_waiting : ∀ n c, cs !! n = Some c → outcome c = Pending → ∃ id, callId c = Some id ∧ m !! id = Some n;
  pc_minted : ∀ n c id, cs !! n = Some c → callId c = Some id → ∃ j, j < k ∧ id = uuid j
}.

Record link_core (l : Link) : Prop := {
  lc_core : promises_core (pending l) (calls l) (minted l);
  lc_start : settled l = false → calls l = [];
  lc_greeted : greeted l = true → settled l = true
}.

(** No promise waits on a link that is unavailable. *)
Definition link_ok (l : Link) : Prop := link_core l ∧ (unavailable l = true → pending l = ∅).

Lemma core_alter f n m cs k :
  (∀ c, callId (f c) = callId c ∧ outcome (f c) = outcome c) → promises_core m cs k → promises_core m (alter f n cs) k.
Proof.
  intros Hf [Hp Hw Hm]. split.
  - intros id i (c & E & Hid & Ho)%Hp. destruct (decide (i = n)) as [-> | Hne].
    + exists (f c). rewrite list_lookup_alter_eq, E. destruct (Hf c) as [-> ->]. done.
    + exists c. by rewrite list_lookup_alter_ne.
  - intros i c [(-> & c0 & E & ->) | [_ E]]%alter_lookup_Some; [|by apply Hw]. destruct (Hf c0) as [-> ->]. by apply Hw.
  - intros i c id [(-> & c0 & E & ->) | [_ E]]%alter_lookup_Some; [|by eapply Hm]. destruct (Hf c0) as [-> _]. by eapply Hm.
Qed.

Lemma core_mint m cs k k' : k ≤ k' → promises_core m cs k → promises_core m cs k'.
Proof.
  intros Hk [Hp Hw Hm]. split; [done..|]. intros n c id E Hid. destruct (Hm n c id E Hid) as (j & ? & ->). exists j. split; [lia|done].
Qed.

Lemma settleCall_pending o c : o ≠ Pending → outcome (settleCall o c) ≠ Pending.
Proof. simpl. by destruct (outcome c). Qed.

Lemma core_settle o id n m cs k :
  o ≠ Pending → m !! id = Some n → promises_core m cs k → promises_core (delete id m) (alter (settleCall o) n cs) k.
Proof.
  intros Ho Hid [Hp Hw Hm]. split.
  - intros id' i [Hne E]%lookup_delete_Some. destruct (Hp _ _ E) as (c & Ec & Hc & Hout). exists c.
    rewrite list_lookup_alter_ne; [done|]. intros ->. destruct (Hp _ _ Hid) as (c' & ? & ? & _). congruence.
  - intros i c [(-> & c0 & E & ->) | [Hne E]]%alter_lookup_Some Hout; [by destruct (settleCall_pending o c0 Ho)|].
    destruct (Hw i c E Hout) as (id' & Hc & Hl). exists id'. split; [done|]. rewrite lookup_delete_ne; [done|]. intros ->. congruence.
  - intros i c id' [(-> & c0 & E & ->) | [_ E]]%alter_lookup_Some Hc; exact (Hm _ _ _ E Hc).
Qed.

Lemma core_add r m cs k :
  promises_core m cs k → promises_core (<[uuid k := length cs]> m) (cs ++ [mkCall r (Some (uuid k)) Pending false []]) (S k).
Proof.
  intros [Hp Hw Hm]. split.
  - intros id n [[<- <-] | [Hne E]]%lookup_insert_Some.
    + eexists. by rewrite lookup_app_r, Nat.sub_diag by done.
    + destruct (Hp _ _ E) as (c & Ec & ?). exists c. split; [by apply lookup_app_l_Some|done].
  - intros n c [[_ E] | [-> <-]]%lookup_snoc_Some Hout.
    + destruct (Hw n c E Hout) as (id & Hc & Hl). exists id. split; [done|]. rewrite lookup_insert_ne; [done|].
      intros <-. destruct (Hm n c (uuid k) E Hc) as (j & Hj & Heq). apply Huuid in Heq. lia.
    + exists (uuid k). by rewrite lookup_insert_eq.
  - intros n c id [[_ E] | [-> <-]]%lookup_snoc_Some Hc; [|exists k; simplify_eq/=; split; [lia|done]].
    destruct (Hm n c id E Hc) as (j & ? & ->). exists j. split; [lia|done].
Qed.

Lemma core_add_settled r id o m cs k :
  o ≠ Pending → (id = None ∨ id = Some (uuid k)) → promises_core m cs k →
  promises_core m (cs ++ [mkCall r id o false []]) (match id with None => k | Some _ => S k end).
Proof.
  intros Ho Hid [Hp Hw Hm]. split.
  - intros id' n E. destruct (Hp _ _ E) as (c & Ec & ?). exists c. split; [by apply lookup_app_l_Some|done].
  - intros n c [[_ E] | [-> <-]]%lookup_snoc_Some Hout; [by apply Hw|by destruct Ho].
  - intros n c id' [[_ E] | [-> <-]]%lookup_snoc_Some Hc; simpl in *.
    + destruct (Hm n c id' E Hc) as (j & ? & ->). exists j. split; [destruct id; lia|done].
    + destruct Hid as [-> | ->]; simplify_eq. exists k. split; [lia|done].
Qed.

Lemma rejectAll_lookup error m cs n :
  rejectAll error m cs !! n = (if decide (n ∈ (map_to_list m).*2) then settleCall (Rejected error) <$> cs !! n else cs !! n).
Proof. apply foldl_alter_lookup. intros c. unfold settleCall. simpl. by destruct (outcome c). Qed.

Lemma core_rejectAll error m cs k : promises_core m cs k → promises_core ∅ (rejectAll error m cs) k.
Proof.
  intros [Hp Hw Hm]. split; [done|..].
  - intros n c E Hout. rewrite rejectAll_lookup in E. destruct (decide _) as [Hin | Hnin].
    + apply fmap_Some in E as (c0 & E & ->). by destruct (settleCall_pending (Rejected error) c0).
    + destruct Hnin. apply map_values_spec. destruct (Hw n c E Hout) as (id & _ & Hl). by exists id.
  - intros n c id E Hc. rewrite rejectAll_lookup in E. destruct (decide _); [|by eapply Hm].
    apply fmap_Some in E as (c0 & E & ->). exact (Hm _ _ _ E Hc).
Qed.

Lemma makeRequest_ok r send l : greeted l = true → link_ok l → link_ok (makeRequest r send l).
Proof.
  intros Hg [[Hc Hs Hgs] Hu]. specialize (Hgs Hg). unfold makeRequest. destruct (unavailable l) eqn:Eu.
  { split; [split|]; simpl; try congruence; [|auto]. by apply (core_add_settled r None _ _ _ (minted l)); [|left|]. }
  destruct send as [| |error]; (split; [split|]); simpl; try congruence.
  - by apply core_add.
  - by apply core_add.
  - rewrite alter_snoc. apply (core_add_settled r (Some (uuid (minted l))) (Rejected error)); [done|by right|done].
Qed.

Lemma link_ok_alter f n l :
  (∀ c, callId (f c) = callId c ∧ outcome (f c) = outcome c) → link_core l → link_core (setCalls (alter f n (calls l)) l).
Proof.
  intros Hf [Hc Hs Hg]. split; simpl; [by apply core_alter| |done]. intros H. by rewrite (Hs H).
Qed.

Lemma withdraw_core reason l :
  link_ok l → link_core (withdraw reason l) ∧ greeted (withdraw reason l) = greeted l ∧ unavailable (withdraw reason l) = true.
Proof.
  intros [Hc Hu]. unfold withdraw. destruct (unavailable l) eqn:Eu; [done|]. destruct (greeted l) eqn:Eg; cbn [negb]; [|by destruct Hc].
  assert (link_core (does (ReportsUnavailable reason) (setUnavailable l))) as Hc' by by destruct Hc.
  destruct onUnavailable; [by split_and!| |].
  - unfold closeLink. destruct (readyState _); by destruct Hc.
  - unfold makeRequest. simpl. destruct Hc as [Hc Hs Hg]. split_and!; [split|done..]; simpl; [|by rewrite Hg|done].
    by apply (core_add_settled ShutdownWorker None _ _ _ (minted l)); [|left|].
Qed.

Lemma fail_ok error l : link_core l → link_ok (fail error l) ∧ pending (fail error l) = ∅.
Proof.
  intros [Hc Hs Hg]. unfold fail. destruct (settled l) eqn:E; cbn [negb].
  - split; [|done]. split; [|done]. split; simpl; [by eapply core_rejectAll|congruence|done].
  - specialize (Hs eq_refl). assert (pending l = ∅) as Hp.
    { apply map_eq. intros id. rewrite lookup_empty. destruct (pending l !! id) as [n|] eqn:En; [|done].
      destruct (pc_pending _ _ _ Hc _ _ En) as (c & Ec & _). by rewrite Hs in Ec. }
    split; [|done]. split; [|done]. by split; simpl.
Qed.

Lemma terminate_ok reason l : link_ok l → link_ok (terminate reason l) ∧ unavailable (terminate reason l) = true.
Proof.
  intros H. destruct (withdraw_core reason l H) as (Hc & _ & Hu). unfold terminate. set (l1 := withdraw reason l) in *.
  assert (link_core (setCalls (foldl (λ cs e, endRoute cs e.2) (calls l1) (map_to_list (observations l1))) l1)) as Hc2.
  { generalize (map_to_list (observations l1)). intros xs. assert (l1 = setCalls (calls l1) l1) as Hl by by destruct l1. rewrite Hl in Hc. clear Hl.
    revert Hc. generalize (calls l1). induction xs as [|x xs IH]; intros cs Hc; [done|]. cbn [foldl]. apply IH.
    unfold endRoute. destruct (address x.2) as [a|]; [|done]. by apply (link_ok_alter (handTo (closedFrame a)) _ (setCalls cs l1)). }
  destruct (fail_ok reason _ Hc2) as [[Hc3 Hp3] _]. split.
  - split; [by destruct Hc3|done].
  - unfold fail. destruct (settled _); exact Hu.
Qed.

Lemma acceptHello_ok candidate l : link_ok l → link_ok (acceptHello candidate l).
Proof.
  intros [[Hc Hs Hg] Hu]. unfold acceptHello, refuseHello. repeat case_match; (split; [split|]); simpl; auto; try done; congruence.
Qed.

Lemma onFrame_ok data l : link_ok l → link_ok (onFrame data l).
Proof.
  intros H. unfold onFrame. destruct (parseWorkerFrame data) as [frame|]; [|done]. destruct (has frame "ok").
  - unfold handleReply. destruct (opt_str _) as [id|]; [|done]. simpl. destruct (pending l !! id) as [n|] eqn:En; [|done]. simpl.
    destruct H as [[Hc Hs Hg] Hu]. split; [split|]; simpl; [|by intros E; rewrite Hs|done|].
    + apply core_settle; [by destruct (truthy _)|done|done].
    + intros E. by rewrite (Hu E), delete_empty.
  - destruct (eq_str _ "hello"); [by apply acceptHello_ok|]. unfold handlePush. destruct (eq_str _ "observation").
    + destruct (_ ≫= _) as [[o held]|]; [|done]. destruct (nullish _); [by destruct H as [[] ?]|].
      unfold handFrame. destruct H as [Hc Hu]. split; [|by destruct (eq_str _ "closed")]. destruct (eq_str _ "closed").
      * apply (link_ok_alter _ _ (setObservations _ l)); [done|by destruct Hc].
      * by apply link_ok_alter.
    + destruct (eq_str _ "event"); [by destruct H as [[] ?]|]. destruct (eq_str _ "unavailable"); [by apply terminate_ok|done].
Qed.

Lemma resumes_ok n l l' : resumes n l = Some l' → link_ok l → link_ok l'.
Proof.
  intros (c & Ec & H)%bind_Some [Hc Hu]. destruct (resumed c); [done|].
  assert (link_ok (setCalls (alter resume n (calls l)) l)) as Hr by (split; [by apply link_ok_alter|done]).
  assert (∀ m, link_ok (setObservations m (setCalls (alter resume n (calls l)) l))) as Hm by by (intros m; destruct Hr as [[] ?]).
  destruct (outcome c); [done|..]; injection H as <-; destruct (request c); try exact Hr; try apply Hm; try (destruct (nullish _); apply Hm).
  all: specialize (Hm ∅); by destruct Hm as [[] ?].
Qed.

Lemma socketClosed_ok l l' : socketClosed l = Some l' → link_ok l → link_ok l' ∧ unavailable l' = true.
Proof.
  intros H Hok. assert (∃ r, l' = does ClosedResolves (fail "worker link closed" (withdraw "worker link closed" r)) ∧ link_ok r) as (r & -> & Hr).
  { exists (stopHeartbeat (setReady CLOSED l)). unfold socketClosed in H. destruct Hok as [[] ?], (readyState l); by simplify_eq. }
  destruct (withdraw_core "worker link closed" r Hr) as (Hc & _ & Hu). destruct (fail_ok "worker link closed" _ Hc) as [[Hf ?] _].
  split; [split; [by destruct Hf|done]|]. unfold fail. by destruct (settled _).
Qed.

Lemma linkStep_ok e l l' : linkStep e l = Some l' → link_ok l → link_ok l'.
Proof.
  intros H Hok. assert (∀ g s a, (g = true → s = true) → (s = false → settled l = false) → link_ok (setConnect g s a l)) as Hconn.
  { intros g s a Hg Hs. destruct Hok as [[Hc Hst Hgs] Hu]. split; [split|]; simpl; auto. }
  destruct e; simpl in H.
  1-2: destruct (greeted l) eqn:Hg; [|done]; injection H as <-; unfold observeSession, createSession;
    apply makeRequest_ok; [done|]; destruct Hok as [[Hc Hst Hgs] Hu]; (split; [split|]); simpl; auto; by apply (core_mint _ _ (minted l)); [lia|].
  - destruct (greeted l) eqn:Hg; [|done]. destruct (opens r); [done|]. destruct r; simplify_eq; by apply makeRequest_ok.
  - destruct (greeted l) eqn:Hg; [|done]. apply bind_Some in H as (c & Ec & (o & Ho & H)%bind_Some).
    destruct (outcome c), (resumed c); try done. destruct (observations l !! o); injection H as <-; [|done].
    apply makeRequest_ok; [done|by destruct Hok as [[] ?]].
  - by eapply resumes_ok.
  - destruct (greeted l) eqn:Hg; [|done]. injection H as <-. unfold closeLink. destruct (readyState _); by destruct Hok as [[] ?].
  - injection H as <-. by apply acceptHello_ok.
  - destruct (readyState l); simplify_eq; by destruct Hok as [[] ?].
  - destruct (readyState l); simplify_eq; by apply onFrame_ok.
  - unfold heartbeatTick in H. destruct (heartbeat l); [|done]. injection H as <-. destruct silent; [by apply terminate_ok|by destruct Hok as [[] ?]].
  - injection H as <-. unfold handshakeTimeout. destruct (settled l) eqn:Es; [done|].
    destruct (Hconn (greeted l) true (heartbeat l)) as [[] ?]; [done..|]. done.
  - injection H as <-. unfold rejectConnect. destruct (settled l) eqn:Es; [done|].
    destruct (Hconn (greeted l) true (heartbeat l)) as [[] ?]; [done..|]. done.
  - by eapply socketClosed_ok.
Qed.

Lemma adoptLink_ok r : link_ok (adoptLink r).
Proof. by split; [split; [split|..]|]. Qed.

Lemma runLink_ind (P : Link → Prop) es l l' :
  (∀ e l1 l2, P l1 → linkStep e l1 = Some l2 → P l2) → P l → runLink es l = Some l' → P l'.
Proof.
  intros Hs. revert l. induction es as [|e es IH]; intros l Hl; simpl; [by intros [= <-]|].
  intros (l1 & H1 & H2)%bind_Some. eapply IH; [by eapply Hs|done].
Qed.

Lemma reachable_link_ok l : linkReachable l → link_ok l.
Proof.
  intros (r & es & H). eapply (runLink_ind link_ok); [|apply (adoptLink_ok r)|exact H]. intros e l1 l2 ? ?. by eapply linkStep_ok.
Qed.

Lemma terminate_unavailable reason l : unavailable l = true → unavailable (terminate reason l) = true.
Proof.
  intros H. unfold terminate, withdraw. rewrite H. unfold fail. simpl. by destruct (negb (settled l)).
Qed.

Lemma linkStep_unavailable e l l' : linkStep e l = Some l' → unavailable l = true → unavailable l' = true.
Proof.
  intros H Hu. assert (∀ r send l, unavailable l = true → unavailable (makeRequest r send l) = true) as Hreq
    by (intros r send l1 H1; unfold makeRequest; by rewrite H1).
  destruct e; simpl in H.
  - destruct (greeted l); simplify_eq. by apply Hreq.
  - destruct (greeted l); simplify_eq. by apply Hreq.
  - destruct (greeted l); [|done]. destruct (opens r); [done|]. destruct r; simplify_eq; by apply Hreq.
  - destruct (greeted l); [|done]. apply bind_Some in H as (c & Ec & (o & Ho & H)%bind_Some).
    destruct (outcome c), (resumed c); try done. destruct (observations l !! o); simplify_eq; [by apply Hreq|done].
  - apply bind_Some in H as (c & Ec & H). destruct (resumed c); [done|].
    destruct (outcome c); [done|..]; injection H as <-; destruct (request c); try done; by repeat case_match.
  - destruct (greeted l); simplify_eq. unfold closeLink. by destruct (readyState _).
  - simplify_eq. unfold acceptHello, refuseHello. by repeat case_match.
  - destruct (readyState l); by simplify_eq.
  - assert (l' = onFrame data l) as -> by (destruct (readyState l); by simplify_eq). unfold onFrame.
    destruct (parseWorkerFrame data) as [f|]; [|done]. destruct (has f "ok"); [unfold handleReply; by destruct (_ ≫= _) as [[]|]|].
    destruct (eq_str _ "hello"); [unfold acceptHello, refuseHello; by repeat case_match|]. unfold handlePush, handFrame.
    destruct (eq_str _ "observation"); [destruct (_ ≫= _) as [[]|]; [|done]; destruct (nullish _); [done|by destruct (eq_str _ _)]|].
    destruct (eq_str _ "event"); [done|]. destruct (eq_str _ "unavailable"); [by apply terminate_unavailable|done].
  - unfold heartbeatTick in H. destruct (heartbeat l); simplify_eq. destruct silent; [by apply terminate_unavailable|done].
  - simplify_eq. unfold handshakeTimeout. by destruct (settled l).
  - simplify_eq. unfold rejectConnect. by destruct (settled l).
  - unfold socketClosed, withdraw in H. simpl in H. rewrite Hu in H. destruct (readyState l); simplify_eq; unfold fail; simpl; by destruct (negb (settled l)).
Qed.

End link.

#[global] Arguments withdraw_grows {_ _} _ _.
#[global] Arguments makeRequest_grows {_} _ _ _.
#[global] Arguments linkStep_grows {_ _ _} _ _ _ _.
#[global] Arguments linkStep_ok {_ _ _ _} _ _ _ _ _.
#[global] Arguments terminate_ok {_ _} _ _ _.
#[global] Arguments reachable_link_ok {_ _ _ _} _ _.
#[global] Arguments runLink_ind {_ _ _} _ _ _ _ _ _ _.
#[global] Arguments runLink_grows {_ _ _} _ _ _ _.
#[global] Arguments socketClosed_ok {_ _} _ _ _ _.
#[global] Arguments linkStep_unavailable {_ _ _} _ _ _ _ _.
#[global] Arguments lc_core {_} _ _.
#[global] Arguments lc_start {_} _ _.
#[global] Arguments lc_greeted {_} _ _.
#[global] Arguments pc_waiting {_ _ _ _} _ _ _ _ _.
