(* ===== verification/LinkStreams.v ===== *)
(** * What becomes of the calls and the streams of a worker link

    Over [Link]: the routes of the observations, what each event does to the stream
    of one observation, and what is left when the link ends. *)

From S2P Require Export Link.

Section streams.
  Context (uuid : nat → string) `{Huuid : !Inj (=) (=) uuid} (accept : json → option string) (onUnavailable : DaemonReaction).

Abbreviation linkStep := (linkStep uuid accept onUnavailable).
Abbreviation runLink := (runLink uuid accept onUnavailable).
Abbreviation linkReachable := (linkReachable uuid accept onUnavailable).
Abbreviation makeRequest := (makeRequest uuid).
Abbreviation addRoute := (addRoute uuid).
Abbreviation withdraw := (withdraw uuid onUnavailable).
Abbreviation terminate := (terminate uuid onUnavailable).
Abbreviation socketClosed := (socketClosed uuid onUnavailable).
Abbreviation onFrame := (onFrame uuid accept onUnavailable).
Abbreviation link_core := (link_core uuid).
Abbreviation link_ok := (link_ok uuid).

(** ** Routes *)

(** Each observation has one call, and its route leads to that call's sink. *)
Record routes_ok (l : Link) : Prop := {
  rt_minted : ∀ n c o, calls l !! n = Some c → opens (request c) = Some o → ∃ j, j < minted l ∧ o = uuid j;
  rt_unique : ∀ n n' c c' o, calls l !! n = Some c → calls l !! n' = Some c' →
    opens (request c) = Some o → opens (request c') = Some o → n = n';
  rt_route : ∀ o r, observations l !! o = Some r → ∃ c, calls l !! sinkOf r = Some c ∧ opens (request c) = Some o ∧
    ∀ a cur, request c = ObserveSession a cur o → address r = Some a
}.

(** A step that opens nothing. *)
Record tame (l l' : Link) : Prop := {
  ta_new : ∀ n c, calls l' !! n = Some c → calls l !! n = None → opens (request c) = None;
  ta_routes : observations l' ⊆ observations l;
  ta_minted : minted l ≤ minted l'
}.

(** ... and hands nothing to a sink. *)
Definition quiet (l l' : Link) : Prop :=
  tame l l' ∧ ∀ n c, calls l !! n = Some c → ∃ c', calls l' !! n = Some c' ∧ request c' = request c ∧ sunk c' = sunk c.

Lemma old_request l l' n c c' : linkGrows l l' → calls l !! n = Some c → calls l' !! n = Some c' → request c' = request c.
Proof. intros H E E'. destruct (H n c E) as (c2 & E2 & [Hr _ _ _]). congruence. Qed.

Lemma tame_routes l l' : linkGrows l l' → tame l l' → routes_ok l → routes_ok l'.
Proof.
  intros Hg [Hn Hr Hm] [H1 H2 H3].
  assert (∀ n c' o, calls l' !! n = Some c' → opens (request c') = Some o → ∃ c, calls l !! n = Some c ∧ request c' = request c) as Hold.
  { intros n c' o E Ho. destruct (calls l !! n) as [c|] eqn:Ec; [exists c; split; [done|by eapply old_request]|].
    rewrite (Hn n c' E Ec) in Ho. done. }
  split.
  - intros n c' o E Ho. destruct (Hold n c' o E Ho) as (c & Ec & Hc). rewrite Hc in Ho.
    destruct (H1 n c o Ec Ho) as (j & ? & ->). exists j. split; [lia|done].
  - intros n n' c c' o E E' Ho Ho'. destruct (Hold n c o E Ho) as (c0 & Ec & Hc), (Hold n' c' o E' Ho') as (c0' & Ec' & Hc').
    rewrite Hc in Ho. rewrite Hc' in Ho'. by eapply H2.
  - intros o r E. destruct (H3 o r) as (c & Ec & Ho & Ha); [by eapply lookup_weaken|].
    destruct (Hg _ _ Ec) as (c' & Ec' & [Hreq _ _ _]). exists c'. by rewrite Hreq.
Qed.

Lemma tame_refl l : tame l l.
Proof. split; [congruence|done|done]. Qed.
Lemma tame_trans l1 l2 l3 : linkGrows l2 l3 → tame l1 l2 → tame l2 l3 → tame l1 l3.
Proof.
  intros Hg [N1 R1 M1] [N2 R2 M2]. split; [|by trans (observations l2)|lia]. intros n c E3 E1.
  destruct (calls l2 !! n) as [c2|] eqn:E2; [|by eapply N2]. rewrite (old_request _ _ _ _ _ Hg E2 E3). by eapply N1.
Qed.

Lemma quiet_refl l : quiet l l.
Proof. split; [apply tame_refl|]. intros n c E. by exists c. Qed.
Lemma quiet_trans l1 l2 l3 : linkGrows l2 l3 → quiet l1 l2 → quiet l2 l3 → quiet l1 l3.
Proof.
  intros Hg [T1 S1] [T2 S2]. split; [by eapply tame_trans|]. intros n c E. destruct (S1 n c E) as (c2 & E2 & R2 & K2).
  destruct (S2 n c2 E2) as (c3 & E3 & R3 & K3). exists c3. split_and!; [done|congruence..].
Qed.

(** The calls stay, up to their promises. *)
Definition sameSinks (cs cs' : list Call) : Prop :=
  length cs' = length cs ∧ ∀ n c, cs !! n = Some c → ∃ c', cs' !! n = Some c' ∧ request c' = request c ∧ sunk c' = sunk c.

Lemma sameSinks_refl cs : sameSinks cs cs.
Proof. split; [done|]. intros n c E. by exists c. Qed.
Lemma sameSinks_alter f n cs : (∀ c, request (f c) = request c ∧ sunk (f c) = sunk c) → sameSinks cs (alter f n cs).
Proof.
  intros Hf. split; [apply length_alter|]. intros k c E. destruct (decide (k = n)) as [-> | Hne].
  - exists (f c). rewrite list_lookup_alter_eq, E. split; [done|apply Hf].
  - exists c. by rewrite list_lookup_alter_ne.
Qed.
Lemma sameSinks_rejectAll error m cs : sameSinks cs (rejectAll error m cs).
Proof.
  unfold rejectAll. generalize (map_to_list m). intros xs. revert cs. induction xs as [|x xs IH]; intros cs; [apply sameSinks_refl|].
  cbn [foldl]. destruct (IH (alter (settleCall (Rejected error)) x.2 cs)) as [L1 H1]. rewrite length_alter in L1. split; [done|].
  intros n c E. destruct (sameSinks_alter (settleCall (Rejected error)) x.2 cs) as [_ H2]; [done|].
  destruct (H2 n c E) as (c2 & E2 & R2 & K2), (H1 n c2 E2) as (c3 & E3 & R3 & K3). exists c3. split_and!; [done|congruence..].
Qed.

Lemma quiet_shape l l' :
  sameSinks (calls l) (calls l') → observations l' ⊆ observations l → minted l ≤ minted l' → quiet l l'.
Proof.
  intros [Hl Hs] Ho Hm. split; [split; [|done..]|done]. intros n c E%lookup_lt_Some En%lookup_ge_None. lia.
Qed.

Lemma quiet_snoc l l' c :
  calls l' = calls l ++ [c] → opens (request c) = None → observations l' ⊆ observations l → minted l ≤ minted l' → quiet l l'.
Proof.
  intros E Hc Ho Hm. split; [split; [|done..]|]; rewrite E.
  - intros n c' [[_ E'] | [_ <-]]%lookup_snoc_Some En; [congruence|done].
  - intros n c' E'. exists c'. split; [by apply lookup_app_l_Some|done].
Qed.

Lemma makeRequest_quiet r send l : opens r = None → quiet l (makeRequest r send l).
Proof.
  intros Hr. unfold makeRequest.
  destruct (unavailable l), send; (eapply quiet_snoc; [simpl; rewrite ?alter_snoc; reflexivity|exact Hr|done|simpl; lia]).
Qed.

Lemma closeLink_quiet l : quiet l (closeLink l).
Proof. unfold closeLink. apply quiet_shape; destruct (readyState _); try done; try apply sameSinks_refl; apply map_empty_subseteq. Qed.

Lemma withdraw_quiet reason l : quiet l (withdraw reason l).
Proof.
  unfold withdraw. destruct (unavailable l), (greeted l); try apply quiet_refl; [|apply quiet_shape; [apply sameSinks_refl|done|done]].
  assert (quiet l (does (ReportsUnavailable reason) (setUnavailable l))) as Hq by by apply quiet_shape; [apply sameSinks_refl|..].
  cbn [negb]. destruct onUnavailable; [done|refine (quiet_trans _ _ _ _ Hq _)..].
  - apply closeLink_grows.
  - apply closeLink_quiet.
  - apply makeRequest_grows.
  - by apply makeRequest_quiet.
Qed.

Lemma fail_quiet error l : quiet l (fail error l).
Proof.
  unfold fail. destruct (negb (settled l)); apply quiet_shape; try done; [apply sameSinks_refl|apply sameSinks_rejectAll|apply map_empty_subseteq].
Qed.

(** *** Terminal frames *)

Lemma endRoutes_none (xs : list (string * Route)) cs n :
  (∀ e, e ∈ xs → sinkOf e.2 ≠ n) → foldl (λ cs e, endRoute cs e.2) cs xs !! n = cs !! n.
Proof.
  revert cs. induction xs as [|x xs IH]; intros cs Hx; [done|]. cbn [foldl]. rewrite IH by by (intros e He; apply Hx; right).
  unfold endRoute. destruct (address x.2); [|done]. apply list_lookup_alter_ne. apply Hx. left.
Qed.

Lemma endRoutes_some (xs : list (string * Route)) cs n o r a :
  NoDup ((λ e : string * Route, sinkOf e.2) <$> xs) → (o, r) ∈ xs → sinkOf r = n → address r = Some a →
  foldl (λ cs e, endRoute cs e.2) cs xs !! n = handTo (closedFrame a) <$> cs !! n.
Proof.
  intros Hnd Hin <- Ha. revert cs Hnd Hin. induction xs as [|x xs IH]; intros cs; cbn [foldl fmap list_fmap]; [by intros _ ?%elem_of_nil|].
  assert (∀ e, e ∈ xs → sinkOf e.2 ∈ (λ e : string * Route, sinkOf e.2) <$> xs) as Hf'
    by (intros e He; by apply (list_elem_of_fmap_2 (λ e : string * Route, sinkOf e.2))).
  intros [Hnin Hnd]%NoDup_cons [<- | Hin]%elem_of_cons.
  - rewrite endRoutes_none.
    + unfold endRoute. cbn [snd]. rewrite Ha. by rewrite list_lookup_alter_eq.
    + intros e He Heq. destruct Hnin. cbn [snd]. rewrite <- Heq. by apply Hf'.
  - rewrite IH by done. f_equal. unfold endRoute. destruct (address x.2); [|done]. apply list_lookup_alter_ne.
    intros Heq. destruct Hnin. rewrite Heq. by apply (Hf' (o, r)).
Qed.

Lemma routes_nodup l : routes_ok l → NoDup ((λ e : string * Route, sinkOf e.2) <$> map_to_list (observations l)).
Proof.
  intros [_ Hu Hr]. apply NoDup_fmap_2_strong; [|apply NoDup_map_to_list].
  intros [o r] [o' r'] Ho%elem_of_map_to_list Ho'%elem_of_map_to_list Heq. simpl in Heq.
  destruct (Hr o r Ho) as (c & Ec & Hc & _), (Hr o' r' Ho') as (c' & Ec' & Hc' & _). rewrite Heq in Ec. simplify_eq. congruence.
Qed.

Lemma tame_shape l l' :
  length (calls l') = length (calls l) → observations l' ⊆ observations l → minted l ≤ minted l' → tame l l'.
Proof. intros Hl Ho Hm. split; [|done..]. intros n c E%lookup_lt_Some En%lookup_ge_None. lia. Qed.

Definition endRoutes (l : Link) : Link :=
  setCalls (foldl (λ cs e, endRoute cs e.2) (calls l) (map_to_list (observations l))) l.

Lemma terminate_unfold reason l :
  terminate reason l = closeSocket None (stopHeartbeat (fail reason (endRoutes (withdraw reason l)))).
Proof. done. Qed.

Lemma endRoutes_length l : length (calls (endRoutes l)) = length (calls l).
Proof.
  unfold endRoutes. simpl. generalize (map_to_list (observations l)) (calls l). intros xs. induction xs as [|x xs IH]; intros cs; [done|].
  cbn [foldl]. rewrite IH. unfold endRoute. destruct (address x.2); [apply length_alter|done].
Qed.

Lemma endRoutes_grows l : linkGrows l (endRoutes l).
Proof.
  apply callsGrow_foldl. intros cs [k [n [a|]]]; [|apply callsGrow_refl]. apply callsGrow_alter. intros c. apply grows_hand.
Qed.

Lemma withdraw_settled reason l : settled (withdraw reason l) = settled l.
Proof.
  unfold withdraw. destruct (unavailable l), (greeted l); try done; cbn [negb]. destruct onUnavailable; try done.
  unfold closeLink. by destruct (readyState _).
Qed.


Lemma terminate_tame reason l : tame l (terminate reason l).
Proof.
  rewrite terminate_unfold. set (l1 := withdraw reason l). destruct (withdraw_quiet reason l) as [T1 _].
  assert (tame l1 (endRoutes l1)) as T2 by (apply tame_shape; [apply endRoutes_length|done|done]).
  destruct (fail_quiet reason (endRoutes l1)) as [T3 _].
  assert (tame l (fail reason (endRoutes l1))) as [N R M].
  { eapply tame_trans; [apply fail_grows| |exact T3]. eapply tame_trans; [apply endRoutes_grows|exact T1|exact T2]. }
  by split.
Qed.

Lemma endRoutes_untouched (xs : list (string * Route)) cs n :
  ¬ Exists (λ e, sinkOf e.2 = n ∧ is_Some (address e.2)) xs → foldl (λ cs e, endRoute cs e.2) cs xs !! n = cs !! n.
Proof.
  revert cs. induction xs as [|x xs IH]; intros cs Hno; [done|]. cbn [foldl]. rewrite IH by (intros H; apply Hno; by right).
  unfold endRoute. destruct (address x.2) as [a|] eqn:Ea; [|done]. apply list_lookup_alter_ne. intros Heq. apply Hno. left.
  split; [done|by exists a].
Qed.

(** A terminal frame for each route with an address, and nothing else. *)
Definition endedBy (l : Link) (n : nat) (c c' : Call) : Prop :=
  request c' = request c ∧
  (sunk c' = sunk c ∨ ∃ o r a, observations l !! o = Some r ∧ sinkOf r = n ∧ address r = Some a ∧ sunk c' = sunk c ++ [closedFrame a]) ∧
  (∀ o r a, observations l !! o = Some r → sinkOf r = n → address r = Some a → sunk c' = sunk c ++ [closedFrame a]).

Lemma endRoutes_sunk l n c :
  routes_ok l → calls l !! n = Some c → ∃ c', calls (endRoutes l) !! n = Some c' ∧ endedBy l n c c'.
Proof.
  intros Hr E. assert (∀ o r a, observations l !! o = Some r → sinkOf r = n → address r = Some a →
    calls (endRoutes l) !! n = Some (handTo (closedFrame a) c)) as Hhit.
  { intros o r a Ho Hn Ha. apply elem_of_map_to_list in Ho. unfold endRoutes. simpl.
    by rewrite (endRoutes_some _ (calls l) n o r a (routes_nodup l Hr) Ho Hn Ha), E. }
  destruct (decide (Exists (λ e, sinkOf e.2 = n ∧ is_Some (address e.2)) (map_to_list (observations l)))) as [Hex | Hno].
  - apply Exists_exists in Hex as ([o r] & Hin%elem_of_map_to_list & Hn & a & Ha). simpl in *.
    pose proof (Hhit o r a Hin Hn Ha) as Hc. exists (handTo (closedFrame a) c). split; [done|]. split; [done|]. split; [right; by exists o, r, a|].
    intros o' r' a' Ho' Hn' Ha'. pose proof (Hhit o' r' a' Ho' Hn' Ha') as Hc'.
    assert (handTo (closedFrame a) c = handTo (closedFrame a') c) as -> by congruence. done.
  - exists c. split; [|split; [done|split; [by left|]]].
    + unfold endRoutes. simpl. by rewrite endRoutes_untouched.
    + intros o r a Ho Hn Ha. destruct Hno. apply Exists_exists. exists (o, r). split; [by apply elem_of_map_to_list|].
      split; [done|by exists a].
Qed.

(** What [terminate] hands to the sink of a call. *)
Lemma terminate_sunk reason l n c :
  routes_ok l → calls l !! n = Some c →
  ∃ c', calls (terminate reason l) !! n = Some c' ∧ endedBy (withdraw reason l) n c c'.
Proof.
  intros Hr E. destruct (withdraw_quiet reason l) as [T Hq]. destruct (Hq n c E) as (c1 & E1 & R1 & K1).
  pose proof (tame_routes _ _ (withdraw_grows reason l) T Hr) as Hr1. rewrite terminate_unfold. set (l1 := withdraw reason l) in *.
  destruct (endRoutes_sunk l1 n c1 Hr1 E1) as (c2 & E2 & R2 & K2). destruct (fail_quiet reason (endRoutes l1)) as [_ Hq3].
  destruct (Hq3 n c2 E2) as (c3 & E3 & R3 & K3). exists c3. split; [exact E3|]. unfold endedBy. rewrite <- K1, K3. split; [congruence|exact K2].
Qed.

(** ** What a step does to the routes *)

(** The frame a text carries for an observation. *)
Definition pushedTo (o : string) (data : option json) : option json :=
  frame ← parseWorkerFrame data;
  if has frame "ok" || negb (eq_str (get frame "kind") "observation") || negb (eq_str (get frame "observation") o)
     || nullish (get frame "frame")
  then None else Some (get frame "frame").

Definition arrival (e : LinkEvent) (o : string) : option json :=
  match e with Receives data => pushedTo o data | _ => None end.

(** A new observation. *)
Record opened (l l' : Link) (c : Call) (a : option json) : Prop := {
  op_calls : calls l' = calls l ++ [c];
  op_opens : opens (request c) = Some (uuid (minted l));
  op_sunk : sunk c = [];
  op_routes : observations l' = <[uuid (minted l) := mkRoute (length (calls l)) a]> (observations l);
  op_minted : minted l < minted l';
  op_address : ∀ x cur o, request c = ObserveSession x cur o → a = Some x
}.

(** The session of an observation has been created. *)
Record readdressed (l l' : Link) (n : nat) (c : Call) (o : string) (a : json) : Prop := {
  re_call : calls l !! n = Some c;
  re_calls : calls l' = alter resume n (calls l);
  re_request : ∃ p text images model level, request c = CreateSession p o text images model level;
  re_routes : observations l' = <[o := mkRoute n (Some a)]> (observations l);
  re_minted : minted l' = minted l
}.

Lemma makeRequest_opened r send l a :
  opens r = Some (uuid (minted l)) → (∀ x cur o, r = ObserveSession x cur o → a = Some x) →
  ∃ c, request c = r ∧ opened l (makeRequest r send (addRoute a l)) c a.
Proof.
  intros Ho Ha. unfold makeRequest. simpl. destruct (unavailable l), send; eexists (mkCall r _ _ false []);
    (split; [reflexivity|split; simpl; rewrite ?alter_snoc; try reflexivity; try done; try lia]).
Qed.

Lemma resumes_kind n l l' : resumes n l = Some l' → quiet l l' ∨ ∃ c o a, readdressed l l' n c o a.
Proof.
  intros (c & Ec & H)%bind_Some. destruct (resumed c); [done|].
  assert (sameSinks (calls l) (alter resume n (calls l))) as Hs by by apply sameSinks_alter.
  destruct (outcome c) eqn:Eo; [done|..]; injection H as <-; destruct (request c) eqn:Er;
    try (left; apply quiet_shape; [exact Hs|done|done]);
    try (left; apply quiet_shape; [exact Hs|apply delete_subseteq|done]);
    try (left; apply quiet_shape; [exact Hs|apply map_empty_subseteq|done]).
  destruct (nullish result); [left; apply quiet_shape; [exact Hs|apply delete_subseteq|done]|].
  right. eexists c, _, _. split; [done|reflexivity|by eexists _, _, _, _, _|reflexivity|done].
Qed.

Lemma onFrame_kind data l :
  (quiet l (onFrame data l) ∧ ∀ o, is_Some (observations l !! o) → pushedTo o data = None) ∨
  (∃ reason, onFrame data l = terminate reason l ∧ ∀ o, pushedTo o data = None) ∨
  (∃ o held frame, observations l !! o = Some held ∧ pushedTo o data = Some frame ∧ onFrame data l = handFrame o held frame l ∧
     ∀ o', o' ≠ o → pushedTo o' data = None).
Proof.
  unfold onFrame, pushedTo. destruct (parseWorkerFrame data) as [frame|]; cbn [mbind option_bind]; [|left; split; [apply quiet_refl|done]].
  destruct (has frame "ok") eqn:Eok; cbn [orb].
  { left. split; [|done]. unfold handleReply. destruct (_ ≫= _) as [[id n]|]; [|apply quiet_refl].
    apply quiet_shape; [by apply sameSinks_alter|done|done]. }
  destruct (eq_str (get frame "kind") "hello") eqn:Eh.
  { left. apply eq_str_true in Eh. rewrite Eh. split; [|done]. unfold acceptHello, refuseHello.
    repeat case_match; apply quiet_shape; try done; apply sameSinks_refl. }
  unfold handlePush. destruct (eq_str (get frame "kind") "observation") eqn:Eob; cbn [negb orb].
  - destruct (get frame "observation") as [| | | |o| |] eqn:Eo; try (left; split; [apply quiet_refl|done]). cbn [opt_str mbind option_bind eq_str].
    destruct (observations l !! o) as [held|] eqn:Eh'; cbn [fmap option_fmap option_map].
    + destruct (nullish (get frame "frame")) eqn:En.
      * left. split; [by apply quiet_shape; [apply sameSinks_refl|..]|]. intros o' _. by rewrite orb_true_r.
      * right. right. exists o, held, (get frame "frame"). rewrite bool_decide_eq_true_2 by done. split_and!; [done..|].
        intros o' Hne. by rewrite bool_decide_eq_false_2.
    + left. split; [apply quiet_refl|]. intros o' [h Hh]. rewrite bool_decide_eq_false_2; [done|congruence].
  - destruct (eq_str _ "event"); [left; split; [by apply quiet_shape; [apply sameSinks_refl|..]|done]|].
    destruct (eq_str _ "unavailable"); [right; left; by eexists|]. left. split; [apply quiet_refl|done].
Qed.

Lemma socketClosed_quiet l l' : socketClosed l = Some l' → quiet l l' ∧ (settled l = true → observations l' = ∅).
Proof.
  intros H. set (l1 := stopHeartbeat (setReady CLOSED l)).
  assert (l' = does ClosedResolves (fail "worker link closed" (withdraw "worker link closed" l1))) as ->
    by (unfold socketClosed in H; destruct (readyState l); by simplify_eq).
  assert (quiet l l1) as H1 by (apply quiet_shape; [apply sameSinks_refl|done|done]). split.
  - assert (quiet l (fail "worker link closed" (withdraw "worker link closed" l1))) as Hf; [|by destruct Hf as [[] ?]].
    refine (quiet_trans _ _ _ (fail_grows _ _) _ (fail_quiet _ _)).
    refine (quiet_trans _ _ _ (withdraw_grows _ _) H1 (withdraw_quiet _ _)).
  - intros Hs. unfold fail. rewrite withdraw_settled. change (settled l1) with (settled l). by rewrite Hs.
Qed.

Lemma linkStep_kind e l l' :
  linkStep e l = Some l' →
  (∃ c a, opened l l' c a ∧ ∀ o, arrival e o = None) ∨
  (∃ n c o a, readdressed l l' n c o a ∧ ∀ o, arrival e o = None) ∨
  (quiet l l' ∧ ∀ o, is_Some (observations l !! o) → arrival e o = None) ∨
  (∃ reason, l' = terminate reason l ∧ ∀ o, arrival e o = None) ∨
  (∃ o held frame, observations l !! o = Some held ∧ arrival e o = Some frame ∧ l' = handFrame o held frame l ∧
     ∀ o', o' ≠ o → arrival e o' = None).
Proof.
  intros H. assert (quiet l l' → (∀ o, arrival e o = None) →
    (quiet l l' ∧ ∀ o, is_Some (observations l !! o) → arrival e o = None)) as Hq by by intros ? ?; split.
  assert (∀ l1, calls l1 = calls l → observations l1 = observations l → minted l1 = minted l → quiet l l1) as Hsame.
  { intros l1 Ec Eo Em. apply quiet_shape; rewrite ?Ec, ?Eo, ?Em; [apply sameSinks_refl|done|done]. }
  destruct e; simpl in H.
  - left. destruct (greeted l); [|done]. injection H as <-.
    destruct (makeRequest_opened (ObserveSession addr cursor (uuid (minted l))) send l (Some addr)) as (c & _ & Hc); [done| |by exists c, (Some addr)].
    intros x cur o [=]. by subst.
  - left. destruct (greeted l); [|done]. injection H as <-.
    destruct (makeRequest_opened (CreateSession projectId (uuid (minted l)) text images model thinkingLevel) send l None) as (c & _ & Hc); [done|done|].
    by exists c, None.
  - right. right. left. apply Hq; [|done]. destruct (greeted l); [|done]. destruct (opens r) eqn:Er; [done|].
    destruct r; simplify_eq; by apply makeRequest_quiet.
  - right. right. left. apply Hq; [|done]. destruct (greeted l); [|done]. apply bind_Some in H as (c & Ec & (o & Ho & H)%bind_Some).
    destruct (outcome c), (resumed c); try done. destruct (observations l !! o); injection H as <-; [|apply quiet_refl].
    refine (quiet_trans _ (setObservations (delete o (observations l)) l) _ (makeRequest_grows _ _ _) _ _); [|by apply makeRequest_quiet].
    apply quiet_shape; [apply sameSinks_refl|apply delete_subseteq|done].
  - destruct (resumes_kind n l l' H) as [Hk | (c & o & a & Hk)]; [right; right; left; by apply Hq|right; left; by exists n, c, o, a].
  - right. right. left. apply Hq; [|done]. destruct (greeted l); [|done]. injection H as <-. apply closeLink_quiet.
  - right. right. left. apply Hq; [|done]. injection H as <-. unfold acceptHello, refuseHello. repeat case_match; by apply Hsame.
  - right. right. left. apply Hq; [|done]. destruct (readyState l); simplify_eq; by apply Hsame.
  - right. right. assert (l' = onFrame data l) as -> by (destruct (readyState l); by simplify_eq). apply onFrame_kind.
  - unfold heartbeatTick in H. destruct (heartbeat l); [|done]. injection H as <-. right. right.
    destruct silent; [right; left; by eexists|left; apply Hq; [by apply Hsame|done]].
  - right. right. left. apply Hq; [|done]. injection H as <-. unfold handshakeTimeout. destruct (settled l); by apply Hsame.
  - right. right. left. apply Hq; [|done]. injection H as <-. unfold rejectConnect. destruct (settled l); by apply Hsame.
  - right. right. left. apply Hq; [|done]. by apply socketClosed_quiet.
Qed.

Lemma opened_routes l l' c a : routes_ok l → opened l l' c a → routes_ok l'.
Proof.
  intros [H1 H2 H3] [Ec Eo Es Er Em Ha].
  assert (∀ n x o, calls l !! n = Some x → opens (request x) = Some o → o ≠ uuid (minted l)) as Hfresh.
  { intros n x o E Ho ->. destruct (H1 n x _ E Ho) as (j & Hj & Heq). apply Huuid in Heq. lia. }
  split; rewrite Ec.
  - intros n x o [[_ E] | [_ <-]]%lookup_snoc_Some Ho; [|exists (minted l); split; [lia|congruence]].
    destruct (H1 n x o E Ho) as (j & ? & ->). exists j. split; [lia|done].
  - intros n n' x x' o [[_ E] | [-> <-]]%lookup_snoc_Some [[_ E'] | [-> <-]]%lookup_snoc_Some Ho Ho'; [by eapply H2|..|done].
    + destruct (Hfresh n x o E Ho). congruence.
    + destruct (Hfresh n' x' o E' Ho'). congruence.
  - intros o r. rewrite Er. intros [[<- <-] | [_ E]]%lookup_insert_Some.
    + exists c. simpl. split_and!; [by rewrite lookup_app_r, Nat.sub_diag by done|done|]. intros x cur. by apply Ha.
    + destruct (H3 o r E) as (x & Ex & Hx). exists x. split; [by apply lookup_app_l_Some|done].
Qed.

Lemma readdressed_routes l l' n c o a : routes_ok l → readdressed l l' n c o a → routes_ok l'.
Proof.
  intros Hok [E Ec (p & text & images & model & level & Er) Eo Em].
  assert (linkGrows l l') as Hg by (unfold linkGrows; rewrite Ec; apply callsGrow_alter, grows_resume).
  assert (routes_ok (setObservations (observations l) l')) as [H1 H2 H3].
  { apply (tame_routes l); [exact Hg| |done]. apply tame_shape; simpl; [by rewrite Ec, length_alter|done|lia]. }
  split; [exact H1|exact H2|]. intros o' r. rewrite Eo. intros [[<- <-] | [_ E']]%lookup_insert_Some; [|by apply (H3 o')].
  destruct (Hg n c E) as (c' & E' & [Hr _ _ _]). exists c'. rewrite Hr, Er. by split_and!.
Qed.

Lemma handFrame_tame o held frame l : tame l (handFrame o held frame l).
Proof.
  unfold handFrame. destruct (eq_str _ _); apply tame_shape; simpl; try done; [apply length_alter|apply delete_subseteq|apply length_alter].
Qed.

Lemma linkStep_routes e l l' : linkStep e l = Some l' → routes_ok l → routes_ok l'.
Proof.
  intros H Hok. pose proof (linkStep_grows e l l' H) as Hg.
  destruct (linkStep_kind e l l' H) as [(c & a & Ho & _) | [(n & c & o & a & Hr & _) | [[[Ht _] _] | [(reason & -> & _) | (o & held & frame & _ & _ & -> & _)]]]].
  - by eapply opened_routes.
  - by eapply readdressed_routes.
  - by eapply tame_routes.
  - by eapply tame_routes; [|apply terminate_tame|].
  - by eapply tame_routes; [|apply handFrame_tame|].
Qed.

Lemma adoptLink_routes r : routes_ok (adoptLink r).
Proof. by split. Qed.

Lemma reachable_routes l : linkReachable l → routes_ok l.
Proof.
  intros (r & es & H). eapply (runLink_ind routes_ok); [|apply (adoptLink_routes r)|exact H]. intros e l1 l2 ? ?. by eapply linkStep_routes.
Qed.

(** ** Streams *)

(** What a step does to the stream of one [observeSession]. *)
Definition streamMoves (e : LinkEvent) (o : string) (addr : json) (m m' : option Route) (c c' : Call) : Prop :=
  match m, arrival e o with
  | None, _ => sunk c' = sunk c ∧ m' = None
  | Some _, Some f => sunk c' = sunk c ++ [f] ∧ m' = (if eq_str (get f "kind") "closed" then None else m)
  | Some _, None =>
    (sunk c' = sunk c ∧ (m' = m ∨ m' = None)) ∨ (sunk c' = sunk c ++ [closedFrame addr] ∧ m' = None)
  end.

Lemma route_own l n c o r addr cur :
  routes_ok l → calls l !! n = Some c → request c = ObserveSession addr cur o → observations l !! o = Some r →
  sinkOf r = n ∧ address r = Some addr.
Proof.
  intros [_ Hu Hr] E Er Eo. destruct (Hr o r Eo) as (c0 & E0 & Ho & Ha).
  assert (sinkOf r = n) as <- by (eapply Hu; [exact E0|exact E|exact Ho|by rewrite Er]). split; [done|]. simplify_eq. by eapply Ha.
Qed.

Lemma subseteq_routes (m m' : gmap string Route) o : m' ⊆ m → m' !! o = m !! o ∨ m' !! o = None.
Proof. intros H. destruct (m' !! o) as [r|] eqn:E; [|by right]. left. symmetry. by eapply lookup_weaken. Qed.

Lemma terminate_routes reason l : settled l = true → observations (terminate reason l) = ∅.
Proof.
  intros Hs. rewrite terminate_unfold. unfold fail, endRoutes. cbn [settled setCalls]. rewrite withdraw_settled, Hs. done.
Qed.

Lemma quiet_moves e o addr l l' n c :
  quiet l l' → (is_Some (observations l !! o) → arrival e o = None) → calls l !! n = Some c →
  ∃ c', calls l' !! n = Some c' ∧ streamMoves e o addr (observations l !! o) (observations l' !! o) c c'.
Proof.
  intros [[_ Hr _] Hs] Ha E. destruct (Hs n c E) as (c' & E' & _ & Hk). exists c'. split; [done|]. unfold streamMoves.
  destruct (subseteq_routes _ _ o Hr) as [-> | ->]; destruct (observations l !! o) as [r|]; try done;
    rewrite (Ha (ex_intro _ r eq_refl)); left; split; [done|by left|done|by right].
Qed.

Lemma terminate_moves reason e o addr cur l n c :
  link_ok l → routes_ok l → (∀ o', arrival e o' = None) → calls l !! n = Some c → request c = ObserveSession addr cur o →
  ∃ c', calls (terminate reason l) !! n = Some c' ∧
    streamMoves e o addr (observations l !! o) (observations (terminate reason l) !! o) c c'.
Proof.
  intros [[_ Hst _] _] Hr Ha E Er. destruct (terminate_sunk reason l n c Hr E) as (c' & E' & _ & K & _).
  exists c'. split; [done|]. assert (observations (terminate reason l) = ∅) as ->.
  { apply terminate_routes. destruct (settled l); [done|]. by rewrite Hst in E. }
  unfold streamMoves. rewrite lookup_empty, Ha. destruct (withdraw_quiet reason l) as [[_ Hsub _] _].
  destruct K as [K | (o' & r & a & Ho' & Hn & Haddr & K)].
  - destruct (observations l !! o); [left; split; [done|by right]|done].
  - pose proof (lookup_weaken _ _ _ _ Ho' Hsub) as Ho. destruct (rt_route l Hr o' r Ho) as (c0 & E0 & Hop & _).
    rewrite Hn in E0. simplify_eq. rewrite Er in Hop. injection Hop as <-. rewrite Ho.
    destruct (route_own l _ c o r addr cur Hr E Er Ho) as [_ Haddr']. right. split; [congruence|done].
Qed.

Lemma step_stream e l l' n c addr cur o :
  link_ok l → routes_ok l → linkStep e l = Some l' → calls l !! n = Some c → request c = ObserveSession addr cur o →
  ∃ c', calls l' !! n = Some c' ∧ streamMoves e o addr (observations l !! o) (observations l' !! o) c c'.
Proof.
  intros Hok Hr H E Er.
  destruct (linkStep_kind e l l' H) as [(x & a & [Ec Ho Hs Eo Em _] & Ha) | [(k & x & o2 & a & [Ek Ec Erx Eo _] & Ha) |
    [[Hq Ha] | [(reason & -> & Ha) | (o2 & held & frame & Eh & Ha & -> & Hne)]]]].
  - exists c. rewrite Ec, Eo. split; [by apply lookup_app_l_Some|]. rewrite lookup_insert_ne.
    + unfold streamMoves. rewrite Ha. destruct (observations l !! o); [left; split; [done|by left]|done].
    + intros Heq. destruct (rt_minted l Hr n c o E) as (j & Hj & ->); [by rewrite Er|]. apply Huuid in Heq. lia.
  - destruct (sameSinks_alter resume k (calls l)) as [_ Hk]; [done|]. destruct (Hk n c E) as (c' & E' & Hreq & Hs).
    exists c'. rewrite Ec, Eo. split; [done|]. rewrite lookup_insert_ne.
    + unfold streamMoves. rewrite Ha. destruct (observations l !! o); [left; split; [done|by left]|done].
    + intros <-. destruct Erx as (p & text & images & model & level & Erx).
      assert (k = n) as -> by (eapply (rt_unique l Hr); [exact Ek|exact E|by rewrite Erx|by rewrite Er]). congruence.
  - by apply quiet_moves; auto.
  - by eapply terminate_moves.
  - destruct (rt_route l Hr o2 held Eh) as (c2 & E2 & Hop2 & _). unfold handFrame. destruct (decide (o2 = o)) as [-> | Hno].
    + destruct (route_own l n c o held addr cur Hr E Er Eh) as [Hn _]. exists (handTo frame c).
      assert (alter (handTo frame) (sinkOf held) (calls l) !! n = Some (handTo frame c)) as Hl by by rewrite Hn, list_lookup_alter_eq, E.
      unfold streamMoves. rewrite Eh, Ha. destruct (eq_str _ "closed"); simpl; rewrite ?lookup_delete_eq; by split_and!.
    + exists c. assert (sinkOf held ≠ n) as Hn.
      { intros Heq. assert (c2 = c) as -> by congruence. rewrite Er in Hop2. simpl in Hop2. congruence. }
      unfold streamMoves. rewrite (Hne o) by done.
      destruct (eq_str _ "closed"); simpl; rewrite ?lookup_delete_ne, list_lookup_alter_ne by done;
        (split; [done|]); (destruct (observations l !! o); [left; split; [done|by left]|done]).
Qed.

(** Once an observation has no route nothing is handed to its sink any more. *)
Lemma unrouted_run es l l' n c addr cur o :
  link_ok l → routes_ok l → runLink es l = Some l' → calls l !! n = Some c → request c = ObserveSession addr cur o →
  observations l !! o = None → ∃ c', calls l' !! n = Some c' ∧ sunk c' = sunk c.
Proof.
  revert l c. induction es as [|e es IH]; intros l c Hok Hr; simpl; [intros [= <-] E; by exists c|].
  intros (l1 & H1 & H2)%bind_Some E Er Eo. destruct (step_stream e l l1 n c addr cur o Hok Hr H1 E Er) as (c1 & E1 & Hm).
  rewrite Eo in Hm. destruct Hm as [Hs Ho1]. pose proof (old_request _ _ _ _ _ (linkStep_grows e l l1 H1) E E1) as Hreq.
  destruct (IH l1 c1) as (c2 & E2 & Hs2); [by eapply linkStep_ok|by eapply linkStep_routes|done|done|congruence|done|].
  exists c2. split; [done|congruence].
Qed.

(** The ways a live link ends. *)
Inductive endsLink : LinkEvent → Prop :=
| ends_silent : endsLink (Ticks true)
| ends_reported reason : endsLink (Receives (Some (jsonRoundTrip (unavailablePush reason)))).

Lemma endsLink_terminate e l l' : endsLink e → linkStep e l = Some l' → ∃ reason, l' = terminate reason l.
Proof.
  intros [] H; simpl in H.
  - unfold heartbeatTick in H. destruct (heartbeat l); [|done]. injection H as <-. by eexists.
  - exists reason. assert (l' = onFrame (Some (jsonRoundTrip (unavailablePush reason))) l) as -> by (destruct (readyState l); by simplify_eq).
    destruct (push_frame [("kind", JStr "unavailable"); ("reason", JStr reason)] "unavailable") as (Hp & Hok & Hk & _);
      [done|done|done|apply (bool_decide_unpack _); by vm_compute|].
    unfold onFrame. unfold unavailablePush in *. rewrite Hp, Hok, Hk. cbn [eq_str]. unfold handlePush. rewrite Hk. cbn [eq_str].
    assert (get (jsonRoundTrip (object [("kind", JStr "unavailable"); ("reason", JStr reason)])) "reason" = JStr reason) as Hreason by apply get_wire.
    by rewrite Hreason.
Qed.

(** A worker that dialed in: the daemon drops the link before the terminal frames. *)
Lemma withdraw_closes reason l :
  onUnavailable = ClosesLink → greeted l = true → unavailable l = false → observations (withdraw reason l) = ∅.
Proof.
  intros Hd Hg Hu. unfold withdraw. rewrite Hu, Hg, Hd. cbn [negb]. unfold closeLink. by destruct (readyState _).
Qed.

Lemma terminate_silent reason l n c :
  onUnavailable = ClosesLink → greeted l = true → unavailable l = false → routes_ok l → calls l !! n = Some c →
  ∃ c', calls (terminate reason l) !! n = Some c' ∧ request c' = request c ∧ sunk c' = sunk c.
Proof.
  intros Hd Hg Hu Hr E. destruct (terminate_sunk reason l n c Hr E) as (c' & E' & Hreq & Hs & _).
  rewrite (withdraw_closes reason l Hd Hg Hu) in Hs. exists c'. split_and!; [done..|].
  by destruct Hs as [Hs | (o & r & a & Ho & _)]; [|rewrite lookup_empty in Ho].
Qed.

(** ** Properties *)

(** C18. No call of a worker link hangs or is settled twice: a reply settles the call
    whose id it carries, and no other, with its result; once settled a call stays so
    whatever happens; and when the link ends, by the close of the socket, a silent
    heartbeat or the report of the worker, no call waits any more, and none that is
    made later does. *)
Theorem link_requests_settle l :
  linkReachable l →
  (∀ n c id v, readyState l ≠ CLOSED → calls l !! n = Some c → outcome c = Pending → callId c = Some id →
    ∃ l', linkStep (Receives (Some (jsonRoundTrip (okReply id v)))) l = Some l' ∧
      calls l' = alter (settleCall (Fulfilled (wireValue v))) n (calls l)) ∧
  (∀ es l' n c, runLink es l = Some l' → calls l !! n = Some c → outcome c ≠ Pending →
    ∃ c', calls l' !! n = Some c' ∧ outcome c' = outcome c) ∧
  (∀ e l', e = Closes ∨ endsLink e → linkStep e l = Some l' →
    ∀ es l'' c, runLink es l' = Some l'' → c ∈ calls l'' → outcome c ≠ Pending).
Proof.
  intros Hreach. pose proof (reachable_link_ok l Hreach) as Hok. split_and!.
  - intros n c id v Hrd E Ho Hid. destruct (okReply_frame id v) as (Hp & Hh & Hi & Hb & Hres).
    destruct (pc_waiting (lc_core l (proj1 Hok)) n c E Ho) as (id' & Hid' & Hl). assert (id' = id) as -> by congruence.
    exists (onFrame (Some (jsonRoundTrip (okReply id v))) l). split; [unfold linkStep; by destruct (readyState l)|]. unfold onFrame. rewrite Hp, Hh. unfold handleReply. rewrite Hi.
    cbn [opt_str mbind option_bind]. rewrite Hl. cbn [fmap option_fmap option_map]. by rewrite Hb, Hres.
  - intros es l' n c Hrun E Ho. destruct (runLink_grows es l l' Hrun n c E) as (c' & E' & [_ _ Hsame _]).
    exists c'. split; [done|by apply Hsame].
  - intros e l' He Hstep es l'' c Hrun Hin Ho.
    assert (unavailable l' = true ∧ link_ok l') as [Hu Hok'].
    { split; [|by eapply linkStep_ok]. destruct He as [-> | He]; [by eapply (socketClosed_ok l l' Hstep)|].
      destruct (endsLink_terminate e l l' He Hstep) as [reason ->]. by apply terminate_ok. }
    assert (link_ok l'' ∧ unavailable l'' = true) as [[[[_ Hw _] _ _] Hgone] Hu''].
    { eapply (runLink_ind (λ l, link_ok l ∧ unavailable l = true)); [|split; [exact Hok'|exact Hu]|exact Hrun].
      intros e' l1 l2 [Hok1 Hu1] H. split; [by eapply linkStep_ok|by eapply linkStep_unavailable]. }
    apply list_elem_of_lookup in Hin as [n E]. destruct (Hw n c E Ho) as (id & _ & Hl). by rewrite (Hgone Hu'') in Hl.
Qed.

(** C40. A link that is lost leaves the sinks of its observations hanging: when the
    socket closes, or when a worker that dialed in reports that it is unavailable or
    falls silent, no sink of [observeSession] is handed a terminal frame, then or
    ever. *)
Theorem lost_link_strands_sinks l e l' :
  linkReachable l → greeted l = true → unavailable l = false → linkStep e l = Some l' →
  e = Closes ∨ (onUnavailable = ClosesLink ∧ endsLink e) →
  unavailable l' = true ∧
  ∀ n c addr cur o, calls l !! n = Some c → request c = ObserveSession addr cur o →
    ∀ es l'', runLink es l' = Some l'' → ∃ c'', calls l'' !! n = Some c'' ∧ sunk c'' = sunk c.
Proof.
  intros Hreach Hg Hu Hstep He. pose proof (reachable_link_ok l Hreach) as Hok. pose proof (reachable_routes l Hreach) as Hr.
  pose proof (lc_greeted l (proj1 Hok) Hg) as Hs.
  assert (unavailable l' = true ∧ observations l' = ∅ ∧
    ∀ n c, calls l !! n = Some c → ∃ c', calls l' !! n = Some c' ∧ request c' = request c ∧ sunk c' = sunk c) as (Hu' & Ho' & Hsame).
  { destruct He as [-> | [Hd He]].
    - destruct (socketClosed_quiet l l' Hstep) as [[_ Hq] Ho]. split_and!; [by eapply (socketClosed_ok l l' Hstep)|by apply Ho|exact Hq].
    - destruct (endsLink_terminate e l l' He Hstep) as [reason ->].
      split_and!; [by apply terminate_ok|by apply terminate_routes|]. intros n c E. by apply terminate_silent. }
  split; [done|]. intros n c addr cur o E Er es l'' Hrun. destruct (Hsame n c E) as (c' & E' & Hreq & Hsk).
  destruct (unrouted_run es l' l'' n c' addr cur o) as (c'' & E'' & Hs''); [by eapply linkStep_ok|by eapply linkStep_routes|done|done|congruence|by rewrite Ho'|].
  exists c''. split; [done|congruence].
Qed.

End streams.

(** ** Runs *)

#[global] Instance string_of_nat_Inj : Inj (=) (=) string_of_nat.
Proof. intros n m. apply string_of_nat_inj. Qed.

Definition demoAddress : json := object [("projectId", JStr "p"); ("stem", JStr "s")].
Definition demoReplace : json := object [("kind", JStr "replace"); ("session", JStr "session"); ("document", JStr "document")].

(** One observation is opened and receives its initial sync; a request for the
    environment waits for its reply. *)
Definition demoLinkEvents : list LinkEvent :=
  [Seeds (object [("protocol", JInt 1); ("registration", JNull); ("info", JNull)]); Observes demoAddress JNull Sends;
   Receives (Some (jsonRoundTrip (observationPush "0" demoReplace))); Receives (Some (jsonRoundTrip (okReply "1" demoAddress)));
   Resumes 0; Requests Info Sends].
Definition demoLink (d : DaemonReaction) : Link := default (adoptLink OPEN) (runLink string_of_nat (λ _, None) d demoLinkEvents (adoptLink OPEN)).
Definition demoCall : Call :=
  mkCall (ObserveSession demoAddress JNull "0") (Some "1") (Fulfilled demoAddress) true [demoReplace].

Lemma demoLink_reachable d : linkReachable string_of_nat (λ _, None) d (demoLink d).
Proof. exists OPEN, demoLinkEvents. destruct d; by vm_compute. Qed.
Lemma demoLink_call d : calls (demoLink d) !! 0 = Some demoCall.
Proof. destruct d; by vm_compute. Qed.

Lemma link_requests_settle_witness :
  ∃ l', linkStep string_of_nat (λ _, None) ReactsNot (Receives (Some (jsonRoundTrip (okReply "2" (JStr "env"))))) (demoLink ReactsNot) = Some l' ∧
    calls l' = alter (settleCall (Fulfilled (JStr "env"))) 1 (calls (demoLink ReactsNot)).
Proof.
  destruct (link_requests_settle string_of_nat (λ _, None) ReactsNot (demoLink ReactsNot) (demoLink_reachable ReactsNot)) as (H & _ & _).
  apply (H 1 (mkCall Info (Some "2") Pending false []) "2" (JStr "env")); [by vm_compute..].
Defined.

Lemma lost_link_strands_sinks_witness :
  ∃ l', linkStep string_of_nat (λ _, None) ClosesLink (Ticks true) (demoLink ClosesLink) = Some l' ∧
    ∀ es l'', runLink string_of_nat (λ _, None) ClosesLink es l' = Some l'' → ∃ c, calls l'' !! 0 = Some c ∧ sunk c = [demoReplace].
Proof.
  destruct (linkStep string_of_nat (λ _, None) ClosesLink (Ticks true) (demoLink ClosesLink)) as [l'|] eqn:E;
    [|exfalso; revert E; by vm_compute]. exists l'. split; [reflexivity|]. intros es l'' Hrun.
  destruct (lost_link_strands_sinks string_of_nat (λ _, None) ClosesLink (demoLink ClosesLink) (Ticks true) l' (demoLink_reachable ClosesLink)) as [_ H].
  - by vm_compute.
  - by vm_compute.
  - exact E.
  - right. split; [reflexivity|constructor].
  - apply (H 0 demoCall demoAddress JNull "0" (demoLink_call ClosesLink) eq_refl es l'' Hrun).
Defined.


(** A created session that ends before the method goes on is ended twice: the
    terminal frame of the worker removes the route, the continuation puts it back,
    and the end of the link hands a second one. *)
Definition demoCreation : list LinkEvent :=
  [Seeds (object [("protocol", JInt 1); ("registration", JNull); ("info", JNull)]);
   Creates (JStr "p") (JStr "text") JUndef JUndef JUndef Sends;
   Receives (Some (jsonRoundTrip (observationPush "0" demoReplace)));
   Receives (Some (jsonRoundTrip (observationPush "0" (closedFrame demoAddress))));
   Receives (Some (jsonRoundTrip (okReply "1" demoAddress))); Resumes 0; Ticks true].

Lemma created_observation_ends_twice :
  ∃ l, runLink string_of_nat (λ _, None) DisposesWorker demoCreation (adoptLink OPEN) = Some l ∧
    (sunk <$> calls l !! 0) = Some [demoReplace; closedFrame demoAddress; closedFrame demoAddress].
Proof.
  exists (default (adoptLink OPEN) (runLink string_of_nat (λ _, None) DisposesWorker demoCreation (adoptLink OPEN))).
  split; by vm_compute.
Qed.
