(* ===== verification/Server.v ===== *)
(** * The worker's end of a worker link

    [serveWorkerConnection] of [host/worker-server.ts]: one socket of a worker, from
    the handshake to the release of everything it held.  What runs between two turns
    of the event loop is one function; what the socket and the service do and the
    ends of awaits are events.  A request that was admitted, its promise, the sink
    made for it and the observation it acquired are its position in [works].  The
    service behind the calls is the environment. *)

From S2P Require Export Protocol.

(** ** The state *)

(** Where a request stands: in the await of the service; its reply or its rejection
    on the way; in the await of a release, of the observation it acquired too late or
    of the one it asks to release; done. *)
Inductive Stage :=
| CallingService
| Replying (result : json)
| Failing (error : string)
| Discarding
| Releasing
| WorkDone.

(** One admitted request: its id, what [dispatch] makes of it, what the service
    handed to its sink, whether the service returned an observation for it, whether
    that was released, the flag of its acquisition. *)
Record Work := mkWork {
  workId : string; body : WorkerRequest + string; stage : Stage; handed : list json;
  acquired : bool; workReleased : bool; cancelled : bool }.

(** Who sent a frame. *)
Inductive Origin := FromWork (w : nat) | FromSink (w : nat) | FromShutdown | FromLink.

Inductive ShutdownStage := NotShutDown | Draining (id : string) | Disposing (id : string) | ShutDone.

#[global] Instance Stage_eq_dec : EqDecision Stage.
Proof. solve_decision. Defined.
#[global] Instance Origin_eq_dec : EqDecision Origin.
Proof. solve_decision. Defined.
#[global] Instance ShutdownStage_eq_dec : EqDecision ShutdownStage.
Proof. solve_decision. Defined.

(** [serving]: the handshake is out and the listeners are installed. *)
Record Server := mkServer {
  serving : bool; accepting : bool; closed : bool; subscribed : bool; heartbeat : bool;
  observations : gmap string nat; acquiring : gmap string nat; works : list Work;
  shutdown : ShutdownStage; sent : list (Origin * json) }.

Definition serveConnection : Server := mkServer false true false false false ∅ ∅ [] NotShutDown [].

(** *** Assignments *)

Definition setFlags (v a c sub h : bool) (s : Server) : Server :=
  mkServer v a c sub h (observations s) (acquiring s) (works s) (shutdown s) (sent s).
Definition setTables (o a : gmap string nat) (s : Server) : Server :=
  mkServer (serving s) (accepting s) (closed s) (subscribed s) (heartbeat s) o a (works s) (shutdown s) (sent s).
Definition setWorks (l : list Work) (s : Server) : Server :=
  mkServer (serving s) (accepting s) (closed s) (subscribed s) (heartbeat s) (observations s) (acquiring s) l (shutdown s) (sent s).
Definition setShutdown (d : ShutdownStage) (s : Server) : Server :=
  mkServer (serving s) (accepting s) (closed s) (subscribed s) (heartbeat s) (observations s) (acquiring s) (works s) d (sent s).
Definition setSent (l : list (Origin * json)) (s : Server) : Server :=
  mkServer (serving s) (accepting s) (closed s) (subscribed s) (heartbeat s) (observations s) (acquiring s) (works s) (shutdown s) l.

Definition atStage (p : Stage) (k : Work) : Work :=
  mkWork (workId k) (body k) p (handed k) (acquired k) (workReleased k) (cancelled k).
Definition asReleased (k : Work) : Work :=
  mkWork (workId k) (body k) (stage k) (handed k) (acquired k) true (cancelled k).
Definition asCancelled (k : Work) : Work :=
  mkWork (workId k) (body k) (stage k) (handed k) (acquired k) (workReleased k) true.
Definition asAcquired (k : Work) : Work :=
  mkWork (workId k) (body k) (stage k) (handed k) true (workReleased k) (cancelled k).
Definition withFrame (f : json) (k : Work) : Work :=
  mkWork (workId k) (body k) (stage k) (handed k ++ [f]) (acquired k) (workReleased k) (cancelled k).

Definition setStage (w : nat) (p : Stage) (s : Server) : Server := setWorks (alter (atStage p) w (works s)) s.

(** The works a table holds. *)
Definition forAll (f : Work → Work) (m : gmap string nat) (l : list Work) : list Work :=
  foldl (λ l e, alter f e.2 l) l (map_to_list m).

(** ** The operations *)

Definition send (from : Origin) (frame : json) (s : Server) : Server :=
  if closed s then s else setSent (sent s ++ [(from, jsonRoundTrip frame)]) s.

Definition opensBody (b : WorkerRequest + string) : option string := match b with inl r => opens r | inr _ => None end.

(** [sinkFor], called by the service with a frame, an object. *)
Definition sinkHands (w : nat) (frame : json) (s : Server) : option Server :=
  k ← works s !! w;
  o ← opensBody (body k);
  if negb (is_object frame) then None else
  let s := setWorks (alter (withFrame frame) w (works s)) s in
  let s := if eq_str (get frame "kind") "closed" then setTables (delete o (observations s)) (acquiring s) s else s in
  Some (send (FromSink w) (observationPush o frame) s).

(** [endConnection], up to the await of the releases. *)
Definition endConnection (s : Server) : Server :=
  let s := setFlags (serving s) false (closed s) (subscribed s) (heartbeat s) s in
  if closed s then s
  else
    let s := setFlags (serving s) false true false (heartbeat s) s in
    let s := setWorks (forAll asCancelled (acquiring s) (works s)) s in
    setTables ∅ (acquiring s) (setWorks (forAll asReleased (observations s) (works s)) s).

(** The result a reply carries: that of the service, or [null]. *)
Definition replyResult (r : WorkerRequest) (v : json) : json :=
  match r with
  | ReleaseObservation _ | Prompt _ _ _ _ _ | Abort _ | DiscardSteer _ | RenameSession _ _ | SetLabel _ _ _ | Navigate _ _
  | CloseSession _ | ArchiveSession _ | SetPinnedModels _ => JNull
  | _ => v
  end.

Section server.
  Context (engineError : string → string).

Definition addWork (id : string) (b : WorkerRequest + string) (p : Stage) (s : Server) : Server :=
  setWorks (works s ++ [mkWork id b p [] false false false]) s.

(** [dispatch], up to its first await. *)
Definition dispatch (request : json) (s : Server) : Server :=
  let id := stringOf (get request "id") in
  match readRequest engineError request with
  | inr error =>
    let s := addWork id (inr error) (Failing error) s in
    if eq_str (get request "kind") "createSession"
    then setTables (observations s) (delete (stringOf (get request "observation")) (acquiring s)) s else s
  | inl r =>
    match r with
    | ObserveSession _ _ o | CreateSession _ o _ _ _ _ =>
      addWork id (inl r) CallingService (setTables (observations s) (<[o := length (works s)]> (acquiring s)) s)
    | ReleaseObservation o =>
      match observations s !! o with
      | None => addWork id (inl r) (Replying JNull) s
      | Some h =>
        addWork id (inl r) Releasing
          (setTables (delete o (observations s)) (acquiring s) (setWorks (alter asReleased h (works s)) s))
      end
    | Pull o _ =>
      addWork id (inl r) (match observations s !! o with None => Failing "observation is not active" | Some _ => CallingService end) s
    | _ => addWork id (inl r) CallingService s
    end
  end.

(** The [message] handler. *)
Definition onMessage (data : option json) (s : Server) : Server :=
  match parseWorkerFrame data with
  | None => s
  | Some request =>
    if negb (has request "id") then s
    else if negb (accepting s) || closed s then s
    else if eq_str (get request "kind") "shutdown"
    then setShutdown (Draining (stringOf (get request "id"))) (setFlags (serving s) false (closed s) (subscribed s) (heartbeat s) s)
    else dispatch request s
  end.

(** [installAcquired]; [true]: the reply follows. *)
Definition installAcquired (w : nat) (o : string) (target : json) (s : Server) : Server :=
  let s := setTables (observations s) (delete o (acquiring s)) (setWorks (alter asAcquired w (works s)) s) in
  if closed s || (match works s !! w with Some k => cancelled k | None => false end)
  then setStage w Discarding (setWorks (alter asReleased w (works s)) s)
  else setStage w (Replying target) (setTables (<[o := w]> (observations s)) (acquiring s) s).

(** The call of the service returns or throws. *)
Definition serviceReturns (w : nat) (result : json + string) (s : Server) : option Server :=
  k ← works s !! w;
  match stage k, body k with
  | CallingService, inl r =>
    Some match opens r, result with
         | Some o, inl target => installAcquired w o target s
         | Some o, inr error => setStage w (Failing error) (setTables (observations s) (delete o (acquiring s)) s)
         | None, inl v => send (FromWork w) (okReply (workId k) (replyResult r v)) (setStage w WorkDone s)
         | None, inr error => setStage w (Failing error) s
         end
  | _, _ => None
  end.

(** The release that a request awaits ends. *)
Definition releaseReturns (w : nat) (error : option string) (s : Server) : option Server :=
  k ← works s !! w;
  match stage k with
  | Discarding => Some (setStage w WorkDone s)
  | Releasing => Some (setStage w (match error with None => Replying JNull | Some e => Failing e end) s)
  | _ => None
  end.

(** The last turn of [dispatch], or of its [catch]. *)
Definition replies (w : nat) (s : Server) : option Server :=
  k ← works s !! w;
  match stage k with
  | Replying v => Some (send (FromWork w) (okReply (workId k) v) (setStage w WorkDone s))
  | Failing error => Some (send (FromWork w) (errorReply (workId k) error) (setStage w WorkDone s))
  | _ => None
  end.

(** *** Handshake, reports, heartbeat and shutdown *)

Section handshake.
  Context (registration : json).

Definition infoReturns (info : json + string) (s : Server) : option Server :=
  if serving s || closed s then None
  else Some match info with
            | inl info => setFlags true (accepting s) (closed s) true true (send FromLink (helloPush registration info) s)
            | inr _ => setFlags false (accepting s) true (subscribed s) (heartbeat s) s
            end.
End handshake.

(** The listener of the service's events. *)
Definition onEvent (event : json) (s : Server) : option Server :=
  if subscribed s
  then Some (if eq_str (get event "kind") "unavailable"
             then endConnection (send FromLink (unavailablePush (stringOf (get event "reason"))) s)
             else send FromLink (eventPush event) s)
  else None.

Definition tick (silent : bool) (s : Server) : option Server :=
  if heartbeat s then Some (if silent then endConnection s else s) else None.

Definition workDone (k : Work) : bool := bool_decide (stage k = WorkDone).

(** [Promise.allSettled] of the requests in flight, then [service.dispose]. *)
Definition drained (s : Server) : option Server :=
  match shutdown s with
  | Draining id => if forallb workDone (works s) then Some (setShutdown (Disposing id) s) else None
  | _ => None
  end.
Definition disposeReturns (s : Server) : option Server :=
  match shutdown s with
  | Disposing id => Some (setShutdown ShutDone (endConnection (send FromShutdown (okReply id JNull) s)))
  | _ => None
  end.

(** ** Events *)

Inductive ServerEvent :=
| InfoReturns (info : json + string)
| ReceivesText (data : option json)
| Hands (w : nat) (frame : json)
| ServiceReturns (w : nat) (result : json + string)
| ReleaseReturns (w : nat) (error : option string)
| RepliesTo (w : nat)
| Reports (event : json)
| Beats (silent : bool)
| Drains
| DisposeReturns
| SocketEnds.

Definition serverStep (registration : json) (e : ServerEvent) (s : Server) : option Server :=
  match e with
  | InfoReturns info => infoReturns registration info s
  | ReceivesText data => if serving s then Some (onMessage data s) else None
  | Hands w frame => sinkHands w frame s
  | ServiceReturns w result => serviceReturns w result s
  | ReleaseReturns w error => releaseReturns w error s
  | RepliesTo w => replies w s
  | Reports event => onEvent event s
  | Beats silent => tick silent s
  | Drains => drained s
  | DisposeReturns => disposeReturns s
  | SocketEnds => if serving s then Some (endConnection s) else None
  end.

Fixpoint runServer (registration : json) (es : list ServerEvent) (s : Server) : option Server :=
  match es with [] => Some s | e :: es => serverStep registration e s ≫= runServer registration es end.

Definition serverReachable (registration : json) (s : Server) : Prop :=
  ∃ es, runServer registration es serveConnection = Some s.

Lemma alter_alter (f g : Work → Work) (w : nat) (l : list Work) : alter f w (alter g w l) = alter (λ k, f (g k)) w l.
Proof. revert w. induction l as [|k l IH]; intros [|w]; simpl; [done..|]. f_equal. apply IH. Qed.

Lemma alter_out (f : Work → Work) (w : nat) (l : list Work) : l !! w = None → alter f w l = l.
Proof. revert w. induction l as [|k l IH]; intros [|w]; simpl; [done..|]. intros H. f_equal. by apply IH. Qed.

(** ** Works only grow *)

Record workGrows (k k' : Work) : Prop := {
  wg_id : workId k' = workId k;
  wg_body : body k' = body k;
  wg_done : stage k = WorkDone → stage k' = WorkDone;
  wg_handed : handed k `prefix_of` handed k'
}.

Definition worksGrow (l l' : list Work) : Prop := ∀ w k, l !! w = Some k → ∃ k', l' !! w = Some k' ∧ workGrows k k'.

Lemma workGrows_refl k : workGrows k k.
Proof. by split. Qed.
Lemma worksGrow_refl l : worksGrow l l.
Proof. intros w k E. exists k. split; [done|apply workGrows_refl]. Qed.
Lemma worksGrow_trans l1 l2 l3 : worksGrow l1 l2 → worksGrow l2 l3 → worksGrow l1 l3.
Proof.
  intros H1 H2 w k E. destruct (H1 w k E) as (k2 & E2 & [I2 B2 D2 P2]), (H2 w k2 E2) as (k3 & E3 & [I3 B3 D3 P3]).
  exists k3. split; [done|]. split; [congruence..|auto|by trans (handed k2)].
Qed.
Lemma worksGrow_alter f w l : (∀ k, l !! w = Some k → workGrows k (f k)) → worksGrow l (alter f w l).
Proof.
  intros Hf i k E. destruct (decide (i = w)) as [-> | Hne].
  - exists (f k). rewrite list_lookup_alter_eq, E. split; [done|by apply Hf].
  - exists k. rewrite list_lookup_alter_ne by done. split; [done|apply workGrows_refl].
Qed.
Lemma worksGrow_app l k : worksGrow l (l ++ [k]).
Proof. intros w x E. exists x. split; [by apply lookup_app_l_Some|apply workGrows_refl]. Qed.

Lemma forAll_lookup f m l w :
  (∀ k, f (f k) = f k) → forAll f m l !! w = (if decide (w ∈ (map_to_list m).*2) then f <$> l !! w else l !! w).
Proof. apply foldl_alter_lookup. Qed.

Lemma forAll_length f m l : length (forAll f m l) = length l.
Proof.
  unfold forAll. revert l. induction (map_to_list m) as [|x xs IH]; intros l; [done|]. cbn [foldl]. by rewrite IH, length_alter.
Qed.

Lemma forAll_grows f m l : (∀ k, f (f k) = f k) → (∀ k, workGrows k (f k)) → worksGrow l (forAll f m l).
Proof.
  intros Hf Hg w k E. rewrite forAll_lookup, E by done. destruct (decide _); [exists (f k)|exists k]; (split; [done|]);
    [apply Hg|apply workGrows_refl].
Qed.

Lemma send_works from f s : works (send from f s) = works s.
Proof. unfold send. by destruct (closed s). Qed.

Lemma endConnection_grows s : worksGrow (works s) (works (endConnection s)).
Proof.
  unfold endConnection. simpl. destruct (closed s); [apply worksGrow_refl|]. simpl.
  eapply worksGrow_trans; [apply (forAll_grows asCancelled (acquiring s)); [done|by intros k]|].
  apply forAll_grows; [done|by intros k].
Qed.

Lemma endConnection_length s : length (works (endConnection s)) = length (works s).
Proof. unfold endConnection. simpl. destruct (closed s); [done|]. simpl. by rewrite !forAll_length. Qed.

Lemma setStage_grows w p s k :
  works s !! w = Some k → stage k ≠ WorkDone → worksGrow (works s) (works (setStage w p s)).
Proof. intros E Hk. apply worksGrow_alter. intros k' E'. simplify_eq. by split. Qed.

(** What a step does to the works: it may add one, when requests are accepted. *)
Definition worksStep (s s' : Server) : Prop :=
  worksGrow (works s) (works s') ∧ (accepting s = false → length (works s') = length (works s) ∧ accepting s' = false).

Lemma dispatch_works request s :
  ∃ l k, works (dispatch request s) = l ++ [k] ∧ worksGrow (works s) l ∧ length l = length (works s) ∧
    (l = works s ∨ ∃ h, l = alter asReleased h (works s)) ∧
    workId k = stringOf (get request "id") ∧ body k = readRequest engineError request ∧ stage k ≠ WorkDone ∧ stage k ≠ Discarding ∧
    handed k = [] ∧ acquired k = false ∧ workReleased k = false ∧ cancelled k = false.
Proof.
  unfold dispatch. destruct (readRequest engineError request) as [r|error] eqn:Er.
  - assert (∀ p, p ≠ WorkDone → p ≠ Discarding → ∃ l k, works s ++ [mkWork (stringOf (get request "id")) (inl r) p [] false false false] = l ++ [k] ∧
      worksGrow (works s) l ∧ length l = length (works s) ∧ (l = works s ∨ ∃ h, l = alter asReleased h (works s)) ∧
      workId k = stringOf (get request "id") ∧ body k = inl r ∧ stage k ≠ WorkDone ∧ stage k ≠ Discarding ∧
      handed k = [] ∧ acquired k = false ∧ workReleased k = false ∧ cancelled k = false) as Hadd.
    { intros p Hp Hp'. eexists _, _. split; [reflexivity|]. split_and!; try done; [apply worksGrow_refl|by left]. }
    destruct r; simpl; try (by apply Hadd).
    + destruct (observations s !! observation) as [h|]; [|by apply Hadd]. simpl. eexists _, _. split; [reflexivity|].
      split_and!; try done; [by apply worksGrow_alter|apply length_alter|right; by eexists].
    + destruct (observations s !! observation); by apply Hadd.
  - eexists _, _. split; [destruct (eq_str _ _); reflexivity|]. split_and!; try done; [apply worksGrow_refl|by left].
Qed.

Lemma onMessage_cases data s :
  onMessage data s = s ∨
  (accepting s = true ∧ closed s = false ∧ ∃ id, onMessage data s =
     setShutdown (Draining id) (setFlags (serving s) false (closed s) (subscribed s) (heartbeat s) s)) ∨
  (accepting s = true ∧ closed s = false ∧ ∃ request, parseWorkerFrame data = Some request ∧ onMessage data s = dispatch request s).
Proof.
  unfold onMessage. destruct (parseWorkerFrame data) as [request|]; [|by left]. destruct (negb (has request "id")); [by left|].
  destruct (accepting s); [|by left]. destruct (closed s) eqn:Ec; [by left|]. simpl. right.
  destruct (eq_str _ "shutdown"); [left|right]; (split_and!; [done|done|]); by eexists.
Qed.

Lemma installAcquired_works w o target s k :
  works s !! w = Some k → stage k ≠ WorkDone →
  worksGrow (works s) (works (installAcquired w o target s)) ∧ length (works (installAcquired w o target s)) = length (works s) ∧
  accepting (installAcquired w o target s) = accepting s.
Proof.
  intros E Hk. unfold installAcquired. destruct (_ || _); unfold setStage; simpl; rewrite !length_alter, ?alter_alter;
    (split_and!; [|done|done]); apply worksGrow_alter; intros x Ex; simplify_eq; by split.
Qed.

Lemma serverStep_works registration e s s' : serverStep registration e s = Some s' → worksStep s s'.
Proof.
  intros H. assert (∀ s1, works s1 = works s → accepting s1 = accepting s → worksStep s s1) as Hsame.
  { intros s1 Ew Ea. split; rewrite Ew, ?Ea; [apply worksGrow_refl|done]. }
  assert (∀ w p s1 k, works s !! w = Some k → stage k ≠ WorkDone → works s1 = works (setStage w p s) → accepting s1 = accepting s →
    worksStep s s1) as Hstage.
  { intros w p s1 k E Hk Ew Ea. split; rewrite Ew, ?Ea; [by eapply setStage_grows|]. intros Hacc. split; [apply length_alter|done]. }
  assert (∀ s1, works s1 = works s → worksStep s (endConnection s1)) as Hend.
  { intros s1 Ew. split; [rewrite <- Ew; apply endConnection_grows|]. intros _. split; [by rewrite endConnection_length, Ew|].
    unfold endConnection. simpl. by destruct (closed s1). }
  destruct e; simpl in H.
  - unfold infoReturns in H. destruct (serving s || closed s); [done|]. injection H as <-.
    destruct info; apply Hsame; simpl; rewrite ?send_works; try done.
  - destruct (serving s); [|done]. injection H as <-.
    destruct (onMessage_cases data s) as [-> | [(_ & _ & id & ->) | (Ha & _ & request & _ & ->)]].
    + by apply Hsame.
    + split; [apply worksGrow_refl|]. done.
    + destruct (dispatch_works request s) as (l & k & Ew & Hg & _). split; [|congruence]. rewrite Ew.
      eapply worksGrow_trans; [exact Hg|apply worksGrow_app].
  - apply bind_Some in H as (k & E & (o & Ho & H)%bind_Some). destruct (is_object frame); [|done]. injection H as <-.
    assert (∀ s1, works s1 = alter (withFrame frame) w (works s) → accepting s1 = accepting s → worksStep s s1) as Hh.
    { intros s1 Ew Ea. split; rewrite Ew, ?Ea; [|intros Hacc; by rewrite length_alter]. apply worksGrow_alter. intros x _. split; try done. by eexists. }
    apply Hh; rewrite ?send_works; unfold send; repeat case_match; done.
  - apply bind_Some in H as (k & E & H). destruct (stage k) eqn:Es; try done. destruct (body k) as [r|]; [|done]. injection H as <-.
    assert (stage k ≠ WorkDone) as Hk by congruence. destruct (opens r) as [o|], result as [v|error].
    + destruct (installAcquired_works w o v s k E Hk) as (Hg & Hl & Ha). split; [done|]. by rewrite Hl, Ha.
    + by eapply Hstage.
    + eapply Hstage; [done|done|apply send_works|]. unfold send. by case_match.
    + by eapply Hstage.
  - apply bind_Some in H as (k & E & H). destruct (stage k) eqn:Es; simplify_eq; (eapply Hstage; [done|congruence|reflexivity|done]).
  - apply bind_Some in H as (k & E & H). destruct (stage k) eqn:Es; simplify_eq;
      (eapply Hstage; [done|congruence|apply send_works|]); unfold send; by case_match.
  - unfold onEvent in H. destruct (subscribed s); [|done]. injection H as <-. destruct (eq_str _ _).
    + apply Hend, send_works.
    + apply Hsame; [apply send_works|unfold send; by destruct (closed s)].
  - unfold tick in H. destruct (heartbeat s); [|done]. injection H as <-. destruct silent; [by apply Hend|by apply Hsame].
  - unfold drained in H. destruct (shutdown s); try done. destruct (forallb _ _); simplify_eq. by apply Hsame.
  - unfold disposeReturns in H. destruct (shutdown s); simplify_eq. apply (Hend (send FromShutdown (okReply id JNull) s)), send_works.
  - destruct (serving s); simplify_eq. by apply Hend.
Qed.

Lemma runServer_ind registration (P : Server → Prop) es s s' :
  (∀ e s1 s2, P s1 → serverStep registration e s1 = Some s2 → P s2) → P s → runServer registration es s = Some s' → P s'.
Proof.
  intros Hs. revert s. induction es as [|e es IH]; intros s H; simpl; [by intros [= <-]|].
  intros (s1 & H1 & H2)%bind_Some. eapply IH; [by eapply Hs|done].
Qed.

(** ** What was sent *)

Definition repliesOf (w : nat) (l : list (Origin * json)) : list json :=
  snd <$> List.filter (λ p, bool_decide (p.1 = FromWork w)) l.
Definition sinkOut (w : nat) (l : list (Origin * json)) : list json :=
  snd <$> List.filter (λ p, bool_decide (p.1 = FromSink w)) l.

Definition replyFor (id : string) (b : json) : Prop := (∃ v, b = okReply id v) ∨ (∃ error, b = errorReply id error).

(** One reply once the request is done, unless the connection ended before. *)
Definition replied (c : bool) (rs : list json) (k : Work) : Prop :=
  match stage k with
  | WorkDone => (rs = [] ∧ c = true) ∨ ∃ b, replyFor (workId k) b ∧ rs = [jsonRoundTrip b]
  | _ => rs = []
  end.

(** The frames of a sink, in order, up to the end of the connection. *)
Definition sinkSent (c : bool) (fs : list json) (k : Work) : Prop :=
  match opensBody (body k) with
  | Some o => ∃ n, n ≤ length (handed k) ∧ (c = false → n = length (handed k)) ∧
      fs = (λ f, jsonRoundTrip (observationPush o f)) <$> take n (handed k)
  | None => fs = []
  end.

Definition flagged (c : bool) (k : Work) : Prop := cancelled k = true ∨ stage k = Discarding → c = true.

Record log_ok (c : bool) (l : list Work) (out : list (Origin * json)) : Prop := {
  lg_reply : ∀ w k, l !! w = Some k → replied c (repliesOf w out) k;
  lg_sink : ∀ w k, l !! w = Some k → sinkSent c (sinkOut w out) k;
  lg_none : ∀ w, l !! w = None → repliesOf w out = [] ∧ sinkOut w out = [];
  lg_flag : ∀ w k, l !! w = Some k → flagged c k
}.

Lemma repliesOf_app w l l' : repliesOf w (l ++ l') = repliesOf w l ++ repliesOf w l'.
Proof. unfold repliesOf. by rewrite List.filter_app, fmap_app. Qed.
Lemma sinkOut_app w l l' : sinkOut w (l ++ l') = sinkOut w l ++ sinkOut w l'.
Proof. unfold sinkOut. by rewrite List.filter_app, fmap_app. Qed.

(** One work moves, and frames of its own may be sent. *)
Lemma log_move c l out w k f es :
  log_ok c l out → l !! w = Some k →
  replied c (repliesOf w out ++ repliesOf w es) (f k) → sinkSent c (sinkOut w out ++ sinkOut w es) (f k) → flagged c (f k) →
  (∀ i, i ≠ w → repliesOf i es = [] ∧ sinkOut i es = []) → log_ok c (alter f w l) (out ++ es).
Proof.
  intros [H1 H2 H3 H4] E Hr Hs Hf Hes. split.
  - intros i x [(-> & y & Ey & ->) | [Hne Ex]]%alter_lookup_Some; rewrite repliesOf_app; [by simplify_eq|].
    rewrite (proj1 (Hes i Hne)), app_nil_r. by apply H1.
  - intros i x [(-> & y & Ey & ->) | [Hne Ex]]%alter_lookup_Some; rewrite sinkOut_app; [by simplify_eq|].
    rewrite (proj2 (Hes i Hne)), app_nil_r. by apply H2.
  - intros i Ei. assert (i ≠ w) as Hne by (intros ->; by rewrite list_lookup_alter_eq, E in Ei).
    rewrite list_lookup_alter_ne in Ei by done. rewrite repliesOf_app, sinkOut_app. destruct (Hes i Hne) as [-> ->].
    rewrite !app_nil_r. by apply H3.
  - intros i x [(-> & y & Ey & ->) | [Hne Ex]]%alter_lookup_Some; [by simplify_eq|by eapply H4].
Qed.

Lemma log_same c l out w k f :
  log_ok c l out → l !! w = Some k → replied c (repliesOf w out) (f k) → sinkSent c (sinkOut w out) (f k) → flagged c (f k) →
  log_ok c (alter f w l) out.
Proof.
  intros H E Hr Hs Hf. rewrite <- (app_nil_r out). apply (log_move _ _ _ w k); try done; by rewrite app_nil_r.
Qed.

(** A request goes on without being done. *)
Lemma log_stage c l out w k p :
  log_ok c l out → l !! w = Some k → stage k ≠ WorkDone → p ≠ WorkDone → (p = Discarding → c = true) →
  log_ok c (alter (atStage p) w l) out.
Proof.
  intros H E Hk Hp Hd. apply (log_same _ _ _ w k); [done|done|..].
  - pose proof (lg_reply _ _ _ H w k E) as Hr. unfold replied in *. simpl. destruct (stage k); try done; by destruct p.
  - exact (lg_sink _ _ _ H w k E).
  - intros [Hc | Hp2]; [apply (lg_flag _ _ _ H w k E); by left|by apply Hd].
Qed.

(** A frame of the link itself. *)
Lemma log_other c l out from x :
  (∀ w, from ≠ FromWork w ∧ from ≠ FromSink w) → log_ok c l out → log_ok c l (out ++ [(from, x)]).
Proof.
  intros Hf [H1 H2 H3 H4]. assert (∀ w, repliesOf w (out ++ [(from, x)]) = repliesOf w out ∧ sinkOut w (out ++ [(from, x)]) = sinkOut w out) as Hsame.
  { intros w. destruct (Hf w) as [Hw Hs]. rewrite repliesOf_app, sinkOut_app. unfold repliesOf at 2, sinkOut at 2. simpl.
    rewrite !bool_decide_eq_false_2 by done. by rewrite !app_nil_r. }
  split; intros w; destruct (Hsame w) as [E1 E2]; rewrite ?E1, ?E2; auto. by apply H4.
Qed.

Lemma log_add c l out k :
  log_ok c l out → stage k ≠ WorkDone → stage k ≠ Discarding → handed k = [] → cancelled k = false → log_ok c (l ++ [k]) out.
Proof.
  intros [H1 H2 H3 H4] Hd Hdis Hh Hc. split.
  - intros w x [[_ E] | [-> <-]]%lookup_snoc_Some; [by apply H1|]. unfold replied.
    destruct (H3 (length l)) as [-> _]; [by apply lookup_ge_None|]. by destruct (stage k).
  - intros w x [[_ E] | [-> <-]]%lookup_snoc_Some; [by apply H2|]. unfold sinkSent.
    destruct (H3 (length l)) as [_ ->]; [by apply lookup_ge_None|]. destruct (opensBody (body k)); [|done].
    exists 0. rewrite Hh. by split_and!.
  - intros w E%lookup_ge_None. rewrite length_app in E. apply H3, lookup_ge_None. lia.
  - intros w x [[_ E] | [-> <-]]%lookup_snoc_Some; [by eapply H4|]. intros [? | ?]; congruence.
Qed.

Lemma log_close c l out : log_ok c l out → log_ok true l out.
Proof.
  intros [H1 H2 H3 H4]. split; try done.
  - intros w k E. specialize (H1 w k E). unfold replied in *. destruct (stage k); try done.
    destruct H1 as [[? ?] | ?]; [by left|by right].
  - intros w k E. specialize (H2 w k E). unfold sinkSent in *. destruct (opensBody (body k)); [|done].
    destruct H2 as (n & ? & _ & ?). by exists n.
Qed.

Lemma log_forAll l out f m :
  (∀ k, f (f k) = f k) → (∀ k, stage (f k) = stage k ∧ body (f k) = body k ∧ handed (f k) = handed k ∧ workId (f k) = workId k) →
  log_ok true l out → log_ok true (forAll f m l) out.
Proof.
  intros Hidem Hf [H1 H2 H3 H4].
  assert (∀ w x, forAll f m l !! w = Some x → ∃ k, l !! w = Some k ∧ (x = k ∨ x = f k)) as Hinv.
  { intros w x. rewrite forAll_lookup by done. destruct (decide _); [intros (k & -> & ->)%fmap_Some|intros ->]; eauto. }
  split; [| | |done].
  - intros w x (k & E & [-> | ->])%Hinv; [by apply H1|]. unfold replied. destruct (Hf k) as (-> & _ & _ & ->). by apply H1.
  - intros w x (k & E & [-> | ->])%Hinv; [by apply H2|]. unfold sinkSent. destruct (Hf k) as (_ & -> & -> & _). by apply H2.
  - intros w E. apply H3. rewrite forAll_lookup in E by done. destruct (decide _); [by apply fmap_None in E|done].
Qed.

Definition logged (s : Server) : Prop := log_ok (closed s) (works s) (sent s).

Lemma finish_logged s w k b :
  logged s → works s !! w = Some k → stage k ≠ WorkDone → replyFor (workId k) b → logged (send (FromWork w) b (setStage w WorkDone s)).
Proof.
  unfold logged. intros H E Hk Hb. pose proof (lg_reply _ _ _ H w k E) as Hr. pose proof (lg_sink _ _ _ H w k E) as Hs.
  assert (repliesOf w (sent s) = []) as Hnone by (unfold replied in Hr; by destruct (stage k)).
  assert (flagged (closed s) (atStage WorkDone k)) as Hf by (intros [Hc | [=]]; apply (lg_flag _ _ _ H w k E); by left).
  unfold send. change (closed (setStage w WorkDone s)) with (closed s). destruct (closed s) eqn:Ec.
  - change (log_ok (closed s) (alter (atStage WorkDone) w (works s)) (sent s)). rewrite Ec.
    apply (log_same _ _ _ w k); [done|done|left; done|done|done].
  - change (log_ok (closed s) (alter (atStage WorkDone) w (works s)) (sent s ++ [(FromWork w, jsonRoundTrip b)])). rewrite Ec.
    apply (log_move _ _ _ w k); [done|done|..|done|].
    + right. exists b. split; [done|]. rewrite Hnone. unfold repliesOf. simpl. by rewrite bool_decide_eq_true_2.
    + unfold sinkOut at 2. simpl. by rewrite app_nil_r.
    + intros i Hne. unfold repliesOf, sinkOut. simpl. rewrite bool_decide_eq_false_2 by congruence. done.
Qed.

Lemma hand_logged s w k o f :
  logged s → works s !! w = Some k → opensBody (body k) = Some o →
  logged (send (FromSink w) (observationPush o f) (setWorks (alter (withFrame f) w (works s)) s)).
Proof.
  unfold logged. intros H E Ho. pose proof (lg_reply _ _ _ H w k E) as Hr. pose proof (lg_sink _ _ _ H w k E) as Hs.
  unfold sinkSent in Hs. rewrite Ho in Hs. destruct Hs as (n & Hn & Hlen & Hs).
  assert (flagged (closed s) (withFrame f k)) as Hf by exact (lg_flag _ _ _ H w k E).
  unfold send. change (closed (setWorks (alter (withFrame f) w (works s)) s)) with (closed s). destruct (closed s) eqn:Ec.
  - change (log_ok (closed s) (alter (withFrame f) w (works s)) (sent s)). rewrite Ec.
    apply (log_same _ _ _ w k); [done|done|done| |done]. unfold sinkSent. simpl. rewrite Ho. exists n.
    rewrite length_app, take_app_le by done. split_and!; [lia|done|done].
  - change (log_ok (closed s) (alter (withFrame f) w (works s)) (sent s ++ [(FromSink w, jsonRoundTrip (observationPush o f))])). rewrite Ec.
    apply (log_move _ _ _ w k); [done|done|..|done|].
    + unfold repliesOf at 2. simpl. by rewrite app_nil_r.
    + unfold sinkSent. simpl. rewrite Ho. specialize (Hlen eq_refl). exists (S n). rewrite length_app, Hs. simpl.
      split_and!; [lia|lia|]. rewrite Hlen, firstn_all, take_ge by (rewrite length_app; simpl; lia).
      unfold sinkOut. simpl. rewrite bool_decide_eq_true_2 by done. by rewrite fmap_app.
    + intros i Hne. unfold repliesOf, sinkOut. simpl. rewrite (bool_decide_eq_false_2 (FromSink w = FromSink i)) by congruence. done.
Qed.

Lemma other_logged s from x : (∀ w, from ≠ FromWork w ∧ from ≠ FromSink w) → logged s → logged (send from x s).
Proof.
  unfold logged. intros Hf H. unfold send. destruct (closed s) eqn:Ec; [by rewrite Ec|].
  change (log_ok (closed s) (works s) (sent s ++ [(from, jsonRoundTrip x)])). rewrite Ec in *. by apply log_other.
Qed.

Lemma endConnection_logged s : logged s → logged (endConnection s).
Proof.
  unfold logged, endConnection. intros H. simpl. destruct (closed s) eqn:Ec; simpl; [done|].
  apply log_forAll; [done|done|]. assert (log_ok true (works s) (sent s)) as Ht by (by eapply log_close).
  by apply log_forAll.
Qed.

Lemma dispatch_same request s :
  sent (dispatch request s) = sent s ∧ closed (dispatch request s) = closed s ∧ accepting (dispatch request s) = accepting s ∧
  shutdown (dispatch request s) = shutdown s.
Proof. unfold dispatch. repeat case_match; done. Qed.

Lemma dispatch_logged request s : logged s → logged (dispatch request s).
Proof.
  unfold logged. intros H. destruct (dispatch_same request s) as (-> & -> & _).
  destruct (dispatch_works request s) as (l & k & -> & _ & _ & Hl & _ & _ & Hd & Hdis & Hh & _ & _ & Hc).
  apply log_add; [|done..]. destruct Hl as [-> | (h & ->)]; [done|]. destruct (works s !! h) as [x|] eqn:E.
  - apply (log_same _ _ _ h x); [done|done|exact (lg_reply _ _ _ H h x E)|exact (lg_sink _ _ _ H h x E)|exact (lg_flag _ _ _ H h x E)].
  - by rewrite alter_out.
Qed.

Lemma installAcquired_logged s w o target k :
  logged s → works s !! w = Some k → stage k ≠ WorkDone → logged (installAcquired w o target s).
Proof.
  unfold logged, installAcquired. intros H E Hk. cbn [works setTables setWorks]. rewrite list_lookup_alter_eq, E. cbn [fmap option_fmap option_map].
  pose proof (lg_reply _ _ _ H w k E) as Hr.
  assert (repliesOf w (sent s) = []) as Hnone by (unfold replied in Hr; by destruct (stage k)).
  change (cancelled (asAcquired k)) with (cancelled k). cbn [closed setTables setWorks].
  destruct (closed s || cancelled k) eqn:Ed; unfold setStage; simpl; rewrite ?alter_alter; (apply (log_same _ _ _ w k); [done|done|done|..]).
  - exact (lg_sink _ _ _ H w k E).
  - intros _. apply orb_prop in Ed as [Ed | Ed]; [done|]. apply (lg_flag _ _ _ H w k E). by left.
  - exact (lg_sink _ _ _ H w k E).
  - apply orb_false_iff in Ed as [_ Ed]. intros [Hc | [=]]. simpl in Hc. congruence.
Qed.

Lemma serverStep_logged registration e s s' : serverStep registration e s = Some s' → logged s → logged s'.
Proof.
  intros H Hl. destruct e; simpl in H.
  - unfold infoReturns in H. destruct (serving s || closed s) eqn:Eg; [done|]. apply orb_false_iff in Eg as [_ Ec]. injection H as <-.
    destruct info as [info|].
    + assert (logged (send FromLink (helloPush registration info) s)) as Hs by by apply other_logged.
      unfold logged, send in *. rewrite Ec in *. simpl in *. by rewrite Ec in Hs.
    + by eapply log_close.
  - destruct (serving s); [|done]. injection H as <-.
    destruct (onMessage_cases data s) as [-> | [(_ & _ & id & ->) | (_ & _ & request & _ & ->)]]; [done|done|by apply dispatch_logged].
  - apply bind_Some in H as (k & E & (o & Ho & H)%bind_Some). destruct (is_object frame); [|done]. injection H as <-. pose proof (hand_logged s w k o frame Hl E Ho) as Hh.
    destruct (eq_str _ "closed"); [|done]. unfold logged, send in *. simpl in *. by destruct (closed s).
  - apply bind_Some in H as (k & E & H). destruct (stage k) eqn:Es; try done. destruct (body k) as [r|]; [|done]. injection H as <-.
    assert (stage k ≠ WorkDone) as Hk by congruence. destruct (opens r) as [o|], result as [v|error].
    + by eapply installAcquired_logged.
    + by eapply log_stage.
    + eapply finish_logged; [done..|left; by eexists].
    + by eapply log_stage.
  - apply bind_Some in H as (k & E & H). destruct (stage k) eqn:Es; simplify_eq.
    + apply (log_same _ _ _ w k); [done|done|..].
      * left. split; [|by apply (lg_flag _ _ _ Hl w k E); right]. pose proof (lg_reply _ _ _ Hl w k E) as Hr. unfold replied in Hr. by rewrite Es in Hr.
      * exact (lg_sink _ _ _ Hl w k E).
      * intros _. apply (lg_flag _ _ _ Hl w k E). by right.
    + eapply log_stage; [done|done|congruence|by destruct error|by destruct error].
  - apply bind_Some in H as (k & E & H). destruct (stage k) eqn:Es; simplify_eq;
      (eapply finish_logged; [done|done|congruence|]); [left|right]; by eexists.
  - unfold onEvent in H. destruct (subscribed s); [|done]. injection H as <-.
    destruct (eq_str _ _); [apply endConnection_logged|]; by apply other_logged.
  - unfold tick in H. destruct (heartbeat s); [|done]. injection H as <-. destruct silent; [by apply endConnection_logged|done].
  - unfold drained in H. destruct (shutdown s); try done. destruct (forallb _ _); by simplify_eq.
  - unfold disposeReturns in H. destruct (shutdown s); simplify_eq.
    apply (endConnection_logged (send FromShutdown (okReply id JNull) s)). by apply other_logged.
  - destruct (serving s); simplify_eq. by apply endConnection_logged.
Qed.

End server.

#[global] Arguments serverStep_works {_} _ _ _ _ _.
#[global] Arguments serverStep_logged {_} _ _ _ _ _ _.
#[global] Arguments runServer_ind {_} _ _ _ _ _ _ _ _.
#[global] Arguments dispatch_works {_} _ _.
#[global] Arguments dispatch_same {_} _ _.
#[global] Arguments onMessage_cases {_} _ _.
