(* ===== verification/Served.v ===== *)
(** * What a worker's end of a link guarantees

    Over [Server]: every admitted request is answered once, what was acquired is
    released, a shutdown answers last. *)

From S2P Require Export Server.

Section served.
  Context (engineError : string → string) (registration : json).

Abbreviation serverStep := (serverStep engineError registration).
Abbreviation runServer := (runServer engineError registration).
Abbreviation serverReachable := (serverReachable engineError registration).
Abbreviation dispatch := (dispatch engineError).
Abbreviation onMessage := (onMessage engineError).

(** ** Reachable states *)

Lemma runServer_grows es s s' : runServer es s = Some s' → worksGrow (works s) (works s').
Proof.
  apply (runServer_ind registration (λ s', worksGrow (works s) (works s'))); [|apply worksGrow_refl].
  intros e s1 s2 H Hs. eapply worksGrow_trans; [exact H|]. apply (serverStep_works registration e s1 s2 Hs).
Qed.

Lemma serveConnection_logged : logged serveConnection.
Proof. by split. Qed.

Lemma reachable_logged s : serverReachable s → logged s.
Proof.
  intros (es & H). eapply (runServer_ind registration logged); [|apply serveConnection_logged|exact H].
  intros e s1 s2 ? ?. by eapply serverStep_logged.
Qed.

(** ** The table of observations *)

(** No two requests open one observation: the ids are minted. *)
Definition distinct (l : list Work) : Prop :=
  ∀ w w' k k' o, l !! w = Some k → l !! w' = Some k' → opensBody (body k) = Some o → opensBody (body k') = Some o → w = w'.

Lemma distinct_grow l l' : worksGrow l l' → distinct l' → distinct l.
Proof.
  intros Hg Hd w w' k k' o E E' Ho Ho'. destruct (Hg w k E) as (x & Ex & [_ B _ _]), (Hg w' k' E') as (x' & Ex' & [_ B' _ _]).
  eapply Hd; [exact Ex|exact Ex'|by rewrite B|by rewrite B'].
Qed.

(** The service ended the observation. *)
Definition endedByService (k : Work) : bool := existsb (λ f, eq_str (get f "kind") "closed") (handed k).

(** An acquired observation that is neither released nor ended is in the table. *)
Record table_ok (m : gmap string nat) (l : list Work) : Prop := {
  tb_entry : ∀ o w, m !! o = Some w → ∃ k, l !! w = Some k ∧ opensBody (body k) = Some o;
  tb_held : ∀ w k o, l !! w = Some k → opensBody (body k) = Some o → acquired k = true →
    workReleased k = true ∨ endedByService k = true ∨ m !! o = Some w
}.

Definition tabled (s : Server) : Prop :=
  table_ok (observations s) (works s) ∧ (closed s = true → observations s = ∅) ∧
  (serving s = false → works s = [] ∧ observations s = ∅).

(** A change of one work that neither acquires nor forgets. *)
Definition keeps (f : Work → Work) : Prop := ∀ k,
  body (f k) = body k ∧ (acquired (f k) = true → acquired k = true) ∧ (workReleased k = true → workReleased (f k) = true) ∧
  (endedByService k = true → endedByService (f k) = true).

Lemma table_alter m l f w : keeps f → table_ok m l → table_ok m (alter f w l).
Proof.
  intros Hf [H1 H2]. split.
  - intros o i (k & E & Ho)%H1. destruct (decide (i = w)) as [-> | Hne].
    + exists (f k). rewrite list_lookup_alter_eq, E. by destruct (Hf k) as [-> _].
    + exists k. by rewrite list_lookup_alter_ne.
  - intros i x o [(-> & k & E & ->) | [_ E]]%alter_lookup_Some Ho Ha; [|by apply H2].
    destruct (Hf k) as (Hb & Hacq & Hrel & Hend). rewrite Hb in Ho. destruct (H2 w k o E Ho (Hacq Ha)) as [? | [? | ?]]; auto.
Qed.

Lemma table_add m l k : acquired k = false → table_ok m l → table_ok m (l ++ [k]).
Proof.
  intros Hk [H1 H2]. split.
  - intros o w (x & E & Ho)%H1. exists x. split; [by apply lookup_app_l_Some|done].
  - intros w x o [[_ E] | [-> <-]]%lookup_snoc_Some Ho Ha; [by apply H2|congruence].
Qed.

(** An entry leaves the table with a release or a terminal frame. *)
Lemma table_drop m l f w o :
  distinct l → table_ok m l → keeps f → (∀ k, l !! w = Some k → workReleased (f k) = true ∨ endedByService (f k) = true) →
  (m !! o = Some w ∨ ∃ k, l !! w = Some k ∧ opensBody (body k) = Some o) → table_ok (delete o m) (alter f w l).
Proof.
  intros Hd Ht Hf Hend Hw. assert (∃ k, l !! w = Some k ∧ opensBody (body k) = Some o) as (k & E & Ho)
    by (destruct Hw as [Hw | Hw]; [by apply (tb_entry _ _ Ht)|exact Hw]).
  destruct (table_alter m l f w Hf Ht) as [H1 H2]. split.
  - intros o' i [_ E']%lookup_delete_Some. by apply H1.
  - intros i x o' Ex Ho' Ha. destruct (decide (o' = o)) as [-> | Hne].
    + assert (i = w) as ->.
      { apply alter_lookup_Some in Ex as [[-> _] | [_ Ex]]; [done|]. by eapply Hd. }
      apply alter_lookup_Some in Ex as [(_ & y & Ey & ->) | [? _]]; [|done]. destruct (Hend y Ey); auto.
    + rewrite lookup_delete_ne by done. by apply H2.
Qed.

Lemma keeps_stage p : keeps (atStage p).
Proof. by intros k. Qed.
Lemma keeps_released : keeps asReleased.
Proof. by intros k. Qed.
Lemma keeps_cancelled : keeps asCancelled.
Proof. by intros k. Qed.
Lemma keeps_frame f : keeps (withFrame f).
Proof. intros k. split_and!; try done. unfold endedByService. simpl. rewrite existsb_app. by intros ->. Qed.

Lemma table_forAll m l f (m' : gmap string nat) : keeps f → table_ok m l → table_ok m (forAll f m' l).
Proof.
  intros Hf. unfold forAll. revert l. induction (map_to_list m') as [|x xs IH]; intros l Ht; [done|]. cbn [foldl].
  by apply IH, table_alter.
Qed.

Lemma endConnection_tabled s : tabled s → tabled (endConnection s).
Proof.
  intros (Ht & Hc & Hs). unfold endConnection. simpl. destruct (closed s) eqn:Ec; [split_and!; [done|by intros _; apply Hc|done]|].
  split_and!; [|done|simpl; intros Hv; split; [|done]; apply length_zero_iff_nil; by rewrite !forAll_length, (proj1 (Hs Hv))].
  simpl. split; [done|].
  assert (table_ok (observations s) (forAll asCancelled (acquiring s) (works s))) as [_ H2] by (apply table_forAll; [apply keeps_cancelled|done]).
  intros w k o E Ho Ha. rewrite forAll_lookup in E by done. destruct (decide (w ∈ _)) as [Hin | Hnin].
  - apply fmap_Some in E as (x & Ex & ->). by left.
  - destruct (H2 w k o E Ho Ha) as [? | [? | Hm]]; auto. destruct Hnin. apply map_values_spec. by exists o.
Qed.

(** The steps of an acquisition that completes. *)
Lemma table_discard m l f w :
  (∀ k, body (f k) = body k ∧ workReleased (f k) = true) → table_ok m l → table_ok m (alter f w l).
Proof.
  intros Hf [H1 H2]. split.
  - intros o i (k & E & Ho)%H1. destruct (decide (i = w)) as [-> | Hne].
    + exists (f k). rewrite list_lookup_alter_eq, E. by destruct (Hf k) as [-> _].
    + exists k. by rewrite list_lookup_alter_ne.
  - intros i x o [(-> & k & E & ->) | [_ E]]%alter_lookup_Some Ho Ha; [|by apply H2]. left. apply Hf.
Qed.

Lemma table_install m l f w k o :
  distinct l → l !! w = Some k → opensBody (body k) = Some o → (∀ k, body (f k) = body k) →
  table_ok m l → table_ok (<[o := w]> m) (alter f w l).
Proof.
  intros Hd E Ho Hf [H1 H2]. split.
  - intros o' i [[<- <-] | [Hne E']]%lookup_insert_Some.
    + exists (f k). rewrite list_lookup_alter_eq, E. by rewrite Hf.
    + destruct (H1 _ _ E') as (x & Ex & Hx). exists x. rewrite list_lookup_alter_ne; [done|]. intros <-. congruence.
  - intros i x o' [(-> & y & Ey & ->) | [Hne Ex]]%alter_lookup_Some Ho' Ha.
    + rewrite Hf in Ho'. simplify_eq. right. right. apply lookup_insert_eq.
    + destruct (H2 i x o' Ex Ho' Ha) as [? | [? | Hm]]; auto. right. right. rewrite lookup_insert_ne; [done|]. intros ->.
      destruct Hne. by eapply Hd.
Qed.

Lemma send_frame from f s :
  works (send from f s) = works s ∧ observations (send from f s) = observations s ∧ closed (send from f s) = closed s ∧
  serving (send from f s) = serving s ∧ accepting (send from f s) = accepting s ∧ shutdown (send from f s) = shutdown s.
Proof. unfold send. by destruct (closed s) eqn:E; simpl; rewrite ?E. Qed.

Lemma send_tabled from f s : tabled s → tabled (send from f s).
Proof. unfold tabled. by destruct (send_frame from f s) as (-> & -> & -> & -> & _). Qed.

(** A step that changes one work and leaves the table. *)
Lemma tabled_alter f w s : keeps f → tabled s → tabled (setWorks (alter f w (works s)) s).
Proof.
  intros Hf (Ht & Hc & Hs). split_and!; simpl; [by apply table_alter|done|]. intros Hv. destruct (Hs Hv) as [-> ->]. done.
Qed.

Lemma dispatch_tabled request s : distinct (works s) → closed s = false → serving s = true → tabled s → tabled (dispatch request s).
Proof.
  intros Hd Hc Hv (Ht & _ & _). assert (∀ id b p, table_ok (observations s) (works s ++ [mkWork id b p [] false false false])) as Hadd
    by (intros; by apply table_add).
  destruct (dispatch_same (engineError := engineError) request s) as (_ & Ecl & _).
  split_and!; [|rewrite Ecl; congruence|unfold Server.dispatch; repeat case_match; simpl; congruence].
  unfold Server.dispatch. destruct (readRequest engineError request) as [r|error]; [|destruct (eq_str _ _); apply Hadd].
  destruct r; try apply Hadd.
  destruct (observations s !! observation) as [h|] eqn:Eh; [|apply Hadd]. apply table_add; [done|].
  apply table_drop; [done|done|apply keeps_released|by left|by left].
Qed.

Lemma installAcquired_tabled w o target s k :
  distinct (works s) → works s !! w = Some k → opensBody (body k) = Some o → tabled s → tabled (installAcquired w o target s).
Proof.
  intros Hd E Ho (Ht & Hc & Hs). unfold installAcquired. cbn [closed setTables setWorks works observations].
  assert (serving s = true) as Hv by (destruct (serving s); [done|]; destruct (Hs eq_refl) as [Hw _]; by rewrite Hw in E).
  destruct (closed s || _) eqn:Ed; unfold setStage; simpl; rewrite ?alter_alter;
    (split_and!; [|simpl; try exact Hc|simpl; congruence]); simpl.
  - by apply table_discard.
  - by eapply table_install.
  - apply orb_false_iff in Ed as [Ed _]. congruence.
Qed.

Lemma serverStep_tabled e s s' : distinct (works s') → serverStep e s = Some s' → tabled s → tabled s'.
Proof.
  intros Hd' H Ht. assert (distinct (works s)) as Hd by (eapply distinct_grow; [apply (serverStep_works registration e s s' H)|done]).
  destruct e; simpl in H.
  - unfold infoReturns in H. destruct (serving s || closed s) eqn:Eg; [done|]. apply orb_false_iff in Eg as [Ev Ec]. injection H as <-.
    destruct Ht as (Ht & Hc & Hs). destruct (Hs Ev) as [Ew Eo]. destruct info.
    + destruct (send_frame FromLink (helloPush registration j) s) as (E1 & E2 & _).
      split_and!; simpl; rewrite ?E1, ?E2; [done|done|done].
    + split_and!; simpl; [done|by intros _|by intros _].
  - destruct (serving s) eqn:Ev; [|done]. injection H as <-.
    destruct (onMessage_cases (engineError := engineError) data s) as [-> | [(_ & _ & id & ->) | (_ & Hc & request & _ & ->)]];
      [done|done|by apply dispatch_tabled].
  - apply bind_Some in H as (k & E & (o & Ho & H)%bind_Some). destruct (is_object frame); [|done]. injection H as <-. apply send_tabled.
    destruct (eq_str (get frame "kind") "closed") eqn:Ef; [|by apply tabled_alter; [apply keeps_frame|]].
    destruct Ht as (Ht & Hc & Hs). split_and!; simpl.
    + apply table_drop; [done|done|apply keeps_frame| |right; by exists k]. intros x _. right. unfold endedByService. simpl.
      rewrite existsb_app. simpl. by rewrite Ef, orb_true_r.
    + intros Hcl. by rewrite (Hc Hcl), delete_empty.
    + intros Hv. destruct (Hs Hv) as [Hw _]. by rewrite Hw in E.
  - apply bind_Some in H as (k & E & H). destruct (stage k); try done. destruct (body k) as [r|] eqn:Eb; [|done]. injection H as <-.
    destruct (opens r) as [o|] eqn:Eo, result as [v|error].
    + eapply installAcquired_tabled; [done|done|by rewrite Eb|done].
    + apply (tabled_alter (atStage (Failing error)) w s (keeps_stage _) Ht).
    + apply send_tabled, (tabled_alter _ w s (keeps_stage _) Ht).
    + apply (tabled_alter _ w s (keeps_stage _) Ht).
  - apply bind_Some in H as (k & E & H). destruct (stage k); simplify_eq; apply (tabled_alter _ w s (keeps_stage _) Ht).
  - apply bind_Some in H as (k & E & H). destruct (stage k); simplify_eq; apply send_tabled, (tabled_alter _ w s (keeps_stage _) Ht).
  - unfold onEvent in H. destruct (subscribed s); [|done]. injection H as <-.
    destruct (eq_str _ _); [apply endConnection_tabled|]; by apply send_tabled.
  - unfold tick in H. destruct (heartbeat s); [|done]. injection H as <-. destruct silent; [by apply endConnection_tabled|done].
  - unfold drained in H. destruct (shutdown s); try done. destruct (forallb _ _); by simplify_eq.
  - unfold disposeReturns in H. destruct (shutdown s); simplify_eq.
    apply (endConnection_tabled (send FromShutdown (okReply id JNull) s)). by apply send_tabled.
  - destruct (serving s); simplify_eq. by apply endConnection_tabled.
Qed.

Lemma runServer_tabled es s s' : distinct (works s') → runServer es s = Some s' → tabled s → tabled s'.
Proof.
  revert s. induction es as [|e es IH]; intros s Hd; simpl; [by intros [= <-]|].
  intros (s1 & H1 & H2)%bind_Some Ht. apply (IH s1 Hd H2). eapply serverStep_tabled; [|exact H1|done].
  by eapply distinct_grow; [eapply runServer_grows|].
Qed.

(** ** The shutdown *)














Lemma done_answered s w k : logged s → closed s = false → works s !! w = Some k → stage k = WorkDone → length (repliesOf w (sent s)) = 1.
Proof.
  intros H Hc E Hk. pose proof (lg_reply _ _ _ H w k E) as Hr. unfold replied in Hr. rewrite Hk in Hr.
  destruct Hr as [[_ ?] | (b & _ & ->)]; [congruence|done].
Qed.





(** ** The heartbeat *)

Lemma serverStep_heartbeat e s s' : serverStep e s = Some s' → heartbeat s = true → heartbeat s' = true.
Proof.
  assert (∀ from f s1, heartbeat (send from f s1) = heartbeat s1) as Hsend by (intros; unfold send; by destruct (closed s1)).
  assert (∀ s1, heartbeat (endConnection s1) = heartbeat s1) as Hend by (intros s1; unfold endConnection; simpl; by destruct (closed s1)).
  intros H Hb. destruct e; simpl in H.
  - unfold infoReturns in H. destruct (serving s || closed s); simplify_eq. by destruct info.
  - destruct (serving s); [|done]. injection H as <-. unfold Server.onMessage. repeat case_match; try done.
    unfold Server.dispatch. by repeat case_match.
  - apply bind_Some in H as (k & E & (o & Ho & H)%bind_Some). destruct (is_object frame); [|done]. injection H as <-. rewrite Hsend. by destruct (eq_str _ _).
  - apply bind_Some in H as (k & E & H). destruct (stage k); try done. destruct (body k) as [r|]; [|done]. injection H as <-.
    destruct (opens r), result; try done; [|by rewrite Hsend]. unfold installAcquired. by case_match.
  - apply bind_Some in H as (k & E & H). by destruct (stage k); simplify_eq.
  - apply bind_Some in H as (k & E & H). destruct (stage k); simplify_eq; by rewrite Hsend.
  - unfold onEvent in H. destruct (subscribed s); simplify_eq. destruct (eq_str _ _); by rewrite ?Hend, Hsend.
  - unfold tick in H. rewrite Hb in H. injection H as <-. destruct silent; by rewrite ?Hend.
  - unfold drained in H. destruct (shutdown s); try done. by destruct (forallb _ _); simplify_eq.
  - unfold disposeReturns in H. destruct (shutdown s); simplify_eq. simpl. by rewrite Hend, Hsend.
  - destruct (serving s); simplify_eq. by rewrite Hend.
Qed.

(** No event stops the interval of a connection: it beats after its end as before. *)
Lemma heartbeat_outlives_connection es s s' :
  runServer es s = Some s' → heartbeat s = true → ∀ silent, is_Some (serverStep (Beats silent) s').
Proof.
  intros Hrun Hb silent. assert (heartbeat s' = true) as H.
  { eapply (runServer_ind registration (λ s, heartbeat s = true)); [|exact Hb|exact Hrun].
    intros e s1 s2 H1 H2. by eapply serverStep_heartbeat. }
  simpl. unfold tick. rewrite H. by eexists.
Qed.

(** ** Properties *)

(** C19. The worker answers each request that it admits at most once, with the id of
    the request and not before it is done; and when it is done the reply has been
    sent, unless the connection ended first. *)
Theorem server_answers_once s w k :
  serverReachable s → works s !! w = Some k →
  let rs := repliesOf w (sent s) in
  length rs ≤ 1 ∧ Forall (λ f, get f "id" = JStr (workId k)) rs ∧ (stage k ≠ WorkDone → rs = []) ∧
  (stage k = WorkDone → closed s = false → length rs = 1).
Proof.
  intros Hreach E rs. pose proof (reachable_logged s Hreach) as Hl. pose proof (lg_reply _ _ _ Hl w k E) as Hr. fold rs in Hr.
  assert (rs = [] ∨ ∃ b, replyFor (workId k) b ∧ rs = [jsonRoundTrip b]) as Hshape.
  { unfold replied in Hr. destruct (stage k); auto. destruct Hr as [[? _] | ?]; [by left|by right]. }
  split_and!.
  - destruct Hshape as [-> | (b & _ & ->)]; simpl; lia.
  - destruct Hshape as [-> | (b & Hb & ->)]; [constructor|]. apply Forall_singleton. destruct Hb as [[v ->] | [error ->]]; apply get_wire.
  - intros Hk. unfold replied in Hr. by destruct (stage k).
  - intros Hk Hc. by eapply done_answered.
Qed.

(** C20. When the connection has ended nothing it acquired stays behind: every
    observation that the service returned to it, also one returned after the end, was
    released or ended by the service. *)
Theorem server_releases_acquired s w k o :
  serverReachable s → distinct (works s) → closed s = true → works s !! w = Some k → opensBody (body k) = Some o →
  acquired k = true → workReleased k = true ∨ endedByService k = true.
Proof.
  intros (es & Hrun) Hd Hc E Ho Ha.
  destruct (runServer_tabled es serveConnection s Hd Hrun) as (Ht & Hempty & _); [by split_and!; [split|..]|].
  destruct (tb_held _ _ Ht w k o E Ho Ha) as [? | [? | Hm]]; [by left|by right|]. by rewrite (Hempty Hc) in Hm.
Qed.


End served.

(** ** Runs *)

Definition demoObserve : json := requestWire "1" (ObserveSession (JStr "address") JNull "0").
Definition demoTarget : json := object [("stem", JStr "s")].
Definition demoFrame : json := object [("kind", JStr "replace"); ("document", JStr "document")].

(** An observation is opened; a request is in flight when the worker is asked to
    stop. *)
Definition demoServing : list ServerEvent :=
  [InfoReturns (inl JNull); ReceivesText (Some demoObserve); Hands 0 demoFrame; ServiceReturns 0 (inl demoTarget); RepliesTo 0;
   ReceivesText (Some (requestWire "2" Info))].
(** The socket ends while an acquisition is in flight. *)
Definition demoLate : list ServerEvent :=
  [InfoReturns (inl JNull); ReceivesText (Some demoObserve); SocketEnds; ServiceReturns 0 (inl demoTarget)].
(** The session ends before its observation is installed. *)
Definition demoEnded : list ServerEvent :=
  [InfoReturns (inl JNull); ReceivesText (Some demoObserve); Hands 0 demoFrame;
   Hands 0 (object [("kind", JStr "closed"); ("address", JStr "address")]); ServiceReturns 0 (inl demoTarget); RepliesTo 0].

Definition demoServer (es : list ServerEvent) : Server := default serveConnection (runServer id JNull es serveConnection).
Definition demoWork : Work :=
  mkWork "1" (inl (ObserveSession (JStr "address") JNull "0")) WorkDone [demoFrame] true false false.

(** The entry of an observation that has ended stays in the table. *)
Lemma ended_observation_installed :
  runServer id JNull demoEnded serveConnection = Some (demoServer demoEnded) ∧ closed (demoServer demoEnded) = false ∧
  observations (demoServer demoEnded) !! "0" = Some 0 ∧ (endedByService <$> works (demoServer demoEnded) !! 0) = Some true.
Proof. by vm_compute. Qed.

Lemma server_answers_once_witness : repliesOf 0 (sent (demoServer demoServing)) = [jsonRoundTrip (okReply "1" demoTarget)] ∧
  length (repliesOf 0 (sent (demoServer demoServing))) = 1.
Proof.
  split; [by vm_compute|].
  apply (server_answers_once id JNull (demoServer demoServing) 0 demoWork); [exists demoServing|..]; by vm_compute.
Defined.

Lemma server_releases_acquired_witness :
  ∃ k, works (demoServer demoLate) !! 0 = Some k ∧ acquired k = true ∧ (workReleased k = true ∨ endedByService k = true).
Proof.
  exists (mkWork "1" (inl (ObserveSession (JStr "address") JNull "0")) Discarding [] true true true). split_and!; [by vm_compute..|].
  apply (server_releases_acquired id JNull (demoServer demoLate) 0 _ "0").
  - exists demoLate. by vm_compute.
  - assert (length (works (demoServer demoLate)) = 1) as Hl by by vm_compute.
    intros w w' k k' o E%lookup_lt_Some E'%lookup_lt_Some _ _. lia.
  - by vm_compute.
  - by vm_compute.
  - reflexivity.
  - reflexivity.
Defined.

