(* ===== verification/Remote.v ===== *)
(** * A worker behind a socket

    The two ends of a worker link, [Link] and [Served], and the socket between them,
    which keeps the order of the texts each end sends.  The sinks of the daemon are
    handed what the service of the worker hands to the sinks made for it, in order
    and up to where the link ends: what [Connection] lets a worker deliver, a worker
    behind a socket delivers too. *)

From S2P Require Import Streams.
From S2P Require Export Served LinkStreams.
From S2P Require Import Link.

(** ** The state *)





Section remote.
  Context (uuid : nat → string) `{Huuid : !Inj (=) (=) uuid} (accept : json → option string) (onUnavailable : DaemonReaction)
    (engineError : string → string) (registration : json).

Abbreviation linkStep := (linkStep uuid accept onUnavailable).
Abbreviation serverStep := (serverStep engineError registration).




(** ** Requests on the wire *)











(** ** The streams of the daemon's end *)








(** ** The frames of the worker's end *)














(** ** What arrives for an observation *)






(** ** The composition *)







(** *** At the daemon *)




(** *** At the worker *)




Lemma onMessage_sent data s : sent (Server.onMessage engineError data s) = sent s.
Proof.
  destruct (onMessage_cases (engineError := engineError) data s) as [-> | [(_ & _ & id & ->) | (_ & _ & request & _ & ->)]]; [done..|].
  apply (dispatch_same (engineError := engineError) request s).
Qed.




(** ** Typed frames *)










End remote.

(** ** A run *)


